(* ===== verification/_CoqProject ===== *)
-Q . S2P
Prelude.v
Types.v
Convert.v
Store.v
StoreOps.v
Concrete.v
StoreProps.v
Effects.v
KeyedLock.v
Flintlock.v
ConcreteEnv.v
Strategy.v
Deletion.v
Provision.v
Reconciler.v
Manager.v
Sweeper.v
LeaseApi.v
PoolAdmin.v
HostAdmin.v
EventsApi.v
Protocols.v
Ownership.v
Confirmed.v
HostRefs.v
Quiet.v
OneVM.v
LeaseProps.v
ProvisionProps.v
ReconcilerProps.v
SweeperProps.v
EventsProps.v
HostProps.v
PoolProps.v
Healthy.v
Liveness.v
LeaseLiveness.v
FakeFlintlock.v
GoldenPath.v
Progress.v
Lifecycle.v
PoolTypes.v
Config.v
Server.v
Metrics.v
Daemon.v
Seeding.v
Supervision.v
Output.v
OutputProps.v
Cli.v
CliProps.v
Schema.v
SchemaProps.v
Sql.v
SqlStore.v
SqlProps.v
SqlTables.v
SqlRefine.v
SqlHosts.v
SqlImplements.v
SqlLife.v
