(* ===== verification/Prelude.v ===== *)
(** * battery, the MicroVM warm pool manager: a verification library

    battery (src/, Go) keeps pools of pre-booted microvms on flintlock hosts and
    leases them to clients.  A daemon, poolmgrd, keeps its state in a SQLite
    database and runs, over that one database: a gRPC server with four services
    (pools, leases, hosts, events), one reconciler goroutine per pool that tops
    the pool up, a sweeper that ends expired leases and retries deletions, and
    the manager that starts and stops the reconcilers.  They share nothing but
    the database, a pool of connections to the flintlock hosts, a few mutexes
    and the notification channels, and every request of every client can run
    between any two of their steps.  That is where the difficulty is, and what
    the library is about: a VM must not be leased twice, a row must not go
    before its microvm, a host must not go while a pool names it, whatever
    fails and whoever else is running.

    ** How the code is modelled

    - Data.  [Types] has the messages and enumerations of
      api/proto/poolmgr/v1alpha1/types.pb.go; an enumeration also has the wire
      numbers the source does not name.  Times are integers of nanoseconds;
      [int32], [int64] and [UnixNano] wrap around ([Prelude.wrap]).
    - The store.  [Convert] is internal/store/convert.go, the rows and their
      conversions.  [Store] is internal/store/sqlite.go: the tables as finite
      maps, each method of the Store interface a function of a state and error
      monad, with the tests, updates and error values of its statements, in a
      transaction where the source opens one.  [StoreOps] gives the interface as
      a type of operations, [storeOp], and its meaning, [denote].  UpdateHost
      and SetHostCordoned are two operations, an UPDATE and a GetHost, because
      the source runs them outside a transaction ([Effects.UpdateHost]); as one
      method each they are in [storeMethod].  The JSON
      encodings are the class [Codec] with laws [CodecLaws]; what SQLite leaves
      open (the order of a scan, whether a conflict names its index) is the
      class [Sqlite].
    - The SQL below it.  [Sql] is the part of SQL the source uses (values with
      NULL, conditions, queries, statements, constraints) on the file of [Schema],
      and database/sql's connection, every call of which can fail, as a schedule
      of faults says.  [SqlStore] is sqlite.go once more, method by method, as the
      statements it sends with their bound arguments, the scans of the columns
      and the transactions.  The order in which a query visits rows, and which of
      two violated constraints is reported, are the class [Engine].
    - Everything else is code that calls: [Effects].  A [prog] is a tree of
      effects (a store call, the clock, an RPC, the connection pool, a mutex,
      a notification, a metric, [go]) and what follows each answer.  It has
      three readings: [wp], one goroutine alone and every possible answer,
      store calls that fail included; [run], the same executed with the answers
      of an [Env]; and [sys_step], any number of goroutines interleaved at
      every effect, blocking on mutexes.  [wp_run] and [sched_steps] relate
      them.  [EventsProps.wp_rely] is [wp] with others acting in between.
    - The callers: [Flintlock] (internal/flintlockclient: pool.go, version.go,
      exec.go), [Strategy] (internal/reconciler/strategy.go), [Deletion]
      (provision.go from EnsureVMDeleted on, drain.go), [Provision]
      (hostpick.go, provision.go), [Reconciler] (reconciler.go), [Sweeper]
      (sweeper.go), [LeaseApi] (internal/api/lease.go), [PoolAdmin]
      (pooladmin.go), [HostAdmin] (hostadmin.go), [EventsApi] (events.go).
      Definitions have the names of the functions they translate; a function
      that is long or loops is cut into named parts, each of which says which.
    - The process around them: [Config] (internal/config/config.go, with Go's
      [time.ParseDuration]), [Server] (internal/server/server.go: TLS, and the
      interceptors as functions from handlers to handlers), [Metrics]
      (internal/metrics), [Daemon] (cmd/poolmgrd/main.go), [Schema] (Open and the
      migrations of sqlite.go, on a file of named tables and columns), and the
      client: [Output] (internal/poolmgrctl/output.go, with [text/tabwriter] and
      RFC 3339 written out) and [Cli] (the rest of internal/poolmgrctl and
      cmd/poolmgrctl/main.go), whose commands call the handlers through the
      server's interceptors over a connection that may lose a request or an
      answer.
    - [Manager] is internal/poolmanager/manager.go as a state machine: each
      critical section and each observable step of a reconciler's goroutine is
      an action, and a run is any sequence of them.  [Supervision.sup_step] runs
      it next to the goroutines of [sys_step], whose lifecycle effects it answers.
    - [KeyedLock] is the mutex map of lockPool and lockHost, statement by
      statement, below the mutexes by name that the handlers' programs take.
    - [FakeFlintlock] is internal/e2etest/flintlock.go, the flintlock of the
      end-to-end suites, as an environment for the programs.

    [Concrete] and [ConcreteEnv] instantiate the classes and hold a sample
    database, world and environment, on which the witnesses run.

    ** What is proved

    - In every interleaving.  [Protocols] names the entry points;
      [Ownership.leases_exclusive]: a VM has at most one lease, under which it
      is LEASED, being deleted or gone.  [Confirmed]: a VM's row is removed only
      after flintlock confirmed its deletion.  [HostRefs]: every stored pool
      names registered hosts only.  Each states a discipline as a protocol over
      effects, shows every entry point keeps to it, and that the invariant
      follows.  [PoolTypes]: every stored pool passes validation.  [Progress]:
      the mutexes cannot deadlock, and no handler ends without giving back its
      own.  [Lifecycle]: the process refines
      an abstract pool whose VMs each live one life, so that a VM is leased once.
      [Supervision] runs PoolAdmin's handlers and the manager as one system: a
      pool that no handler has locked is stored exactly if a reconciler is
      tracked for it, and that one runs the stored spec.
    - Of one handler or pass, on every branch, whatever flintlock answers and
      whichever store calls fail ([Quiet] and [OneVM] hold the rules):
      [LeaseProps] (ClaimVM, yieldClaim, ReleaseVM, Heartbeat),
      [ProvisionProps] (PickHost, Provision), [ReconcilerProps] (CountVMs, a
      pass never overshoots, startup recovery is exact), [SweeperProps] (a tick
      spares live leases and ends expired ones), [EventsProps] (a subscriber
      gets each event once and in order), [HostProps] (AddHost and UpdateHost
      and RemoveHost keep the registry and the connections in step; no connection
      leaks; when the read after UpdateHost's write fails they can differ),
      [PoolProps] (CreatePool, UpdatePool and DeletePool with the reconcilers they
      start and stop).
    - When things work.  [Healthy] says what a working flintlock and a store
      without failures are; then ([Liveness], [LeaseLiveness]) a reconcile pass
      fills the pool, a sweeper tick reclaims all there is to reclaim and a pool
      with an AVAILABLE VM serves a claim.  [GoldenPath]: against the fake
      flintlock the whole path from AddHost to ReleaseVM succeeds, which also
      shows that the hypotheses of the others can hold.
    - Of the SQL.  [SqlProps] has the rules for statements and for methods whose
      calls may fail, [SqlTables] says when a file and the tables of [Store]
      hold the same ([represents]), [SqlRefine] and [SqlHosts] prove each method.
      [SqlLife.sqlite_implements]: every method written in SQL implements its
      specification in [Store], and takes effect as a whole or not at all whatever
      fails, but for UpdateHost and SetHostCordoned, whose read after the write
      can fail.  [SqlLife.database_life]: so does every sequence of opens, calls and
      restarts, from a new file or one of an older version
      ([SqlLife.Open_keeps_database]).
    - Of the store ([StoreProps]): well-formedness of every reachable database,
      atomicity of every method, DELETING is terminal, and the behaviour of the
      methods that decide races (claims, LeaseVM, pool deletion, drains, host
      deletion, expiry against heartbeats, the event log), with round trips.
    - Of the strategies ([Strategy]), in machine integers: never more than the
      size leaves room for, and settling after one tick.
    - Of the process around: [Config.Load_spec], what a configuration that loads
      guarantees; [Server], who gets past authentication; [Metrics], the gauges
      agree with the API and no recording panics; [Daemon], startup recovers what
      a crash left and the exit status tells of failures; [Seeding], seeding a
      well-typed store succeeds; [SchemaProps], opening a database of any version
      can be interrupted and resumed; [KeyedLock], lockPool and lockHost are a
      mutex per name.
    - Of the client: [OutputProps], tables align as the reference layout and
      times read back; [CliProps], a claim is safe to retry, a command that fails
      by itself has sent nothing, [events tail] prints the outbox in order, and
      poolmgrctl cannot reach a manager that asks for a token.
    - Of the manager: one live reconciler per pool, StopReconcilerAndWait leaves
      none running, shutdown is final; and that during a shutdown
      StopReconcilerAndWait can return early.

    ** Bounds

    A loop that polls until a deadline or until its context is done (waiting
    for a microvm or its guest agent, a subscription) reads from the effect
    [EBudget] how many more rounds it has: any number, so theorems hold for
    every deadline.  The control loops of the reconciler and the sweeper are
    functions of the ticks and notifications that arrive.  [Config.ParseDuration]
    has the length of its text as fuel, and a term takes at least one character;
    [Output.format] has the number of cells of the longest line, and each call
    handles one more column ([OutputProps.format_block] needs no more).  Nothing
    else needs fuel.  Goroutines started in a handler run to their end first in [wp] and
    [run], and are interleaved in [sys_step].  There a [wg.Wait] does not wait: the
    parent may go on before its children end, which only adds interleavings, and
    the children (provisions, deletions of a deleted pool's VMs) take no mutex, so
    that waiting for them could not close a circle.  A reader may pass a writer that
    waits for [hostRefsMu], which Go's RWMutex does not allow; no handler asks for
    the reader side twice, so that this too only adds interleavings.

    ** What is not modelled

    Generated code; flag parsing, which is cobra's; signals, sockets, and the
    health, reflection and Prometheus HTTP endpoints, which are the libraries'.
    Error messages and logging are left out: an error is its sentinel or gRPC
    code, and the text of [hostInUseMessage] with it.  A timeout or a cancelled
    context is a call that fails.  flintlock, protobuf, JSON, semver, x509 and
    Prometheus are parameters.  [PRAGMA user_version] is taken to be what this
    code wrote, never negative.  Of SQLite the semantics of the statements is
    modelled and its storage is not: a statement or a commit that fails has no
    effect, and the indexes of schema.sql that only speed up queries are left
    out.  UpdateVM's UPDATE and, when no row matched, the SELECT that tells a
    missing VM from a DELETING one are one step of [sys_step].  One [Sqlite] is
    fixed for a whole run of [sys_step], while [SqlLife.any_call] lets the order
    of a scan change from call to call.

    The model's limits: of the client only claims ([CliProps.claim_retry_safe])
    are composed with the handlers' specifications across lost answers; liveness
    is of one pass or call in a working environment, and of the interleaved
    process it is proved that it cannot deadlock ([Progress]), not that a loop
    under a fair scheduler gets its turn.  The specifications of single handlers
    are of a handler that runs alone; what holds among others are the theorems
    about every interleaving, [EventsProps] and [LeaseProps.yieldClaim_returns_vm].  In
    [Supervision] a tracked reconciler and the passes of [Reconciler.Run] are not
    tied to each other: passes of any pool may run at any time, which covers the
    ones the manager started. *)

From stdpp Require Import base gmap strings list sorting.
From Stdlib Require Import ZArith Lia.

(** ** Notation scope of the library *)

Declare Scope battery_scope.
Delimit Scope battery_scope with battery.

(** ** Results of fallible code: Go's [(T, error)] pairs

    A Go function that returns [(T, error)] returns [Ok x] for [(x, nil)] and
    [Err e] for [(_, e)]; none of the modelled code reads the value of a pair
    whose error is not nil, except where the model says so. *)

Inductive result (E A : Type) : Type :=
  | Ok (val : A)
  | Err (err : E).
Arguments Ok {E A} val.
Arguments Err {E A} err.

Definition is_Ok {E A} (r : result E A) : bool :=
  match r with Ok _ => true | Err _ => false end.

#[export] Instance result_eq_dec {E A} `{EqDecision E, EqDecision A} :
  EqDecision (result E A).
Proof. solve_decision. Defined.

#[export] Instance result_ret {E} : MRet (result E) := fun A x => Ok x.
#[export] Instance result_bind {E} : MBind (result E) := fun A B f r =>
  match r with Ok x => f x | Err e => Err e end.
#[export] Instance result_fmap {E} : FMap (result E) := fun A B f r =>
  match r with Ok x => Ok (f x) | Err e => Err e end.

(** ** Machine integers

    Go's [int32] and [int64] as integers with the wrap-around written out. *)

Definition wrap (w : Z) (z : Z) : Z :=
  ((z + 2 ^ (w - 1)) `mod` 2 ^ w - 2 ^ (w - 1))%Z.
Definition wrap32 (z : Z) : Z := wrap 32 z.
Definition wrap64 (z : Z) : Z := wrap 64 z.

Definition min_int64 : Z := (- 2 ^ 63)%Z.
Definition max_int64 : Z := (2 ^ 63 - 1)%Z.
Definition in_int32 (z : Z) : Prop := (- 2 ^ 31 <= z < 2 ^ 31)%Z.
Definition in_int64 (z : Z) : Prop := (min_int64 <= z <= max_int64)%Z.

Lemma wrap64_id z : in_int64 z -> wrap64 z = z.
Proof.
  unfold in_int64, min_int64, max_int64, wrap64, wrap. intros H.
  rewrite Z.mod_small; lia.
Qed.

Lemma wrap32_id z : in_int32 z -> wrap32 z = z.
Proof.
  unfold in_int32, wrap32, wrap. intros H. rewrite Z.mod_small; lia.
Qed.

Lemma wrap64_range z : in_int64 (wrap64 z).
Proof.
  unfold in_int64, min_int64, max_int64, wrap64, wrap.
  pose proof (Z.mod_pos_bound (z + 2 ^ (64 - 1)) (2 ^ 64) ltac:(lia)). lia.
Qed.

(** ** Strings

    Go strings are byte strings; [strings.Compare] and SQLite's default
    (BINARY) collation both order them byte by byte, which is stdpp's
    [String.le]. *)

(** Well-formed UTF-8 (RFC 3629), as Go's [utf8.ValidString]: what a proto3
    [string] field must hold to cross gRPC. *)
Definition byte_in (lo hi : N) (c : Ascii.ascii) : bool :=
  let n := Ascii.N_of_ascii c in ((lo <=? n) && (n <=? hi))%N.

Fixpoint valid_utf8 (s : string) : bool :=
  match s with
  | EmptyString => true
  | String c rest =>
      if byte_in 0 127 c then valid_utf8 rest
      else match rest with
      | EmptyString => false
      | String c1 rest1 =>
          if byte_in 194 223 c && byte_in 128 191 c1 then valid_utf8 rest1
          else match rest1 with
          | EmptyString => false
          | String c2 rest2 =>
              if ((byte_in 224 224 c && byte_in 160 191 c1)
                  || (byte_in 225 236 c && byte_in 128 191 c1)
                  || (byte_in 237 237 c && byte_in 128 159 c1)
                  || (byte_in 238 239 c && byte_in 128 191 c1))
                 && byte_in 128 191 c2
              then valid_utf8 rest2
              else match rest2 with
              | EmptyString => false
              | String c3 rest3 =>
                  ((byte_in 240 240 c && byte_in 144 191 c1)
                   || (byte_in 241 243 c && byte_in 128 191 c1)
                   || (byte_in 244 244 c && byte_in 128 143 c1))
                  && byte_in 128 191 c2 && byte_in 128 191 c3 && valid_utf8 rest3
              end
          end
      end
  end.

(** ** Tables

    A table is a finite map from its primary key to its rows; [rows] is the
    set of its rows in no particular order and [sort_on] is [ORDER BY]. *)

Definition rows {K A} `{Countable K} (m : gmap K A) : list A :=
  (map_to_list m).*2.

Definition sort_on {K A} (R : relation K) `{!RelDecision R} (key : A -> K)
    (l : list A) : list A :=
  merge_sort (fun a b => R (key a) (key b))
    (H := fun a b => decide_rel R (key a) (key b)) l.

Section tables.
Context {K A : Type} `{Countable K}.
Implicit Types m : gmap K A.

Lemma elem_of_rows m x : x ∈ rows m <-> exists k, m !! k = Some x.
Proof.
  unfold rows. rewrite list_elem_of_fmap. split.
  - intros ([k y] & -> & Hin). exists k. by apply elem_of_map_to_list in Hin.
  - intros [k Hk]. exists (k, x). split; [done|]. by apply elem_of_map_to_list.
Qed.

(** When each row holds its own key, the keys of the rows are distinct. *)
Lemma NoDup_rows_key m (key : A -> K) :
  (forall k x, m !! k = Some x -> key x = k) -> NoDup (key <$> rows m).
Proof.
  intros Hkey. unfold rows. rewrite <- list_fmap_compose.
  rewrite (list_fmap_ext _ fst).
  - apply NoDup_fst_map_to_list.
  - intros i [k x] Hi. simpl. apply Hkey.
    apply elem_of_map_to_list. by eapply list_elem_of_lookup_2.
Qed.
End tables.

Section sort_on.
Context {K A : Type} (R : relation K) `{!RelDecision R, !Total R, !Transitive R}.
Context (key : A -> K).

Lemma sort_on_perm l : sort_on R key l ≡ₚ l.
Proof. apply merge_sort_Permutation. Qed.

Lemma elem_of_sort_on x l : x ∈ sort_on R key l <-> x ∈ l.
Proof. by rewrite sort_on_perm. Qed.

Lemma sort_on_sorted l : StronglySorted (fun a b => R (key a) (key b)) (sort_on R key l).
Proof.
  apply Sorted_StronglySorted.
  - intros a b c. by apply transitivity.
  - apply Sorted_merge_sort. intros a b. apply total; apply _.
Qed.

Lemma sort_on_keys l : StronglySorted R (key <$> sort_on R key l).
Proof.
  eapply (StronglySorted_fmap _ (fun a b => R (key a) (key b))); [|apply sort_on_sorted].
  done.
Qed.

Lemma length_sort_on l : length (sort_on R key l) = length l.
Proof. by rewrite sort_on_perm. Qed.
End sort_on.

(** Lexicographic order on pairs: [ORDER BY a, b]. *)
Definition pair_le (x y : string * string) : Prop :=
  if decide (x.1 = y.1) then String.le x.2 y.2 else String.le x.1 y.1.

#[export] Instance pair_le_dec : RelDecision pair_le.
Proof. intros x y. unfold pair_le. destruct (decide (x.1 = y.1)); apply _. Defined.

#[export] Instance pair_le_total : Total pair_le.
Proof.
  intros x y. unfold pair_le.
  destruct (decide (x.1 = y.1)) as [E|N].
  - rewrite decide_True by done. apply (total String.le).
  - rewrite decide_False by congruence. apply (total String.le).
Qed.

#[export] Instance pair_le_anti : AntiSymm (=) pair_le.
Proof.
  intros [a b] [c d]. unfold pair_le. simpl. intros H1 H2.
  destruct (decide (a = c)) as [->|N].
  - rewrite decide_True in H2 by done. f_equal. by apply (anti_symm String.le).
  - rewrite decide_False in H2 by congruence. destruct N. by apply (anti_symm String.le).
Qed.

#[export] Instance pair_le_trans : Transitive pair_le.
Proof.
  intros x y z. unfold pair_le.
  destruct (decide (x.1 = y.1)) as [E1|N1], (decide (y.1 = z.1)) as [E2|N2].
  - rewrite decide_True by congruence. apply transitivity.
  - rewrite decide_False by congruence. by rewrite E1.
  - rewrite decide_False by congruence. by rewrite <- E2.
  - intros H1 H2. destruct (decide (x.1 = z.1)) as [E|N].
    + exfalso. apply N1. rewrite E in H1 |- *. by apply (anti_symm String.le).
    + by transitivity (y.1).
Qed.

(** ** Filters *)

Lemma filter_none {A} (P : A -> Prop) `{forall x, Decision (P x)} l :
  (forall x, x ∈ l -> ~ P x) -> filter P l = [].
Proof.
  induction l as [|x l IH]; intros Hn; [done|].
  rewrite filter_cons, decide_False by (apply Hn; set_solver).
  apply IH. intros y Hy. apply Hn. set_solver.
Qed.

Lemma filter_length_zero {A} (P : A -> Prop) `{forall x, Decision (P x)} l :
  length (filter P l) = 0 <-> forall x, x ∈ l -> ~ P x.
Proof.
  split.
  - intros Hl x Hx HP. apply nil_length_inv in Hl.
    assert (x ∈ filter P l) as Hin by by apply list_elem_of_filter.
    rewrite Hl in Hin. by apply not_elem_of_nil in Hin.
  - intros Hn. by rewrite filter_none.
Qed.

Lemma head_filter_Some {A} (P : A -> Prop) `{forall x, Decision (P x)} l x :
  head (filter P l) = Some x -> P x /\ x ∈ l.
Proof.
  intros Hh. assert (x ∈ filter P l) as Hin.
  { destruct (filter P l) as [|y k]; [done|]. simplify_eq/=. by left. }
  by apply list_elem_of_filter in Hin.
Qed.

Lemma head_filter_None {A} (P : A -> Prop) `{forall x, Decision (P x)} l :
  head (filter P l) = None -> forall x, x ∈ l -> ~ P x.
Proof.
  intros Hh x Hx HP. destruct (filter P l) as [|y k] eqn:E; [|done].
  assert (x ∈ filter P l) as Hin by by apply list_elem_of_filter.
  rewrite E in Hin. by apply not_elem_of_nil in Hin.
Qed.

(** Replacing one element changes the count by that element alone. *)
Lemma length_filter_insert {A} (P : A -> Prop) `{forall x, Decision (P x)} l i x y :
  l !! i = Some x ->
  length (filter P (<[i := y]> l)) + (if decide (P x) then 1 else 0) =
  length (filter P l) + (if decide (P y) then 1 else 0).
Proof.
  revert i. induction l as [|z l IH]; intros [|i] Hi; simplify_eq/=.
  - rewrite !filter_cons. repeat case_decide; simpl; lia.
  - rewrite !filter_cons. specialize (IH i Hi). repeat case_decide; simpl; lia.
Qed.

(** ** Tactics and hints *)

Create HintDb battery.
Create Rewrite HintDb battery.

(** Case analysis on the scrutinee of the first [match] or [if] in sight. *)
Ltac case_match_eq :=
  match goal with
  | |- context [match ?x with _ => _ end] => destruct x eqn:?
  | H : context [match ?x with _ => _ end] |- _ => destruct x eqn:?
  end.

(** Repeated case analysis, closing the absurd branches. *)
Ltac cases := repeat (case_match_eq; simplify_eq/=; try done).
