(* ===== verification/Types.v ===== *)
(** * The API's data types

    The messages and enumerations of
    [src/api/proto/poolmgr/v1alpha1/types.proto], the part of flintlock's
    [MicroVMSpec] the source reads or writes, the store's errors
    ([src/internal/store/store.go]) and the gRPC status codes.

    Proto3 enumerations are open: a field can hold any [int32].  Each
    enumeration is therefore an inductive type with the named values plus one
    constructor for the numbers above them and one for the negative numbers,
    so that it is in bijection with the integers ([int32(x)] and the
    conversion back are [*_code] and [*_of_code]). *)

From stdpp Require Import base gmap strings list.
From Stdlib Require Import ZArith Lia.
From S2P Require Import Prelude.

(** ** Enumerations *)

Inductive VMPhase :=
  | PROVISIONING | CREATE_HOOK_RUNNING | AVAILABLE | LEASED
  | PRE_LEASE_HOOK_RUNNING | DELETING | QUARANTINED | FAILED
  | VMPhase_above (k : N) | VMPhase_below (p : positive).

Inductive ReplenishmentStrategyType :=
  | REPLENISHMENT_STRATEGY_TYPE_UNSPECIFIED
  | IMMEDIATE_ON_LEASE | MIN_SIZE_THRESHOLD | REPLACE_ON_DELETE
  | StrategyType_above (k : N) | StrategyType_below (p : positive).

Inductive HookFailurePolicy :=
  | HOOK_FAILURE_POLICY_UNSPECIFIED | DELETE_AND_REPLACE | QUARANTINE
  | HookFailurePolicy_above (k : N) | HookFailurePolicy_below (p : positive).

Inductive EventType :=
  | EVENT_TYPE_UNSPECIFIED | VM_PROVISIONED | VM_AVAILABLE | VM_CLAIMED
  | VM_RELEASED | VM_EXPIRING_SOON | VM_DELETED_DUE_TO_EXPIRY
  | VM_DELETED_ON_RELEASE | VM_HOOK_FAILED | POOL_REPLENISHING
  | POOL_SIZE_BELOW_TARGET | VM_DELETED_ON_POOL_DELETE
  | VM_DELETED_ON_HOST_DRAIN
  | EventType_above (k : N) | EventType_below (p : positive).

#[export] Instance VMPhase_eq_dec : EqDecision VMPhase.
Proof. solve_decision. Defined.
#[export] Instance StrategyType_eq_dec : EqDecision ReplenishmentStrategyType.
Proof. solve_decision. Defined.
#[export] Instance HookFailurePolicy_eq_dec : EqDecision HookFailurePolicy.
Proof. solve_decision. Defined.
#[export] Instance EventType_eq_dec : EqDecision EventType.
Proof. solve_decision. Defined.

(** The wire numbers. *)

Definition phase_code (p : VMPhase) : Z :=
  match p with
  | PROVISIONING => 0 | CREATE_HOOK_RUNNING => 1 | AVAILABLE => 2
  | LEASED => 3 | PRE_LEASE_HOOK_RUNNING => 4 | DELETING => 5
  | QUARANTINED => 6 | FAILED => 7
  | VMPhase_above k => 8 + Z.of_N k | VMPhase_below p => Zneg p
  end.

Definition phase_of_code (z : Z) : VMPhase :=
  match z with
  | Zneg p => VMPhase_below p
  | 0%Z => PROVISIONING | 1%Z => CREATE_HOOK_RUNNING | 2%Z => AVAILABLE
  | 3%Z => LEASED | 4%Z => PRE_LEASE_HOOK_RUNNING | 5%Z => DELETING
  | 6%Z => QUARANTINED | 7%Z => FAILED
  | _ => VMPhase_above (Z.to_N (z - 8))
  end.

Definition policy_code (p : HookFailurePolicy) : Z :=
  match p with
  | HOOK_FAILURE_POLICY_UNSPECIFIED => 0 | DELETE_AND_REPLACE => 1
  | QUARANTINE => 2
  | HookFailurePolicy_above k => 3 + Z.of_N k
  | HookFailurePolicy_below p => Zneg p
  end.

Definition policy_of_code (z : Z) : HookFailurePolicy :=
  match z with
  | Zneg p => HookFailurePolicy_below p
  | 0%Z => HOOK_FAILURE_POLICY_UNSPECIFIED | 1%Z => DELETE_AND_REPLACE
  | 2%Z => QUARANTINE
  | _ => HookFailurePolicy_above (Z.to_N (z - 3))
  end.

Definition event_code (e : EventType) : Z :=
  match e with
  | EVENT_TYPE_UNSPECIFIED => 0 | VM_PROVISIONED => 1 | VM_AVAILABLE => 2
  | VM_CLAIMED => 3 | VM_RELEASED => 4 | VM_EXPIRING_SOON => 5
  | VM_DELETED_DUE_TO_EXPIRY => 6 | VM_DELETED_ON_RELEASE => 7
  | VM_HOOK_FAILED => 8 | POOL_REPLENISHING => 9
  | POOL_SIZE_BELOW_TARGET => 10 | VM_DELETED_ON_POOL_DELETE => 11
  | VM_DELETED_ON_HOST_DRAIN => 12
  | EventType_above k => 13 + Z.of_N k | EventType_below p => Zneg p
  end.

Definition event_of_code (z : Z) : EventType :=
  match z with
  | Zneg p => EventType_below p
  | 0%Z => EVENT_TYPE_UNSPECIFIED | 1%Z => VM_PROVISIONED
  | 2%Z => VM_AVAILABLE | 3%Z => VM_CLAIMED | 4%Z => VM_RELEASED
  | 5%Z => VM_EXPIRING_SOON | 6%Z => VM_DELETED_DUE_TO_EXPIRY
  | 7%Z => VM_DELETED_ON_RELEASE | 8%Z => VM_HOOK_FAILED
  | 9%Z => POOL_REPLENISHING | 10%Z => POOL_SIZE_BELOW_TARGET
  | 11%Z => VM_DELETED_ON_POOL_DELETE | 12%Z => VM_DELETED_ON_HOST_DRAIN
  | _ => EventType_above (Z.to_N (z - 13))
  end.

(** Both conversions are inverse to each other: the first bits of the number
    decide the named values, the rest is arithmetic. *)
Ltac enum_code_of_code p f g :=
  do 4 (try destruct p as [p|p|]); try reflexivity; unfold f, g; lia.

Ltac enum_of_code_code k lo f g C :=
  unfold g;
  let q := fresh "q" in let E := fresh "E" in let Hq := fresh "Hq" in
  assert (exists q, (Zpos lo + Z.of_N k)%Z = Zpos q /\ (lo <= q)%positive)
    as (q & E & Hq) by (exists (Z.to_pos (Zpos lo + Z.of_N k)); lia);
  rewrite E;
  enough (f (Zpos q) = C (Z.to_N (Zpos q - Zpos lo))) as ->
    by (f_equal; lia);
  clear E; do 4 (try destruct q as [q|q|]); try reflexivity; lia.

Lemma phase_code_of_code z : phase_code (phase_of_code z) = z.
Proof.
  destruct z as [|p|p]; try reflexivity.
  enum_code_of_code p phase_of_code phase_code.
Qed.

Lemma phase_of_code_code p : phase_of_code (phase_code p) = p.
Proof.
  destruct p as [| | | | | | | |k|p]; try reflexivity.
  enum_of_code_code k 8%positive phase_of_code phase_code VMPhase_above.
Qed.

Lemma policy_code_of_code z : policy_code (policy_of_code z) = z.
Proof.
  destruct z as [|p|p]; try reflexivity.
  enum_code_of_code p policy_of_code policy_code.
Qed.

Lemma policy_of_code_code p : policy_of_code (policy_code p) = p.
Proof.
  destruct p as [| | |k|p]; try reflexivity.
  enum_of_code_code k 3%positive policy_of_code policy_code HookFailurePolicy_above.
Qed.

Lemma event_code_of_code z : event_code (event_of_code z) = z.
Proof.
  destruct z as [|p|p]; try reflexivity.
  enum_code_of_code p event_of_code event_code.
Qed.

Lemma event_of_code_code e : event_of_code (event_code e) = e.
Proof.
  destruct e as [| | | | | | | | | | | | |k|p]; try reflexivity.
  enum_of_code_code k 13%positive event_of_code event_code EventType_above.
Qed.

#[export] Hint Rewrite phase_code_of_code phase_of_code_code
  policy_code_of_code policy_of_code_code
  event_code_of_code event_of_code_code : battery.

#[export] Instance phase_code_inj : Inj (=) (=) phase_code.
Proof. intros p q E. by rewrite <- (phase_of_code_code p), E, phase_of_code_code. Qed.

(** ** Times

    A [time.Time] or [*timestamppb.Timestamp] is the instant it denotes, in
    nanoseconds since the Unix epoch; a [time.Duration] or
    [*durationpb.Duration] is a number of nanoseconds.  An instant is exact;
    [UnixNano] is where it is cut to an [int64]. *)

Definition Timestamp := Z.
Definition Duration := Z.
Bind Scope Z_scope with Timestamp Duration.

(** [time.Time.UnixNano]: the nanoseconds, in an [int64]. *)
Definition UnixNano (t : Timestamp) : Z := wrap64 t.

(** [durationpb.Duration.AsDuration] saturates at the [int64] limits. *)
Definition AsDuration (d : Duration) : Z :=
  Z.max min_int64 (Z.min d max_int64).

(** ** flintlock's MicroVMSpec

    The fields the pool manager reads or writes.  [spec_rest] stands for every
    other field: they are carried along unread. *)

Record NetworkInterface := {
  guest_mac : string;
  address : option string;
  iface_rest : string
}.

Record MicroVMSpec := {
  spec_id : string;
  spec_namespace : string;
  allow_guest_agent : bool;
  interfaces : list NetworkInterface;
  spec_rest : string
}.

Definition empty_MicroVMSpec : MicroVMSpec :=
  {| spec_id := ""; spec_namespace := ""; allow_guest_agent := false;
     interfaces := []; spec_rest := "" |}.

(** ** Pools *)

Record ReplenishmentStrategy := {
  strategy_type : ReplenishmentStrategyType;
  min_size : option Z
}.

Definition empty_strategy : ReplenishmentStrategy :=
  {| strategy_type := REPLENISHMENT_STRATEGY_TYPE_UNSPECIFIED; min_size := None |}.

Record PoolRef := { ref_name : string; ref_namespace : string }.

Record PoolSpec := {
  pool_name : string;
  pool_namespace : string;
  microvm_template : option MicroVMSpec;
  pool_size : Z;
  flintlock_hosts : list string;
  replenishment_strategy : option ReplenishmentStrategy;
  create_commands : list string;
  pre_lease_commands : list string;
  hook_failure_policy : HookFailurePolicy;
  heartbeat_interval : option Duration;
  heartbeat_expiry_threshold : option Duration
}.

(** ** VMs, leases, events and hosts *)

Record VMRecord := {
  vm_uid : string;
  vm_pool_name : string;
  vm_flintlock_host : string;
  vm_phase : VMPhase;
  vm_lease_id : option string;
  vm_created_at : option Timestamp;
  vm_updated_at : option Timestamp;
  vm_pool_namespace : string
}.

(** [v.GetLeaseId()]: the empty string when the field is unset. *)
Definition GetLeaseId (v : VMRecord) : string := default "" (vm_lease_id v).

Record LeaseRecord := {
  lease_id : string;
  lease_vm_uid : string;
  lease_pool_name : string;
  lease_claimed_at : option Timestamp;
  lease_last_heartbeat_at : option Timestamp;
  lease_expires_at : option Timestamp;
  lease_pool_namespace : string;
  lease_request_id : string
}.

Record Event := {
  event_id : Z;
  event_pool_name : string;
  event_vm_uid : string;
  event_type : EventType;
  event_created_at : option Timestamp;
  event_payload_json : string;
  event_pool_namespace : string
}.

Record HostTLS := {
  tls_insecure : bool;
  ca_file : string;
  cert_file : string;
  key_file : string
}.

Definition empty_HostTLS : HostTLS :=
  {| tls_insecure := false; ca_file := ""; cert_file := ""; key_file := "" |}.

Record Host := {
  host_name : string;
  host_address : string;
  host_cordoned : bool;
  host_cordoned_reason : string;
  host_cordoned_at : option Timestamp;
  host_updated_at : option Timestamp;
  host_tls : option HostTLS;
  host_draining : bool;
  host_draining_at : option Timestamp
}.

(** [h.GetTls()] followed by a getter: the zero value when unset. *)
Definition GetTls (h : Host) : HostTLS := default empty_HostTLS (host_tls h).

#[export] Instance VMRecord_eq_dec : EqDecision VMRecord.
Proof. solve_decision. Defined.
#[export] Instance LeaseRecord_eq_dec : EqDecision LeaseRecord.
Proof. solve_decision. Defined.
#[export] Instance Event_eq_dec : EqDecision Event.
Proof. solve_decision. Defined.

(** Field updates of a [*VMRecord], as assignments to its fields. *)

Definition set_phase (p : VMPhase) (v : VMRecord) : VMRecord :=
  {| vm_uid := vm_uid v; vm_pool_name := vm_pool_name v;
     vm_flintlock_host := vm_flintlock_host v; vm_phase := p;
     vm_lease_id := vm_lease_id v; vm_created_at := vm_created_at v;
     vm_updated_at := vm_updated_at v; vm_pool_namespace := vm_pool_namespace v |}.

Definition set_lease_id (l : option string) (v : VMRecord) : VMRecord :=
  {| vm_uid := vm_uid v; vm_pool_name := vm_pool_name v;
     vm_flintlock_host := vm_flintlock_host v; vm_phase := vm_phase v;
     vm_lease_id := l; vm_created_at := vm_created_at v;
     vm_updated_at := vm_updated_at v; vm_pool_namespace := vm_pool_namespace v |}.

Definition set_updated_at (t : Timestamp) (v : VMRecord) : VMRecord :=
  {| vm_uid := vm_uid v; vm_pool_name := vm_pool_name v;
     vm_flintlock_host := vm_flintlock_host v; vm_phase := vm_phase v;
     vm_lease_id := vm_lease_id v; vm_created_at := vm_created_at v;
     vm_updated_at := Some t; vm_pool_namespace := vm_pool_namespace v |}.

(** ** Errors of the store

    The sentinel errors of [store.go]; [ErrOther] is every other error (a
    failed statement, a closed database, a cancelled context, ...), which the
    source only wraps and passes on. *)

Inductive StoreError :=
  | ErrNotFound
  | ErrNoAvailableVM
  | ErrLeaseNotExpired
  | ErrDuplicateRequestID
  | ErrHostCordoned
  | ErrHostNotRegistered
  | ErrHostExists
  | HostInUseError (Pools : list string) (VMCount : Z)
  | ErrPoolHasLeasedVMs
  | ErrVMDeleting
  | ErrOther (what : string).

#[export] Instance StoreError_eq_dec : EqDecision StoreError.
Proof. solve_decision. Defined.

(** ** gRPC status codes *)

Inductive code :=
  | Canceled | Unknown | InvalidArgument | DeadlineExceeded | NotFound
  | AlreadyExists | PermissionDenied | ResourceExhausted | FailedPrecondition
  | Aborted | OutOfRange | Unimplemented | Internal | Unavailable | DataLoss
  | Unauthenticated.

#[export] Instance code_eq_dec : EqDecision code.
Proof. solve_decision. Defined.
