(* ===== verification/Convert.v ===== *)
(** * Rows and records: [src/internal/store/convert.go]

    The column representation of each table's rows and the conversions
    between rows and the API's records, with their round trips.

    The JSON texts of a pool row are written and read by [encoding/json],
    [protojson] and SQLite's [json_each].  They are parameters of the model,
    the operations of the class [Codec]; what the store relies on is the class
    [CodecLaws]. *)

From stdpp Require Import base gmap strings list.
From Stdlib Require Import ZArith Lia.
From S2P Require Import Prelude Types.

(** ** The JSON codecs *)

Class Codec := {
  (** [json.Marshal] of a [[]string], which cannot fail. *)
  json_marshal_strings : list string -> string;
  (** [json.Unmarshal] into a [[]string]. *)
  json_unmarshal_strings : string -> option (list string);
  (** The text values SQLite's [json_each] yields for an array column. *)
  json_each : string -> list string;
  (** [protojson.Marshal] and [protojson.Unmarshal]; a nil message is
      marshalled like an empty one. *)
  marshal_template : option MicroVMSpec -> option string;
  unmarshal_template : string -> option MicroVMSpec;
  marshal_strategy : option ReplenishmentStrategy -> option string;
  unmarshal_strategy : string -> option ReplenishmentStrategy
}.

(** What the codecs promise for the strings a proto3 message can hold. *)
Class CodecLaws (C : Codec) : Prop := {
  json_strings_roundtrip l :
    Forall (fun s => valid_utf8 s = true) l ->
    json_unmarshal_strings (json_marshal_strings l) = Some l;
  json_each_strings l :
    Forall (fun s => valid_utf8 s = true) l ->
    json_each (json_marshal_strings l) = l;
  template_roundtrip t s :
    marshal_template t = Some s ->
    unmarshal_template s = Some (default empty_MicroVMSpec t);
  strategy_roundtrip t s :
    marshal_strategy t = Some s ->
    unmarshal_strategy s = Some (default empty_strategy t)
}.

(** ** Rows *)

Record poolRow := {
  pr_name : string;
  pr_namespace : string;
  pr_size : Z;
  pr_flintlockHosts : string;
  pr_microvmTemplate : string;
  pr_replenishmentStrategy : string;
  pr_createCommands : string;
  pr_preLeaseCommands : string;
  pr_hookFailurePolicy : Z;
  pr_heartbeatIntervalNs : Z;
  pr_heartbeatExpiryThresholdNs : Z
}.

Record vmRow := {
  vr_uid : string;
  vr_poolName : string;
  vr_poolNamespace : string;
  vr_flintlockHost : string;
  vr_phase : Z;
  vr_leaseID : option string;
  vr_createdAt : Z;
  vr_updatedAt : Z
}.

Record leaseRow := {
  lr_leaseID : string;
  lr_vmUID : string;
  lr_poolName : string;
  lr_poolNamespace : string;
  lr_claimedAt : Z;
  lr_lastHeartbeatAt : Z;
  lr_expiresAt : Z;
  lr_requestID : option string
}.

Record hostRow := {
  hr_name : string;
  hr_address : string;
  hr_cordoned : bool;
  hr_cordonedReason : option string;
  hr_cordonedAt : option Z;
  hr_updatedAt : Z;
  hr_tlsInsecure : bool;
  hr_caFile : string;
  hr_certFile : string;
  hr_keyFile : string;
  hr_draining : bool;
  hr_drainingAt : option Z
}.

#[export] Instance vmRow_eq_dec : EqDecision vmRow.
Proof. solve_decision. Defined.
#[export] Instance leaseRow_eq_dec : EqDecision leaseRow.
Proof. solve_decision. Defined.

(** ** Conversions *)

Definition requireDuration (field : string) (d : option Duration) : result StoreError Z :=
  match d with
  | None => Err (ErrOther (field +:+ " is required"))
  | Some d => Ok (AsDuration d)
  end.

Definition requireTimestamp (field : string) (ts : option Timestamp) : result StoreError Timestamp :=
  match ts with
  | None => Err (ErrOther (field +:+ " is required"))
  | Some t => Ok t
  end.

(** [nanoseconds]: a [time.Duration] is its number of nanoseconds. *)
Definition nanoseconds (ns : Z) : Duration := ns.

Section pools.
Context `{Codec}.

Definition marshalled (what : string) (s : option string) : result StoreError string :=
  match s with Some s => Ok s | None => Err (ErrOther ("marshal " +:+ what)) end.

Definition unmarshalled {A} (what : string) (x : option A) : result StoreError A :=
  match x with Some x => Ok x | None => Err (ErrOther ("unmarshal " +:+ what)) end.

Definition poolToRow (p : PoolSpec) : result StoreError poolRow :=
  let hosts := json_marshal_strings (flintlock_hosts p) in
  heartbeatInterval ← requireDuration "heartbeat_interval" (heartbeat_interval p);
  heartbeatExpiryThreshold ←
    requireDuration "heartbeat_expiry_threshold" (heartbeat_expiry_threshold p);
  template ← marshalled "microvm_template" (marshal_template (microvm_template p));
  strategy ← marshalled "replenishment_strategy" (marshal_strategy (replenishment_strategy p));
  let createCommands := json_marshal_strings (create_commands p) in
  let preLeaseCommands := json_marshal_strings (pre_lease_commands p) in
  Ok {| pr_name := pool_name p;
        pr_namespace := pool_namespace p;
        pr_size := pool_size p;
        pr_flintlockHosts := hosts;
        pr_microvmTemplate := template;
        pr_replenishmentStrategy := strategy;
        pr_createCommands := createCommands;
        pr_preLeaseCommands := preLeaseCommands;
        pr_hookFailurePolicy := policy_code (hook_failure_policy p);
        pr_heartbeatIntervalNs := heartbeatInterval;
        pr_heartbeatExpiryThresholdNs := heartbeatExpiryThreshold |}.

Definition rowToPool (row : poolRow) : result StoreError PoolSpec :=
  hosts ← unmarshalled "flintlock_hosts" (json_unmarshal_strings (pr_flintlockHosts row));
  template ← unmarshalled "microvm_template" (unmarshal_template (pr_microvmTemplate row));
  strategy ← unmarshalled "replenishment_strategy"
    (unmarshal_strategy (pr_replenishmentStrategy row));
  createCommands ← unmarshalled "create_commands"
    (json_unmarshal_strings (pr_createCommands row));
  preLeaseCommands ← unmarshalled "pre_lease_commands"
    (json_unmarshal_strings (pr_preLeaseCommands row));
  Ok {| pool_name := pr_name row;
        pool_namespace := pr_namespace row;
        microvm_template := Some template;
        pool_size := pr_size row;
        flintlock_hosts := hosts;
        replenishment_strategy := Some strategy;
        create_commands := createCommands;
        pre_lease_commands := preLeaseCommands;
        hook_failure_policy := policy_of_code (pr_hookFailurePolicy row);
        heartbeat_interval := Some (nanoseconds (pr_heartbeatIntervalNs row));
        heartbeat_expiry_threshold :=
          Some (nanoseconds (pr_heartbeatExpiryThresholdNs row)) |}.
End pools.

Definition vmToRow (v : VMRecord) : result StoreError vmRow :=
  createdAt ← requireTimestamp "created_at" (vm_created_at v);
  updatedAt ← requireTimestamp "updated_at" (vm_updated_at v);
  Ok {| vr_uid := vm_uid v;
        vr_poolName := vm_pool_name v;
        vr_poolNamespace := vm_pool_namespace v;
        vr_flintlockHost := vm_flintlock_host v;
        vr_phase := phase_code (vm_phase v);
        vr_leaseID := vm_lease_id v;
        vr_createdAt := UnixNano createdAt;
        vr_updatedAt := UnixNano updatedAt |}.

Definition rowToVM (row : vmRow) : VMRecord :=
  {| vm_uid := vr_uid row;
     vm_pool_name := vr_poolName row;
     vm_flintlock_host := vr_flintlockHost row;
     vm_phase := phase_of_code (vr_phase row);
     vm_lease_id := vr_leaseID row;
     vm_created_at := Some (vr_createdAt row);
     vm_updated_at := Some (vr_updatedAt row);
     vm_pool_namespace := vr_poolNamespace row |}.

(** [sql.NullString{String: s, Valid: s != ""}]. *)
Definition NullString (s : string) : option string :=
  if decide (s = "") then None else Some s.

Definition leaseToRow (l : LeaseRecord) : result StoreError leaseRow :=
  claimedAt ← requireTimestamp "claimed_at" (lease_claimed_at l);
  lastHeartbeatAt ← requireTimestamp "last_heartbeat_at" (lease_last_heartbeat_at l);
  expiresAt ← requireTimestamp "expires_at" (lease_expires_at l);
  Ok {| lr_leaseID := lease_id l;
        lr_vmUID := lease_vm_uid l;
        lr_poolName := lease_pool_name l;
        lr_poolNamespace := lease_pool_namespace l;
        lr_claimedAt := UnixNano claimedAt;
        lr_lastHeartbeatAt := UnixNano lastHeartbeatAt;
        lr_expiresAt := UnixNano expiresAt;
        lr_requestID := NullString (lease_request_id l) |}.

Definition rowToLease (row : leaseRow) : LeaseRecord :=
  {| lease_id := lr_leaseID row;
     lease_vm_uid := lr_vmUID row;
     lease_pool_name := lr_poolName row;
     lease_claimed_at := Some (lr_claimedAt row);
     lease_last_heartbeat_at := Some (lr_lastHeartbeatAt row);
     lease_expires_at := Some (lr_expiresAt row);
     lease_pool_namespace := lr_poolNamespace row;
     lease_request_id := default "" (lr_requestID row) |}.

Definition hostToRow (h : Host) : result StoreError hostRow :=
  updatedAt ← requireTimestamp "updated_at" (host_updated_at h);
  Ok {| hr_name := host_name h;
        hr_address := host_address h;
        hr_cordoned := host_cordoned h;
        hr_cordonedReason := NullString (host_cordoned_reason h);
        hr_cordonedAt := UnixNano <$> host_cordoned_at h;
        hr_updatedAt := UnixNano updatedAt;
        hr_tlsInsecure := tls_insecure (GetTls h);
        hr_caFile := ca_file (GetTls h);
        hr_certFile := cert_file (GetTls h);
        hr_keyFile := key_file (GetTls h);
        hr_draining := host_draining h;
        hr_drainingAt := UnixNano <$> host_draining_at h |}.

Definition rowToHost (row : hostRow) : Host :=
  {| host_name := hr_name row;
     host_address := hr_address row;
     host_cordoned := hr_cordoned row;
     host_cordoned_reason := default "" (hr_cordonedReason row);
     host_cordoned_at := hr_cordonedAt row;
     host_updated_at := Some (hr_updatedAt row);
     host_tls := Some {| tls_insecure := hr_tlsInsecure row;
                         ca_file := hr_caFile row;
                         cert_file := hr_certFile row;
                         key_file := hr_keyFile row |};
     host_draining := hr_draining row;
     host_draining_at := hr_drainingAt row |}.

(** ** Round trips *)

Lemma NullString_default s : default "" (NullString s) = s.
Proof. unfold NullString. by case_decide. Qed.

(** Times that fit an [int64] of nanoseconds (the years 1678 to 2262). *)
Definition time_ok (t : option Timestamp) : Prop :=
  exists z, t = Some z /\ in_int64 z.

Lemma UnixNano_id z : in_int64 z -> UnixNano z = z.
Proof. apply wrap64_id. Qed.

Lemma rowToVM_vmToRow v :
  time_ok (vm_created_at v) -> time_ok (vm_updated_at v) ->
  exists row, vmToRow v = Ok row /\ rowToVM row = v.
Proof.
  intros (c & Hc & Rc) (u & Hu & Ru). destruct v; simpl in *; subst.
  eexists; split; [reflexivity|]. unfold rowToVM; simpl.
  by rewrite phase_of_code_code, !UnixNano_id.
Qed.

Lemma vmToRow_rowToVM row :
  in_int64 (vr_createdAt row) -> in_int64 (vr_updatedAt row) ->
  vmToRow (rowToVM row) = Ok row.
Proof.
  intros Hc Hu. destruct row; simpl in *. unfold vmToRow; simpl.
  by rewrite phase_code_of_code, !UnixNano_id.
Qed.

Lemma rowToLease_leaseToRow l :
  time_ok (lease_claimed_at l) -> time_ok (lease_last_heartbeat_at l) ->
  time_ok (lease_expires_at l) ->
  exists row, leaseToRow l = Ok row /\ rowToLease row = l.
Proof.
  intros (c & Hc & Rc) (h & Hh & Rh) (e & He & Re). destruct l; simpl in *; subst.
  eexists; split; [reflexivity|]. unfold rowToLease; simpl.
  by rewrite NullString_default, !UnixNano_id.
Qed.

Lemma rowToHost_hostToRow h :
  time_ok (host_updated_at h) ->
  (forall t, host_cordoned_at h = Some t -> in_int64 t) ->
  (forall t, host_draining_at h = Some t -> in_int64 t) ->
  exists row, hostToRow h = Ok row /\
    rowToHost row = {| host_name := host_name h; host_address := host_address h;
      host_cordoned := host_cordoned h;
      host_cordoned_reason := host_cordoned_reason h;
      host_cordoned_at := host_cordoned_at h;
      host_updated_at := host_updated_at h;
      host_tls := Some (GetTls h);
      host_draining := host_draining h; host_draining_at := host_draining_at h |}.
Proof.
  intros (u & Hu & Ru) Hc Hd. destruct h as [n a c r ca up tls d da]; simpl in *; subst.
  eexists; split; [reflexivity|]. unfold rowToHost, GetTls; simpl.
  rewrite NullString_default, UnixNano_id by done.
  destruct ca as [ca|], da as [da|]; simpl; rewrite ?UnixNano_id by auto;
    by destruct (default empty_HostTLS tls).
Qed.

Section pool_roundtrip.
Context `{CodecLaws}.

(** The strings of a pool spec, which protobuf requires to be valid UTF-8. *)
Definition pool_strings_ok (p : PoolSpec) : Prop :=
  Forall (fun s => valid_utf8 s = true) (flintlock_hosts p) /\
  Forall (fun s => valid_utf8 s = true) (create_commands p) /\
  Forall (fun s => valid_utf8 s = true) (pre_lease_commands p).

(** What a stored pool reads back as: unset messages become empty ones and
    durations are cut to the range of [time.Duration]. *)
Definition stored_pool (p : PoolSpec) : PoolSpec :=
  {| pool_name := pool_name p; pool_namespace := pool_namespace p;
     microvm_template := Some (default empty_MicroVMSpec (microvm_template p));
     pool_size := pool_size p; flintlock_hosts := flintlock_hosts p;
     replenishment_strategy := Some (default empty_strategy (replenishment_strategy p));
     create_commands := create_commands p;
     pre_lease_commands := pre_lease_commands p;
     hook_failure_policy := hook_failure_policy p;
     heartbeat_interval := AsDuration <$> heartbeat_interval p;
     heartbeat_expiry_threshold := AsDuration <$> heartbeat_expiry_threshold p |}.

Lemma rowToPool_poolToRow p row :
  pool_strings_ok p -> poolToRow p = Ok row -> rowToPool row = Ok (stored_pool p).
Proof.
  intros (Hh & Hc & Hp) Hrow. unfold poolToRow in Hrow.
  destruct (heartbeat_interval p) eqn:Ei; [|done].
  destruct (heartbeat_expiry_threshold p) eqn:Et; [|done].
  destruct (marshal_template (microvm_template p)) eqn:Em; [|done].
  destruct (marshal_strategy (replenishment_strategy p)) eqn:Es; [|done].
  simpl in Hrow. injection Hrow as <-. unfold rowToPool; simpl.
  rewrite !json_strings_roundtrip by done.
  rewrite (template_roundtrip _ _ Em), (strategy_roundtrip _ _ Es); simpl.
  rewrite policy_of_code_code. unfold stored_pool. by rewrite Ei, Et.
Qed.

Lemma poolToRow_error p e :
  poolToRow p = Err e ->
  heartbeat_interval p = None \/ heartbeat_expiry_threshold p = None \/
  marshal_template (microvm_template p) = None \/
  marshal_strategy (replenishment_strategy p) = None.
Proof.
  unfold poolToRow. intros Hrow.
  destruct (heartbeat_interval p) eqn:Ei; [|by auto].
  destruct (heartbeat_expiry_threshold p) eqn:Et; [|by auto].
  destruct (marshal_template (microvm_template p)) eqn:Em; [|by auto].
  destruct (marshal_strategy (replenishment_strategy p)) eqn:Es; [|by auto]. done.
Qed.
End pool_roundtrip.
