(* ===== verification/Store.v ===== *)
(** * The store: [src/internal/store/sqlite.go]

    The database as one finite map per table, and every operation of the
    [Store] interface as an atomic function on it.  The store keeps one
    connection, so an operation that is one statement or one transaction runs
    with no other store operation in between; [tx] is [BeginTx] ... [Commit]
    with the deferred [Rollback], which undoes the body's writes when it
    returns an error.  [UpdateHost] and [SetHostCordoned] are neither: here is
    their UPDATE, and [Effects] puts them together.  [UpdateVM] is one UPDATE
    and, when no row matched it, a query that tells the two refusals apart;
    as a VM's uid is never used again, the answer is the one of a single
    moment.

    [time.Now()] is an argument ([now]) of the operations that read the clock;
    [DrainHost] reads it twice.
    What SQLite leaves open is the class [Sqlite]: the order in which a query
    without [ORDER BY] (or with ties) visits rows, and which of two violated
    UNIQUE constraints it reports. *)

From stdpp Require Import base gmap strings list sorting.
From Stdlib Require Import ZArith Lia.
From S2P Require Import Prelude Types Convert.

(** ** Tables *)

Record eventRow := {
  er_id : Z;
  er_poolName : string;
  er_poolNamespace : string;
  er_vmUID : string;
  er_type : Z;
  er_createdAt : Z;
  er_payloadJSON : string
}.

Record placementRow := {
  pl_id : string;
  pl_host : string;
  pl_poolName : string;
  pl_poolNamespace : string;
  pl_createdAt : Z
}.

(** [events_seq] is the AUTOINCREMENT counter of the events table: the largest
    id handed out so far. *)
Record DB := {
  pools : gmap (string * string) poolRow;
  vms : gmap string vmRow;
  leases : gmap string leaseRow;
  events : list eventRow;
  events_seq : Z;
  hosts : gmap string hostRow;
  placements : gmap string placementRow
}.

Definition empty_db : DB :=
  {| pools := ∅; vms := ∅; leases := ∅; events := []; events_seq := 0;
     hosts := ∅; placements := ∅ |}.

Definition set_pools x db := {| pools := x; vms := vms db; leases := leases db;
  events := events db; events_seq := events_seq db; hosts := hosts db;
  placements := placements db |}.
Definition set_vms x db := {| pools := pools db; vms := x; leases := leases db;
  events := events db; events_seq := events_seq db; hosts := hosts db;
  placements := placements db |}.
Definition set_leases x db := {| pools := pools db; vms := vms db; leases := x;
  events := events db; events_seq := events_seq db; hosts := hosts db;
  placements := placements db |}.
Definition set_events x n db := {| pools := pools db; vms := vms db;
  leases := leases db; events := x; events_seq := n; hosts := hosts db;
  placements := placements db |}.
Definition set_hosts x db := {| pools := pools db; vms := vms db;
  leases := leases db; events := events db; events_seq := events_seq db;
  hosts := x; placements := placements db |}.
Definition set_placements x db := {| pools := pools db; vms := vms db;
  leases := leases db; events := events db; events_seq := events_seq db;
  hosts := hosts db; placements := x |}.

(** What SQLite leaves open. *)
Class Sqlite := {
  scan_vms : gmap string vmRow -> list vmRow;
  scan_leases : gmap string leaseRow -> list leaseRow;
  request_id_reported : bool;
  scan_vms_perm m : scan_vms m ≡ₚ rows m;
  scan_leases_perm m : scan_leases m ≡ₚ rows m
}.

(** ** Statements and transactions *)

(** A store operation: the database before, the database after and Go's
    result.  An error ends the operation; the writes already made stay unless
    a transaction rolls them back. *)
Definition M (A : Type) : Type := DB -> DB * result StoreError A.

#[export] Instance M_ret : MRet M := fun A x db => (db, Ok x).
#[export] Instance M_bind : MBind M := fun A B f m db =>
  match m db with
  | (db', Ok x) => f x db'
  | (db', Err e) => (db', Err e)
  end.

Definition throw {A} (e : StoreError) : M A := fun db => (db, Err e).
Definition lift {A} (r : result StoreError A) : M A := fun db => (db, r).
Definition query {A} (f : DB -> A) : M A := fun db => (db, Ok (f db)).
Definition exec (f : DB -> DB) : M unit := fun db => (f db, Ok tt).

Definition tx {A} (m : M A) : M A := fun db =>
  match m db with
  | (db', Ok x) => (db', Ok x)
  | (_, Err e) => (db, Err e)
  end.

(** [UPDATE ... SET f WHERE P] and [DELETE ... WHERE P] on a table. *)
Definition update_where {K A} `{Countable K} (P : A -> Prop)
    `{forall x, Decision (P x)} (f : A -> A) (m : gmap K A) : gmap K A :=
  (fun r => if decide (P r) then f r else r) <$> m.

Definition delete_where {K A} `{Countable K} (P : A -> Prop)
    `{forall x, Decision (P x)} (m : gmap K A) : gmap K A :=
  filter (fun kr => ~ P kr.2) m.

(** [checkRowsAffected], on the number of rows a statement changed. *)
Definition checkRowsAffected (n : nat) : M unit :=
  if decide (n = 0) then throw ErrNotFound else mret tt.

(** Rows affected by a statement that names a primary key. *)
Definition matched {A} (x : option A) : nat :=
  match x with Some _ => 1 | None => 0 end.

(** [Scan(&count)] into an [int32] fails on a value that does not fit. *)
Definition scanInt32 (z : Z) : M Z :=
  if decide (- 2 ^ 31 <= z < 2 ^ 31)%Z then mret z
  else throw (ErrOther "scan int32").

(** ** Row predicates *)

Definition in_pool (name namespace : string) (r : vmRow) : Prop :=
  vr_poolName r = name /\ vr_poolNamespace r = namespace.
Definition lease_in_pool (name namespace : string) (r : leaseRow) : Prop :=
  lr_poolName r = name /\ lr_poolNamespace r = namespace.
Definition has_phase (phase : option VMPhase) (r : vmRow) : Prop :=
  match phase with Some p => vr_phase r = phase_code p | None => True end.
Definition leased_phase (r : vmRow) : Prop :=
  vr_phase r = phase_code LEASED \/ vr_phase r = phase_code PRE_LEASE_HOOK_RUNNING.
Definition unleased (r : vmRow) : Prop :=
  vr_phase r <> phase_code LEASED /\
  vr_phase r <> phase_code PRE_LEASE_HOOK_RUNNING /\
  vr_phase r <> phase_code DELETING.

#[export] Instance in_pool_dec n ns r : Decision (in_pool n ns r).
Proof. unfold in_pool; apply _. Defined.
#[export] Instance lease_in_pool_dec n ns r : Decision (lease_in_pool n ns r).
Proof. unfold lease_in_pool; apply _. Defined.
#[export] Instance has_phase_dec p r : Decision (has_phase p r).
Proof. destruct p; simpl; apply _. Defined.
#[export] Instance leased_phase_dec r : Decision (leased_phase r).
Proof. unfold leased_phase; apply _. Defined.
#[export] Instance unleased_dec r : Decision (unleased r).
Proof. unfold unleased; apply _. Defined.

(** [SET phase = DELETING, lease_id = NULL, updated_at = now]. *)
Definition mark_deleting (now : Z) (r : vmRow) : vmRow :=
  {| vr_uid := vr_uid r; vr_poolName := vr_poolName r;
     vr_poolNamespace := vr_poolNamespace r;
     vr_flintlockHost := vr_flintlockHost r; vr_phase := phase_code DELETING;
     vr_leaseID := None; vr_createdAt := vr_createdAt r;
     vr_updatedAt := UnixNano now |}.

(** ** Pools *)

Section store.
Context `{Codec, Sqlite}.

Definition CreatePool (p : PoolSpec) : M unit :=
  row ← lift (poolToRow p);
  taken ← query (fun db => pools db !! (pr_name row, pr_namespace row));
  match taken with
  | Some _ => throw (ErrOther "insert pool")
  | None => exec (fun db => set_pools (<[(pr_name row, pr_namespace row) := row]> (pools db)) db)
  end.

Definition GetPool (name namespace : string) : M PoolSpec :=
  row ← query (fun db => pools db !! (name, namespace));
  match row with
  | None => throw ErrNotFound
  | Some row => lift (rowToPool row)
  end.

Definition ListPools : M (list PoolSpec) :=
  rs ← query (fun db =>
    sort_on pair_le (fun r => (pr_namespace r, pr_name r)) (rows (pools db)));
  lift (mapM rowToPool rs).

(** The UPDATE keeps the key columns and sets all others. *)
Definition UpdatePool (p : PoolSpec) : M unit :=
  row ← lift (poolToRow p);
  old ← query (fun db => pools db !! (pr_name row, pr_namespace row));
  exec (fun db => set_pools (alter (fun _ => row) (pr_name row, pr_namespace row) (pools db)) db);;
  checkRowsAffected (matched old).

Definition DeletePool (name namespace : string) : M unit :=
  old ← query (fun db => pools db !! (name, namespace));
  exec (fun db => set_pools (delete (name, namespace) (pools db)) db);;
  checkRowsAffected (matched old).

Definition DeletePoolAndMarkVMs (now : Z) (name namespace : string) (force : bool)
    : M (list VMRecord) :=
  tx (
    DeletePool name namespace;;
    (if force then mret tt else
      leased ← query (fun db => length
        (filter (fun r => in_pool name namespace r /\ leased_phase r) (rows (vms db))));
      if decide (0 < leased) then throw ErrPoolHasLeasedVMs else mret tt);;
    exec (fun db => set_vms (update_where (in_pool name namespace) (mark_deleting now) (vms db)) db);;
    exec (fun db => set_leases (delete_where (lease_in_pool name namespace) (leases db)) db);;
    query (fun db => rowToVM <$>
      sort_on String.le vr_uid (filter (in_pool name namespace) (rows (vms db))))).

(** ** VMs *)

Definition CreateVM (v : VMRecord) : M unit :=
  row ← lift (vmToRow v);
  taken ← query (fun db => vms db !! vr_uid row);
  match taken with
  | Some _ => throw (ErrOther "insert vm")
  | None => exec (fun db => set_vms (<[vr_uid row := row]> (vms db)) db)
  end.

Definition GetVM (uid : string) : M VMRecord :=
  row ← query (fun db => vms db !! uid);
  match row with
  | None => throw ErrNotFound
  | Some row => mret (rowToVM row)
  end.

Definition ListVMsByPool (poolName poolNamespace : string) (phase : option VMPhase)
    : M (list VMRecord) :=
  query (fun db => rowToVM <$> sort_on String.le vr_uid
    (filter (fun r => in_pool poolName poolNamespace r /\ has_phase phase r) (rows (vms db)))).

Definition ListVMsByPhase (phase : VMPhase) : M (list VMRecord) :=
  query (fun db => rowToVM <$> sort_on String.le vr_uid
    (filter (fun r => vr_phase r = phase_code phase) (rows (vms db)))).

(** The columns [updateVM] sets: all but [uid] and [created_at]. *)
Definition updated_row (row old : vmRow) : vmRow :=
  {| vr_uid := vr_uid old; vr_poolName := vr_poolName row;
     vr_poolNamespace := vr_poolNamespace row;
     vr_flintlockHost := vr_flintlockHost row; vr_phase := vr_phase row;
     vr_leaseID := vr_leaseID row; vr_createdAt := vr_createdAt old;
     vr_updatedAt := vr_updatedAt row |}.

Definition updateVM (v : VMRecord) : M unit :=
  row ← lift (vmToRow v);
  old ← query (fun db => vms db !! vr_uid row);
  match old with
  | Some old =>
      if decide (vr_phase old <> phase_code DELETING \/ vr_phase row = phase_code DELETING)
      then exec (fun db => set_vms (<[vr_uid row := updated_row row old]> (vms db)) db)
      else throw ErrVMDeleting
  | None => throw ErrNotFound
  end.

Definition UpdateVM (v : VMRecord) : M unit := updateVM v.

Definition DeleteVM (uid : string) : M unit :=
  old ← query (fun db => vms db !! uid);
  exec (fun db => set_vms (delete uid (vms db)) db);;
  checkRowsAffected (matched old).

Definition DeleteVMCheckingPool (uid : string) : M bool :=
  tx (
    old ← query (fun db => vms db !! uid);
    match old with
    | None => throw ErrNotFound
    | Some row =>
        exec (fun db => set_vms (delete uid (vms db)) db);;
        query (fun db => bool_decide
          (is_Some (pools db !! (vr_poolName row, vr_poolNamespace row))))
    end).

(** [SET phase = LEASED, updated_at = now]. *)
Definition mark_leased (now : Z) (r : vmRow) : vmRow :=
  {| vr_uid := vr_uid r; vr_poolName := vr_poolName r;
     vr_poolNamespace := vr_poolNamespace r;
     vr_flintlockHost := vr_flintlockHost r; vr_phase := phase_code LEASED;
     vr_leaseID := vr_leaseID r; vr_createdAt := vr_createdAt r;
     vr_updatedAt := UnixNano now |}.

Definition ClaimAvailableVM (now : Z) (poolName poolNamespace : string) : M VMRecord :=
  tx (
    first ← query (fun db => head (filter (fun r =>
      in_pool poolName poolNamespace r /\ vr_phase r = phase_code AVAILABLE)
      (scan_vms (vms db))));
    match first with
    | None => throw ErrNoAvailableVM
    | Some r =>
        let uid := vr_uid r in
        before ← query (fun db => vms db !! uid);
        match before with
        | Some old =>
            if decide (vr_phase old = phase_code AVAILABLE) then
              exec (fun db => set_vms (<[uid := mark_leased now old]> (vms db)) db);;
              row ← query (fun db => vms db !! uid);
              match row with
              | Some row => mret (rowToVM row)
              | None => throw (ErrOther "reload claimed vm")
              end
            else throw ErrNoAvailableVM
        | None => throw ErrNoAvailableVM
        end
    end).

(** ** Leases *)

(** Does another row carry this (non-NULL) request ID?  The partial unique
    index [idx_leases_request_id]. *)
Definition request_id_taken (rid : option string) (m : gmap string leaseRow) : bool :=
  match rid with
  | None => false
  | Some _ => bool_decide (filter (fun r => lr_requestID r = rid) (rows m) <> [])
  end.

Definition insertLease (l : LeaseRecord) : M unit :=
  row ← lift (leaseToRow l);
  dup_id ← query (fun db => bool_decide (is_Some (leases db !! lr_leaseID row)));
  dup_rid ← query (fun db => request_id_taken (lr_requestID row) (leases db));
  if dup_rid && (request_id_reported || negb dup_id) then throw ErrDuplicateRequestID
  else if dup_id || dup_rid then throw (ErrOther "insert lease")
  else exec (fun db => set_leases (<[lr_leaseID row := row]> (leases db)) db).

Definition CreateLease (l : LeaseRecord) : M unit := insertLease l.

Definition LeaseVM (v : VMRecord) (l : LeaseRecord) : M unit :=
  tx (updateVM v;; insertLease l).

Definition GetLease (leaseID : string) : M LeaseRecord :=
  row ← query (fun db => leases db !! leaseID);
  match row with
  | None => throw ErrNotFound
  | Some row => mret (rowToLease row)
  end.

(** At most one row can match a request ID (the index is unique), so the first
    is the row.  A NULL never equals the parameter. *)
Definition GetLeaseByRequestID (requestID : string) : M LeaseRecord :=
  row ← query (fun db =>
    head (filter (fun r => lr_requestID r = Some requestID) (scan_leases (leases db))));
  match row with
  | None => throw ErrNotFound
  | Some row => mret (rowToLease row)
  end.

(** [SET last_heartbeat_at = at, expires_at = expiresAt]. *)
Definition heartbeat (at_ expiresAt : Timestamp) (r : leaseRow) : leaseRow :=
  {| lr_leaseID := lr_leaseID r; lr_vmUID := lr_vmUID r;
     lr_poolName := lr_poolName r; lr_poolNamespace := lr_poolNamespace r;
     lr_claimedAt := lr_claimedAt r; lr_lastHeartbeatAt := UnixNano at_;
     lr_expiresAt := UnixNano expiresAt; lr_requestID := lr_requestID r |}.

Definition UpdateLeaseHeartbeat (leaseID : string) (at_ expiresAt : Timestamp) : M unit :=
  old ← query (fun db => leases db !! leaseID);
  exec (fun db => set_leases (alter (heartbeat at_ expiresAt) leaseID (leases db)) db);;
  checkRowsAffected (matched old).

Definition DeleteLease (leaseID : string) : M unit :=
  old ← query (fun db => leases db !! leaseID);
  exec (fun db => set_leases (delete leaseID (leases db)) db);;
  checkRowsAffected (matched old).

Definition ListExpiredLeases (now : Timestamp) : M (list LeaseRecord) :=
  query (fun db => rowToLease <$> sort_on Z.le lr_expiresAt
    (filter (fun r => lr_expiresAt r <= UnixNano now)%Z (scan_leases (leases db)))).

Definition ListLeases (poolRef : option PoolRef) : M (list LeaseRecord) :=
  query (fun db => rowToLease <$> sort_on String.le lr_leaseID
    (match poolRef with
     | Some p => filter (lease_in_pool (ref_name p) (ref_namespace p)) (rows (leases db))
     | None => rows (leases db)
     end)).

Definition DeleteLeaseIfExpired (leaseID : string) (now : Timestamp) : M LeaseRecord :=
  tx (
    row ← query (fun db => leases db !! leaseID);
    match row with
    | None => throw ErrNotFound
    | Some row =>
        if decide (lr_expiresAt row > UnixNano now)%Z then throw ErrLeaseNotExpired
        else
          cur ← query (fun db => leases db !! leaseID);
          match cur with
          | Some cur =>
              if decide (lr_expiresAt cur <= UnixNano now)%Z
              then exec (fun db => set_leases (delete leaseID (leases db)) db);;
                   mret (rowToLease row)
              else throw ErrLeaseNotExpired
          | None => throw ErrLeaseNotExpired
          end
    end).

(** ** Events *)

(** The id assigned to [e]; SQLite's AUTOINCREMENT fails once the largest
    64-bit id has been used. *)
Definition AppendEvent (e : Event) : M Z :=
  createdAt ← lift (requireTimestamp "created_at" (event_created_at e));
  seq ← query events_seq;
  if decide (seq = max_int64) then throw (ErrOther "insert event") else
  let id := (seq + 1)%Z in
  exec (fun db => set_events (events db ++
    [{| er_id := id; er_poolName := event_pool_name e;
        er_poolNamespace := event_pool_namespace e; er_vmUID := event_vm_uid e;
        er_type := event_code (event_type e); er_createdAt := UnixNano createdAt;
        er_payloadJSON := event_payload_json e |}]) id db);;
  mret id.

Definition rowToEvent (r : eventRow) : Event :=
  {| event_id := er_id r; event_pool_name := er_poolName r;
     event_vm_uid := er_vmUID r; event_type := event_of_code (er_type r);
     event_created_at := Some (er_createdAt r);
     event_payload_json := er_payloadJSON r;
     event_pool_namespace := er_poolNamespace r |}.

(** [LIMIT n]; a negative limit is no limit. *)
Definition limited {A} (limit : Z) (l : list A) : list A :=
  if decide (limit < 0)%Z then l else take (Z.to_nat limit) l.

Definition ListEventsSince (poolName poolNamespace : string) (sinceID limit : Z)
    : M (list Event) :=
  query (fun db => rowToEvent <$> limited limit (sort_on Z.le er_id
    (filter (fun r => er_poolName r = poolName /\ er_poolNamespace r = poolNamespace /\
                      (er_id r > sinceID)%Z) (events db)))).

Definition ListAllEventsSince (sinceID limit : Z) : M (list Event) :=
  query (fun db => rowToEvent <$> limited limit (sort_on Z.le er_id
    (filter (fun r => er_id r > sinceID)%Z (events db)))).

(** ** Hosts and placements *)

Definition CreateHost (h : Host) : M unit :=
  row ← lift (hostToRow h);
  taken ← query (fun db => hosts db !! hr_name row);
  match taken with
  | Some _ => throw ErrHostExists
  | None => exec (fun db => set_hosts (<[hr_name row := row]> (hosts db)) db)
  end.

Definition GetHost (name : string) : M Host :=
  row ← query (fun db => hosts db !! name);
  match row with
  | None => throw ErrNotFound
  | Some row => mret (rowToHost row)
  end.

(** [SET address, tls_*, updated_at]: the cordon and drain columns stay. *)
Definition update_host_row (now : Z) (h : Host) (r : hostRow) : hostRow :=
  {| hr_name := hr_name r; hr_address := host_address h;
     hr_cordoned := hr_cordoned r; hr_cordonedReason := hr_cordonedReason r;
     hr_cordonedAt := hr_cordonedAt r; hr_updatedAt := UnixNano now;
     hr_tlsInsecure := tls_insecure (GetTls h); hr_caFile := ca_file (GetTls h);
     hr_certFile := cert_file (GetTls h); hr_keyFile := key_file (GetTls h);
     hr_draining := hr_draining r; hr_drainingAt := hr_drainingAt r |}.

(** The UPDATE of [UpdateHost].  The method then reads the row back with
    [GetHost], outside a transaction, so that it is two calls of the store and
    not one ([Effects.UpdateHost]). *)
Definition update_host (now : Z) (h : Host) : M unit :=
  old ← query (fun db => hosts db !! host_name h);
  exec (fun db => set_hosts (alter (update_host_row now h) (host_name h) (hosts db)) db);;
  checkRowsAffected (matched old).

(** The pools whose [flintlock_hosts] name [name], as "namespace/name". *)
Definition pools_naming (name : string) (db : DB) : list string :=
  (fun r => pr_namespace r +:+ "/" +:+ pr_name r) <$>
    sort_on pair_le (fun r => (pr_namespace r, pr_name r))
      (filter (fun r => name ∈ json_each (pr_flintlockHosts r)) (rows (pools db))).

(** VM rows on the host plus placements reserved for it. *)
Definition vms_counted (name : string) (db : DB) : Z :=
  Z.of_nat (length (filter (fun r => vr_flintlockHost r = name) (rows (vms db)))) +
  Z.of_nat (length (filter (fun r => pl_host r = name) (rows (placements db)))).

Definition DeleteHost (name : string) : M unit :=
  tx (
    exists_ ← query (fun db => bool_decide (is_Some (hosts db !! name)));
    if negb exists_ then throw ErrNotFound else
    named ← query (pools_naming name);
    total ← query (vms_counted name);
    count ← scanInt32 total;
    if decide (0 < length named \/ (0 < count)%Z) then throw (HostInUseError named count)
    else exec (fun db => set_hosts (delete name (hosts db)) db)).

Definition ListHosts : M (list Host) :=
  query (fun db => rowToHost <$> sort_on String.le hr_name (rows (hosts db))).

Definition cordon_row (now : Z) (cordoned : bool) (reason : string) (r : hostRow) : hostRow :=
  {| hr_name := hr_name r; hr_address := hr_address r;
     hr_cordoned := cordoned;
     hr_cordonedReason := if cordoned then NullString reason else None;
     hr_cordonedAt := if cordoned then Some (UnixNano now) else None;
     hr_updatedAt := UnixNano now;
     hr_tlsInsecure := hr_tlsInsecure r; hr_caFile := hr_caFile r;
     hr_certFile := hr_certFile r; hr_keyFile := hr_keyFile r;
     hr_draining := if cordoned then hr_draining r else false;
     hr_drainingAt := if cordoned then hr_drainingAt r else None |}.

(** The UPDATE of [SetHostCordoned], which goes on like [UpdateHost]. *)
Definition set_cordoned (now : Z) (name : string) (cordoned : bool) (reason : string) : M unit :=
  old ← query (fun db => hosts db !! name);
  exec (fun db => set_hosts (alter (cordon_row now cordoned reason) name (hosts db)) db);;
  checkRowsAffected (matched old).

Definition drain_row (now : Z) (reason : string) (r : hostRow) : hostRow :=
  {| hr_name := hr_name r; hr_address := hr_address r;
     hr_cordoned := true;
     hr_cordonedReason :=
       match NullString reason with Some s => Some s | None => hr_cordonedReason r end;
     hr_cordonedAt := if hr_cordoned r then hr_cordonedAt r else Some (UnixNano now);
     hr_updatedAt := UnixNano now;
     hr_tlsInsecure := hr_tlsInsecure r; hr_caFile := hr_caFile r;
     hr_certFile := hr_certFile r; hr_keyFile := hr_keyFile r;
     hr_draining := true;
     hr_drainingAt := if hr_draining r then hr_drainingAt r else Some (UnixNano now) |}.

(** [UPDATE vms ... WHERE <P> AND phase NOT IN (...) RETURNING ...], then the
    sort by uid.  The returned rows are the rows as written. *)
Definition markUnleasedVMsDeleting (now : Z) (P : DB -> vmRow -> Prop)
    `{forall db r, Decision (P db r)} : M (list VMRecord) :=
  marked ← query (fun db => filter (fun r => P db r /\ unleased r) (rows (vms db)));
  exec (fun db => set_vms
    (update_where (fun r => P db r /\ unleased r) (mark_deleting now) (vms db)) db);;
  mret (sort_on String.le vm_uid ((fun r => rowToVM (mark_deleting now r)) <$> marked)).

Definition on_host (name : string) (_ : DB) (r : vmRow) : Prop :=
  vr_flintlockHost r = name.

(** [flintlock_host IN (SELECT name FROM hosts WHERE draining)]. *)
Definition on_draining_host (db : DB) (r : vmRow) : Prop :=
  match hosts db !! vr_flintlockHost r with
  | Some h => hr_draining h = true
  | None => False
  end.

#[export] Instance on_host_dec n db r : Decision (on_host n db r).
Proof. unfold on_host; apply _. Defined.
#[export] Instance on_draining_host_dec db r : Decision (on_draining_host db r).
Proof. unfold on_draining_host. destruct (hosts db !! _); apply _. Defined.

Definition DrainHost (now now' : Z) (name reason : string) : M (Host * list VMRecord) :=
  tx (
    old ← query (fun db => hosts db !! name);
    exec (fun db => set_hosts (alter (drain_row now reason) name (hosts db)) db);;
    checkRowsAffected (matched old);;
    marked ← markUnleasedVMsDeleting now' (on_host name);
    row ← query (fun db => hosts db !! name);
    match row with
    | Some row => mret (rowToHost row, marked)
    | None => throw (ErrOther "query drained host")
    end).

Definition MarkDrainingHostsVMsDeleting (now : Z) : M (list VMRecord) :=
  tx (markUnleasedVMsDeleting now on_draining_host).

Definition ReservePlacement (now : Z) (id host poolName poolNamespace : string) : M unit :=
  tx (
    row ← query (fun db => hosts db !! host);
    match row with
    | None => throw ErrHostNotRegistered
    | Some h =>
        if hr_cordoned h then throw ErrHostCordoned else
        taken ← query (fun db => placements db !! id);
        match taken with
        | Some _ => throw (ErrOther "insert placement")
        | None => exec (fun db => set_placements (<[id :=
            {| pl_id := id; pl_host := host; pl_poolName := poolName;
               pl_poolNamespace := poolNamespace; pl_createdAt := UnixNano now |}]>
            (placements db)) db)
        end
    end).

Definition ReleasePlacement (id : string) : M unit :=
  exec (fun db => set_placements (delete id (placements db)) db).

Definition ClearPlacements : M unit :=
  exec (fun db => set_placements ∅ db).

Definition CountVMsByHost (name : string) : M Z :=
  total ← query (vms_counted name);
  scanInt32 total.

End store.
