(* ===== verification/StoreOps.v ===== *)
(** * The Store interface and its laws

    [storeOp] is the [Store] interface of [src/internal/store/store.go]: one
    constructor per method, indexed by what the method returns.  [denote] says
    that [sqlite.go] implements each method by the definition of [Store.v].
    [UpdateHost] and [SetHostCordoned] are not atomic: for them there is a
    constructor for the UPDATE, which they follow with a [GetHost].  Whole, as
    one call of the interface, they are in [storeMethod].

    The rest of the file is what every method promises, whatever the caller
    does: the well-formedness of the database is kept, a call that fails
    changes nothing, and DELETING is terminal.  They are stated for one call
    and, through [store_step], for every sequence of calls. *)

From stdpp Require Import base gmap strings list sorting relations.
From Stdlib Require Import ZArith Lia.
From S2P Require Import Prelude Types Convert Store.

Inductive storeOp : Set -> Type :=
  | OpCreatePool (p : PoolSpec) : storeOp unit
  | OpGetPool (name namespace : string) : storeOp PoolSpec
  | OpListPools : storeOp (list PoolSpec)
  | OpUpdatePool (p : PoolSpec) : storeOp unit
  | OpDeletePool (name namespace : string) : storeOp unit
  | OpDeletePoolAndMarkVMs (name namespace : string) (force : bool) : storeOp (list VMRecord)
  | OpCreateVM (v : VMRecord) : storeOp unit
  | OpGetVM (uid : string) : storeOp VMRecord
  | OpListVMsByPool (poolName poolNamespace : string) (phase : option VMPhase) : storeOp (list VMRecord)
  | OpUpdateVM (v : VMRecord) : storeOp unit
  | OpDeleteVM (uid : string) : storeOp unit
  | OpDeleteVMCheckingPool (uid : string) : storeOp bool
  | OpClaimAvailableVM (poolName poolNamespace : string) : storeOp VMRecord
  | OpCreateLease (l : LeaseRecord) : storeOp unit
  | OpLeaseVM (v : VMRecord) (l : LeaseRecord) : storeOp unit
  | OpGetLease (leaseID : string) : storeOp LeaseRecord
  | OpGetLeaseByRequestID (requestID : string) : storeOp LeaseRecord
  | OpUpdateLeaseHeartbeat (leaseID : string) (at_ expiresAt : Timestamp) : storeOp unit
  | OpDeleteLease (leaseID : string) : storeOp unit
  | OpListExpiredLeases (now : Timestamp) : storeOp (list LeaseRecord)
  | OpListLeases (poolRef : option PoolRef) : storeOp (list LeaseRecord)
  | OpDeleteLeaseIfExpired (leaseID : string) (now : Timestamp) : storeOp LeaseRecord
  | OpAppendEvent (e : Event) : storeOp Z
  | OpListEventsSince (poolName poolNamespace : string) (sinceID limit : Z) : storeOp (list Event)
  | OpListAllEventsSince (sinceID limit : Z) : storeOp (list Event)
  | OpListVMsByPhase (phase : VMPhase) : storeOp (list VMRecord)
  | OpCreateHost (h : Host) : storeOp unit
  | OpUpdateHostRow (h : Host) : storeOp unit
  | OpDeleteHost (name : string) : storeOp unit
  | OpGetHost (name : string) : storeOp Host
  | OpListHosts : storeOp (list Host)
  | OpSetCordonRow (name : string) (cordoned : bool) (reason : string) : storeOp unit
  | OpDrainHost (name reason : string) : storeOp (Host * list VMRecord)
  | OpMarkDrainingHostsVMsDeleting : storeOp (list VMRecord)
  | OpReservePlacement (id host poolName poolNamespace : string) : storeOp unit
  | OpReleasePlacement (id : string) : storeOp unit
  | OpClearPlacements : storeOp unit
  | OpCountVMsByHost (name : string) : storeOp Z.

Section denote.
Context `{Codec, Sqlite}.

(** [now] and [now'] are the operation's readings of the clock. *)
Definition denote {A} (now now' : Z) (o : storeOp A) : M A :=
  match o in storeOp B return M B with
  | OpCreatePool p => CreatePool p
  | OpGetPool n ns => GetPool n ns
  | OpListPools => ListPools
  | OpUpdatePool p => UpdatePool p
  | OpDeletePool n ns => DeletePool n ns
  | OpDeletePoolAndMarkVMs n ns f => DeletePoolAndMarkVMs now n ns f
  | OpCreateVM v => CreateVM v
  | OpGetVM u => GetVM u
  | OpListVMsByPool n ns p => ListVMsByPool n ns p
  | OpUpdateVM v => UpdateVM v
  | OpDeleteVM u => DeleteVM u
  | OpDeleteVMCheckingPool u => DeleteVMCheckingPool u
  | OpClaimAvailableVM n ns => ClaimAvailableVM now n ns
  | OpCreateLease l => CreateLease l
  | OpLeaseVM v l => LeaseVM v l
  | OpGetLease i => GetLease i
  | OpGetLeaseByRequestID r => GetLeaseByRequestID r
  | OpUpdateLeaseHeartbeat i a e => UpdateLeaseHeartbeat i a e
  | OpDeleteLease i => DeleteLease i
  | OpListExpiredLeases t => ListExpiredLeases t
  | OpListLeases p => ListLeases p
  | OpDeleteLeaseIfExpired i t => DeleteLeaseIfExpired i t
  | OpAppendEvent e => AppendEvent e
  | OpListEventsSince n ns s l => ListEventsSince n ns s l
  | OpListAllEventsSince s l => ListAllEventsSince s l
  | OpListVMsByPhase p => ListVMsByPhase p
  | OpCreateHost h => CreateHost h
  | OpUpdateHostRow h => update_host now h
  | OpDeleteHost n => DeleteHost n
  | OpGetHost n => GetHost n
  | OpListHosts => ListHosts
  | OpSetCordonRow n c r => set_cordoned now n c r
  | OpDrainHost n r => DrainHost now now' n r
  | OpMarkDrainingHostsVMsDeleting => MarkDrainingHostsVMsDeleting now
  | OpReservePlacement i h n ns => ReservePlacement now i h n ns
  | OpReleasePlacement i => ReleasePlacement i
  | OpClearPlacements => ClearPlacements
  | OpCountVMsByHost n => CountVMsByHost n
  end.
End denote.

(** A call of the interface: an operation, or one of the two methods that are
    an UPDATE and then, outside a transaction, a [GetHost]. *)
Inductive storeMethod : Set -> Type :=
  | Atomic {A : Set} (o : storeOp A) : storeMethod A
  | MethodUpdateHost (h : Host) : storeMethod Host
  | MethodSetHostCordoned (name : string) (cordoned : bool) (reason : string) : storeMethod Host.

Definition denote_method `{Codec, Sqlite} {A} (now now' : Z) (m : storeMethod A) : M A :=
  match m in storeMethod B return M B with
  | Atomic o => denote now now' o
  | MethodUpdateHost h => update_host now h;; GetHost (host_name h)
  | MethodSetHostCordoned n c r => set_cordoned now n c r;; GetHost n
  end.

(** The databases a call can leave that returns an error: the one it found, or
    for the two methods above that with the UPDATE done. *)
Definition after_error {A} (now : Z) (m : storeMethod A) (db db' : DB) : Prop :=
  db' = db \/
  match m with
  | Atomic _ => False
  | MethodUpdateHost h => update_host now h db = (db', Ok tt)
  | MethodSetHostCordoned n c r => set_cordoned now n c r db = (db', Ok tt)
  end.

(** ** Symbolic execution of a store operation *)

(** Unfold the statement combinators of [Store.v]. *)
Ltac store_simpl :=
  cbv beta iota delta [tx mbind M_bind mret M_ret query exec throw lift
    checkRowsAffected matched scanInt32] in *; simpl in *.

Ltac unfold_ops :=
  unfold denote, DeletePoolAndMarkVMs, LeaseVM, CreateLease, UpdateVM, update_host,
    set_cordoned, DrainHost, MarkDrainingHostsVMsDeleting in *;
  unfold CreatePool, GetPool, ListPools, UpdatePool, DeletePool, CreateVM, GetVM,
    ListVMsByPool, ListVMsByPhase, updateVM, DeleteVM, DeleteVMCheckingPool,
    ClaimAvailableVM, insertLease, GetLease, GetLeaseByRequestID,
    UpdateLeaseHeartbeat, DeleteLease, ListExpiredLeases, ListLeases,
    DeleteLeaseIfExpired, AppendEvent, ListEventsSince, ListAllEventsSince,
    CreateHost, GetHost, DeleteHost, ListHosts, markUnleasedVMsDeleting,
    ReservePlacement, ReleasePlacement, ClearPlacements, CountVMsByHost in *.

(** Case analysis on every test of the operation, innermost first. *)
Ltac store_cases :=
  repeat first
    [ progress (store_simpl; simplify_eq/=)
    | rewrite lookup_alter_eq
    | rewrite lookup_insert_eq
    | match goal with
      | E : ?x = Some _ |- context [?x] => rewrite E
      end
    | match goal with
      | |- context [match ?x with _ => _ end] =>
          lazymatch x with
          | context [match _ with _ => _ end] => fail
          | _ => destruct x eqn:?
          end
      end ].

(** Run an operation symbolically: [E : denote _ _ o db = (db', r)] becomes one
    goal per path through the operation. *)
Ltac store_run E := unfold_ops; revert E; store_cases; intros E; simplify_eq/=.

(** ** Facts about statements *)

Section statements.
Context {K A : Type} `{Countable K}.
Implicit Types m : gmap K A.

Lemma alter_missing (f : A -> A) k m : m !! k = None -> alter f k m = m.
Proof.
  intros Hk. apply map_eq. intros i. destruct (decide (i = k)) as [->|].
  - by rewrite lookup_alter_eq, Hk.
  - by rewrite lookup_alter_ne.
Qed.

Lemma delete_missing k m : m !! k = None -> delete k m = m.
Proof. apply delete_id. Qed.

Lemma lookup_update_where (P : A -> Prop) `{forall x, Decision (P x)} f m k :
  update_where P f m !! k = (fun r => if decide (P r) then f r else r) <$> m !! k.
Proof. apply lookup_fmap. Qed.

Lemma lookup_delete_where (P : A -> Prop) `{forall x, Decision (P x)} m k r :
  delete_where P m !! k = Some r <-> m !! k = Some r /\ ~ P r.
Proof. unfold delete_where. by rewrite map_lookup_filter_Some. Qed.

Lemma map_Forall_update_where (Q : K -> A -> Prop) (P : A -> Prop)
    `{forall x, Decision (P x)} f m :
  map_Forall Q m -> (forall k r, Q k r -> Q k (f r)) ->
  map_Forall Q (update_where P f m).
Proof.
  intros HQ Hf k r. rewrite lookup_update_where. intros Hr.
  apply fmap_Some in Hr as (r0 & Hk & ->). case_decide; [apply Hf|]; by apply HQ.
Qed.

Lemma map_Forall_delete_where (Q : K -> A -> Prop) (P : A -> Prop)
    `{forall x, Decision (P x)} m :
  map_Forall Q m -> map_Forall Q (delete_where P m).
Proof. intros HQ k r Hr. apply lookup_delete_where in Hr as [Hr _]. by apply HQ. Qed.

Lemma map_Forall_alter (Q : K -> A -> Prop) f k m :
  map_Forall Q m -> (forall r, Q k r -> Q k (f r)) -> map_Forall Q (alter f k m).
Proof.
  intros HQ Hf i r Hr. destruct (decide (i = k)) as [->|Hne].
  - rewrite lookup_alter_eq in Hr. apply fmap_Some in Hr as (r0 & Hk & ->).
    by apply Hf, HQ.
  - rewrite lookup_alter_ne in Hr by done. by apply HQ.
Qed.
Lemma map_Forall_ins (Q : K -> A -> Prop) k x m :
  map_Forall Q m -> Q k x -> map_Forall Q (<[k := x]> m).
Proof. intros. by apply map_Forall_insert_2. Qed.

Lemma map_Forall_del (Q : K -> A -> Prop) k m :
  map_Forall Q m -> map_Forall Q (delete k m).
Proof. apply map_Forall_delete. Qed.
End statements.

Lemma set_pools_id db : set_pools (pools db) db = db.
Proof. by destruct db. Qed.
Lemma set_vms_id db : set_vms (vms db) db = db.
Proof. by destruct db. Qed.
Lemma set_leases_id db : set_leases (leases db) db = db.
Proof. by destruct db. Qed.
Lemma set_hosts_id db : set_hosts (hosts db) db = db.
Proof. by destruct db. Qed.

#[export] Hint Rewrite set_pools_id set_vms_id set_leases_id set_hosts_id : battery.
#[export] Hint Rewrite @alter_missing using (by auto) : battery.
#[export] Hint Rewrite @delete_missing using (by auto) : battery.

#[export] Hint Resolve map_Forall_update_where map_Forall_delete_where
  map_Forall_alter map_Forall_ins map_Forall_del wrap64_range : battery.

(** ** Well-formed databases *)

(** Every row sits under its own key and holds [int64] times; request IDs are
    unique and not empty; event ids grow and stay below the counter; a
    draining host is cordoned; a placement's host is registered. *)
Definition vm_row_ok (uid : string) (r : vmRow) : Prop :=
  vr_uid r = uid /\ in_int64 (vr_createdAt r) /\ in_int64 (vr_updatedAt r).
Definition lease_row_ok (id : string) (r : leaseRow) : Prop :=
  lr_leaseID r = id /\ lr_requestID r <> Some "" /\ in_int64 (lr_claimedAt r) /\
  in_int64 (lr_lastHeartbeatAt r) /\ in_int64 (lr_expiresAt r).
Definition host_row_ok (name : string) (r : hostRow) : Prop :=
  hr_name r = name /\ (hr_draining r = true -> hr_cordoned r = true).
Definition request_ids_unique (m : gmap string leaseRow) : Prop :=
  forall i j r s x, m !! i = Some r -> m !! j = Some s ->
    lr_requestID r = Some x -> lr_requestID s = Some x -> i = j.
Definition events_ok (evs : list eventRow) (seq : Z) : Prop :=
  StronglySorted (fun a b => er_id a < er_id b)%Z evs /\
  Forall (fun e => 0 < er_id e <= seq)%Z evs /\ (0 <= seq <= max_int64)%Z.

Record db_wf (db : DB) : Prop := {
  wf_pools : map_Forall (fun k r => (pr_name r, pr_namespace r) = k) (pools db);
  wf_vms : map_Forall vm_row_ok (vms db);
  wf_leases : map_Forall lease_row_ok (leases db);
  wf_request_ids : request_ids_unique (leases db);
  wf_events : events_ok (events db) (events_seq db);
  wf_hosts : map_Forall host_row_ok (hosts db);
  wf_placement_ids : map_Forall (fun k r => pl_id r = k) (placements db);
  wf_placements : map_Forall (fun _ r => is_Some (hosts db !! pl_host r)) (placements db)
}.

(** What the interface leaves to its callers: [CreateHost] stores the cordon
    and drain fields as given. *)
Definition op_ok {A} (o : storeOp A) : Prop :=
  match o with
  | OpCreateHost h => host_draining h = true -> host_cordoned h = true
  | _ => True
  end.

Lemma empty_db_wf : db_wf empty_db.
Proof.
  split; simpl; try apply map_Forall_empty.
  - intros i j r s x Hi. by rewrite lookup_empty in Hi.
  - split_and!; [constructor|constructor|done|done].
Qed.

Lemma vm_row_at (m : gmap string vmRow) i r : map_Forall vm_row_ok m -> m !! i = Some r -> vm_row_ok i r.
Proof. intros W. apply W. Qed.
Lemma lease_row_at (m : gmap string leaseRow) i r : map_Forall lease_row_ok m -> m !! i = Some r -> lease_row_ok i r.
Proof. intros W. apply W. Qed.
Lemma host_row_at (m : gmap string hostRow) i r : map_Forall host_row_ok m -> m !! i = Some r -> host_row_ok i r.
Proof. intros W. apply W. Qed.
#[export] Hint Resolve vm_row_at lease_row_at host_row_at : battery.

(** Converted rows are well formed. *)

Lemma vmToRow_ok v row : vmToRow v = Ok row -> vm_row_ok (vr_uid row) row.
Proof.
  unfold vmToRow. destruct (vm_created_at v), (vm_updated_at v); try done.
  intros E; simplify_eq/=. unfold vm_row_ok; simpl. split_and!; try apply wrap64_range. done.
Qed.

Lemma updated_row_ok uid v row old :
  vmToRow v = Ok row -> vm_row_ok uid old -> vm_row_ok uid (updated_row row old).
Proof. intros E%vmToRow_ok (? & ? & ?). by destruct E as (_ & _ & ?). Qed.

Lemma mark_deleting_ok now uid r : vm_row_ok uid r -> vm_row_ok uid (mark_deleting now r).
Proof. intros (? & ? & ?). unfold vm_row_ok; simpl. split_and!; auto; apply wrap64_range. Qed.

Lemma mark_leased_ok now uid r : vm_row_ok uid r -> vm_row_ok uid (mark_leased now r).
Proof. intros (? & ? & ?). unfold vm_row_ok; simpl. split_and!; auto; apply wrap64_range. Qed.

Lemma leaseToRow_ok l row : leaseToRow l = Ok row -> lease_row_ok (lr_leaseID row) row.
Proof.
  unfold leaseToRow.
  destruct (lease_claimed_at l), (lease_last_heartbeat_at l), (lease_expires_at l); try done.
  intros E; simplify_eq/=. unfold lease_row_ok; simpl.
  split_and!; try apply wrap64_range; [done|]. unfold NullString. case_decide; congruence.
Qed.

Lemma heartbeat_ok a e id r : lease_row_ok id r -> lease_row_ok id (heartbeat a e r).
Proof. intros (? & ? & ? & ? & ?). unfold lease_row_ok; simpl. split_and!; auto; apply wrap64_range. Qed.

Lemma hostToRow_ok h row :
  (host_draining h = true -> host_cordoned h = true) ->
  hostToRow h = Ok row -> host_row_ok (hr_name row) row.
Proof. unfold hostToRow. destruct (host_updated_at h); [|done]. intros ? E; by simplify_eq/=. Qed.

Lemma update_host_row_ok now h n r : host_row_ok n r -> host_row_ok n (update_host_row now h r).
Proof. by intros [??]. Qed.

Lemma cordon_row_ok now c s n r : host_row_ok n r -> host_row_ok n (cordon_row now c s r).
Proof. intros [??]. split; [done|]. by destruct c. Qed.

Lemma drain_row_ok now s n r : host_row_ok n r -> host_row_ok n (drain_row now s r).
Proof. by intros [??]. Qed.

#[export] Hint Resolve vmToRow_ok updated_row_ok mark_deleting_ok mark_leased_ok
  leaseToRow_ok heartbeat_ok hostToRow_ok update_host_row_ok cordon_row_ok
  drain_row_ok : battery.

(** ** What every method promises *)

Section laws.
Context `{Codec, Sqlite}.

(** Atomicity, as a lemma for the clients of the store. *)
Lemma failed_op_keeps_db {A} now now' (o : storeOp A) db db' e :
  denote now now' o db = (db', Err e) -> db' = db.
Proof. intros E. destruct o; store_run E; autorewrite with battery; done. Qed.

Lemma op_keeps_vms {A} now now' (o : storeOp A) db :
  map_Forall vm_row_ok (vms db) -> map_Forall vm_row_ok (vms (denote now now' o db).1).
Proof.
  intros W. destruct (denote now now' o db) as [db' r] eqn:E.
  destruct o; store_run E; eauto 4 with battery.
Qed.

Lemma op_keeps_pools {A} now now' (o : storeOp A) db :
  map_Forall (fun k r => (pr_name r, pr_namespace r) = k) (pools db) ->
  map_Forall (fun k r => (pr_name r, pr_namespace r) = k) (pools (denote now now' o db).1).
Proof.
  intros W. destruct (denote now now' o db) as [db' r] eqn:E.
  destruct o; store_run E; eauto 4 with battery.
Qed.

Lemma op_keeps_leases {A} now now' (o : storeOp A) db :
  map_Forall lease_row_ok (leases db) ->
  map_Forall lease_row_ok (leases (denote now now' o db).1).
Proof.
  intros W. destruct (denote now now' o db) as [db' r] eqn:E.
  destruct o; store_run E; eauto 4 with battery.
Qed.

Lemma request_id_taken_false rid m :
  request_id_taken rid m = false ->
  forall k r x, m !! k = Some r -> rid = Some x -> lr_requestID r <> Some x.
Proof.
  intros Ht k r x Hk -> Hr. unfold request_id_taken in Ht.
  apply bool_decide_eq_false in Ht. apply Ht. intros En.
  assert (r ∈ filter (fun r => lr_requestID r = Some x) (rows m)) as Hin.
  { apply list_elem_of_filter. split; [done|]. apply elem_of_rows. by exists k. }
  rewrite En in Hin. by apply not_elem_of_nil in Hin.
Qed.

Lemma request_ids_unique_insert id row m :
  request_id_taken (lr_requestID row) m = false -> request_ids_unique m ->
  request_ids_unique (<[id := row]> m).
Proof.
  intros Ht U i j r s x Hi Hj Hr Hs.
  pose proof (request_id_taken_false _ _ Ht) as Hno.
  apply lookup_insert_Some in Hi as [[<- <-]|[Ni Hi]];
  apply lookup_insert_Some in Hj as [[<- <-]|[Nj Hj]]; [done| | |by eapply U];
  exfalso; [eapply (Hno j)|eapply (Hno i)]; eauto.
Qed.

Lemma request_ids_unique_sub m m' :
  (forall k r, m' !! k = Some r -> exists r', m !! k = Some r' /\ lr_requestID r' = lr_requestID r) ->
  request_ids_unique m -> request_ids_unique m'.
Proof.
  intros Hsub U i j r s x Hi Hj Hr Hs.
  apply Hsub in Hi as (r' & Hi & Er), Hj as (s' & Hj & Es).
  eapply (U i j r' s' x); congruence.
Qed.

Lemma request_ids_unique_alter f id m :
  (forall r, lr_requestID (f r) = lr_requestID r) ->
  request_ids_unique m -> request_ids_unique (alter f id m).
Proof.
  intros Hf. apply request_ids_unique_sub. intros k r Hk.
  apply lookup_alter_Some in Hk as [(-> & r' & Hr & ->)|[Hne Hk]]; eauto.
Qed.

Lemma request_ids_unique_delete id m :
  request_ids_unique m -> request_ids_unique (delete id m).
Proof.
  apply request_ids_unique_sub. intros k r [Hne Hk]%lookup_delete_Some. eauto.
Qed.

Lemma request_ids_unique_delete_where P `{forall r, Decision (P r)} m :
  request_ids_unique m -> request_ids_unique (delete_where P m).
Proof.
  apply request_ids_unique_sub. intros k r [Hk _]%lookup_delete_where. eauto.
Qed.

Lemma op_keeps_request_ids {A} now now' (o : storeOp A) db :
  request_ids_unique (leases db) ->
  request_ids_unique (leases (denote now now' o db).1).
Proof.
  intros W. destruct (denote now now' o db) as [db' r] eqn:E.
  destruct o; store_run E;
    auto using request_ids_unique_delete, request_ids_unique_delete_where,
      request_ids_unique_alter;
    apply request_ids_unique_insert; auto;
    match goal with E : _ || _ = false |- _ => by apply orb_false_iff in E as [_ E] end.
Qed.

Lemma events_ok_append evs seq e :
  events_ok evs seq -> er_id e = (seq + 1)%Z -> seq <> max_int64 ->
  events_ok (evs ++ [e]) (seq + 1).
Proof.
  intros (S & F & R) He Hne. unfold events_ok. split_and!; [| |lia|lia].
  - apply StronglySorted_app_2; [|done|by repeat constructor].
    intros x y Hx ->%list_elem_of_singleton.
    rewrite Forall_forall in F. specialize (F x Hx). lia.
  - apply Forall_app; split; [|repeat constructor; lia].
    eapply Forall_impl; [exact F|]. simpl. lia.
Qed.

Lemma op_keeps_events {A} now now' (o : storeOp A) db :
  events_ok (events db) (events_seq db) ->
  events_ok (events (denote now now' o db).1) (events_seq (denote now now' o db).1).
Proof.
  intros W. destruct (denote now now' o db) as [db' r] eqn:E.
  destruct o; store_run E; auto using events_ok_append.
Qed.

Lemma op_keeps_hosts {A} now now' (o : storeOp A) db :
  op_ok o -> map_Forall host_row_ok (hosts db) ->
  map_Forall host_row_ok (hosts (denote now now' o db).1).
Proof.
  intros Hok W. destruct (denote now now' o db) as [db' r] eqn:E.
  destruct o; store_run E; eauto 4 with battery.
Qed.

Lemma op_keeps_placement_ids {A} now now' (o : storeOp A) db :
  map_Forall (fun k r => pl_id r = k) (placements db) ->
  map_Forall (fun k r => pl_id r = k) (placements (denote now now' o db).1).
Proof.
  intros W. destruct (denote now now' o db) as [db' r] eqn:E.
  destruct o; store_run E; eauto 4 with battery. apply map_Forall_empty.
Qed.

(** A host that is counted as used keeps its row. *)
Lemma placement_counted k r name db :
  placements db !! k = Some r -> pl_host r = name -> (0 < vms_counted name db)%Z.
Proof.
  intros Hk Hn. unfold vms_counted.
  enough (0 < length (filter (fun r => pl_host r = name) (rows (placements db)))) by lia.
  enough (length (filter (fun r => pl_host r = name) (rows (placements db))) <> 0) by lia.
  rewrite filter_length_zero. intros Hno. apply (Hno r); [|done].
  apply elem_of_rows. by exists k.
Qed.

Lemma is_Some_alter {V} (f : V -> V) k j (m : gmap string V) :
  is_Some (alter f k m !! j) <-> is_Some (m !! j).
Proof.
  destruct (decide (j = k)) as [->|].
  - by rewrite lookup_alter_eq, fmap_is_Some.
  - by rewrite lookup_alter_ne.
Qed.

Lemma op_keeps_placements {A} now now' (o : storeOp A) db :
  map_Forall (fun _ r => is_Some (hosts db !! pl_host r)) (placements db) ->
  map_Forall (fun _ r => is_Some (hosts (denote now now' o db).1 !! pl_host r))
    (placements (denote now now' o db).1).
Proof.
  intros W. destruct (denote now now' o db) as [db' r] eqn:E.
  destruct o; store_run E; try done; try (by eauto with battery);
    try (intros k p Hp; rewrite is_Some_alter; by apply (W k)).
  - (* CreateHost *)
    intros k p Hp. rewrite lookup_insert. case_decide; [done|]. by apply (W k).
  - (* DeleteHost *)
    intros k p Hp. destruct (decide (pl_host p = name)) as [Hn|Hn].
    + exfalso. pose proof (placement_counted k p name db Hp Hn).
      match goal with n : ~ (_ \/ _) |- _ => apply n; by right end.
    + rewrite lookup_delete_ne by done. by apply (W k).
Qed.

Lemma op_keeps_wf {A} now now' (o : storeOp A) db :
  op_ok o -> db_wf db -> db_wf (denote now now' o db).1.
Proof.
  intros Hok []. split; eauto using op_keeps_pools, op_keeps_vms, op_keeps_leases,
    op_keeps_request_ids, op_keeps_events, op_keeps_hosts, op_keeps_placement_ids,
    op_keeps_placements.
Qed.

(** A VM that is DELETING stays DELETING until its row is gone. *)
Definition still_deleting (uid : string) (m : gmap string vmRow) : Prop :=
  forall r, m !! uid = Some r -> vr_phase r = phase_code DELETING.

Lemma still_deleting_update_where uid P `{forall r, Decision (P r)} now m :
  still_deleting uid m -> still_deleting uid (update_where P (mark_deleting now) m).
Proof.
  intros D r. rewrite lookup_update_where. intros Hr.
  apply fmap_Some in Hr as (r0 & Hk & ->). case_decide; [done|]. by apply D.
Qed.

Lemma still_deleting_delete uid k m :
  still_deleting uid m -> still_deleting uid (delete k m).
Proof. intros D r [_ Hr]%lookup_delete_Some. by apply D. Qed.

Lemma still_deleting_insert uid k x m :
  (k = uid -> vr_phase x = phase_code DELETING) ->
  still_deleting uid m -> still_deleting uid (<[k := x]> m).
Proof. intros Hx D r [[<- <-]|[_ Hr]]%lookup_insert_Some; auto. Qed.

Lemma op_keeps_deleting {A} now now' (o : storeOp A) db uid r0 :
  vms db !! uid = Some r0 -> vr_phase r0 = phase_code DELETING ->
  still_deleting uid (vms (denote now now' o db).1).
Proof.
  intros Hr0 Hp0.
  assert (still_deleting uid (vms db)) as D by (intros r Hr; congruence).
  destruct (denote now now' o db) as [db' r] eqn:E.
  destruct o; store_run E;
    auto using still_deleting_update_where, still_deleting_delete;
    apply still_deleting_insert; try done; intros <-; simplify_eq/=;
    destruct_or?; congruence.
Qed.
End laws.
