(* ===== verification/Concrete.v ===== *)
(** * A concrete environment

    Instances of the library's parameters that satisfy their laws, used by
    the witnesses: JSON codecs (the texts are a binary numbering of the
    values, which is enough to round trip) and a SQLite that visits the rows
    of a table in the order of the map. *)

From stdpp Require Import base gmap strings list countable.
From Stdlib Require Import ZArith Lia.
From S2P Require Import Prelude Types Convert Store.

(** ** Numberings as texts *)

Definition bit0 : Ascii.ascii := Ascii.ascii_of_nat 48.
Definition bit1 : Ascii.ascii := Ascii.ascii_of_nat 49.

Fixpoint bits (p : positive) : string :=
  match p with
  | xH => ""
  | xO q => String bit0 (bits q)
  | xI q => String bit1 (bits q)
  end.

Fixpoint unbits (s : string) : option positive :=
  match s with
  | EmptyString => Some xH
  | String c s' =>
      if Ascii.eqb c bit0 then xO <$> unbits s'
      else if Ascii.eqb c bit1 then xI <$> unbits s'
      else None
  end.

Lemma unbits_bits p : unbits (bits p) = Some p.
Proof. induction p as [p IH|p IH|]; simpl; [by rewrite IH|by rewrite IH|done]. Qed.

Definition text {A} `{Countable A} (x : A) : string := bits (encode x).
Definition untext {A} `{Countable A} (s : string) : option A := unbits s ≫= decode.

Lemma untext_text {A} `{Countable A} (x : A) : untext (text x) = Some x.
Proof. unfold untext, text. rewrite unbits_bits. simpl. apply decode_encode. Qed.

(** ** The messages are countable *)

#[export] Instance NetworkInterface_eq_dec : EqDecision NetworkInterface.
Proof. solve_decision. Defined.
#[export] Instance NetworkInterface_countable : Countable NetworkInterface.
Proof.
  refine (inj_countable'
    (fun i => (guest_mac i, address i, iface_rest i))
    (fun '(m, a, r) => {| guest_mac := m; address := a; iface_rest := r |}) _).
  by intros [].
Defined.

#[export] Instance MicroVMSpec_eq_dec : EqDecision MicroVMSpec.
Proof. solve_decision. Defined.
#[export] Instance MicroVMSpec_countable : Countable MicroVMSpec.
Proof.
  refine (inj_countable'
    (fun s => (spec_id s, spec_namespace s, allow_guest_agent s, interfaces s, spec_rest s))
    (fun '(i, n, g, f, r) => {| spec_id := i; spec_namespace := n;
       allow_guest_agent := g; interfaces := f; spec_rest := r |}) _).
  by intros [].
Defined.

(** A strategy type by its wire number. *)
Definition strategy_code (t : ReplenishmentStrategyType) : Z :=
  match t with
  | REPLENISHMENT_STRATEGY_TYPE_UNSPECIFIED => 0
  | IMMEDIATE_ON_LEASE => 1 | MIN_SIZE_THRESHOLD => 2 | REPLACE_ON_DELETE => 3
  | StrategyType_above k => 4 + Z.of_N k | StrategyType_below p => Zneg p
  end.

Definition strategy_of_code (z : Z) : ReplenishmentStrategyType :=
  match z with
  | Zneg p => StrategyType_below p
  | 0%Z => REPLENISHMENT_STRATEGY_TYPE_UNSPECIFIED
  | 1%Z => IMMEDIATE_ON_LEASE | 2%Z => MIN_SIZE_THRESHOLD | 3%Z => REPLACE_ON_DELETE
  | _ => StrategyType_above (Z.to_N (z - 4))
  end.

Lemma strategy_of_code_code t : strategy_of_code (strategy_code t) = t.
Proof.
  destruct t as [| | | |k|p]; try reflexivity.
  enum_of_code_code k 4%positive strategy_of_code strategy_code StrategyType_above.
Qed.

#[export] Instance ReplenishmentStrategy_eq_dec : EqDecision ReplenishmentStrategy.
Proof. solve_decision. Defined.
#[export] Instance ReplenishmentStrategy_countable : Countable ReplenishmentStrategy.
Proof.
  refine (inj_countable'
    (fun s => (strategy_code (strategy_type s), min_size s))
    (fun '(t, m) => {| strategy_type := strategy_of_code t; min_size := m |}) _).
  intros []. simpl. by rewrite strategy_of_code_code.
Defined.

(** ** The instances *)

#[export] Instance codec0 : Codec := {|
  json_marshal_strings := text;
  json_unmarshal_strings := untext;
  json_each s := default [] (untext s);
  marshal_template t := Some (text (default empty_MicroVMSpec t));
  unmarshal_template := untext;
  marshal_strategy t := Some (text (default empty_strategy t));
  unmarshal_strategy := untext
|}.

#[export] Instance codec0_laws : CodecLaws codec0.
Proof.
  split; simpl.
  - intros l _. apply untext_text.
  - intros l _. by rewrite untext_text.
  - intros t s [= <-]. apply untext_text.
  - intros t s [= <-]. apply untext_text.
Qed.

#[export] Instance sqlite0 : Sqlite := {|
  scan_vms := rows;
  scan_leases := rows;
  request_id_reported := true;
  scan_vms_perm m := reflexivity _;
  scan_leases_perm m := reflexivity _
|}.

(** ** A sample database *)

Definition vm0 (uid : string) (p : VMPhase) (l : option string) : VMRecord :=
  {| vm_uid := uid; vm_pool_name := "web"; vm_flintlock_host := "host-a";
     vm_phase := p; vm_lease_id := l; vm_created_at := Some 100%Z;
     vm_updated_at := Some 100%Z; vm_pool_namespace := "default" |}.

Definition lease0 (id uid rid : string) (expires : Z) : LeaseRecord :=
  {| lease_id := id; lease_vm_uid := uid; lease_pool_name := "web";
     lease_claimed_at := Some 100%Z; lease_last_heartbeat_at := Some 100%Z;
     lease_expires_at := Some expires; lease_pool_namespace := "default";
     lease_request_id := rid |}.

Definition pool0 : PoolSpec :=
  {| pool_name := "web"; pool_namespace := "default";
     microvm_template := Some empty_MicroVMSpec; pool_size := 2;
     flintlock_hosts := ["host-a"; "host-b"];
     replenishment_strategy := Some {| strategy_type := REPLACE_ON_DELETE; min_size := None |};
     create_commands := ["true"]; pre_lease_commands := ["true"];
     hook_failure_policy := DELETE_AND_REPLACE;
     heartbeat_interval := Some 10%Z; heartbeat_expiry_threshold := Some 30%Z |}.

Definition host0 (name : string) : Host :=
  {| host_name := name; host_address := name +:+ ":9090"; host_cordoned := false;
     host_cordoned_reason := ""; host_cordoned_at := None;
     host_updated_at := Some 1%Z; host_tls := None; host_draining := false;
     host_draining_at := None |}.

(** Two hosts, the pool, an AVAILABLE, a leased and a QUARANTINED VM. *)
Definition db0 : DB :=
  ((CreateHost (host0 "host-a");; CreateHost (host0 "host-b");; CreatePool pool0;;
   CreateVM (vm0 "vm-1" AVAILABLE None);;
   CreateVM (vm0 "vm-2" LEASED (Some "lease-2"));;
   CreateLease (lease0 "lease-2" "vm-2" "req-2" 500);;
   CreateVM (vm0 "vm-3" QUARANTINED None)) empty_db).1.

Example db0_claim :
  (vm_uid <$> (ClaimAvailableVM 200 "web" "default" db0).2) = Ok "vm-1".
Proof. vm_compute. reflexivity. Qed.

Example db0_pool : (pool_size <$> (GetPool "web" "default" db0).2) = Ok 2%Z.
Proof. vm_compute. reflexivity. Qed.
