(* ===== verification/StoreProps.v ===== *)
(** * What the store guarantees

    Theorems about the operations of [Store.v], for every database a sequence
    of [Store] calls can produce: well-formedness, atomicity, the terminal
    DELETING phase, exclusive claims, pool deletion, leases and their expiry,
    host drain and removal, the events outbox and the record round trips. *)

From stdpp Require Import base gmap strings list sorting relations.
From Stdlib Require Import ZArith Lia.
From S2P Require Import Prelude Types Convert Store StoreOps Concrete.

(** ** Sequences of calls *)

Section sequences.
Context `{Codec, Sqlite}.

(** One call of a [Store] method, successful or not, at any clock readings. *)
Inductive store_step (db : DB) : DB -> Prop :=
  | Store_step {A} now now' (o : storeOp A) :
      op_ok o -> store_step db (denote now now' o db).1.

Lemma store_step_wf db db' : store_step db db' -> db_wf db -> db_wf db'.
Proof. intros [A now now' o Ho] W. by apply op_keeps_wf. Qed.

Lemma store_steps_wf db db' : rtc store_step db db' -> db_wf db -> db_wf db'.
Proof. induction 1; eauto using store_step_wf. Qed.

(** Whatever sequence of [Store] methods is called on an empty database,
    in whatever order and whether or not they fail, the database stays well
    formed: rows sit under their keys, request ids are unique, event ids
    increase and stay below the counter, a draining host is cordoned and every
    placement's host is registered. *)
Theorem reachable_db_wf db : rtc store_step empty_db db -> db_wf db.
Proof. intros Hs. eapply store_steps_wf; eauto using empty_db_wf. Qed.

(** Every [Store] method is atomic: a call that returns an error leaves the
    database exactly as it was, including the multi-statement transactions. *)
Theorem store_op_atomic {A} now now' (o : storeOp A) db db' e :
  denote now now' o db = (db', Err e) -> db' = db.
Proof. apply failed_op_keeps_db. Qed.

(** A VM row in the given phase. *)
Definition vm_in_phase (uid : string) (p : VMPhase) (db : DB) : Prop :=
  exists r, vms db !! uid = Some r /\ vr_phase r = phase_code p.

(** A call during which the VM's row is not removed. *)
Definition step_keeping (uid : string) (db db' : DB) : Prop :=
  store_step db db' /\ is_Some (vms db' !! uid).

(** DELETING is terminal: no sequence of [Store] calls moves a DELETING VM
    to another phase while its row exists; the row can only be removed. *)
Theorem deleting_terminal uid db db' :
  vm_in_phase uid DELETING db -> rtc (step_keeping uid) db db' ->
  vm_in_phase uid DELETING db'.
Proof.
  intros D Hs. induction Hs as [|x y z [[A now now' o Ho] [r Hr]] Hs IH]; [done|].
  apply IH. destruct D as (r0 & Hr0 & P0). exists r. split; [done|].
  by apply (op_keeps_deleting now now' o x uid r0 Hr0 P0).
Qed.
End sequences.

Lemma db0_steps : rtc store_step empty_db db0.
Proof.
  eapply rtc_l; [apply (Store_step _ 0 0 (OpCreateHost (host0 "host-a"))); done|].
  eapply rtc_l; [apply (Store_step _ 0 0 (OpCreateHost (host0 "host-b"))); done|].
  eapply rtc_l; [apply (Store_step _ 0 0 (OpCreatePool pool0)); done|].
  eapply rtc_l; [apply (Store_step _ 0 0 (OpCreateVM (vm0 "vm-1" AVAILABLE None))); done|].
  eapply rtc_l; [apply (Store_step _ 0 0 (OpCreateVM (vm0 "vm-2" LEASED (Some "lease-2")))); done|].
  eapply rtc_l; [apply (Store_step _ 0 0 (OpCreateLease (lease0 "lease-2" "vm-2" "req-2" 500))); done|].
  eapply rtc_l; [apply (Store_step _ 0 0 (OpCreateVM (vm0 "vm-3" QUARANTINED None))); done|].
  match goal with |- rtc _ ?x _ => replace x with db0 by (vm_compute; reflexivity) end.
  apply rtc_refl.
Qed.

Lemma db0_wf : db_wf db0.
Proof. eapply store_steps_wf; [apply db0_steps|apply empty_db_wf]. Qed.

(** The hypotheses above hold of the sample database. *)
Lemma reachable_db_wf_witness : db_wf db0.
Proof. apply reachable_db_wf, db0_steps. Defined.

(** A refused second CreateHost. *)
Lemma store_op_atomic_witness :
  (denote 0 0 (OpCreateHost (host0 "host-a")) db0).1 = db0.
Proof.
  apply (store_op_atomic 0 0 (OpCreateHost (host0 "host-a")) db0 _ ErrHostExists).
  vm_compute. reflexivity.
Defined.

(** A VM marked DELETING by a drain stays so when a claim's UpdateVM arrives. *)
Lemma deleting_terminal_witness :
  vm_in_phase "vm-1" DELETING
    (denote 0 0 (OpUpdateVM (vm0 "vm-1" LEASED (Some "lease-1")))
      (denote 7 8 (OpDrainHost "host-a" "repair") db0).1).1.
Proof.
  apply (deleting_terminal "vm-1" (denote 7 8 (OpDrainHost "host-a" "repair") db0).1).
  - eexists. split; vm_compute; reflexivity.
  - apply rtc_once. split; [by apply Store_step|]. eexists. vm_compute. reflexivity.
Defined.

(** ** Claims *)

Section claims.
Context `{Codec, Sqlite}.
Implicit Types db : DB.

Definition claimable (n ns : string) (r : vmRow) : Prop :=
  in_pool n ns r /\ vr_phase r = phase_code AVAILABLE.

#[export] Instance claimable_dec n ns r : Decision (claimable n ns r).
Proof. unfold claimable; apply _. Defined.

(** The uids of the pool's AVAILABLE VMs. *)
Definition available (n ns : string) (db : DB) : gset string :=
  dom (filter (fun kr => claimable n ns kr.2) (vms db)).

Lemma elem_of_available n ns db uid :
  uid ∈ available n ns db <-> exists r, vms db !! uid = Some r /\ claimable n ns r.
Proof.
  unfold available. rewrite elem_of_dom. split.
  - intros [r Hr]. apply map_lookup_filter_Some in Hr. eauto.
  - intros (r & Hr & Hc). exists r. by apply map_lookup_filter_Some.
Qed.

Lemma elem_of_scan_vms m r : r ∈ scan_vms m <-> exists k, m !! k = Some r.
Proof. by rewrite scan_vms_perm, elem_of_rows. Qed.

(** What [ClaimAvailableVM] does, on each branch. *)
Definition claim_outcome now n ns db (out : DB * result StoreError VMRecord) : Prop :=
  match out with
  | (db', Ok v) => exists uid r,
      vms db !! uid = Some r /\ claimable n ns r /\
      db' = set_vms (<[uid := mark_leased now r]> (vms db)) db /\
      v = rowToVM (mark_leased now r) /\ vm_uid v = uid
  | (db', Err e) => e = ErrNoAvailableVM /\ db' = db /\ available n ns db = ∅
  end.

Lemma claim_outcome_holds now n ns db :
  db_wf db -> claim_outcome now n ns db (ClaimAvailableVM now n ns db).
Proof.
  intros W. unfold ClaimAvailableVM. store_simpl.
  destruct (head _) as [r|] eqn:Eh.
  - apply head_filter_Some in Eh as [Hc Hin].
    apply elem_of_scan_vms in Hin as [k Hk].
    pose proof (wf_vms db W k r Hk) as (Eu & _ & _). rewrite Eu, Hk.
    rewrite decide_True by apply Hc. simpl. rewrite lookup_insert_eq.
    exists k, r. done.
  - pose proof (head_filter_None _ _ Eh) as Hno. split_and!; [done..|].
    apply set_eq. intros u. rewrite elem_of_available. split; [|set_solver].
    intros (r & Hr & Hc). exfalso. apply (Hno r); [|done].
    apply elem_of_scan_vms. by exists u.
Qed.

(** [ClaimAvailableVM] either marks exactly one AVAILABLE VM of the pool
    LEASED, changing nothing else, and returns that VM as stored, or returns
    [ErrNoAvailableVM], changes nothing, and the pool has no AVAILABLE VM.  No
    other error is possible. *)
Theorem ClaimAvailableVM_spec now n ns db :
  db_wf db -> claim_outcome now n ns db (ClaimAvailableVM now n ns db).
Proof. apply claim_outcome_holds. Qed.

(** A claim takes its VM out of the available set. *)
Lemma claim_takes now n ns db uid r :
  vms db !! uid = Some r ->
  available n ns (set_vms (<[uid := mark_leased now r]> (vms db)) db) =
  available n ns db ∖ {[uid]}.
Proof.
  intros Hr. apply set_eq. intros u. rewrite elem_of_difference, !elem_of_available.
  rewrite elem_of_singleton. simpl. split.
  - intros (x & Hx & Hc). apply lookup_insert_Some in Hx as [[<- <-]|[Hne Hx]].
    + by destruct Hc.
    + eauto.
  - intros ((x & Hx & Hc) & Hne). exists x. split; [|done].
    by rewrite lookup_insert_ne.
Qed.

(** Successive claims, at the given times, and the VMs they returned. *)
Fixpoint claims (nows : list Z) (n ns : string) (db : DB) : DB * list VMRecord :=
  match nows with
  | [] => (db, [])
  | now :: nows =>
      match ClaimAvailableVM now n ns db with
      | (db', Ok v) => let '(db'', vs) := claims nows n ns db' in (db'', v :: vs)
      | (db', Err _) => claims nows n ns db'
      end
  end.

(** The claimed uids are distinct AVAILABLE VMs, as many as there were claims
    or VMs, and leave exactly the others. *)
Definition claims_outcome (k : nat) n ns db db' (uids : list string) : Prop :=
  NoDup uids /\ (forall u, u ∈ uids -> u ∈ available n ns db) /\
  length uids = k `min` size (available n ns db) /\
  available n ns db' = available n ns db ∖ list_to_set uids.

Lemma claims_outcome_cons k now n ns db db' uids uid r :
  vms db !! uid = Some r -> claimable n ns r ->
  claims_outcome k n ns (set_vms (<[uid := mark_leased now r]> (vms db)) db) db' uids ->
  claims_outcome (S k) n ns db db' (uid :: uids).
Proof.
  intros Hr Hc (Hnd & Hsub & Hlen & Hav). rewrite claim_takes in Hsub, Hlen, Hav by done.
  assert (uid ∈ available n ns db) as Hin by (apply elem_of_available; eauto).
  unfold claims_outcome. split_and!.
  - constructor; [|done]. intros Hu%Hsub. clear -Hu. set_solver.
  - intros u [->|Hu]%elem_of_cons; [done|]. apply Hsub in Hu. clear -Hu. set_solver.
  - rewrite length_cons, Hlen, size_difference, size_singleton
      by (clear -Hin; set_solver).
    assert (size (available n ns db) <> 0)
      by (apply size_non_empty_iff; clear -Hin; set_solver). lia.
  - rewrite Hav. clear. set_solver.
Qed.

Lemma claims_outcome_holds nows n ns db :
  db_wf db ->
  claims_outcome (length nows) n ns db (claims nows n ns db).1
    (vm_uid <$> (claims nows n ns db).2).
Proof.
  revert db. induction nows as [|now nows IH]; intros db W; simpl.
  { unfold claims_outcome; simpl. split_and!; [constructor|set_solver|lia|set_solver]. }
  pose proof (claim_outcome_holds now n ns db W) as Hclaim.
  pose proof (op_keeps_wf now now (OpClaimAvailableVM n ns) db I W) as W'; simpl in W'.
  destruct (ClaimAvailableVM now n ns db) as [db1 [v|e]]; simpl in *.
  - destruct Hclaim as (uid & r & Hr & Hc & -> & _ & Hv). specialize (IH _ W').
    destruct (claims nows n ns _) as [db2 vs]; simpl in *. rewrite Hv.
    by eapply claims_outcome_cons.
  - destruct Hclaim as (_ & -> & Hemp). destruct (IH _ W) as (Hnd & Hsub & Hlen & Hav).
    unfold claims_outcome. split_and!; auto. rewrite Hlen, Hemp, size_empty. lia.
Qed.

(** Any number of successive claims on a pool return distinct VMs, all of
    them AVAILABLE before, exactly as many as there were claims or AVAILABLE
    VMs, whichever is fewer, and leave the remaining ones AVAILABLE: no VM is
    handed out twice and none is skipped. *)
Theorem claims_exclusive_and_exhaustive nows n ns db :
  db_wf db ->
  claims_outcome (length nows) n ns db (claims nows n ns db).1
    (vm_uid <$> (claims nows n ns db).2).
Proof. apply claims_outcome_holds. Qed.
End claims.

Lemma ClaimAvailableVM_spec_witness :
  claim_outcome 200 "web" "default" db0 (ClaimAvailableVM 200 "web" "default" db0) /\
  is_Ok (ClaimAvailableVM 200 "web" "default" db0).2 = true /\
  is_Ok (ClaimAvailableVM 200 "other" "default" db0).2 = false.
Proof.
  split; [apply ClaimAvailableVM_spec, db0_wf|]. split; vm_compute; reflexivity.
Defined.

Lemma claims_exclusive_and_exhaustive_witness :
  claims_outcome 3 "web" "default" db0 (claims [200; 201; 202]%Z "web" "default" db0).1
    (vm_uid <$> (claims [200; 201; 202]%Z "web" "default" db0).2) /\
  vm_uid <$> (claims [200; 201; 202]%Z "web" "default" db0).2 = ["vm-1"].
Proof.
  split; [apply (claims_exclusive_and_exhaustive [200; 201; 202]%Z), db0_wf|].
  vm_compute. reflexivity.
Defined.

(** ** Deleting a pool *)

Section pool_deletion.
Context `{Codec, Sqlite}.
Implicit Types db : DB.

Definition pool_has_leased (n ns : string) (db : DB) : Prop :=
  exists uid r, vms db !! uid = Some r /\ in_pool n ns r /\ leased_phase r.

(** The records of the pool's VMs, each once, in uid order. *)
Definition lists_pool_vms (n ns : string) (db : DB) (vs : list VMRecord) : Prop :=
  StronglySorted String.le (vm_uid <$> vs) /\ NoDup (vm_uid <$> vs) /\
  forall v, v ∈ vs <-> exists uid r, vms db !! uid = Some r /\ in_pool n ns r /\ v = rowToVM r.

(** Only the pool's VM and lease rows and the pool's own row differ. *)
Definition others_kept (n ns : string) (db db' : DB) : Prop :=
  (forall k, k <> (n, ns) -> pools db' !! k = pools db !! k) /\
  (forall uid r, ~ in_pool n ns r -> vms db !! uid = Some r <-> vms db' !! uid = Some r) /\
  (forall id r, ~ lease_in_pool n ns r -> leases db !! id = Some r <-> leases db' !! id = Some r) /\
  events db' = events db /\ events_seq db' = events_seq db /\
  hosts db' = hosts db /\ placements db' = placements db.

Definition pool_gone (n ns : string) (db db' : DB) : Prop :=
  pools db' !! (n, ns) = None /\
  (forall uid, is_Some (vms db' !! uid) <-> is_Some (vms db !! uid)) /\
  (forall uid r, vms db' !! uid = Some r -> in_pool n ns r ->
     vr_phase r = phase_code DELETING /\ vr_leaseID r = None) /\
  (forall id r, leases db' !! id = Some r -> ~ lease_in_pool n ns r).

Definition delete_pool_outcome n ns force db (out : DB * result StoreError (list VMRecord)) : Prop :=
  match out with
  | (db', Ok vs) =>
      is_Some (pools db !! (n, ns)) /\ (force = false -> ~ pool_has_leased n ns db) /\
      pool_gone n ns db db' /\ others_kept n ns db db' /\ lists_pool_vms n ns db' vs
  | (db', Err e) => db' = db /\
      (e = ErrNotFound /\ pools db !! (n, ns) = None \/
       e = ErrPoolHasLeasedVMs /\ is_Some (pools db !! (n, ns)) /\
       force = false /\ pool_has_leased n ns db)
  end.

Lemma lists_pool_vms_query n ns db :
  map_Forall vm_row_ok (vms db) ->
  lists_pool_vms n ns db
    (rowToVM <$> sort_on String.le vr_uid (filter (in_pool n ns) (rows (vms db)))).
Proof.
  intros W. unfold lists_pool_vms.
  assert (forall l : list vmRow, vm_uid <$> (rowToVM <$> l) = vr_uid <$> l) as E.
  { intros l. rewrite <- list_fmap_compose. by apply list_fmap_ext. }
  rewrite E. split_and!.
  - apply sort_on_keys; apply _.
  - rewrite sort_on_perm. eapply sublist_NoDup; [|apply fmap_sublist, sublist_filter].
    apply NoDup_rows_key. intros k x Hx. by apply (W k x).
  - intros v. rewrite list_elem_of_fmap. split.
    + intros (r & -> & Hr). rewrite sort_on_perm, list_elem_of_filter, elem_of_rows in Hr.
      destruct Hr as (Hp & k & Hk). eauto.
    + intros (k & r & Hk & Hp & ->). exists r. split; [done|].
      rewrite sort_on_perm, list_elem_of_filter, elem_of_rows. eauto.
Qed.

Lemma mark_pool_vms now n ns db :
  let m := update_where (in_pool n ns) (mark_deleting now) (vms db) in
  (forall uid, is_Some (m !! uid) <-> is_Some (vms db !! uid)) /\
  (forall uid r, m !! uid = Some r -> in_pool n ns r ->
     vr_phase r = phase_code DELETING /\ vr_leaseID r = None) /\
  (forall uid r, ~ in_pool n ns r -> vms db !! uid = Some r <-> m !! uid = Some r).
Proof.
  intros m. subst m. split_and!; intros uid; rewrite lookup_update_where.
  - by rewrite fmap_is_Some.
  - intros r Hr Hp. apply fmap_Some in Hr as (r0 & Hk & ->). by case_decide.
  - intros r Hp. rewrite fmap_Some. split.
    + intros Hk. exists r. by rewrite decide_False.
    + intros (r0 & Hk & ->). case_decide as Hd; [|done]. by destruct Hp.
Qed.

Lemma pool_has_leased_count n ns db :
  0 < length (filter (fun r => in_pool n ns r /\ leased_phase r) (rows (vms db))) <->
  pool_has_leased n ns db.
Proof.
  destruct (length _) as [|k] eqn:El.
  - split; [lia|]. intros (uid & r & Hr & Hp). exfalso.
    eapply filter_length_zero in El; [by apply El|]. apply elem_of_rows. eauto.
  - split; [|lia]. intros _. destruct (filter _ _) as [|x l] eqn:Ef; [done|].
    assert (x ∈ filter (fun r => in_pool n ns r /\ leased_phase r) (rows (vms db))) as Hin.
    { rewrite Ef. by left. }
    rewrite list_elem_of_filter, elem_of_rows in Hin. destruct Hin as (Hp & k0 & Hk).
    by exists k0, x.
Qed.

(** The rest of the transaction once its checks have passed. *)
Definition pool_deleted now n ns db : DB :=
  set_leases (delete_where (lease_in_pool n ns) (leases db))
    (set_vms (update_where (in_pool n ns) (mark_deleting now) (vms db))
      (set_pools (delete (n, ns) (pools db)) db)).

Lemma pool_deleted_ok now n ns db :
  db_wf db ->
  pool_gone n ns db (pool_deleted now n ns db) /\
  others_kept n ns db (pool_deleted now n ns db) /\
  map_Forall vm_row_ok (vms (pool_deleted now n ns db)).
Proof.
  intros W. destruct (mark_pool_vms now n ns db) as (Hdom & Hmark & Hkeep).
  split_and!.
  - split_and!; simpl; [by apply lookup_delete_eq|done..|].
    by intros id r [_ Hr]%lookup_delete_where.
  - unfold others_kept; simpl. split_and!; try done.
    + intros k Hk. by apply lookup_delete_ne.
    + intros id r Hr. rewrite lookup_delete_where. naive_solver.
  - apply map_Forall_update_where; [apply W|]. eauto with battery.
Qed.

(** Deleting a pool is all or nothing.  On success the pool's row and all
    of its leases are gone, every one of its VMs is DELETING with no lease,
    those VMs are returned once each in uid order, and no row of another pool
    changed.  Without [force] it succeeds only if no VM of the pool is leased
    or being claimed.  It fails exactly when the pool does not exist or, without
    [force], has such a VM, and then changes nothing. *)
Theorem DeletePoolAndMarkVMs_spec now n ns force db :
  db_wf db ->
  delete_pool_outcome n ns force db (DeletePoolAndMarkVMs now n ns force db).
Proof.
  intros W. unfold DeletePoolAndMarkVMs, DeletePool. store_simpl.
  destruct (pools db !! (n, ns)) as [p|] eqn:Ep; simpl; [|by auto].
  destruct (pool_deleted_ok now n ns db W) as (Hgone & Hkept & Hrows).
  destruct force; simpl; [|case_decide as Hl]; simpl.
  - split_and!; [done..|]. apply lists_pool_vms_query, Hrows.
  - split; [done|]. right. split_and!; try done. by apply pool_has_leased_count.
  - split_and!; try done; [|by apply lists_pool_vms_query, Hrows].
    intros _ Hh. apply Hl. by apply pool_has_leased_count.
Qed.
End pool_deletion.

Lemma DeletePoolAndMarkVMs_spec_witness :
  delete_pool_outcome "web" "default" true db0
    (DeletePoolAndMarkVMs 9 "web" "default" true db0) /\
  is_Ok (DeletePoolAndMarkVMs 9 "web" "default" true db0).2 = true /\
  (DeletePoolAndMarkVMs 9 "web" "default" false db0).2 = Err ErrPoolHasLeasedVMs.
Proof.
  split; [apply DeletePoolAndMarkVMs_spec, db0_wf|]. split; vm_compute; reflexivity.
Defined.

(** ** Leases *)

Section lease_props.
Context `{Codec, Sqlite}.
Implicit Types db : DB.

(** The VM a [LeaseVM] or [UpdateVM] stores: [v], with the row's own
    [created_at]. *)
Definition stored_vm (v : VMRecord) (old : vmRow) (v' : VMRecord) : Prop :=
  v' = {| vm_uid := vm_uid v; vm_pool_name := vm_pool_name v;
          vm_flintlock_host := vm_flintlock_host v; vm_phase := vm_phase v;
          vm_lease_id := vm_lease_id v; vm_created_at := Some (vr_createdAt old);
          vm_updated_at := vm_updated_at v; vm_pool_namespace := vm_pool_namespace v |}.

Definition times_ok_vm (v : VMRecord) : Prop :=
  time_ok (vm_created_at v) /\ time_ok (vm_updated_at v).
Definition times_ok_lease (l : LeaseRecord) : Prop :=
  time_ok (lease_claimed_at l) /\ time_ok (lease_last_heartbeat_at l) /\
  time_ok (lease_expires_at l).

Definition request_id_used (rid : string) (db : DB) : Prop :=
  rid <> "" /\ exists id r, leases db !! id = Some r /\ lr_requestID r = Some rid.

(** Why [LeaseVM] can refuse. *)
Definition lease_refused (v : VMRecord) (l : LeaseRecord) (db : DB) (e : StoreError) : Prop :=
  e = ErrNotFound /\ vms db !! vm_uid v = None \/
  e = ErrVMDeleting /\ vm_phase v <> DELETING /\
    (exists old, vms db !! vm_uid v = Some old /\ vr_phase old = phase_code DELETING) \/
  e = ErrDuplicateRequestID /\ request_id_used (lease_request_id l) db \/
  e = ErrOther "insert lease" /\ is_Some (leases db !! lease_id l).

Definition lease_vm_outcome v l db (out : DB * result StoreError unit) : Prop :=
  match out with
  | (db', Ok _) => exists old v',
      vms db !! vm_uid v = Some old /\
      (vr_phase old <> phase_code DELETING \/ vm_phase v = DELETING) /\
      stored_vm v old v' /\ GetVM (vm_uid v) db' = (db', Ok v') /\
      leases db !! lease_id l = None /\ ~ request_id_used (lease_request_id l) db /\
      GetLease (lease_id l) db' = (db', Ok l)
  | (db', Err e) => db' = db /\ lease_refused v l db e
  end.

Lemma request_id_taken_used rid db :
  request_id_taken (NullString rid) (leases db) = true <-> request_id_used rid db.
Proof.
  unfold request_id_taken, request_id_used, NullString. case_decide as Hr; [naive_solver|].
  rewrite bool_decide_eq_true. split.
  - intros Hne. split; [done|]. destruct (filter _ _) as [|x k] eqn:Ef; [done|].
    assert (x ∈ filter (fun r => lr_requestID r = Some rid) (rows (leases db))) as Hin
      by (rewrite Ef; by left).
    rewrite list_elem_of_filter, elem_of_rows in Hin. destruct Hin as (Hx & id & Hid). eauto.
  - intros (_ & id & r & Hid & Hx) Ef.
    assert (r ∈ filter (fun r => lr_requestID r = Some rid) (rows (leases db))) as Hin
      by (rewrite list_elem_of_filter, elem_of_rows; eauto).
    rewrite Ef in Hin. by apply not_elem_of_nil in Hin.
Qed.

Lemma updated_row_stored v row old :
  vmToRow v = Ok row -> rowToVM row = v -> vr_uid old = vm_uid v ->
  stored_vm v old (rowToVM (updated_row row old)).
Proof.
  intros E R U. unfold stored_vm, rowToVM. simpl. rewrite U.
  by rewrite <- R.
Qed.

(** [insertLease], on each branch. *)
Lemma insertLease_cases l row db :
  leaseToRow l = Ok row ->
  match insertLease l db with
  | (db', Ok _) => db' = set_leases (<[lease_id l := row]> (leases db)) db /\
      leases db !! lease_id l = None /\ ~ request_id_used (lease_request_id l) db
  | (db', Err e) => db' = db /\
      (e = ErrDuplicateRequestID /\ request_id_used (lease_request_id l) db \/
       e = ErrOther "insert lease" /\ is_Some (leases db !! lease_id l))
  end.
Proof.
  intros El. assert (lr_leaseID row = lease_id l /\ lr_requestID row = NullString (lease_request_id l))
    as [Ei Er].
  { unfold leaseToRow in El. destruct (lease_claimed_at l), (lease_last_heartbeat_at l),
      (lease_expires_at l); by simplify_eq/=. }
  unfold insertLease. rewrite El. store_simpl. rewrite Ei, Er.
  destruct (request_id_taken _ _) eqn:Et;
    [apply request_id_taken_used in Et
    |assert (~ request_id_used (lease_request_id l) db)
       by (rewrite <- request_id_taken_used; congruence)];
  case_bool_decide as Hd; simpl; try destruct request_id_reported; simpl;
    rewrite <- ?eq_None_not_Some in Hd; auto.
Qed.

(** [LeaseVM] commits a claim atomically.  If it succeeds, the VM existed and
    was not being deleted, reading the VM and the lease back gives what was
    written, and no other lease carries the request id.  If it fails, nothing
    changed, neither the VM nor the leases, and the error says why: no such
    VM, the VM is DELETING, the request id is used, or the lease id is. *)
Theorem LeaseVM_spec v l db :
  db_wf db -> times_ok_vm v -> times_ok_lease l ->
  lease_vm_outcome v l db (LeaseVM v l db).
Proof.
  intros W [Hc Hu] (Hlc & Hlh & Hle).
  destruct (rowToVM_vmToRow v Hc Hu) as (row & Ev & Rv).
  destruct (rowToLease_leaseToRow l Hlc Hlh Hle) as (lrow & El & Rl).
  assert (vr_uid row = vm_uid v /\ vr_phase row = phase_code (vm_phase v)) as [Eu Ep].
  { rewrite <- Rv at 1 2. simpl. by rewrite phase_code_of_code. }
  unfold LeaseVM, updateVM. rewrite Ev. store_simpl. rewrite Eu, Ep.
  destruct (vms db !! vm_uid v) as [old|] eqn:Eo; [|split; [done|]; by left].
  case_decide as Hd.
  - pose proof (insertLease_cases l lrow
      (set_vms (<[vm_uid v := updated_row row old]> (vms db)) db) El) as Hins.
    destruct (insertLease _ _) as [db' [[]|e]]; simpl in *.
    + destruct Hins as (-> & Hid & Hrid). exists old, (rowToVM (updated_row row old)).
      split_and!; try done.
      * destruct Hd as [Hd|Hd]; [by left|right]. by apply (inj phase_code).
      * apply updated_row_stored; try done. by apply (wf_vms db W).
      * unfold GetVM. store_simpl. by rewrite lookup_insert_eq.
      * unfold GetLease. store_simpl. by rewrite lookup_insert_eq, Rl.
    + destruct Hins as [_ He]. split; [done|]. unfold lease_refused.
      destruct He as [He|He]; auto.
  - split; [done|]. right; left.
    split_and!; [done|intros E; apply Hd; right; by rewrite E|].
    exists old. split; [done|]. destruct (decide (vr_phase old = phase_code DELETING)); [done|].
    exfalso. apply Hd. by left.
Qed.

(** The leases [ListExpiredLeases] must return. *)
Definition expired (now : Timestamp) (r : leaseRow) : Prop := (lr_expiresAt r <= UnixNano now)%Z.

#[export] Instance expired_dec now r : Decision (expired now r).
Proof. unfold expired; apply _. Defined.

(** [DeleteLeaseIfExpired] on each branch. *)
Definition delete_expired_outcome id now db (out : DB * result StoreError LeaseRecord) : Prop :=
  match leases db !! id with
  | None => out = (db, Err ErrNotFound)
  | Some r =>
      if decide (expired now r)
      then out = (set_leases (delete id (leases db)) db, Ok (rowToLease r))
      else out = (db, Err ErrLeaseNotExpired)
  end.

Lemma delete_expired_outcome_holds id now db :
  delete_expired_outcome id now db (DeleteLeaseIfExpired id now db).
Proof.
  unfold delete_expired_outcome, DeleteLeaseIfExpired, expired. store_simpl.
  destruct (leases db !! id) as [r|] eqn:Er; [|done].
  repeat (case_decide || rewrite Er); done || lia.
Qed.

(** A heartbeat is never lost to the expiry sweep: once a heartbeat has
    renewed a lease, a sweep that still holds the lease's old expiry cannot end
    it before the new one.  [DeleteLeaseIfExpired] then returns
    [ErrLeaseNotExpired] and keeps the row; from the new expiry on it removes
    exactly that row and returns the lease as the heartbeat left it. *)
Theorem heartbeat_not_lost id at_ expiresAt db db1 now :
  UpdateLeaseHeartbeat id at_ expiresAt db = (db1, Ok tt) ->
  exists r, leases db !! id = Some r /\
    leases db1 !! id = Some (heartbeat at_ expiresAt r) /\
    DeleteLeaseIfExpired id now db1 =
      (if decide (UnixNano expiresAt <= UnixNano now)%Z
       then (set_leases (delete id (leases db1)) db1, Ok (rowToLease (heartbeat at_ expiresAt r)))
       else (db1, Err ErrLeaseNotExpired)).
Proof.
  intros E. unfold UpdateLeaseHeartbeat in E. store_simpl.
  destruct (leases db !! id) as [r|] eqn:Er; simplify_eq/=.
  exists r. pose proof (delete_expired_outcome_holds id now
    (set_leases (alter (heartbeat at_ expiresAt) id (leases db)) db)) as Hout.
  unfold delete_expired_outcome in Hout; simpl in Hout. rewrite lookup_alter_eq, Er in Hout |- *.
  simpl in Hout. split_and!; [done..|]. unfold expired in Hout; simpl in Hout. by repeat case_decide.
Qed.

(** [ListExpiredLeases] returns exactly the leases whose expiry is at or
    before the given time, in order of expiry. *)
Theorem ListExpiredLeases_exact now db ls :
  ListExpiredLeases now db = (db, Ok ls) ->
  StronglySorted (fun a b => default 0 (lease_expires_at a) <= default 0 (lease_expires_at b))%Z ls /\
  forall l, l ∈ ls <-> exists id r, leases db !! id = Some r /\ expired now r /\ l = rowToLease r.
Proof.
  intros E. unfold ListExpiredLeases in E. store_simpl. simplify_eq/=. split.
  - eapply (StronglySorted_fmap _ (fun a b => lr_expiresAt a <= lr_expiresAt b)%Z); [done|].
    apply sort_on_sorted; apply _.
  - intros l. rewrite list_elem_of_fmap.
    setoid_rewrite elem_of_sort_on. setoid_rewrite list_elem_of_filter.
    setoid_rewrite scan_leases_perm. setoid_rewrite elem_of_rows. naive_solver.
Qed.
End lease_props.

Lemma LeaseVM_spec_witness :
  lease_vm_outcome (vm0 "vm-1" LEASED (Some "lease-1")) (lease0 "lease-1" "vm-1" "req-1" 900) db0
    (LeaseVM (vm0 "vm-1" LEASED (Some "lease-1")) (lease0 "lease-1" "vm-1" "req-1" 900) db0) /\
  is_Ok (LeaseVM (vm0 "vm-1" LEASED (Some "lease-1")) (lease0 "lease-1" "vm-1" "req-1" 900) db0).2 = true /\
  (LeaseVM (vm0 "vm-1" LEASED (Some "lease-1")) (lease0 "lease-1" "vm-1" "req-2" 900) db0).2
    = Err ErrDuplicateRequestID.
Proof.
  split; [|split; vm_compute; reflexivity].
  apply LeaseVM_spec; [apply db0_wf|split|split; [|split]];
    (eexists; split; [reflexivity|vm_compute; split; discriminate]).
Defined.

(** Swept at 600, the lease that expired at 500 survives a heartbeat to 700. *)
Lemma heartbeat_not_lost_witness :
  (DeleteLeaseIfExpired "lease-2" 600 (UpdateLeaseHeartbeat "lease-2" 550 700 db0).1).2
    = Err ErrLeaseNotExpired /\
  is_Ok (DeleteLeaseIfExpired "lease-2" 600 db0).2 = true.
Proof.
  split; [|vm_compute; reflexivity].
  destruct (heartbeat_not_lost "lease-2" 550 700 db0
    (UpdateLeaseHeartbeat "lease-2" 550 700 db0).1 600) as (r & _ & _ & ->).
  - vm_compute. reflexivity.
  - vm_compute. reflexivity.
Defined.

Lemma ListExpiredLeases_exact_witness :
  exists ls, (ListExpiredLeases 600 db0).2 = Ok ls /\ length ls = 1 /\
    forall l, l ∈ ls <-> exists id r, leases db0 !! id = Some r /\ expired 600 r /\ l = rowToLease r.
Proof.
  eexists. split; [vm_compute; reflexivity|]. split; [reflexivity|].
  apply (ListExpiredLeases_exact 600 db0). vm_compute. reflexivity.
Defined.

(** ** Hosts *)

Section host_props.
Context `{Codec, Sqlite}.
Implicit Types db : DB.

(** What a drain does to a VM row of the host. *)
Definition drained_row (now : Z) (r : vmRow) : vmRow :=
  if decide (unleased r) then mark_deleting now r else r.

(** The marked VMs, as records, each once and in uid order. *)
Definition lists_marked (now : Z) (P : vmRow -> Prop) (db : DB) (vs : list VMRecord) : Prop :=
  StronglySorted String.le (vm_uid <$> vs) /\ NoDup (vm_uid <$> vs) /\
  forall v, v ∈ vs <-> exists uid r, vms db !! uid = Some r /\ P r /\ unleased r /\
                               v = rowToVM (mark_deleting now r).

Lemma marked_listed now (P : vmRow -> Prop) `{forall r, Decision (P r)} db :
  db_wf db ->
  lists_marked now P db (sort_on String.le vm_uid
    ((fun r => rowToVM (mark_deleting now r)) <$> filter (fun r => P r /\ unleased r) (rows (vms db)))).
Proof.
  intros W. unfold lists_marked. split_and!.
  - apply sort_on_keys; apply _.
  - rewrite sort_on_perm, <- list_fmap_compose.
    rewrite (list_fmap_ext _ vr_uid) by done.
    eapply sublist_NoDup; [|apply fmap_sublist, sublist_filter].
    apply NoDup_rows_key. intros k x Hx. by apply (wf_vms db W k x).
  - intros v. rewrite elem_of_sort_on, list_elem_of_fmap.
    setoid_rewrite list_elem_of_filter. setoid_rewrite elem_of_rows. naive_solver.
Qed.

Definition drain_outcome now now' name reason db (out : DB * result StoreError (Host * list VMRecord)) : Prop :=
  match hosts db !! name with
  | None => out = (db, Err ErrNotFound)
  | Some h => exists db' vs, out = (db', Ok (rowToHost (drain_row now reason h), vs)) /\
      hosts db' = <[name := drain_row now reason h]> (hosts db) /\
      (forall uid, vms db' !! uid =
         (fun r => if decide (vr_flintlockHost r = name) then drained_row now' r else r)
           <$> vms db !! uid) /\
      lists_marked now' (fun r => vr_flintlockHost r = name) db vs /\
      pools db' = pools db /\ leases db' = leases db /\ events db' = events db /\
      placements db' = placements db
  end.

(** Draining a host fails exactly when it is not registered, changing
    nothing.  Otherwise the host becomes cordoned and draining, and of its VMs
    exactly those that are not leased, not being claimed and not yet DELETING
    become DELETING (and lose their lease id); these are returned once each in
    uid order.  Leased VMs, VMs of other hosts, leases and pools are
    untouched. *)
Theorem DrainHost_spec now now' name reason db :
  db_wf db -> drain_outcome now now' name reason db (DrainHost now now' name reason db).
Proof.
  intros W. unfold drain_outcome, DrainHost, markUnleasedVMsDeleting, on_host. store_simpl.
  destruct (hosts db !! name) as [h|] eqn:Eh; simpl; [|done].
  rewrite lookup_alter_eq, Eh; simpl. eexists _, _; split; [done|]; simpl. split_and!; try done.
  - apply map_eq. intros i. rewrite lookup_insert. case_decide as Hi; [subst|].
    + by rewrite lookup_alter_eq, Eh.
    + by rewrite lookup_alter_ne.
  - intros uid. rewrite lookup_update_where. destruct (vms db !! uid) as [r|]; [simpl|done].
    f_equal. unfold drained_row. repeat case_decide; naive_solver.
  - by apply (marked_listed now' (fun r => vr_flintlockHost r = name)).
Qed.

(** Draining is idempotent and closes the host: right after a drain, no new
    placement on the host is accepted ([ErrHostCordoned]), and both a second
    drain and the sweeper's pass find no VM of this host left to mark. *)
Theorem drained_host_closed now now' name reason db db1 h vs t t' t'' reason' id pn pns :
  DrainHost now now' name reason db = (db1, Ok (h, vs)) ->
  ReservePlacement t id name pn pns db1 = (db1, Err ErrHostCordoned) /\
  (exists h', (DrainHost t t' name reason' db1).2 = Ok (h', [])) /\
  forall v, v ∈ match (MarkDrainingHostsVMsDeleting t'' db1).2 with Ok l => l | Err _ => [] end ->
    vm_flintlock_host v <> name.
Proof.
  intros E. unfold DrainHost, markUnleasedVMsDeleting, on_host in E. store_simpl.
  destruct (hosts db !! name) as [h0|] eqn:Eh; [simpl in E|done].
  rewrite lookup_alter_eq, Eh in E; simpl in E. injection E as <- _ _.
  assert (forall r, r ∈ rows (update_where (fun r => vr_flintlockHost r = name /\ unleased r)
            (mark_deleting now') (vms db)) -> ~ (vr_flintlockHost r = name /\ unleased r)) as Hno.
  { intros r [k Hk]%elem_of_rows. rewrite lookup_update_where in Hk.
    apply fmap_Some in Hk as (r0 & _ & ->). case_decide as Hd; [|done].
    intros [_ (_ & _ & Hp)]. by apply Hp. }
  split_and!.
  - unfold ReservePlacement. store_simpl. by rewrite lookup_alter_eq, Eh.
  - unfold DrainHost, markUnleasedVMsDeleting, on_host. store_simpl.
    repeat (rewrite !lookup_alter_eq, Eh; simpl). eexists.
    rewrite filter_none by done. reflexivity.
  - unfold MarkDrainingHostsVMsDeleting, markUnleasedVMsDeleting. store_simpl. intros v.
    rewrite elem_of_sort_on, list_elem_of_fmap. intros (r & -> & Hr) Hn. simpl in Hn.
    apply list_elem_of_filter in Hr as [[_ Hu] Hin]. by apply (Hno r).
Qed.

(** Something still depends on the host. *)
Definition host_in_use (name : string) (db : DB) : Prop :=
  (exists k r, pools db !! k = Some r /\ name ∈ json_each (pr_flintlockHosts r)) \/
  (exists k r, vms db !! k = Some r /\ vr_flintlockHost r = name) \/
  (exists k r, placements db !! k = Some r /\ pl_host r = name).

Lemma length_filter_pos {A} (P : A -> Prop) `{forall x, Decision (P x)} l :
  0 < length (filter P l) <-> exists x, x ∈ l /\ P x.
Proof.
  split.
  - intros Hl. destruct (filter P l) as [|x k] eqn:Ef; [simpl in Hl; lia|].
    assert (x ∈ filter P l) as Hin by (rewrite Ef; by left).
    apply list_elem_of_filter in Hin as [? ?]. eauto.
  - intros (x & Hx & HP). enough (length (filter P l) <> 0) by lia.
    rewrite filter_length_zero. naive_solver.
Qed.

Lemma host_in_use_counted name db :
  host_in_use name db <-> 0 < length (pools_naming name db) \/ (0 < vms_counted name db)%Z.
Proof.
  unfold host_in_use, pools_naming, vms_counted.
  rewrite length_fmap, length_sort_on, length_filter_pos.
  pose proof (length_filter_pos (fun r => vr_flintlockHost r = name) (rows (vms db))) as Hv.
  pose proof (length_filter_pos (fun r => pl_host r = name) (rows (placements db))) as Hp.
  assert (forall a b : nat, (0 < Z.of_nat a + Z.of_nat b)%Z <-> 0 < a \/ 0 < b) as -> by lia.
  rewrite Hv, Hp. setoid_rewrite elem_of_rows. naive_solver.
Qed.

Lemma DeleteHost_Ok name db db' x :
  DeleteHost name db = (db', Ok x) ->
  ~ host_in_use name db /\ db' = set_hosts (delete name (hosts db)) db.
Proof.
  unfold DeleteHost. store_simpl. case_bool_decide; simpl; [|done].
  rewrite host_in_use_counted. repeat case_decide; try done. by intros [= <- _].
Qed.

(** A host is removed exactly when it is registered and nothing depends on
    it: no stored pool names it, no VM row is on it and no placement is
    reserved for it.  Otherwise the database is unchanged and the error says
    why; [HostInUseError] is only returned for a host that is in use (a count
    beyond [int32] is an error too). *)
Theorem DeleteHost_spec name db :
  match DeleteHost name db with
  | (db', Ok _) => is_Some (hosts db !! name) /\ ~ host_in_use name db /\
      db' = set_hosts (delete name (hosts db)) db
  | (db', Err e) => db' = db /\
      (e = ErrNotFound /\ hosts db !! name = None \/
       is_Some (hosts db !! name) /\ host_in_use name db /\
       (e = HostInUseError (pools_naming name db) (vms_counted name db) \/
        e = ErrOther "scan int32" /\ (2 ^ 31 <= vms_counted name db)%Z))
  end.
Proof.
  unfold DeleteHost. store_simpl. case_bool_decide as Hh; simpl.
  - assert (0 <= vms_counted name db)%Z by (unfold vms_counted; lia).
    pose proof (host_in_use_counted name db) as Hu. repeat case_decide; simpl.
    + split; [done|]. right. rewrite Hu. split_and!; auto.
    + by rewrite Hu.
    + split; [done|]. right. rewrite Hu. split_and!; [done|right; lia|right; split; [done|lia]].
  - split; [done|]. left. by rewrite eq_None_not_Some.
Qed.
End host_props.

Lemma DrainHost_spec_witness :
  drain_outcome 7 8 "host-a" "repair" db0 (DrainHost 7 8 "host-a" "repair" db0) /\
  exists db' h vs, DrainHost 7 8 "host-a" "repair" db0 = (db', Ok (h, vs)) /\
    vm_uid <$> vs = ["vm-1"; "vm-3"].
Proof.
  split; [apply DrainHost_spec, db0_wf|].
  eexists _, _, _. split; [vm_compute; reflexivity|reflexivity].
Defined.

Lemma drained_host_closed_witness :
  (ReservePlacement 9 "p-1" "host-a" "web" "default"
    (DrainHost 7 8 "host-a" "repair" db0).1).2 = Err ErrHostCordoned.
Proof.
  edestruct (drained_host_closed 7 8 "host-a" "repair" db0
    (DrainHost 7 8 "host-a" "repair" db0).1) as [E _].
  - vm_compute. reflexivity.
  - rewrite E. reflexivity.
  Unshelve. all: exact 0%Z || exact ""%string.
Defined.

(** ** Events and records *)

Section event_props.
Context `{Codec, Sqlite}.
Implicit Types db : DB.

Lemma op_events_prefix {A} now now' (o : storeOp A) db :
  events db `prefix_of` events (denote now now' o db).1.
Proof.
  destruct (denote now now' o db) as [db' r] eqn:E.
  destruct o; store_run E; try done. by apply prefix_app_r.
Qed.

Lemma steps_events_prefix db db' : rtc store_step db db' -> events db `prefix_of` events db'.
Proof.
  induction 1 as [|x y z [A now now' o _] _ IH]; [done|].
  etrans; [apply (op_events_prefix now now' o)|done].
Qed.

(** The outbox is append-only: an event that [AppendEvent] accepted keeps
    its id and contents through every later sequence of calls, and its id is
    larger than that of every event accepted before it. *)
Theorem events_append_only e db db1 id db2 :
  db_wf db -> AppendEvent e db = (db1, Ok id) -> rtc store_step db1 db2 ->
  (exists r, r ∈ events db2 /\ er_id r = id /\ er_poolName r = event_pool_name e /\
     er_poolNamespace r = event_pool_namespace e /\ er_vmUID r = event_vm_uid e /\
     er_type r = event_code (event_type e)) /\
  (forall r, r ∈ events db -> r ∈ events db2 /\ er_id r < id)%Z.
Proof.
  intros W E Hs. apply steps_events_prefix in Hs as [k Hk].
  unfold AppendEvent in E. store_simpl.
  destruct (event_created_at e) as [t|]; [simpl in E|done].
  case_decide; [done|]. injection E as <- <-. simpl in Hk. rewrite Hk. split.
  - eexists. split; [|split_and!].
    { apply elem_of_app; left. apply elem_of_app; right. by apply list_elem_of_singleton. }
    all: done.
  - intros r Hr. split; [set_solver|].
    destruct (wf_events db W) as (_ & F & _). rewrite Forall_forall in F.
    specialize (F r Hr). lia.
Qed.
End event_props.

Lemma events_append_only_witness :
  let e := {| event_id := 0; event_pool_name := "web"; event_vm_uid := "vm-1";
              event_type := VM_CLAIMED; event_created_at := Some 5%Z;
              event_payload_json := ""; event_pool_namespace := "default" |} in
  exists r, r ∈ events (AppendEvent e (AppendEvent e db0).1).1 /\ er_id r = 1%Z.
Proof.
  intros e. destruct (events_append_only e db0 (AppendEvent e db0).1 1
    (AppendEvent e (AppendEvent e db0).1).1) as [(r & Hr & Hid & _) _].
  - apply db0_wf.
  - vm_compute. reflexivity.
  - apply rtc_once. by apply (Store_step _ 0 0 (OpAppendEvent e)).
  - by exists r.
Defined.

Section roundtrip_props.
Context `{C : Codec} `{!CodecLaws C} `{Sqlite}.
Implicit Types db : DB.

(** A pool that was created reads back as the spec that was given, with
    unset messages as empty ones and durations cut to Go's range, for every
    spec whose strings protobuf accepts. *)
Theorem CreatePool_GetPool p db db1 :
  pool_strings_ok p -> CreatePool p db = (db1, Ok tt) ->
  GetPool (pool_name p) (pool_namespace p) db1 = (db1, Ok (stored_pool p)).
Proof.
  intros Hs E. unfold CreatePool in E. store_simpl.
  destruct (poolToRow p) as [row|] eqn:Er; [simpl in E|done].
  destruct (pools db !! _); simplify_eq/=.
  assert (pr_name row = pool_name p /\ pr_namespace row = pool_namespace p) as [<- <-].
  { unfold poolToRow in Er. by destruct (heartbeat_interval p), (heartbeat_expiry_threshold p),
      (marshal_template _), (marshal_strategy _); simplify_eq/=. }
  unfold GetPool. store_simpl. rewrite lookup_insert_eq.
  by rewrite (rowToPool_poolToRow p row).
Qed.

(** A lease that was created reads back unchanged, by its id and, when it
    carries one, by its request id: a retried claim finds the lease of the
    first. *)
Theorem CreateLease_read_back l db db1 :
  db_wf db -> times_ok_lease l -> CreateLease l db = (db1, Ok tt) ->
  GetLease (lease_id l) db1 = (db1, Ok l) /\
  (lease_request_id l <> "" -> GetLeaseByRequestID (lease_request_id l) db1 = (db1, Ok l)).
Proof.
  intros W (Hc & Hh & He) E.
  destruct (rowToLease_leaseToRow l Hc Hh He) as (row & El & Rl).
  pose proof (insertLease_cases l row db El) as Hins. unfold CreateLease in E.
  pose proof (op_keeps_wf 0 0 (OpCreateLease l) db I W) as W1. simpl in W1.
  unfold CreateLease in W1. rewrite E in Hins, W1. destruct Hins as (-> & _ & _). split.
  - unfold GetLease. store_simpl. by rewrite lookup_insert_eq, Rl.
  - intros Hne. unfold GetLeaseByRequestID. store_simpl.
    assert (lr_requestID row = Some (lease_request_id l)) as Hr.
    { rewrite <- Rl in Hne |- *. simpl in *. by destruct (lr_requestID row). }
    set (m := <[lease_id l := row]> (leases db)).
    destruct (head _) as [r|] eqn:Eh.
    + apply head_filter_Some in Eh as [Hq Hin].
      rewrite scan_leases_perm, elem_of_rows in Hin. destruct Hin as [k Hk].
      assert (m !! lease_id l = Some row) as Hm by apply lookup_insert_eq.
      rewrite (wf_request_ids _ W1 k (lease_id l) r row _ Hk Hm Hq Hr) in Hk.
      rewrite Hm in Hk. injection Hk as <-. by rewrite Rl.
    + exfalso. apply (head_filter_None _ _ Eh row); [|done].
      rewrite scan_leases_perm, elem_of_rows. exists (lease_id l). apply lookup_insert_eq.
Qed.
End roundtrip_props.

Lemma CreatePool_GetPool_witness :
  GetPool "web" "default" (CreatePool pool0 empty_db).1 =
    ((CreatePool pool0 empty_db).1, Ok (stored_pool pool0)).
Proof.
  apply (CreatePool_GetPool pool0 empty_db).
  - split_and!; repeat constructor.
  - vm_compute. reflexivity.
Defined.

Lemma CreateLease_read_back_witness :
  (GetLeaseByRequestID "req-9" (CreateLease (lease0 "lease-9" "vm-1" "req-9" 900) db0).1).2
    = Ok (lease0 "lease-9" "vm-1" "req-9" 900).
Proof.
  destruct (CreateLease_read_back (lease0 "lease-9" "vm-1" "req-9" 900) db0
    (CreateLease (lease0 "lease-9" "vm-1" "req-9" 900) db0).1) as [_ E].
  - apply db0_wf.
  - split_and!; (eexists; split; [reflexivity|vm_compute; split; discriminate]).
  - vm_compute. reflexivity.
  - change "req-9" with (lease_request_id (lease0 "lease-9" "vm-1" "req-9" 900)) at 1.
    rewrite E; [reflexivity|discriminate].
Defined.
