(* ===== verification/Effects.v ===== *)
(** * Programs and their effects

    Everything but the store's own operations is code that calls: it calls the
    store, the clock, flintlock hosts, the client pool, notifiers, metrics.  A
    [prog A] is such code as a tree: an effect ([Do]) and what follows each of
    its possible answers, a goroutine started with [go] ([Fork]) or a result
    ([Ret]).  The handlers and loops of [src/internal/...] are definitions of
    this type, written with the notation [let! x := p in q].

    The same tree is given three readings:
    - [exec_eff]/[wp]: one goroutine alone; every answer the environment could
      give is considered, a store call can also fail with no effect (closed
      database, cancelled context, full disk);
    - [run]: the same, executable, with the answers taken from an [Env];
    - [sys_step]: any number of goroutines interleaved at every effect.

    A loop that polls until a deadline reads from [Budget] how many more
    rounds its timer allows (any finite number): the timeout is what makes it
    finite. *)

From stdpp Require Import base gmap strings list relations.
From Stdlib Require Import ZArith Lia.
From S2P Require Import Prelude Types Convert Store StoreOps.

(** ** flintlock *)

(** The microvm state the source looks at, and the network interfaces it
    passes on unread. *)
Inductive MicroVMState := PENDING_STATE | CREATED_STATE | FAILED_STATE | DELETING_STATE.

Record MicroVM := {
  mvm_state : MicroVMState;
  network_interfaces : list (string * string)
}.

(** Calls of flintlock's MicroVM service, by what they return.  The answer of
    [CreateMicroVM] is the new microvm's uid. *)
Inductive rpc : Set -> Type :=
  | CreateMicroVM (spec : MicroVMSpec) : rpc string
  | GetMicroVM (uid : string) : rpc MicroVM
  | DeleteMicroVM (uid : string) : rpc unit
  | ServerInfo : rpc string.

(** One exec stream: whether opening it, sending the start message and closing
    the send side failed, and the messages received until it ended. *)
Inductive payload :=
  | Stdout (s : string) | Stderr (s : string)
  | ExecError (msg : string) | ExitCode (n : Z) | NoPayload.

Record ExecStream := {
  open_err : option code;
  send_err : option code;
  closeSend_err : option code;
  recvs : list payload;
  (** what follows the messages: an error, or the end of the stream *)
  recv_end : option code
}.

(** ** The client pool's memory

    [*Conn] pointers are references into [fl_conns]; the pool's map holds one
    per host name. *)
Definition connRef := nat.

Record Conn := {
  conn_name : string;
  conn_address : string;
  conn_version : string;
  conn_versionOK : bool;
  conn_closed : bool
}.

Record flintPool := {
  fl_hosts : gmap string connRef;
  fl_conns : gmap connRef Conn
}.

Definition empty_flint : flintPool := {| fl_hosts := ∅; fl_conns := ∅ |}.

(** The critical sections of [pool.go] and [version.go]. *)
Inductive flintOp : Set -> Type :=
  | FlNew (name address : string) : flintOp connRef
  | FlLookup (host : string) : flintOp (option connRef)
  | FlConn (c : connRef) : flintOp Conn
  | FlSetVersion (c : connRef) (version : string) (ok : bool) : flintOp unit
  | FlAdd (c : connRef) : flintOp bool
  | FlSwap (c : connRef) : flintOp (option connRef)
  | FlDrop (host : string) : flintOp (option connRef)
  | FlNames : flintOp (list string)
  | FlRefs : flintOp (list connRef)
  | FlClose (c : connRef) : flintOp bool.

Definition nil_conn : Conn :=
  {| conn_name := ""; conn_address := ""; conn_version := "";
     conn_versionOK := false; conn_closed := true |}.

Definition deref (c : connRef) (f : flintPool) : Conn := default nil_conn (fl_conns f !! c).

Definition set_version (v : string) (ok : bool) (c : Conn) : Conn :=
  {| conn_name := conn_name c; conn_address := conn_address c; conn_version := v;
     conn_versionOK := ok; conn_closed := conn_closed c |}.
Definition set_closed (c : Conn) : Conn :=
  {| conn_name := conn_name c; conn_address := conn_address c;
     conn_version := conn_version c; conn_versionOK := conn_versionOK c;
     conn_closed := true |}.

Definition flint_exec {A : Set} (o : flintOp A) (f : flintPool) : flintPool * A :=
  match o in flintOp B return flintPool * B with
  | FlNew n a =>
      let c := fresh (dom (fl_conns f)) in
      ({| fl_hosts := fl_hosts f;
          fl_conns := <[c := {| conn_name := n; conn_address := a; conn_version := "";
            conn_versionOK := false; conn_closed := false |}]> (fl_conns f) |}, c)
  | FlLookup h => (f, fl_hosts f !! h)
  | FlConn c => (f, deref c f)
  | FlSetVersion c v ok =>
      ({| fl_hosts := fl_hosts f; fl_conns := alter (set_version v ok) c (fl_conns f) |}, tt)
  | FlAdd c =>
      match fl_hosts f !! conn_name (deref c f) with
      | Some _ => (f, false)
      | None => ({| fl_hosts := <[conn_name (deref c f) := c]> (fl_hosts f);
                    fl_conns := fl_conns f |}, true)
      end
  | FlSwap c =>
      match fl_hosts f !! conn_name (deref c f) with
      | Some old => ({| fl_hosts := <[conn_name (deref c f) := c]> (fl_hosts f);
                        fl_conns := fl_conns f |}, Some old)
      | None => (f, None)
      end
  | FlDrop h => ({| fl_hosts := delete h (fl_hosts f); fl_conns := fl_conns f |}, fl_hosts f !! h)
  | FlNames => (f, (map_to_list (fl_hosts f)).*1)
  | FlRefs => (f, (map_to_list (fl_hosts f)).*2)
  | FlClose c =>
      ({| fl_hosts := fl_hosts f; fl_conns := alter set_closed c (fl_conns f) |},
       negb (conn_closed (deref c f)))
  end.

(** ** Errors of the callers

    A Go error by the sentinel [errors.Is] finds first in it; an error without
    one is [ErrPlain]. *)
Inductive error :=
  | StoreErr (e : StoreError)
  | RpcErr (c : code)
  | ErrUnknownHost | ErrConnExists | ErrInvalidHost | ErrUnsupportedVersion
  | ErrExecFailed
  | ErrNoEligibleHost | ErrCreateTimedOut | ErrCreateFailed | ErrHookFailed
  | ErrUnknownStrategy | ErrMinSizeRequired
  | ErrVMDeleted
  | ErrPlain (what : string).

(** ** Effects *)

Inductive metric :=
  | VMClaim (pool namespace : string) (replay : bool)
  | VMRelease (pool namespace reason : string)
  | LeaseDuration (pool namespace : string) (d : Duration)
  | HookDuration (hook pool namespace : string) (d : Duration)
  | HookFailure (hook pool namespace : string)
  | ProvisionDuration (pool namespace : string) (d : Duration)
  | ReconcilerUnexpectedExit (pool namespace : string).

Inductive notification :=
  | VMClaimed (pool namespace : string)
  | VMDeleted (pool namespace : string).

(** The mutexes of [internal/api]: one per pool, one per host, and the two
    sides of [hostRefsMu]. *)
Inductive mutex :=
  | PoolLock (name namespace : string)
  | HostLock (name : string)
  | HostRefsRead
  | HostRefsWrite.

Inductive eff : Set -> Type :=
  | EStore {A} (o : storeOp A) : eff (result StoreError A)
  | ENow : eff Timestamp
  | EUUID : eff string
  | ECtxErr : eff (option code)
  | EBudget : eff nat
  | ERpc {A} (c : connRef) (r : rpc A) : eff (result code A)
  | EExec (c : connRef) (uid cmd : string) (timeoutSeconds : Z) : eff ExecStream
  | EFlint {A : Set} (o : flintOp A) : eff A
  | ECreds (t : HostTLS) : eff bool
  | ENewClient (address : string) : eff bool
  | ENotify (n : notification) : eff unit
  | EMetric (m : metric) : eff unit
  | EStart (spec : PoolSpec) : eff (option error)
  | EStop (name namespace : string) : eff unit
  | EStopWait (name namespace : string) : eff (option code)
  | ESend (e : Event) : eff (option code)
  | EAcquire (m : mutex) : eff unit
  | ERelease (m : mutex) : eff unit.

Inductive prog : Set -> Type :=
  | Ret {A : Set} (x : A) : prog A
  | Do {A X : Set} (e : eff X) (k : X -> prog A) : prog A
  | Fork {A : Set} (child : prog unit) (k : prog A) : prog A.

Fixpoint bind {A B : Set} (p : prog A) : (A -> prog B) -> prog B :=
  match p in prog A0 return (A0 -> prog B) -> prog B with
  | Ret x => fun f => f x
  | Do e k => fun f => Do e (fun x => bind (k x) f)
  | Fork c k => fun f => Fork c (bind k f)
  end.

Notation "'let!' x := p 'in' q" := (bind p (fun x => q))
  (at level 10, x pattern, p at level 100, q at level 200,
   format "'[v' 'let!'  x  :=  p  'in' '/' q ']'") : battery_scope.
Notation "'then!' p 'in' q" := (bind p (fun _ => q))
  (at level 10, p at level 100, q at level 200,
   format "'[v' 'then!'  p  'in' '/' q ']'") : battery_scope.
Open Scope battery_scope.

Definition do {X : Set} (e : eff X) : prog X := Do e Ret.
Definition store {A : Set} (o : storeOp A) : prog (result StoreError A) := do (EStore o).

(** The two methods of the store that are a write and then a read.  Other
    calls may come in between, and when the read fails the write stays. *)
Definition UpdateHost (h : Host) : prog (result StoreError Host) :=
  let! r := store (OpUpdateHostRow h) in
  match r with
  | Err e => Ret (Err e)
  | Ok _ => store (OpGetHost (host_name h))
  end.

Definition SetHostCordoned (name : string) (cordoned : bool) (reason : string)
    : prog (result StoreError Host) :=
  let! r := store (OpSetCordonRow name cordoned reason) in
  match r with
  | Err e => Ret (Err e)
  | Ok _ => store (OpGetHost name)
  end.

Definition now : prog Timestamp := do ENow.
Definition go (p : prog unit) : prog unit := Fork p (Ret tt).

(** [for _, x := range l { f(x) }]. *)
Fixpoint for_each {X} (l : list X) (f : X -> prog unit) : prog unit :=
  match l with
  | [] => Ret tt
  | x :: l => bind (f x) (fun _ => for_each l f)
  end.

(** ** The world and what happened in it *)

Inductive call :=
  | CallCreate (spec : MicroVMSpec) | CallGet (uid : string)
  | CallDelete (uid : string) | CallServerInfo.

Definition rpc_call {A : Set} (r : rpc A) : call :=
  match r with
  | CreateMicroVM s => CallCreate s
  | GetMicroVM u => CallGet u
  | DeleteMicroVM u => CallDelete u
  | ServerInfo => CallServerInfo
  end.

Definition status_of {A} (r : result code A) : option code :=
  match r with Ok _ => None | Err c => Some c end.

Inductive action :=
  | Called (c : connRef) (r : call) (err : option code)
  | Execed (c : connRef) (uid cmd : string)
  | Notified (n : notification)
  | Recorded (m : metric)
  | Started (spec : PoolSpec)
  | Stopped (name namespace : string)
  | Sent (e : Event).

Record locks := {
  lk_pools : gset (string * string);
  lk_hosts : gset string;
  lk_readers : nat;
  lk_writer : bool
}.

Definition no_locks : locks :=
  {| lk_pools := ∅; lk_hosts := ∅; lk_readers := 0; lk_writer := false |}.

(** May the mutex be taken now? *)
Definition lock_free (m : mutex) (l : locks) : Prop :=
  match m with
  | PoolLock n ns => (n, ns) ∉ lk_pools l
  | HostLock n => n ∉ lk_hosts l
  | HostRefsRead => lk_writer l = false
  | HostRefsWrite => lk_writer l = false /\ lk_readers l = 0
  end.

Definition acquire (m : mutex) (l : locks) : locks :=
  match m with
  | PoolLock n ns => {| lk_pools := {[(n, ns)]} ∪ lk_pools l; lk_hosts := lk_hosts l;
                        lk_readers := lk_readers l; lk_writer := lk_writer l |}
  | HostLock n => {| lk_pools := lk_pools l; lk_hosts := {[n]} ∪ lk_hosts l;
                     lk_readers := lk_readers l; lk_writer := lk_writer l |}
  | HostRefsRead => {| lk_pools := lk_pools l; lk_hosts := lk_hosts l;
                       lk_readers := S (lk_readers l); lk_writer := lk_writer l |}
  | HostRefsWrite => {| lk_pools := lk_pools l; lk_hosts := lk_hosts l;
                        lk_readers := lk_readers l; lk_writer := true |}
  end.

Definition unlock (m : mutex) (l : locks) : locks :=
  match m with
  | PoolLock n ns => {| lk_pools := lk_pools l ∖ {[(n, ns)]}; lk_hosts := lk_hosts l;
                        lk_readers := lk_readers l; lk_writer := lk_writer l |}
  | HostLock n => {| lk_pools := lk_pools l; lk_hosts := lk_hosts l ∖ {[n]};
                     lk_readers := lk_readers l; lk_writer := lk_writer l |}
  | HostRefsRead => {| lk_pools := lk_pools l; lk_hosts := lk_hosts l;
                       lk_readers := pred (lk_readers l); lk_writer := lk_writer l |}
  | HostRefsWrite => {| lk_pools := lk_pools l; lk_hosts := lk_hosts l;
                        lk_readers := lk_readers l; lk_writer := false |}
  end.

Record world := {
  w_db : DB;
  w_locks : locks;
  w_flint : flintPool;
  w_tick : nat;
  w_log : list action
}.

Definition set_db (db : DB) (w : world) : world :=
  {| w_db := db; w_locks := w_locks w; w_flint := w_flint w; w_tick := S (w_tick w); w_log := w_log w |}.
Definition set_flint (f : flintPool) (w : world) : world :=
  {| w_db := w_db w; w_locks := w_locks w; w_flint := f; w_tick := S (w_tick w); w_log := w_log w |}.
Definition logged (l : list action) (w : world) : world :=
  {| w_db := w_db w; w_locks := w_locks w; w_flint := w_flint w; w_tick := S (w_tick w); w_log := w_log w ++ l |}.
Definition set_locks (l : locks) (w : world) : world :=
  {| w_db := w_db w; w_locks := l; w_flint := w_flint w; w_tick := S (w_tick w);
     w_log := w_log w |}.

(** What an effect leaves in the log, given its answer. *)
Definition log_of {X : Set} (e : eff X) : X -> list action :=
  match e in eff Y return Y -> list action with
  | ERpc c r => fun x => [Called c (rpc_call r) (status_of x)]
  | EExec c u cmd _ => fun _ => [Execed c u cmd]
  | ENotify n => fun _ => [Notified n]
  | EMetric m => fun _ => [Recorded m]
  | EStart s => fun _ => [Started s]
  | EStop n ns => fun _ => [Stopped n ns]
  | EStopWait n ns => fun _ => [Stopped n ns]
  | ESend e => fun _ => [Sent e]
  | _ => fun _ => []
  end.

Section semantics.
Context `{Codec, Sqlite}.

(** ** One effect *)

(** A store call runs the operation, at any clock readings, or, when [faults]
    are considered, fails with no effect.  The client pool's memory is
    followed; every other answer is left open. *)
Definition exec_eff (faults : bool) {X : Set} (e : eff X) : world -> X -> world -> Prop :=
  match e in eff Y return world -> Y -> world -> Prop with
  | EStore o => fun w x w' =>
      (exists now now', x = (denote now now' o (w_db w)).2 /\
                   w' = set_db (denote now now' o (w_db w)).1 w) \/
      (faults = true /\ (exists what, x = Err (ErrOther what)) /\ w' = logged [] w)
  | EFlint o => fun w x w' =>
      x = (flint_exec o (w_flint w)).2 /\ w' = set_flint (flint_exec o (w_flint w)).1 w
  | EAcquire m => fun w _ w' => w' = set_locks (acquire m (w_locks w)) w
  | ERelease m => fun w _ w' => w' = set_locks (unlock m (w_locks w)) w
  | e0 => fun w x w' => w' = logged (log_of e0 x) w
  end.

(** Among other goroutines, a goroutine waits until its mutex is free. *)
Definition enabled {X : Set} (e : eff X) (w : world) : Prop :=
  match e with
  | EAcquire m => lock_free m (w_locks w)
  | _ => True
  end.

(** ** One goroutine: weakest preconditions

    Every goroutine it starts runs to its end before it goes on. *)
Fixpoint wp (faults : bool) {A : Set} (p : prog A) : (A -> world -> Prop) -> world -> Prop :=
  match p in prog A0 return (A0 -> world -> Prop) -> world -> Prop with
  | Ret x => fun Q w => Q x w
  | Do e k => fun Q w => forall x w', exec_eff faults e w x w' -> wp faults (k x) Q w'
  | Fork c k => fun Q w => wp faults c (fun _ w' => wp faults k Q w') w
  end.

Lemma wp_mono faults {A : Set} (p : prog A) (Q Q' : A -> world -> Prop) w :
  (forall x w', Q x w' -> Q' x w') -> wp faults p Q w -> wp faults p Q' w.
Proof.
  revert Q Q' w. induction p as [A x|A X e k IH|A c IHc k IHk]; intros Q Q' w HQ; simpl.
  - apply HQ.
  - intros Hk x w' He. by eapply IH; [|apply Hk].
  - apply IHc. intros [] w'. by apply IHk.
Qed.

Lemma wp_bind faults {A B : Set} (p : prog A) (f : A -> prog B) Q w :
  wp faults p (fun x w' => wp faults (f x) Q w') w -> wp faults (bind p f) Q w.
Proof.
  revert w. induction p as [A x|A X e k IH|A c _ k IHk]; intros w; simpl; [done| |].
  - intros Hk x w' He. by apply IH, Hk.
  - apply wp_mono. intros [] w'. apply IHk.
Qed.

Lemma wp_for_each faults {X} (l : list X) (f : X -> prog unit) (I : world -> Prop) w :
  (forall x w, x ∈ l -> I w -> wp faults (f x) (fun _ => I) w) ->
  I w -> wp faults (for_each l f) (fun _ => I) w.
Proof.
  revert w. induction l as [|x l IH]; intros w Hf HI; simpl; [done|].
  apply wp_bind. eapply wp_mono; [|apply Hf; [by left|done]].
  intros [] w' HI'. apply IH; [|done]. intros y w'' Hy. apply Hf. by right.
Qed.

(** ** One goroutine, executed *)

(** The answers of the environment at each tick of the world. *)
Class Env := {
  env_now : nat -> Timestamp;
  env_uuid : nat -> string;
  env_ctxErr : nat -> option code;
  env_budget : nat -> nat;
  env_fault : nat -> option string;
  env_rpc : forall A : Set, nat -> connRef -> rpc A -> result code A;
  env_exec : nat -> connRef -> string -> string -> ExecStream;
  env_file : nat -> bool;
  env_start : nat -> PoolSpec -> option error;
  env_stop : nat -> option code;
  env_send : nat -> option code
}.

Definition run_eff `{Env} {X : Set} (e : eff X) (w : world) : world * X :=
  let answer {Y : Set} (e0 : eff Y) (x : Y) := (logged (log_of e0 x) w, x) in
  let t := w_tick w in
  match e in eff Y return world * Y with
  | EStore o =>
      match env_fault t with
      | Some what => (logged [] w, Err (ErrOther what))
      | None =>
          let '(db, r) := denote (env_now t) (env_now t) o (w_db w) in (set_db db w, r)
      end
  | EFlint o => let '(f, x) := flint_exec o (w_flint w) in (set_flint f w, x)
  | ENow => answer ENow (env_now t)
  | EUUID => answer EUUID (env_uuid t)
  | ECtxErr => answer ECtxErr (env_ctxErr t)
  | EBudget => answer EBudget (env_budget t)
  | ERpc c r => answer (ERpc c r) (env_rpc _ t c r)
  | EExec c u cmd n => answer (EExec c u cmd n) (env_exec t c u cmd)
  | ECreds s => answer (ECreds s) (env_file t)
  | ENewClient a => answer (ENewClient a) (env_file t)
  | ENotify n => answer (ENotify n) tt
  | EMetric m => answer (EMetric m) tt
  | EStart s => answer (EStart s) (env_start t s)
  | EStop n ns => answer (EStop n ns) tt
  | EStopWait n ns => answer (EStopWait n ns) (env_stop t)
  | ESend e => answer (ESend e) (env_send t)
  | EAcquire m => (set_locks (acquire m (w_locks w)) w, tt)
  | ERelease m => (set_locks (unlock m (w_locks w)) w, tt)
  end.

Fixpoint run `{Env} {A : Set} (p : prog A) : world -> world * A :=
  match p in prog A0 return world -> world * A0 with
  | Ret x => fun w => (w, x)
  | Do e k => fun w => let '(w', x) := run_eff e w in run (k x) w'
  | Fork c k => fun w => let '(w', _) := run c w in run k w'
  end.

Lemma run_eff_sound `{Env} {X : Set} (e : eff X) w :
  exec_eff true e w (run_eff e w).2 (run_eff e w).1.
Proof.
  destruct e; simpl; try done.
  - destruct (env_fault (w_tick w)) as [what|]; simpl.
    + right. eauto.
    + left. exists (env_now (w_tick w)), (env_now (w_tick w)).
      by destruct (denote _ _ _ _).
  - by destruct (flint_exec o (w_flint w)).
Qed.

(** A run is one of the executions [wp] considers. *)
Lemma wp_run `{Env} {A : Set} (p : prog A) (Q : A -> world -> Prop) w :
  wp true p Q w -> Q (run p w).2 (run p w).1.
Proof.
  revert Q w. induction p as [A x|A X e k IH|A c IHc k IHk]; intros Q w; simpl; [done| |].
  - intros Hk. pose proof (run_eff_sound e w) as He.
    destruct (run_eff e w) as [w' x]. by apply IH, Hk.
  - intros Hc. apply IHc in Hc. destruct (run c w) as [w' []]. by apply IHk.
Qed.

(** ** Goroutines interleaved *)

(** [s_used] is every uid flintlock has handed out; flintlock does not hand
    out a uid twice. *)
Record sys := {
  s_world : world;
  s_used : gset string;
  s_threads : list (prog unit)
}.

Definition uid_handed_out {X : Set} (e : eff X) : X -> option string :=
  match e in eff Y return Y -> option string with
  | ERpc _ r =>
      match r in rpc Z return result code Z -> option string with
      | CreateMicroVM _ => fun x => match x with Ok u => Some u | Err _ => None end
      | _ => fun _ => None
      end
  | _ => fun _ => None
  end.

Definition use (u : option string) (used : gset string) : gset string :=
  match u with Some u => {[u]} ∪ used | None => used end.

(** One step of the process: a goroutine's next effect, a [go] statement, or a
    new request or timer that starts one of the [entry] points. *)
Inductive sys_step (entry : prog unit -> Prop) (s : sys) : sys -> Prop :=
  | Step_do i (X : Set) (e : eff X) k x w' :
      s_threads s !! i = Some (Do e k) -> enabled e (s_world s) ->
      exec_eff true e (s_world s) x w' ->
      (forall u, uid_handed_out e x = Some u -> u ∉ s_used s) ->
      sys_step entry s {| s_world := w'; s_used := use (uid_handed_out e x) (s_used s);
                          s_threads := <[i := k x]> (s_threads s) |}
  | Step_fork i c k :
      s_threads s !! i = Some (Fork c k) ->
      sys_step entry s {| s_world := s_world s; s_used := s_used s;
                          s_threads := <[i := k]> (s_threads s) ++ [c] |}
  | Step_spawn p :
      entry p ->
      sys_step entry s {| s_world := s_world s; s_used := s_used s;
                          s_threads := s_threads s ++ [p] |}.

(** *** A scheduler

    [step_thread i] lets goroutine [i] take its next step, with the answers of
    the environment; [sched] follows a schedule, skipping the goroutines that
    have ended or wait for a mutex. *)

#[export] Instance lock_free_dec m l : Decision (lock_free m l).
Proof. destruct m; simpl; apply _. Defined.
#[export] Instance enabled_dec {X : Set} (e : eff X) w : Decision (enabled e w).
Proof. destruct e; simpl; apply _. Defined.

Definition unused (u : option string) (used : gset string) : Prop :=
  match u with Some u => u ∉ used | None => True end.
#[export] Instance unused_dec u used : Decision (unused u used).
Proof. destruct u; simpl; apply _. Defined.

(** The next step of a program: the new world, the rest of the program and the
    goroutine it started, if any. *)
Definition step_prog `{Env} {A : Set} (p : prog A) (w : world) (used : gset string)
    : option (world * gset string * prog A * list (prog unit)) :=
  match p in prog A0 return option (world * gset string * prog A0 * list (prog unit)) with
  | Ret _ => None
  | Do e k =>
      if decide (enabled e w) then
        let '(w', x) := run_eff e w in
        if decide (unused (uid_handed_out e x) used)
        then Some (w', use (uid_handed_out e x) used, k x, [])
        else None
      else None
  | Fork c k => Some (w, used, k, [c])
  end.

Definition step_thread `{Env} (i : nat) (s : sys) : sys :=
  match s_threads s !! i with
  | None => s
  | Some p =>
      match step_prog p (s_world s) (s_used s) with
      | None => s
      | Some (w', used', p', forked) =>
          {| s_world := w'; s_used := used'; s_threads := <[i := p']> (s_threads s) ++ forked |}
      end
  end.

Definition sched `{Env} (schedule : list nat) (s : sys) : sys :=
  fold_left (fun s i => step_thread i s) schedule s.

Definition spawn (ps : list (prog unit)) (s : sys) : sys :=
  {| s_world := s_world s; s_used := s_used s; s_threads := s_threads s ++ ps |}.

Lemma step_prog_cases `{Env} {A : Set} (p : prog A) w used w' used' p' forked :
  step_prog p w used = Some (w', used', p', forked) ->
  (exists (X : Set) (e : eff X) k x, p = Do e k /\ enabled e w /\ exec_eff true e w x w' /\
     (forall u, uid_handed_out e x = Some u -> u ∉ used) /\
     used' = use (uid_handed_out e x) used /\ p' = k x /\ forked = []) \/
  (exists c, p = Fork c p' /\ w' = w /\ used' = used /\ forked = [c]).
Proof.
  destruct p as [A x|A X e k|A c k]; simpl; [done| |].
  - case_decide as Hen; [|done]. pose proof (run_eff_sound e w) as He.
    destruct (run_eff e w) as [w1 x]. simpl in He. case_decide as Hu; [|done].
    intros [= <- <- <- <-]. left. exists X, e, k, x. split_and!; try done.
    intros u Eu. rewrite Eu in Hu. done.
  - intros [= <- <- <- <-]. right. eauto.
Qed.

(** Is goroutine [i] able to take a step? *)
Definition can_step `{Env} (i : nat) (s : sys) : bool :=
  match s_threads s !! i with
  | None => false
  | Some p => match step_prog p (s_world s) (s_used s) with None => false | Some _ => true end
  end.

Lemma step_thread_step `{Env} entry i s : can_step i s = true -> sys_step entry s (step_thread i s).
Proof.
  unfold can_step, step_thread. destruct (s_threads s !! i) as [p|] eqn:Hi; [|done].
  destruct (step_prog p (s_world s) (s_used s)) as [[[[w' used'] p'] forked]|] eqn:E; [|done].
  intros _.
  apply step_prog_cases in E as [(X & e & k & x & -> & Hen & He & Hu & -> & -> & ->)
    |(c & -> & -> & -> & ->)].
  - rewrite app_nil_r. by econstructor.
  - by apply (Step_fork entry s i c p').
Qed.

Lemma step_thread_steps `{Env} entry i s : rtc (sys_step entry) s (step_thread i s).
Proof.
  destruct (can_step i s) eqn:E; [by apply rtc_once, step_thread_step|].
  unfold can_step in E. unfold step_thread. destruct (s_threads s !! i) as [p|]; [|done].
  by destruct (step_prog p (s_world s) (s_used s)).
Qed.

Lemma sched_steps `{Env} entry l s : rtc (sys_step entry) s (sched l s).
Proof.
  revert s. induction l as [|i l IH]; intros s; simpl; [done|].
  etrans; [apply step_thread_steps|apply IH].
Qed.

Lemma spawn_steps entry ps s : Forall entry ps -> rtc (sys_step entry) s (spawn ps s).
Proof.
  intros Hps. revert s. induction Hps as [|p ps Hp _ IH]; intros s.
  - unfold spawn. rewrite app_nil_r. by destruct s.
  - eapply rtc_l; [by apply (Step_spawn entry s p)|].
    etrans; [apply IH|]. unfold spawn; simpl. rewrite <- app_assoc. done.
Qed.

(** ** Protocols

    What a goroutine must do in which order, as a state machine over its
    effects and their answers. *)
Record protocol := {
  St : Type;
  idle : St;
  allowed : St -> forall X : Set, eff X -> Prop;
  next : St -> forall X : Set, eff X -> X -> St;
  (** where a goroutine may end *)
  final : St -> Prop
}.

(** The program keeps to the protocol whatever the answers. *)
Fixpoint respects (P : protocol) {A : Set} (p : prog A) : St P -> (A -> St P -> Prop) -> Prop :=
  match p in prog A0 return St P -> (A0 -> St P -> Prop) -> Prop with
  | Ret x => fun s Q => Q x s
  | Do e k => fun s Q => allowed P s _ e /\ forall x, respects P (k x) (next P s _ e x) Q
  | Fork c k => fun s Q => respects P c (idle P) (fun _ => final P) /\ respects P k s Q
  end.

Lemma respects_mono P {A : Set} (p : prog A) s (Q Q' : A -> St P -> Prop) :
  (forall x s', Q x s' -> Q' x s') -> respects P p s Q -> respects P p s Q'.
Proof.
  revert s Q Q'. induction p as [A x|A X e k IH|A c _ k IHk]; intros s Q Q' HQ; simpl.
  - apply HQ.
  - intros [Ha Hk]. split; [done|]. intros x. by eapply IH; [|apply Hk].
  - intros [Hc Hk]. split; [done|]. by eapply IHk.
Qed.

Lemma respects_bind P {A B : Set} (p : prog A) (f : A -> prog B) s Q :
  respects P p s (fun x s' => respects P (f x) s' Q) -> respects P (bind p f) s Q.
Proof.
  revert s. induction p as [A x|A X e k IH|A c _ k IHk]; intros s; simpl; [done| |].
  - intros [Ha Hk]. split; [done|]. intros x. by apply IH, Hk.
  - intros [Hc Hk]. split; [done|]. by apply IHk.
Qed.

Lemma respects_for_each P {X} (l : list X) (f : X -> prog unit) s :
  (forall x, x ∈ l -> respects P (f x) s (fun _ s' => s' = s)) ->
  respects P (for_each l f) s (fun _ s' => s' = s).
Proof.
  induction l as [|x l IH]; intros Hf; simpl; [done|].
  apply respects_bind. eapply respects_mono; [|apply Hf; by left].
  intros [] s' ->. apply IH. intros y Hy. apply Hf. by right.
Qed.

Section protocol_soundness.
Context (P : protocol) (entry : prog unit -> Prop).
Context (I : world -> gset string -> list (St P) -> Prop).

Definition obeys (s : St P) (p : prog unit) : Prop := respects P p s (fun _ => final P).

Hypothesis entry_obeys : forall p, entry p -> obeys (idle P) p.
Hypothesis I_spawn : forall w used ss, I w used ss -> I w used (ss ++ [idle P]).
Hypothesis I_step : forall w used ss i s (X : Set) (e : eff X) x w',
  I w used ss -> ss !! i = Some s -> allowed P s X e -> enabled e w ->
  exec_eff true e w x w' -> (forall u, uid_handed_out e x = Some u -> u ∉ used) ->
  I w' (use (uid_handed_out e x) used) (<[i := next P s X e x]> ss).

(** If every entry point keeps to the protocol and the allowed effects keep the
    invariant, the invariant holds in every interleaving. *)
Definition sys_ok (σ : sys) : Prop :=
  exists ss, Forall2 obeys ss (s_threads σ) /\ I (s_world σ) (s_used σ) ss.

Lemma sys_step_ok σ σ' : sys_step entry σ σ' -> sys_ok σ -> sys_ok σ'.
Proof.
  intros Hstep (ss & Hobey & HI). destruct Hstep as [i X e k x w' Hi Hen He Hu|i c k Hi|p Hp].
  - destruct (Forall2_lookup_r _ _ _ _ _ Hobey Hi) as (s & Hs & Ha & Hk).
    exists (<[i := next P s X e x]> ss). split; simpl.
    + apply Forall2_insert; [done|apply Hk].
    + by apply (I_step (s_world σ)).
  - destruct (Forall2_lookup_r _ _ _ _ _ Hobey Hi) as (s & Hs & Hc & Hk).
    exists (ss ++ [idle P]). split; simpl; [|by apply I_spawn].
    apply Forall2_app; [|by repeat constructor].
    rewrite <- (list_insert_id ss i s Hs). by apply Forall2_insert.
  - exists (ss ++ [idle P]). split; simpl; [|by apply I_spawn].
    apply Forall2_app; [done|]. repeat constructor. by apply entry_obeys.
Qed.

Lemma sys_steps_ok σ σ' : rtc (sys_step entry) σ σ' -> sys_ok σ -> sys_ok σ'.
Proof. induction 1; eauto using sys_step_ok. Qed.
End protocol_soundness.
End semantics.
