(* ===== verification/KeyedLock.v ===== *)
(** * A mutex per key: [lockPool] and [lockHost]

    [src/internal/api/pooladmin.go] and [hostadmin.go] keep a map from pools and
    host names to mutexes, made when first needed and guarded by a mutex of its
    own.  The handlers' programs take [PoolLock] and [HostLock] as if there were
    one mutex for each name.  Here is the code below that: goroutines that run
    [lockHost] statement by statement on a heap of mutexes, and the theorem that
    this is indeed a mutex per name. *)

From stdpp Require Import base gmap list relations.
From Stdlib Require Import Lia.
From S2P Require Import Prelude.

Section keyed.
Context {K : Type} `{Countable K}.

(** Where a goroutine is in [lockHost] and after; [l] is the address of a mutex. *)
Inductive pc :=
  (** at [hostLocksMu.Lock()] *)
  | Enter (k : K)
  (** at the lookup, with [hostLocksMu] held *)
  | Lookup (k : K)
  (** at [hostLocksMu.Unlock()] *)
  | Leave (k : K) (l : nat)
  (** at [l.Lock()] *)
  | Acquire (k : K) (l : nat)
  (** returned: the caller holds [l] until it calls the unlock function *)
  | Holding (k : K) (l : nat)
  | Done.

(** [guard]: is [hostLocksMu] held?  [mutexes]: the allocated mutexes, by address,
    and whether they are held. *)
Record keyed := {
  guard : bool; hostLocks : gmap K nat; mutexes : list bool; goroutines : list pc
}.

Definition moved (i : nat) (p : pc) (g : bool) (s : keyed) : keyed :=
  {| guard := g; hostLocks := hostLocks s; mutexes := mutexes s; goroutines := <[i := p]> (goroutines s) |}.
Definition set_mutex (l : nat) (b : bool) (s : keyed) : keyed :=
  {| guard := guard s; hostLocks := hostLocks s; mutexes := <[l := b]> (mutexes s); goroutines := goroutines s |}.

(** The next statement of goroutine [i]; [None] when it has to wait or is done. *)
Definition lockHost (i : nat) (s : keyed) : option keyed :=
  match goroutines s !! i with
  | Some (Enter k) => if guard s then None else Some (moved i (Lookup k) true s)
  | Some (Lookup k) =>
      match hostLocks s !! k with
      | Some l => Some (moved i (Leave k l) true s)
      | None =>
          let l := length (mutexes s) in
          Some (moved i (Leave k l) true
            {| guard := guard s; hostLocks := <[k := l]> (hostLocks s); mutexes := mutexes s ++ [false];
               goroutines := goroutines s |})
      end
  | Some (Leave k l) => Some (moved i (Acquire k l) false s)
  | Some (Acquire k l) =>
      match mutexes s !! l with
      | Some false => Some (moved i (Holding k l) (guard s) (set_mutex l true s))
      | _ => None
      end
  | Some (Holding k l) => Some (moved i Done (guard s) (set_mutex l false s))
  | Some Done | None => None
  end.

(** Calls arrive at any time. *)
Inductive keyed_step (s : keyed) : keyed -> Prop :=
  | step_call k : keyed_step s
      {| guard := guard s; hostLocks := hostLocks s; mutexes := mutexes s; goroutines := goroutines s ++ [Enter k] |}
  | step_run i s' : lockHost i s = Some s' -> keyed_step s s'.

Definition no_hostLocks : keyed := {| guard := false; hostLocks := ∅; mutexes := []; goroutines := [] |}.

(** ** One mutex per key *)

(** What the handlers' programs see: the names whose mutex is held, as [lk_pools]
    and [lk_hosts] of the world, and who waits for one and who holds one. *)
Inductive holder := Waits (k : K) | Holds (k : K) | Over.
Record abstract := { held_names : gset K; holders : list holder }.

Inductive mutex_step (a : abstract) : abstract -> Prop :=
  | mutex_call k :
      mutex_step a {| held_names := held_names a; holders := holders a ++ [Waits k] |}
  | mutex_lock i k : holders a !! i = Some (Waits k) -> k ∉ held_names a ->
      mutex_step a {| held_names := {[k]} ∪ held_names a; holders := <[i := Holds k]> (holders a) |}
  | mutex_unlock i k : holders a !! i = Some (Holds k) ->
      mutex_step a {| held_names := held_names a ∖ {[k]}; holders := <[i := Over]> (holders a) |}.

Definition holder_of (p : pc) : holder :=
  match p with
  | Enter k | Lookup k | Leave k _ | Acquire k _ => Waits k
  | Holding k _ => Holds k
  | Done => Over
  end.
Definition view (s : keyed) : abstract :=
  {| held_names := dom (filter (fun '(_, l) => mutexes s !! l = Some true) (hostLocks s));
     holders := holder_of <$> goroutines s |}.

(** ** The invariant *)

(** The mutex a goroutine has found, for its key. *)
Definition found (p : pc) : option (K * nat) :=
  match p with Leave k l | Acquire k l | Holding k l => Some (k, l) | _ => None end.
Definition guarded (p : pc) : bool := match p with Lookup _ | Leave _ _ => true | _ => false end.
Definition holds_mutex (l : nat) (p : pc) : bool :=
  match p with Holding _ l' => bool_decide (l = l') | _ => false end.

(** At most one goroutine satisfies [P], and one does if [b]. *)
Definition one (P : pc -> bool) (b : bool) (t : list pc) : Prop :=
  (b = true <-> exists i p, t !! i = Some p /\ P p = true) /\
  forall i j p q, t !! i = Some p -> t !! j = Some q -> P p = true -> P q = true -> i = j.

Record keyed_ok (s : keyed) : Prop := {
  ko_found i p k l : goroutines s !! i = Some p -> found p = Some (k, l) -> hostLocks s !! k = Some l;
  ko_inj k k' l : hostLocks s !! k = Some l -> hostLocks s !! k' = Some l -> k = k';
  ko_heap k l : hostLocks s !! k = Some l -> l < length (mutexes s);
  ko_guard : one guarded (guard s) (goroutines s);
  ko_mutex l b : mutexes s !! l = Some b -> one (holds_mutex l) b (goroutines s)
}.

(** *** Counting goroutines *)

Lemma one_same (P : pc -> bool) b t i p p' :
  t !! i = Some p -> P p' = P p -> one P b t -> one P b (<[i := p']> t).
Proof.
  intros Hi HP [Hb Hu].
  assert (Hback : forall j q, <[i := p']> t !! j = Some q -> exists q0, t !! j = Some q0 /\ P q0 = P q).
  { intros j q [(<- & <- & _)|[_ Hj]]%list_lookup_insert_Some; eauto. }
  split.
  - rewrite Hb. split.
    + intros (j & q & Hj & HPq). destruct (decide (j = i)) as [->|Hne].
      * exists i, p'. rewrite list_lookup_insert_eq by by eapply lookup_lt_Some. split; [done|]. congruence.
      * exists j, q. by rewrite list_lookup_insert_ne.
    + intros (j & q & (q0 & Hj & E)%Hback & HPq). exists j, q0. split; [done|congruence].
  - intros j j' q q' (q0 & Hj & E)%Hback (q0' & Hj' & E')%Hback Hq Hq'. eapply Hu; [done|done|congruence..].
Qed.

Lemma one_start (P : pc -> bool) t i p p' :
  t !! i = Some p -> P p' = true -> one P false t -> one P true (<[i := p']> t).
Proof.
  intros Hi HP [Hb Hu]. assert (Hno : forall j q, t !! j = Some q -> P q = false).
  { intros j q Hj. destruct (P q) eqn:E; [|done]. by assert (false = true) by (apply Hb; eauto). }
  split.
  - split; [|done]. intros _. exists i, p'. by rewrite list_lookup_insert_eq by by eapply lookup_lt_Some.
  - intros j j' q q' [(<- & <- & _)|[_ Hj]]%list_lookup_insert_Some [(<- & <- & _)|[_ Hj']]%list_lookup_insert_Some;
      try done; intros E E'; [rewrite (Hno _ _ Hj') in E'|rewrite (Hno _ _ Hj) in E|rewrite (Hno _ _ Hj) in E]; done.
Qed.

Lemma one_stop (P : pc -> bool) b t i p p' :
  t !! i = Some p -> P p = true -> P p' = false -> one P b t -> one P false (<[i := p']> t).
Proof.
  intros Hi HP HP' [Hb Hu].
  assert (Hno : forall j q, <[i := p']> t !! j = Some q -> P q = false).
  { intros j q [(<- & <- & _)|[Hne Hj]]%list_lookup_insert_Some; [done|].
    destruct (P q) eqn:E; [|done]. destruct Hne. by eapply Hu. }
  split.
  - split; [done|]. intros (j & q & Hj & E). by rewrite (Hno _ _ Hj) in E.
  - intros j j' q q' Hj _ E. by rewrite (Hno _ _ Hj) in E.
Qed.

Lemma one_app (P : pc -> bool) b t p : P p = false -> one P b t -> one P b (t ++ [p]).
Proof.
  intros HP [Hb Hu].
  assert (Hback : forall j q, (t ++ [p]) !! j = Some q -> P q = true -> t !! j = Some q).
  { intros j q [Hj|[_ Hj]]%lookup_app_Some E; [done|]. apply list_lookup_singleton_Some in Hj as [_ <-]. congruence. }
  split.
  - rewrite Hb. split; intros (j & q & Hj & E); exists j, q; split; eauto. by apply lookup_app_l_Some.
  - intros j j' q q' Hj Hj' E E'. by eapply Hu; eauto.
Qed.

Lemma one_none (P : pc -> bool) t : (forall i p, t !! i = Some p -> P p = false) -> one P false t.
Proof.
  intros Hno. split.
  - split; [done|]. intros (j & q & Hj & E). by rewrite (Hno _ _ Hj) in E.
  - intros j j' q q' Hj _ E. by rewrite (Hno _ _ Hj) in E.
Qed.

(** *** Every statement keeps the invariant *)

Definition all_found (m : gmap K nat) (t : list pc) : Prop :=
  forall i p k l, t !! i = Some p -> found p = Some (k, l) -> m !! k = Some l.

Lemma all_found_insert m t i p :
  all_found m t -> (forall k l, found p = Some (k, l) -> m !! k = Some l) -> all_found m (<[i := p]> t).
Proof. intros Ht Hp j q k l [(_ & <- & _)|[_ Hj]]%list_lookup_insert_Some Hq; eauto. Qed.

Lemma mutex_range s k l : keyed_ok s -> hostLocks s !! k = Some l -> is_Some (mutexes s !! l).
Proof. intros O Hk. apply lookup_lt_is_Some. by eapply ko_heap. Qed.

Lemma no_holder s l i p : keyed_ok s -> mutexes s !! l = None -> goroutines s !! i = Some p -> holds_mutex l p = false.
Proof.
  intros O Hl Hi. destruct p as [| | | |k l'|]; try done. simpl. apply bool_decide_eq_false. intros ->.
  destruct (mutex_range s k l' O) as [b Hb]; [|congruence]. by eapply ko_found.
Qed.

(** A statement that changes neither mutexes nor the map. *)
Lemma ok_moved s i p p' g :
  keyed_ok s -> goroutines s !! i = Some p ->
  (forall k l, found p' = Some (k, l) -> hostLocks s !! k = Some l) ->
  one guarded g (<[i := p']> (goroutines s)) ->
  (forall l, holds_mutex l p' = holds_mutex l p) ->
  keyed_ok (moved i p' g s).
Proof.
  intros O Hi Hf Hg Hm. split; simpl; try apply O; [..|done|].
  - apply all_found_insert; [exact (ko_found s O)|done].
  - intros l b Hl. eapply one_same; [done|done|]. by apply O.
Qed.

Lemma ok_new_mutex s k :
  keyed_ok s -> hostLocks s !! k = None ->
  keyed_ok {| guard := guard s; hostLocks := <[k := length (mutexes s)]> (hostLocks s);
              mutexes := mutexes s ++ [false]; goroutines := goroutines s |}.
Proof.
  intros O Hk. split; simpl.
  - intros i p k' l Hi Hf. pose proof (ko_found s O _ _ _ _ Hi Hf) as Hl.
    rewrite lookup_insert_ne by congruence. done.
  - intros k1 k2 l. rewrite !lookup_insert_Some. intros [[<- <-]|[_ H1]] [[<- E]|[_ H2]]; try done.
    + apply ko_heap in H2; [lia|done].
    + apply ko_heap in H1; [lia|done].
    + by eapply (ko_inj s O).
  - intros k' l. rewrite length_app, lookup_insert_Some. simpl. intros [[_ <-]|[_ Hl]]; [lia|].
    apply (ko_heap s O) in Hl. lia.
  - apply O.
  - intros l b [Hl|[Hlen Hl]]%lookup_app_Some; [by apply O|].
    apply list_lookup_singleton_Some in Hl as [E <-]. apply one_none. intros i p. apply no_holder; [done|].
    apply lookup_ge_None. lia.
Qed.

(** Locking and unlocking a mutex that was found. *)
Lemma ok_mutex s i p p' l b0 b :
  keyed_ok s -> goroutines s !! i = Some p -> mutexes s !! l = Some b0 ->
  (forall k l, found p' = Some (k, l) -> hostLocks s !! k = Some l) ->
  guarded p' = guarded p ->
  one (holds_mutex l) b (<[i := p']> (goroutines s)) ->
  (forall l', l' <> l -> holds_mutex l' p' = holds_mutex l' p) ->
  keyed_ok (moved i p' (guard s) (set_mutex l b s)).
Proof.
  intros O Hi Hl Hf Hg Hone Hm. split; simpl; try apply O.
  - apply all_found_insert; [exact (ko_found s O)|done].
  - intros k l'. rewrite length_insert. apply O.
  - eapply one_same; [done|done|]. apply O.
  - intros l' b' [(<- & <- & _)|[Hne Hl']]%list_lookup_insert_Some; [done|].
    eapply one_same; [done|by apply Hm|]. by apply O.
Qed.

Lemma keyed_ok_run s i s' : keyed_ok s -> lockHost i s = Some s' -> keyed_ok s'.
Proof.
  intros O. unfold lockHost. destruct (goroutines s !! i) as [p|] eqn:Hi; [|done].
  pose proof (ko_guard s O) as Hg. destruct p as [k|k|k l|k l|k l|]; [..|done].
  - destruct (guard s) eqn:Eg; [done|]. intros [= <-]. eapply ok_moved; [done..|by eapply one_start|done].
  - assert (Ht : guard s = true) by (apply Hg; eauto). rewrite Ht in Hg.
    destruct (hostLocks s !! k) as [l|] eqn:Hk; intros [= <-].
    + eapply ok_moved; [done..|by intros ?? [= <- <-]|by eapply one_same|done].
    + eapply ok_moved; [by apply ok_new_mutex|done|..|by eapply one_same|done].
      intros ?? [= <- <-]. apply lookup_insert_eq.
  - intros [= <-]. eapply ok_moved; [done..|by intros ?? [= <- <-]; eapply ko_found|by eapply one_stop|done].
  - destruct (mutexes s !! l) as [[]|] eqn:Hl; try done. intros [= <-].
    eapply ok_mutex; [done..|by intros ?? [= <- <-]; eapply ko_found|done| |].
    + eapply one_start; [done| |by apply O]. by apply bool_decide_eq_true_2.
    + intros l' Hne. simpl. by apply bool_decide_eq_false_2.
  - destruct (mutex_range s k l O) as [b Hl]; [by eapply ko_found|]. intros [= <-].
    eapply ok_mutex; [done..| |].
    + eapply one_stop; [done|by apply bool_decide_eq_true_2|done|by apply O].
    + intros l' Hne. simpl. symmetry. by apply bool_decide_eq_false_2.
Qed.

Lemma keyed_ok_reach s : rtc keyed_step no_hostLocks s -> keyed_ok s.
Proof.
  assert (O0 : keyed_ok no_hostLocks) by (split; simpl; try done; by apply one_none).
  intros Hs. revert O0. induction Hs as [|s s1 s2 [k|i s' E] _ IH]; [done|..]; intros O; apply IH.
  - split; simpl; try apply O.
    + intros i p k' l [Hi|[_ Hi]]%lookup_app_Some Hf; [by eapply (ko_found s O)|].
      by apply list_lookup_singleton_Some in Hi as [_ <-].
    + apply one_app; [done|apply O].
    + intros l b Hl. apply one_app; [done|by apply O].
  - by eapply keyed_ok_run.
Qed.

(** ** The refinement *)

Lemma elem_of_held s k :
  k ∈ held_names (view s) <-> exists l, hostLocks s !! k = Some l /\ mutexes s !! l = Some true.
Proof.
  simpl. rewrite elem_of_dom. split.
  - intros [l [Hk Hl]%map_lookup_filter_Some]. eauto.
  - intros (l & Hk & Hl). exists l. by apply map_lookup_filter_Some.
Qed.

Lemma view_eq s a :
  (forall k, k ∈ held_names (view s) <-> k ∈ held_names a) -> holder_of <$> goroutines s = holders a -> view s = a.
Proof. destruct a as [h t]. simpl. intros Hh <-. unfold view. f_equal. by apply set_eq. Qed.

(** A statement that only the goroutine itself sees. *)
Lemma view_moved s i p p' g :
  goroutines s !! i = Some p -> holder_of p' = holder_of p -> view (moved i p' g s) = view s.
Proof.
  intros Hi E. apply view_eq; [done|]. simpl. rewrite list_fmap_insert, E. apply list_insert_id.
  by rewrite list_lookup_fmap, Hi.
Qed.

Lemma view_new_mutex s k :
  keyed_ok s -> hostLocks s !! k = None ->
  view {| guard := guard s; hostLocks := <[k := length (mutexes s)]> (hostLocks s);
          mutexes := mutexes s ++ [false]; goroutines := goroutines s |} = view s.
Proof.
  intros O Hk. apply view_eq; [|done]. intros j. rewrite !elem_of_held. simpl. split.
  - intros (l & [[<- <-]|[_ Hj]]%lookup_insert_Some & Hl).
    + by rewrite lookup_app_r, Nat.sub_diag in Hl.
    + rewrite lookup_app_l in Hl by by eapply ko_heap. eauto.
  - intros (l & Hj & Hl). exists l. rewrite lookup_insert_ne by congruence. split; [done|].
    by apply lookup_app_l_Some.
Qed.

(** The names held after a mutex changed. *)
Lemma held_set_mutex s i p k l b :
  keyed_ok s -> hostLocks s !! k = Some l ->
  forall j, j ∈ held_names (view (moved i p (guard s) (set_mutex l b s))) <->
    (j = k /\ b = true) \/ (j <> k /\ j ∈ held_names (view s)).
Proof.
  intros O Hk j. rewrite !elem_of_held. simpl. pose proof (ko_heap s O _ _ Hk) as Hlen. split.
  - intros (l' & Hj & [(<- & <- & _)|[Hne Hl]]%list_lookup_insert_Some).
    + left. split; [by eapply (ko_inj s O)|done].
    + right. split; [|eauto]. congruence.
  - intros [[-> ->]|(Hne & l' & Hj & Hl)].
    + exists l. by rewrite list_lookup_insert_eq.
    + exists l'. rewrite list_lookup_insert_ne; [done|]. intros ->. by destruct Hne; eapply (ko_inj s O).
Qed.

Lemma view_run s i s' : keyed_ok s -> lockHost i s = Some s' -> view s' = view s \/ mutex_step (view s) (view s').
Proof.
  intros O. unfold lockHost. destruct (goroutines s !! i) as [p|] eqn:Hi; [|done].
  assert (Hh : holders (view s) !! i = Some (holder_of p)) by (simpl; by rewrite list_lookup_fmap, Hi).
  destruct p as [k|k|k l|k l|k l|]; [..|done].
  - destruct (guard s); [done|]. intros [= <-]. left. by eapply view_moved.
  - destruct (hostLocks s !! k) as [l|] eqn:Hk; intros [= <-]; left; [by eapply view_moved|].
    rewrite <- (view_new_mutex s k O Hk). by eapply view_moved.
  - intros [= <-]. left. by eapply view_moved.
  - destruct (mutexes s !! l) as [[]|] eqn:Hl; try done. intros [= <-]. right.
    assert (Hk : hostLocks s !! k = Some l) by by eapply (ko_found s O).
    assert (Hfree : k ∉ held_names (view s)) by (rewrite elem_of_held; intros (l' & Hk' & Hl'); congruence).
    erewrite (view_eq (moved _ _ _ _)); [by eapply (mutex_lock (view s) i k)|..].
    + intros j. rewrite (held_set_mutex s i _ k l true O Hk). cbn [held_names].
      rewrite elem_of_union, elem_of_singleton. destruct (decide (j = k)); naive_solver.
    + simpl. by rewrite list_fmap_insert.
  - intros [= <-]. right. assert (Hk : hostLocks s !! k = Some l) by by eapply (ko_found s O).
    erewrite (view_eq (moved _ _ _ _)); [by eapply (mutex_unlock (view s) i k)|..].
    + intros j. rewrite (held_set_mutex s i _ k l false O Hk). cbn [held_names].
      rewrite elem_of_difference, elem_of_singleton. naive_solver.
    + simpl. by rewrite list_fmap_insert.
Qed.

Lemma view_step s s' : keyed_ok s -> keyed_step s s' -> view s' = view s \/ mutex_step (view s) (view s').
Proof.
  intros O [k|i s1 E]; [|by eapply view_run]. right.
  match goal with |- mutex_step _ (view ?x) => erewrite (view_eq x) end;
    [by eapply (mutex_call (view s) k)|done|]. simpl. by rewrite fmap_app.
Qed.

(** Whoever waits, someone can go on. *)
Lemma keyed_progress s i p :
  keyed_ok s -> goroutines s !! i = Some p -> p <> Done -> exists j s', lockHost j s = Some s'.
Proof.
  intros O Hi Hp.
  assert (Hgo : forall j q, goroutines s !! j = Some q -> guarded q = true \/ (exists l, holds_mutex l q = true) ->
    exists j s', lockHost j s = Some s').
  { intros j q Hj Hq. exists j. unfold lockHost. rewrite Hj. destruct q as [| | | | |]; try naive_solver.
    destruct (hostLocks s !! k); eauto. }
  destruct p as [k|k|k l|k l|k l|]; [..|done].
  - destruct (guard s) eqn:Eg.
    + destruct (proj1 (proj1 (ko_guard s O)) Eg) as (j & q & Hj & Hq). eauto.
    + exists i. unfold lockHost. rewrite Hi, Eg. eauto.
  - eauto.
  - eauto.
  - destruct (mutex_range s k l O) as [[] Hl]; [by eapply (ko_found s O)|..].
    + destruct (proj1 (proj1 (ko_mutex s O l true Hl)) eq_refl) as (j & q & Hj & Hq). eauto.
    + exists i. unfold lockHost. rewrite Hi, Hl. eauto.
  - eapply Hgo; [done|]. right. exists l. by apply bool_decide_eq_true_2.
Qed.

(** C10: [lockPool] and [lockHost] are one mutex per name.  Whatever calls arrive and
    however their statements interleave, the map of lazily made mutexes behind its
    guard does what a mutex per name would: each statement is invisible or is one
    of the steps lock, unlock and arrival on the set of names held, a name is locked
    only while it is not held; two callers never hold the mutex of one name at once;
    and as long as a caller has not finished, someone can go on, so that the guard
    and the mutexes never block each other. *)
Theorem mutex_per_name s :
  rtc keyed_step no_hostLocks s ->
  (forall s', keyed_step s s' -> view s' = view s \/ mutex_step (view s) (view s')) /\
  (forall i j k l l', goroutines s !! i = Some (Holding k l) -> goroutines s !! j = Some (Holding k l') -> i = j) /\
  (forall i p, goroutines s !! i = Some p -> p <> Done -> exists j s', lockHost j s = Some s').
Proof.
  intros O%keyed_ok_reach. split_and!.
  - intros s'. by apply view_step.
  - intros i j k l l' Hi Hj. pose proof (ko_found s O _ _ _ _ Hi eq_refl) as Hl.
    pose proof (ko_found s O _ _ _ _ Hj eq_refl) as Hl'. assert (l' = l) as -> by congruence.
    destruct (mutex_range s k l O Hl) as [b Hb].
    eapply (ko_mutex s O l b Hb); [done..| |]; by apply bool_decide_eq_true_2.
  - intros i p Hi Hp. by eapply keyed_progress.
Qed.
End keyed.

(** ** Two callers for one host *)

Fixpoint run_statements (l : list nat) (s : keyed (K := nat)) : option keyed :=
  match l with
  | [] => Some s
  | i :: l => match lockHost i s with Some s => run_statements l s | None => None end
  end.

Lemma run_statements_reach l s s' : run_statements l s = Some s' -> rtc keyed_step s s'.
Proof.
  revert s. induction l as [|i l IH]; intros s; simpl; [by intros [= ->]|].
  destruct (lockHost i s) as [s1|] eqn:E; [|done]. intros Hl. eapply rtc_l; [by apply (step_run s i)|auto].
Qed.

(** Two callers have arrived. *)
Definition two_callers : keyed (K := nat) :=
  {| guard := false; hostLocks := ∅; mutexes := []; goroutines := [Enter 7; Enter 7] |}.

(** The first holds the mutex, and the second, which found the same one, waits. *)
Lemma mutex_per_name_witness :
  exists s, run_statements [0; 0; 0; 1; 1; 0; 1] two_callers = Some s /\
    goroutines s = [Holding 7 0; Acquire 7 0] /\ lockHost 1 s = None /\
    (forall s', keyed_step s s' -> view s' = view s \/ mutex_step (view s) (view s')).
Proof.
  eexists. split; [vm_compute; reflexivity|]. split; [reflexivity|]. split; [vm_compute; reflexivity|].
  apply (mutex_per_name (K := nat)). etrans; [|eapply (run_statements_reach [0; 0; 0; 1; 1; 0; 1])].
  - eapply rtc_l; [apply (step_call _ 7)|]. apply rtc_once, (step_call _ 7).
  - vm_compute; reflexivity.
Defined.
