(* ===== verification/Flintlock.v ===== *)
(** * The flintlock client pool: [src/internal/flintlockclient]

    Dialling and validating hosts, the pool's map of connections, the version
    gate, and running commands through the guest agent.

    What [golang.org/x/mod/semver] decides is the class [Semver]. *)

From stdpp Require Import base gmap strings list.
From Stdlib Require Import ZArith Lia Ascii.
From S2P Require Import Prelude Types Convert Store StoreOps Effects.

(** ** pool.go *)

(** [validateHost]; a nil host is [None]. *)
Definition validateHost (host : option Host) : option error :=
  match host with
  | None => Some ErrInvalidHost
  | Some h =>
      if decide (host_name h = "") then Some ErrInvalidHost
      else if decide (host_address h = "") then Some ErrInvalidHost
      else
        let t := GetTls h in
        if tls_insecure t then
          if decide (cert_file t <> "" \/ key_file t <> "" \/ ca_file t <> "")
          then Some ErrInvalidHost else None
        else if decide (ca_file t = "") then Some ErrInvalidHost
        else if decide (bool_decide (cert_file t = "") <> bool_decide (key_file t = ""))
        then Some ErrInvalidHost
        else None
  end.

(** [dialCredentials] reads files only for a host that is not insecure. *)
Definition dialCredentials (t : HostTLS) : prog (option error) :=
  if tls_insecure t then Ret None
  else
    let! ok := do (ECreds t) in
    Ret (if ok : bool then None else Some (ErrPlain "tls files")).

Definition Dial (host : option Host) : prog (result error connRef) :=
  match validateHost host, host with
  | Some err, _ => Ret (Err err)
  | None, None => Ret (Err ErrInvalidHost)
  | None, Some h =>
      let! creds := dialCredentials (GetTls h) in
      match creds with
      | Some err => Ret (Err err)
      | None =>
          let! ok := do (ENewClient (host_address h)) in
          if ok : bool then
            let! c := do (EFlint (FlNew (host_name h) (host_address h))) in
            Ret (Ok c)
          else Ret (Err (ErrPlain "dial"))
      end
  end.

(** [Conn.Close]: closing a connection twice is an error. *)
Definition Conn_Close (c : connRef) : prog (option error) :=
  let! ok := do (EFlint (FlClose c)) in
  Ret (if ok : bool then None else Some (RpcErr Canceled)).

Definition Pool_Add (c : connRef) : prog (option error) :=
  let! ok := do (EFlint (FlAdd c)) in
  Ret (if ok : bool then None else Some ErrConnExists).

Definition Pool_Update (c : connRef) : prog (option error) :=
  let! old := do (EFlint (FlSwap c)) in
  match old with
  | None => Ret (Some ErrUnknownHost)
  | Some old =>
      let! err := Conn_Close old in
      Ret (match err with None => None | Some _ => Some (ErrPlain "close old connection") end)
  end.

Definition Pool_Remove (hostName : string) : prog (option error) :=
  let! old := do (EFlint (FlDrop hostName)) in
  match old with
  | None => Ret (Some ErrUnknownHost)
  | Some old =>
      let! err := Conn_Close old in
      Ret (match err with None => None | Some _ => Some (ErrPlain "close connection") end)
  end.

Definition Pool_conn (hostName : string) : prog (result error connRef) :=
  let! c := do (EFlint (FlLookup hostName)) in
  Ret (match c with Some c => Ok c | None => Err ErrUnknownHost end).

(** The MicroVM, exec and SSH proxy clients of a host share its connection. *)
Definition Client (hostName : string) : prog (result error connRef) := Pool_conn hostName.
Definition ExecClient (hostName : string) : prog (result error connRef) := Pool_conn hostName.
Definition SSHProxyClient (hostName : string) : prog (result error connRef) := Pool_conn hostName.

Definition Address (hostName : string) : prog (result error string) :=
  let! c := Pool_conn hostName in
  match c with
  | Err err => Ret (Err err)
  | Ok c => let! conn := do (EFlint (FlConn c)) in Ret (Ok (conn_address conn))
  end.

Definition Pool_Hosts : prog (list string) := do (EFlint FlNames).

(** Close every connection; the errors are joined. *)
Fixpoint close_all (cs : list connRef) : prog (list error) :=
  match cs with
  | [] => Ret []
  | c :: cs =>
      let! err := Conn_Close c in
      let! errs := close_all cs in
      Ret (match err with Some e => e :: errs | None => errs end)
  end.

Definition Pool_Close : prog (list error) :=
  let! cs := do (EFlint FlRefs) in
  close_all cs.

(** [New], on the pool that is being built. *)
Fixpoint Pool_New (hosts : list (option Host)) : prog (option error) :=
  match hosts with
  | [] => Ret None
  | host :: hosts =>
      let! c := Dial host in
      let! err :=
        match c with
        | Err err => Ret (Some err)
        | Ok c =>
            let! err := Pool_Add c in
            match err with
            | None => Ret None
            | Some err => then! Conn_Close c in Ret (Some err)
            end
        end in
      match err with
      | Some err => then! Pool_Close in Ret (Some err)
      | None => Pool_New hosts
      end
  end.

(** ** version.go *)

Class Semver := {
  semver_valid : string -> bool;
  (** [semver.Compare(v, w)]: negative, zero or positive. *)
  semver_compare : string -> string -> Z
}.

Definition MinFlintlockVersion : string := "v0.15.2".

(** [v[:i]] for the first index [i] of a byte in "-+", or all of [v]. *)
Fixpoint until_dash_plus (v : string) : string :=
  match v with
  | EmptyString => EmptyString
  | String c v' =>
      if Ascii.eqb c (Ascii.ascii_of_nat 45) || Ascii.eqb c (Ascii.ascii_of_nat 43)
      then EmptyString else String c (until_dash_plus v')
  end.

Definition with_v (version : string) : string :=
  match version with
  | String c _ => if Ascii.eqb c (Ascii.ascii_of_nat 118) then version else "v" +:+ version
  | EmptyString => "v" +:+ version
  end.

Section version.
Context `{Semver}.

Definition versionCore (version : string) : option string :=
  let v := until_dash_plus (with_v version) in
  if semver_valid v then Some v else None.

Definition Conn_CheckVersion (c : connRef) : prog (option error) :=
  let! conn := do (EFlint (FlConn c)) in
  if conn_versionOK conn then Ret None else
  let! resp := do (ERpc c ServerInfo) in
  match resp with
  | Err Unimplemented => Ret (Some ErrUnsupportedVersion)
  | Err err => Ret (Some (RpcErr err))
  | Ok version =>
      let core := versionCore version in
      let ok := match core with
                | Some core => bool_decide (0 <= semver_compare core MinFlintlockVersion)%Z
                | None => false
                end in
      then! do (EFlint (FlSetVersion c version ok)) in
      if ok then Ret None else Ret (Some ErrUnsupportedVersion)
  end.

Definition Pool_CheckVersion (hostName : string) : prog (option error) :=
  let! c := Pool_conn hostName in
  match c with
  | Err err => Ret (Some err)
  | Ok c => Conn_CheckVersion c
  end.

Definition Conn_FlintlockVersion (c : connRef) : prog (option string) :=
  let! conn := do (EFlint (FlConn c)) in
  Ret (if decide (conn_version conn = "") then None else Some (conn_version conn)).

Definition Pool_FlintlockVersion (hostName : string) : prog (option string) :=
  let! c := Pool_conn hostName in
  match c with
  | Err _ => Ret None
  | Ok c => Conn_FlintlockVersion c
  end.
End version.

(** ** exec.go *)

Record ExecResult := {
  stdout : string;
  stderr : string;
  exitCode : Z
}.

(** The receive loop over the messages of a stream that ends with [end_]. *)
Fixpoint recv_loop (end_ : option code) (msgs : list payload) (result_ : ExecResult)
    : result error ExecResult :=
  match msgs with
  | [] =>
      match end_ with
      | None => Err (ErrPlain "stream closed before exit code")
      | Some err => Err (RpcErr err)
      end
  | Stdout s :: msgs => recv_loop end_ msgs
      {| stdout := stdout result_ +:+ s; stderr := stderr result_; exitCode := exitCode result_ |}
  | Stderr s :: msgs => recv_loop end_ msgs
      {| stdout := stdout result_; stderr := stderr result_ +:+ s; exitCode := exitCode result_ |}
  | ExecError _ :: _ => Err ErrExecFailed
  | ExitCode n :: _ =>
      Ok {| stdout := stdout result_; stderr := stderr result_; exitCode := n |}
  | NoPayload :: msgs => recv_loop end_ msgs result_
  end.

Definition Exec (client : connRef) (uid cmd : string) (timeoutSeconds : Z)
    : prog (result error ExecResult) :=
  let! stream := do (EExec client uid cmd timeoutSeconds) in
  Ret (match open_err stream, send_err stream, closeSend_err stream with
       | Some err, _, _ => Err (RpcErr err)
       | None, Some err, _ => Err (RpcErr err)
       | None, None, Some err => Err (RpcErr err)
       | None, None, None =>
           recv_loop (recv_end stream) (recvs stream) {| stdout := ""; stderr := ""; exitCode := 0 |}
       end).

(** [WaitReady] makes one attempt more than the number of intervals that pass
    before the deadline. *)
Fixpoint wait_ready (client : connRef) (uid : string) (rounds : nat) : prog (option error) :=
  let! r := Exec client uid "true" 0 in
  match r with
  | Ok _ => Ret None
  | Err _ =>
      match rounds with
      | O => Ret (Some (ErrPlain "WaitReady timed out"))
      | S rounds => wait_ready client uid rounds
      end
  end.

Definition WaitReady (client : connRef) (uid : string) (interval : Duration)
    : prog (option error) :=
  if decide (interval <= 0)%Z then Ret (Some (ErrPlain "interval must be positive")) else
  let! rounds := do EBudget in
  wait_ready client uid rounds.
