(* ===== verification/ConcreteEnv.v ===== *)
(** * A concrete environment for the programs

    Answers to every effect that satisfy what the code expects of a healthy
    deployment: flintlock creates, starts and deletes every microvm, every
    command succeeds, the store never fails.  Used by the witnesses. *)

From stdpp Require Import base gmap strings list.
From Stdlib Require Import ZArith Lia.
From S2P Require Import Prelude Types Convert Store StoreOps Concrete Effects Flintlock.

Definition numbered (prefix : string) (t : nat) : string :=
  prefix +:+ bits (Pos.of_succ_nat t).

Definition stream0 (n : Z) : ExecStream :=
  {| open_err := None; send_err := None; closeSend_err := None;
     recvs := [Stdout "ok"; ExitCode n]; recv_end := None |}.

(** Every microvm's state is [st] and every call to delete one answers [del]. *)
Definition answer0 (st : MicroVMState) (del : result code unit) {A : Set} (t : nat) (r : rpc A)
    : result code A :=
  match r in rpc B return result code B with
  | CreateMicroVM _ => Ok (numbered "uid-" t)
  | GetMicroVM _ => Ok {| mvm_state := st; network_interfaces := [] |}
  | DeleteMicroVM _ => del
  | ServerInfo => Ok "v0.15.2"
  end.

(** [exit] is the exit code of every command. *)
Definition env_with (st : MicroVMState) (del : result code unit) (exit : Z) : Env := {|
  env_now t := (1000 + Z.of_nat t)%Z;
  env_uuid t := numbered "uuid-" t;
  env_ctxErr _ := None;
  env_budget _ := 3;
  env_fault _ := None;
  env_rpc _ t _ r := answer0 st del t r;
  env_exec _ _ _ _ := stream0 exit;
  env_file _ := true;
  env_start _ _ := None;
  env_stop _ := None;
  env_send _ := None
|}.

#[export] Instance env0 : Env := env_with CREATED_STATE (Ok tt) 0.

(** Versions compare as equal; enough for the minimum version itself. *)
#[export] Instance semver0 : Semver :=
  {| semver_valid _ := true; semver_compare _ _ := 0%Z |}.

Definition conn0 (name : string) : Conn :=
  {| conn_name := name; conn_address := name +:+ ":9090"; conn_version := "";
     conn_versionOK := false; conn_closed := false |}.

(** The sample database, and connections to its two hosts. *)
Definition world0 : world :=
  {| w_db := db0; w_locks := no_locks;
     w_flint := {| fl_hosts := {["host-a" := 0; "host-b" := 1]};
                   fl_conns := {[0 := conn0 "host-a"; 1 := conn0 "host-b"]} |};
     w_tick := 0; w_log := [] |}.

(** The process before any request. *)
Definition sys0 : sys :=
  {| s_world := world0; s_used := {["vm-1"; "vm-2"; "vm-3"]}; s_threads := [] |}.
