(* ===== verification/Strategy.v ===== *)
(** * Replenishment strategies: [src/internal/reconciler/strategy.go]

    The [Strategy] interface is a record of its three hooks; [StrategyLaws] is
    what the reconciler relies on, and each of the three implementations is an
    instance. *)

From stdpp Require Import base strings list sets.
From Stdlib Require Import ZArith Lia.
From S2P Require Import Prelude Types Convert Store StoreOps Effects.

Record VMCounts := {
  Available : Z;
  Claiming : Z;
  Leased : Z;
  Provisioning : Z;
  Quarantined : Z
}.

Definition no_vms : VMCounts :=
  {| Available := 0; Claiming := 0; Leased := 0; Provisioning := 0; Quarantined := 0 |}.

Record Strategy := {
  DesiredNewVMs : PoolSpec -> VMCounts -> Z;
  OnVMClaimed : PoolSpec -> VMCounts -> Z;
  OnVMDeleted : PoolSpec -> VMCounts -> Z
}.

(** [pool.GetReplenishmentStrategy().GetMinSize()]. *)
Definition GetMinSize (pool : PoolSpec) : Z :=
  default 0%Z (replenishment_strategy pool ≫= min_size).

(** [immediateOnLease.shortfall] and [replaceOnDelete.shortfall]: a Go [int]
    has 64 bits. *)
Definition immediate_shortfall (pool : PoolSpec) (c : VMCounts) : Z :=
  Z.max 0 (wrap64 (pool_size pool - wrap64 (Available c + Claiming c + Provisioning c))).

Definition immediateOnLease : Strategy := {|
  DesiredNewVMs := immediate_shortfall;
  OnVMClaimed := immediate_shortfall;
  OnVMDeleted := fun _ _ => 0%Z
|}.

Definition min_size_desired (pool : PoolSpec) (c : VMCounts) : Z :=
  if decide (wrap32 (Available c) >= GetMinSize pool)%Z then 0%Z
  else
    let inFlight := wrap64 (Available c + Claiming c + Leased c + Provisioning c) in
    let need := wrap64 (pool_size pool - inFlight) in
    if decide (need < 0)%Z then 0%Z else need.

Definition minSizeThreshold : Strategy := {|
  DesiredNewVMs := min_size_desired;
  OnVMClaimed := fun _ _ => 0%Z;
  OnVMDeleted := fun _ _ => 0%Z
|}.

Definition replace_shortfall (pool : PoolSpec) (c : VMCounts) : Z :=
  Z.max 0 (wrap64 (pool_size pool -
    wrap64 (Available c + Claiming c + Leased c + Provisioning c))).

Definition replaceOnDelete : Strategy := {|
  DesiredNewVMs := replace_shortfall;
  OnVMClaimed := fun _ _ => 0%Z;
  OnVMDeleted := replace_shortfall
|}.

Definition NewStrategy (spec : option ReplenishmentStrategy) : result error Strategy :=
  match spec with
  | None => Err ErrUnknownStrategy
  | Some spec =>
      match strategy_type spec with
      | IMMEDIATE_ON_LEASE => Ok immediateOnLease
      | MIN_SIZE_THRESHOLD =>
          match min_size spec with
          | None => Err ErrMinSizeRequired
          | Some n => if decide (n <= 0)%Z then Err ErrMinSizeRequired else Ok minSizeThreshold
          end
      | REPLACE_ON_DELETE => Ok replaceOnDelete
      | _ => Err ErrUnknownStrategy
      end
  end.

(** ** What the strategies promise *)

(** Counts of VMs, far below the limits of their types; a pool's [size] is an
    [int32]. *)
Definition counts_ok (c : VMCounts) : Prop :=
  (0 <= Available c < 2 ^ 31 /\ 0 <= Claiming c < 2 ^ 31 /\ 0 <= Leased c < 2 ^ 31 /\
   0 <= Provisioning c < 2 ^ 31 /\ 0 <= Quarantined c < 2 ^ 31)%Z.
Definition size_ok (pool : PoolSpec) : Prop := in_int32 (pool_size pool).

(** The VMs that count toward the pool's target under each strategy. *)
Definition counted (t : ReplenishmentStrategyType) (c : VMCounts) : Z :=
  match t with
  | IMMEDIATE_ON_LEASE => Available c + Claiming c + Provisioning c
  | _ => Available c + Claiming c + Leased c + Provisioning c
  end.

(** [n] more VMs being provisioned. *)
Definition provisioned (n : Z) (c : VMCounts) : VMCounts :=
  {| Available := Available c; Claiming := Claiming c; Leased := Leased c;
     Provisioning := Provisioning c + n; Quarantined := Quarantined c |}.

(** [n] more VMs ready to be claimed. *)
Definition more_available (n : Z) (c : VMCounts) : VMCounts :=
  {| Available := Available c + n; Claiming := Claiming c; Leased := Leased c;
     Provisioning := Provisioning c; Quarantined := Quarantined c |}.

(** The pool has what the strategy wants: as many VMs as its size or, under
    MIN_SIZE_THRESHOLD, enough of them AVAILABLE. *)
Definition target_met (t : ReplenishmentStrategyType) (pool : PoolSpec) (c : VMCounts) : Prop :=
  (t = MIN_SIZE_THRESHOLD /\ GetMinSize pool <= Available c)%Z \/
  (pool_size pool <= counted t c)%Z.
#[export] Instance target_met_dec t pool c : Decision (target_met t pool c).
Proof. unfold target_met; apply _. Defined.

Class StrategyLaws (t : ReplenishmentStrategyType) (s : Strategy) : Prop := {
  (** A hook asks for VMs only up to the pool's size. *)
  hooks_bounded pool c (hook : PoolSpec -> VMCounts -> Z) :
    size_ok pool -> counts_ok c ->
    hook ∈ [DesiredNewVMs s; OnVMClaimed s; OnVMDeleted s] ->
    (0 <= hook pool c)%Z /\
    (counted t c + hook pool c <= Z.max (pool_size pool) (counted t c))%Z;
  (** Provisioning what is asked for leaves nothing more to ask. *)
  desired_settles pool c :
    size_ok pool -> counts_ok c ->
    counts_ok (provisioned (DesiredNewVMs s pool c) c) ->
    DesiredNewVMs s pool (provisioned (DesiredNewVMs s pool c) c) = 0%Z;
  (** What is asked for at a tick: the shortfall, or nothing on target. *)
  desired_exact pool c :
    size_ok pool -> counts_ok c ->
    DesiredNewVMs s pool c =
      if decide (target_met t pool c) then 0%Z else (pool_size pool - counted t c)%Z
}.

(** The machine arithmetic of the shortfalls does not wrap. *)
Lemma shortfall_exact size n :
  in_int32 size -> (0 <= n < 2 ^ 33)%Z -> wrap64 (size - wrap64 n) = (size - n)%Z.
Proof.
  unfold in_int32. intros Hs Hn.
  rewrite (wrap64_id n) by (unfold in_int64, min_int64, max_int64; lia).
  apply wrap64_id. unfold in_int64, min_int64, max_int64. lia.
Qed.

Lemma counted_range t c : counts_ok c -> (0 <= counted t c < 2 ^ 33)%Z.
Proof. unfold counts_ok, counted. destruct t; lia. Qed.

Ltac shortfalls Hs Hc :=
  rewrite ?shortfall_exact by (first [exact Hs | apply (counted_range IMMEDIATE_ON_LEASE _ Hc)
                                     | apply (counted_range REPLACE_ON_DELETE _ Hc)]).

Lemma immediate_exact pool c :
  size_ok pool -> counts_ok c ->
  immediate_shortfall pool c = Z.max 0 (pool_size pool - counted IMMEDIATE_ON_LEASE c).
Proof. intros Hs Hc. unfold immediate_shortfall. by shortfalls Hs Hc. Qed.

Lemma replace_exact pool c :
  size_ok pool -> counts_ok c ->
  replace_shortfall pool c = Z.max 0 (pool_size pool - counted REPLACE_ON_DELETE c).
Proof. intros Hs Hc. unfold replace_shortfall. by shortfalls Hs Hc. Qed.

Lemma min_size_exact pool c :
  size_ok pool -> counts_ok c ->
  min_size_desired pool c =
    if decide (Available c >= GetMinSize pool)%Z then 0%Z
    else Z.max 0 (pool_size pool - counted MIN_SIZE_THRESHOLD c).
Proof.
  intros Hs Hc. unfold min_size_desired. rewrite wrap32_id by (unfold in_int32; apply proj1 in Hc; lia).
  case_decide; [done|]. shortfalls Hs Hc. simpl. case_decide; lia.
Qed.

Lemma hooks_cases {A} (x a b c : A) : x ∈ [a; b; c] -> x = a \/ x = b \/ x = c.
Proof. set_solver. Qed.

#[export] Instance immediate_laws : StrategyLaws IMMEDIATE_ON_LEASE immediateOnLease.
Proof.
  split.
  - intros pool c hook Hs Hc [->|[->| ->]]%hooks_cases; simpl;
      rewrite ?immediate_exact by done; pose proof (counted_range IMMEDIATE_ON_LEASE c Hc);
      simpl in *; lia.
  - intros pool c Hs Hc Hc'. simpl in *. rewrite immediate_exact by done.
    rewrite immediate_exact by done. simpl. lia.
  - intros pool c Hs Hc. simpl. rewrite immediate_exact by done.
    unfold target_met; simpl; case_decide; naive_solver lia.
Qed.

#[export] Instance replace_laws : StrategyLaws REPLACE_ON_DELETE replaceOnDelete.
Proof.
  split.
  - intros pool c hook Hs Hc [->|[->| ->]]%hooks_cases; simpl;
      rewrite ?replace_exact by done; pose proof (counted_range REPLACE_ON_DELETE c Hc);
      simpl in *; lia.
  - intros pool c Hs Hc Hc'. simpl in *. rewrite replace_exact by done.
    rewrite replace_exact by done. simpl. lia.
  - intros pool c Hs Hc. simpl. rewrite replace_exact by done.
    unfold target_met; simpl; case_decide; naive_solver lia.
Qed.

#[export] Instance min_size_laws : StrategyLaws MIN_SIZE_THRESHOLD minSizeThreshold.
Proof.
  split.
  - intros pool c hook Hs Hc [->|[->| ->]]%hooks_cases; simpl;
      rewrite ?min_size_exact by done; try case_decide;
      pose proof (counted_range MIN_SIZE_THRESHOLD c Hc); simpl in *; lia.
  - intros pool c Hs Hc Hc'. simpl in *. rewrite min_size_exact by done.
    rewrite min_size_exact by done. simpl. repeat case_decide; lia.
  - intros pool c Hs Hc. simpl. rewrite min_size_exact by done.
    unfold target_met; simpl; repeat case_decide; naive_solver lia.
Qed.

(** The laws hold of whatever [NewStrategy] returns. *)
Lemma NewStrategy_laws spec s :
  NewStrategy (Some spec) = Ok s -> StrategyLaws (strategy_type spec) s.
Proof.
  unfold NewStrategy. destruct (strategy_type spec); try done; intros E; simplify_eq; try apply _.
  destruct (min_size spec); [|done]. case_decide; simplify_eq. apply _.
Qed.

(** What is asked for, once AVAILABLE, puts the pool on target. *)
Lemma desired_reaches t s `{!StrategyLaws t s} pool c :
  size_ok pool -> counts_ok c -> target_met t pool (more_available (DesiredNewVMs s pool c) c).
Proof.
  intros Hs Hc. rewrite (desired_exact pool c Hs Hc).
  assert (forall n, counted t (more_available n c) = counted t c + n)%Z as En
    by (intros n; unfold counted; destruct t; simpl; lia).
  unfold target_met at 1. rewrite En.
  case_decide as Hd; [destruct Hd as [[Ht Hm]|Hm]|]; [left; simpl; split; [done|lia]|right; lia..].
Qed.

(** Whatever strategy a pool uses, no hook ever asks for a negative number of
    VMs or for more than the pool's size leaves room for, counting the VMs that
    strategy counts (leased ones do not count under IMMEDIATE_ON_LEASE), with
    the code's machine integers. *)
Theorem strategy_never_overprovisions spec s pool c hook :
  NewStrategy (Some spec) = Ok s -> size_ok pool -> counts_ok c ->
  hook ∈ [DesiredNewVMs s; OnVMClaimed s; OnVMDeleted s] ->
  (0 <= hook pool c)%Z /\
  (counted (strategy_type spec) c + hook pool c
     <= Z.max (pool_size pool) (counted (strategy_type spec) c))%Z.
Proof. intros E%NewStrategy_laws. by apply hooks_bounded. Qed.

(** The hooks are level-triggered: once the VMs a tick asked for are being
    provisioned, the next tick asks for none. *)
Theorem strategy_settles spec s pool c :
  NewStrategy (Some spec) = Ok s -> size_ok pool -> counts_ok c ->
  counts_ok (provisioned (DesiredNewVMs s pool c) c) ->
  DesiredNewVMs s pool (provisioned (DesiredNewVMs s pool c) c) = 0%Z.
Proof. intros E%NewStrategy_laws. by apply desired_settles. Qed.

(** The pool of the witnesses: size 5, REPLACE_ON_DELETE, one VM of each kind. *)
Definition strategy0 : ReplenishmentStrategy :=
  {| strategy_type := REPLACE_ON_DELETE; min_size := None |}.
Definition counts0 : VMCounts :=
  {| Available := 1; Claiming := 1; Leased := 1; Provisioning := 1; Quarantined := 1 |}.
Definition sized0 (n : Z) : PoolSpec :=
  {| pool_name := "web"; pool_namespace := "default"; microvm_template := None;
     pool_size := n; flintlock_hosts := []; replenishment_strategy := Some strategy0;
     create_commands := []; pre_lease_commands := [];
     hook_failure_policy := DELETE_AND_REPLACE; heartbeat_interval := None;
     heartbeat_expiry_threshold := None |}.

Lemma strategy_never_overprovisions_witness :
  NewStrategy (Some strategy0) = Ok replaceOnDelete /\
  (counted REPLACE_ON_DELETE counts0 + DesiredNewVMs replaceOnDelete (sized0 5) counts0 <= 5)%Z.
Proof.
  split; [reflexivity|].
  apply (strategy_never_overprovisions strategy0 replaceOnDelete (sized0 5) counts0
    (DesiredNewVMs replaceOnDelete)).
  - reflexivity.
  - vm_compute. split; [discriminate|reflexivity].
  - vm_compute. repeat split; discriminate.
  - by left.
Defined.

Lemma strategy_settles_witness :
  DesiredNewVMs replaceOnDelete (sized0 5) counts0 = 1%Z /\
  DesiredNewVMs replaceOnDelete (sized0 5)
    (provisioned (DesiredNewVMs replaceOnDelete (sized0 5) counts0) counts0) = 0%Z.
Proof.
  split; [reflexivity|].
  apply (strategy_settles strategy0 replaceOnDelete (sized0 5) counts0).
  - reflexivity.
  - vm_compute. split; [discriminate|reflexivity].
  - vm_compute. repeat split; discriminate.
  - vm_compute. repeat split; discriminate.
Defined.
