(* ===== verification/Deletion.v ===== *)
(** * Ending a VM: the deletion half of [src/internal/reconciler]

    Events, the deletion of a VM through flintlock, the bookkeeping after it,
    the hook failure policy and host drains ([provision.go], [drain.go]).

    Where the source detaches a context or bounds a call by a timeout, the
    model lets that call fail; logging is left out. *)

From stdpp Require Import base gmap strings list.
From Stdlib Require Import ZArith Lia.
From S2P Require Import Prelude Types Convert Store StoreOps Effects Flintlock.

(** The notifier a caller passes: nil, one that does nothing, or the pool
    manager. *)
Inductive Notifier := NilNotifier | NoopNotifier | ManagerNotifier.

Definition NotifyVMDeleted (n : Notifier) (poolName poolNamespace : string) : prog unit :=
  match n with
  | ManagerNotifier => do (ENotify (VMDeleted poolName poolNamespace))
  | _ => Ret tt
  end.

Definition NotifyVMClaimed (n : Notifier) (poolName poolNamespace : string) : prog unit :=
  match n with
  | ManagerNotifier => do (ENotify (VMClaimed poolName poolNamespace))
  | _ => Ret tt
  end.

(** A pool of which only the name and namespace are known. *)
Definition named_pool (name namespace : string) : PoolSpec :=
  {| pool_name := name; pool_namespace := namespace; microvm_template := None;
     pool_size := 0; flintlock_hosts := []; replenishment_strategy := None;
     create_commands := []; pre_lease_commands := [];
     hook_failure_policy := HOOK_FAILURE_POLICY_UNSPECIFIED;
     heartbeat_interval := None; heartbeat_expiry_threshold := None |}.

Definition vmPool (vm : VMRecord) : PoolSpec :=
  named_pool (vm_pool_name vm) (vm_pool_namespace vm).

Definition EmitEvent (pool : PoolSpec) (uid : string) (t : EventType) : prog unit :=
  let! createdAt := now in
  then! store (OpAppendEvent {| event_id := 0; event_pool_name := pool_name pool;
    event_vm_uid := uid; event_type := t; event_created_at := Some createdAt;
    event_payload_json := ""; event_pool_namespace := pool_namespace pool |}) in
  Ret tt.

(** ** Deleting a VM *)

(** Ask flintlock to delete the microvm and, once it has confirmed, remove the
    row.  The part of [EnsureVMDeletedCheckingPool] after the DELETING mark. *)
Definition delete_marked (vm : VMRecord) : prog (result error bool) :=
  let! client := Client (vm_flintlock_host vm) in
  match client with
  | Err err => Ret (Err err)
  | Ok client =>
      let! resp := do (ERpc client (DeleteMicroVM (vm_uid vm))) in
      let confirmed :=
        match resp with Ok _ => None | Err NotFound => None | Err c => Some c end in
      match confirmed with
      | Some c => Ret (Err (RpcErr c))
      | None =>
          let! poolExists := store (OpDeleteVMCheckingPool (vm_uid vm)) in
          Ret (match poolExists with Ok b => Ok b | Err e => Err (StoreErr e) end)
      end
  end.

Definition EnsureVMDeletedCheckingPool (vm : VMRecord) : prog (result error bool) :=
  if decide (vm_phase vm <> DELETING) then
    let! t := now in
    let vm := set_updated_at t (set_phase DELETING vm) in
    let! err := store (OpUpdateVM vm) in
    match err with
    | Err e => Ret (Err (StoreErr e))
    | Ok _ => delete_marked vm
    end
  else delete_marked vm.

Definition EnsureVMDeleted (vm : VMRecord) : prog (option error) :=
  let! r := EnsureVMDeletedCheckingPool vm in
  Ret (match r with Ok _ => None | Err e => Some e end).

(** [m] is false for a nil metrics registry. *)
Definition FinishVMRelease (pool : PoolSpec) (vm : VMRecord) (lease : LeaseRecord)
    (notifier : Notifier) (m : bool) : prog unit :=
  then! (if m then
    then! do (EMetric (VMRelease (pool_name pool) (pool_namespace pool) "api")) in
    let! t := now in
    do (EMetric (LeaseDuration (pool_name pool) (pool_namespace pool)
      (AsDuration (t - default 0%Z (lease_claimed_at lease)))))
  else Ret tt) in
  then! store (OpDeleteLease (lease_id lease)) in
  then! EmitEvent pool (vm_uid vm) VM_DELETED_ON_RELEASE in
  NotifyVMDeleted notifier (pool_name pool) (pool_namespace pool).

Definition FinishVMDeletion (pool : PoolSpec) (vm : VMRecord) (notifier : Notifier) (m : bool)
    : prog unit :=
  let expired :=
    then! EmitEvent pool (vm_uid vm) VM_DELETED_DUE_TO_EXPIRY in
    NotifyVMDeleted notifier (pool_name pool) (pool_namespace pool) in
  if decide (GetLeaseId vm <> "") then
    let! lease := store (OpGetLease (GetLeaseId vm)) in
    match lease with
    | Ok lease => FinishVMRelease pool vm lease notifier m
    | Err _ => expired
    end
  else expired.

(** ** Hook failures *)

Definition hookCreate : string := "create".
Definition hookPreLease : string := "pre_lease".

Definition hookFailureCleanupTimeout : Duration := 30000000000.

Definition cleanupDeleteTimeout (deadline : option Timestamp) (t : Timestamp) : Duration :=
  match deadline with
  | Some d => Z.min hookFailureCleanupTimeout (AsDuration (d - t))
  | None => hookFailureCleanupTimeout
  end.

(** Both the mark and the delete are best-effort: their errors are logged. *)
Definition deleteAfterHookFailure (vm : VMRecord) : prog unit :=
  let! t := now in
  let vm := set_updated_at t (set_lease_id None (set_phase DELETING vm)) in
  then! store (OpUpdateVM vm) in
  then! EnsureVMDeleted vm in
  Ret tt.

Definition ApplyHookFailurePolicy (pool : PoolSpec) (vm : VMRecord) (hook : string) (m : bool)
    : prog unit :=
  then! match hook_failure_policy pool with
        | QUARANTINE =>
            let! t := now in
            let vm := set_updated_at t (set_lease_id None (set_phase QUARANTINED vm)) in
            then! store (OpUpdateVM vm) in
            Ret tt
        | _ => deleteAfterHookFailure vm
        end in
  then! (if m then do (EMetric (HookFailure hook (pool_name pool) (pool_namespace pool)))
         else Ret tt) in
  EmitEvent pool (vm_uid vm) VM_HOOK_FAILED.

(** The cleanup of a microvm that flintlock created but the store could not
    record. *)
Definition deleteOrphan (vm : VMRecord) : prog unit :=
  let! t := now in
  let vm := set_updated_at t (set_phase DELETING vm) in
  let! recordErr := store (OpCreateVM vm) in
  match recordErr with
  | Ok _ => then! EnsureVMDeleted vm in Ret tt
  | Err _ =>
      let! client := Client (vm_flintlock_host vm) in
      match client with
      | Ok client => then! do (ERpc client (DeleteMicroVM (vm_uid vm))) in Ret tt
      | Err _ => Ret tt
      end
  end.

(** ** Draining a host: [drain.go] *)

(** One goroutine of [DeleteDrainedVMs]. *)
Definition delete_drained (notifier : Notifier) (vm : VMRecord) : prog unit :=
  let! err := EnsureVMDeleted vm in
  match err with
  | None => NotifyVMDeleted notifier (vm_pool_name vm) (vm_pool_namespace vm)
  | Some _ => Ret tt
  end.

(** [flint] is false for a nil client pool. *)
Definition DeleteDrainedVMs (flint : bool) (vms : list VMRecord) (notifier : Notifier) : prog unit :=
  if decide (vms = []) then Ret tt else
  then! for_each vms (fun vm => EmitEvent (vmPool vm) (vm_uid vm) VM_DELETED_ON_HOST_DRAIN) in
  if flint then for_each vms (fun vm => go (delete_drained notifier vm)) else Ret tt.
