(* ===== verification/Provision.v ===== *)
(** * Provisioning a VM: [src/internal/reconciler/provision.go], [hostpick.go]

    Choosing a host, reserving the placement, creating the microvm, recording
    it, and bringing it to AVAILABLE through the create hooks. *)

From stdpp Require Import base gmap strings list.
From Stdlib Require Import ZArith Lia.
From S2P Require Import Prelude Types Convert Store StoreOps Effects Flintlock Deletion.

(** ** hostpick.go *)

(** [cordoned[h.GetName()] = h.GetCordoned()] over the registered hosts. *)
Definition cordoned_map (registered : list Host) : gmap string bool :=
  fold_left (fun m h => <[host_name h := host_cordoned h]> m) registered ∅.

(** The ineligible names; a pool may name a host twice. *)
Definition ineligible_names (registered : list Host) (names : list string) : list string :=
  filter (fun n => default true (cordoned_map registered !! n) = true) names.

Definition ineligibleHosts (pool : PoolSpec) : prog (result error (list string)) :=
  let! registered := store OpListHosts in
  Ret (match registered with
       | Err e => Err (StoreErr e)
       | Ok registered => Ok (ineligible_names registered (flintlock_hosts pool))
       end).

(** A VM that counts toward its host's load. *)
Definition loads (host : string) (vm : VMRecord) : Prop :=
  vm_flintlock_host vm = host /\ vm_phase vm <> DELETING /\ vm_phase vm <> FAILED.

#[export] Instance loads_dec h vm : Decision (loads h vm).
Proof. unfold loads; apply _. Defined.

Definition load (vms : list VMRecord) (host : string) : nat := length (filter (loads host) vms).

(** The loop over [hosts[1:]]: a strictly lower count replaces the best. *)
Fixpoint least_loaded (vms : list VMRecord) (best : string) (hosts : list string) : string :=
  match hosts with
  | [] => best
  | h :: hosts =>
      least_loaded vms (if decide (load vms h < load vms best) then h else best) hosts
  end.

Definition PickHost (pool : PoolSpec) (ineligible : list string) : prog (result error string) :=
  match filter (fun h => h ∉ ineligible) (flintlock_hosts pool) with
  | [] => Ret (Err ErrNoEligibleHost)
  | first :: rest =>
      let! vms := store (OpListVMsByPool (pool_name pool) (pool_namespace pool) None) in
      Ret (match vms with
           | Err e => Err (StoreErr e)
           | Ok vms => Ok (least_loaded vms first rest)
           end)
  end.

(** ** provision.go *)

Record ProvisionConfig := {
  CreatePollInterval : Duration;
  CreatePollTimeout : Duration;
  GuestAgentInterval : Duration;
  GuestAgentTimeout : Duration;
  ExecTimeoutSeconds : Z
}.

Definition DefaultProvisionConfig : ProvisionConfig :=
  {| CreatePollInterval := 2000000000; CreatePollTimeout := 60000000000;
     GuestAgentInterval := 1000000000; GuestAgentTimeout := 30000000000;
     ExecTimeoutSeconds := 0 |}.

Definition or_default (d def : Duration) : Duration := if decide (d <= 0)%Z then def else d.

(** [NewProvisioner]'s configuration. *)
Definition NewProvisioner (cfg : ProvisionConfig) : ProvisionConfig :=
  let def := DefaultProvisionConfig in
  {| CreatePollInterval := or_default (CreatePollInterval cfg) (CreatePollInterval def);
     CreatePollTimeout := or_default (CreatePollTimeout cfg) (CreatePollTimeout def);
     GuestAgentInterval := or_default (GuestAgentInterval cfg) (GuestAgentInterval def);
     GuestAgentTimeout := or_default (GuestAgentTimeout cfg) (GuestAgentTimeout def);
     ExecTimeoutSeconds := ExecTimeoutSeconds cfg |}.

(** The spec sent for a new VM. *)
Definition instance_spec (pool : PoolSpec) (id : string) : MicroVMSpec :=
  let spec := default empty_MicroVMSpec (microvm_template pool) in
  {| spec_id := id;
     spec_namespace :=
       if decide (spec_namespace spec = "") then pool_namespace pool else spec_namespace spec;
     allow_guest_agent := true;
     interfaces := interfaces spec;
     spec_rest := spec_rest spec |}.

(** [waitCreated] polls once more than the number of ticks before the
    deadline. *)
Fixpoint wait_created (client : connRef) (uid : string) (rounds : nat) : prog (option error) :=
  let! resp := do (ERpc client (GetMicroVM uid)) in
  match resp with
  | Err DeadlineExceeded => Ret (Some ErrCreateTimedOut)
  | Err c => Ret (Some (RpcErr c))
  | Ok m =>
      match mvm_state m with
      | CREATED_STATE => Ret None
      | FAILED_STATE => Ret (Some ErrCreateFailed)
      | _ =>
          match rounds with
          | O => Ret (Some ErrCreateTimedOut)
          | S rounds => wait_created client uid rounds
          end
      end
  end.

Definition waitCreated (client : connRef) (uid : string) : prog (option error) :=
  let! rounds := do EBudget in
  wait_created client uid rounds.

(** The Provisioner's [applyHookFailurePolicy]: skipped for a VM that was
    deleted or marked DELETING meanwhile. *)
Definition applyHookFailurePolicy (pool : PoolSpec) (vm : VMRecord) : prog unit :=
  let! cur := store (OpGetVM (vm_uid vm)) in
  match cur with
  | Err ErrNotFound => Ret tt
  | Ok cur =>
      if decide (vm_phase cur = DELETING) then Ret tt
      else ApplyHookFailurePolicy pool vm hookCreate true
  | Err _ => ApplyHookFailurePolicy pool vm hookCreate true
  end.

(** The record is updated in place; it is returned with the error. *)
Definition updatePhase (pool : PoolSpec) (vm : VMRecord) (phase : VMPhase)
    : prog (VMRecord * option error) :=
  let! t := now in
  let vm := set_updated_at t (set_phase phase vm) in
  let! err := store (OpUpdateVM vm) in
  match err with
  | Ok _ => Ret (vm, None)
  | Err e => then! applyHookFailurePolicy pool vm in Ret (vm, Some (StoreErr e))
  end.

(** The loop over a pool's commands: the first that errors or exits non-zero
    ends it. *)
Fixpoint run_commands (client : connRef) (uid : string) (timeout : Z) (cmds : list string)
    : prog (option error) :=
  match cmds with
  | [] => Ret None
  | cmd :: cmds =>
      let! r := Exec client uid cmd timeout in
      match r with
      | Err _ => Ret (Some ErrHookFailed)
      | Ok r =>
          if decide (exitCode r <> 0)%Z then Ret (Some ErrHookFailed)
          else run_commands client uid timeout cmds
      end
  end.

(** [p.applyHookFailurePolicy(ctx, pool, vm); return err]. *)
Definition fail_with (pool : PoolSpec) (vm : VMRecord) (err : error) : prog (option error) :=
  then! applyHookFailurePolicy pool vm in
  Ret (Some err).

(** Provision from the create hooks on: the VM is CREATE_HOOK_RUNNING. *)
Definition provision_hooks (cfg : ProvisionConfig) (pool : PoolSpec) (host : string) (vm : VMRecord)
    : prog (option error) :=
  let! execClient := ExecClient host in
  match execClient with
  | Err err => fail_with pool vm err
  | Ok execClient =>
      let! err := WaitReady execClient (vm_uid vm) (GuestAgentInterval cfg) in
      match err with
      | Some _ => fail_with pool vm ErrHookFailed
      | None =>
          let! hookStart := now in
          let! err := run_commands execClient (vm_uid vm) (ExecTimeoutSeconds cfg)
                        (create_commands pool) in
          match err with
          | Some err => fail_with pool vm err
          | None =>
              let! t := now in
              then! do (EMetric (HookDuration hookCreate (pool_name pool) (pool_namespace pool)
                          (AsDuration (t - hookStart)))) in
              let! (_, err) := updatePhase pool vm AVAILABLE in
              match err with
              | Some err => Ret (Some err)
              | None => then! EmitEvent pool (vm_uid vm) VM_AVAILABLE in Ret None
              end
          end
      end
  end.

(** Provision once the VM's row exists. *)
Definition provision_recorded (cfg : ProvisionConfig) (pool : PoolSpec) (host : string)
    (client : connRef) (vm : VMRecord) : prog (option error) :=
  then! EmitEvent pool (vm_uid vm) VM_PROVISIONED in
  let! err := waitCreated client (vm_uid vm) in
  match err with
  | Some err => fail_with pool vm err
  | None =>
      let! (vm, err) := updatePhase pool vm CREATE_HOOK_RUNNING in
      match err with
      | Some err => Ret (Some err)
      | None => provision_hooks cfg pool host vm
      end
  end.

(** [release]: best-effort. *)
Definition release (id : string) : prog unit :=
  then! store (OpReleasePlacement id) in
  Ret tt.

Definition new_vm (pool : PoolSpec) (host uid : string) (t : Timestamp) : VMRecord :=
  {| vm_uid := uid; vm_pool_name := pool_name pool; vm_flintlock_host := host;
     vm_phase := PROVISIONING; vm_lease_id := None; vm_created_at := Some t;
     vm_updated_at := Some t; vm_pool_namespace := pool_namespace pool |}.

Section provision.
Context `{Semver}.

(** Provision once the placement is reserved.  The deferred [release] runs on
    every return before the VM's row exists; once it does, [release] is called
    there and the deferred call does nothing. *)
Definition provision_reserved (cfg : ProvisionConfig) (pool : PoolSpec) (host id : string)
    : prog (option error) :=
  let! client := Client host in
  match client with
  | Err err => then! release id in Ret (Some err)
  | Ok client =>
      let! err := Pool_CheckVersion host in
      match err with
      | Some err => then! release id in Ret (Some err)
      | None =>
          let! resp := do (ERpc client (CreateMicroVM (instance_spec pool id))) in
          match resp with
          | Err c => then! release id in Ret (Some (RpcErr c))
          | Ok uid =>
              if decide (uid = "") then then! release id in Ret (Some (ErrPlain "no uid")) else
              let! t := now in
              let vm := new_vm pool host uid t in
              let! err := store (OpCreateVM vm) in
              match err with
              | Err e =>
                  then! deleteOrphan vm in
                  then! release id in
                  Ret (Some (StoreErr e))
              | Ok _ =>
                  then! release id in
                  provision_recorded cfg pool host client vm
              end
          end
      end
  end.

Definition provision_body (cfg : ProvisionConfig) (pool : PoolSpec) : prog (option error) :=
  let! ineligible := ineligibleHosts pool in
  match ineligible with
  | Err err => Ret (Some err)
  | Ok ineligible =>
      let! host := PickHost pool ineligible in
      match host with
      | Err err => Ret (Some err)
      | Ok host =>
          let! uuid := do EUUID in
          let id := pool_name pool +:+ "-" +:+ String.substring 0 8 uuid in
          let! err := store (OpReservePlacement id host (pool_name pool) (pool_namespace pool)) in
          match err with
          | Err ErrHostCordoned | Err ErrHostNotRegistered => Ret (Some ErrNoEligibleHost)
          | Err e => Ret (Some (StoreErr e))
          | Ok _ => provision_reserved cfg pool host id
          end
      end
  end.

Definition Provision (cfg : ProvisionConfig) (pool : PoolSpec) : prog (option error) :=
  let! start := now in
  let! err := provision_body cfg pool in
  let! t := now in
  then! do (EMetric (ProvisionDuration (pool_name pool) (pool_namespace pool)
              (AsDuration (t - start)))) in
  Ret err.
End provision.
