(* ===== verification/Reconciler.v ===== *)
(** * The reconciler of a pool: [src/internal/reconciler/reconciler.go]

    Counting a pool's VMs, the static-network cap, one reconcile pass, the
    control loop, and the recovery of VMs a dead process left behind. *)

From stdpp Require Import base gmap strings list.
From Stdlib Require Import ZArith Lia.
From S2P Require Import Prelude Types Convert Store StoreOps Effects Flintlock Deletion.
From S2P Require Import Strategy Provision.

(** ** Counting *)

(** One VM's contribution, given the ids of the committed leases. *)
Definition count_vm (committed : list string) (counts : VMCounts) (vm : VMRecord) : VMCounts :=
  let 'Build_VMCounts a c l p q := counts in
  match vm_phase vm with
  | AVAILABLE => Build_VMCounts (a + 1) c l p q
  | PRE_LEASE_HOOK_RUNNING => Build_VMCounts a (c + 1) l p q
  | LEASED =>
      if decide (GetLeaseId vm ∈ committed) then Build_VMCounts a c (l + 1) p q
      else Build_VMCounts a (c + 1) l p q
  | PROVISIONING | CREATE_HOOK_RUNNING => Build_VMCounts a c l (p + 1) q
  | QUARANTINED => Build_VMCounts a c l p (q + 1)
  | _ => counts
  end.

Definition CountVMs (poolName poolNamespace : string) : prog (result error VMCounts) :=
  let! vms := store (OpListVMsByPool poolName poolNamespace None) in
  match vms with
  | Err e => Ret (Err (StoreErr e))
  | Ok vms =>
      let! leases := store (OpListLeases
        (Some {| ref_name := poolName; ref_namespace := poolNamespace |})) in
      Ret (match leases with
           | Err e => Err (StoreErr e)
           | Ok leases => Ok (fold_left (count_vm (lease_id <$> leases)) vms no_vms)
           end)
  end.

(** ** One pass *)

Definition TemplateHasStaticNetwork (template : option MicroVMSpec) : bool :=
  existsb (fun i => negb (bool_decide (guest_mac i = "")) || bool_decide (is_Some (address i)))
    (interfaces (default empty_MicroVMSpec template)).

Definition capForStaticNetwork (pool : PoolSpec) : prog Z :=
  let! vms := store (OpListVMsByPool (pool_name pool) (pool_namespace pool) None) in
  Ret (match vms with
       | Err _ => 0%Z
       | Ok vms => if decide (0 < length vms) then 0%Z else 1%Z
       end).

Section reconcile.
Context `{Semver}.

(** [n] goroutines, each one Provision whose error is only logged. *)
Fixpoint start_provisions (cfg : ProvisionConfig) (pool : PoolSpec) (n : nat) : prog unit :=
  match n with
  | O => Ret tt
  | S n =>
      then! go (then! Provision cfg pool in Ret tt) in
      start_provisions cfg pool n
  end.

Definition provisionN (cfg : ProvisionConfig) (pool : PoolSpec) (n : Z) : prog unit :=
  let! n :=
    if bool_decide (0 < n)%Z && TemplateHasStaticNetwork (microvm_template pool)
    then capForStaticNetwork pool else Ret n in
  start_provisions cfg pool (Z.to_nat n).

Definition reconcile (cfg : ProvisionConfig) (pool : PoolSpec)
    (desired : PoolSpec -> VMCounts -> Z) : prog unit :=
  let! counts := CountVMs (pool_name pool) (pool_namespace pool) in
  match counts with
  | Err _ => Ret tt
  | Ok counts => provisionN cfg pool (desired pool counts)
  end.

(** ** The control loop *)

(** What woke the loop up; [ctx.Done()] ends it. *)
Inductive trigger := Tick | ClaimedNotification | DeletedNotification.

Definition hook_for (s : Strategy) (t : trigger) : PoolSpec -> VMCounts -> Z :=
  match t with
  | Tick => DesiredNewVMs s
  | ClaimedNotification => OnVMClaimed s
  | DeletedNotification => OnVMDeleted s
  end.

(** [Run], for the triggers that arrive before the context is done: it
    reconciles at the start and on each of them. *)
Definition Run (cfg : ProvisionConfig) (pool : PoolSpec) (s : Strategy) (triggers : list trigger)
    : prog unit :=
  then! reconcile cfg pool (DesiredNewVMs s) in
  for_each triggers (fun t => reconcile cfg pool (hook_for s t)).

End reconcile.

(** The notification channels, of capacity [notifyBuffer] = 1: a send that
    finds one full is dropped. *)
Definition notifyBuffer : nat := 1.
Record signals := { claimed : nat; deleted : nat }.

Definition notify (pending : nat) : nat := if decide (pending < notifyBuffer) then S pending else pending.
Definition Reconciler_NotifyVMClaimed (s : signals) : signals :=
  {| claimed := notify (claimed s); deleted := deleted s |}.
Definition Reconciler_NotifyVMDeleted (s : signals) : signals :=
  {| claimed := claimed s; deleted := notify (deleted s) |}.

(** ** Construction *)

Definition DefaultTickInterval : Duration := 10000000000.

Record Reconciler := {
  rc_pool : PoolSpec;
  rc_strategy : Strategy;
  rc_provisioner : ProvisionConfig;
  rc_tickInterval : Duration;
  rc_signals : signals
}.

(** A nil pool is [None]. *)
Definition Reconciler_New (pool : option PoolSpec) (tickInterval : Duration) (pcfg : ProvisionConfig)
    : result error Reconciler :=
  match pool with
  | None => Err (ErrPlain "reconciler: pool is required")
  | Some pool =>
      match NewStrategy (replenishment_strategy pool) with
      | Err err => Err err
      | Ok strategy =>
          Ok {| rc_pool := pool; rc_strategy := strategy; rc_provisioner := NewProvisioner pcfg;
                rc_tickInterval := or_default tickInterval DefaultTickInterval;
                rc_signals := {| claimed := 0; deleted := 0 |} |}
      end
  end.

(** ** Recovery at startup *)

(** Mark the VMs for which [keep] is false DELETING, counting them; the first
    failed write ends the recovery with the count so far. *)
Fixpoint mark_abandoned (keep : VMRecord -> bool) (vms : list VMRecord) (recovered : Z)
    : prog (Z * option error) :=
  match vms with
  | [] => Ret (recovered, None)
  | vm :: vms =>
      if keep vm then mark_abandoned keep vms recovered else
      let! t := now in
      let! err := store (OpUpdateVM (set_updated_at t (set_phase DELETING vm))) in
      match err with
      | Err e => Ret (recovered, Some (StoreErr e))
      | Ok _ => mark_abandoned keep vms (recovered + 1)
      end
  end.

Fixpoint recover_phases (keep : VMRecord -> bool) (phases : list VMPhase) (recovered : Z)
    : prog (Z * option error) :=
  match phases with
  | [] => Ret (recovered, None)
  | phase :: phases =>
      let! vms := store (OpListVMsByPhase phase) in
      match vms with
      | Err e => Ret (recovered, Some (StoreErr e))
      | Ok vms =>
          let! (recovered, err) := mark_abandoned keep vms recovered in
          match err with
          | Some err => Ret (recovered, Some err)
          | None => recover_phases keep phases recovered
          end
      end
  end.

Definition RecoverAbandonedClaims : prog (Z * option error) :=
  let! leases := store (OpListLeases None) in
  match leases with
  | Err e => Ret (0%Z, Some (StoreErr e))
  | Ok leases =>
      let committed := lease_id <$> leases in
      recover_phases (fun vm => bool_decide (GetLeaseId vm ∈ committed))
        [PRE_LEASE_HOOK_RUNNING; LEASED] 0
  end.

Definition RecoverAbandonedProvisions : prog (Z * option error) :=
  recover_phases (fun _ => false) [PROVISIONING; CREATE_HOOK_RUNNING] 0.
