(* ===== verification/Manager.v ===== *)
(** * The pool manager: [src/internal/poolmanager/manager.go]

    One reconciler goroutine per pool.  The manager's fields are guarded by
    [m.mu]; each of its critical sections, and each step a reconciler's
    goroutine takes outside them that the manager can observe (its context is
    cancelled, its [done] channel is closed), is one action on the state, and
    a run is any sequence of them. *)

From stdpp Require Import base gmap strings list relations.
From Stdlib Require Import ZArith Lia.
From S2P Require Import Prelude Types Convert Store StoreOps Effects Strategy.
From S2P Require Import Flintlock Deletion Provision Reconciler Concrete.

Notation poolKey := (string * string)%type.

(** A [*reconcilerHandle]: the pointer, as an index of the goroutines started
    so far. *)
Definition handle := nat.

(** How far the goroutine of [StartReconciler] is: in [runner.Run], past
    [close(h.done)], or past the rest of [exited]. *)
Inductive stage := InRun | DoneClosed | Exited.

#[export] Instance stage_eq_dec : EqDecision stage.
Proof. solve_decision. Defined.

Record goroutine := {
  g_key : poolKey;
  g_spec : PoolSpec;
  g_signals : signals;
  g_cancelled : bool;
  g_stage : stage
}.

Record Manager := {
  handles : gmap poolKey handle;
  exiting : gmap poolKey (list handle);
  stopped : bool;
  goroutines : gmap handle goroutine
}.

Definition New : Manager :=
  {| handles := ∅; exiting := ∅; stopped := false; goroutines := ∅ |}.

Definition key_of (spec : PoolSpec) : poolKey := (pool_name spec, pool_namespace spec).

(** ** Operations *)

Definition zero_ProvisionConfig : ProvisionConfig :=
  {| CreatePollInterval := 0; CreatePollTimeout := 0; GuestAgentInterval := 0; GuestAgentTimeout := 0;
     ExecTimeoutSeconds := 0 |}.
Definition newReconciler (spec : PoolSpec) : result error Reconciler :=
  Reconciler_New (Some spec) 0 zero_ProvisionConfig.

(** The whole of [StartReconciler]: one critical section that ends with the
    [go] statement. *)
Definition StartReconciler (spec : PoolSpec) (m : Manager) : Manager * option error :=
  match handles m !! key_of spec with
  | Some _ => (m, Some (ErrPlain "already running"))
  | None =>
      if stopped m then (m, Some (ErrPlain "manager is shutting down")) else
      match newReconciler spec with
      | Err err => (m, Some err)
      | Ok runner =>
          let h := fresh (dom (goroutines m)) in
          ({| handles := <[key_of spec := h]> (handles m); exiting := exiting m;
              stopped := stopped m;
              goroutines := <[h := {| g_key := key_of spec; g_spec := rc_pool runner;
                g_signals := rc_signals runner; g_cancelled := false;
                g_stage := InRun |}]> (goroutines m) |}, None)
      end
  end.

(** [Seed], given the pools [ListPools] returned: the first failure ends it. *)
Fixpoint seed (specs : list PoolSpec) (m : Manager) : Manager * option error :=
  match specs with
  | [] => (m, None)
  | spec :: specs =>
      match StartReconciler spec m with
      | (m, Some err) => (m, Some err)
      | (m, None) => seed specs m
      end
  end.
Definition Seed (pools : result StoreError (list PoolSpec)) (m : Manager)
    : Manager * option error :=
  match pools with
  | Err e => (m, Some (StoreErr e))
  | Ok specs => seed specs m
  end.

(** Is [h.done] open? *)
Definition in_run (h : handle) (m : Manager) : bool :=
  match goroutines m !! h with
  | Some g => bool_decide (g_stage g = InRun)
  | None => false
  end.

(** The critical section of [cancelAndForget]; the handle to cancel. *)
Definition cancelAndForget (key : poolKey) (m : Manager) : Manager * option handle :=
  match handles m !! key with
  | None => (m, None)
  | Some h =>
      ({| handles := delete key (handles m);
          exiting := if in_run h m
                     then <[key := default [] (exiting m !! key) ++ [h]]> (exiting m)
                     else exiting m;
          stopped := stopped m; goroutines := goroutines m |}, Some h)
  end.

Definition set_stage (s : stage) (g : goroutine) : goroutine :=
  {| g_key := g_key g; g_spec := g_spec g; g_signals := g_signals g;
     g_cancelled := g_cancelled g; g_stage := s |}.
Definition set_cancelled (g : goroutine) : goroutine :=
  {| g_key := g_key g; g_spec := g_spec g; g_signals := g_signals g;
     g_cancelled := true; g_stage := g_stage g |}.
Definition set_signals (f : signals -> signals) (g : goroutine) : goroutine :=
  {| g_key := g_key g; g_spec := g_spec g; g_signals := f (g_signals g);
     g_cancelled := g_cancelled g; g_stage := g_stage g |}.

Definition alter_goroutine (f : goroutine -> goroutine) (h : handle) (m : Manager) : Manager :=
  {| handles := handles m; exiting := exiting m; stopped := stopped m;
     goroutines := alter f h (goroutines m) |}.

(** [h.cancel()]. *)
Definition cancel (h : handle) (m : Manager) : Manager := alter_goroutine set_cancelled h m.

(** [StopReconciler]: [cancelAndForget] and what follows its critical section. *)
Definition StopReconciler (key : poolKey) (m : Manager) : Manager :=
  match cancelAndForget key m with
  | (m, Some h) => cancel h m
  | (m, None) => m
  end.

(** [exited]: [close(h.done)], once [runner.Run] has returned ... *)
Definition close_done (h : handle) (m : Manager) : Manager :=
  if in_run h m then alter_goroutine (set_stage DoneClosed) h m else m.

(** ... and its critical section. *)
Definition exited (h : handle) (m : Manager) : Manager :=
  match goroutines m !! h with
  | Some g =>
      if decide (g_stage g = DoneClosed) then
        let rest := filter (fun e => e <> h) (default [] (exiting m !! g_key g)) in
        {| handles := handles m;
           exiting := match rest with
                      | [] => delete (g_key g) (exiting m)
                      | _ => <[g_key g := rest]> (exiting m)
                      end;
           stopped := stopped m;
           goroutines := <[h := set_stage Exited g]> (goroutines m) |}
      else m
  | None => m
  end.

Definition Running (key : poolKey) (m : Manager) : bool := bool_decide (is_Some (handles m !! key)).

(** [NotifyVMClaimed] and [NotifyVMDeleted]: the pool's runner, if any. *)
Definition notify_runner (f : signals -> signals) (key : poolKey) (m : Manager) : Manager :=
  match handles m !! key with
  | Some h => alter_goroutine (set_signals f) h m
  | None => m
  end.
Definition NotifyVMClaimed (key : poolKey) (m : Manager) : Manager :=
  notify_runner Reconciler_NotifyVMClaimed key m.
Definition NotifyVMDeleted (key : poolKey) (m : Manager) : Manager :=
  notify_runner Reconciler_NotifyVMDeleted key m.

(** The critical section of [Run], once the root context is done; the handles
    to cancel. *)
Definition shutdown (m : Manager) : Manager * list handle :=
  ({| handles := ∅; exiting := exiting m; stopped := true; goroutines := goroutines m |},
   (map_to_list (handles m)).*2).

(** What [m.wg.Wait()] at the end of [Run] waits for. *)
Definition all_exited (m : Manager) : Prop :=
  map_Forall (fun _ g => g_stage g = Exited) (goroutines m).

(** ** Runs *)

Inductive action :=
  | AStart (spec : PoolSpec)
  | AForget (key : poolKey)
  | ACancel (h : handle)
  | AClose (h : handle)
  | AExited (h : handle)
  | AClaimed (key : poolKey)
  | ADeleted (key : poolKey)
  | AShutdown.

Definition act (a : action) (m : Manager) : Manager :=
  match a with
  | AStart spec => (StartReconciler spec m).1
  | AForget key => (cancelAndForget key m).1
  | ACancel h => cancel h m
  | AClose h => close_done h m
  | AExited h => exited h m
  | AClaimed key => NotifyVMClaimed key m
  | ADeleted key => NotifyVMDeleted key m
  | AShutdown => (shutdown m).1
  end.

Definition step (P : action -> Prop) (m m' : Manager) : Prop := exists a, P a /\ m' = act a m.
Definition reachable (m : Manager) : Prop := rtc (step (fun _ => True)) New m.

(** No reconciler is started for the pool. *)
Definition not_starting (key : poolKey) (a : action) : Prop :=
  match a with AStart spec => key_of spec <> key | _ => True end.

Section stop_and_wait.
Context (P : action -> Prop) (key : poolKey).

(** [StopReconcilerAndWait]'s loop, actions [P] of others in between: it returns
    nil once it has received from the [done] of each, or the context's error. *)
Inductive waits : list handle -> Manager -> Manager -> option code -> Prop :=
  | waits_nil m : waits [] m m None
  | waits_done h l m m1 m' err :
      rtc (step P) m m1 -> in_run h m1 = false -> waits l m1 m' err -> waits (h :: l) m m' err
  | waits_ctx h l m m1 c : rtc (step P) m m1 -> waits (h :: l) m m1 (Some c).

(** [StopReconcilerAndWait]: forget, cancel, copy the exiting list, wait. *)
Inductive StopReconcilerAndWait (m m' : Manager) (err : option code) : Prop :=
  | stop_and_wait m1 m2 :
      rtc (step P) (act (AForget key) m) m1 ->
      rtc (step P) (match (cancelAndForget key m).2 with Some h => cancel h m1 | None => m1 end) m2 ->
      waits (default [] (exiting m2 !! key)) m2 m' err ->
      StopReconcilerAndWait m m' err.
End stop_and_wait.

(** ** The invariant *)

Definition exiting_of (key : poolKey) (m : Manager) : list handle := default [] (exiting m !! key).

Record inv (m : Manager) : Prop := {
  (** a tracked handle is a goroutine of its pool *)
  inv_handles k h : handles m !! k = Some h ->
    exists g, goroutines m !! h = Some g /\ g_key g = k;
  (** so is an exiting one, which has not finished and is not tracked *)
  inv_exiting k h : h ∈ exiting_of k m ->
    exists g, goroutines m !! h = Some g /\ g_key g = k /\ g_stage g <> Exited /\
      handles m !! k <> Some h;
  (** until the shutdown no running goroutine is lost sight of *)
  inv_tracked h g : stopped m = false -> goroutines m !! h = Some g -> g_stage g = InRun ->
    handles m !! g_key g = Some h \/ h ∈ exiting_of (g_key g) m;
  inv_nonempty k : exiting m !! k <> Some []
}.

Lemma inv_New : inv New.
Proof. split; try done. intros k h Hh. by apply not_elem_of_nil in Hh. Qed.

Lemma in_run_true h m : in_run h m = true <-> exists g, goroutines m !! h = Some g /\ g_stage g = InRun.
Proof.
  unfold in_run. destruct (goroutines m !! h) as [g|]; [rewrite bool_decide_eq_true|]; naive_solver.
Qed.

Lemma in_run_false h m g :
  in_run h m = false -> goroutines m !! h = Some g -> g_stage g <> InRun.
Proof. unfold in_run. intros Hf Hg. rewrite Hg in Hf. by apply bool_decide_eq_false in Hf. Qed.

Lemma fresh_goroutine m h g : goroutines m !! h = Some g -> h <> fresh (dom (goroutines m)).
Proof.
  intros Hg ->. apply (is_fresh (dom (goroutines m))). apply elem_of_dom. by eexists.
Qed.

Lemma inv_start spec m : inv m -> inv (StartReconciler spec m).1.
Proof.
  intros I. unfold StartReconciler. destruct (handles m !! key_of spec) as [h0|] eqn:Eh; [done|].
  destruct (stopped m) eqn:Es; [done|]. unfold newReconciler; simpl; destruct (NewStrategy _); [|done]; simpl.
  set (h := fresh (dom (goroutines m))). split; simpl.
  - intros k h' [[<- <-]|[Hne Hk]]%lookup_insert_Some.
    + rewrite lookup_insert_eq. by eexists.
    + destruct (inv_handles _ I k h' Hk) as (g & Hg & Hgk). exists g.
      rewrite lookup_insert_ne; [done|]. intros E. by apply (fresh_goroutine _ _ _ Hg).
  - intros k h' Hin. destruct (inv_exiting _ I k h' Hin) as (g & Hg & Hgk & Hst & Hnh).
    pose proof (fresh_goroutine _ _ _ Hg) as Hf. exists g. rewrite lookup_insert_ne by done.
    split_and!; [done..|]. intros [[_ E]|[_ E]]%lookup_insert_Some; [by apply Hf|done].
  - intros h' g _ [[<- <-]|[Hne Hg]]%lookup_insert_Some Hst; simpl.
    + left. apply lookup_insert_eq.
    + destruct (inv_tracked _ I h' g Es Hg Hst) as [Ht|Ht]; [left|by right].
      rewrite lookup_insert_ne; [done|]. intros E. congruence.
  - apply I.
Qed.

Lemma inv_forget key m : inv m -> inv (cancelAndForget key m).1.
Proof.
  intros I. unfold cancelAndForget. destruct (handles m !! key) as [h|] eqn:Eh; [|done]. simpl.
  destruct (inv_handles _ I key h Eh) as (g & Hg & Hgk).
  assert (forall k, exiting_of k {| handles := delete key (handles m);
      exiting := if in_run h m then <[key := default [] (exiting m !! key) ++ [h]]> (exiting m)
                 else exiting m; stopped := stopped m; goroutines := goroutines m |} =
    if decide (k = key /\ in_run h m = true) then exiting_of key m ++ [h] else exiting_of k m) as Hex.
  { intros k. unfold exiting_of. simpl. destruct (in_run h m).
    - destruct (decide (k = key)) as [->|Hne].
      + rewrite decide_True by done. by rewrite lookup_insert_eq.
      + rewrite decide_False by naive_solver. by rewrite lookup_insert_ne.
    - by rewrite decide_False by naive_solver. }
  split.
  - intros k h'. simpl. intros [_ Hk]%lookup_delete_Some. by apply I.
  - intros k h' Hin. rewrite Hex in Hin. simpl.
    assert (h' ∈ exiting_of k m \/ k = key /\ h' = h /\ g_stage g = InRun) as [Hold|(-> & -> & Hst)].
    { case_decide as Hd; [|by left]. destruct Hd as [-> Hr].
      apply elem_of_app in Hin as [Hin|Hin%list_elem_of_singleton]; [by left|right].
      apply in_run_true in Hr as (g' & Hg' & Hr). by simplify_eq. }
    + destruct (inv_exiting _ I k h' Hold) as (g' & Hg' & Hk & Hst & Hnh). exists g'.
      split_and!; [done..|]. simpl. by intros [_ E]%lookup_delete_Some.
    + exists g. split_and!; [done..|by rewrite Hst|]. by rewrite lookup_delete_eq.
  - intros h' g' Hns Hg' Hst. rewrite Hex. simpl in *.
    destruct (inv_tracked _ I h' g' Hns Hg' Hst) as [Ht|Ht].
    + destruct (decide (g_key g' = key)) as [E|E].
      * right. rewrite E in Ht |- *. simplify_eq. rewrite decide_True; [set_solver|].
        split; [done|]. apply in_run_true. eauto.
      * left. by rewrite lookup_delete_ne.
    + right. destruct (decide (g_key g' = key /\ in_run h m = true)) as [[<- _]|]; [set_solver|].
      exact Ht.
  - intros k. simpl. destruct (in_run h m); [|apply I].
    intros [[_ E]|[_ E]]%lookup_insert_Some; [by destruct (default [] _)|by apply (inv_nonempty _ I k)].
Qed.

(** Actions that keep the maps and move no goroutine back. *)
Lemma inv_alter f h m :
  (forall g, g_key (f g) = g_key g /\ (g_stage (f g) = InRun -> g_stage g = InRun) /\
     (g_stage (f g) = Exited -> g_stage g = Exited)) ->
  inv m -> inv (alter_goroutine f h m).
Proof.
  intros Hf I.
  assert (forall h' g, goroutines m !! h' = Some g -> exists g', alter f h (goroutines m) !! h' = Some g' /\
    g_key g' = g_key g /\ (g_stage g' = Exited -> g_stage g = Exited)) as Hfwd.
  { intros h' g Hg. destruct (decide (h' = h)) as [->|].
    - exists (f g). rewrite lookup_alter_eq, Hg. split; [done|]. split; apply Hf.
    - exists g. by rewrite lookup_alter_ne. }
  split; simpl.
  - intros k h' Hk. destruct (inv_handles _ I k h' Hk) as (g & Hg & <-).
    destruct (Hfwd h' g Hg) as (g' & Hg' & E & _). by exists g'.
  - intros k h' Hin. destruct (inv_exiting _ I k h' Hin) as (g & Hg & <- & Hst & Hnh).
    destruct (Hfwd h' g Hg) as (g' & Hg' & E & Hst'). exists g'. split_and!; try done.
    intros He. by apply Hst, Hst'.
  - intros h' g Hns Hg Hst. apply lookup_alter_Some in Hg as [(<- & g0 & Hg0 & ->)|[_ Hg]].
    + destruct (Hf g0) as (Ek & Hs & _). rewrite Ek. unfold exiting_of. simpl.
      apply (inv_tracked _ I h g0 Hns Hg0). by apply Hs.
    + by apply (inv_tracked _ I h' g).
  - apply I.
Qed.

Lemma inv_exited h m : inv m -> inv (exited h m).
Proof.
  intros I. unfold exited. destruct (goroutines m !! h) as [g|] eqn:Hg; [|done].
  case_decide as Hst; [|done].
  set (rest := filter (fun e => e <> h) (default [] (exiting m !! g_key g))).
  set (m' := {| handles := _; exiting := _; stopped := _; goroutines := _ |}).
  assert (forall k, exiting_of k m' = if decide (k = g_key g) then rest else exiting_of k m) as Hex.
  { intros k. unfold exiting_of, m'. simpl. destruct (decide (k = g_key g)) as [->|Hne].
    - destruct rest eqn:Er; [by rewrite lookup_delete_eq|by rewrite lookup_insert_eq].
    - destruct rest; [by rewrite lookup_delete_ne|by rewrite lookup_insert_ne]. }
  split.
  - intros k h' Hk. destruct (inv_handles _ I k h' Hk) as (g' & Hg' & <-). simpl.
    destruct (decide (h' = h)) as [->|Hne].
    + rewrite lookup_insert_eq. simplify_eq. by eexists.
    + rewrite lookup_insert_ne by done. by exists g'.
  - intros k h' Hin. rewrite Hex in Hin. assert (h' <> h /\ h' ∈ exiting_of k m) as [Hne Hin'].
    { destruct (decide (k = g_key g)) as [->|Hk].
      - by apply list_elem_of_filter in Hin.
      - split; [|done]. intros ->. destruct (inv_exiting _ I k h Hin) as (g' & Hg' & Hk' & _). congruence. }
    destruct (inv_exiting _ I k h' Hin') as (g' & Hg' & Hk & Hst' & Hnh). exists g'. simpl.
    by rewrite lookup_insert_ne.
  - intros h' g' Hns Hg' Hst'. simpl in Hg'.
    apply lookup_insert_Some in Hg' as [[<- <-]|[Hne Hg']]; [done|]. rewrite Hex.
    destruct (inv_tracked _ I h' g' Hns Hg' Hst') as [Ht|Ht]; [by left|right].
    case_decide as Hk; [|done]. rewrite Hk in Ht. apply list_elem_of_filter. split; [|done].
    congruence.
  - intros k. unfold m'. simpl. destruct rest as [|x l] eqn:Er.
    + intros [_ E]%lookup_delete_Some. by apply (inv_nonempty _ I k).
    + intros [[_ E]|[_ E]]%lookup_insert_Some; [done|]. by apply (inv_nonempty _ I k).
Qed.

Lemma inv_act a m : inv m -> inv (act a m).
Proof.
  intros I. destruct a as [spec|key|h|h|h|key|key|]; simpl.
  - by apply inv_start.
  - by apply inv_forget.
  - by apply inv_alter.
  - unfold close_done. destruct (in_run h m); [|done]. apply inv_alter; [|done]. done.
  - by apply inv_exited.
  - unfold NotifyVMClaimed, notify_runner. destruct (handles m !! key); [|done]. by apply inv_alter.
  - unfold NotifyVMDeleted, notify_runner. destruct (handles m !! key); [|done]. by apply inv_alter.
  - split; simpl; try done; [|apply I]. intros k h Hin.
    destruct (inv_exiting _ I k h Hin) as (g & Hg & Hk & Hst & _). exists g. split_and!; try done.
Qed.

Lemma inv_steps P m m' : rtc (step P) m m' -> inv m -> inv m'.
Proof. induction 1 as [|m m1 m' [a [_ ->]] _ IH]; [done|]. intros I. by apply IH, inv_act. Qed.

Lemma reachable_inv m : reachable m -> inv m.
Proof. intros Hr. eapply inv_steps; [exact Hr|apply inv_New]. Qed.

(** ** Theorems *)

(** A goroutine of the pool that is still in [runner.Run]. *)
Definition running (key : poolKey) (h : handle) (m : Manager) : Prop :=
  exists g, goroutines m !! h = Some g /\ g_key g = key /\ g_stage g = InRun.

(** Nothing but [StartReconciler] makes a goroutine run. *)
Lemma running_back key a m h :
  not_starting key a -> running key h (act a m) -> running key h m.
Proof.
  assert (forall f h', (forall g, g_key (f g) = g_key g /\ (g_stage (f g) = InRun -> g_stage g = InRun)) ->
    running key h (alter_goroutine f h' m) -> running key h m) as Halter.
  { intros f h' Hf (g & Hg & Hk & Hst). simpl in Hg.
    apply lookup_alter_Some in Hg as [(<- & g0 & Hg0 & ->)|[_ Hg]]; [|by exists g].
    destruct (Hf g0) as [Ek Hs]. exists g0. split_and!; [done|congruence|by apply Hs]. }
  intros Ha. destruct a as [spec|k|h'|h'|h'|k|k|]; simpl in *.
  - unfold StartReconciler. destruct (handles m !! key_of spec); [done|]. destruct (stopped m); [done|].
    unfold newReconciler; simpl; destruct (NewStrategy _); [|done]; simpl. intros (g & Hg & Hk & Hst). simpl in Hg.
    apply lookup_insert_Some in Hg as [[_ <-]|[_ Hg]]; [done|]. by exists g.
  - unfold cancelAndForget. by destruct (handles m !! k).
  - by apply Halter.
  - unfold close_done. destruct (in_run h' m); [|done]. by apply Halter.
  - unfold exited. destruct (goroutines m !! h') as [g0|] eqn:Hg0; [|done]. case_decide; [|done].
    intros (g & Hg & Hk & Hst). simpl in Hg.
    apply lookup_insert_Some in Hg as [[_ <-]|[_ Hg]]; [done|]. by exists g.
  - unfold NotifyVMClaimed, notify_runner. destruct (handles m !! k); [|done]. by apply Halter.
  - unfold NotifyVMDeleted, notify_runner. destruct (handles m !! k); [|done]. by apply Halter.
  - done.
Qed.

Lemma running_back_steps key m m' h :
  rtc (step (not_starting key)) m m' -> running key h m' -> running key h m.
Proof.
  induction 1 as [|m m1 m' [a [Ha ->]] _ IH]; [done|]. intros Hr. by eapply running_back, IH.
Qed.

Lemma stopped_act a m : stopped m = true -> stopped (act a m) = true.
Proof.
  intros Hs. destruct a as [spec|k|h|h|h|k|k|]; simpl; try done.
  - unfold StartReconciler. destruct (handles m !! key_of spec); [done|]. by rewrite Hs.
  - unfold cancelAndForget. by destruct (handles m !! k).
  - unfold close_done. by destruct (in_run h m).
  - unfold exited. destruct (goroutines m !! h); [|done]. by case_decide.
  - unfold NotifyVMClaimed, notify_runner. by destruct (handles m !! k).
  - unfold NotifyVMDeleted, notify_runner. by destruct (handles m !! k).
Qed.

Lemma stopped_steps P m m' : rtc (step P) m m' -> stopped m = true -> stopped m' = true.
Proof. induction 1 as [|m m1 m' [a [_ ->]] _ IH]; [done|]. eauto using stopped_act. Qed.

Lemma untracked_act key a m :
  not_starting key a -> handles m !! key = None -> handles (act a m) !! key = None.
Proof.
  intros Ha Hn. destruct a as [spec|k|h|h|h|k|k|]; simpl in *; try done.
  - unfold StartReconciler. destruct (handles m !! key_of spec); [done|]. destruct (stopped m); [done|].
    unfold newReconciler; simpl; destruct (NewStrategy _); [|done]; simpl. by rewrite lookup_insert_ne.
  - unfold cancelAndForget. destruct (handles m !! k); [|done]. simpl. rewrite lookup_delete_None. auto.
  - unfold close_done. by destruct (in_run h m).
  - unfold exited. destruct (goroutines m !! h); [|done]. by case_decide.
  - unfold NotifyVMClaimed, notify_runner. by destruct (handles m !! k).
  - unfold NotifyVMDeleted, notify_runner. by destruct (handles m !! k).
Qed.

Lemma untracked_steps key m m' :
  rtc (step (not_starting key)) m m' -> handles m !! key = None -> handles m' !! key = None.
Proof. induction 1 as [|m m1 m' [a [Ha ->]] _ IH]; [done|]. eauto using untracked_act. Qed.

Lemma step_mono (P P' : action -> Prop) m m' :
  (forall a, P a -> P' a) -> rtc (step P) m m' -> rtc (step P') m m'.
Proof. intros HP. apply rtc_subrel. intros m1 m2 (a & Ha & ->). exists a. auto. Qed.

(** The wait is steps of the others; on nil every goroutine waited for is
    past its run. *)
Lemma waits_spec P key l m m' err :
  waits P l m m' err -> (forall a, P a -> not_starting key a) ->
  rtc (step P) m m' /\ (err = None -> forall h, h ∈ l -> ~ running key h m').
Proof.
  intros Hw HP. induction Hw as [m|h l m m1 m' err Hs Hd _ [IHs IH]|h l m m1 c Hs].
  - split; [done|]. intros _ h Hh. by apply not_elem_of_nil in Hh.
  - split; [by etrans|]. intros -> h' [->|Hh]%elem_of_cons; [|by apply IH].
    intros Hr. apply (running_back_steps _ _ _ _ (step_mono _ _ _ _ HP IHs)) in Hr as (g & Hg & _ & Hst).
    by apply (in_run_false _ _ _ Hd Hg).
  - split; [done|]. intros [=].
Qed.

(** C34: The manager keeps one reconciler per pool.  In every state it can reach
    before its shutdown, however its operations, the goroutines' exits and
    the cancellations are interleaved, each reconciler goroutine that is still
    running is the one tracked for its pool or one that was stopped and is
    listed as exiting; so two running reconcilers of a pool are never both
    live. *)
Theorem one_reconciler_per_pool m key h h' :
  reachable m -> stopped m = false -> running key h m -> running key h' m ->
  h ∉ exiting_of key m -> h' ∉ exiting_of key m ->
  h = h' /\ handles m !! key = Some h.
Proof.
  intros I%reachable_inv Hns (g & Hg & Hk & Hst) (g' & Hg' & Hk' & Hst') Hn Hn'. subst key.
  destruct (inv_tracked _ I h g Hns Hg Hst) as [Ht|Ht]; [|done].
  destruct (inv_tracked _ I h' g' Hns Hg' Hst') as [Ht'|Ht']; rewrite Hk' in Ht'; [|done].
  rewrite Ht in Ht'. by injection Ht' as ->.
Qed.

(** C35: When StopReconcilerAndWait returns nil nothing is still provisioning for
    the pool: not the reconciler it stopped, nor one that UpdatePool stopped
    earlier without waiting, whatever else the manager does meanwhile ([P]), as long
    as nobody starts a reconciler for the pool, which PoolAdmin only does under the
    pool's lock, and the manager is not shutting down. *)
Theorem stop_and_wait_quiesces (P : action -> Prop) key m m' h :
  reachable m -> (forall a, P a -> not_starting key a) ->
  StopReconcilerAndWait P key m m' None -> stopped m' = false ->
  ~ running key h m'.
Proof.
  intros Hr HP [m1 m2 Hs1 Hs2 Hwaits] Hns Hrun.
  destruct (waits_spec _ key _ _ _ _ Hwaits HP) as [Hw Hdone].
  set (mc := match (cancelAndForget key m).2 with Some h => cancel h m1 | None => m1 end) in *.
  assert (rtc (step (not_starting key)) (act (AForget key) m) m2) as Hs.
  { etrans; [eapply step_mono; [exact HP|exact Hs1]|]. etrans; [|eapply step_mono; [exact HP|exact Hs2]]. unfold mc.
    destruct (cancelAndForget key m).2 as [h0|]; [|done]. apply rtc_once. by exists (ACancel h0). }
  assert (handles m2 !! key = None) as Hnone.
  { eapply untracked_steps; [exact Hs|]. simpl. unfold cancelAndForget.
    destruct (handles m !! key) eqn:E; [|done]. simpl. apply lookup_delete_eq. }
  assert (inv m2) as I2.
  { eapply inv_steps; [exact Hs|]. by apply inv_act, reachable_inv. }
  assert (stopped m2 = false) as Hns2.
  { destruct (stopped m2) eqn:E; [|done]. rewrite (stopped_steps _ _ _ Hw E) in Hns. done. }
  pose proof (running_back_steps _ _ _ _ (step_mono _ _ _ _ HP Hw) Hrun) as (g & Hg & Hk & Hst).
  destruct (inv_tracked _ I2 h g Hns2 Hg Hst) as [Ht|Ht]; rewrite Hk in Ht; [congruence|].
  by apply (Hdone eq_refl h Ht).
Qed.

(** The shutdown is final: once the manager is stopped and every goroutine it
    started has exited, which is what Run waits for before it returns, no
    sequence of calls makes a reconciler run again, and every
    StartReconciler is refused. *)
Theorem shutdown_is_final P m m' :
  stopped m = true -> all_exited m -> rtc (step P) m m' ->
  all_exited m' /\ forall spec, (StartReconciler spec m').2 <> None.
Proof.
  intros Hs He Hsteps. assert (stopped m' = true) as Hs' by by eapply stopped_steps. split.
  - clear Hs'. induction Hsteps as [|m m1 m' [a [_ ->]] _ IH]; [done|].
    apply IH; [by apply stopped_act|]. clear IH.
    assert (forall f h, (forall g, g_stage g = Exited -> g_stage (f g) = Exited) ->
      all_exited (alter_goroutine f h m)) as Halter.
    { intros f h Hf h' g Hg. simpl in Hg.
      apply lookup_alter_Some in Hg as [(<- & g0 & Hg0 & ->)|[_ Hg]]; [|by apply (He h')].
      apply Hf. by apply (He h). }
    destruct a as [spec|k|h|h|h|k|k|]; simpl; try done; try by apply Halter.
    + unfold StartReconciler. destruct (handles m !! key_of spec); [done|]. by rewrite Hs.
    + unfold cancelAndForget. by destruct (handles m !! k).
    + unfold close_done. destruct (in_run h m) eqn:Er; [|done].
      apply in_run_true in Er as (g & Hg & Hst). by rewrite (He h g Hg) in Hst.
    + unfold exited. destruct (goroutines m !! h) as [g|] eqn:Hg; [|done]. case_decide as Hd; [|done].
      by rewrite (He h g Hg) in Hd.
    + unfold NotifyVMClaimed, notify_runner. destruct (handles m !! k); [|done]. by apply Halter.
    + unfold NotifyVMDeleted, notify_runner. destruct (handles m !! k); [|done]. by apply Halter.
  - intros spec. unfold StartReconciler. destruct (handles m' !! key_of spec); [done|]. by rewrite Hs'.
Qed.

(** ** Witnesses *)

Definition key0 : poolKey := key_of pool0.

(** UpdatePool: the first reconciler was stopped without waiting, a second one
    started. *)
Definition updated0 : Manager :=
  act (AStart pool0) (act (AForget key0) (act (AStart pool0) New)).

Lemma updated0_reachable : reachable updated0.
Proof.
  eapply rtc_l; [by exists (AStart pool0)|]. eapply rtc_l; [by exists (AForget key0)|].
  eapply rtc_l; [by exists (AStart pool0)|]. apply rtc_refl.
Qed.

Lemma one_reconciler_per_pool_witness :
  exiting_of key0 updated0 = [0] /\ running key0 0 updated0 /\ handles updated0 !! key0 = Some 1.
Proof.
  split; [vm_compute; reflexivity|]. split; [eexists; vm_compute; repeat split|].
  apply (one_reconciler_per_pool updated0 key0 1 1).
  - apply updated0_reachable.
  - reflexivity.
  - eexists. vm_compute. repeat split.
  - eexists. vm_compute. repeat split.
  - vm_compute. intros H. repeat (apply elem_of_cons in H as [H|H]; [discriminate H|]).
    by apply not_elem_of_nil in H.
  - vm_compute. intros H. repeat (apply elem_of_cons in H as [H|H]; [discriminate H|]).
    by apply not_elem_of_nil in H.
Defined.

(** DeletePool: both goroutines are waited for, and end one after the other. *)
Lemma stop_and_wait_quiesces_witness :
  exists m', StopReconcilerAndWait (not_starting key0) key0 updated0 m' None /\ ~ running key0 0 m' /\ ~ running key0 1 m'.
Proof.
  set (m2 := cancel 1 (act (AForget key0) updated0)).
  set (m3 := act (AClose 0) m2). set (m4 := act (AClose 1) m3).
  assert (StopReconcilerAndWait (not_starting key0) key0 updated0 m4 None) as Hw.
  { apply (stop_and_wait _ key0 updated0 m4 None (act (AForget key0) updated0) m2).
    - apply rtc_refl.
    - apply rtc_refl.
    - match goal with |- waits _ ?l _ _ _ => replace l with [0; 1] by (vm_compute; reflexivity) end.
      apply (waits_done _ 0 [1] m2 m3); [apply rtc_once; by exists (AClose 0)|vm_compute; reflexivity|].
      apply (waits_done _ 1 [] m3 m4); [apply rtc_once; by exists (AClose 1)|vm_compute; reflexivity|].
      apply waits_nil. }
  exists m4. split; [exact Hw|]. split.
  - apply (stop_and_wait_quiesces (not_starting key0) key0 updated0 m4 0 updated0_reachable (fun _ H => H) Hw). reflexivity.
  - apply (stop_and_wait_quiesces (not_starting key0) key0 updated0 m4 1 updated0_reachable (fun _ H => H) Hw). reflexivity.
Defined.

(** A pool's reconciler started, the manager shut down, the goroutine ended. *)
Definition down0 : Manager :=
  act (AExited 0) (act (AClose 0) (act AShutdown (act (AStart pool0) New))).

Lemma shutdown_is_final_witness :
  (StartReconciler pool0 (act (AForget key0) down0)).2 <> None.
Proof.
  apply (shutdown_is_final (fun _ => True) down0).
  - reflexivity.
  - intros h g Hg. apply elem_of_map_to_list in Hg. vm_compute in Hg.
    apply list_elem_of_singleton in Hg. injection Hg as -> ->. reflexivity.
  - apply rtc_once. by exists (AForget key0).
Defined.

(** ** During the shutdown *)

(** [Run] takes the tracked handles without listing them as exiting, so a
    StopReconcilerAndWait that comes after it has nothing to wait for: it
    returns nil while the pool's reconciler may still be provisioning. *)
Theorem stop_and_wait_misses_shutdown :
  exists m, reachable m /\ (forall P, StopReconcilerAndWait P key0 m m None) /\ running key0 0 m.
Proof.
  exists (act AShutdown (act (AStart pool0) New)). split_and!.
  - eapply rtc_l; [by exists (AStart pool0)|]. eapply rtc_l; [by exists AShutdown|]. apply rtc_refl.
  - intros P. apply (stop_and_wait P key0 _ _ None (act AShutdown (act (AStart pool0) New))
      (act AShutdown (act (AStart pool0) New))); [apply rtc_refl..|]. apply waits_nil.
  - eexists. vm_compute. repeat split.
Qed.
