(* ===== verification/Sweeper.v ===== *)
(** * The sweeper: [src/internal/reconciler/sweeper.go]

    One tick retries pending deletions, deletes the unleased VMs of draining
    hosts, ends expired leases and warns about those that are about to expire.
    The in-memory [warned] map is the sweeper's state; its mutex makes a tick
    one step of it. *)

From stdpp Require Import base gmap strings list.
From Stdlib Require Import ZArith Lia.
From S2P Require Import Prelude Types Convert Store StoreOps Effects Flintlock Deletion.

Definition DefaultSweepInterval : Duration := 10000000000.
Definition DefaultWarningWindow : Duration := 30000000000.

(** [warned] holds, per lease id, the [expires_at] last warned about. *)
Record Sweeper := {
  tickInterval : Duration;
  warningWindow : Duration;
  notifier : Notifier;
  warned : gmap string Z
}.

Definition NewSweeper (tick warning : Duration) (n : Notifier) : Sweeper :=
  {| tickInterval := if decide (tick <= 0)%Z then DefaultSweepInterval else tick;
     warningWindow := if decide (warning <= 0)%Z then DefaultWarningWindow else warning;
     notifier := match n with NilNotifier => NoopNotifier | _ => n end;
     warned := ∅ |}.

Definition set_warned (m : gmap string Z) (s : Sweeper) : Sweeper :=
  {| tickInterval := tickInterval s; warningWindow := warningWindow s;
     notifier := notifier s; warned := m |}.

(** [draining[h.GetName()] = h.GetDraining()] over the registered hosts. *)
Definition draining_map (hosts : list Host) : gmap string bool :=
  fold_left (fun m h => <[host_name h := host_draining h]> m) hosts ∅.

(** One pending deletion. *)
Definition retry_deletion (s : Sweeper) (draining : gmap string bool) (vm : VMRecord) : prog unit :=
  let! err := EnsureVMDeleted vm in
  match err with
  | Some _ => Ret tt
  | None =>
      let! pool := store (OpGetPool (vm_pool_name vm) (vm_pool_namespace vm)) in
      match pool with
      | Err _ => Ret tt
      | Ok pool =>
          if decide (GetLeaseId vm = "" /\ default false (draining !! vm_flintlock_host vm) = true)
          then NotifyVMDeleted (notifier s) (pool_name pool) (pool_namespace pool)
          else FinishVMDeletion pool vm (notifier s) true
      end
  end.

Definition retryPendingDeletions (s : Sweeper) : prog unit :=
  let! vms := store (OpListVMsByPhase DELETING) in
  match vms with
  | Err _ | Ok [] => Ret tt
  | Ok vms =>
      let! hosts := store OpListHosts in
      match hosts with
      | Err _ => Ret tt
      | Ok hosts => for_each vms (retry_deletion s (draining_map hosts))
      end
  end.

Definition drainHosts (s : Sweeper) : prog unit :=
  let! vms := store OpMarkDrainingHostsVMsDeleting in
  match vms with
  | Err _ => Ret tt
  | Ok vms => DeleteDrainedVMs true vms (notifier s)
  end.

Definition warnExpiringSoon (l : LeaseRecord) : prog unit :=
  let! pool := store (OpGetPool (lease_pool_name l) (lease_pool_namespace l)) in
  match pool with
  | Err _ => Ret tt
  | Ok pool => EmitEvent pool (lease_vm_uid l) VM_EXPIRING_SOON
  end.

Definition beginExpiry (s : Sweeper) (l : LeaseRecord) (t : Timestamp) : prog unit :=
  let! expiredLease := store (OpDeleteLeaseIfExpired (lease_id l) t) in
  match expiredLease with
  | Err _ => Ret tt
  | Ok e =>
      then! do (EMetric (VMRelease (lease_pool_name e) (lease_pool_namespace e) "expiry")) in
      then! do (EMetric (LeaseDuration (lease_pool_name e) (lease_pool_namespace e)
                  (AsDuration (t - default 0%Z (lease_claimed_at e))))) in
      let! vm := store (OpGetVM (lease_vm_uid l)) in
      match vm with
      | Err _ => Ret tt
      | Ok vm =>
          if decide (vm_phase vm <> LEASED) then Ret tt else
          let! pool := store (OpGetPool (lease_pool_name l) (lease_pool_namespace l)) in
          match pool with
          | Err _ => Ret tt
          | Ok pool =>
              let! err := EnsureVMDeleted vm in
              match err with
              | Some _ => Ret tt
              | None => FinishVMDeletion pool vm (notifier s) true
              end
          end
      end
  end.

(** [l.GetExpiresAt().AsTime()]. *)
Definition expiry (l : LeaseRecord) : Timestamp := default 0%Z (lease_expires_at l).

(** One lease of the scan, and the [warned] map after it. *)
Definition sweep_lease (s : Sweeper) (t : Timestamp) (w : gmap string Z) (l : LeaseRecord)
    : prog (gmap string Z) :=
  if decide (expiry l <= t)%Z then
    then! beginExpiry s l t in
    Ret (delete (lease_id l) w)
  else if decide (w !! lease_id l = Some (UnixNano (expiry l))) then Ret w
  else
    then! warnExpiringSoon l in
    Ret (<[lease_id l := UnixNano (expiry l)]> w).

Fixpoint sweep_leases (s : Sweeper) (t : Timestamp) (w : gmap string Z) (ls : list LeaseRecord)
    : prog (gmap string Z) :=
  match ls with
  | [] => Ret w
  | l :: ls => let! w := sweep_lease s t w l in sweep_leases s t w ls
  end.

(** [warned] without the leases the scan did not return. *)
Definition evict (seen : list string) (w : gmap string Z) : gmap string Z :=
  filter (fun kv => kv.1 ∈ seen) w.

Definition Tick (s : Sweeper) (t : Timestamp) : prog Sweeper :=
  then! retryPendingDeletions s in
  then! drainHosts s in
  let! leases := store (OpListExpiredLeases (t + warningWindow s)%Z) in
  match leases with
  | Err _ => Ret s
  | Ok leases =>
      let! w := sweep_leases s t (warned s) leases in
      Ret (set_warned (evict (lease_id <$> leases) w) s)
  end.

(** [Run], for the ticks that arrive before the context is done. *)
Fixpoint Sweeper_Run (s : Sweeper) (ticks : nat) : prog Sweeper :=
  match ticks with
  | O => Ret s
  | S ticks => let! t := now in let! s := Tick s t in Sweeper_Run s ticks
  end.
