(* ===== verification/LeaseApi.v ===== *)
(** * The Lease service: [src/internal/api/lease.go]

    ClaimVM with its replays and lost races, Heartbeat, ReleaseVM and
    ListLeases.  An RPC fails with a gRPC status code; its message is not
    modelled. *)

From stdpp Require Import base gmap strings list.
From Stdlib Require Import ZArith Lia.
From S2P Require Import Prelude Types Convert Store StoreOps Effects Flintlock Deletion.
From S2P Require Import Provision.

Record LeaseServer := {
  ls_execTimeoutSeconds : Z;
  ls_cleanupTimeout : Duration;
  ls_notifier : Notifier
}.

Definition DefaultCleanupTimeout : Duration := 30000000000.

Definition NewLeaseServer (execTimeoutSeconds : Z) (cleanupTimeout : Duration) (n : Notifier)
    : LeaseServer :=
  {| ls_execTimeoutSeconds := execTimeoutSeconds;
     ls_cleanupTimeout :=
       if decide (cleanupTimeout <= 0)%Z then DefaultCleanupTimeout else cleanupTimeout;
     ls_notifier := match n with NilNotifier => NoopNotifier | _ => n end |}.

Definition maxRequestIDLength : nat := 255.

(** Requests and responses.  A missing pool reference reads as the empty
    names. *)
Record ClaimVMRequest := {
  claim_pool : PoolRef;
  claim_request_id : string
}.

Record ClaimVMResponse := {
  resp_lease_id : string;
  resp_vm_uid : string;
  resp_network_interfaces : list (string * string);
  resp_host_name : string;
  resp_host_address : string
}.

Definition vmDeleted (err : StoreError) : bool :=
  match err with ErrVMDeleting | ErrNotFound => true | _ => false end.

Section lease_server.
Context (s : LeaseServer).

Definition claimResponse (leaseID : string) (vm : VMRecord) : prog ClaimVMResponse :=
  let! client := Client (vm_flintlock_host vm) in
  let! netIfaces :=
    match client with
    | Err _ => Ret []
    | Ok client =>
        let! resp := do (ERpc client (GetMicroVM (vm_uid vm))) in
        Ret (match resp with Ok m => network_interfaces m | Err _ => [] end)
    end in
  let! addr := Address (vm_flintlock_host vm) in
  Ret {| resp_lease_id := leaseID; resp_vm_uid := vm_uid vm;
         resp_network_interfaces := netIfaces; resp_host_name := vm_flintlock_host vm;
         resp_host_address := match addr with Ok a => a | Err _ => "" end |}.

Definition replayClaim (lease : LeaseRecord) (poolName poolNS : string)
    : prog (result code ClaimVMResponse) :=
  if decide (lease_pool_name lease <> poolName \/ lease_pool_namespace lease <> poolNS)
  then Ret (Err InvalidArgument) else
  let! vm := store (OpGetVM (lease_vm_uid lease)) in
  match vm with
  | Err ErrNotFound => Ret (Err Aborted)
  | Err _ => Ret (Err Internal)
  | Ok vm =>
      if decide (vm_phase vm = DELETING) then Ret (Err Aborted) else
      then! do (EMetric (VMClaim poolName poolNS true)) in
      let! resp := claimResponse (lease_id lease) vm in
      Ret (Ok resp)
  end.

(** The Lease service's [applyHookFailurePolicy]. *)
Definition apply_pre_lease_policy (pool : PoolSpec) (vm : VMRecord) : prog unit :=
  then! ApplyHookFailurePolicy pool vm hookPreLease true in
  if decide (hook_failure_policy pool <> QUARANTINE)
  then NotifyVMDeleted (ls_notifier s) (pool_name pool) (pool_namespace pool)
  else Ret tt.

Definition yieldClaim (pool : PoolSpec) (vm : VMRecord) (requestID : string)
    : prog (result code ClaimVMResponse) :=
  let! t := now in
  let vm := set_updated_at t (set_lease_id None (set_phase AVAILABLE vm)) in
  let! err := store (OpUpdateVM vm) in
  match err with
  | Err e =>
      if vmDeleted e then Ret (Err Aborted) else
      then! apply_pre_lease_policy pool vm in
      Ret (Err Internal)
  | Ok _ =>
      let! lease := store (OpGetLeaseByRequestID requestID) in
      match lease with
      | Err ErrNotFound => Ret (Err Aborted)
      | Err _ => Ret (Err Internal)
      | Ok lease => replayClaim lease (pool_name pool) (pool_namespace pool)
      end
  end.

(** The loop over the pre-lease commands; each failure applies the policy. *)
Fixpoint pre_lease_commands_loop (client : connRef) (pool : PoolSpec) (vm : VMRecord)
    (cmds : list string) : prog (option error) :=
  match cmds with
  | [] => Ret None
  | cmd :: cmds =>
      let! r := Exec client (vm_uid vm) cmd (ls_execTimeoutSeconds s) in
      match r with
      | Err err => then! apply_pre_lease_policy pool vm in Ret (Some err)
      | Ok r =>
          if decide (exitCode r <> 0)%Z
          then then! apply_pre_lease_policy pool vm in Ret (Some (ErrPlain "exit code"))
          else pre_lease_commands_loop client pool vm cmds
      end
  end.

(** The record is updated in place; it is returned with the error. *)
Definition runPreLeaseHooks (pool : PoolSpec) (vm : VMRecord) : prog (VMRecord * option error) :=
  let! t := now in
  let vm := set_updated_at t (set_phase PRE_LEASE_HOOK_RUNNING vm) in
  let! err := store (OpUpdateVM vm) in
  match err with
  | Err e =>
      if vmDeleted e then Ret (vm, Some ErrVMDeleted) else
      then! apply_pre_lease_policy pool vm in
      Ret (vm, Some (StoreErr e))
  | Ok _ =>
      let! execClient := ExecClient (vm_flintlock_host vm) in
      match execClient with
      | Err err => then! apply_pre_lease_policy pool vm in Ret (vm, Some err)
      | Ok execClient =>
          let! start := now in
          let! err := pre_lease_commands_loop execClient pool vm (pre_lease_commands pool) in
          match err with
          | Some err => Ret (vm, Some err)
          | None =>
              let! t := now in
              then! do (EMetric (HookDuration "pre_lease" (pool_name pool) (pool_namespace pool)
                          (AsDuration (t - start)))) in
              Ret (vm, None)
          end
      end
  end.

(** [pool.GetHeartbeatExpiryThreshold().AsDuration()]. *)
Definition expiry_threshold (pool : PoolSpec) : Duration :=
  AsDuration (default 0%Z (heartbeat_expiry_threshold pool)).

Definition new_lease (leaseID requestID : string) (vm : VMRecord) (poolName poolNS : string)
    (t expiresAt : Timestamp) : LeaseRecord :=
  {| lease_id := leaseID; lease_vm_uid := vm_uid vm; lease_pool_name := poolName;
     lease_claimed_at := Some t; lease_last_heartbeat_at := Some t;
     lease_expires_at := Some expiresAt; lease_pool_namespace := poolNS;
     lease_request_id := requestID |}.

(** ClaimVM once the pre-lease hooks have passed. *)
Definition commit_claim (pool : PoolSpec) (vm : VMRecord) (poolName poolNS requestID : string)
    : prog (result code ClaimVMResponse) :=
  let! leaseID := do EUUID in
  let! t := now in
  let expiresAt := (t + expiry_threshold pool)%Z in
  let vm := set_updated_at t (set_lease_id (Some leaseID) (set_phase LEASED vm)) in
  let lease := new_lease leaseID requestID vm poolName poolNS t expiresAt in
  let! err := store (OpLeaseVM vm lease) in
  match err with
  | Err ErrDuplicateRequestID => yieldClaim pool vm requestID
  | Err e =>
      if vmDeleted e then Ret (Err Aborted) else
      then! apply_pre_lease_policy pool vm in
      Ret (Err Internal)
  | Ok _ =>
      then! EmitEvent pool (vm_uid vm) VM_CLAIMED in
      then! do (EMetric (VMClaim poolName poolNS false)) in
      then! NotifyVMClaimed (ls_notifier s) poolName poolNS in
      let! resp := claimResponse leaseID vm in
      Ret (Ok resp)
  end.

(** ClaimVM once it is known that no lease carries the request id. *)
Definition fresh_claim (pool : PoolSpec) (poolName poolNS requestID : string)
    : prog (result code ClaimVMResponse) :=
  let! vm := store (OpClaimAvailableVM poolName poolNS) in
  match vm with
  | Err ErrNoAvailableVM => Ret (Err ResourceExhausted)
  | Err _ => Ret (Err Internal)
  | Ok vm =>
      let! (vm, err) := runPreLeaseHooks pool vm in
      match err with
      | Some ErrVMDeleted => Ret (Err Aborted)
      | Some _ => Ret (Err Internal)
      | None => commit_claim pool vm poolName poolNS requestID
      end
  end.

Definition ClaimVM (req : ClaimVMRequest) : prog (result code ClaimVMResponse) :=
  let poolName := ref_name (claim_pool req) in
  let poolNS := ref_namespace (claim_pool req) in
  let requestID := claim_request_id req in
  if decide (maxRequestIDLength < String.length requestID) then Ret (Err InvalidArgument) else
  let! pool := store (OpGetPool poolName poolNS) in
  match pool with
  | Err ErrNotFound => Ret (Err NotFound)
  | Err _ => Ret (Err Internal)
  | Ok pool =>
      if decide (requestID <> "") then
        let! lease := store (OpGetLeaseByRequestID requestID) in
        match lease with
        | Ok lease => replayClaim lease poolName poolNS
        | Err ErrNotFound => fresh_claim pool poolName poolNS requestID
        | Err _ => Ret (Err Internal)
        end
      else fresh_claim pool poolName poolNS requestID
  end.

Definition Heartbeat (leaseID : string) : prog (result code Timestamp) :=
  let! lease := store (OpGetLease leaseID) in
  match lease with
  | Err ErrNotFound => Ret (Err NotFound)
  | Err _ => Ret (Err Internal)
  | Ok lease =>
      let! pool := store (OpGetPool (lease_pool_name lease) (lease_pool_namespace lease)) in
      match pool with
      | Err ErrNotFound => Ret (Err NotFound)
      | Err _ => Ret (Err Internal)
      | Ok pool =>
          let! t := now in
          let expiresAt := (t + expiry_threshold pool)%Z in
          let! err := store (OpUpdateLeaseHeartbeat leaseID t expiresAt) in
          match err with
          | Err ErrNotFound => Ret (Err NotFound)
          | Err _ => Ret (Err Internal)
          | Ok _ => Ret (Ok expiresAt)
          end
      end
  end.

(** The end of ReleaseVM: the VM's row is gone. *)
Definition release_gone (leaseID : string) (lease : LeaseRecord) : prog (result code unit) :=
  let! err := store (OpDeleteLease leaseID) in
  match err with
  | Ok _ | Err ErrNotFound =>
      then! NotifyVMDeleted (ls_notifier s) (lease_pool_name lease) (lease_pool_namespace lease) in
      Ret (Ok tt)
  | Err _ => Ret (Err Internal)
  end.

(** ReleaseVM for a VM whose row it read. *)
Definition release_vm (leaseID : string) (lease : LeaseRecord) (vm : VMRecord)
    : prog (result code unit) :=
  let! r := EnsureVMDeletedCheckingPool vm in
  match r with
  | Err (StoreErr ErrNotFound) =>
      let! pool := store (OpGetPool (lease_pool_name lease) (lease_pool_namespace lease)) in
      match pool with
      | Ok _ => Ret (Ok tt)
      | Err ErrNotFound => release_gone leaseID lease
      | Err _ => Ret (Err Internal)
      end
  | Err _ => Ret (Err Unavailable)
  | Ok true =>
      then! FinishVMRelease (named_pool (lease_pool_name lease) (lease_pool_namespace lease))
              vm lease (ls_notifier s) true in
      Ret (Ok tt)
  | Ok false => release_gone leaseID lease
  end.

Definition ReleaseVM (leaseID : string) : prog (result code unit) :=
  let! lease := store (OpGetLease leaseID) in
  match lease with
  | Err ErrNotFound => Ret (Err NotFound)
  | Err _ => Ret (Err Internal)
  | Ok lease =>
      let! vm := store (OpGetVM (lease_vm_uid lease)) in
      match vm with
      | Err ErrNotFound => release_gone leaseID lease
      | Err _ => Ret (Err Internal)
      | Ok vm => release_vm leaseID lease vm
      end
  end.

Definition ListLeases (poolRef : option PoolRef) : prog (result code (list LeaseRecord)) :=
  let! leases := store (OpListLeases poolRef) in
  Ret (match leases with Ok ls => Ok ls | Err _ => Err Internal end).
End lease_server.
