(* ===== verification/PoolAdmin.v ===== *)
(** * The PoolAdmin service: [src/internal/api/pooladmin.go]

    Creating, reading, listing, updating and deleting pools, with the per-pool
    lock and the [hostRefsMu] reader lock around the writes, and the pool's
    reconciler started and stopped through [PoolLifecycle]. *)

From stdpp Require Import base gmap strings list.
From Stdlib Require Import ZArith Lia.
From S2P Require Import Prelude Types Convert Store StoreOps Effects Flintlock Deletion.
From S2P Require Import Strategy Provision Reconciler.

(** ** Validation *)

Definition empty_PoolSpec : PoolSpec := named_pool "" "".

(** [spec.MicrovmTemplate.AllowGuestAgent = true]. *)
Definition allow_agent (t : MicroVMSpec) : MicroVMSpec :=
  {| spec_id := spec_id t; spec_namespace := spec_namespace t; allow_guest_agent := true;
     interfaces := interfaces t; spec_rest := spec_rest t |}.

Definition set_template (t : option MicroVMSpec) (p : PoolSpec) : PoolSpec :=
  {| pool_name := pool_name p; pool_namespace := pool_namespace p; microvm_template := t;
     pool_size := pool_size p; flintlock_hosts := flintlock_hosts p;
     replenishment_strategy := replenishment_strategy p; create_commands := create_commands p;
     pre_lease_commands := pre_lease_commands p; hook_failure_policy := hook_failure_policy p;
     heartbeat_interval := heartbeat_interval p;
     heartbeat_expiry_threshold := heartbeat_expiry_threshold p |}.

(** [spec.GetReplenishmentStrategy().GetType()]. *)
Definition GetType (p : PoolSpec) : ReplenishmentStrategyType :=
  strategy_type (default empty_strategy (replenishment_strategy p)).

Definition validateTemplateNetwork (spec : PoolSpec) : option code :=
  if decide ((pool_size spec <= 1)%Z /\ GetType spec <> IMMEDIATE_ON_LEASE /\
             hook_failure_policy spec <> QUARANTINE)
  then None
  else if TemplateHasStaticNetwork (microvm_template spec) then Some InvalidArgument else None.

(** The spec as the validation leaves it: it sets [AllowGuestAgent].  A nil
    spec reads as an empty one, whose name is missing. *)
Definition validatePoolSpec (spec : PoolSpec) : result code PoolSpec :=
  if decide (pool_name spec = "") then Err InvalidArgument
  else if decide (pool_namespace spec = "") then Err InvalidArgument
  else
    match NewStrategy (replenishment_strategy spec) with
    | Err _ => Err InvalidArgument
    | Ok _ =>
        match hook_failure_policy spec with
        | DELETE_AND_REPLACE | QUARANTINE =>
            match microvm_template spec with
            | None => Err InvalidArgument
            | Some t =>
                match validateTemplateNetwork spec with
                | Some c => Err c
                | None => Ok (set_template (Some (allow_agent t)) spec)
                end
            end
        | _ => Err InvalidArgument
        end
    end.

(** The names that are not those of a registered host, each once. *)
Definition unknown_hosts (hosts : list Host) (names : list string) : list string :=
  fold_left (fun unknown n =>
    if decide (n ∈ host_name <$> hosts) then unknown
    else if decide (n ∈ unknown) then unknown else unknown ++ [n]) names [].

Definition checkFlintlockHosts (spec : PoolSpec) : prog (option code) :=
  let! hosts := store OpListHosts in
  Ret (match hosts with
       | Err _ => Some Internal
       | Ok hosts =>
           match unknown_hosts hosts (flintlock_hosts spec) with
           | [] => None
           | _ => Some InvalidArgument
           end
       end).

(** ** Status *)

Record PoolStatus := {
  AvailableCount : Z;
  LeasedCount : Z;
  ProvisioningCount : Z;
  QuarantinedCount : Z
}.

Record Pool := { p_spec : PoolSpec; p_status : PoolStatus }.

Definition empty_status : PoolStatus :=
  {| AvailableCount := 0; LeasedCount := 0; ProvisioningCount := 0; QuarantinedCount := 0 |}.

Definition countsToStatus (c : VMCounts) : PoolStatus :=
  {| AvailableCount := wrap32 (Available c);
     LeasedCount := wrap32 (Claiming c + Leased c);
     ProvisioningCount := wrap32 (Provisioning c);
     QuarantinedCount := wrap32 (Quarantined c) |}.

(** The pool with its live status. *)
Definition with_status (spec : PoolSpec) : prog (result code Pool) :=
  let! counts := CountVMs (pool_name spec) (pool_namespace spec) in
  Ret (match counts with
       | Err _ => Err Internal
       | Ok c => Ok {| p_spec := spec; p_status := countsToStatus c |}
       end).

(** ** The handlers *)

(** [defer unlock()]: the mutex is held for the whole body. *)
Definition locked {A : Set} (m : mutex) (body : prog A) : prog A :=
  then! do (EAcquire m) in
  let! x := body in
  then! do (ERelease m) in
  Ret x.

Definition CreatePool_body (spec : PoolSpec) : prog (result code Pool) :=
  let! err := checkFlintlockHosts spec in
  match err with
  | Some c => Ret (Err c)
  | None =>
      let! old := store (OpGetPool (pool_name spec) (pool_namespace spec)) in
      match old with
      | Ok _ => Ret (Err AlreadyExists)
      | Err ErrNotFound =>
          let! err := store (OpCreatePool spec) in
          match err with
          | Err _ => Ret (Err Internal)
          | Ok _ =>
              then! do (EStart spec) in
              Ret (Ok {| p_spec := spec; p_status := empty_status |})
          end
      | Err _ => Ret (Err Internal)
      end
  end.

Definition CreatePool (spec : PoolSpec) : prog (result code Pool) :=
  match validatePoolSpec spec with
  | Err c => Ret (Err c)
  | Ok spec =>
      locked (PoolLock (pool_name spec) (pool_namespace spec))
        (locked HostRefsRead (CreatePool_body spec))
  end.

Definition GetPool (name namespace : string) : prog (result code Pool) :=
  let! spec := store (OpGetPool name namespace) in
  match spec with
  | Err ErrNotFound => Ret (Err NotFound)
  | Err _ => Ret (Err Internal)
  | Ok spec =>
      let! counts := CountVMs name namespace in
      Ret (match counts with
           | Err _ => Err Internal
           | Ok c => Ok {| p_spec := spec; p_status := countsToStatus c |}
           end)
  end.

Fixpoint list_pools (specs : list PoolSpec) : prog (result code (list Pool)) :=
  match specs with
  | [] => Ret (Ok [])
  | spec :: specs =>
      let! p := with_status spec in
      match p with
      | Err c => Ret (Err c)
      | Ok p =>
          let! ps := list_pools specs in
          Ret (match ps with Ok ps => Ok (p :: ps) | Err c => Err c end)
      end
  end.

Definition ListPools (namespace : option string) : prog (result code (list Pool)) :=
  let! specs := store OpListPools in
  match specs with
  | Err _ => Ret (Err Internal)
  | Ok specs =>
      list_pools (match namespace with
                  | Some ns => filter (fun p => pool_namespace p = ns) specs
                  | None => specs
                  end)
  end.

Definition UpdatePool_body (spec : PoolSpec) : prog (result code Pool) :=
  let! err := checkFlintlockHosts spec in
  match err with
  | Some c => Ret (Err c)
  | None =>
      let! old := store (OpGetPool (pool_name spec) (pool_namespace spec)) in
      match old with
      | Err ErrNotFound => Ret (Err NotFound)
      | Err _ => Ret (Err Internal)
      | Ok _ =>
          let! err := store (OpUpdatePool spec) in
          match err with
          | Err _ => Ret (Err Internal)
          | Ok _ =>
              then! do (EStop (pool_name spec) (pool_namespace spec)) in
              then! do (EStart spec) in
              with_status spec
          end
      end
  end.

Definition UpdatePool (spec : PoolSpec) : prog (result code Pool) :=
  match validatePoolSpec spec with
  | Err c => Ret (Err c)
  | Ok spec =>
      locked (PoolLock (pool_name spec) (pool_namespace spec))
        (locked HostRefsRead (UpdatePool_body spec))
  end.

Definition countLeased (vms : list VMRecord) : nat :=
  length (filter (fun v => vm_phase v = LEASED \/ vm_phase v = PRE_LEASE_HOOK_RUNNING) vms).

(** One goroutine of [deletePoolVMs]. *)
Definition delete_pool_vm (vm : VMRecord) : prog unit := then! EnsureVMDeleted vm in Ret tt.

(** [flint] is false for a nil client pool. *)
Definition deletePoolVMs (flint : bool) (spec : PoolSpec) (vms : list VMRecord) : prog unit :=
  then! for_each vms (fun vm => EmitEvent spec (vm_uid vm) VM_DELETED_ON_POOL_DELETE) in
  if flint then for_each vms (fun vm => go (delete_pool_vm vm)) else Ret tt.

Definition restartReconciler (spec : PoolSpec) : prog unit :=
  then! do (EStart spec) in Ret tt.

(** DeletePool once the pool was found and its early check passed. *)
Definition delete_found (flint : bool) (name ns : string) (force : bool) (spec : PoolSpec)
    : prog (result code unit) :=
  let! err := do (EStopWait name ns) in
  match err with
  | Some c => then! restartReconciler spec in Ret (Err c)
  | None =>
      let! vms := store (OpDeletePoolAndMarkVMs name ns force) in
      match vms with
      | Ok vms => then! deletePoolVMs flint spec vms in Ret (Ok tt)
      | Err ErrPoolHasLeasedVMs => then! restartReconciler spec in Ret (Err FailedPrecondition)
      | Err ErrNotFound => Ret (Err NotFound)
      | Err _ =>
          let! ctxErr := do ECtxErr in
          match ctxErr with
          | Some c => then! restartReconciler spec in Ret (Err c)
          | None => then! restartReconciler spec in Ret (Err Internal)
          end
      end
  end.

Definition DeletePool_body (flint : bool) (name ns : string) (force : bool)
    : prog (result code unit) :=
  let! spec := store (OpGetPool name ns) in
  match spec with
  | Err ErrNotFound => Ret (Err NotFound)
  | Err _ => Ret (Err Internal)
  | Ok spec =>
      if force then delete_found flint name ns force spec else
      let! vms := store (OpListVMsByPool name ns None) in
      match vms with
      | Err _ => Ret (Err Internal)
      | Ok vms =>
          if decide (0 < countLeased vms) then Ret (Err FailedPrecondition)
          else delete_found flint name ns force spec
      end
  end.

Definition DeletePool (flint : bool) (name ns : string) (force : bool) : prog (result code unit) :=
  locked (PoolLock name ns) (DeletePool_body flint name ns force).
