(* ===== verification/HostAdmin.v ===== *)
(** * The HostAdmin service: [src/internal/api/hostadmin.go]

    The registry of flintlock hosts, kept in step with the client pool's
    connections, and their cordon and drain state. *)

From stdpp Require Import base gmap strings list.
From Stdlib Require Import ZArith Lia.
From S2P Require Import Prelude Types Convert Store StoreOps Effects Flintlock Deletion.
From S2P Require Import Strategy Provision Reconciler PoolAdmin.

(** ** Cordons and drains *)

Definition CordonHost (name reason : string) : prog (result code Host) :=
  if decide (name = "") then Ret (Err InvalidArgument) else
  let! host := SetHostCordoned name true reason in
  Ret (match host with
       | Ok h => Ok h
       | Err ErrNotFound => Err FailedPrecondition
       | Err _ => Err Internal
       end).

Definition UncordonHost (name : string) : prog (result code Host) :=
  if decide (name = "") then Ret (Err InvalidArgument) else
  let! host := SetHostCordoned name false "" in
  Ret (match host with
       | Ok h => Ok h
       | Err ErrNotFound => Err FailedPrecondition
       | Err _ => Err Internal
       end).

Definition DrainHost (n : Notifier) (name reason : string) : prog (result code Host) :=
  if decide (name = "") then Ret (Err InvalidArgument) else
  let! r := store (OpDrainHost name reason) in
  match r with
  | Ok (host, vms) => then! DeleteDrainedVMs true vms n in Ret (Ok host)
  | Err ErrNotFound => Ret (Err NotFound)
  | Err _ =>
      let! ctxErr := do ECtxErr in
      match ctxErr with
      | Some c => Ret (Err c)
      | None => Ret (Err Internal)
      end
  end.

(** ** Reading *)

Record HostStatus := { hs_host : Host; hs_vmCount : Z; hs_flintlockVersion : string }.

Definition hostStatus (host : Host) : prog (result code HostStatus) :=
  let! count := store (OpCountVMsByHost (host_name host)) in
  match count with
  | Err _ => Ret (Err Internal)
  | Ok count =>
      let! version := Pool_FlintlockVersion (host_name host) in
      Ret (Ok {| hs_host := host; hs_vmCount := count;
                 hs_flintlockVersion := default "" version |})
  end.

Fixpoint host_statuses (hosts : list Host) : prog (result code (list HostStatus)) :=
  match hosts with
  | [] => Ret (Ok [])
  | h :: hosts =>
      let! st := hostStatus h in
      match st with
      | Err c => Ret (Err c)
      | Ok st =>
          let! rest := host_statuses hosts in
          Ret (match rest with Ok rest => Ok (st :: rest) | Err c => Err c end)
      end
  end.

Definition ListHosts : prog (result code (list HostStatus)) :=
  let! hosts := store OpListHosts in
  match hosts with
  | Err _ => Ret (Err Internal)
  | Ok hosts => host_statuses hosts
  end.

Definition GetHost (name : string) : prog (result code HostStatus) :=
  if decide (name = "") then Ret (Err InvalidArgument) else
  let! host := store (OpGetHost name) in
  match host with
  | Err ErrNotFound => Ret (Err NotFound)
  | Err _ => Ret (Err Internal)
  | Ok host => hostStatus host
  end.

(** ** Writing *)

Section host_admin.
Context `{Semver}.

Definition dialHost (host : Host) (skipValidation : bool) : prog (result code connRef) :=
  let! conn := Dial (Some host) in
  match conn with
  | Err ErrInvalidHost => Ret (Err InvalidArgument)
  | Err _ => Ret (Err FailedPrecondition)
  | Ok conn =>
      if skipValidation then Ret (Ok conn) else
      let! err := Conn_CheckVersion conn in
      match err with
      | Some _ => then! Conn_Close conn in Ret (Err FailedPrecondition)
      | None => Ret (Ok conn)
      end
  end.

Definition install (conn : connRef) : prog (option error) :=
  let! err := Pool_Update conn in
  match err with
  | Some ErrUnknownHost => Pool_Add conn
  | _ => Ret None
  end.

(** The row AddHost stores: the request's cordon fields are ignored. *)
Definition added_host (host : Host) (t : Timestamp) : Host :=
  {| host_name := host_name host; host_address := host_address host; host_cordoned := false;
     host_cordoned_reason := ""; host_cordoned_at := None; host_updated_at := Some t;
     host_tls := host_tls host; host_draining := false; host_draining_at := None |}.

(** AddHost once the name is known to be free. *)
Definition add_dialled (host : Host) (skipValidation : bool) : prog (result code Host) :=
  let! conn := dialHost host skipValidation in
  match conn with
  | Err c => Ret (Err c)
  | Ok conn =>
      let! err := store (OpCreateHost host) in
      match err with
      | Err e =>
          then! Conn_Close conn in
          Ret (Err (match e with ErrHostExists => AlreadyExists | _ => Internal end))
      | Ok _ =>
          let! err := install conn in
          match err with
          | Some _ => then! Conn_Close conn in Ret (Err Internal)
          | None => Ret (Ok host)
          end
      end
  end.

Definition AddHost_body (host : Host) (skipValidation : bool) : prog (result code Host) :=
  let! old := store (OpGetHost (host_name host)) in
  match old with
  | Err ErrNotFound => add_dialled host skipValidation
  | Ok _ => Ret (Err AlreadyExists)
  | Err _ => Ret (Err Internal)
  end.

Definition AddHost (host : Host) (skipValidation : bool) : prog (result code Host) :=
  let! t := now in
  let host := added_host host t in
  if decide (host_name host = "") then Ret (Err InvalidArgument) else
  locked (HostLock (host_name host)) (AddHost_body host skipValidation).

(** The message UpdateHost builds: name, address and TLS settings only. *)
Definition update_request (host : Host) : Host :=
  {| host_name := host_name host; host_address := host_address host; host_cordoned := false;
     host_cordoned_reason := ""; host_cordoned_at := None; host_updated_at := None;
     host_tls := host_tls host; host_draining := false; host_draining_at := None |}.

Definition UpdateHost_body (host : Host) (skipValidation : bool) : prog (result code Host) :=
  let! old := store (OpGetHost (host_name host)) in
  match old with
  | Err ErrNotFound => Ret (Err NotFound)
  | Err _ => Ret (Err Internal)
  | Ok _ =>
      let! conn := dialHost host skipValidation in
      match conn with
      | Err c => Ret (Err c)
      | Ok conn =>
          let! updated := Effects.UpdateHost host in
          match updated with
          | Err e =>
              then! Conn_Close conn in
              Ret (Err (match e with ErrNotFound => NotFound | _ => Internal end))
          | Ok updated =>
              let! err := install conn in
              match err with
              | Some _ => then! Conn_Close conn in Ret (Err Internal)
              | None => Ret (Ok updated)
              end
          end
      end
  end.

Definition UpdateHost (host : Host) (skipValidation : bool) : prog (result code Host) :=
  let host := update_request host in
  if decide (host_name host = "") then Ret (Err InvalidArgument) else
  locked (HostLock (host_name host)) (UpdateHost_body host skipValidation).

Definition RemoveHost_body (name : string) : prog (result code unit) :=
  let! err := locked HostRefsWrite (store (OpDeleteHost name)) in
  match err with
  | Err ErrNotFound => Ret (Err NotFound)
  | Err (HostInUseError _ _) => Ret (Err FailedPrecondition)
  | Err _ => Ret (Err Internal)
  | Ok _ => then! Pool_Remove name in Ret (Ok tt)
  end.

Definition RemoveHost (name : string) : prog (result code unit) :=
  if decide (name = "") then Ret (Err InvalidArgument) else
  locked (HostLock name) (RemoveHost_body name).
End host_admin.
