(* ===== verification/EventsApi.v ===== *)
(** * The Events service: [src/internal/api/events.go]

    Subscribe replays the outbox in batches and then follows it. *)

From stdpp Require Import base gmap strings list.
From Stdlib Require Import ZArith Lia.
From S2P Require Import Prelude Types Convert Store StoreOps Effects.

Definition DefaultEventsPollInterval : Duration := 1000000000.
Definition DefaultEventsBatchSize : Z := 100.

Record EventsServer := { pollInterval : Duration; batchSize : Z }.

Definition NewEventsServer (poll : Duration) (batch : Z) : EventsServer :=
  {| pollInterval := if decide (poll <= 0)%Z then DefaultEventsPollInterval else poll;
     batchSize := if decide (batch <= 0)%Z then DefaultEventsBatchSize else batch |}.

Definition listEventsSince (ref : option PoolRef) (sinceID limit : Z)
    : prog (result StoreError (list Event)) :=
  match ref with
  | None => store (OpListAllEventsSince sinceID limit)
  | Some p => store (OpListEventsSince (ref_name p) (ref_namespace p) sinceID limit)
  end.

(** Send a batch; the id of the last event sent, or the send's error. *)
Fixpoint send_batch (events : list Event) (sinceID : Z) : prog (result code Z) :=
  match events with
  | [] => Ret (Ok sinceID)
  | e :: events =>
      let! err := do (ESend e) in
      match err with
      | Some c => Ret (Err c)
      | None => send_batch events (event_id e)
      end
  end.

(** [rounds] is how many more batches the subscriber stays for: the context is
    done after them.  The loop of the source has no other end, and any number is
    possible, so that the runs are all the finite parts of the stream.  The answer is the RPC's status and the last id sent. *)
Fixpoint subscribe (s : EventsServer) (ref : option PoolRef) (sinceID : Z) (rounds : nat)
    : prog (option code * Z) :=
  match rounds with
  | O => Ret (None, sinceID)
  | S rounds =>
      let! events := listEventsSince ref sinceID (batchSize s) in
      match events with
      | Err _ => Ret (Some Internal, sinceID)
      | Ok events =>
          let! sent := send_batch events sinceID in
          match sent with
          | Err c => Ret (Some c, sinceID)
          | Ok sinceID => subscribe s ref sinceID rounds
          end
      end
  end.

Definition Subscribe (s : EventsServer) (ref : option PoolRef) : prog (option code) :=
  let! rounds := do EBudget in
  let! (err, _) := subscribe s ref 0 rounds in
  Ret err.
