(* ===== verification/Protocols.v ===== *)
(** * Protocols of the goroutines

    The entry points of the process ([entry]), the effects that no protocol
    restricts ([benign]) and which functions only have such effects, and the
    tactic that checks a program against a protocol, one effect at a time. *)

From stdpp Require Import base gmap strings list.
From Stdlib Require Import ZArith Lia.
From S2P Require Import Prelude Types Convert Store StoreOps Effects Flintlock Deletion.
From S2P Require Import Strategy Provision Reconciler Sweeper LeaseApi PoolAdmin HostAdmin.
From S2P Require Import EventsApi.

(** ** Entry points *)

(** The goroutine of a request or loop; its answer goes to the client or the
    log. *)
Definition ignore {A : Set} (p : prog A) : prog unit := then! p in Ret tt.

Section entry.
Context `{Semver}.

Inductive entry : prog unit -> Prop :=
  | entry_ClaimVM s req : entry (ignore (ClaimVM s req))
  | entry_Heartbeat id : entry (ignore (Heartbeat id))
  | entry_ReleaseVM s id : entry (ignore (ReleaseVM s id))
  | entry_ListLeases ref : entry (ignore (LeaseApi.ListLeases ref))
  | entry_CreatePool spec : pool_strings_ok spec -> entry (ignore (PoolAdmin.CreatePool spec))
  | entry_GetPool n ns : entry (ignore (PoolAdmin.GetPool n ns))
  | entry_ListPools ns : entry (ignore (PoolAdmin.ListPools ns))
  | entry_UpdatePool spec : pool_strings_ok spec -> entry (ignore (PoolAdmin.UpdatePool spec))
  | entry_DeletePool fl n ns force : entry (ignore (PoolAdmin.DeletePool fl n ns force))
  | entry_CordonHost n r : entry (ignore (CordonHost n r))
  | entry_UncordonHost n : entry (ignore (UncordonHost n))
  | entry_DrainHost nt n r : entry (ignore (HostAdmin.DrainHost nt n r))
  | entry_ListHosts : entry (ignore HostAdmin.ListHosts)
  | entry_GetHost n : entry (ignore (HostAdmin.GetHost n))
  | entry_AddHost h skip : entry (ignore (AddHost h skip))
  | entry_UpdateHost h skip : entry (ignore (HostAdmin.UpdateHost h skip))
  | entry_RemoveHost n : entry (ignore (RemoveHost n))
  | entry_Subscribe s ref : entry (ignore (Subscribe s ref))
  | entry_Run cfg pool s triggers : entry (Run cfg pool s triggers)
  | entry_Sweeper s ticks : entry (ignore (Sweeper_Run s ticks))
  | entry_RecoverClaims : entry (ignore RecoverAbandonedClaims)
  | entry_RecoverProvisions : entry (ignore RecoverAbandonedProvisions).
End entry.

(** ** Effects no protocol restricts *)

Definition benign_op {A} (o : storeOp A) : bool :=
  match o with
  | OpCreatePool _ | OpUpdatePool _ | OpDeletePool _ _ | OpDeletePoolAndMarkVMs _ _ _
  | OpCreateVM _ | OpUpdateVM _ | OpDeleteVM _ | OpDeleteVMCheckingPool _
  | OpClaimAvailableVM _ _ | OpCreateLease _ | OpLeaseVM _ _
  | OpCreateHost _ | OpDeleteHost _
  | OpReservePlacement _ _ _ _ | OpReleasePlacement _ | OpClearPlacements => false
  | _ => true
  end.

Definition benign_rpc {A} (r : rpc A) : bool :=
  match r with GetMicroVM _ | ServerInfo => true | _ => false end.

Definition benign (X : Set) (e : eff X) : bool :=
  match e with
  | EStore o => benign_op o
  | ERpc _ r => benign_rpc r
  | EAcquire _ | ERelease _ => false
  | EStart _ | EStop _ _ | EStopWait _ _ => false
  | _ => true
  end.

(** Every effect of the program passes the test [b], whatever the answers. *)
Fixpoint every (b : forall X : Set, eff X -> bool) {A : Set} (p : prog A) : Prop :=
  match p with
  | Ret _ => True
  | Do e k => b _ e = true /\ forall x, every b (k x)
  | Fork c k => every b c /\ every b k
  end.

Lemma every_bind b {A B : Set} (p : prog A) (f : A -> prog B) :
  every b p -> (forall x, every b (f x)) -> every b (bind p f).
Proof. induction p; simpl; naive_solver. Qed.

Lemma every_for_each b {X} (l : list X) (f : X -> prog unit) :
  (forall x, every b (f x)) -> every b (for_each l f).
Proof. intros Hf. induction l; simpl; [done|]. by apply every_bind. Qed.

Lemma every_mono (b b' : forall X : Set, eff X -> bool) {A : Set} (p : prog A) :
  (forall X (e : eff X), b X e = true -> b' X e = true) -> every b p -> every b' p.
Proof. intros Hb. induction p; simpl; naive_solver. Qed.

(** Every effect is benign. *)
Definition harmless {A : Set} (p : prog A) : Prop := every benign p.

Lemma harmless_bind {A B : Set} (p : prog A) (f : A -> prog B) :
  harmless p -> (forall x, harmless (f x)) -> harmless (bind p f).
Proof. apply every_bind. Qed.

Lemma harmless_for_each {X} (l : list X) (f : X -> prog unit) :
  (forall x, harmless (f x)) -> harmless (for_each l f).
Proof. apply every_for_each. Qed.

(** A protocol that lets benign effects pass. *)
Class Lenient (P : protocol) : Prop := {
  benign_allowed s X (e : eff X) : benign X e = true -> allowed P s X e;
  benign_next s X (e : eff X) x : benign X e = true -> next P s X e x = s;
  idle_final : final P (idle P)
}.

(** [p] keeps the protocol in whatever state it is started, and leaves the
    state as it was. *)
Definition keeps (P : protocol) {A : Set} (p : prog A) : Prop :=
  forall s, respects P p s (fun _ s' => s' = s).

Lemma harmless_keeps P `{!Lenient P} {A : Set} (p : prog A) : harmless p -> keeps P p.
Proof.
  unfold harmless. intros Hp s. revert Hp s. induction p as [A x|A X e k IH|A c IHc k IHk]; simpl.
  - done.
  - intros [He Hk] s. split; [by apply benign_allowed|]. intros x.
    rewrite benign_next by done. by apply IH.
  - intros [Hc Hk] s. split; [|by apply IHk].
    eapply respects_mono; [|by apply IHc]. intros [] s' ->. apply idle_final.
Qed.

(** ** Harmless functions *)

Create HintDb harmless.

(** Walk through a program: bind, effect, case or a function already done. *)
Ltac harmless_step :=
  lazymatch goal with
  | |- harmless (bind _ _) => apply harmless_bind; [|intros]
  | |- harmless (Ret _) => exact I
  | |- harmless (do _) => split; [reflexivity|intros; exact I]
  | |- harmless (store _) => split; [reflexivity|intros; exact I]
  | |- harmless now => split; [reflexivity|intros; exact I]
  | |- harmless (Do _ _) => split; [reflexivity|intros]
  | |- harmless (for_each _ _) => apply harmless_for_each; intros
  | |- harmless (match ?x with _ => _ end) => destruct x
  | |- harmless _ => solve [eauto with harmless]
  | |- forall _, _ => intros
  end.
Ltac harmless_tac := repeat harmless_step.

Lemma h_conn h : harmless (Pool_conn h).
Proof. unfold Pool_conn. harmless_tac. Qed.
#[export] Hint Resolve h_conn : harmless.
Lemma h_Client h : harmless (Client h).
Proof. apply h_conn. Qed.
Lemma h_ExecClient h : harmless (ExecClient h).
Proof. apply h_conn. Qed.
Lemma h_Address h : harmless (Address h).
Proof. unfold Address. harmless_tac. Qed.
Lemma h_creds t : harmless (dialCredentials t).
Proof. unfold dialCredentials. harmless_tac. Qed.
#[export] Hint Resolve h_Client h_ExecClient h_Address h_creds : harmless.
Lemma h_Dial h : harmless (Dial h).
Proof. unfold Dial. harmless_tac. Qed.
Lemma h_Close c : harmless (Conn_Close c).
Proof. unfold Conn_Close. harmless_tac. Qed.
#[export] Hint Resolve h_Dial h_Close : harmless.
Lemma h_Add c : harmless (Pool_Add c).
Proof. unfold Pool_Add. harmless_tac. Qed.
Lemma h_Update c : harmless (Pool_Update c).
Proof. unfold Pool_Update. harmless_tac. Qed.
Lemma h_Remove c : harmless (Pool_Remove c).
Proof. unfold Pool_Remove. harmless_tac. Qed.
#[export] Hint Resolve h_Add h_Update h_Remove : harmless.

Section versions.
Context `{Semver}.

Lemma h_ConnCheck c : harmless (Conn_CheckVersion c).
Proof. unfold Conn_CheckVersion. harmless_tac. Qed.
#[local] Hint Resolve h_ConnCheck : harmless.
Lemma h_CheckVersion h : harmless (Pool_CheckVersion h).
Proof. unfold Pool_CheckVersion. harmless_tac. Qed.
Lemma h_dialHost h skip : harmless (dialHost h skip).
Proof. unfold dialHost. harmless_tac. Qed.
Lemma h_install c : harmless (install c).
Proof. unfold install. harmless_tac. Qed.
End versions.
#[export] Hint Resolve h_ConnCheck h_CheckVersion h_dialHost h_install : harmless.

Lemma h_Version h : harmless (Pool_FlintlockVersion h).
Proof. unfold Pool_FlintlockVersion, Conn_FlintlockVersion. harmless_tac. Qed.
Lemma h_Exec c u cmd t : harmless (Exec c u cmd t).
Proof. unfold Exec. harmless_tac. Qed.
#[export] Hint Resolve h_Version h_Exec : harmless.
Lemma h_wait_ready c u n : harmless (wait_ready c u n).
Proof. induction n; cbn [wait_ready]; harmless_tac. Qed.
#[export] Hint Resolve h_wait_ready : harmless.
Lemma h_WaitReady c u i : harmless (WaitReady c u i).
Proof. unfold WaitReady. harmless_tac. Qed.
Lemma h_wait_created c u n : harmless (wait_created c u n).
Proof. induction n; cbn [wait_created]; harmless_tac. Qed.
#[export] Hint Resolve h_WaitReady h_wait_created : harmless.
Lemma h_waitCreated c u : harmless (waitCreated c u).
Proof. unfold waitCreated. harmless_tac. Qed.
Lemma h_run_commands c u t cmds : harmless (run_commands c u t cmds).
Proof. induction cmds; cbn [run_commands]; harmless_tac. Qed.
Lemma h_EmitEvent p u t : harmless (EmitEvent p u t).
Proof. unfold EmitEvent. harmless_tac. Qed.
Lemma h_NotifyDeleted n p ns : harmless (NotifyVMDeleted n p ns).
Proof. unfold NotifyVMDeleted. harmless_tac. Qed.
Lemma h_NotifyClaimed n p ns : harmless (NotifyVMClaimed n p ns).
Proof. unfold NotifyVMClaimed. harmless_tac. Qed.
#[export] Hint Resolve h_waitCreated h_run_commands h_EmitEvent h_NotifyDeleted
  h_NotifyClaimed : harmless.
Lemma h_FinishRelease p v l n m : harmless (FinishVMRelease p v l n m).
Proof. unfold FinishVMRelease. harmless_tac. Qed.
#[export] Hint Resolve h_FinishRelease : harmless.
Lemma h_FinishDeletion p v n m : harmless (FinishVMDeletion p v n m).
Proof. unfold FinishVMDeletion. harmless_tac. Qed.
Lemma h_ineligible p : harmless (ineligibleHosts p).
Proof. unfold ineligibleHosts. harmless_tac. Qed.
Lemma h_PickHost p l : harmless (PickHost p l).
Proof. unfold PickHost. harmless_tac. Qed.
Lemma h_CountVMs p ns : harmless (CountVMs p ns).
Proof. unfold CountVMs. harmless_tac. Qed.
Lemma h_cap p : harmless (capForStaticNetwork p).
Proof. unfold capForStaticNetwork. harmless_tac. Qed.
Lemma h_warn l : harmless (warnExpiringSoon l).
Proof. unfold warnExpiringSoon. harmless_tac. Qed.
Lemma h_claimResponse i v : harmless (claimResponse i v).
Proof. unfold claimResponse. harmless_tac. Qed.
#[export] Hint Resolve h_FinishDeletion h_ineligible h_PickHost h_CountVMs h_cap h_warn
  h_claimResponse : harmless.
Lemma h_replay l p ns : harmless (replayClaim l p ns).
Proof. unfold replayClaim. harmless_tac. Qed.
Lemma h_Heartbeat i : harmless (Heartbeat i).
Proof. unfold Heartbeat. harmless_tac. Qed.
Lemma h_release_gone s i l : harmless (release_gone s i l).
Proof. unfold release_gone. harmless_tac. Qed.
Lemma h_ListLeases r : harmless (LeaseApi.ListLeases r).
Proof. unfold LeaseApi.ListLeases. harmless_tac. Qed.
Lemma h_checkHosts p : harmless (checkFlintlockHosts p).
Proof. unfold checkFlintlockHosts. harmless_tac. Qed.
Lemma h_with_status p : harmless (with_status p).
Proof. unfold with_status. harmless_tac. Qed.
#[export] Hint Resolve h_replay h_Heartbeat h_release_gone h_ListLeases h_checkHosts
  h_with_status : harmless.
Lemma h_list_pools l : harmless (list_pools l).
Proof. induction l; cbn [list_pools]; harmless_tac. Qed.
#[export] Hint Resolve h_list_pools : harmless.
Lemma h_ListPools ns : harmless (PoolAdmin.ListPools ns).
Proof. unfold PoolAdmin.ListPools. harmless_tac. Qed.
Lemma h_GetPool n ns : harmless (PoolAdmin.GetPool n ns).
Proof. unfold PoolAdmin.GetPool. harmless_tac. Qed.
Lemma h_SetHostCordoned n b r : harmless (SetHostCordoned n b r).
Proof. unfold SetHostCordoned. harmless_tac. Qed.
Lemma h_UpdateHost h : harmless (Effects.UpdateHost h).
Proof. unfold Effects.UpdateHost. harmless_tac. Qed.
#[export] Hint Resolve h_SetHostCordoned h_UpdateHost : harmless.
Lemma h_Cordon n r : harmless (CordonHost n r).
Proof. unfold CordonHost. harmless_tac. Qed.
Lemma h_Uncordon n : harmless (UncordonHost n).
Proof. unfold UncordonHost. harmless_tac. Qed.
Lemma h_hostStatus h : harmless (hostStatus h).
Proof. unfold hostStatus. harmless_tac. Qed.
#[export] Hint Resolve h_ListPools h_GetPool h_Cordon h_Uncordon h_hostStatus : harmless.
Lemma h_host_statuses l : harmless (host_statuses l).
Proof. induction l; cbn [host_statuses]; harmless_tac. Qed.
#[export] Hint Resolve h_host_statuses : harmless.
Lemma h_ListHosts : harmless HostAdmin.ListHosts.
Proof. unfold HostAdmin.ListHosts. harmless_tac. Qed.
Lemma h_GetHost n : harmless (HostAdmin.GetHost n).
Proof. unfold HostAdmin.GetHost. harmless_tac. Qed.
Lemma h_send l i : harmless (send_batch l i).
Proof. revert i; induction l; cbn [send_batch]; intros; harmless_tac. Qed.
Lemma h_listEvents r i n : harmless (listEventsSince r i n).
Proof. unfold listEventsSince. harmless_tac. Qed.
#[export] Hint Resolve h_ListHosts h_GetHost h_send h_listEvents : harmless.
Lemma h_subscribe s r i n : harmless (subscribe s r i n).
Proof. revert i; induction n; cbn [subscribe]; intros; harmless_tac. Qed.
#[export] Hint Resolve h_subscribe : harmless.
Lemma h_Subscribe s r : harmless (Subscribe s r).
Proof. unfold Subscribe. harmless_tac. Qed.
#[export] Hint Resolve h_Subscribe : harmless.

(** ** Programs that leave the registries alone

    No effect touches a lock, writes the pool or host tables, or starts or stops
    a reconciler. *)

Definition tame_ok (X : Set) (e : eff X) : bool :=
  match e with
  | EStore (OpCreatePool _) | EStore (OpUpdatePool _) => false
  | EStore (OpDeletePool _ _) | EStore (OpDeletePoolAndMarkVMs _ _ _) => false
  | EStore (OpCreateHost _) | EStore (OpDeleteHost _) => false
  | EAcquire _ | ERelease _ => false
  | EStart _ | EStop _ _ | EStopWait _ _ => false
  | _ => true
  end.

Definition tame {A : Set} (p : prog A) : Prop := every tame_ok p.

Lemma tame_harmless {A : Set} (p : prog A) : harmless p -> tame p.
Proof. apply every_mono. intros X e. destruct e; try done. by destruct o. Qed.

Lemma tame_bind {A B : Set} (p : prog A) (f : A -> prog B) :
  tame p -> (forall x, tame (f x)) -> tame (bind p f).
Proof. apply every_bind. Qed.

Lemma tame_for_each {X} (l : list X) (f : X -> prog unit) :
  (forall x, tame (f x)) -> tame (for_each l f).
Proof. apply every_for_each. Qed.

Lemma tame_go (p : prog unit) : tame p -> tame (go p).
Proof. by split. Qed.

Create HintDb tame.

Ltac tame_step :=
  lazymatch goal with
  | |- tame (bind _ _) => apply tame_bind; [|intros]
  | |- tame (Ret _) => exact I
  | |- tame (do _) => split; [reflexivity|intros; exact I]
  | |- tame (store _) => split; [reflexivity|intros; exact I]
  | |- tame now => split; [reflexivity|intros; exact I]
  | |- tame (go _) => apply tame_go
  | |- tame (for_each _ _) => apply tame_for_each; intros
  | |- tame (match ?x with _ => _ end) => destruct x
  | |- tame _ => first [ solve [eauto with tame]
                       | apply tame_harmless; solve [eauto using harmless_for_each with harmless] ]
  | |- forall _, _ => intros
  end.
Ltac tame_tac := repeat tame_step.

Lemma tame_EnsureCP v : tame (EnsureVMDeletedCheckingPool v).
Proof. unfold EnsureVMDeletedCheckingPool, delete_marked. tame_tac. Qed.
#[export] Hint Resolve tame_EnsureCP : tame.
Lemma tame_Ensure v : tame (EnsureVMDeleted v).
Proof. unfold EnsureVMDeleted. tame_tac. Qed.
#[export] Hint Resolve tame_Ensure : tame.
Lemma tame_DeleteDrained fl vms n : tame (DeleteDrainedVMs fl vms n).
Proof. unfold DeleteDrainedVMs, delete_drained. tame_tac. Qed.
Lemma tame_deletePoolVMs fl p vms : tame (deletePoolVMs fl p vms).
Proof. unfold deletePoolVMs, delete_pool_vm. tame_tac. Qed.
Lemma tame_Apply p v h m : tame (ApplyHookFailurePolicy p v h m).
Proof. unfold ApplyHookFailurePolicy, deleteAfterHookFailure. tame_tac. Qed.
Lemma tame_deleteOrphan v : tame (deleteOrphan v).
Proof. unfold deleteOrphan. tame_tac. Qed.
#[export] Hint Resolve tame_DeleteDrained tame_deletePoolVMs tame_Apply tame_deleteOrphan : tame.
Lemma tame_apply p v : tame (applyHookFailurePolicy p v).
Proof. unfold applyHookFailurePolicy. tame_tac. Qed.
#[export] Hint Resolve tame_apply : tame.
Lemma tame_updatePhase p v ph : tame (updatePhase p v ph).
Proof. unfold updatePhase. tame_tac. Qed.
#[export] Hint Resolve tame_updatePhase : tame.
Lemma tame_recorded cfg p h c v : tame (provision_recorded cfg p h c v).
Proof. unfold provision_recorded, provision_hooks, fail_with. tame_tac. Qed.
#[export] Hint Resolve tame_recorded : tame.

Section provision.
Context `{Semver}.
Lemma tame_Provision cfg p : tame (Provision cfg p).
Proof. unfold Provision, provision_body, provision_reserved, release. tame_tac. Qed.
#[local] Hint Resolve tame_Provision : tame.
Lemma tame_start cfg p n : tame (start_provisions cfg p n).
Proof. induction n; cbn [start_provisions]; tame_tac. Qed.
#[local] Hint Resolve tame_start : tame.
Lemma tame_Run cfg p st ts : tame (Run cfg p st ts).
Proof. unfold Run, reconcile, provisionN. tame_tac. Qed.
End provision.
#[export] Hint Resolve tame_Run : tame.

Lemma tame_policy s p v : tame (apply_pre_lease_policy s p v).
Proof. unfold apply_pre_lease_policy. tame_tac. Qed.
#[export] Hint Resolve tame_policy : tame.
Lemma tame_loop s c p v cmds : tame (pre_lease_commands_loop s c p v cmds).
Proof. induction cmds; cbn [pre_lease_commands_loop]; tame_tac. Qed.
#[export] Hint Resolve tame_loop : tame.
Lemma tame_ClaimVM s req : tame (ClaimVM s req).
Proof. unfold ClaimVM, fresh_claim, runPreLeaseHooks, commit_claim, yieldClaim. tame_tac. Qed.
Lemma tame_ReleaseVM s id : tame (ReleaseVM s id).
Proof. unfold ReleaseVM, release_vm. tame_tac. Qed.
#[export] Hint Resolve tame_ClaimVM tame_ReleaseVM : tame.
Lemma tame_sweep s t w ls : tame (sweep_leases s t w ls).
Proof.
  revert w. induction ls as [|l ls IH]; intros w; cbn [sweep_leases]; [done|].
  unfold sweep_lease, beginExpiry. tame_tac.
Qed.
#[export] Hint Resolve tame_sweep : tame.
Lemma tame_Tick s t : tame (Sweeper.Tick s t).
Proof. unfold Sweeper.Tick, retryPendingDeletions, retry_deletion, drainHosts. tame_tac. Qed.
#[export] Hint Resolve tame_Tick : tame.
Lemma tame_SweeperRun s n : tame (Sweeper_Run s n).
Proof. revert s. induction n; intros s; cbn [Sweeper_Run]; tame_tac. Qed.
Lemma tame_mark k vms n : tame (mark_abandoned k vms n).
Proof. revert n. induction vms; intros n; cbn [mark_abandoned]; tame_tac. Qed.
#[export] Hint Resolve tame_SweeperRun tame_mark : tame.
Lemma tame_recover k phs n : tame (recover_phases k phs n).
Proof. revert n. induction phs; intros n; cbn [recover_phases]; tame_tac. Qed.
#[export] Hint Resolve tame_recover : tame.

(** Any test that the tame effects pass, of a program whose other effects are
    in sight; [from_tame] is the lemma that they pass it. *)
Ltac every_step from_tame :=
  lazymatch goal with
  | |- every _ (bind _ _) => apply every_bind; [|intros]
  | |- every _ (Ret _) => exact I
  | |- every _ (do _) => split; [reflexivity|intros; exact I]
  | |- every _ (store _) => split; [reflexivity|intros; exact I]
  | |- every _ (match ?x with _ => _ end) => destruct x
  | |- every _ _ => apply from_tame; tame_tac
  | |- forall _, _ => intros
  end.
Ltac every_tac from_tame := repeat every_step from_tame.

(** ** Checking a program against a protocol *)

Lemma keeps_use P {A : Set} (p : prog A) s (Q : A -> St P -> Prop) :
  keeps P p -> (forall x, Q x s) -> respects P p s Q.
Proof. intros Hp HQ. eapply respects_mono; [|apply Hp]. intros x s' ->. apply HQ. Qed.

Lemma harmless_use P `{!Lenient P} {A : Set} (p : prog A) s (Q : A -> St P -> Prop) :
  harmless p -> (forall x, Q x s) -> respects P p s Q.
Proof. intros Hp%(harmless_keeps P). by apply keeps_use. Qed.

Lemma keeps_bind P {A B : Set} (p : prog A) (f : A -> prog B) :
  keeps P p -> (forall x, keeps P (f x)) -> keeps P (bind p f).
Proof. intros Hp Hf s. apply respects_bind. apply keeps_use; [done|]. intros x. apply Hf. Qed.

Lemma keeps_for_each P {X} (l : list X) (f : X -> prog unit) :
  (forall x, keeps P (f x)) -> keeps P (for_each l f).
Proof. intros Hf s. apply respects_for_each. intros x _. apply Hf. Qed.

Lemma keeps_go P (p : prog unit) :
  respects P p (idle P) (fun _ => final P) -> keeps P (go p).
Proof. intros Hp s. by split. Qed.

Lemma obeys_keeps P {A : Set} (p : prog A) s : final P s -> keeps P p -> obeys P s (ignore p).
Proof. intros Hs Hp. apply respects_bind. by apply keeps_use. Qed.

Create HintDb proto.

(** [proto_step] walks one step; [done_step] proves that an effect is allowed
    and computes the next state. *)
Ltac proto_step allow :=
  lazymatch goal with
  | |- respects _ (bind _ _) _ _ => apply respects_bind
  | |- respects _ (Ret _) _ _ => cbn [respects]
  | |- respects _ (do _) _ _ => split; [allow|intros; cbn [respects]]
  | |- respects _ (store _) _ _ => split; [allow|intros; cbn [respects]]
  | |- respects _ now _ _ => split; [allow|intros; cbn [respects]]
  | |- respects _ (match ?x with _ => _ end) _ _ => destruct x eqn:?
  | |- respects ?P _ _ _ =>
      first [ apply (harmless_use P); [solve [eauto with harmless]|intros]
            | apply keeps_use; [solve [eauto with proto]|intros] ]
  end.
