(* ===== verification/Ownership.v ===== *)
(** * No VM is handed out twice

    A claim or a provision works on its VM over many separate store calls,
    between which every other goroutine can run.  What keeps them apart is a
    discipline: a goroutine moves a VM between phases only while it owns it,
    from the call that claimed or recorded it to the call that gives it up;
    everyone else can at most mark it DELETING.  [ownership] is that discipline
    as a protocol, every entry point keeps to it, and in every interleaving of
    any number of goroutines the leases then stay consistent. *)

From stdpp Require Import base gmap strings list relations.
From Stdlib Require Import ZArith Lia.
From S2P Require Import Prelude Types Convert Store StoreOps Concrete StoreProps Effects.
From S2P Require Import ConcreteEnv Flintlock Deletion Strategy Provision Reconciler Sweeper.
From S2P Require Import LeaseApi PoolAdmin HostAdmin EventsApi Protocols.

(** ** The protocol *)

(** [Fresh u]: flintlock has just created [u] for this goroutine and no row
    exists yet.  [Owns u]: the goroutine claimed or recorded [u]. *)
Inductive own := Idle | Fresh (u : string) | Owns (u : string).

(** The phases a VM can have while a goroutine goes on owning it. *)
Definition in_progress (p : VMPhase) : Prop :=
  p = PROVISIONING \/ p = CREATE_HOOK_RUNNING \/ p = PRE_LEASE_HOOK_RUNNING \/ p = DELETING.

#[export] Instance in_progress_dec p : Decision (in_progress p).
Proof. unfold in_progress; apply _. Defined.

Definition own_op {A} (s : own) (o : storeOp A) : Prop :=
  match o with
  | OpCreateVM v => s = Fresh (vm_uid v) /\ (vm_phase v = PROVISIONING \/ vm_phase v = DELETING)
  | OpUpdateVM v => vm_phase v = DELETING \/ (s = Owns (vm_uid v) /\ vm_phase v <> LEASED)
  | OpLeaseVM v l => s = Owns (vm_uid v) /\ lease_vm_uid l = vm_uid v /\
      vm_phase v = LEASED /\ vm_lease_id v = Some (lease_id l)
  | OpClaimAvailableVM _ _ => s = Idle
  | OpCreateLease _ => False
  | OpCreateHost h => host_draining h = true -> host_cordoned h = true
  | _ => True
  end.

Definition own_allowed (s : own) (X : Set) (e : eff X) : Prop :=
  match e with
  | EStore o => own_op s o
  | ERpc _ (CreateMicroVM _) => s = Idle
  | _ => True
  end.

Definition own_next (s : own) (X : Set) (e : eff X) : X -> own :=
  match e in eff Y return Y -> own with
  | EStore o =>
      match o in storeOp A return result StoreError A -> own with
      | OpCreateVM v => fun r =>
          if is_Ok r then if decide (vm_phase v = DELETING) then Idle else Owns (vm_uid v) else s
      | OpUpdateVM v => fun r =>
          if is_Ok r then if decide (in_progress (vm_phase v)) then s else Idle else s
      | OpLeaseVM _ _ => fun r => if is_Ok r then Idle else s
      | OpClaimAvailableVM _ _ => fun r => match r with Ok v => Owns (vm_uid v) | Err _ => s end
      | _ => fun _ => s
      end
  | ERpc _ r =>
      match r in rpc A return result code A -> own with
      | CreateMicroVM _ => fun x => match x with Ok u => Fresh u | Err _ => s end
      | _ => fun _ => s
      end
  | _ => fun _ => s
  end.

Definition ownership : protocol :=
  {| St := own; idle := Idle; allowed := own_allowed; next := own_next;
     final := fun _ => True |}.

#[export] Instance ownership_lenient : Lenient ownership.
Proof.
  split; [intros s X e|intros s X e x|done]; destruct e; try done; simpl;
    try (destruct o; done); try (destruct r; done).
Qed.

(** ** Every entry point keeps to it *)

Ltac own_allow := cbn [allowed ownership own_allowed own_op]; solve [done | simpl; auto | naive_solver].
Ltac own_tac := repeat (proto_step own_allow; cbn [next ownership own_next is_Ok] in * ).

Lemma own_delete_marked v : keeps ownership (delete_marked v).
Proof. intros s. unfold delete_marked. own_tac; done. Qed.
#[local] Hint Resolve own_delete_marked : proto.

Lemma own_EnsureCP v : keeps ownership (EnsureVMDeletedCheckingPool v).
Proof.
  intros s. unfold EnsureVMDeletedCheckingPool. own_tac; try done.
  all: simpl; rewrite ?decide_True by (unfold in_progress; auto); by try case_match.
Qed.
#[local] Hint Resolve own_EnsureCP : proto.

Lemma own_Ensure v : keeps ownership (EnsureVMDeleted v).
Proof. intros s. unfold EnsureVMDeleted. own_tac. done. Qed.
#[local] Hint Resolve own_Ensure : proto.

Lemma own_delete_drained n v : keeps ownership (delete_drained n v).
Proof. intros s. unfold delete_drained. own_tac; done. Qed.

Lemma own_DeleteDrained fl vms n : keeps ownership (DeleteDrainedVMs fl vms n).
Proof.
  intros s. unfold DeleteDrainedVMs. own_tac; try done.
  - apply harmless_use; [apply _|eauto using harmless_for_each with harmless|]. intros _.
    destruct fl; [|done]. apply keeps_for_each. intros v. apply keeps_go.
    apply keeps_use; [apply own_delete_drained|done].
Qed.

Lemma own_deletePoolVMs fl p vms : keeps ownership (deletePoolVMs fl p vms).
Proof.
  intros s. unfold deletePoolVMs. own_tac.
  apply harmless_use; [apply _|eauto using harmless_for_each with harmless|]. intros _.
  destruct fl; [|done]. apply keeps_for_each. intros v. apply keeps_go.
  unfold delete_pool_vm. own_tac. done.
Qed.

Lemma own_deleteAfter v : keeps ownership (deleteAfterHookFailure v).
Proof.
  intros s. unfold deleteAfterHookFailure. own_tac; try done.
  all: simpl; rewrite ?decide_True by (unfold in_progress; auto); by try case_match.
Qed.
#[local] Hint Resolve own_DeleteDrained own_deletePoolVMs own_deleteAfter : proto.

(** A hook failure ends the ownership, one way or another. *)
Lemma own_Apply p v h m :
  respects ownership (ApplyHookFailurePolicy p v h m) (Owns (vm_uid v)) (fun _ _ => True).
Proof. unfold ApplyHookFailurePolicy. own_tac; done. Qed.

Lemma own_deleteOrphan v :
  respects ownership (deleteOrphan v) (Fresh (vm_uid v)) (fun _ _ => True).
Proof. unfold deleteOrphan. own_tac; done. Qed.

(** ** Provision *)

Lemma own_apply p v :
  respects ownership (applyHookFailurePolicy p v) (Owns (vm_uid v)) (fun _ _ => True).
Proof. unfold applyHookFailurePolicy. own_tac; try done; apply own_Apply. Qed.

Lemma own_fail_with p v e :
  respects ownership (fail_with p v e) (Owns (vm_uid v)) (fun _ _ => True).
Proof. unfold fail_with. apply respects_bind. eapply respects_mono; [|apply own_apply]. done. Qed.

Lemma own_updatePhase p v ph :
  ph <> LEASED ->
  respects ownership (updatePhase p v ph) (Owns (vm_uid v)) (fun x s' =>
    vm_uid x.1 = vm_uid v /\
    (x.2 = None -> s' = if decide (in_progress ph) then Owns (vm_uid v) else Idle)).
Proof.
  intros Hp. unfold updatePhase. own_tac; [done|].
  eapply respects_mono; [|apply (own_apply p (set_updated_at _ (set_phase ph v)))].
  intros; own_tac. done.
Qed.

Lemma own_hooks cfg p h v :
  respects ownership (provision_hooks cfg p h v) (Owns (vm_uid v)) (fun _ _ => True).
Proof.
  unfold provision_hooks. own_tac; try apply own_fail_with; try done.
  eapply respects_mono; [|by apply own_updatePhase]. intros [v' err] s' _. own_tac; done.
Qed.

Lemma own_recorded cfg p h c v :
  respects ownership (provision_recorded cfg p h c v) (Owns (vm_uid v)) (fun _ _ => True).
Proof.
  unfold provision_recorded. own_tac; try apply own_fail_with.
  eapply respects_mono; [|by apply own_updatePhase]. intros [v' err] s' [Hu Hs]; simpl in *.
  destruct err; [done|]. rewrite (Hs eq_refl), <- Hu. apply own_hooks.
Qed.

Section provision.
Context `{Semver}.

Lemma own_reserved cfg p h id :
  respects ownership (provision_reserved cfg p h id) Idle (fun _ _ => True).
Proof.
  unfold provision_reserved, release. own_tac; try done.
  - apply (own_recorded cfg p h _ (new_vm p h _ _)).
  - eapply respects_mono; [|apply (own_deleteOrphan (new_vm p h _ _))].
    intros [] s' _. own_tac; done.
Qed.

Lemma own_Provision cfg p :
  respects ownership (Provision cfg p) Idle (fun _ _ => True).
Proof.
  unfold Provision, provision_body. own_tac; try done.
  all: eapply respects_mono; [|apply own_reserved]; intros; own_tac; done.
Qed.

Lemma own_start cfg p n : keeps ownership (start_provisions cfg p n).
Proof.
  intros s. induction n as [|n IH]; cbn [start_provisions]; [done|]. own_tac.
  apply keeps_use; [|done]. apply keeps_go, respects_bind.
  eapply respects_mono; [|apply own_Provision]. done.
Qed.
#[local] Hint Resolve own_start : proto.

Lemma own_reconcile cfg p d : keeps ownership (reconcile cfg p d).
Proof. intros s. unfold reconcile, provisionN. own_tac; done. Qed.

Lemma own_Run cfg p st ts : keeps ownership (Run cfg p st ts).
Proof.
  apply keeps_bind; [apply own_reconcile|]. intros _. apply keeps_for_each.
  intros t. apply own_reconcile.
Qed.
End provision.

(** ** The Lease service *)

Section lease.
Context (s : LeaseServer).

Lemma own_policy p v :
  respects ownership (apply_pre_lease_policy s p v) (Owns (vm_uid v)) (fun _ _ => True).
Proof.
  unfold apply_pre_lease_policy. apply respects_bind.
  eapply respects_mono; [|apply own_Apply]. intros [] s' _. own_tac; done.
Qed.

(** Apply the policy; nothing later needs the ownership. *)
Lemma own_policy_then p v u (Q : unit -> own -> Prop) :
  vm_uid v = u -> (forall s', Q tt s') ->
  respects ownership (apply_pre_lease_policy s p v) (Owns u) Q.
Proof.
  intros <- HQ. eapply respects_mono; [|apply own_policy]. intros [] s' _. apply HQ.
Qed.

Lemma own_yield p v r :
  respects ownership (yieldClaim s p v r) (Owns (vm_uid v)) (fun _ _ => True).
Proof. unfold yieldClaim. own_tac; try done; by apply own_policy_then. Qed.

Lemma own_loop c p v cmds :
  respects ownership (pre_lease_commands_loop s c p v cmds) (Owns (vm_uid v))
    (fun err s' => err = None -> s' = Owns (vm_uid v)).
Proof.
  induction cmds as [|cmd cmds IH]; cbn [pre_lease_commands_loop]; [done|].
  own_tac; try done; try (by apply own_policy_then).
Qed.

Lemma own_hooks_pre p v :
  respects ownership (runPreLeaseHooks s p v) (Owns (vm_uid v)) (fun x s' =>
    vm_uid x.1 = vm_uid v /\ (x.2 = None -> s' = Owns (vm_uid v))).
Proof.
  unfold runPreLeaseHooks. own_tac; try (by apply own_policy_then); try done.
  eapply respects_mono; [|apply (own_loop _ p (set_updated_at x (set_phase PRE_LEASE_HOOK_RUNNING v)))].
  intros err s' Hs. own_tac; simpl; by auto.
Qed.

Lemma own_commit p v n ns r :
  respects ownership (commit_claim s p v n ns r) (Owns (vm_uid v)) (fun _ _ => True).
Proof.
  unfold commit_claim. own_tac; try done; try (by apply own_policy_then);
    try apply (own_yield p (set_updated_at _ (set_lease_id _ (set_phase _ v)))).
Qed.

Lemma own_fresh p n ns r :
  respects ownership (fresh_claim s p n ns r) Idle (fun _ _ => True).
Proof.
  unfold fresh_claim. own_tac; try done.
  eapply respects_mono; [|apply own_hooks_pre]. intros [v' err] s' [Hu Hs]; simpl in *.
  destruct err as [[]|]; try done. rewrite (Hs eq_refl), <- Hu. apply own_commit.
Qed.

Lemma own_ClaimVM req : respects ownership (ClaimVM s req) Idle (fun _ _ => True).
Proof. unfold ClaimVM. own_tac; try done; apply own_fresh. Qed.

Lemma own_ReleaseVM id : keeps ownership (ReleaseVM s id).
Proof. intros st. unfold ReleaseVM, release_vm. own_tac; done. Qed.
End lease.
#[local] Hint Resolve own_ReleaseVM : proto.

(** ** The sweeper, recovery and the admin services *)

Lemma own_retry s d v : keeps ownership (retry_deletion s d v).
Proof. intros st. unfold retry_deletion. own_tac; done. Qed.

Lemma own_retryAll s : keeps ownership (retryPendingDeletions s).
Proof.
  intros st. unfold retryPendingDeletions. own_tac; try done.
  apply keeps_for_each. intros vm0. apply own_retry.
Qed.

Lemma own_drainHosts s : keeps ownership (drainHosts s).
Proof. intros st. unfold drainHosts. own_tac; done. Qed.

Lemma own_beginExpiry s l t : keeps ownership (beginExpiry s l t).
Proof. intros st. unfold beginExpiry. own_tac; done. Qed.
#[local] Hint Resolve own_retryAll own_drainHosts own_beginExpiry : proto.

Lemma own_sweep s t w ls : keeps ownership (sweep_leases s t w ls).
Proof.
  revert w. induction ls as [|l ls IH]; intros w st; cbn [sweep_leases]; [done|].
  unfold sweep_lease. own_tac; try apply IH; done.
Qed.
#[local] Hint Resolve own_sweep : proto.

Lemma own_Tick s t : keeps ownership (Sweeper.Tick s t).
Proof. intros st. unfold Sweeper.Tick. own_tac; done. Qed.
#[local] Hint Resolve own_Tick : proto.

Lemma own_SweeperRun s n : keeps ownership (Sweeper_Run s n).
Proof. revert s. induction n as [|n IH]; intros s st; cbn [Sweeper_Run]; [done|]. own_tac; try apply IH; done. Qed.

Lemma own_mark k vms n : keeps ownership (mark_abandoned k vms n).
Proof.
  revert n. induction vms as [|v vms IH]; intros n st; cbn [mark_abandoned]; [done|].
  own_tac; try apply IH; try done; rewrite decide_True by (unfold in_progress; auto);
    try apply IH; done.
Qed.
#[local] Hint Resolve own_mark : proto.

Lemma own_recover k phs n : keeps ownership (recover_phases k phs n).
Proof.
  revert n. induction phs as [|ph phs IH]; intros n st; cbn [recover_phases]; [done|].
  own_tac; try apply IH; done.
Qed.
#[local] Hint Resolve own_recover : proto.

Lemma own_locked {A : Set} m (p : prog A) : keeps ownership p -> keeps ownership (locked m p).
Proof. intros Hp st. unfold locked. own_tac. done. Qed.

Lemma own_delete_found fl n ns f p : keeps ownership (delete_found fl n ns f p).
Proof. intros st. unfold delete_found, restartReconciler. own_tac; done. Qed.
#[local] Hint Resolve own_delete_found : proto.

Lemma own_DeletePool fl n ns f : keeps ownership (PoolAdmin.DeletePool fl n ns f).
Proof. apply own_locked. intros st. unfold DeletePool_body. own_tac; done. Qed.

Lemma own_CreatePool p : keeps ownership (PoolAdmin.CreatePool p).
Proof.
  unfold PoolAdmin.CreatePool. destruct (validatePoolSpec p); [|done].
  do 2 apply own_locked. intros st. unfold CreatePool_body. own_tac; done.
Qed.

Lemma own_UpdatePool p : keeps ownership (PoolAdmin.UpdatePool p).
Proof.
  unfold PoolAdmin.UpdatePool. destruct (validatePoolSpec p); [|done].
  do 2 apply own_locked. intros st. unfold UpdatePool_body. own_tac; done.
Qed.

Lemma own_DrainHost n h r : keeps ownership (HostAdmin.DrainHost n h r).
Proof. intros st. unfold HostAdmin.DrainHost. own_tac; done. Qed.

Section hosts.
Context `{Semver}.

Lemma own_AddHost h skip : keeps ownership (AddHost h skip).
Proof.
  apply keeps_bind; [intros st; own_tac; done|]. intros t.
  cbv zeta. case_match; [done|]. apply own_locked. intros st.
  unfold AddHost_body, add_dialled. own_tac; done.
Qed.

Lemma own_UpdateHost h skip : keeps ownership (HostAdmin.UpdateHost h skip).
Proof.
  unfold HostAdmin.UpdateHost. cbv zeta. case_match; [done|]. apply own_locked. intros st.
  unfold UpdateHost_body. own_tac; done.
Qed.

Lemma own_RemoveHost n : keeps ownership (RemoveHost n).
Proof.
  unfold RemoveHost. case_match; [done|]. apply own_locked. intros st.
  unfold RemoveHost_body, locked. own_tac; done.
Qed.

(** Every entry point keeps to the protocol. *)
Lemma own_entry p : entry p -> obeys ownership Idle p.
Proof.
  destruct 1; try (apply obeys_keeps; [done|]; apply (harmless_keeps ownership); by eauto with harmless);
    try (apply obeys_keeps; [done|]; by eauto using own_ReleaseVM, own_CreatePool, own_UpdatePool,
      own_DeletePool, own_DrainHost, own_AddHost, own_UpdateHost, own_RemoveHost,
      own_SweeperRun).
  - apply respects_bind. eapply respects_mono; [|apply own_ClaimVM]. done.
  - apply keeps_use; [apply own_Run|done].
  - apply obeys_keeps; [done|]. intros st. unfold RecoverAbandonedClaims. own_tac; done.
  - apply obeys_keeps; [done|]; apply own_recover.
Qed.
End hosts.

(** ** What the discipline preserves *)

Definition token (s : own) : option string :=
  match s with Idle => None | Fresh u | Owns u => Some u end.

(** The database as seen with the goroutines' ownership [ss] and the uids
    flintlock has handed out. *)
Record consistent (used : gset string) (ss : list own) (db : DB) : Prop := {
  c_wf : db_wf db;
  (** a VM has at most one owner *)
  c_tokens i j s t u : ss !! i = Some s -> ss !! j = Some t ->
    token s = Some u -> token t = Some u -> i = j;
  c_fresh i u : ss !! i = Some (Fresh u) -> vms db !! u = None;
  (** an owned VM is not up for a claim and has no lease *)
  c_owned i s u : ss !! i = Some s -> token s = Some u -> u ∈ used /\
    (forall id l, leases db !! id = Some l -> lr_vmUID l <> u) /\
    (forall r, vms db !! u = Some r -> vr_phase r <> phase_code AVAILABLE);
  (** a lease's VM is LEASED under this very lease, or on its way out *)
  c_leases id l : leases db !! id = Some l -> lr_vmUID l ∈ used /\
    (forall r, vms db !! lr_vmUID l = Some r -> vr_phase r = phase_code DELETING \/
       (vr_phase r = phase_code LEASED /\ vr_leaseID r = Some id));
  (** a VM has at most one lease *)
  c_unique i j l l' : leases db !! i = Some l -> leases db !! j = Some l' ->
    lr_vmUID l = lr_vmUID l' -> i = j;
  c_used u r : vms db !! u = Some r -> u ∈ used
}.

(** Rows only disappear or become DELETING; leases only disappear or are
    renewed. *)
Definition shrinks (db db' : DB) : Prop :=
  (forall u r', vms db' !! u = Some r' ->
     vms db !! u = Some r' \/ (is_Some (vms db !! u) /\ vr_phase r' = phase_code DELETING)) /\
  (forall id l', leases db' !! id = Some l' ->
     exists l, leases db !! id = Some l /\ lr_vmUID l = lr_vmUID l').

Lemma consistent_shrinks used ss db db' :
  shrinks db db' -> db_wf db' -> consistent used ss db -> consistent used ss db'.
Proof.
  intros [Hv Hl] W C. split; try done; try apply C.
  - intros i u Hi. destruct (vms db' !! u) as [r'|] eqn:E; [|done]. exfalso.
    apply Hv in E. rewrite (c_fresh _ _ _ C i u Hi) in E. destruct E as [|[[]%is_Some_None _]]; done.
  - intros i s u Hi Ht. destruct (c_owned _ _ _ C i s u Hi Ht) as (Hu & Hno & Hav).
    split_and!; [done| |].
    + intros id l' Hl'. apply Hl in Hl' as (l & Hl' & <-). by eapply Hno.
    + intros r' Hr'. apply Hv in Hr' as [Hr'|[_ ->]]; [by apply Hav|done].
  - intros id l' Hl'. apply Hl in Hl' as (l & Hl' & <-).
    destruct (c_leases _ _ _ C id l Hl') as [Hu Hp]. split; [done|].
    intros r' Hr'. apply Hv in Hr' as [Hr'|[_ ->]]; [by apply Hp|by left].
  - intros i j l l' Hi Hj E. apply Hl in Hi as (k & Hi & Ek), Hj as (k' & Hj & Ek').
    eapply (c_unique _ _ _ C); eauto. congruence.
  - intros u r' Hr'. apply Hv in Hr' as [Hr'|[[r Hr] _]]; by eapply (c_used _ _ _ C).
Qed.

(** A goroutine that starts owns nothing. *)
Lemma consistent_spawn used ss db : consistent used ss db -> consistent used (ss ++ [Idle]) db.
Proof.
  intros C.
  assert (forall j s, (ss ++ [Idle]) !! j = Some s -> s <> Idle -> ss !! j = Some s) as Hold.
  { intros j s [Hj|[_ Hj]]%lookup_app_Some Hs; [done|].
    by apply list_lookup_singleton_Some in Hj as [_ <-]. }
  split; try apply C.
  - intros i j s t u Hi Hj Hs Ht. apply Hold in Hi, Hj; [|by intros ->..].
    by eapply (c_tokens _ _ _ C).
  - intros i u Hi%Hold; [|done]. by eapply (c_fresh _ _ _ C).
  - intros i s u Hi Hs. apply Hold in Hi; [|by intros ->]. by eapply (c_owned _ _ _ C).
Qed.

Section preservation.
Context `{Codec, Sqlite}.

Lemma shrinks_refl db : shrinks db db.
Proof. split; eauto. Qed.

(** The operations that [ownership] restricts. *)
Definition restricted {A} (o : storeOp A) : bool :=
  match o with
  | OpCreateVM _ | OpUpdateVM _ | OpLeaseVM _ _ | OpClaimAvailableVM _ _ | OpCreateLease _ => true
  | _ => false
  end.

Lemma shrinks_mark (P : vmRow -> Prop) `{forall r, Decision (P r)} now (m : gmap string vmRow) u r' :
  update_where P (mark_deleting now) m !! u = Some r' ->
  m !! u = Some r' \/ (is_Some (m !! u) /\ vr_phase r' = phase_code DELETING).
Proof.
  rewrite lookup_update_where. intros Hr. apply fmap_Some in Hr as (r & Hr & ->).
  case_decide; eauto.
Qed.

Lemma shrinks_delete {V} k (m : gmap string V) u r' :
  delete k m !! u = Some r' -> m !! u = Some r'.
Proof. by intros [_ ?]%lookup_delete_Some. Qed.

Lemma op_shrinks {A : Set} now now' (o : storeOp A) db :
  restricted o = false -> shrinks db (denote now now' o db).1.
Proof.
  intros Hr. destruct (denote now now' o db) as [db' r] eqn:E.
  destruct o; try done; store_run E; try apply shrinks_refl; split; simpl;
    eauto using shrinks_mark, shrinks_delete.
  all: intros ? ? Hl;
    first [ apply lookup_delete_where in Hl as [Hl _]
          | apply lookup_alter_Some in Hl as [(-> & l0 & Hl & ->)|[_ Hl]] ]; eauto.
Qed.

(** Replacing the row of an owned VM, by its owner. *)
Lemma consistent_write used ss db i u r s' :
  consistent used ss db -> ss !! i = Some (Owns u) -> db_wf (set_vms (<[u := r]> (vms db)) db) ->
  s' = Idle \/ (s' = Owns u /\ vr_phase r <> phase_code AVAILABLE) ->
  consistent used (<[i := s']> ss) (set_vms (<[u := r]> (vms db)) db).
Proof.
  intros C Hi W Hs'. destruct (c_owned _ _ _ C i _ u Hi eq_refl) as (Hu & Hno & Hav).
  assert (forall j s x, <[i := s']> ss !! j = Some s -> token s = Some x ->
            exists s0, ss !! j = Some s0 /\ token s0 = Some x /\ (x = u -> j = i)) as Hold.
  { intros j s x Hj Hx. apply list_lookup_insert_Some in Hj as [(-> & <- & _)|[Hne Hj]].
    - exists (Owns u). destruct Hs' as [->|[-> _]]; [done|]. by simplify_eq/=.
    - exists s. split_and!; try done. intros ->. symmetry. by eapply (c_tokens _ _ _ C). }
  split; simpl; try done.
  - intros j k s t x Hj Hk Hs Ht. destruct (Hold j s x Hj Hs) as (s0 & Hj0 & Hs0 & _),
      (Hold k t x Hk Ht) as (t0 & Hk0 & Ht0 & _). by eapply (c_tokens _ _ _ C).
  - intros j x Hj. destruct (Hold j _ x Hj eq_refl) as (s0 & Hj0 & Hs0 & Heq).
    assert (x <> u) as Hne.
    { intros ->. rewrite (Heq eq_refl) in Hj.
      apply list_lookup_insert_Some in Hj as [(_ & E & _)|[? _]]; [|done].
      destruct Hs' as [->|[-> _]]; done. }
    rewrite lookup_insert_ne by done.
    apply list_lookup_insert_Some in Hj as [(_ & E & _)|[_ Hj]];
      [destruct Hs' as [->|[-> _]]; done|]. by eapply (c_fresh _ _ _ C).
  - intros j s x Hj Hs. destruct (Hold j s x Hj Hs) as (s0 & Hj0 & Hs0 & Heq).
    destruct (c_owned _ _ _ C j s0 x Hj0 Hs0) as (Hx & Hnol & Hava). split_and!; [done|done|].
    intros r0 [[<- <-]|[_ Hr]]%lookup_insert_Some; [|by apply Hava].
    rewrite (Heq eq_refl) in Hj. apply list_lookup_insert_Some in Hj as [(_ & E & _)|[? _]]; [|done].
    destruct Hs' as [->|[-> Hp]]; [by subst|done].
  - intros id l Hl. destruct (c_leases _ _ _ C id l Hl) as [Hlu Hp]. split; [done|].
    rewrite lookup_insert_ne by (symmetry; by eapply Hno). done.
  - apply C.
  - intros x r0 [[<- _]|[_ Hr]]%lookup_insert_Some; [done|]. by eapply (c_used _ _ _ C).
Qed.

(** The goroutine that claimed or recorded [u] becomes its owner. *)
Lemma consistent_own used ss db i u :
  consistent used ss db -> u ∈ used ->
  (forall j s, j <> i -> ss !! j = Some s -> token s <> Some u) ->
  (forall id l, leases db !! id = Some l -> lr_vmUID l <> u) ->
  (forall r, vms db !! u = Some r -> vr_phase r <> phase_code AVAILABLE) ->
  consistent used (<[i := Owns u]> ss) db.
Proof.
  intros C Hu Hnt Hnl Hna. split; try apply C.
  - intros j k s t x Hj Hk Hs Ht.
    apply list_lookup_insert_Some in Hj as [(-> & <- & _)|[Hj' Hj]];
    apply list_lookup_insert_Some in Hk as [(-> & <- & _)|[Hk' Hk]]; simplify_eq/=; try done.
    + exfalso. by eapply (Hnt k t).
    + exfalso. by eapply (Hnt j s).
    + by eapply (c_tokens _ _ _ C).
  - intros j x Hj. apply list_lookup_insert_Some in Hj as [(_ & ? & _)|[_ Hj]]; [done|].
    by eapply (c_fresh _ _ _ C).
  - intros j s x Hj Hs. apply list_lookup_insert_Some in Hj as [(-> & <- & _)|[_ Hj]];
      [by simplify_eq/=|]. by eapply (c_owned _ _ _ C).
Qed.

(** A uid flintlock has just handed out. *)
Lemma consistent_handed_out used ss db i u :
  consistent used ss db -> u ∉ used -> consistent ({[u]} ∪ used) (<[i := Fresh u]> ss) db.
Proof.
  intros C Hu.
  assert (forall j s, ss !! j = Some s -> token s <> Some u) as Hnt.
  { intros j s Hj Hs. by destruct (c_owned _ _ _ C j s u Hj Hs). }
  split; try apply C.
  - intros j k s t x Hj Hk Hs Ht.
    apply list_lookup_insert_Some in Hj as [(-> & <- & _)|[Hj' Hj]];
    apply list_lookup_insert_Some in Hk as [(-> & <- & _)|[Hk' Hk]]; simplify_eq/=; try done.
    + exfalso. by eapply (Hnt k t).
    + exfalso. by eapply (Hnt j s).
    + by eapply (c_tokens _ _ _ C).
  - intros j x Hj. apply list_lookup_insert_Some in Hj as [(_ & E & _)|[_ Hj]];
      [|by eapply (c_fresh _ _ _ C)]. simplify_eq.
    destruct (vms db !! x) eqn:E; [|done]. by apply (c_used _ _ _ C) in E.
  - intros j s x Hj Hs. apply list_lookup_insert_Some in Hj as [(-> & <- & _)|[_ Hj]].
    + simplify_eq/=. split_and!; [set_solver| |].
      * intros id l Hl E. destruct (c_leases _ _ _ C id l Hl) as [Hin _]. by rewrite E in Hin.
      * intros r Hr. by apply (c_used _ _ _ C) in Hr.
    + destruct (c_owned _ _ _ C j s x Hj Hs) as (? & ? & ?). split_and!; [set_solver|done..].
  - intros id l Hl. destruct (c_leases _ _ _ C id l Hl). split; [set_solver|done].
  - intros x r Hr. apply (c_used _ _ _ C) in Hr. set_solver.
Qed.

(** An AVAILABLE VM has neither an owner nor a lease. *)
Lemma available_free used ss db u r :
  consistent used ss db -> vms db !! u = Some r -> vr_phase r = phase_code AVAILABLE ->
  (forall j s, ss !! j = Some s -> token s <> Some u) /\
  (forall id l, leases db !! id = Some l -> lr_vmUID l <> u).
Proof.
  intros C Hr Hp. split.
  - intros j s Hj Hs. destruct (c_owned _ _ _ C j s u Hj Hs) as (_ & _ & Hav).
    by apply (Hav r).
  - intros id l Hl <-. destruct (c_leases _ _ _ C id l Hl) as [_ Hc].
    destruct (Hc r Hr) as [E|[E _]]; rewrite Hp in E; by apply (inj phase_code) in E.
Qed.

(** Replacing the row of a VM nobody owns and no lease names. *)
Lemma consistent_row used ss db u r0 r :
  consistent used ss db -> vms db !! u = Some r0 ->
  (forall j s, ss !! j = Some s -> token s <> Some u) ->
  (forall id l, leases db !! id = Some l -> lr_vmUID l <> u) ->
  db_wf (set_vms (<[u := r]> (vms db)) db) ->
  consistent used ss (set_vms (<[u := r]> (vms db)) db).
Proof.
  intros C Hr Hnt Hnl W. split; simpl; try done; try apply C.
  - intros i x Hi. rewrite lookup_insert_ne; [by eapply (c_fresh _ _ _ C)|].
    intros <-. by apply (Hnt i _ Hi).
  - intros i s x Hi Hs. destruct (c_owned _ _ _ C i s x Hi Hs) as (? & ? & ?).
    split_and!; try done. rewrite lookup_insert_ne; [done|]. intros <-. by apply (Hnt i _ Hi).
  - intros id l Hl. destruct (c_leases _ _ _ C id l Hl). split; [done|].
    rewrite lookup_insert_ne; [done|]. intros E. by eapply Hnl.
  - intros x r1 [[<- _]|[_ Hx]]%lookup_insert_Some; by eapply (c_used _ _ _ C).
Qed.

(** The lease of a VM that is LEASED under it and that nobody owns. *)
Lemma consistent_add_lease used ss db u id l r :
  consistent used ss db -> vms db !! u = Some r ->
  vr_phase r = phase_code LEASED -> vr_leaseID r = Some id -> lr_vmUID l = u ->
  (forall j s, ss !! j = Some s -> token s <> Some u) ->
  (forall id l, leases db !! id = Some l -> lr_vmUID l <> u) ->
  db_wf (set_leases (<[id := l]> (leases db)) db) ->
  consistent used ss (set_leases (<[id := l]> (leases db)) db).
Proof.
  intros C Hr Hp Hid Hl Hnt Hnl W. split; simpl; try done; try apply C.
  - intros i s x Hi Hs. destruct (c_owned _ _ _ C i s x Hi Hs) as (? & Hno & ?).
    split_and!; try done. intros k l' [[<- <-]|[_ Hk]]%lookup_insert_Some; [|by eapply Hno].
    rewrite Hl. intros E. apply (Hnt i s Hi). by rewrite Hs, E.
  - intros k l' [[<- <-]|[_ Hk]]%lookup_insert_Some; [|by eapply (c_leases _ _ _ C)].
    rewrite Hl. split; [by eapply (c_used _ _ _ C)|]. intros r' Hr'. simplify_eq. by right.
  - intros i j a b [[<- <-]|[_ Hi]]%lookup_insert_Some [[<- <-]|[_ Hj]]%lookup_insert_Some E.
    + done.
    + exfalso. eapply Hnl; [exact Hj|congruence].
    + exfalso. eapply Hnl; [exact Hi|congruence].
    + by eapply (c_unique _ _ _ C).
Qed.

(** ** Each restricted operation *)

Lemma vmToRow_fields v row :
  vmToRow v = Ok row ->
  vr_uid row = vm_uid v /\ vr_phase row = phase_code (vm_phase v) /\ vr_leaseID row = vm_lease_id v.
Proof.
  unfold vmToRow. destruct (vm_created_at v), (vm_updated_at v); try done.
  intros E. by simplify_eq/=.
Qed.

Lemma leaseToRow_fields l row :
  leaseToRow l = Ok row -> lr_leaseID row = lease_id l /\ lr_vmUID row = lease_vm_uid l.
Proof.
  unfold leaseToRow. destruct (lease_claimed_at l), (lease_last_heartbeat_at l),
    (lease_expires_at l); try done. intros E. by simplify_eq/=.
Qed.

Lemma CreateVM_Ok v db db' x :
  CreateVM v db = (db', Ok x) ->
  exists row, vmToRow v = Ok row /\ db' = set_vms (<[vm_uid v := row]> (vms db)) db.
Proof.
  unfold CreateVM. store_simpl. destruct (vmToRow v) as [row|] eqn:E; [|done]. simpl.
  destruct (vmToRow_fields v row E) as (-> & _). destruct (vms db !! vm_uid v); [done|].
  intros [= <- _]. eauto.
Qed.

Lemma UpdateVM_Ok v db db' x :
  UpdateVM v db = (db', Ok x) ->
  exists row old, vmToRow v = Ok row /\ vms db !! vm_uid v = Some old /\
    db' = set_vms (<[vm_uid v := updated_row row old]> (vms db)) db.
Proof.
  unfold UpdateVM, updateVM. store_simpl. destruct (vmToRow v) as [row|] eqn:E; [|done]. simpl.
  destruct (vmToRow_fields v row E) as (-> & _).
  destruct (vms db !! vm_uid v) as [old|] eqn:Eo; [|done]. case_decide; [|done].
  intros [= <- _]. eauto.
Qed.

Lemma LeaseVM_Ok v l db db' x :
  LeaseVM v l db = (db', Ok x) ->
  exists row old lrow, vmToRow v = Ok row /\ vms db !! vm_uid v = Some old /\
    leaseToRow l = Ok lrow /\
    db' = set_leases (<[lease_id l := lrow]> (leases db))
            (set_vms (<[vm_uid v := updated_row row old]> (vms db)) db).
Proof.
  unfold LeaseVM. intros E. change (updateVM v) with (UpdateVM v) in E. store_simpl.
  destruct (UpdateVM v db) as [db1 [[]|e]] eqn:Eu; [|done].
  apply UpdateVM_Ok in Eu as (row & old & Er & Eo & ->).
  destruct (leaseToRow l) as [lrow|] eqn:El.
  - pose proof (insertLease_cases l lrow
      (set_vms (<[vm_uid v := updated_row row old]> (vms db)) db) El) as Hins.
    destruct (insertLease l _) as [db2 [[]|e]]; [|done]. destruct Hins as (-> & _ & _).
    injection E as <- _. exists row, old, lrow. done.
  - unfold insertLease in E. rewrite El in E. done.
Qed.

Section op_steps.
Context (used : gset string) (ss : list own) (db db' : DB) (i : nat).
Hypothesis C : consistent used ss db.
Hypothesis W : db_wf db'.

Lemma create_step v x :
  CreateVM v db = (db', Ok x) -> ss !! i = Some (Fresh (vm_uid v)) ->
  vm_phase v = PROVISIONING \/ vm_phase v = DELETING ->
  consistent used (<[i := if decide (vm_phase v = DELETING) then Idle else Owns (vm_uid v)]> ss) db'.
Proof.
  intros E Hi Hp. apply CreateVM_Ok in E as (row & Er & ->).
  destruct (vmToRow_fields v row Er) as (_ & Ep & _).
  destruct (c_owned _ _ _ C i _ _ Hi eq_refl) as (Hu & Hnl & Hna).
  assert (consistent used (<[i := Owns (vm_uid v)]> ss) db) as C1.
  { apply consistent_own; try done. intros j s Hj Hs Ht. apply Hj.
    by eapply (c_tokens _ _ _ C). }
  rewrite <- (list_insert_insert_eq ss i _ (Owns (vm_uid v))).
  apply consistent_write; try done.
  - apply list_lookup_insert_eq. by eapply lookup_lt_Some.
  - rewrite Ep. destruct Hp as [-> | ->]; [right|left; by rewrite decide_True].
    rewrite decide_False by done. done.
Qed.

Lemma update_step v x s :
  UpdateVM v db = (db', Ok x) -> ss !! i = Some s -> own_op s (OpUpdateVM v) ->
  consistent used (<[i := if decide (in_progress (vm_phase v)) then s else Idle]> ss) db'.
Proof.
  intros E Hi Hs. apply UpdateVM_Ok in E as (row & old & Er & Eo & ->).
  destruct (vmToRow_fields v row Er) as (_ & Ep & _). destruct Hs as [Hd|[-> Hl]].
  - rewrite decide_True by (unfold in_progress; auto). rewrite list_insert_id by done.
    eapply consistent_shrinks; [|done|exact C]. split; simpl; [|eauto].
    intros u r' [[<- <-]|[_ Hr]]%lookup_insert_Some; [right|by left].
    simpl. rewrite Ep, Hd. eauto.
  - apply consistent_write; try done. case_decide as Hin; [right|by left].
    split; [done|]. cbn [updated_row vr_phase]. rewrite Ep. intros E%(inj phase_code).
    rewrite E in Hin. unfold in_progress in Hin. naive_solver.
Qed.

Lemma lease_step v l x :
  LeaseVM v l db = (db', Ok x) -> ss !! i = Some (Owns (vm_uid v)) -> lease_vm_uid l = vm_uid v ->
  vm_phase v = LEASED -> vm_lease_id v = Some (lease_id l) ->
  consistent used (<[i := Idle]> ss) db'.
Proof.
  intros E Hi Hu Hp Hid. apply LeaseVM_Ok in E as (row & old & lrow & Er & Eo & El & ->).
  destruct (vmToRow_fields v row Er) as (_ & Ep & Ei), (leaseToRow_fields l lrow El) as (_ & Eu).
  destruct (c_owned _ _ _ C i _ _ Hi eq_refl) as (_ & Hnl & _).
  set (db1 := set_vms (<[vm_uid v := updated_row row old]> (vms db)) db).
  assert (db_wf db1) as W1.
  { destruct (c_wf _ _ _ C). split; try done. simpl. apply map_Forall_ins; [done|]. eauto with battery. }
  assert (consistent used (<[i := Idle]> ss) db1) as C1 by (apply consistent_write; auto).
  eapply (consistent_add_lease used _ db1 (vm_uid v)); try done.
  - apply lookup_insert_eq.
  - simpl. by rewrite Ep, Hp.
  - simpl. by rewrite Ei, Hid.
  - by rewrite Eu.
  - intros j s Hj Ht. apply list_lookup_insert_Some in Hj as [(_ & <- & _)|[Hne Hj]]; [done|].
    apply Hne. by eapply (c_tokens _ _ _ C).
Qed.

Lemma claim_step now n ns v :
  ClaimAvailableVM now n ns db = (db', Ok v) -> ss !! i = Some Idle ->
  consistent used (<[i := Owns (vm_uid v)]> ss) db'.
Proof.
  intros E Hi. pose proof (claim_outcome_holds now n ns db (c_wf _ _ _ C)) as Hc.
  rewrite E in Hc. destruct Hc as (u & r & Hr & [_ Hp] & -> & -> & Hu). rewrite Hu.
  destruct (available_free _ _ _ u r C Hr Hp) as [Hnt Hnl].
  assert (consistent used ss (set_vms (<[u := mark_leased now r]> (vms db)) db)) as C1
    by (by eapply consistent_row).
  apply consistent_own; try done.
  - by eapply (c_used _ _ _ C).
  - intros j s _. apply Hnt.
  - simpl. rewrite lookup_insert_eq. by intros r' [= <-].
Qed.
End op_steps.

Lemma own_next_err {A : Set} s (o : storeOp A) e : own_next s _ (EStore o) (Err e) = s.
Proof. by destruct o. Qed.

Lemma own_op_ok {A : Set} s (o : storeOp A) : own_op s o -> op_ok o.
Proof. by destruct o. Qed.

(** An allowed store call keeps the invariant. *)
Lemma store_step_consistent {A : Set} used ss db i s now now' (o : storeOp A) :
  consistent used ss db -> ss !! i = Some s -> own_op s o ->
  consistent used (<[i := own_next s _ (EStore o) (denote now now' o db).2]> ss)
    (denote now now' o db).1.
Proof.
  intros C Hi Ho. pose proof (op_keeps_wf now now' o db (own_op_ok s o Ho) (c_wf _ _ _ C)) as W.
  destruct (restricted o) eqn:Er.
  - destruct (denote now now' o db) as [db' [x|e]] eqn:E; cbn [fst snd] in *.
    + destruct o; simpl in *; try done.
      * destruct Ho as [-> Hp]. by eapply create_step.
      * by eapply update_step.
      * subst s. by eapply claim_step.
      * destruct Ho as (-> & ? & ? & ?). by eapply lease_step.
    + apply failed_op_keeps_db in E as ->. rewrite own_next_err. by rewrite list_insert_id.
  - assert (own_next s _ (EStore o) (denote now now' o db).2 = s) as -> by by destruct o.
    rewrite list_insert_id by done. eapply consistent_shrinks; eauto using op_shrinks.
Qed.

(** An allowed effect keeps the invariant. *)
Lemma eff_step_consistent {X : Set} w used ss i s (e : eff X) x w' :
  consistent used ss (w_db w) -> ss !! i = Some s -> own_allowed s X e ->
  exec_eff true e w x w' -> (forall u, uid_handed_out e x = Some u -> u ∉ used) ->
  consistent (use (uid_handed_out e x) used) (<[i := own_next s X e x]> ss) (w_db w').
Proof.
  intros C Hi Ha He Hu.
  destruct e; try (simpl in *; subst; simpl; by rewrite list_insert_id).
  - destruct He as [(now & now' & -> & ->)|(_ & (what & ->) & ->)].
    + by apply store_step_consistent.
    + rewrite own_next_err. by rewrite list_insert_id.
  - destruct r; simpl in *; subst; try (by rewrite list_insert_id).
    destruct x as [u|]; simpl; [|by rewrite list_insert_id].
    apply consistent_handed_out; [done|]. by apply Hu.
  - destruct He as [-> ->]; simpl. by rewrite list_insert_id.
Qed.
End preservation.

(** ** In every interleaving *)

(** No goroutine is running yet, and what an earlier process left behind is
    consistent. *)
Definition started (σ : sys) : Prop :=
  s_threads σ = [] /\ consistent (s_used σ) [] (w_db (s_world σ)).

(** A lease's VM is gone, being deleted, or LEASED under this lease. *)
Definition lease_holds (db : DB) (id : string) (l : leaseRow) : Prop :=
  forall r, vms db !! lr_vmUID l = Some r -> vr_phase r = phase_code DELETING \/
    (vr_phase r = phase_code LEASED /\ vr_leaseID r = Some id).

Section interleavings.
Context `{Codec, Sqlite, Semver}.

Lemma ownership_invariant σ σ' :
  started σ -> rtc (sys_step entry) σ σ' ->
  exists ss, Forall2 (obeys ownership) ss (s_threads σ') /\
    consistent (s_used σ') ss (w_db (s_world σ')).
Proof.
  intros [Ht C] Hs.
  apply (sys_steps_ok ownership entry (fun w used ss => consistent used ss (w_db w))) in Hs.
  - exact Hs.
  - apply own_entry.
  - intros w used ss. apply consistent_spawn.
  - intros w used ss i s X e x w' C' Hi Ha _ He Hu. by eapply eff_step_consistent.
  - exists []. rewrite Ht. split; [constructor|done].
Qed.

(** C1: No VM is ever handed to two consumers.  However the claims, releases,
    heartbeats, provisions, sweeps, drains, pool deletions and all other
    requests of the process are interleaved, at every moment each VM has at most
    one lease, each lease's VM is LEASED under that very lease, or being
    deleted, or gone, and an AVAILABLE VM has no lease. *)
Theorem leases_exclusive σ σ' :
  started σ -> rtc (sys_step entry) σ σ' ->
  let db := w_db (s_world σ') in
  (forall i j l l', leases db !! i = Some l -> leases db !! j = Some l' ->
     lr_vmUID l = lr_vmUID l' -> i = j) /\
  (forall id l, leases db !! id = Some l -> lease_holds db id l) /\
  (forall u r id l, vms db !! u = Some r -> vr_phase r = phase_code AVAILABLE ->
     leases db !! id = Some l -> lr_vmUID l <> u).
Proof.
  intros Hst Hs. destruct (ownership_invariant σ σ' Hst Hs) as (ss & _ & C). split_and!.
  - apply C.
  - intros id l Hl. exact (proj2 (c_leases _ _ _ C id l Hl)).
  - intros u r id l Hr Hp. by apply (available_free _ _ _ u r C Hr Hp).
Qed.
End interleavings.

(** The sample database: one lease, on a VM LEASED under it. *)
Lemma db0_consistent : consistent {["vm-1"; "vm-2"; "vm-3"]} [] db0.
Proof.
  split; try done.
  - apply db0_wf.
  - intros id l Hl. apply elem_of_map_to_list in Hl. vm_compute in Hl.
    apply list_elem_of_singleton in Hl. injection Hl as -> ->. split; [vm_compute; auto|].
    intros r Hr. right. vm_compute in Hr. injection Hr as <-. by vm_compute.
  - intros i j l l' Hi Hj _. apply elem_of_map_to_list in Hi, Hj. vm_compute in Hi, Hj.
    apply list_elem_of_singleton in Hi, Hj. congruence.
  - intros u r Hr. apply elem_of_map_to_list, (list_elem_of_fmap_2 fst) in Hr. vm_compute in Hr.
    simpl in Hr. repeat (apply elem_of_cons in Hr as [->|Hr]); [set_solver..|].
    by apply not_elem_of_nil in Hr.
Qed.

(** Two claims race for the one AVAILABLE VM, their steps alternating. *)
Definition claim0 (rid : string) : prog unit :=
  ignore (ClaimVM (NewLeaseServer 0 0 ManagerNotifier)
    {| claim_pool := {| ref_name := "web"; ref_namespace := "default" |};
       claim_request_id := rid |}).
Definition race0 : sys :=
  sched (mjoin (replicate 40 [0; 1])) (spawn [claim0 "req-a"; claim0 "req-b"] sys0).

Lemma leases_exclusive_witness :
  size (leases (w_db (s_world race0))) = 2 /\
  forall i j l l', leases (w_db (s_world race0)) !! i = Some l ->
    leases (w_db (s_world race0)) !! j = Some l' -> lr_vmUID l = lr_vmUID l' -> i = j.
Proof.
  split; [vm_compute; reflexivity|].
  apply (leases_exclusive sys0 race0).
  - split; [reflexivity|apply db0_consistent].
  - etrans; [|apply sched_steps]. apply spawn_steps. repeat constructor.
Defined.
