(* ===== verification/Confirmed.v ===== *)
(** * A VM's record outlives its microvm

    A VM's row is the only record that a microvm may still be running on a
    host.  [confirmation] is the protocol that keeps it until flintlock has
    said that the microvm is gone; every entry point keeps to it. *)

From stdpp Require Import base gmap strings list relations.
From Stdlib Require Import ZArith Lia.
From S2P Require Import Prelude Types Convert Store StoreOps Concrete StoreProps Effects.
From S2P Require Import ConcreteEnv Flintlock Deletion Strategy Provision Reconciler Sweeper.
From S2P Require Import LeaseApi PoolAdmin HostAdmin EventsApi Protocols.

(** ** The protocol *)

(** The goroutine's state: the uids whose deletion flintlock has confirmed to
    it. *)
Definition conf_allowed (s : gset string) (X : Set) (e : eff X) : Prop :=
  match e with
  | EStore (OpDeleteVM u) | EStore (OpDeleteVMCheckingPool u) => u ∈ s
  | _ => True
  end.

(** Deleted now, or not there in the first place. *)
Definition confirms {A} (r : result code A) : bool :=
  match r with Ok _ | Err NotFound => true | _ => false end.

Definition conf_next (s : gset string) (X : Set) (e : eff X) : X -> gset string :=
  match e in eff Y return Y -> gset string with
  | ERpc _ r =>
      match r in rpc A return result code A -> gset string with
      | DeleteMicroVM u => fun x => if confirms x then {[u]} ∪ s else s
      | _ => fun _ => s
      end
  | _ => fun _ => s
  end.

Definition confirmation : protocol :=
  {| St := gset string; idle := ∅; allowed := conf_allowed; next := conf_next;
     final := fun _ => True |}.

#[export] Instance confirmation_lenient : Lenient confirmation.
Proof.
  split; [intros s X e|intros s X e x|done]; destruct e; try done; simpl;
    try (destruct o; done); try (destruct r; done).
Qed.

(** ** Every entry point keeps to it *)

(** The state only grows: [any] is all a later effect needs to know. *)
Definition free {A : Set} (p : prog A) : Prop :=
  forall s, respects confirmation p s (fun _ _ => True).

Lemma free_bind {A B : Set} (p : prog A) (f : A -> prog B) :
  free p -> (forall x, free (f x)) -> free (bind p f).
Proof.
  intros Hp Hf s. apply respects_bind. eapply respects_mono; [|apply Hp].
  intros x s' _. apply Hf.
Qed.

Lemma free_for_each {X} (l : list X) (f : X -> prog unit) :
  (forall x, free (f x)) -> free (for_each l f).
Proof. intros Hf. induction l; cbn [for_each]; [by intros s|]. by apply free_bind. Qed.

Lemma free_harmless {A : Set} (p : prog A) : harmless p -> free p.
Proof. intros Hp s. by apply (harmless_use confirmation). Qed.

Lemma free_go (p : prog unit) : free p -> free (go p).
Proof. intros Hp s. split; [apply Hp|done]. Qed.

Lemma free_eff {X : Set} (e : eff X) : (forall s, conf_allowed s X e) -> free (do e).
Proof. intros He s. split; [apply He|done]. Qed.

Create HintDb conf.

Ltac free_step :=
  lazymatch goal with
  | |- free (bind _ _) => apply free_bind; [|intros]
  | |- free (Ret _) => intros ?; exact I
  | |- free (do _) => apply free_eff; intros ?; exact I
  | |- free (store _) => apply free_eff; intros ?; exact I
  | |- free now => apply free_eff; intros ?; exact I
  | |- free (for_each _ _) => apply free_for_each; intros
  | |- free (go _) => apply free_go
  | |- free (match ?x with _ => _ end) => destruct x
  | |- free _ => first [ solve [eauto with conf]
                       | apply free_harmless; solve [eauto using harmless_for_each with harmless] ]
  | |- forall _, _ => intros
  end.
Ltac free_tac := repeat free_step.

(** The one function that removes a row asks flintlock first. *)
Lemma conf_delete_marked v : free (delete_marked v).
Proof.
  intros s. unfold delete_marked. apply respects_bind, (harmless_use confirmation);
    [eauto with harmless|]. intros [c|]; [|done].
  apply respects_bind. split; [done|]. intros r. cbn [respects next confirmation conf_next].
  assert (confirms r = true \/ exists c, r = Err c /\ c <> NotFound) as [Hr|(code & -> & Hc)].
  { destruct r as [|[]]; auto; right; eexists; (split; [done|discriminate]). }
  - rewrite Hr. destruct r as [|[]]; try done; apply respects_bind; (split; [|done]);
      cbn [allowed confirmation conf_allowed]; set_solver.
  - by destruct code.
Qed.
#[local] Hint Resolve conf_delete_marked : conf.

Lemma conf_EnsureCP v : free (EnsureVMDeletedCheckingPool v).
Proof. unfold EnsureVMDeletedCheckingPool. free_tac. Qed.
#[local] Hint Resolve conf_EnsureCP : conf.
Lemma conf_Ensure v : free (EnsureVMDeleted v).
Proof. unfold EnsureVMDeleted. free_tac. Qed.
#[local] Hint Resolve conf_Ensure : conf.
Lemma conf_DeleteDrained fl vms n : free (DeleteDrainedVMs fl vms n).
Proof. unfold DeleteDrainedVMs, delete_drained. free_tac. Qed.
Lemma conf_deletePoolVMs fl p vms : free (deletePoolVMs fl p vms).
Proof. unfold deletePoolVMs, delete_pool_vm. free_tac. Qed.
Lemma conf_Apply p v h m : free (ApplyHookFailurePolicy p v h m).
Proof. unfold ApplyHookFailurePolicy, deleteAfterHookFailure. free_tac. Qed.
Lemma conf_deleteOrphan v : free (deleteOrphan v).
Proof. unfold deleteOrphan. free_tac. Qed.
#[local] Hint Resolve conf_DeleteDrained conf_deletePoolVMs conf_Apply conf_deleteOrphan : conf.
Lemma conf_apply p v : free (applyHookFailurePolicy p v).
Proof. unfold applyHookFailurePolicy. free_tac. Qed.
#[local] Hint Resolve conf_apply : conf.
Lemma conf_updatePhase p v ph : free (updatePhase p v ph).
Proof. unfold updatePhase. free_tac. Qed.
#[local] Hint Resolve conf_updatePhase : conf.
Lemma conf_hooks cfg p h v : free (provision_hooks cfg p h v).
Proof. unfold provision_hooks, fail_with. free_tac. Qed.
#[local] Hint Resolve conf_hooks : conf.
Lemma conf_recorded cfg p h c v : free (provision_recorded cfg p h c v).
Proof. unfold provision_recorded, fail_with. free_tac. Qed.
#[local] Hint Resolve conf_recorded : conf.

Section provision.
Context `{Semver}.
Lemma conf_Provision cfg p : free (Provision cfg p).
Proof. unfold Provision, provision_body, provision_reserved, release. free_tac. Qed.
#[local] Hint Resolve conf_Provision : conf.
Lemma conf_start cfg p n : free (start_provisions cfg p n).
Proof. induction n; cbn [start_provisions]; free_tac. Qed.
#[local] Hint Resolve conf_start : conf.
Lemma conf_Run cfg p st ts : free (Run cfg p st ts).
Proof. unfold Run, reconcile, provisionN. free_tac. Qed.
End provision.
#[local] Hint Resolve conf_Run : conf.

Lemma conf_policy s p v : free (apply_pre_lease_policy s p v).
Proof. unfold apply_pre_lease_policy. free_tac. Qed.
#[local] Hint Resolve conf_policy : conf.
Lemma conf_loop s c p v cmds : free (pre_lease_commands_loop s c p v cmds).
Proof. induction cmds; cbn [pre_lease_commands_loop]; free_tac. Qed.
#[local] Hint Resolve conf_loop : conf.
Lemma conf_hooks_pre s p v : free (runPreLeaseHooks s p v).
Proof. unfold runPreLeaseHooks. free_tac. Qed.
Lemma conf_commit s p v n ns r : free (commit_claim s p v n ns r).
Proof. unfold commit_claim, yieldClaim. free_tac. Qed.
#[local] Hint Resolve conf_hooks_pre conf_commit : conf.
Lemma conf_ClaimVM s req : free (ClaimVM s req).
Proof. unfold ClaimVM, fresh_claim. free_tac. Qed.
Lemma conf_ReleaseVM s id : free (ReleaseVM s id).
Proof. unfold ReleaseVM, release_vm. free_tac. Qed.
#[local] Hint Resolve conf_ClaimVM conf_ReleaseVM : conf.

Lemma conf_sweep s t w ls : free (sweep_leases s t w ls).
Proof.
  revert w. induction ls as [|l ls IH]; intros w; cbn [sweep_leases]; [by intros st|].
  unfold sweep_lease, beginExpiry. free_tac.
Qed.
#[local] Hint Resolve conf_sweep : conf.
Lemma conf_Tick s t : free (Sweeper.Tick s t).
Proof. unfold Sweeper.Tick, retryPendingDeletions, retry_deletion, drainHosts. free_tac. Qed.
#[local] Hint Resolve conf_Tick : conf.
Lemma conf_SweeperRun s n : free (Sweeper_Run s n).
Proof. revert s. induction n; intros s; cbn [Sweeper_Run]; free_tac. Qed.
Lemma conf_mark k vms n : free (mark_abandoned k vms n).
Proof. revert n. induction vms; intros n; cbn [mark_abandoned]; free_tac. Qed.
#[local] Hint Resolve conf_SweeperRun conf_mark : conf.
Lemma conf_recover k phs n : free (recover_phases k phs n).
Proof. revert n. induction phs; intros n; cbn [recover_phases]; free_tac. Qed.
#[local] Hint Resolve conf_recover : conf.

Section entries.
Context `{Semver}.
Lemma conf_entry p : entry p -> obeys confirmation ∅ p.
Proof.
  intros Hp. enough (free p) as Hf by apply Hf.
  destruct Hp; unfold ignore, PoolAdmin.CreatePool, PoolAdmin.UpdatePool, PoolAdmin.DeletePool,
    CreatePool_body, UpdatePool_body, DeletePool_body, delete_found, restartReconciler, HostAdmin.DrainHost,
    AddHost, AddHost_body, add_dialled, HostAdmin.UpdateHost, UpdateHost_body, RemoveHost,
    RemoveHost_body, RecoverAbandonedClaims, RecoverAbandonedProvisions, locked; cbv zeta; free_tac.
Qed.
End entries.

(** ** In every interleaving *)

(** flintlock has confirmed the deletion of [u]. *)
Definition confirmed (u : string) (log : list action) : Prop :=
  exists c err, Called c (CallDelete u) err ∈ log /\ (err = None \/ err = Some NotFound).

Section interleavings.
Context `{Codec, Sqlite, Semver}.

Definition all_confirmed (w : world) (_ : gset string) (ss : list (gset string)) : Prop :=
  forall i s u, ss !! i = Some s -> u ∈ s -> confirmed u (w_log w).

Lemma exec_log_prefix {X : Set} (e : eff X) w x w' :
  exec_eff true e w x w' -> w_log w `prefix_of` w_log w'.
Proof.
  destruct e; simpl; intros He; subst; simpl; try apply prefix_app_r; try done.
  - destruct He as [(now & now' & -> & ->)|(_ & _ & ->)]; simpl; [done|by apply prefix_app_r].
  - by destruct He as [_ ->].
Qed.

Lemma confirmed_prefix u l l' : l `prefix_of` l' -> confirmed u l -> confirmed u l'.
Proof. intros [k ->] (c & err & Hin & Herr). exists c, err. split; [|done]. set_solver. Qed.

Lemma conf_step w used ss i s (X : Set) (e : eff X) x w' :
  all_confirmed w used ss -> ss !! i = Some s -> exec_eff true e w x w' ->
  all_confirmed w' (use (uid_handed_out e x) used) (<[i := conf_next s X e x]> ss).
Proof.
  intros HI Hi He j t u Hj Hu. pose proof (exec_log_prefix e w x w' He) as Hpre.
  apply list_lookup_insert_Some in Hj as [(-> & <- & _)|[_ Hj]];
    [|eapply confirmed_prefix; eauto].
  assert (u ∈ s -> confirmed u (w_log w')) as Hold by (intros; eapply confirmed_prefix; eauto).
  destruct e; try (by apply Hold). destruct r; try (by apply Hold). simpl in *.
  destruct (confirms x) eqn:Ec; [|by apply Hold].
  apply elem_of_union in Hu as [->%elem_of_singleton|Hu]; [|by apply Hold].
  rewrite He. simpl. exists c, (status_of x). split; [set_solver|].
  destruct x as [|[]]; auto; done.
Qed.

Lemma op_removes {A : Set} now now' (o : storeOp A) db u s :
  is_Some (vms db !! u) -> vms (denote now now' o db).1 !! u = None ->
  conf_allowed s _ (EStore o) -> u ∈ s.
Proof.
  intros [r Hr] Hn Hs. destruct (denote now now' o db) as [db' res] eqn:E.
  destruct o; store_run E; simpl in *; try congruence;
    try (rewrite lookup_update_where, Hr in Hn; done);
    try (apply lookup_insert_None in Hn as [Hn _]; congruence);
    destruct (decide (u = uid)) as [->|]; try done; rewrite lookup_delete_ne in Hn; congruence.
Qed.

(** C5: A VM's row is never removed before flintlock has confirmed that the
    microvm is deleted or does not exist.  However all requests and loops are
    interleaved, whenever a step removes a VM's row, the calls made so far
    include a DeleteMicroVM for its uid that flintlock answered with success or
    NotFound. *)
Theorem row_removed_after_confirmation σ0 σ σ' u :
  s_threads σ0 = [] -> rtc (sys_step entry) σ0 σ -> sys_step entry σ σ' ->
  is_Some (vms (w_db (s_world σ)) !! u) -> vms (w_db (s_world σ')) !! u = None ->
  confirmed u (w_log (s_world σ)).
Proof.
  intros Ht Hs Hstep Hu Hn.
  destruct (sys_steps_ok confirmation entry all_confirmed) with σ0 σ as (ss & Hobey & HI);
    try done.
  - apply conf_entry.
  - intros w used ss HI i s x [Hi|[_ Hi]]%lookup_app_Some; [by eapply HI|].
    apply list_lookup_singleton_Some in Hi as [_ <-]. simpl. set_solver.
  - intros. by eapply conf_step.
  - exists []. rewrite Ht. split; [constructor|]. intros i s x Hi. done.
  - destruct Hstep as [i X e k x w' Hi _ He _|i c k Hi|p Hp]; simpl in *;
      [|by apply eq_None_not_Some in Hn..].
    destruct (Forall2_lookup_r _ _ _ _ _ Hobey Hi) as (s & Hss & Ha & _).
    destruct e; simpl in He; try (subst w'; simpl in Hn; by apply eq_None_not_Some in Hn).
    + destruct He as [(now & now' & _ & ->)|(_ & _ & ->)]; simpl in Hn;
        [|by apply eq_None_not_Some in Hn].
      apply (HI i s u Hss). by eapply op_removes.
    + destruct He as [_ ->]. simpl in Hn. by apply eq_None_not_Some in Hn.
Qed.
End interleavings.

(** A release, up to the call that removes the row. *)
Definition releasing0 : sys :=
  sched (replicate 6 0)
    (spawn [ignore (ReleaseVM (NewLeaseServer 0 0 ManagerNotifier) "lease-2")] sys0).

Lemma row_removed_after_confirmation_witness :
  is_Some (vms (w_db (s_world releasing0)) !! "vm-2") /\
  vms (w_db (s_world (step_thread 0 releasing0))) !! "vm-2" = None /\
  confirmed "vm-2" (w_log (s_world releasing0)).
Proof.
  assert (is_Some (vms (w_db (s_world releasing0)) !! "vm-2")) as Hu
    by (eexists; vm_compute; reflexivity).
  assert (vms (w_db (s_world (step_thread 0 releasing0))) !! "vm-2" = None) as Hn
    by (vm_compute; reflexivity).
  split; [exact Hu|]. split; [exact Hn|].
  apply (row_removed_after_confirmation sys0 releasing0 (step_thread 0 releasing0)).
  - reflexivity.
  - etrans; [|apply sched_steps]. apply spawn_steps. repeat constructor.
  - apply step_thread_step. vm_compute. reflexivity.
  - exact Hu.
  - exact Hn.
Defined.
