(* ===== verification/HostRefs.v ===== *)
(** * Pools name only registered hosts

    CreatePool and UpdatePool check that a spec's hosts are registered and then
    write the spec; RemoveHost deletes a host that no stored spec names.  The
    reader and writer sides of [hostRefsMu] keep a removal out of the gap
    between check and write.  [host_refs] is that locking discipline as a
    protocol; in every interleaving the stored pools then name only registered
    hosts. *)

From stdpp Require Import base gmap strings list relations.
From Stdlib Require Import ZArith Lia.
From S2P Require Import Prelude Types Convert Store StoreOps Concrete StoreProps Effects.
From S2P Require Import ConcreteEnv Flintlock Deletion Strategy Provision Reconciler Sweeper.
From S2P Require Import LeaseApi PoolAdmin HostAdmin EventsApi Protocols.

(** ** The protocol *)

(** [Reading names]: the reader lock is held, and [names] were registered when
    the goroutine last listed the hosts under it. *)
Inductive ref_state := Outside | Reading (names : list string) | Writing.

Definition refs_allowed (s : ref_state) (X : Set) (e : eff X) : Prop :=
  match e with
  | EStore (OpCreatePool p) | EStore (OpUpdatePool p) =>
      exists names, s = Reading names /\ pool_strings_ok p /\
        forall n, n ∈ flintlock_hosts p -> n ∈ names
  | EStore (OpDeleteHost _) => s = Writing
  | EStore (OpCreateHost h) => host_draining h = true -> host_cordoned h = true
  | EAcquire HostRefsRead | EAcquire HostRefsWrite => s = Outside
  | ERelease HostRefsRead => exists names, s = Reading names
  | ERelease HostRefsWrite => s = Writing
  | _ => True
  end.

Definition refs_next (s : ref_state) (X : Set) (e : eff X) : X -> ref_state :=
  match e in eff Y return Y -> ref_state with
  | EStore o =>
      match o in storeOp A return result StoreError A -> ref_state with
      | OpListHosts => fun r =>
          match s, r with
          | Reading _, Ok hosts => Reading (host_name <$> hosts)
          | _, _ => s
          end
      | _ => fun _ => s
      end
  | EAcquire HostRefsRead => fun _ => Reading []
  | EAcquire HostRefsWrite => fun _ => Writing
  | ERelease HostRefsRead | ERelease HostRefsWrite => fun _ => Outside
  | _ => fun _ => s
  end.

Definition host_refs : protocol :=
  {| St := ref_state; idle := Outside; allowed := refs_allowed; next := refs_next;
     final := fun _ => True |}.

(** ** Every entry point keeps to it *)

(** The effects that may happen without the lock. *)
Definition outside_ok (X : Set) (e : eff X) : bool :=
  match e with
  | EStore (OpCreatePool _) | EStore (OpUpdatePool _) | EStore (OpDeleteHost _) => false
  | EStore (OpCreateHost h) => implb (host_draining h) (host_cordoned h)
  | EAcquire HostRefsRead | EAcquire HostRefsWrite => false
  | ERelease HostRefsRead | ERelease HostRefsWrite => false
  | _ => true
  end.

Definition outside {A : Set} (p : prog A) : Prop := every outside_ok p.

Lemma outside_keeps {A : Set} (p : prog A) :
  outside p -> respects host_refs p Outside (fun _ s => s = Outside).
Proof.
  unfold outside. induction p as [A x|A X e k IH|A c IHc k IHk]; simpl; [done| |].
  - intros [He Hk]. split.
    + destruct e; try done; [destruct o; try done|destruct m; done..].
      simpl in *. intros Hd. by rewrite Hd in He.
    + intros x. assert (refs_next Outside X e x = Outside) as ->.
      { destruct e; try done; [destruct o; done|destruct m; done..]. }
      by apply IH.
  - intros [Hc Hk]. split; [|by apply IHk]. eapply respects_mono; [|by apply IHc]. done.
Qed.

(** A program that keeps away from the pool and host tables and from the locks. *)
Lemma outside_tame {A : Set} (p : prog A) : tame p -> outside p.
Proof.
  apply every_mono. intros X e. destruct e; try done; [by destruct o|by destruct m..].
Qed.

Ltac outside_tac := unfold outside; every_tac @outside_tame.

(** *** Under the reader lock *)

Lemma unknown_hosts_keep (hosts : list Host) (names acc : list string) x :
  x ∈ acc -> x ∈ fold_left (fun unknown n =>
    if decide (n ∈ host_name <$> hosts) then unknown
    else if decide (n ∈ unknown) then unknown else unknown ++ [n]) names acc.
Proof.
  revert acc. induction names as [|n names IH]; intros acc Hx; simpl; [done|].
  apply IH. repeat case_decide; set_solver.
Qed.

Lemma unknown_hosts_nil hosts names :
  unknown_hosts hosts names = [] -> forall n, n ∈ names -> n ∈ host_name <$> hosts.
Proof.
  enough (forall acc, fold_left (fun unknown n =>
    if decide (n ∈ host_name <$> hosts) then unknown
    else if decide (n ∈ unknown) then unknown else unknown ++ [n]) names acc = [] ->
    forall n, n ∈ names -> n ∈ host_name <$> hosts) as Hacc by apply Hacc.
  induction names as [|n names IH]; intros acc E x Hx; [by apply not_elem_of_nil in Hx|].
  simpl in E. apply elem_of_cons in Hx as [->|Hx]; [|by eapply IH].
  destruct (decide (n ∈ host_name <$> hosts)) as [|Hn]; [done|]. exfalso.
  eapply (not_elem_of_nil n). rewrite <- E. apply unknown_hosts_keep.
  case_decide; set_solver.
Qed.

Lemma validate_strings p p' :
  validatePoolSpec p = Ok p' -> pool_strings_ok p -> pool_strings_ok p'.
Proof.
  unfold validatePoolSpec. intros E. repeat case_match; by simplify_eq/=.
Qed.

Ltac refs_allow := cbn [allowed host_refs refs_allowed]; solve [done | eauto 6].
Ltac refs_tac := repeat (proto_step refs_allow; cbn [next host_refs refs_next] in * ).

(** After the check has passed, the spec's hosts are among those listed. *)
Lemma refs_check p names :
  respects host_refs (checkFlintlockHosts p) (Reading names) (fun err s =>
    exists names', s = Reading names' /\
      (err = None -> forall n, n ∈ flintlock_hosts p -> n ∈ names')).
Proof.
  unfold checkFlintlockHosts. apply respects_bind. split; [done|].
  intros [hosts|e]; cbn [respects next host_refs refs_next]; eexists; (split; [done|]); [|done].
  case_match eqn:E; [|done]. intros _. by apply unknown_hosts_nil.
Qed.

Definition reading (s : ref_state) : Prop := exists names, s = Reading names.

Lemma refs_CreatePool_body p names :
  pool_strings_ok p -> respects host_refs (CreatePool_body p) (Reading names) (fun _ => reading).
Proof.
  intros Hp. unfold CreatePool_body. apply respects_bind.
  eapply respects_mono; [|apply refs_check]. intros [c|] s (names' & -> & Hn).
  { by eexists. }
  specialize (Hn eq_refl). refs_tac; by eexists.
Qed.

Lemma refs_UpdatePool_body p names :
  pool_strings_ok p -> respects host_refs (UpdatePool_body p) (Reading names) (fun _ => reading).
Proof.
  intros Hp. unfold UpdatePool_body, with_status, CountVMs. apply respects_bind.
  eapply respects_mono; [|apply refs_check]. intros [c|] s (names' & -> & Hn).
  { by eexists. }
  specialize (Hn eq_refl). refs_tac; by eexists.
Qed.

(** The reader lock inside a pool's lock. *)
Lemma refs_locked {A : Set} n ns (body : prog A) :
  respects host_refs body (Reading []) (fun _ => reading) ->
  respects host_refs (locked (PoolLock n ns) (locked HostRefsRead body)) Outside
    (fun _ s => s = Outside).
Proof.
  intros Hb. unfold locked at 1. refs_tac. unfold locked. apply respects_bind.
  split; [done|]. intros ?. cbn [respects next host_refs refs_next]. apply respects_bind.
  eapply respects_mono; [|exact Hb]. intros y s Hs. apply respects_bind.
  split; [exact Hs|]. intros ?. cbn [respects next host_refs refs_next]. refs_tac. done.
Qed.

Section entries.
Context `{Semver}.

Lemma refs_RemoveHost n : respects host_refs (RemoveHost n) Outside (fun _ s => s = Outside).
Proof.
  unfold RemoveHost, RemoveHost_body. case_match; [done|]. unfold locked at 1. refs_tac.
  unfold locked. apply respects_bind. split; [done|]. intros ?.
  cbn [respects next host_refs refs_next]. refs_tac; try done.
  all: eapply respects_mono; [|apply outside_keeps, outside_tame, tame_harmless; eauto with harmless];
    intros y s ->; by refs_tac.
Qed.

Lemma refs_entry p : entry p -> obeys host_refs Outside p.
Proof.
  intros Hp.
  assert (outside p \/ respects host_refs p Outside (fun _ s => s = Outside)) as [Ho|Hr];
    [|eapply respects_mono; [|by apply outside_keeps]; done
     |eapply respects_mono; [|exact Hr]; done].
  destruct Hp; try (left; by unfold ignore, PoolAdmin.DeletePool, DeletePool_body, delete_found, restartReconciler,
    HostAdmin.DrainHost, AddHost, AddHost_body, add_dialled, HostAdmin.UpdateHost,
    UpdateHost_body, RecoverAbandonedClaims, RecoverAbandonedProvisions, locked;
    cbv zeta; outside_tac); right; apply respects_bind.
  - unfold PoolAdmin.CreatePool. destruct (validatePoolSpec spec) as [p|] eqn:E; [|done].
    eapply respects_mono; [|apply refs_locked, refs_CreatePool_body; by eapply validate_strings].
    by intros x s ->.
  - unfold PoolAdmin.UpdatePool. destruct (validatePoolSpec spec) as [p|] eqn:E; [|done].
    eapply respects_mono; [|apply refs_locked, refs_UpdatePool_body; by eapply validate_strings].
    by intros x s ->.
  - eapply respects_mono; [|apply refs_RemoveHost]. by intros x s ->.
Qed.
End entries.

(** ** In every interleaving *)

Definition is_reading (s : ref_state) : Prop :=
  match s with Reading _ => True | _ => False end.
#[export] Instance is_reading_dec s : Decision (is_reading s).
Proof. destruct s; simpl; apply _. Defined.

(** Every host a stored pool names is registered. *)
Definition pools_registered `{Codec} (db : DB) : Prop :=
  forall k r n, pools db !! k = Some r -> n ∈ json_each (pr_flintlockHosts r) ->
    is_Some (hosts db !! n).

Section interleavings.
Context `{C : Codec} `{!CodecLaws C} `{Sqlite, Semver}.

(** The locks are those the goroutines hold, and what a reader has checked is
    still so. *)
Record refs_ok (w : world) (ss : list ref_state) : Prop := {
  r_hosts : map_Forall host_row_ok (hosts (w_db w));
  r_readers : lk_readers (w_locks w) = length (filter is_reading ss);
  r_writer i : ss !! i = Some Writing -> lk_writer (w_locks w) = true;
  r_one i j : ss !! i = Some Writing -> ss !! j = Some Writing -> i = j;
  r_excl : lk_writer (w_locks w) = true -> lk_readers (w_locks w) = 0;
  r_names i names n : ss !! i = Some (Reading names) -> n ∈ names ->
    is_Some (hosts (w_db w) !! n);
  r_pools : pools_registered (w_db w)
}.

Definition deletes_host {A : Set} (o : storeOp A) : bool :=
  match o with OpDeleteHost _ => true | _ => false end.
Definition writes_pool {A : Set} (o : storeOp A) : bool :=
  match o with OpCreatePool _ | OpUpdatePool _ => true | _ => false end.

Lemma op_hosts_grow {A : Set} now now' (o : storeOp A) db n :
  deletes_host o = false ->
  is_Some (hosts db !! n) -> is_Some (hosts (denote now now' o db).1 !! n).
Proof.
  intros Hne Hn. destruct (denote now now' o db) as [db' r] eqn:E.
  destruct o; try done; store_run E; try done; rewrite ?is_Some_alter; try done.
  rewrite lookup_insert. by case_decide.
Qed.

Lemma op_pools_shrink {A : Set} now now' (o : storeOp A) db k r :
  writes_pool o = false -> pools (denote now now' o db).1 !! k = Some r -> pools db !! k = Some r.
Proof.
  intros Hne. destruct (denote now now' o db) as [db' res] eqn:E.
  destruct o; try done; store_run E; try done; by intros [_ ?]%lookup_delete_Some.
Qed.

Lemma pool_row_hosts p row :
  pool_strings_ok p -> poolToRow p = Ok row -> json_each (pr_flintlockHosts row) = flintlock_hosts p.
Proof.
  intros (Hp & _) E. unfold poolToRow in E.
  destruct (heartbeat_interval p), (heartbeat_expiry_threshold p), (marshal_template _),
    (marshal_strategy _); simplify_eq/=. by apply json_each_strings.
Qed.

(** A pool write adds at most the row of the given spec, whose hosts are
    registered. *)
Lemma write_pool_registered db p :
  pool_strings_ok p -> (forall n, n ∈ flintlock_hosts p -> is_Some (hosts db !! n)) ->
  pools_registered db ->
  pools_registered (Store.CreatePool p db).1 /\ pools_registered (Store.UpdatePool p db).1.
Proof.
  intros Hp Hn Hr. unfold Store.CreatePool, Store.UpdatePool. store_simpl.
  destruct (poolToRow p) as [row|] eqn:E; [|done]. simpl.
  pose proof (pool_row_hosts p row Hp E) as Eh. split.
  - destruct (pools db !! _); [done|]. simpl. intros k r n. simpl.
    intros [[<- <-]|[_ Hk]]%lookup_insert_Some.
    + rewrite Eh. apply Hn.
    + by apply (Hr k).
  - assert (pools_registered (set_pools (alter (fun _ => row) (pr_name row, pr_namespace row)
      (pools db)) db)) as Ha.
    { intros k r n. simpl. intros [(<- & r0 & Hk & ->)|[_ Hk]]%lookup_alter_Some.
      - rewrite Eh. apply Hn.
      - by apply (Hr k). }
    by destruct (pools db !! _).
Qed.

(** Effects that change neither the registry, the pools nor the lock. *)
Lemma refs_ok_same w w' ss :
  w_db w' = w_db w -> w_locks w' = w_locks w -> refs_ok w ss -> refs_ok w' ss.
Proof. intros Ed El []. by split; rewrite ?Ed, ?El. Qed.

(** A store call that keeps the registry and the pools. *)
Lemma refs_ok_store w db' ss :
  map_Forall host_row_ok (hosts db') ->
  (forall n, is_Some (hosts (w_db w) !! n) -> is_Some (hosts db' !! n)) ->
  pools_registered db' -> refs_ok w ss -> refs_ok (set_db db' w) ss.
Proof.
  intros Hh Hg Hp R. split; simpl; [done|apply R|apply R|apply R|apply R| |done].
  intros. by eapply Hg, (r_names _ _ R).
Qed.

(** The names a reader has just listed. *)
Lemma refs_ok_listed w ss i names hosts' :
  refs_ok w ss -> ss !! i = Some (Reading names) ->
  (forall n, n ∈ hosts' -> is_Some (hosts (w_db w) !! n)) ->
  refs_ok w (<[i := Reading hosts']> ss).
Proof.
  intros R Hi Hn. split; [apply R| | | |apply R| |apply R].
  - rewrite (r_readers _ _ R).
    pose proof (length_filter_insert is_reading ss i _ (Reading hosts') Hi) as Hc.
    rewrite !decide_True in Hc by done. lia.
  - intros j Hj. apply list_lookup_insert_Some in Hj as [(_ & ? & _)|[_ Hj]]; [done|].
    by eapply (r_writer _ _ R).
  - intros j k Hj Hk. apply list_lookup_insert_Some in Hj as [(_ & ? & _)|[_ Hj]]; [done|].
    apply list_lookup_insert_Some in Hk as [(_ & ? & _)|[_ Hk]]; [done|].
    by eapply (r_one _ _ R).
  - intros j names' n Hj. apply list_lookup_insert_Some in Hj as [(_ & [= <-] & _)|[_ Hj]];
      [apply Hn|]. by eapply (r_names _ _ R).
Qed.

Definition with_refs (readers : nat) (writer : bool) (l : locks) : locks :=
  {| lk_pools := lk_pools l; lk_hosts := lk_hosts l; lk_readers := readers; lk_writer := writer |}.

(** A goroutine takes or gives back one side of the lock. *)
Lemma refs_ok_lock w ss i s s' readers writer :
  refs_ok w ss -> ss !! i = Some s ->
  readers + (if decide (is_reading s) then 1 else 0) =
    lk_readers (w_locks w) + (if decide (is_reading s') then 1 else 0) ->
  (writer = true -> readers = 0) ->
  (forall j, j <> i -> ss !! j = Some Writing -> writer = true) ->
  (s' = Writing -> writer = true /\ forall j, j <> i -> ss !! j <> Some Writing) ->
  (forall names, s' = Reading names -> names = []) ->
  refs_ok (set_locks (with_refs readers writer (w_locks w)) w) (<[i := s']> ss).
Proof.
  intros R Hi Hc Hex Hw Hs' Hn. split; simpl; [apply R| | | |done| |apply R].
  - pose proof (length_filter_insert is_reading ss i s s' Hi) as Hl.
    rewrite (r_readers _ _ R) in Hc. lia.
  - intros j Hj. apply list_lookup_insert_Some in Hj as [(_ & E & _)|[Hne Hj]];
      [by apply Hs'|by eapply Hw].
  - intros j k Hj Hk. apply list_lookup_insert_Some in Hj as [(-> & Ej & _)|[Hj' Hj]];
      apply list_lookup_insert_Some in Hk as [(-> & Ek & _)|[Hk' Hk]]; try done.
    + by destruct (proj2 (Hs' Ej) k).
    + by destruct (proj2 (Hs' Ek) j).
    + by eapply (r_one _ _ R).
  - intros j names n Hj Hin. apply list_lookup_insert_Some in Hj as [(_ & E & _)|[_ Hj]];
      [|by eapply (r_names _ _ R)].
    rewrite (Hn _ E) in Hin. by apply not_elem_of_nil in Hin.
Qed.

Lemma no_readers w ss : refs_ok w ss -> lk_readers (w_locks w) = 0 ->
  forall i names, ss !! i <> Some (Reading names).
Proof.
  intros R Hz i names Hi. rewrite (r_readers _ _ R) in Hz. rewrite filter_length_zero in Hz.
  apply (Hz (Reading names)); [by eapply list_elem_of_lookup_2|done].
Qed.

Lemma listed_registered db n hs :
  map_Forall host_row_ok (hosts db) -> Store.ListHosts db = (db, Ok hs) ->
  n ∈ host_name <$> hs -> is_Some (hosts db !! n).
Proof.
  intros Hh E Hn. unfold Store.ListHosts in E. store_simpl. simplify_eq/=.
  rewrite <- list_fmap_compose in Hn. apply list_elem_of_fmap in Hn as (r & -> & Hr).
  rewrite elem_of_sort_on, elem_of_rows in Hr. destruct Hr as [k Hk]. simpl.
  destruct (Hh k r Hk) as [-> _]. by eexists.
Qed.

(** A removal: nobody holds the reader lock, and no pool names the host. *)
Lemma delete_step_refs w ss i name :
  refs_ok w ss -> ss !! i = Some Writing -> refs_ok (set_db (DeleteHost name (w_db w)).1 w) ss.
Proof.
  intros R Hi.
  assert (map_Forall host_row_ok (hosts (DeleteHost name (w_db w)).1)) as Hh.
  { by apply (op_keeps_hosts 0 0 (OpDeleteHost name)); [|apply R]. }
  destruct (DeleteHost name (w_db w)) as [db' [x|e]] eqn:E; simpl in *.
  - apply DeleteHost_Ok in E as [Hu ->]. split; simpl; [done|apply R|apply R|apply R|apply R| |].
    + intros j names n Hj. exfalso. eapply (no_readers w ss R); [|exact Hj].
      eapply (r_excl _ _ R), (r_writer _ _ R), Hi.
    + intros k r n Hk Hn. simpl in Hk. simpl. rewrite lookup_delete_ne.
      * by eapply (r_pools _ _ R).
      * intros <-. apply Hu. left. eauto.
  - apply (failed_op_keeps_db 0 0 (OpDeleteHost name)) in E as ->.
    eapply refs_ok_same; [| |exact R]; done.
Qed.

(** A store call a goroutine may make. *)
Lemma store_step_refs {A : Set} w ss i s now now' (o : storeOp A) :
  refs_ok w ss -> ss !! i = Some s -> refs_allowed s _ (EStore o) ->
  refs_ok (set_db (denote now now' o (w_db w)).1 w)
    (<[i := refs_next s _ (EStore o) (denote now now' o (w_db w)).2]> ss).
Proof.
  intros R Hi Ha. destruct (deletes_host o) eqn:Ed.
  { destruct o; try done. simpl in Ha. subst s. simpl. rewrite list_insert_id by done.
    by eapply delete_step_refs. }
  assert (refs_ok (set_db (denote now now' o (w_db w)).1 w) ss) as R'.
  { apply refs_ok_store; [|by intros n; apply op_hosts_grow| |done].
    - apply op_keeps_hosts; [by destruct o|apply R].
    - destruct (writes_pool o) eqn:Ew.
      + assert (forall p names, s = Reading names -> pool_strings_ok p ->
          (forall n, n ∈ flintlock_hosts p -> n ∈ names) ->
          pools_registered (Store.CreatePool p (w_db w)).1 /\
          pools_registered (Store.UpdatePool p (w_db w)).1) as Hw.
        { intros p names -> Hp Hsub. apply write_pool_registered; [done| |apply R].
          intros n Hn. eapply (r_names _ _ R); eauto. }
        destruct o; try done; destruct Ha as (names & -> & Hp & Hsub); by eapply Hw.
      + intros k r n Hk Hn. apply op_hosts_grow; [done|].
        apply op_pools_shrink in Hk; [|done]. by eapply (r_pools _ _ R). }
  destruct o; try (simpl; by rewrite list_insert_id).
  simpl in *. destruct s as [|names|]; try (by rewrite list_insert_id).
  eapply refs_ok_listed; eauto. simpl. intros n. eapply listed_registered; [apply R|done].
Qed.

(** Any effect a goroutine may have. *)
Lemma eff_step_refs {X : Set} w ss i s (e : eff X) x w' :
  refs_ok w ss -> ss !! i = Some s -> refs_allowed s X e -> enabled e w ->
  exec_eff true e w x w' -> refs_ok w' (<[i := refs_next s X e x]> ss).
Proof.
  intros R Hi Ha Hen He.
  destruct e; try (simpl in *; subst w'; rewrite list_insert_id by done;
    by eapply refs_ok_same; [| |exact R]).
  - destruct He as [(now & now' & -> & ->)|(_ & (what & ->) & ->)].
    + by apply store_step_refs.
    + assert (refs_next s _ (EStore o) (Err (ErrOther what)) = s) as ->
        by (destruct o; try done; by destruct s).
      rewrite list_insert_id by done. by eapply refs_ok_same; [| |exact R].
  - destruct He as [_ ->]. simpl. rewrite list_insert_id by done.
    by eapply refs_ok_same; [| |exact R].
  - simpl in He. subst w'. destruct m; simpl in *;
      try (rewrite list_insert_id by done; destruct R; by split).
    + subst s. apply (refs_ok_lock w ss i Outside (Reading []) (S (lk_readers (w_locks w)))
        (lk_writer (w_locks w))); try done.
      * rewrite decide_False, decide_True by (simpl; tauto). lia.
      * rewrite Hen. done.
      * intros j _ Hj. by eapply (r_writer _ _ R).
      * by intros names [= <-].
    + subst s. destruct Hen as [Hw Hr].
      apply (refs_ok_lock w ss i Outside Writing (lk_readers (w_locks w)) true); try done.
      intros _. split; [done|]. intros j _ Hj. apply (r_writer _ _ R) in Hj. congruence.
  - simpl in He. subst w'. destruct m; simpl in *;
      try (rewrite list_insert_id by done; destruct R; by split).
    + destruct Ha as [names ->]. pose proof (length_filter_insert is_reading ss i _ Outside Hi) as Hc.
      rewrite decide_True, decide_False in Hc by (simpl; tauto).
      apply (refs_ok_lock w ss i (Reading names) Outside (pred (lk_readers (w_locks w)))
        (lk_writer (w_locks w))); try done.
      * rewrite (r_readers _ _ R). rewrite decide_True, decide_False by (simpl; tauto). lia.
      * intros Hw. by rewrite (r_excl _ _ R Hw).
      * intros j _ Hj. by eapply (r_writer _ _ R).
    + subst s. apply (refs_ok_lock w ss i Writing Outside (lk_readers (w_locks w)) false); try done.
      intros j Hne Hj. by destruct Hne; eapply (r_one _ _ R).
Qed.

Lemma refs_ok_spawn w ss : refs_ok w ss -> refs_ok w (ss ++ [Outside]).
Proof.
  intros R.
  assert (forall j s, (ss ++ [Outside]) !! j = Some s -> s <> Outside -> ss !! j = Some s) as Hold.
  { intros j s [Hj|[_ Hj]]%lookup_app_Some Hs; [done|].
    by apply list_lookup_singleton_Some in Hj as [_ <-]. }
  split; [apply R| | | |apply R| |apply R].
  - rewrite (r_readers _ _ R), filter_app, length_app. simpl. lia.
  - intros i Hi%Hold; [|done]. by eapply (r_writer _ _ R).
  - intros i j Hi%Hold Hj%Hold; [|done..]. by eapply (r_one _ _ R).
  - intros i names n Hi%Hold; [|done]. by eapply (r_names _ _ R).
Qed.

(** No goroutine runs yet, the lock is free and the stored pools name
    registered hosts. *)
Definition refs_started (σ : sys) : Prop :=
  s_threads σ = [] /\ w_locks (s_world σ) = no_locks /\
  map_Forall host_row_ok (hosts (w_db (s_world σ))) /\ pools_registered (w_db (s_world σ)).

(** C6: Every host that a stored pool names is registered, in every interleaving
    of all requests and loops: neither a removal between the host check of
    CreatePool or UpdatePool and its write, nor any other order of events, leaves
    a pool that names a host the registry does not have. *)
Theorem pools_name_registered_hosts σ σ' :
  refs_started σ -> rtc (sys_step entry) σ σ' -> pools_registered (w_db (s_world σ')).
Proof.
  intros (Ht & Hl & Hh & Hp) Hs.
  apply (sys_steps_ok host_refs entry (fun w _ ss => refs_ok w ss)) in Hs as (ss & _ & R).
  - apply R.
  - apply refs_entry.
  - intros w _ ss. apply refs_ok_spawn.
  - intros. by eapply eff_step_refs.
  - exists []. rewrite Ht. split; [constructor|]. split; rewrite ?Hl; done.
Qed.
End interleavings.

Lemma db0_pools_registered : pools_registered db0.
Proof.
  intros k r n Hk Hn. apply elem_of_map_to_list in Hk. vm_compute in Hk.
  apply list_elem_of_singleton in Hk. injection Hk as -> ->. vm_compute in Hn.
  repeat (apply elem_of_cons in Hn as [->|Hn]); [eexists; vm_compute; reflexivity..|].
  by apply not_elem_of_nil in Hn.
Qed.

(** A pool on host-b is created while host-b is being removed. *)
Definition pool1 : PoolSpec :=
  {| pool_name := "api"; pool_namespace := "default";
     microvm_template := Some empty_MicroVMSpec; pool_size := 1;
     flintlock_hosts := ["host-b"];
     replenishment_strategy := Some {| strategy_type := REPLACE_ON_DELETE; min_size := None |};
     create_commands := []; pre_lease_commands := [];
     hook_failure_policy := DELETE_AND_REPLACE;
     heartbeat_interval := Some 10%Z; heartbeat_expiry_threshold := Some 30%Z |}.
Definition removal0 : sys :=
  sched (mjoin (replicate 12 [0; 1]))
    (spawn [ignore (PoolAdmin.CreatePool pool1); ignore (RemoveHost "host-b")] sys0).

Lemma pools_name_registered_hosts_witness :
  is_Some (pools (w_db (s_world removal0)) !! ("api", "default")) /\
  pools_registered (w_db (s_world removal0)).
Proof.
  split; [eexists; vm_compute; reflexivity|].
  apply (pools_name_registered_hosts sys0 removal0).
  - split; [reflexivity|]. split; [reflexivity|]. split; [apply (wf_hosts _ db0_wf)|].
    apply db0_pools_registered.
  - etrans; [|apply sched_steps]. apply spawn_steps.
    constructor; [|by repeat constructor]. constructor. split_and!; repeat constructor.
Defined.
