(* ===== verification/Quiet.v ===== *)
(** * Reasoning about one handler

    Rules for [wp]: a store call by its outcome, and programs that leave the
    pools, VMs, leases, hosts and placements alone ([quiet]: they only read,
    emit events, call flintlock, notify or record metrics). *)

From stdpp Require Import base gmap strings list.
From Stdlib Require Import ZArith Lia.
From S2P Require Import Prelude Types Convert Store StoreOps Effects Flintlock Deletion.
From S2P Require Import Strategy Provision Reconciler Sweeper LeaseApi PoolAdmin HostAdmin.
From S2P Require Import EventsApi Protocols.

(** The tables a handler answers for; events are appended by everyone. *)
Record same_core (db db' : DB) : Prop := {
  same_pools : pools db' = pools db;
  same_vms : vms db' = vms db;
  same_leases : leases db' = leases db;
  same_hosts : hosts db' = hosts db;
  same_placements : placements db' = placements db
}.

#[export] Instance same_core_refl : Reflexive same_core.
Proof. done. Qed.
#[export] Instance same_core_trans : Transitive same_core.
Proof. intros a b c [] []. split; congruence. Qed.
#[export] Instance same_core_preorder : PreOrder same_core.
Proof. split; apply _. Qed.

Definition quiet_op {A : Set} (o : storeOp A) : bool :=
  match o with
  | OpGetPool _ _ | OpListPools | OpGetVM _ | OpListVMsByPool _ _ _ | OpGetLease _
  | OpGetLeaseByRequestID _ | OpListExpiredLeases _ | OpListLeases _ | OpAppendEvent _
  | OpListEventsSince _ _ _ _ | OpListAllEventsSince _ _ | OpListVMsByPhase _ | OpGetHost _
  | OpListHosts | OpCountVMsByHost _ => true
  | _ => false
  end.

(** A program whose store calls are all [allow]ed. *)
Definition confined_eff (allow : forall A : Set, storeOp A -> Prop) (X : Set) (e : eff X) : Prop :=
  match e with EStore o => allow _ o | _ => True end.

Fixpoint confined (allow : forall A : Set, storeOp A -> Prop) {A : Set} (p : prog A) : Prop :=
  match p with
  | Ret _ => True
  | Do e k => confined_eff allow _ e /\ forall x, confined allow (k x)
  | Fork c k => confined allow c /\ confined allow k
  end.

Definition quiet {A : Set} (p : prog A) : Prop := confined (fun _ o => quiet_op o = true) p.

Section confined.
Context (allow : forall A : Set, storeOp A -> Prop).

Lemma confined_bind {A B : Set} (p : prog A) (f : A -> prog B) :
  confined allow p -> (forall x, confined allow (f x)) -> confined allow (bind p f).
Proof. induction p; simpl; naive_solver. Qed.

Lemma confined_for_each {X} (l : list X) (f : X -> prog unit) :
  (forall x, x ∈ l -> confined allow (f x)) -> confined allow (for_each l f).
Proof.
  induction l as [|x l IH]; intros Hf; cbn [for_each]; [done|].
  apply confined_bind; [apply Hf; by left|]. intros _. apply IH. intros y Hy. apply Hf. by right.
Qed.

Lemma confined_mono (allow' : forall A : Set, storeOp A -> Prop) {A : Set} (p : prog A) :
  (forall X (o : storeOp X), allow X o -> allow' X o) -> confined allow p -> confined allow' p.
Proof.
  intros Ha. induction p as [A x|A X e k IH|A c IHc k IHk]; simpl; [done| |naive_solver].
  intros [He Hk]. split; [|naive_solver]. destruct e; simpl in *; auto.
Qed.
End confined.

Lemma quiet_confined (allow : forall A : Set, storeOp A -> Prop) {A : Set} (p : prog A) :
  (forall X (o : storeOp X), quiet_op o = true -> allow X o) -> quiet p -> confined allow p.
Proof. intros Ha. by apply confined_mono. Qed.

Section rules.
Context `{Codec, Sqlite}.

Lemma quiet_op_core {A : Set} now now' (o : storeOp A) db :
  quiet_op o = true -> same_core db (denote now now' o db).1.
Proof.
  intros Ho. destruct (denote now now' o db) as [db' r] eqn:E.
  destruct o; try done; store_run E; done.
Qed.

(** What every allowed call keeps, the program keeps. *)
Lemma wp_confined faults (allow : forall A : Set, storeOp A -> Prop) (R : relation DB)
    `{!PreOrder R} {A : Set} (p : prog A) (Q : A -> world -> Prop) w :
  (forall (X : Set) now now' (o : storeOp X) db, allow X o -> R db (denote now now' o db).1) ->
  confined allow p -> (forall x w', R (w_db w) (w_db w') -> Q x w') -> wp faults p Q w.
Proof.
  intros HR. revert Q w. induction p as [A x|A X e k IH|A c IHc k IHk]; intros Q w; simpl.
  - intros _ HQ. by apply HQ.
  - intros [He Hk] HQ x w' Hx.
    assert (R (w_db w) (w_db w')) as Hw.
    { destruct e; simpl in *; subst; simpl; try done.
      - destruct Hx as [(now & now' & _ & ->)|(_ & _ & ->)]; [by apply HR|done].
      - by destruct Hx as [_ ->]. }
    apply IH; [done|]. intros y w'' Hs. apply HQ. by etrans.
  - intros [Hc Hk] HQ. apply IHc; [done|]. intros [] w' Hs. apply IHk; [done|].
    intros y w'' Hs'. apply HQ. by etrans.
Qed.

Lemma wp_quiet faults {A : Set} (p : prog A) (Q : A -> world -> Prop) w :
  quiet p -> (forall x w', same_core (w_db w) (w_db w') -> Q x w') -> wp faults p Q w.
Proof.
  intros Hp. apply (wp_confined faults (fun _ o => quiet_op o = true) same_core); [|done].
  intros X now now' o db. apply quiet_op_core.
Qed.

Lemma wp_do faults {X : Set} (e : eff X) (Q : X -> world -> Prop) w :
  (forall x w', exec_eff faults e w x w' -> Q x w') -> wp faults (do e) Q w.
Proof. done. Qed.

(** Why a store call can fail: the operation refuses, or a fault. *)
Definition store_failed faults {A : Set} (o : storeOp A) db e : Prop :=
  (exists now now', (denote now now' o db).2 = Err e) \/
  (faults = true /\ exists what, e = ErrOther what).

(** A store call succeeds with the operation's effect, or fails with none. *)
Lemma wp_store faults {A : Set} (o : storeOp A) (Q : result StoreError A -> world -> Prop) w :
  (forall now now' db' x w', denote now now' o (w_db w) = (db', Ok x) -> w_db w' = db' ->
     Q (Ok x) w') ->
  (forall e w', w_db w' = w_db w -> store_failed faults o (w_db w) e -> Q (Err e) w') ->
  wp faults (store o) Q w.
Proof.
  intros Hok Herr x w' [(now & now' & -> & ->)|(-> & (what & ->) & ->)].
  - destruct (denote now now' o (w_db w)) as [db' [x|e]] eqn:E; simpl.
    + by eapply Hok.
    + pose proof (failed_op_keeps_db _ _ _ _ _ _ E) as ->. apply Herr; [done|].
      left. exists now, now'. by rewrite E.
  - apply Herr; [done|]. right. eauto.
Qed.
End rules.

Create HintDb quiet.

Ltac quiet_step :=
  lazymatch goal with
  | |- quiet (bind _ _) => apply confined_bind; [|intros]
  | |- quiet (Ret _) => exact I
  | |- quiet (do _) => split; [first [reflexivity|exact I]|intros; exact I]
  | |- quiet (store _) => split; [reflexivity|intros; exact I]
  | |- quiet now => split; [exact I|intros; exact I]
  | |- quiet (go _) => split; [|exact I]
  | |- quiet (Do _ _) => split; [first [reflexivity|exact I]|intros]
  | |- quiet (for_each _ _) => apply confined_for_each; intros
  | |- quiet (match ?x with _ => _ end) => destruct x
  | |- quiet _ => solve [eauto with quiet]
  | |- confined _ ?p => change (quiet p)
  | |- forall _, _ => intros
  end.
Ltac quiet_tac := repeat quiet_step.

Lemma q_conn h : quiet (Pool_conn h).
Proof. unfold Pool_conn. quiet_tac. Qed.
#[export] Hint Resolve q_conn : quiet.
Lemma q_Client h : quiet (Client h).
Proof. apply q_conn. Qed.
Lemma q_ExecClient h : quiet (ExecClient h).
Proof. apply q_conn. Qed.
Lemma q_Address h : quiet (Address h).
Proof. unfold Address. quiet_tac. Qed.
Lemma q_Exec c u cmd t : quiet (Exec c u cmd t).
Proof. unfold Exec. quiet_tac. Qed.
#[export] Hint Resolve q_Client q_ExecClient q_Address q_Exec : quiet.
Lemma q_wait_ready c u n : quiet (wait_ready c u n).
Proof. induction n; cbn [wait_ready]; quiet_tac. Qed.
#[export] Hint Resolve q_wait_ready : quiet.
Lemma q_WaitReady c u i : quiet (WaitReady c u i).
Proof. unfold WaitReady. quiet_tac. Qed.
Lemma q_wait_created c u n : quiet (wait_created c u n).
Proof. induction n; cbn [wait_created]; quiet_tac. Qed.
#[export] Hint Resolve q_WaitReady q_wait_created : quiet.
Lemma q_waitCreated c u : quiet (waitCreated c u).
Proof. unfold waitCreated. quiet_tac. Qed.
Lemma q_run_commands c u t cmds : quiet (run_commands c u t cmds).
Proof. induction cmds; cbn [run_commands]; quiet_tac. Qed.
Lemma q_EmitEvent p u t : quiet (EmitEvent p u t).
Proof. unfold EmitEvent. quiet_tac. Qed.
#[export] Hint Resolve q_waitCreated q_run_commands q_EmitEvent : quiet.
Lemma q_NotifyDeleted n p ns : quiet (NotifyVMDeleted n p ns).
Proof. unfold NotifyVMDeleted. quiet_tac. Qed.
Lemma q_NotifyClaimed n p ns : quiet (NotifyVMClaimed n p ns).
Proof. unfold NotifyVMClaimed. quiet_tac. Qed.
Lemma q_ineligible p : quiet (ineligibleHosts p).
Proof. unfold ineligibleHosts. quiet_tac. Qed.
#[export] Hint Resolve q_NotifyDeleted q_NotifyClaimed q_ineligible : quiet.
Lemma q_PickHost p l : quiet (PickHost p l).
Proof. unfold PickHost. quiet_tac. Qed.
Lemma q_claimResponse i v : quiet (claimResponse i v).
Proof. unfold claimResponse. quiet_tac. Qed.
Lemma q_warn l : quiet (warnExpiringSoon l).
Proof. unfold warnExpiringSoon. quiet_tac. Qed.
#[export] Hint Resolve q_PickHost q_claimResponse q_warn : quiet.

Section versions.
Context `{Semver}.
Lemma q_CheckVersion h : quiet (Pool_CheckVersion h).
Proof. unfold Pool_CheckVersion, Conn_CheckVersion. quiet_tac. Qed.
End versions.
#[export] Hint Resolve q_CheckVersion : quiet.

(** Stepping over a program whose answer does not matter. *)
Ltac wp_skip :=
  first [ apply wp_bind; apply wp_quiet; [solve [quiet_tac; eauto with quiet]|intros ? ? ?]
        | apply wp_quiet; [solve [quiet_tac; eauto with quiet]|intros ? ? ?] ].
