(* ===== verification/OneVM.v ===== *)
(** * One VM at a time

    Programs that touch the row of a single VM, deleting a VM through
    flintlock, and the hook failure policy: what they leave in the database,
    whatever flintlock answers and, with [faults], whichever store calls
    fail. *)

From stdpp Require Import base gmap strings list.
From Stdlib Require Import ZArith Lia.
From S2P Require Import Prelude Types Convert Store StoreOps Concrete StoreProps Effects.
From S2P Require Import Flintlock ConcreteEnv Deletion Strategy Provision Reconciler Sweeper.
From S2P Require Import LeaseApi PoolAdmin HostAdmin EventsApi Protocols Quiet.

(** ** One VM's row *)

(** Everything but one VM's row is as it was; events may have been added. *)
Record only_vm (uid : string) (db db' : DB) : Prop := {
  only_pools : pools db' = pools db;
  only_leases : leases db' = leases db;
  only_hosts : hosts db' = hosts db;
  only_placements : placements db' = placements db;
  only_vms u : u <> uid -> vms db' !! u = vms db !! u
}.

#[export] Instance only_vm_preorder uid : PreOrder (only_vm uid).
Proof.
  split; [done|]. intros a b c [???? Ha] [???? Hb]. split; [congruence..|].
  intros u Hu. by rewrite Hb, Ha.
Qed.

Lemma same_only uid db db' : same_core db db' -> only_vm uid db db'.
Proof. intros []. split; congruence. Qed.

(** A call that can only change that VM's row. *)
Definition vm_op (uid : string) (A : Set) (o : storeOp A) : Prop :=
  match o with
  | OpUpdateVM v => vm_uid v = uid
  | OpDeleteVMCheckingPool u => u = uid
  | o => quiet_op o = true
  end.

Lemma quiet_vm_op uid (A : Set) (o : storeOp A) : quiet_op o = true -> vm_op uid A o.
Proof. by destruct o. Qed.

Section one_vm.
Context `{Codec, Sqlite}.

Lemma vmToRow_uid v row : vmToRow v = Ok row -> vr_uid row = vm_uid v.
Proof. unfold vmToRow. destruct (vm_created_at v), (vm_updated_at v); naive_solver. Qed.

Lemma vm_op_only uid (A : Set) now now' (o : storeOp A) db :
  vm_op uid A o -> only_vm uid db (denote now now' o db).1.
Proof.
  intros Ho. destruct o; simpl in Ho; try (apply same_only, quiet_op_core; exact Ho).
  - destruct (denote now now' (OpUpdateVM v) db) as [db' r] eqn:E. store_run E; try done.
    rewrite (vmToRow_uid v) by done. split; try done; simpl. intros u Hu.
    by rewrite lookup_insert_ne.
  - destruct (denote now now' (OpDeleteVMCheckingPool uid0) db) as [db' r] eqn:E.
    store_run E; try done. split; try done; simpl. intros u Hu. by rewrite lookup_delete_ne.
Qed.

Lemma wp_vm_only faults uid {A : Set} (p : prog A) (Q : A -> world -> Prop) w :
  confined (vm_op uid) p ->
  (forall x w', only_vm uid (w_db w) (w_db w') -> Q x w') -> wp faults p Q w.
Proof. apply (wp_confined faults (vm_op uid) (only_vm uid)). apply vm_op_only. Qed.

(** *** Writing the row *)

(** The row that writing [v] leaves. *)
Definition row_is (v : VMRecord) (r : vmRow) : Prop :=
  vr_phase r = phase_code (vm_phase v) /\ vr_leaseID r = vm_lease_id v /\
  in_pool (vm_pool_name v) (vm_pool_namespace v) r /\
  vr_flintlockHost r = vm_flintlock_host v.

(** A record read from the store, with its times set. *)
Definition timed (v : VMRecord) : Prop :=
  is_Some (vm_created_at v) /\ is_Some (vm_updated_at v).

Lemma updateVM_cases v db :
  timed v ->
  match updateVM v db with
  | (db', Ok _) => exists old new, vms db !! vm_uid v = Some old /\ row_is v new /\
      (vr_phase old <> phase_code DELETING \/ vm_phase v = DELETING) /\
      db' = set_vms (<[vm_uid v := new]> (vms db)) db
  | (db', Err e) => db' = db /\
      (vms db !! vm_uid v = None \/
       exists old, vms db !! vm_uid v = Some old /\ vr_phase old = phase_code DELETING /\
         vm_phase v <> DELETING)
  end.
Proof.
  intros [[c Hc] [t Ht]]. unfold updateVM, vmToRow. rewrite Hc, Ht. store_simpl.
  destruct (vms db !! vm_uid v) as [old|] eqn:Eo; [|by auto].
  case_decide as Hd.
  - exists old. eexists. split; [done|]. split; [|split; [|done]]; [done|].
    destruct Hd as [Hd|Hd]; [by left|right]. by apply (inj phase_code).
  - split; [done|]. right. exists old. split; [done|].
    destruct (decide (vr_phase old = phase_code DELETING)); [|naive_solver].
    split; [done|]. intros E. apply Hd. right. by rewrite E.
Qed.

(** The VM is out of use: being deleted, quarantined or gone. *)
Definition out_of_use (r : vmRow) : Prop :=
  vr_phase r = phase_code DELETING \/ vr_phase r = phase_code QUARANTINED.
Definition settled (uid : string) (db : DB) : Prop :=
  forall r, vms db !! uid = Some r -> out_of_use r.

Lemma settled_same uid db db' : same_core db db' -> settled uid db -> settled uid db'.
Proof. intros Hs S r. rewrite (same_vms _ _ Hs). apply S. Qed.

(** The row is DELETING or gone. *)
Definition ending (uid : string) (db : DB) : Prop :=
  forall r, vms db !! uid = Some r -> vr_phase r = phase_code DELETING.

Lemma ending_settled uid db : ending uid db -> settled uid db.
Proof. intros E r Hr. left. by apply E. Qed.

Lemma ending_same uid db db' : same_core db db' -> ending uid db -> ending uid db'.
Proof. intros Hs S r. rewrite (same_vms _ _ Hs). apply S. Qed.

(** Writing one of those phases settles the VM. *)
Lemma wp_update_settles v (Q : result StoreError unit -> world -> Prop) w :
  timed v -> vm_phase v = DELETING \/ vm_phase v = QUARANTINED ->
  (forall x w', settled (vm_uid v) (w_db w') ->
     (vm_phase v = DELETING -> ending (vm_uid v) (w_db w')) ->
     only_vm (vm_uid v) (w_db w) (w_db w') -> Q x w') ->
  wp false (store (OpUpdateVM v)) Q w.
Proof.
  intros Ht Hl HQ x w' Hx. destruct Hx as [(now & now' & -> & ->)|[[=] _]].
  apply HQ; [| |by apply (vm_op_only _ _ now now' (OpUpdateVM v))]; simpl;
    pose proof (updateVM_cases v (w_db w) Ht) as Hu; unfold UpdateVM;
    destruct (updateVM v (w_db w)) as [db' [[]|e]]; simpl.
  - destruct Hu as (old & new & Ho & (Hn & _) & Hd & ->). intros r Hr. simpl in Hr.
    rewrite lookup_insert_eq in Hr. injection Hr as <-. unfold out_of_use. rewrite Hn.
    destruct Hl as [-> | ->]; auto.
  - destruct Hu as (-> & [Hn|(old & Ho & Hd & _)]); intros r Hr; [congruence|].
    left. congruence.
  - destruct Hu as (old & new & Ho & (Hn & _) & Hd & ->). intros E r Hr. simpl in Hr.
    rewrite lookup_insert_eq in Hr. simplify_eq. by rewrite Hn, E.
  - destruct Hu as (-> & [Hn|(old & Ho & Hd & Hnd)]); intros E r Hr; simplify_eq/=; congruence.
Qed.

End one_vm.

(** *** Programs that touch one VM *)

Create HintDb onevm.

Ltac onevm_step :=
  lazymatch goal with
  | |- confined (vm_op ?u) (bind _ _) => apply confined_bind; [|intros]
  | |- confined (vm_op ?u) (Ret _) => exact I
  | |- confined (vm_op ?u) (store (OpUpdateVM _)) => split; [reflexivity|intros; exact I]
  | |- confined (vm_op ?u) (store (OpDeleteVMCheckingPool _)) => split; [reflexivity|intros; exact I]
  | |- confined (vm_op ?u) (match ?x with _ => _ end) => destruct x
  | |- confined (vm_op ?u) _ =>
      first [ solve [apply quiet_confined; [apply quiet_vm_op|quiet_tac]]
            | solve [eauto with onevm] ]
  end.
Ltac onevm_tac := repeat onevm_step.

Lemma onevm_delete_marked v : confined (vm_op (vm_uid v)) (delete_marked v).
Proof. unfold delete_marked. onevm_tac. Qed.
#[export] Hint Resolve onevm_delete_marked : onevm.

Lemma onevm_EnsureCP v : confined (vm_op (vm_uid v)) (EnsureVMDeletedCheckingPool v).
Proof.
  unfold EnsureVMDeletedCheckingPool. onevm_tac.
  apply (onevm_delete_marked (set_updated_at x (set_phase DELETING v))).
Qed.
#[export] Hint Resolve onevm_EnsureCP : onevm.

Lemma onevm_Ensure v : confined (vm_op (vm_uid v)) (EnsureVMDeleted v).
Proof. unfold EnsureVMDeleted. onevm_tac. Qed.

Lemma onevm_deleteAfter v : confined (vm_op (vm_uid v)) (deleteAfterHookFailure v).
Proof.
  unfold deleteAfterHookFailure. onevm_tac.
  apply (onevm_Ensure (set_updated_at x (set_lease_id None (set_phase DELETING v)))).
Qed.
#[export] Hint Resolve onevm_Ensure onevm_deleteAfter : onevm.

Lemma onevm_Apply p v h m : confined (vm_op (vm_uid v)) (ApplyHookFailurePolicy p v h m).
Proof. unfold ApplyHookFailurePolicy. onevm_tac. Qed.
#[export] Hint Resolve onevm_Apply : onevm.

Lemma onevm_policy s p v : confined (vm_op (vm_uid v)) (apply_pre_lease_policy s p v).
Proof. unfold apply_pre_lease_policy. onevm_tac. Qed.
#[export] Hint Resolve onevm_policy : onevm.

Lemma onevm_loop s c p v cmds : confined (vm_op (vm_uid v)) (pre_lease_commands_loop s c p v cmds).
Proof. induction cmds; cbn [pre_lease_commands_loop]; onevm_tac. Qed.
#[export] Hint Resolve onevm_loop : onevm.

(** ** The hook failure policy *)

Section policy.
Context `{Codec, Sqlite}.

Lemma wp_Client faults h (Q : result error connRef -> world -> Prop) w :
  (forall c w', same_core (w_db w) (w_db w') -> Q (Ok c) w') ->
  (forall w', same_core (w_db w) (w_db w') -> Q (Err ErrUnknownHost) w') ->
  wp faults (Client h) Q w.
Proof.
  intros Hok Herr. unfold Client, Pool_conn. wp_skip. by destruct x; [apply Hok|apply Herr].
Qed.

Lemma DeleteVMCheckingPool_cases uid db :
  match DeleteVMCheckingPool uid db with
  | (db', Ok b) => is_Some (vms db !! uid) /\ db' = set_vms (delete uid (vms db)) db
  | (db', Err e) => db' = db /\ e = ErrNotFound /\ vms db !! uid = None
  end.
Proof.
  unfold DeleteVMCheckingPool. store_simpl. destruct (vms db !! uid) as [r|]; [|done].
  split; [by eexists|done].
Qed.

(** Once flintlock has confirmed, the row is removed; otherwise it stays. *)
Lemma wp_delete_marked faults v (Q : result error bool -> world -> Prop) w :
  (forall b w', is_Some (vms (w_db w) !! vm_uid v) ->
     same_core (set_vms (delete (vm_uid v) (vms (w_db w))) (w_db w)) (w_db w') -> Q (Ok b) w') ->
  (forall e w', same_core (w_db w) (w_db w') ->
     (e = StoreErr ErrNotFound -> vms (w_db w) !! vm_uid v = None) -> Q (Err e) w') ->
  wp faults (delete_marked v) Q w.
Proof.
  intros Hok Herr. unfold delete_marked. apply wp_bind, wp_Client; [|intros w1 Hs1; by apply Herr].
  intros client w1 Hs1. apply wp_bind, wp_quiet; [quiet_tac|]. intros resp w2 Hs2.
  assert (same_core (w_db w) (w_db w2)) as Hs by by etrans.
  destruct (match resp with Ok _ => None | Err NotFound => None | Err c => Some c end);
    [by apply Herr|].
  assert (vms (w_db w2) = vms (w_db w)) as Ev by apply Hs.
  pose proof (DeleteVMCheckingPool_cases (vm_uid v) (w_db w2)) as Hc.
  apply wp_bind, wp_store.
  - intros now now' db' b w3 E Ew. unfold denote in E. rewrite E, Ev in Hc. destruct Hc as [Hr Hd].
    apply Hok; [done|]. rewrite Ew, Hd. destruct Hs. split; simpl; congruence.
  - intros e w3 Ew Hf. apply Herr; [by rewrite Ew|]. intros [= ->].
    destruct Hf as [(now & now' & E)|(_ & what & [=])]. unfold denote in E.
    destruct (DeleteVMCheckingPool _ _) as [db' [b|e]]; [done|]. rewrite <- Ev. apply Hc.
Qed.

Lemma only_vm_delete uid db : only_vm uid db (set_vms (delete uid (vms db)) db).
Proof. split; try done. intros u Hu. simpl. by rewrite lookup_delete_ne. Qed.

Lemma gone_ending uid db db' :
  same_core (set_vms (delete uid (vms db)) db) db' -> vms db' !! uid = None.
Proof. intros Hs. rewrite (same_vms _ _ Hs). simpl. apply lookup_delete_eq. Qed.

(** Deleting a VM whose row was read: it is gone, or it is left behind marked
    DELETING unless the store failed. *)
Lemma wp_EnsureCP faults r (Q : result error bool -> world -> Prop) w :
  vms (w_db w) !! vr_uid r = Some r ->
  (forall b w', vms (w_db w') !! vr_uid r = None -> only_vm (vr_uid r) (w_db w) (w_db w') ->
     Q (Ok b) w') ->
  (forall e w', only_vm (vr_uid r) (w_db w) (w_db w') -> e <> StoreErr ErrNotFound ->
     (faults = false -> ending (vr_uid r) (w_db w')) -> Q (Err e) w') ->
  wp faults (EnsureVMDeletedCheckingPool (rowToVM r)) Q w.
Proof.
  intros Hr Hok Herr. unfold EnsureVMDeletedCheckingPool.
  assert (forall v w1 x, vm_uid v = vr_uid r -> vms (w_db w1) !! vr_uid r = Some x ->
    only_vm (vr_uid r) (w_db w) (w_db w1) -> ending (vr_uid r) (w_db w1) ->
    wp faults (delete_marked v) Q w1) as Hdel.
  { intros v w1 x Hv Hx Ho He. apply wp_delete_marked; rewrite Hv.
    - intros b w2 _ Hs. apply Hok; [by eapply gone_ending|]. etrans; [done|].
      etrans; [apply only_vm_delete|by apply same_only].
    - intros e w2 Hs Hn. apply Herr.
      + etrans; [done|by apply same_only].
      + intros E. specialize (Hn E). congruence.
      + intros _. by eapply ending_same. }
  case_decide as Hd.
  - wp_skip. rename x into t, w' into w1.
    assert (vms (w_db w1) = vms (w_db w)) as Ev1 by by apply same_vms.
    set (v := set_updated_at t (set_phase DELETING (rowToVM r))).
    assert (timed v) as Ht by (split; by eexists).
    pose proof (updateVM_cases v (w_db w1) Ht) as Hu.
    apply wp_bind, wp_store.
    + intros now now' db' [] w2 E Ew. unfold denote, UpdateVM in E. rewrite E in Hu.
      destruct Hu as (old & new & Hold & (Hph & _) & _ & Hdb).
      assert (vms (w_db w2) !! vr_uid r = Some new) as Hn
        by (rewrite Ew, Hdb; apply lookup_insert_eq).
      eapply (Hdel v); [done|done| |].
      * etrans; [by apply same_only|]. rewrite Ew, Hdb. split; try done. intros u Hne. simpl.
        by rewrite lookup_insert_ne.
      * intros x Hx. rewrite Hn in Hx. injection Hx as <-. done.
    + intros e w2 Ew Hf.
      assert (faults = true /\ exists what, e = ErrOther what) as (-> & what & ->).
      { destruct Hf as [(now & now' & E)|Hf]; [|done]. exfalso. unfold denote, UpdateVM in E.
        destruct (updateVM v (w_db w1)) as [db' [[]|e']]; [done|].
        destruct Hu as [_ [Hn|(old & _ & _ & Hnd)]]; [|done].
        rewrite Ev1 in Hn. simpl in Hn. congruence. }
      apply Herr; try done. etrans; [by apply same_only|]. by rewrite Ew.
  - eapply Hdel; try done. intros x Hx. rewrite Hr in Hx. injection Hx as <-.
    simpl in Hd. by rewrite <- Hd, phase_code_of_code.
Qed.

Lemma wp_deleteAfter_settles v (Q : unit -> world -> Prop) w :
  timed v ->
  (forall w', settled (vm_uid v) (w_db w') -> only_vm (vm_uid v) (w_db w) (w_db w') -> Q tt w') ->
  wp false (deleteAfterHookFailure v) Q w.
Proof.
  intros Ht HQ. unfold deleteAfterHookFailure. wp_skip. rename x into t.
  set (v' := set_updated_at t (set_lease_id None (set_phase DELETING v))).
  assert (timed v') as Ht' by (split; [apply Ht|by eexists]).
  apply wp_bind, wp_update_settles; [done|by left|]. intros r w1 _ He Ho.
  assert (only_vm (vm_uid v) (w_db w) (w_db w1)) as Ho1 by (etrans; [by apply same_only|done]).
  specialize (He eq_refl). apply wp_bind. unfold EnsureVMDeleted, EnsureVMDeletedCheckingPool.
  apply wp_bind. rewrite decide_False by (intros []; done).
  apply wp_delete_marked.
  - intros b w2 _ Hs. apply HQ.
    + intros x Hx. pose proof (gone_ending _ _ _ Hs : vms (w_db w2) !! vm_uid v = None). congruence.
    + etrans; [done|]. etrans; [apply only_vm_delete|by apply same_only].
  - intros e w2 Hs _. apply HQ.
    + by eapply settled_same, ending_settled.
    + etrans; [done|]. by apply same_only.
Qed.

(** The policy touches that VM alone and, unless the store fails, leaves
    it out of use. *)
Lemma wp_Apply faults p v h m (Q : unit -> world -> Prop) w :
  timed v ->
  (forall w', (faults = false -> settled (vm_uid v) (w_db w')) ->
     only_vm (vm_uid v) (w_db w) (w_db w') -> Q tt w') ->
  wp faults (ApplyHookFailurePolicy p v h m) Q w.
Proof.
  intros Ht HQ. destruct faults.
  { apply (wp_vm_only true (vm_uid v)); [apply onevm_Apply|]. intros [] w' Ho. by apply HQ. }
  unfold ApplyHookFailurePolicy. apply wp_bind.
  assert (forall w1, settled (vm_uid v) (w_db w1) -> only_vm (vm_uid v) (w_db w) (w_db w1) ->
    wp false (then! (if m then do (EMetric (HookFailure h (pool_name p) (pool_namespace p)))
                     else Ret tt) in EmitEvent p (vm_uid v) VM_HOOK_FAILED) Q w1) as Hrest.
  { intros w1 Hs Ho. apply wp_quiet; [quiet_tac|]. intros [] w2 Hc. apply HQ.
    - intros _. by eapply settled_same.
    - etrans; [done|]. by apply same_only. }
  destruct (hook_failure_policy p); try (apply wp_deleteAfter_settles; by auto).
  wp_skip. apply wp_bind.
  apply (wp_update_settles (set_updated_at x (set_lease_id None (set_phase QUARANTINED v))));
    [split; [apply Ht|by eexists]|by right|].
  intros r w1 Hs _ Ho. apply Hrest; [done|]. etrans; [by apply same_only|done].
Qed.

Lemma wp_policy faults s p v (Q : unit -> world -> Prop) w :
  timed v ->
  (forall w', (faults = false -> settled (vm_uid v) (w_db w')) ->
     only_vm (vm_uid v) (w_db w) (w_db w') -> Q tt w') ->
  wp faults (apply_pre_lease_policy s p v) Q w.
Proof.
  intros Ht HQ. unfold apply_pre_lease_policy. apply wp_bind, wp_Apply; [done|]. intros w1 Hs Ho.
  apply wp_quiet; [quiet_tac|]. intros [] w2 Hc. apply HQ.
  - intros Hf. eapply settled_same; eauto.
  - etrans; [done|]. by apply same_only.
Qed.
End policy.
