(* ===== verification/LeaseProps.v ===== *)
(** * The Lease service, one call at a time

    What ClaimVM, Heartbeat, ReleaseVM and yieldClaim do to the database and
    what they answer, whatever flintlock answers and, with [faults], whichever
    store calls fail. *)

From stdpp Require Import base gmap strings list.
From Stdlib Require Import ZArith Lia.
From S2P Require Import Prelude Types Convert Store StoreOps Concrete StoreProps Effects.
From S2P Require Import Flintlock ConcreteEnv Deletion Strategy Provision Reconciler Sweeper.
From S2P Require Import LeaseApi PoolAdmin HostAdmin EventsApi Protocols Quiet OneVM.

(** ** ClaimVM *)

Section claim.
Context `{Codec, Sqlite}.

(** A claim that was refused changed at most the VM it had taken, which was an
    available one of the pool, and unless the store failed too that VM is now
    being deleted, quarantined or gone. *)
Definition claim_refused (faults : bool) (n ns : string) (db db' : DB) : Prop :=
  same_core db db' \/
  exists uid r, vms db !! uid = Some r /\ claimable n ns r /\ only_vm uid db db' /\
    (faults = false -> settled uid db').

(** A new lease: an available VM of the pool is LEASED under it, and nothing
    else changed. *)
Definition claim_committed (n ns rid : string) (resp : ClaimVMResponse) (db db' : DB) : Prop :=
  (exists r r', vms db !! resp_vm_uid resp = Some r /\ claimable n ns r /\
     vms db' = <[resp_vm_uid resp := r']> (vms db) /\ vr_phase r' = phase_code LEASED /\
     vr_leaseID r' = Some (resp_lease_id resp) /\ in_pool n ns r' /\
     vr_flintlockHost r' = resp_host_name resp /\ vr_flintlockHost r = resp_host_name resp) /\
  (exists l, leases db !! resp_lease_id resp = None /\
     leases db' = <[resp_lease_id resp := l]> (leases db) /\
     lr_leaseID l = resp_lease_id resp /\ lr_vmUID l = resp_vm_uid resp /\
     lease_in_pool n ns l /\ lr_requestID l = NullString rid) /\
  pools db' = pools db /\ hosts db' = hosts db /\ placements db' = placements db.

(** The lease the request id already has, of a VM that is not being deleted. *)
Definition claim_replayed (n ns rid : string) (resp : ClaimVMResponse) (db db' : DB) : Prop :=
  same_core db db' /\
  exists l v, leases db !! resp_lease_id resp = Some l /\ lr_requestID l = Some rid /\
    lease_in_pool n ns l /\ lr_vmUID l = resp_vm_uid resp /\
    vms db !! resp_vm_uid resp = Some v /\ vr_phase v <> phase_code DELETING.

Definition claim_result faults (req : ClaimVMRequest) (db : DB)
    (r : result code ClaimVMResponse) (db' : DB) : Prop :=
  let n := ref_name (claim_pool req) in
  let ns := ref_namespace (claim_pool req) in
  let rid := claim_request_id req in
  match r with
  | Ok resp =>
      request_id_used rid db /\ claim_replayed n ns rid resp db db' \/
      ~ request_id_used rid db /\ claim_committed n ns rid resp db db'
  | Err c =>
      claim_refused faults n ns db db' /\
      (c = NotFound -> pools db !! (n, ns) = None) /\
      (c = ResourceExhausted -> available n ns db = ∅)
  end.

Lemma wp_claimResponse faults id v (Q : ClaimVMResponse -> world -> Prop) w :
  (forall resp w', same_core (w_db w) (w_db w') -> resp_lease_id resp = id ->
     resp_vm_uid resp = vm_uid v -> resp_host_name resp = vm_flintlock_host v -> Q resp w') ->
  wp faults (claimResponse id v) Q w.
Proof.
  intros HQ. unfold claimResponse. wp_skip. wp_skip. wp_skip. cbn [wp]. apply HQ; try done.
  etrans; [done|]. by etrans.
Qed.

Lemma GetLeaseByRequestID_Ok rid db db' l :
  map_Forall lease_row_ok (leases db) -> GetLeaseByRequestID rid db = (db', Ok l) ->
  db' = db /\ exists r, leases db !! lr_leaseID r = Some r /\ lr_requestID r = Some rid /\
    l = rowToLease r.
Proof.
  intros W E. unfold GetLeaseByRequestID in E. store_simpl.
  destruct (head _) as [r|] eqn:Eh; simplify_eq/=. split; [done|]. exists r.
  apply head_filter_Some in Eh as [Hr Hin]. rewrite scan_leases_perm, elem_of_rows in Hin.
  destruct Hin as [k Hk]. destruct (W k r Hk) as [<- _]. done.
Qed.

Lemma GetLeaseByRequestID_none rid db :
  (GetLeaseByRequestID rid db).2 = Err ErrNotFound -> ~ request_id_used rid db.
Proof.
  unfold GetLeaseByRequestID. store_simpl. destruct (head _) as [r|] eqn:Eh; [done|].
  intros _ (_ & id & r & Hr & Hx). apply (head_filter_None _ _ Eh r); [|done].
  rewrite scan_leases_perm, elem_of_rows. eauto.
Qed.

Lemma GetVM_Ok uid db db' v :
  GetVM uid db = (db', Ok v) -> db' = db /\ exists r, vms db !! uid = Some r /\ v = rowToVM r.
Proof.
  unfold GetVM. store_simpl. destruct (vms db !! uid) as [r|]; intros E; simplify_eq/=. eauto.
Qed.

Lemma wp_replayClaim faults l n ns (Q : result code ClaimVMResponse -> world -> Prop) w :
  map_Forall vm_row_ok (vms (w_db w)) ->
  (forall resp w' v, same_core (w_db w) (w_db w') -> resp_lease_id resp = lr_leaseID l ->
     resp_vm_uid resp = lr_vmUID l -> lease_in_pool n ns l ->
     vms (w_db w) !! lr_vmUID l = Some v -> vr_phase v <> phase_code DELETING ->
     Q (Ok resp) w') ->
  (forall c w', same_core (w_db w) (w_db w') -> c <> NotFound -> c <> ResourceExhausted ->
     Q (Err c) w') ->
  wp faults (replayClaim (rowToLease l) n ns) Q w.
Proof.
  intros W Hok Herr. unfold replayClaim. case_decide as Hp; [by apply Herr|].
  apply Decidable.not_or in Hp. simpl in Hp. apply wp_bind, wp_store.
  - intros now now' db' v w1 E Ew. apply GetVM_Ok in E as (-> & r & Hr & ->).
    assert (same_core (w_db w) (w_db w1)) by by rewrite Ew.
    case_decide as Hd; [by apply Herr|]. wp_skip. apply wp_bind, wp_claimResponse.
    intros resp w3 Hs Hi Hu _. eapply Hok; try done.
    + etrans; [done|]. by etrans.
    + rewrite Hu. simpl. by destruct (W _ _ Hr).
    + split; apply dec_stable; tauto.
    + intros E. apply Hd. simpl. by rewrite E.
  - intros e w1 Ew _. assert (same_core (w_db w) (w_db w1)) by by rewrite Ew.
    destruct e; by apply Herr.
Qed.

(** A VM that has a row and is not being deleted. *)
Definition held (uid : string) (db : DB) : Prop :=
  exists r, vms db !! uid = Some r /\ vr_phase r <> phase_code DELETING.

Lemma held_same uid db db' : same_core db db' -> held uid db -> held uid db'.
Proof. intros Hs (r & Hr & Hp). exists r. by rewrite (same_vms _ _ Hs). Qed.

(** Writing a held VM fails only if the store does. *)
Lemma update_held faults v db e :
  timed v -> held (vm_uid v) db -> store_failed faults (OpUpdateVM v) db e ->
  faults = true /\ exists what, e = ErrOther what.
Proof.
  intros Ht (r & Hr & Hp) [(now & now' & E)|Hf]; [|done]. exfalso.
  unfold denote, UpdateVM in E. pose proof (updateVM_cases v db Ht) as Hu.
  destruct (updateVM v db) as [db' [[]|e']]; [done|].
  destruct Hu as [_ [Hn|(old & Ho & Hd & _)]]; congruence.
Qed.

Lemma wp_loop faults s c p v cmds (Q : option error -> world -> Prop) w :
  timed v ->
  (forall w', same_core (w_db w) (w_db w') -> Q None w') ->
  (forall e w', only_vm (vm_uid v) (w_db w) (w_db w') ->
     (faults = false -> settled (vm_uid v) (w_db w')) -> Q (Some e) w') ->
  wp faults (pre_lease_commands_loop s c p v cmds) Q w.
Proof.
  intros Ht. revert w. induction cmds as [|cmd cmds IH]; intros w Hok Herr;
    cbn [pre_lease_commands_loop]; [by apply Hok|].
  wp_skip. rename x into r, w' into w1.
  assert (forall e, wp faults (then! apply_pre_lease_policy s p v in Ret (Some e)) Q w1) as Hfail.
  { intros e. apply wp_bind, wp_policy; [done|]. intros w2 Hset Ho. apply Herr; [|done].
    etrans; [by apply same_only|done]. }
  destruct r as [r|e]; [|by apply Hfail].
  case_decide; [by apply Hfail|]. apply IH.
  - intros w2 Hs2. apply Hok. by etrans.
  - intros e w2 Ho. apply Herr. etrans; [by apply same_only|done].
Qed.

Lemma wp_runPreLeaseHooks faults s p v (Q : VMRecord * option error -> world -> Prop) w :
  timed v -> held (vm_uid v) (w_db w) ->
  (forall t w', only_vm (vm_uid v) (w_db w) (w_db w') -> held (vm_uid v) (w_db w') ->
     Q (set_updated_at t (set_phase PRE_LEASE_HOOK_RUNNING v), None) w') ->
  (forall v' e w', only_vm (vm_uid v) (w_db w) (w_db w') ->
     (faults = false -> settled (vm_uid v) (w_db w')) -> Q (v', Some e) w') ->
  wp faults (runPreLeaseHooks s p v) Q w.
Proof.
  intros Ht Hh Hok Herr. unfold runPreLeaseHooks. wp_skip. rename x into t, w' into w1.
  set (v' := set_updated_at t (set_phase PRE_LEASE_HOOK_RUNNING v)).
  assert (timed v') as Ht' by (split; [apply Ht|by eexists]).
  apply (held_same _ _ _ H1) in Hh. apply (same_only (vm_uid v)) in H1.
  assert (forall e w2, only_vm (vm_uid v) (w_db w) (w_db w2) ->
    wp faults (then! apply_pre_lease_policy s p v' in Ret (v', Some e)) Q w2) as Hfail.
  { intros e w2 Ho. apply wp_bind, wp_policy; [done|]. intros w3 Hset Ho3. apply Herr; [|done].
    by etrans. }
  apply wp_bind, wp_store.
  - intros now now' db' [] w2 E Ew. unfold denote, UpdateVM in E.
    pose proof (updateVM_cases v' (w_db w1) Ht') as Hu. rewrite E in Hu.
    destruct Hu as (old & new & Hold & (Hph & _) & _ & Hdb).
    assert (only_vm (vm_uid v) (w_db w) (w_db w2)) as Ho2.
    { etrans; [done|]. replace (w_db w2) with (denote now now' (OpUpdateVM v') (w_db w1)).1
        by (unfold denote, UpdateVM; by rewrite E). by apply vm_op_only. }
    assert (held (vm_uid v) (w_db w2)) as Hh2.
    { exists new. rewrite Ew, Hdb, Hph. simpl. by rewrite lookup_insert_eq. }
    wp_skip. rename x into client, w' into w3.
    assert (only_vm (vm_uid v) (w_db w) (w_db w3)) as Ho3
      by (etrans; [done|by apply same_only]).
    destruct client as [client|e]; [|by apply Hfail].
    wp_skip. rename w' into w4. apply wp_bind, wp_loop; [done|..].
    + intros w5 Hs5. wp_skip. wp_skip. apply Hok.
      * etrans; [done|]. repeat (etrans; [by apply same_only|]). by apply same_only.
      * eapply held_same; [|exact Hh2]. do 3 (etrans; [done|]). by etrans.
    + intros e w5 Ho5 Hset. apply Herr; [|done]. etrans; [done|].
      etrans; [by apply same_only|done].
  - intros e w2 Ew Hf. destruct (update_held faults v' (w_db w1) e Ht' Hh Hf) as (_ & what & ->).
    apply Hfail. by rewrite Ew.
Qed.

(** Committing a held VM's claim, on each branch. *)
Lemma LeaseVM_cases v l lrow db :
  timed v -> leaseToRow l = Ok lrow -> held (vm_uid v) db ->
  match LeaseVM v l db with
  | (db', Ok _) => exists new, row_is v new /\ leases db !! lease_id l = None /\
      db' = set_leases (<[lease_id l := lrow]> (leases db))
              (set_vms (<[vm_uid v := new]> (vms db)) db)
  | (_, Err e) => e = ErrDuplicateRequestID /\ request_id_used (lease_request_id l) db \/
      e = ErrOther "insert lease" /\ is_Some (leases db !! lease_id l)
  end.
Proof.
  intros Ht El (r & Hr & Hp). unfold LeaseVM. store_simpl.
  pose proof (updateVM_cases v db Ht) as Hu. destruct (updateVM v db) as [db1 [[]|e]].
  - destruct Hu as (old & new & Ho & Hn & _ & ->).
    pose proof (insertLease_cases l lrow (set_vms (<[vm_uid v := new]> (vms db)) db) El) as Hi.
    destruct (insertLease l _) as [db2 [[]|e]].
    + destruct Hi as (-> & Hid & _). exists new. done.
    + destruct Hi as (_ & [Hi|Hi]); auto.
  - destruct Hu as [_ [Hn|(old & Ho & Hd & _)]]; [congruence|]. exfalso.
    rewrite Ho in Hr. injection Hr as <-. by apply Hp.
Qed.

Lemma wp_commit faults s p v n ns rid (Q : result code ClaimVMResponse -> world -> Prop) w :
  timed v -> held (vm_uid v) (w_db w) ->
  ~ request_id_used rid (w_db w) ->
  (forall resp w' new l, resp_vm_uid resp = vm_uid v -> resp_host_name resp = vm_flintlock_host v ->
     row_is (set_lease_id (Some (resp_lease_id resp)) (set_phase LEASED v)) new ->
     leases (w_db w) !! resp_lease_id resp = None ->
     lr_leaseID l = resp_lease_id resp -> lr_vmUID l = vm_uid v -> lease_in_pool n ns l ->
     lr_requestID l = NullString rid ->
     same_core (set_leases (<[resp_lease_id resp := l]> (leases (w_db w)))
       (set_vms (<[vm_uid v := new]> (vms (w_db w))) (w_db w))) (w_db w') -> Q (Ok resp) w') ->
  (forall w', only_vm (vm_uid v) (w_db w) (w_db w') ->
     (faults = false -> settled (vm_uid v) (w_db w')) -> Q (Err Internal) w') ->
  wp faults (commit_claim s p v n ns rid) Q w.
Proof.
  intros Ht Hh Hrid Hok Herr. unfold commit_claim.
  wp_skip. rename x into id, w' into w1. wp_skip. rename x into t, w' into w2.
  assert (same_core (w_db w) (w_db w2)) as Hs2 by by etrans.
  set (v' := set_updated_at t (set_lease_id (Some id) (set_phase LEASED v))).
  assert (timed v') as Ht' by (split; [apply Ht|by eexists]).
  assert (held (vm_uid v') (w_db w2)) as Hh2 by by eapply held_same.
  destruct (leaseToRow (new_lease id rid v' n ns t (t + expiry_threshold p))) as [l|] eqn:El;
    [|done].
  pose proof (LeaseVM_cases v' _ l (w_db w2) Ht' El Hh2) as Hc.
  assert (forall w3, same_core (w_db w2) (w_db w3) ->
    wp faults (then! apply_pre_lease_policy s p v' in Ret (Err Internal)) Q w3) as Hfail.
  { intros w3 Hs3. apply wp_bind, wp_policy; [done|]. intros w4 Hset Ho. apply Herr; [|done].
    etrans; [by apply same_only|]. etrans; [by apply same_only|done]. }
  apply wp_bind, wp_store.
  - intros now now' db' [] w3 E Ew. unfold denote in E. rewrite E in Hc.
    destruct Hc as (new & Hnew & Hid & ->). wp_skip. wp_skip. wp_skip.
    apply wp_bind, wp_claimResponse. intros resp w7 Hs7 Hrl Hru Hrh.
    injection El as <-. simpl in *.
    match type of Ew with _ = set_leases (<[_ := ?l]> _) _ => apply (Hok _ _ new l) end;
      rewrite ?Hrl, ?Hru; try done.
    + by rewrite <- (same_leases _ _ Hs2).
    + simpl. destruct Hs2 as [Ep Ev Ele Eh Epl]. rewrite <- Ele, <- Ev.
      assert (same_core (w_db w3) (w_db w7)) as Hs37 by (do 3 (etrans; [eassumption|]); done).
      etrans; [|exact Hs37]. rewrite Ew. split; simpl; congruence.
  - intros e w3 Ew Hf. assert (same_core (w_db w2) (w_db w3)) as Hs3 by by rewrite Ew.
    destruct Hf as [(now & now' & E)|(_ & what & ->)]; [|by apply Hfail].
    unfold denote in E. destruct (LeaseVM v' _ (w_db w2)) as [db' [[]|e']]; [done|].
    simpl in E. injection E as <-. destruct Hc as [[-> Hc]|[-> _]]; [|by apply Hfail].
    exfalso. apply Hrid. destruct Hc as (Hne & i & r & Hi & Hr). split; [done|].
    exists i, r. by rewrite <- (same_leases _ _ Hs2).
Qed.
(** Overwriting the VM's row again. *)
Lemma only_vm_insert uid r db db' :
  only_vm uid db db' -> <[uid := r]> (vms db') = <[uid := r]> (vms db).
Proof.
  intros Ho. apply map_eq. intros u. destruct (decide (u = uid)) as [->|Hu].
  - by rewrite !lookup_insert_eq.
  - rewrite !lookup_insert_ne by done. by apply Ho.
Qed.

Lemma only_vm_leased uid now r db :
  only_vm uid db (set_vms (<[uid := mark_leased now r]> (vms db)) db).
Proof. split; try done. intros u Hu. simpl. by rewrite lookup_insert_ne. Qed.

Lemma wp_fresh_claim faults s p n ns rid (Q : result code ClaimVMResponse -> world -> Prop) w :
  db_wf (w_db w) -> ~ request_id_used rid (w_db w) ->
  (forall resp w', claim_committed n ns rid resp (w_db w) (w_db w') -> Q (Ok resp) w') ->
  (forall c w', claim_refused faults n ns (w_db w) (w_db w') -> c <> NotFound ->
     (c = ResourceExhausted -> available n ns (w_db w) = ∅) -> Q (Err c) w') ->
  wp faults (fresh_claim s p n ns rid) Q w.
Proof.
  intros W Hrid Hok Herr. unfold fresh_claim. apply wp_bind, wp_store.
  - intros now now' db' v w1 E Ew. unfold denote in E.
    pose proof (claim_outcome_holds now n ns (w_db w) W) as Hc. rewrite E in Hc.
    destruct Hc as (uid & r & Hr & Hcl & Hdb & Hv & _). rewrite Hdb in Ew. clear E. subst v.
    assert (vr_uid r = uid) as Huid by by destruct (wf_vms _ W _ _ Hr).
    set (v := rowToVM (mark_leased now r)).
    assert (vm_uid v = uid) as Ev by done.
    assert (timed v) as Ht by (split; by eexists).
    assert (only_vm uid (w_db w) (w_db w1)) as Ho1 by (rewrite Ew; apply only_vm_leased).
    assert (held (vm_uid v) (w_db w1)) as Hh.
    { rewrite Ev, Ew. exists (mark_leased now r). simpl. by rewrite lookup_insert_eq. }
    apply wp_bind, wp_runPreLeaseHooks; [done..| |].
    + intros t w2 Ho2 Hh2. rewrite Ev in Ho2. assert (only_vm uid (w_db w) (w_db w2)) as Ho by by etrans.
      apply wp_commit; try done.
      * destruct Ho as [_ El _ _ _]. intros (Hne & i & x & Hi & Hx). apply Hrid.
        split; [done|]. exists i, x. by rewrite <- El.
      * intros resp w3 new l Hru Hrh (Hph & Hlid & Hin & Hhost) Hnone Hid Hlv Hlp Hlr Hs.
        apply Hok. destruct Hcl as [Hpool Hav]. change (vm_uid _) with (vr_uid r) in Hru, Hlv, Hs.
        rewrite Huid in Hru, Hlv, Hs. destruct Hs as [Ep Evm El Eh Epl], Ho as [Op Ol Oh Opl _]. simpl in *.
        unfold claim_committed. rewrite Hru, Ep, Eh, Epl. split; [|split_and!; try congruence].
        -- exists r, new. split_and!; try done.
           ++ rewrite Evm. apply only_vm_insert. by etrans.
           ++ destruct Hpool as [<- <-]. done.
           ++ congruence.
        -- exists l. split_and!; congruence || done.
      * intros w3 Ho3 Hset. apply Herr; [|done..]. right. exists uid, r.
        change (vm_uid _) with (vr_uid r) in Ho3, Hset. rewrite Huid in Ho3, Hset.
        split_and!; try done. by etrans.
    + intros v' e w2 Ho2 Hset. rewrite Ev in Ho2, Hset.
      assert (claim_refused faults n ns (w_db w) (w_db w2)).
      { right. exists uid, r. split_and!; try done. by etrans. }
      destruct e; by apply Herr.
  - intros e w1 Ew Hf.
    assert (claim_refused faults n ns (w_db w) (w_db w1)) by (left; by rewrite Ew).
    destruct e; try by apply Herr. apply Herr; [done..|]. intros _.
    destruct Hf as [(now & now' & E)|(_ & what & [=])]. unfold denote in E.
    pose proof (claim_outcome_holds now n ns (w_db w) W) as Hc.
    destruct (ClaimAvailableVM now n ns (w_db w)) as [db' [v|e]]; [done|]. by destruct Hc as (_ & _ & Hc).
Qed.

Lemma GetPool_Ok n ns db db' p : Store.GetPool n ns db = (db', Ok p) -> db' = db.
Proof.
  unfold Store.GetPool. store_simpl. by destruct (pools db !! _); intros E; simplify_eq/=.
Qed.

Lemma GetPool_failed faults n ns db :
  store_failed faults (OpGetPool n ns) db ErrNotFound -> pools db !! (n, ns) = None.
Proof.
  intros [(now & now' & E)|(_ & what & [=])]. revert E. unfold denote, Store.GetPool. store_simpl.
  destruct (pools db !! (n, ns)) as [row|]; [|done]. simpl. unfold rowToPool. store_simpl.
  by destruct (json_unmarshal_strings _), (unmarshal_template _), (unmarshal_strategy _),
    (json_unmarshal_strings _), (json_unmarshal_strings _).
Qed.

Lemma wp_ClaimVM faults s req w :
  db_wf (w_db w) ->
  wp faults (ClaimVM s req) (fun r w' => claim_result faults req (w_db w) r (w_db w')) w.
Proof.
  intros W. unfold ClaimVM, claim_result.
  set (n := ref_name _). set (ns := ref_namespace _). set (rid := claim_request_id req).
  assert (forall w', w_db w' = w_db w -> claim_refused faults n ns (w_db w) (w_db w')) as Hsame
    by (intros w' ->; by left).
  case_decide; [cbn [wp]; split_and!; by auto|].
  apply wp_bind, wp_store.
  - intros now now' db' p w1 E Ew. assert (w_db w1 = w_db w) as Ew1.
    { rewrite Ew. by eapply GetPool_Ok. }
    clear E Ew.
    assert (~ request_id_used rid (w_db w) -> forall w2, w_db w2 = w_db w ->
      wp faults (fresh_claim s p n ns rid) (fun r w' => match r with
        | Ok resp => request_id_used rid (w_db w) /\ claim_replayed n ns rid resp (w_db w) (w_db w') \/
            ~ request_id_used rid (w_db w) /\ claim_committed n ns rid resp (w_db w) (w_db w')
        | Err c => claim_refused faults n ns (w_db w) (w_db w') /\
            (c = NotFound -> pools (w_db w) !! (n, ns) = None) /\
            (c = ResourceExhausted -> available n ns (w_db w) = ∅)
        end) w2) as Hfresh.
    { intros Hr w2 Ew2. rewrite <- Ew2 in *. apply wp_fresh_claim; [done..| |]; by auto. }
    case_decide as Hne; [|by apply Hfresh; [intros []|]].
    apply wp_bind, wp_store.
    + intros now0 now0' db2 l w2 E Ew. rewrite Ew1 in E.
      apply GetLeaseByRequestID_Ok in E as (-> & r & Hr & Hx & ->); [|apply W].
      assert (request_id_used rid (w_db w)) as Hu by (split; [done|]; by exists (lr_leaseID r), r).
      apply wp_replayClaim; rewrite ?Ew; [apply W|..].
      * intros resp w3 v Hs Hi Hvu Hp Hv Hd. left. split; [done|]. split; [done|].
        exists r, v. by rewrite Hi, Hvu.
      * intros c w3 Hs Hn1 Hn2. split_and!; [by left|done..].
    + intros e w2 Ew Hf. rewrite Ew1 in Ew, Hf.
      destruct e; try (cbn [wp]; split_and!; by auto). apply Hfresh; [|done].
      destruct Hf as [(now0 & now0' & E)|(_ & what & [=])]. by apply GetLeaseByRequestID_none.
  - intros e w1 Ew Hf. destruct e; cbn [wp]; split_and!; auto; try done. intros _.
    by apply GetPool_failed in Hf.
Qed.

(** C15: ClaimVM with no other request in between, whatever flintlock answers and
    whichever store calls fail.  When it succeeds, either the request id already had a lease, of this pool
    and of a VM that is not being deleted, and that lease is returned with
    nothing changed; or an AVAILABLE VM of the pool is now LEASED under the
    returned new lease, the lease is stored with the request id, and no other
    VM, lease, pool or host changed.  When it fails, no lease was created and
    at most the one VM it had taken changed, which unless the store failed is
    being deleted, quarantined or gone; NotFound means there is no such pool,
    ResourceExhausted that it has no available VM.  What a claim does that loses a
    race for its request id is [yieldClaim_returns_vm]. *)
Theorem ClaimVM_spec faults s req w :
  db_wf (w_db w) ->
  wp faults (ClaimVM s req) (fun r w' => claim_result faults req (w_db w) r (w_db w')) w.
Proof. apply wp_ClaimVM. Qed.
End claim.

(** ** Losing a race: yieldClaim *)

Section yield.
Context `{Codec, Sqlite}.

(** C16: A claim that loses the race for its request id gives the VM it had
    taken back: whenever yieldClaim answers with a lease, that is the lease of
    the winner, of this pool, and the loser's VM is AVAILABLE again under no
    lease.  Whatever it answers and whichever store calls fail, it never creates,
    changes or removes a lease, nor touches any other VM. *)
Theorem yieldClaim_returns_vm faults s p v rid w :
  db_wf (w_db w) -> timed v ->
  (forall id l, leases (w_db w) !! id = Some l -> lr_vmUID l <> vm_uid v) ->
  wp faults (yieldClaim s p v rid) (fun r w' =>
    only_vm (vm_uid v) (w_db w) (w_db w') /\
    match r with
    | Ok resp =>
        (exists l, leases (w_db w') !! resp_lease_id resp = Some l /\ lr_requestID l = Some rid /\
           lease_in_pool (pool_name p) (pool_namespace p) l /\ lr_vmUID l = resp_vm_uid resp) /\
        resp_vm_uid resp <> vm_uid v /\
        (exists r, vms (w_db w') !! vm_uid v = Some r /\ vr_phase r = phase_code AVAILABLE /\
           vr_leaseID r = None)
    | Err _ => True
    end) w.
Proof.
  intros W Ht Hfree. unfold yieldClaim. wp_skip. rename x into t, w' into w1.
  assert (leases (w_db w1) = leases (w_db w)) as El1 by by apply same_leases.
  set (v' := set_updated_at t (set_lease_id None (set_phase AVAILABLE v))).
  assert (timed v') as Ht' by (split; [apply Ht|by eexists]).
  pose proof (updateVM_cases v' (w_db w1) Ht') as Hu.
  apply wp_bind, wp_store.
  - intros now now' db' [] w2 E Ew. unfold denote, UpdateVM in E.
    pose proof (vm_op_only (vm_uid v) _ now now' (OpUpdateVM v') (w_db w1) eq_refl) as Ho2.
    pose proof (op_keeps_vms now now' (OpUpdateVM v') (w_db w1)) as Wk.
    unfold denote, UpdateVM in Ho2, Wk. rewrite E in Hu, Ho2, Wk. simpl in Ho2, Wk.
    rewrite <- Ew, (same_vms _ _ H1) in Wk. specialize (Wk (wf_vms _ W)). rewrite <- Ew in Ho2.
    assert (only_vm (vm_uid v) (w_db w) (w_db w2)) as Ho by (etrans; [by apply same_only|done]).
    destruct Hu as (old & new & Hold & (Hph & Hli & _) & _ & Hdb).
    assert (vms (w_db w2) !! vm_uid v = Some new) as Hn
      by (rewrite Ew, Hdb; apply lookup_insert_eq).
    apply wp_bind, wp_store.
    + intros now0 now0' db2 l w3 E3 Ew3.
      apply GetLeaseByRequestID_Ok in E3 as (-> & r & Hr & Hx & ->);
        [|rewrite (only_leases _ _ _ Ho); apply W].
      apply wp_replayClaim; rewrite ?Ew3; [done|..].
      * intros resp w4 x Hs Hi Hvu Hp Hv Hd. split; [etrans; [done|by apply same_only]|].
        rewrite (same_leases _ _ Hs), (same_vms _ _ Hs). split_and!.
        -- exists r. by rewrite Hi.
        -- rewrite Hvu. destruct Ho as [_ El _ _ _]. rewrite El in Hr. by eapply Hfree.
        -- by exists new.
      * intros c w4 Hs _ _. split; [|done]. etrans; [done|by apply same_only].
    + intros e w3 Ew3 _. destruct e; cbn [wp]; by rewrite Ew3.
  - intros e w2 Ew _. assert (only_vm (vm_uid v) (w_db w) (w_db w2)) as Ho
      by (rewrite Ew; by apply same_only).
    destruct (vmDeleted e); [cbn [wp]; done|]. apply wp_bind, wp_policy; [done|].
    intros w3 _ Ho3. cbn [wp]. split; [by etrans|done].
Qed.
End yield.

(** ** ReleaseVM and Heartbeat *)

Section release.
Context `{Codec, Sqlite}.

(** Nothing but one lease and one VM changed. *)
Record only_lease (id uid : string) (db db' : DB) : Prop := {
  ol_pools : pools db' = pools db;
  ol_hosts : hosts db' = hosts db;
  ol_placements : placements db' = placements db;
  ol_vms u : u <> uid -> vms db' !! u = vms db !! u;
  ol_leases i : i <> id -> leases db' !! i = leases db !! i
}.

#[local] Instance only_lease_preorder id uid : PreOrder (only_lease id uid).
Proof.
  split; [done|]. intros a b c [??? Ha La] [??? Hb Lb]. split; [congruence..| |].
  - intros u Hu. by rewrite Hb, Ha.
  - intros i Hi. by rewrite Lb, La.
Qed.

Lemma only_vm_lease id uid db db' : only_vm uid db db' -> only_lease id uid db db'.
Proof. intros [Ep El Eh Epl Ev]. split; try done. intros i _. by rewrite El. Qed.

Lemma same_only_lease id uid db db' : same_core db db' -> only_lease id uid db db'.
Proof. intros Hs. by apply only_vm_lease, same_only. Qed.

Lemma only_lease_delete id uid db : only_lease id uid db (set_leases (delete id (leases db)) db).
Proof. split; try done. intros i Hi. simpl. by rewrite lookup_delete_ne. Qed.

Lemma DeleteLease_cases id db :
  match DeleteLease id db with
  | (db', Ok _) => db' = set_leases (delete id (leases db)) db
  | (db', Err e) => leases db !! id = None
  end.
Proof. unfold DeleteLease. store_simpl. by destruct (leases db !! id). Qed.

Definition release_result (faults : bool) (id : string) (db : DB) (r : result code unit)
    (db' : DB) : Prop :=
  match r with
  | Ok _ => exists l, leases db !! id = Some l /\ only_lease id (lr_vmUID l) db db' /\
      vms db' !! lr_vmUID l = None /\ (faults = false -> leases db' !! id = None)
  | Err c =>
      leases db' = leases db /\
      (c = NotFound -> leases db !! id = None) /\
      match leases db !! id with
      | None => same_core db db'
      | Some l => only_vm (lr_vmUID l) db db' /\ (faults = false -> ending (lr_vmUID l) db')
      end
  end.

Lemma GetLease_Ok id db db' l :
  GetLease id db = (db', Ok l) -> db' = db /\ exists r, leases db !! id = Some r /\ l = rowToLease r.
Proof.
  unfold GetLease. store_simpl. destruct (leases db !! id) as [r|]; intros E; simplify_eq/=. eauto.
Qed.

Lemma GetLease_failed faults id db e :
  store_failed faults (OpGetLease id) db e ->
  e = ErrNotFound /\ leases db !! id = None \/ faults = true /\ e <> ErrNotFound.
Proof.
  intros [(now & now' & E)|(Hf & what & ->)]; [|by right]. left. revert E.
  unfold denote, GetLease. store_simpl. by destruct (leases db !! id); intros [= <-].
Qed.

Lemma GetVM_failed faults uid db e :
  store_failed faults (OpGetVM uid) db e ->
  e = ErrNotFound /\ vms db !! uid = None \/ faults = true /\ e <> ErrNotFound.
Proof.
  intros [(now & now' & E)|(Hf & what & ->)]; [|by right]. left. revert E.
  unfold denote, GetVM. store_simpl. by destruct (vms db !! uid); intros [= <-].
Qed.

(** The lease row is removed last. *)
Lemma wp_release_gone faults s id l (Q : result code unit -> world -> Prop) w :
  (forall w', (forall uid, only_lease id uid (w_db w) (w_db w')) -> vms (w_db w') = vms (w_db w) ->
     leases (w_db w') !! id = None -> Q (Ok tt) w') ->
  (forall w', same_core (w_db w) (w_db w') -> faults = true -> Q (Err Internal) w') ->
  wp faults (release_gone s id l) Q w.
Proof.
  intros Hok Herr. unfold release_gone. pose proof (DeleteLease_cases id (w_db w)) as Hc.
  apply wp_bind, wp_store.
  - intros now now' db' [] w1 E Ew. unfold denote in E. rewrite E in Hc. wp_skip.
    assert (same_core (set_leases (delete id (leases (w_db w))) (w_db w)) (w_db w')) as Hs
      by by rewrite <- Hc, <- Ew.
    apply Hok; [|by rewrite (same_vms _ _ Hs)|].
    + intros uid. etrans; [apply only_lease_delete|by apply same_only_lease].
    + rewrite (same_leases _ _ Hs). simpl. apply lookup_delete_eq.
  - intros e w1 Ew Hf. destruct Hf as [(now & now' & E)|(Hf & what & ->)].
    + unfold denote, DeleteLease in E. store_simpl.
      destruct (leases (w_db w) !! id) eqn:El; [done|]. simpl in E. injection E as <-.
      wp_skip. apply Hok; [intros uid; apply same_only_lease; by rewrite <- Ew|by rewrite (same_vms _ _ H1), Ew|].
      by rewrite (same_leases _ _ H1), Ew.
    + apply Herr; [by rewrite Ew|done].
Qed.

Lemma wp_FinishVMRelease faults p v l n m (Q : unit -> world -> Prop) w :
  (forall w', (forall uid, only_lease (lease_id l) uid (w_db w) (w_db w')) -> vms (w_db w') = vms (w_db w) ->
     (faults = false -> leases (w_db w') !! lease_id l = None) -> Q tt w') ->
  wp faults (FinishVMRelease p v l n m) Q w.
Proof.
  intros HQ. unfold FinishVMRelease. apply wp_bind, wp_quiet; [quiet_tac|]. intros [] w1 Hs1.
  pose proof (DeleteLease_cases (lease_id l) (w_db w1)) as Hc.
  apply wp_bind, wp_store.
  - intros now now' db' [] w2 E Ew. unfold denote in E. rewrite E in Hc.
    apply wp_quiet; [quiet_tac|]. intros [] w3 Hs3.
    assert (same_core (set_leases (delete (lease_id l) (leases (w_db w1))) (w_db w1)) (w_db w3)) as Hs
      by by rewrite <- Hc, <- Ew.
    apply HQ.
    + intros uid. etrans; [by apply same_only_lease|]. etrans; [apply only_lease_delete|by apply same_only_lease].
    + rewrite (same_vms _ _ Hs). apply Hs1.
    + intros _. rewrite (same_leases _ _ Hs). simpl. apply lookup_delete_eq.
  - intros e w2 Ew Hf. apply wp_quiet; [quiet_tac|]. intros [] w3 Hs3. rewrite Ew in Hs3.
    assert (same_core (w_db w) (w_db w3)) as Hs by by etrans.
    apply HQ; [intros uid; by apply same_only_lease|apply Hs|]. intros ->.
    destruct Hf as [(now & now' & E)|(Hf & _)]; [|done].
    rewrite (same_leases _ _ Hs3). unfold denote in E.
    destruct (DeleteLease (lease_id l) (w_db w1)) as [db' [[]|e']]; done.
Qed.

(** ReleaseVM once it has read the lease. *)
Lemma wp_release_read faults s id l w :
  db_wf (w_db w) -> leases (w_db w) !! id = Some l -> lr_leaseID l = id ->
  wp faults
    (let! vm := store (OpGetVM (lease_vm_uid (rowToLease l))) in
     match vm with
     | Err ErrNotFound => release_gone s id (rowToLease l)
     | Err _ => Ret (Err Internal)
     | Ok vm => release_vm s id (rowToLease l) vm
     end)
    (fun r w' => release_result faults id (w_db w) r (w_db w')) w.
Proof.
  intros W El Eid.
  assert (forall c w2, c <> NotFound -> only_vm (lr_vmUID l) (w_db w) (w_db w2) ->
    (faults = false -> ending (lr_vmUID l) (w_db w2)) ->
    release_result faults id (w_db w) (Err c) (w_db w2)) as Hfail.
  { intros c w2 Hc Ho He. unfold release_result. rewrite El. split_and!; try done. apply Ho. }
  assert (forall w2, only_lease id (lr_vmUID l) (w_db w) (w_db w2) ->
    vms (w_db w2) !! lr_vmUID l = None -> (faults = false -> leases (w_db w2) !! id = None) ->
    release_result faults id (w_db w) (Ok tt) (w_db w2)) as Hdone by (intros; by exists l).
  apply wp_bind, wp_store.
  - intros now now' db' v w2 E Ew. apply GetVM_Ok in E as (-> & r & Hr & ->). simpl in Hr.
    assert (vr_uid r = lr_vmUID l) as Eu by by destruct (wf_vms _ W _ _ Hr).
    rewrite <- Eu in *. unfold release_vm. apply wp_bind, wp_EnsureCP; [by rewrite Ew|..].
    + intros b w3 Hgone Ho. rewrite Ew in Ho. destruct b.
      * apply wp_bind, wp_FinishVMRelease. simpl. rewrite Eid. intros w4 Ho4 Ev4 Hl4.
        apply Hdone; rewrite ?Ev4; [|done..]. by etrans; [apply only_vm_lease|].
      * apply wp_release_gone.
        -- intros w4 Ho4 Ev4 Hl4. apply Hdone; rewrite ?Ev4; [|done..].
           by etrans; [apply only_vm_lease|].
        -- intros w4 Hs4 ->. apply Hfail; [done| |done]. etrans; [done|by apply same_only].
    + intros e w3 Ho Hnf Hend. rewrite Ew in Ho.
      assert (release_result faults id (w_db w) (Err Unavailable) (w_db w3)) by by apply Hfail.
      by destruct e as [[]| | | | | | | | | | | | | |].
  - intros e w2 Ew [[-> Hn]|[-> Hne]]%GetVM_failed.
    + simpl in Hn. apply wp_release_gone; rewrite ?Ew.
      * intros w3 Ho3 Ev3 Hl3. apply Hdone; rewrite ?Ev3; done.
      * intros w3 Hs3 ->. apply Hfail; [done| |done]. by apply same_only.
    + assert (release_result true id (w_db w) (Err Internal) (w_db w2))
        by (rewrite Ew; by apply (Hfail Internal w)).
      by destruct e.
Qed.

Lemma wp_ReleaseVM faults s id w :
  db_wf (w_db w) ->
  wp faults (ReleaseVM s id) (fun r w' => release_result faults id (w_db w) r (w_db w')) w.
Proof.
  intros W. unfold ReleaseVM. apply wp_bind, wp_store.
  - intros now now' db' l0 w1 E Ew. apply GetLease_Ok in E as (-> & l & El & ->).
    eapply wp_mono; [|apply (wp_release_read faults s id l); rewrite ?Ew; [done..|]];
      rewrite ?Ew; [done|]. by destruct (wf_leases _ W _ _ El).
  - intros e w1 Ew [[-> Hn]|[-> Hne]]%GetLease_failed.
    + cbn [wp release_result]. by rewrite Ew, Hn.
    + assert (release_result true id (w_db w) (Err Internal) (w_db w1)).
      { rewrite Ew. split_and!; try done. by destruct (leases (w_db w) !! id). }
      by destruct e.
Qed.

(** C17: ReleaseVM with no other request in between, whatever flintlock answers and
    whichever store calls fail.  When it succeeds the lease existed, its VM's row is gone, and unless the
    store failed so is the lease; nothing else changed.  When it fails with
    NotFound there was no such lease and nothing changed.  On any other failure
    the lease is kept, no other VM is touched, and unless the store failed the
    VM is marked DELETING, so that the sweeper's retry finishes the release. *)
Theorem ReleaseVM_spec faults s id w :
  db_wf (w_db w) ->
  wp faults (ReleaseVM s id) (fun r w' => release_result faults id (w_db w) r (w_db w')) w.
Proof. apply wp_ReleaseVM. Qed.

(** [wp] at some times of day: [clock] holds of every reading of the clock. *)
Definition read_by (clock : Timestamp -> Prop) {X : Set} (e : eff X) : X -> Prop :=
  match e in eff Y return Y -> Prop with ENow => clock | _ => fun _ => True end.

Fixpoint wp_at (clock : Timestamp -> Prop) faults {A : Set} (p : prog A)
    : (A -> world -> Prop) -> world -> Prop :=
  match p in prog A0 return (A0 -> world -> Prop) -> world -> Prop with
  | Ret x => fun Q w => Q x w
  | Do e k => fun Q w => forall x w', exec_eff faults e w x w' -> read_by clock e x ->
      wp_at clock faults (k x) Q w'
  | Fork c k => fun Q w => wp_at clock faults c (fun _ w' => wp_at clock faults k Q w') w
  end.

Lemma wp_at_mono clock faults {A : Set} (p : prog A) (Q Q' : A -> world -> Prop) w :
  (forall x w', Q x w' -> Q' x w') -> wp_at clock faults p Q w -> wp_at clock faults p Q' w.
Proof.
  revert Q Q' w. induction p as [A x|A X e k IH|A c IHc k IHk]; intros Q Q' w HQ; simpl; [apply HQ| |].
  - intros Hk x w' He Hr. by eapply IH; [|apply Hk].
  - apply IHc. intros [] w'. by apply IHk.
Qed.

Lemma wp_at_bind clock faults {A B : Set} (p : prog A) (f : A -> prog B) Q w :
  wp_at clock faults p (fun x w' => wp_at clock faults (f x) Q w') w -> wp_at clock faults (bind p f) Q w.
Proof.
  revert w. induction p as [A x|A X e k IH|A c _ k IHk]; intros w; simpl; [done| |].
  - intros Hk x w' He Hr. by apply IH, Hk.
  - apply wp_at_mono. intros [] w'. apply IHk.
Qed.

(** What holds at all times holds at these. *)
Lemma wp_at_wp clock faults {A : Set} (p : prog A) Q w : wp faults p Q w -> wp_at clock faults p Q w.
Proof.
  revert Q w. induction p as [A x|A X e k IH|A c IHc k IHk]; intros Q w; simpl; [done| |].
  - intros Hk x w' He _. by apply IH, Hk.
  - intros Hc. eapply wp_at_mono; [|by apply IHc]. intros [] w'. apply IHk.
Qed.

(** C39: Heartbeat, whichever store calls fail.  Let [clock] be any property that
    the clock's readings during the call have, such as lying between the call's
    start and its end.  When Heartbeat succeeds, the lease now expires one
    [heartbeat_expiry_threshold] of its pool after such a reading, which is recorded
    as its last heartbeat; that expiry is the answer, and nothing else changed.  When
    it fails nothing changed, and NotFound means that the lease or its pool does not
    exist. *)
Theorem Heartbeat_spec clock faults id w :
  wp_at clock faults (Heartbeat id) (fun r w' =>
    match r with
    | Ok expiresAt => exists l p t, leases (w_db w) !! id = Some l /\
        Store.GetPool (lr_poolName l) (lr_poolNamespace l) (w_db w) = (w_db w, Ok p) /\
        clock t /\ expiresAt = (t + expiry_threshold p)%Z /\
        w_db w' = set_leases (<[id := heartbeat t expiresAt l]> (leases (w_db w))) (w_db w)
    | Err c => w_db w' = w_db w /\
        (c = NotFound -> leases (w_db w) !! id = None \/
           exists l, leases (w_db w) !! id = Some l /\
             pools (w_db w) !! (lr_poolName l, lr_poolNamespace l) = None)
    end) w.
Proof.
  unfold Heartbeat. apply wp_at_bind, wp_at_wp, wp_store.
  - intros now now' db' l0 w1 E Ew. apply GetLease_Ok in E as (-> & l & El & ->).
    apply wp_at_bind, wp_at_wp, wp_store.
    + intros now0 now0' db2 p w2 E2 Ew2. pose proof (GetPool_Ok _ _ _ _ _ E2) as ->.
      rewrite Ew in *. apply wp_at_bind. intros t w3 Ht Hclock. simpl in Ht, Hclock.
      assert (w_db w3 = w_db w) as Ew3 by (rewrite Ht; done). apply wp_at_bind, wp_at_wp, wp_store.
      * intros now3 now3' db4 [] w4 E4 Ew4. cbn [wp_at]. exists l, p, t. split_and!; try done.
        rewrite Ew4. rewrite Ew3 in E4. unfold denote, UpdateLeaseHeartbeat in E4. revert E4.
        store_simpl. rewrite El. intros [= <-]. f_equal. apply map_eq. intros i.
        destruct (decide (i = id)) as [->|Hi].
        -- by rewrite lookup_alter_eq, El, lookup_insert_eq.
        -- by rewrite lookup_alter_ne, lookup_insert_ne.
      * intros e w4 Ew4 Hf. rewrite Ew3 in Ew4, Hf.
        assert (e <> ErrNotFound) as Hne.
        { destruct Hf as [(now4 & now4' & E4)|(_ & what & ->)]; [|done]. intros ->. revert E4.
          unfold denote, UpdateLeaseHeartbeat. store_simpl. by rewrite El. }
        destruct e; done.
    + intros e w2 Ew2 Hf. rewrite Ew in Ew2, Hf. destruct e; try done. cbn [wp_at].
      split; [done|]. intros _. right. exists l. split; [done|]. by apply GetPool_failed in Hf.
  - intros e w1 Ew Hf. destruct e; try done. cbn [wp_at]. split; [done|]. intros _. left.
    by apply GetLease_failed in Hf as [[_ Hf]|[_ Hf]].
Qed.
End release.

(** ** Witnesses *)

Definition server0 : LeaseServer := NewLeaseServer 0 0 ManagerNotifier.
Definition web0 (rid : string) : ClaimVMRequest :=
  {| claim_pool := {| ref_name := "web"; ref_namespace := "default" |}; claim_request_id := rid |}.

(** A fresh claim of vm-1. *)
Lemma ClaimVM_spec_witness :
  let out := run (ClaimVM server0 (web0 "req-1")) world0 in
  claim_result true (web0 "req-1") db0 out.2 (w_db out.1) /\
  (resp_vm_uid <$> out.2) = Ok "vm-1" /\
  (resp_lease_id <$> (run (ClaimVM server0 (web0 "req-2")) world0).2) = Ok "lease-2".
Proof.
  cbv zeta. split; [|split; vm_compute; reflexivity].
  apply (wp_run (ClaimVM server0 (web0 "req-1"))
    (fun r w' => claim_result true (web0 "req-1") (w_db world0) r (w_db w')) world0).
  apply ClaimVM_spec. apply db0_wf.
Defined.

(** A claim that had taken vm-1 finds that the lease of req-2 came first. *)
Lemma yieldClaim_returns_vm_witness :
  let out := run (yieldClaim server0 pool0 (vm0 "vm-1" LEASED (Some "lease-1")) "req-2") world0 in
  (resp_lease_id <$> out.2) = Ok "lease-2" /\ only_vm "vm-1" db0 (w_db out.1).
Proof.
  cbv zeta. split; [vm_compute; reflexivity|].
  apply (wp_run (yieldClaim server0 pool0 (vm0 "vm-1" LEASED (Some "lease-1")) "req-2")
    (fun _ w' => only_vm "vm-1" (w_db world0) (w_db w')) world0).
  eapply wp_mono; [|apply (yieldClaim_returns_vm true server0 pool0
    (vm0 "vm-1" LEASED (Some "lease-1")) "req-2" world0)].
  - intros r w' [Ho _]. exact Ho.
  - apply db0_wf.
  - split; by eexists.
  - intros id l Hl. apply elem_of_map_to_list in Hl. vm_compute in Hl.
    apply list_elem_of_singleton in Hl. injection Hl as -> ->. discriminate.
Defined.

(** Releasing lease-2 when flintlock confirms, and when its host is down. *)
Lemma ReleaseVM_spec_witness :
  let out := run (ReleaseVM server0 "lease-2") world0 in
  release_result true "lease-2" db0 out.2 (w_db out.1) /\ is_Ok out.2 = true /\
  (run (H1 := env_with CREATED_STATE (Err Unavailable) 0) (ReleaseVM server0 "lease-2") world0).2
    = Err Unavailable.
Proof.
  cbv zeta. split; [|split; vm_compute; reflexivity].
  apply (wp_run (ReleaseVM server0 "lease-2")
    (fun r w' => release_result true "lease-2" (w_db world0) r (w_db w')) world0).
  apply ReleaseVM_spec. apply db0_wf.
Defined.
