(* ===== verification/ProvisionProps.v ===== *)
(** * Provisioning, one call at a time

    The host PickHost chooses, and what Provision leaves in the database on
    every path, whatever flintlock answers and, with [faults], whichever store
    calls fail. *)

From stdpp Require Import base gmap strings list.
From Stdlib Require Import ZArith Lia.
From S2P Require Import Prelude Types Convert Store StoreOps Concrete StoreProps Effects.
From S2P Require Import Flintlock ConcreteEnv Deletion Strategy Provision Reconciler Sweeper.
From S2P Require Import LeaseApi PoolAdmin HostAdmin EventsApi Protocols Quiet OneVM.
From S2P Require Import LeaseProps.

(** ** Choosing a host *)

(** The hosts of the list that are least loaded, and the first of them. *)
Lemma least_loaded_spec vms best hosts :
  least_loaded vms best hosts ∈ best :: hosts /\
  (forall h, h ∈ best :: hosts -> load vms (least_loaded vms best hosts) <= load vms h).
Proof.
  revert best. induction hosts as [|h hosts IH]; intros best; simpl.
  { split; [by left|]. intros h. rewrite list_elem_of_singleton. by intros ->. }
  destruct (IH (if decide (load vms h < load vms best) then h else best)) as [Hin Hle].
  split.
  - revert Hin. case_decide; set_solver.
  - intros x. rewrite !elem_of_cons. case_decide as Hd; intros [->|[->|Hx]].
    + etrans; [apply Hle; by left|lia].
    + apply Hle. by left.
    + apply Hle. by right.
    + apply Hle. by left.
    + etrans; [apply Hle; by left|lia].
    + apply Hle. by right.
Qed.

(** A registered host that takes new VMs. *)
Definition eligible (name : string) (db : DB) : Prop :=
  exists h, hosts db !! name = Some h /\ hr_cordoned h = false.

#[export] Instance eligible_dec name db : Decision (eligible name db).
Proof.
  unfold eligible. destruct (hosts db !! name) as [h|] eqn:E.
  - destruct (hr_cordoned h) eqn:Ec; [right|left; eauto]. intros (h' & [= <-] & Hc). congruence.
  - right. by intros (h' & [=] & _).
Defined.

Section hosts.
Context `{Codec, Sqlite}.

(** The map [ineligibleHosts] builds over the registered hosts. *)
Lemma cordoned_fold_other (hs : list Host) (m : gmap string bool) name :
  name ∉ host_name <$> hs ->
  fold_left (fun m h => <[host_name h := host_cordoned h]> m) hs m !! name = m !! name.
Proof.
  revert m. induction hs as [|y hs IH]; intros m Hn; simpl; [done|].
  rewrite IH by set_solver. rewrite lookup_insert_ne; [done|]. set_solver.
Qed.

Lemma cordoned_fold (hs : list Host) (m : gmap string bool) h :
  NoDup (host_name <$> hs) -> h ∈ hs ->
  fold_left (fun m h => <[host_name h := host_cordoned h]> m) hs m !! host_name h =
    Some (host_cordoned h).
Proof.
  revert m. induction hs as [|x hs IH]; intros m; simpl; [by intros _ ?%not_elem_of_nil|].
  intros [Hn Hd]%NoDup_cons [->|Hin]%elem_of_cons; [|by apply IH].
  rewrite cordoned_fold_other by done. apply lookup_insert_eq.
Qed.

Lemma elem_of_ListHosts db hs x :
  Store.ListHosts db = (db, Ok hs) ->
  x ∈ hs <-> exists n r, hosts db !! n = Some r /\ x = rowToHost r.
Proof.
  unfold Store.ListHosts. store_simpl. intros [= <-]. rewrite list_elem_of_fmap.
  setoid_rewrite elem_of_sort_on. setoid_rewrite elem_of_rows. naive_solver.
Qed.

Lemma ListHosts_names db hs :
  map_Forall host_row_ok (hosts db) -> Store.ListHosts db = (db, Ok hs) -> NoDup (host_name <$> hs).
Proof.
  intros W. unfold Store.ListHosts. store_simpl. intros [= <-].
  rewrite <- list_fmap_compose. change (host_name ∘ rowToHost) with hr_name.
  rewrite sort_on_perm. apply NoDup_rows_key. intros k r Hr. by destruct (W _ _ Hr).
Qed.

(** The ineligible names are the pool's hosts that are unregistered or
    cordoned. *)
Lemma elem_of_ineligible db hs names n :
  map_Forall host_row_ok (hosts db) -> Store.ListHosts db = (db, Ok hs) ->
  n ∈ ineligible_names hs names <-> n ∈ names /\ ~ eligible n db.
Proof.
  intros W E. pose proof (ListHosts_names db hs W E) as Hnd.
  unfold ineligible_names. rewrite list_elem_of_filter.
  assert (default true (cordoned_map hs !! n) = true <-> ~ eligible n db) as ->; [|tauto].
  unfold eligible. destruct (hosts db !! n) as [h|] eqn:Eh.
  - assert (hr_name h = n) as <- by by destruct (W _ _ Eh).
    assert (rowToHost h ∈ hs) as Hin by (apply (elem_of_ListHosts _ _ _ E); eauto).
    unfold cordoned_map. change (hr_name h) with (host_name (rowToHost h)).
    rewrite cordoned_fold by done. simpl. destruct (hr_cordoned h) eqn:Ec.
    + split; [|done]. intros _ (h' & [= <-] & Hc). congruence.
    + split; [done|]. intros Hn. destruct Hn. eauto.
  - assert (n ∉ host_name <$> hs) as Hn.
    { rewrite list_elem_of_fmap. intros (x & Hx & Hin).
      apply (elem_of_ListHosts _ _ _ E) in Hin as (k & r & Hr & ->). simpl in Hx.
      destruct (W _ _ Hr) as [Hk _]. congruence. }
    unfold cordoned_map. rewrite cordoned_fold_other by done. rewrite lookup_empty. simpl.
    split; [|done]. by intros _ (h & [=] & _).
Qed.

(** The VMs of the pool that count toward a host's load. *)
Definition pool_load (n ns : string) (db : DB) (host : string) : nat :=
  length (filter (fun r => in_pool n ns r /\ loads host (rowToVM r)) (rows (vms db))).

Lemma load_pool n ns db host :
  load (rowToVM <$> sort_on String.le vr_uid
    (filter (fun r => in_pool n ns r /\ has_phase None r) (rows (vms db)))) host =
  pool_load n ns db host.
Proof.
  unfold load, pool_load. rewrite sort_on_perm.
  induction (rows (vms db)) as [|r l IH]; [done|]. rewrite !filter_cons.
  destruct (decide (in_pool n ns r /\ has_phase None r)) as [Hp|Hp];
    destruct (decide (in_pool n ns r /\ loads host (rowToVM r))) as [Hl|Hl];
    rewrite ?fmap_cons, ?filter_cons; repeat case_decide; simpl in *; naive_solver.
Qed.

Lemma wp_ineligibleHosts faults pool (Q : result error (list string) -> world -> Prop) w :
  map_Forall host_row_ok (hosts (w_db w)) ->
  (forall l w', w_db w' = w_db w ->
     (forall n, (n ∈ l) <-> (n ∈ flintlock_hosts pool /\ ~ eligible n (w_db w))) -> Q (Ok l) w') ->
  (forall e w', w_db w' = w_db w -> e <> ErrNoEligibleHost -> Q (Err e) w') ->
  wp faults (ineligibleHosts pool) Q w.
Proof.
  intros W Hok Herr. unfold ineligibleHosts. apply wp_bind, wp_store.
  - intros now now' db' hs w1 E Ew. unfold denote in E.
    assert (db' = w_db w) as -> by (revert E; unfold Store.ListHosts; store_simpl; by intros [= <- _]).
    cbn [wp]. apply Hok; [done|]. intros n. by apply elem_of_ineligible.
  - intros e w1 Ew _. by apply Herr.
Qed.

Lemma wp_PickHost faults pool l (Q : result error string -> world -> Prop) w :
  (forall h w', w_db w' = w_db w -> h ∈ flintlock_hosts pool -> h ∉ l ->
     (forall h', h' ∈ flintlock_hosts pool -> h' ∉ l ->
        pool_load (pool_name pool) (pool_namespace pool) (w_db w) h <=
        pool_load (pool_name pool) (pool_namespace pool) (w_db w) h') -> Q (Ok h) w') ->
  (forall e w', w_db w' = w_db w ->
     (e = ErrNoEligibleHost -> forall h, h ∈ flintlock_hosts pool -> h ∈ l) -> Q (Err e) w') ->
  wp faults (PickHost pool l) Q w.
Proof.
  intros Hok Herr. unfold PickHost.
  destruct (filter (fun h => h ∉ l) (flintlock_hosts pool)) as [|best rest] eqn:Ef.
  { cbn [wp]. apply Herr; [done|]. intros _ h Hh. destruct (decide (h ∈ l)) as [|Hn]; [done|].
    assert (h ∈ filter (fun h => h ∉ l) (flintlock_hosts pool)) as Hin by by apply list_elem_of_filter.
    rewrite Ef in Hin. by apply not_elem_of_nil in Hin. }
  assert (forall h, (h ∈ (best :: rest)) <-> ((h ∉ l) /\ (h ∈ flintlock_hosts pool))) as Hin
    by (intros ?; by rewrite <- Ef, list_elem_of_filter).
  apply wp_bind, wp_store.
  - intros now now' db' vs w1 E Ew. unfold denote, ListVMsByPool, query in E. injection E as <- <-.
    cbn [wp]. match goal with |- Q (Ok (least_loaded ?vs best rest)) _ =>
      destruct (least_loaded_spec vs best rest) as [Hb Hle] end.
    apply Hin in Hb as [Hb1 Hb2]. apply Hok; [done..|].
    intros h' Hh' Hn'. specialize (Hle h' (proj2 (Hin h') (conj Hn' Hh'))).
    by rewrite !load_pool in Hle.
  - intros e w1 Ew _. by apply Herr.
Qed.

(** Provision places a VM on a least loaded host: the host chosen is one
    the pool names, registered and not cordoned, and no other such host has
    fewer of the pool's VMs, those being deleted or failed not counted.  It
    answers ErrNoEligibleHost only if every host of the pool is unregistered
    or cordoned. *)
Theorem PickHost_least_loaded faults pool w :
  db_wf (w_db w) ->
  wp faults
    (let! ineligible := ineligibleHosts pool in
     match ineligible with
     | Err err => Ret (Err err)
     | Ok ineligible => PickHost pool ineligible
     end)
    (fun r w' => w_db w' = w_db w /\
       match r with
       | Ok h => h ∈ flintlock_hosts pool /\ eligible h (w_db w) /\
           forall h', h' ∈ flintlock_hosts pool -> eligible h' (w_db w) ->
             pool_load (pool_name pool) (pool_namespace pool) (w_db w) h <=
             pool_load (pool_name pool) (pool_namespace pool) (w_db w) h'
       | Err e => e = ErrNoEligibleHost ->
           forall h, h ∈ flintlock_hosts pool -> ~ eligible h (w_db w)
       end) w.
Proof.
  intros W. apply wp_bind, wp_ineligibleHosts; [apply W| |by auto]. intros l w1 Ew Hl.
  apply wp_PickHost; rewrite ?Ew.
  - intros h w2 Ew2 Hh Hn Hle. rewrite Ew2. split_and!; [done..| |].
    + apply dec_stable. intros Hc. apply Hn, Hl. done.
    + intros h' Hh' He. apply Hle; [done|]. rewrite Hl. tauto.
  - intros e w2 Ew2 He. split; [done|]. intros -> h Hh. apply Hl. by apply He.
Qed.
End hosts.

(** ** Provision *)

Section provision.
Context `{Codec, Sqlite, Semver}.

(** The VM's row in the phase and on the host. *)
Definition at_phase (v : VMRecord) (p : VMPhase) (db : DB) : Prop :=
  exists r, vms db !! vm_uid v = Some r /\ row_is (set_phase p v) r.

Lemma at_phase_held v p db : p <> DELETING -> at_phase v p db -> held (vm_uid v) db.
Proof.
  intros Hp (r & Hr & Hph & _). exists r. split; [done|]. rewrite Hph.
  change (vm_phase (set_phase p v)) with p. by intros E%(inj phase_code).
Qed.

Lemma at_phase_same v p db db' : same_core db db' -> at_phase v p db -> at_phase v p db'.
Proof. intros Hs (r & Hr & Hrow). exists r. by rewrite (same_vms _ _ Hs). Qed.

(** The failure paths: only this VM is touched, and unless the store fails it
    is out of use. *)
Lemma wp_fail_policy faults pool v (Q : unit -> world -> Prop) w :
  timed v ->
  (forall w', only_vm (vm_uid v) (w_db w) (w_db w') ->
     (faults = false -> settled (vm_uid v) (w_db w')) -> Q tt w') ->
  wp faults (applyHookFailurePolicy pool v) Q w.
Proof.
  intros Ht HQ. unfold applyHookFailurePolicy. apply wp_bind, wp_store.
  - intros now now' db' cur w1 E Ew. apply GetVM_Ok in E as (-> & r & Hr & ->).
    case_decide as Hd.
    + cbn [wp]. apply HQ; rewrite Ew; [done|]. intros _ x Hx. rewrite Hr in Hx. injection Hx as <-.
      left. simpl in Hd. by rewrite <- Hd, phase_code_of_code.
    + apply wp_Apply; [done|]. rewrite Ew. by auto.
  - intros e w1 Ew Hf. apply GetVM_failed in Hf.
    assert (wp faults (ApplyHookFailurePolicy pool v hookCreate true) Q w1) as Ha.
    { apply wp_Apply; [done|]. rewrite Ew. by auto. }
    destruct e; try exact Ha. cbn [wp]. apply HQ; rewrite Ew; [done|].
    destruct Hf as [[_ Hn]|[_ Hf]]; [|done]. intros _ x Hx. congruence.
Qed.

Lemma wp_fail_with faults pool v e (Q : option error -> world -> Prop) w :
  timed v ->
  (forall w', only_vm (vm_uid v) (w_db w) (w_db w') ->
     (faults = false -> settled (vm_uid v) (w_db w')) -> Q (Some e) w') ->
  wp faults (fail_with pool v e) Q w.
Proof. intros Ht HQ. unfold fail_with. apply wp_bind, wp_fail_policy; [done|]. exact HQ. Qed.

Lemma wp_updatePhase faults pool v p (Q : VMRecord * option error -> world -> Prop) w :
  timed v -> held (vm_uid v) (w_db w) -> p <> DELETING ->
  (forall t w', only_vm (vm_uid v) (w_db w) (w_db w') -> at_phase v p (w_db w') ->
     Q (set_updated_at t (set_phase p v), None) w') ->
  (forall v' e w', only_vm (vm_uid v) (w_db w) (w_db w') ->
     (faults = false -> settled (vm_uid v) (w_db w')) -> Q (v', Some e) w') ->
  wp faults (updatePhase pool v p) Q w.
Proof.
  intros Ht Hh Hp Hok Herr. unfold updatePhase. wp_skip. rename x into t, w' into w1.
  set (v' := set_updated_at t (set_phase p v)).
  assert (timed v') as Ht' by (split; [apply Ht|by eexists]).
  apply (held_same _ _ _ H2) in Hh. apply (same_only (vm_uid v)) in H2.
  apply wp_bind, wp_store.
  - intros now now' db' [] w2 E Ew. unfold denote, UpdateVM in E.
    pose proof (updateVM_cases v' (w_db w1) Ht') as Hu. rewrite E in Hu.
    destruct Hu as (old & new & Hold & Hrow & _ & Hdb). apply Hok.
    + etrans; [done|]. rewrite Ew, Hdb. split; try done. intros u Hu. simpl.
      by rewrite lookup_insert_ne.
    + exists new. rewrite Ew, Hdb. simpl. by rewrite lookup_insert_eq.
  - intros e w2 Ew Hf. apply wp_bind, wp_fail_policy; [done|]. rewrite Ew. intros w3 Ho3 Hset.
    apply Herr; [by etrans|done].
Qed.

Lemma wp_provision_hooks faults cfg pool h v (Q : option error -> world -> Prop) w :
  timed v -> held (vm_uid v) (w_db w) ->
  (forall w', only_vm (vm_uid v) (w_db w) (w_db w') -> at_phase v AVAILABLE (w_db w') -> Q None w') ->
  (forall e w', only_vm (vm_uid v) (w_db w) (w_db w') ->
     (faults = false -> settled (vm_uid v) (w_db w')) -> Q (Some e) w') ->
  wp faults (provision_hooks cfg pool h v) Q w.
Proof.
  intros Ht Hh Hok Herr. unfold provision_hooks.
  assert (forall e w', same_core (w_db w) (w_db w') -> wp faults (fail_with pool v e) Q w') as Hfail.
  { intros e w1 Hs. apply wp_fail_with; [done|]. intros w2 Ho Hset. apply Herr; [|done].
    etrans; [by apply same_only|done]. }
  wp_skip. destruct x as [client|e]; [|by apply Hfail].
  apply wp_bind, wp_quiet; [quiet_tac|]. intros ready w2 Hs2.
  assert (same_core (w_db w) (w_db w2)) as Hs by by etrans.
  destruct ready; [by apply Hfail|].
  apply wp_bind, wp_quiet; [quiet_tac|]. intros start w3 Hs3.
  apply wp_bind, wp_quiet; [apply q_run_commands|]. intros ran w4 Hs4.
  assert (same_core (w_db w) (w_db w4)) as Hs' by (etrans; [done|]; by etrans).
  destruct ran; [by apply Hfail|].
  apply wp_bind, wp_quiet; [quiet_tac|]. intros t w5 Hs5.
  apply wp_bind, wp_quiet; [quiet_tac|]. intros [] w6 Hs6.
  assert (same_core (w_db w) (w_db w6)) as Hs'' by (etrans; [done|]; by etrans).
  apply wp_bind, wp_updatePhase; [done|by eapply held_same|done|..].
  - intros t' w7 Ho Hat. apply wp_bind, wp_quiet; [quiet_tac|]. intros [] w8 Hs8. apply Hok.
    + etrans; [by apply same_only|]. etrans; [done|by apply same_only].
    + by eapply at_phase_same.
  - intros v' e w7 Ho Hset. cbn [wp]. apply Herr; [|done]. etrans; [by apply same_only|done].
Qed.

Lemma wp_provision_recorded faults cfg pool h c v (Q : option error -> world -> Prop) w :
  timed v -> held (vm_uid v) (w_db w) ->
  (forall w', only_vm (vm_uid v) (w_db w) (w_db w') -> at_phase v AVAILABLE (w_db w') -> Q None w') ->
  (forall e w', only_vm (vm_uid v) (w_db w) (w_db w') ->
     (faults = false -> settled (vm_uid v) (w_db w')) -> Q (Some e) w') ->
  wp faults (provision_recorded cfg pool h c v) Q w.
Proof.
  intros Ht Hh Hok Herr. unfold provision_recorded.
  apply wp_bind, wp_quiet; [quiet_tac|]. intros [] w1 Hs1.
  apply wp_bind, wp_quiet; [quiet_tac|]. intros created w2 Hs2.
  assert (same_core (w_db w) (w_db w2)) as Hs by by etrans.
  destruct created.
  { apply wp_fail_with; [done|]. intros w3 Ho Hset. apply Herr; [|done].
    etrans; [by apply same_only|done]. }
  apply wp_bind, wp_updatePhase; [done|by eapply held_same|done|..].
  - intros t w3 Ho Hat. apply wp_provision_hooks.
    + split; [apply Ht|by eexists].
    + by apply (at_phase_held v CREATE_HOOK_RUNNING).
    + intros w4 Ho4 Hat4. apply Hok; [|done]. etrans; [by apply same_only|]. by etrans.
    + intros e w4 Ho4 Hset. apply Herr; [|done]. etrans; [by apply same_only|]. by etrans.
  - intros v' e w3 Ho Hset. cbn [wp]. apply Herr; [|done]. etrans; [by apply same_only|done].
Qed.

Lemma CreateVM_cases v db :
  timed v ->
  match CreateVM v db with
  | (db', Ok _) => vms db !! vm_uid v = None /\ exists r, row_is v r /\
      db' = set_vms (<[vm_uid v := r]> (vms db)) db
  | (db', Err e) => db' = db /\ is_Some (vms db !! vm_uid v)
  end.
Proof.
  intros [[c Hc] [t Ht]]. unfold CreateVM, vmToRow. rewrite Hc, Ht. store_simpl.
  destruct (vms db !! vm_uid v) as [r|] eqn:Er; [split; [done|by eexists]|].
  split; [done|]. eexists. split; [|reflexivity]; done.
Qed.

(** What a provisioning attempt may leave: nothing, or the row of a new VM,
    out of use unless the store failed. *)
Definition leftover (faults : bool) (db db' : DB) : Prop :=
  vms db' = vms db \/
  exists uid, vms db !! uid = None /\ (forall u, u <> uid -> vms db' !! u = vms db !! u) /\
    (faults = false -> settled uid db').

(** A new VM, AVAILABLE on [host]. *)
Definition new_available (pool : PoolSpec) (host : string) (db db' : DB) : Prop :=
  exists uid r, uid <> "" /\ vms db !! uid = None /\ vms db' = <[uid := r]> (vms db) /\
    vr_phase r = phase_code AVAILABLE /\ vr_leaseID r = None /\
    in_pool (pool_name pool) (pool_namespace pool) r /\ vr_flintlockHost r = host.

Record others_same (db db' : DB) : Prop := {
  os_pools : pools db' = pools db;
  os_leases : leases db' = leases db;
  os_hosts : hosts db' = hosts db
}.

#[export] Instance others_same_preorder : PreOrder others_same.
Proof. split; [done|]. intros a b c [] []. split; congruence. Qed.

Lemma only_vm_others uid db db' : only_vm uid db db' -> others_same db db'.
Proof. intros []. by split. Qed.
Lemma same_others db db' : same_core db db' -> others_same db db'.
Proof. intros []. by split. Qed.

(** The placement under [id] is given back, which only a failing store prevents. *)
Definition given_back {V} (faults : bool) (id : string) (pl pl' : gmap string V) : Prop :=
  pl' = delete id pl \/ faults = true /\ pl' = pl.

(** Giving the placement back changes nothing else. *)
Lemma wp_release faults id (Q : unit -> world -> Prop) w :
  (forall w', others_same (w_db w) (w_db w') -> vms (w_db w') = vms (w_db w) ->
     given_back faults id (placements (w_db w)) (placements (w_db w')) -> Q tt w') ->
  wp faults (release id) Q w.
Proof.
  intros HQ. unfold release. apply wp_bind, wp_store.
  - intros now now' db' [] w1 E Ew. unfold denote, ReleasePlacement, exec in E. injection E as <-.
    apply HQ; rewrite Ew; [done..|by left].
  - intros e w1 Ew Hf. apply HQ; rewrite ?Ew; [done..|]. right. split; [|done].
    by destruct Hf as [(now & now' & [=])|[-> _]].
Qed.

Lemma wp_deleteOrphan faults v (Q : unit -> world -> Prop) w :
  timed v ->
  (faults = false -> is_Some (vms (w_db w) !! vm_uid v)) ->
  (forall w', others_same (w_db w) (w_db w') -> placements (w_db w') = placements (w_db w) ->
     leftover faults (w_db w) (w_db w') -> Q tt w') ->
  wp faults (deleteOrphan v) Q w.
Proof.
  intros Ht Htaken HQ. unfold deleteOrphan. wp_skip. rename x into t, w' into w1.
  set (v' := set_updated_at t (set_phase DELETING v)).
  assert (timed v') as Ht' by (split; [apply Ht|by eexists]).
  pose proof (CreateVM_cases v' (w_db w1) Ht') as Hc. apply wp_bind, wp_store.
  - intros now now' db' [] w2 E Ew. unfold denote in E. rewrite E in Hc.
    destruct Hc as (Hn & r & Hrow & Hdb).
    assert (only_vm (vm_uid v) (w_db w) (w_db w2)) as Ho.
    { etrans; [by apply same_only|]. rewrite Ew, Hdb. split; try done. intros u Hu. simpl.
      by rewrite lookup_insert_ne. }
    apply wp_bind, (wp_vm_only faults (vm_uid v)); [apply (onevm_Ensure v')|]. intros x w3 Ho3.
    assert (only_vm (vm_uid v) (w_db w) (w_db w3)) as Ho' by by etrans.
    rewrite (same_vms _ _ H2) in Hn. simpl in Hn.
    apply HQ; [by eapply only_vm_others|apply Ho'|]. right. exists (vm_uid v). split_and!.
    + done.
    + apply Ho'.
    + intros Hf. specialize (Htaken Hf). rewrite Hn in Htaken. by destruct Htaken.
  - intros e w2 Ew Hf.
    assert (forall w3, same_core (w_db w2) (w_db w3) -> Q tt w3) as Hsame.
    { intros w3 Hs. rewrite Ew in Hs. assert (same_core (w_db w) (w_db w3)) as Hs' by by etrans.
      apply HQ; [by apply same_others|apply Hs'|]. left. apply Hs'. }
    wp_skip. destruct x; [|by apply Hsame]. wp_skip. apply Hsame. by etrans.
Qed.

(** The outcome of an attempt whose placement is reserved under [id]. *)
Definition reserved_result (faults : bool) (pool : PoolSpec) (host id : string) (db : DB)
    (err : option error) (db' : DB) : Prop :=
  others_same db db' /\
  given_back faults id (placements db) (placements db') /\
  match err with
  | None => new_available pool host db db'
  | Some _ => leftover faults db db'
  end.

(** Giving up before there is a row. *)
Lemma wp_give_up faults pool host id e w w0 :
  others_same (w_db w0) (w_db w) -> placements (w_db w) = placements (w_db w0) ->
  leftover faults (w_db w0) (w_db w) ->
  wp faults (then! release id in Ret (Some e))
    (fun r w' => reserved_result faults pool host id (w_db w0) r (w_db w')) w.
Proof.
  intros Ho Hp Hl. apply wp_bind, wp_release. intros w1 Ho1 Ev1 Hp1. cbn [wp]. split_and!.
  - by etrans.
  - by rewrite <- Hp.
  - unfold leftover, settled in *. by rewrite Ev1.
Qed.

(** From the row on. *)
Lemma wp_created faults cfg pool host id c uid t r w w0 :
  uid <> "" -> same_core (w_db w0) (w_db w) -> vms (w_db w0) !! uid = None ->
  row_is (new_vm pool host uid t) r ->
  forall w1, w_db w1 = set_vms (<[uid := r]> (vms (w_db w))) (w_db w) ->
  wp faults (then! release id in provision_recorded cfg pool host c (new_vm pool host uid t))
    (fun err w' => reserved_result faults pool host id (w_db w0) err (w_db w')) w1.
Proof.
  intros Hne Hs Hnone Hrow w1 Ew1. apply wp_bind, wp_release. intros w2 Ho2 Ev2 Hp2.
  set (v := new_vm pool host uid t).
  assert (vms (w_db w2) !! uid = Some r) as Hr
    by (rewrite Ev2, Ew1; apply lookup_insert_eq).
  assert (others_same (w_db w0) (w_db w2)) as Ho02.
  { etrans; [by apply same_others|]. etrans; [|done]. by rewrite Ew1. }
  assert (forall u, u <> uid -> vms (w_db w2) !! u = vms (w_db w0) !! u) as Hv.
  { intros u Hu'. rewrite Ev2, Ew1. simpl. rewrite lookup_insert_ne by done.
    by rewrite (same_vms _ _ Hs). }
  assert (forall w3, only_vm uid (w_db w2) (w_db w3) -> others_same (w_db w0) (w_db w3) /\
    given_back faults id (placements (w_db w0)) (placements (w_db w3))) as Hrest.
  { intros w3 Ho. split; [etrans; [done|by eapply only_vm_others]|].
    rewrite (only_placements _ _ _ Ho), <- (same_placements _ _ Hs). by rewrite Ew1 in Hp2. }
  apply wp_provision_recorded.
  - split; by eexists.
  - exists r. split; [done|]. destruct Hrow as (Hph & _). by rewrite Hph.
  - intros w3 Ho (x & Hx & Hph & Hlid & Hin & Hhost). destruct (Hrest w3 Ho) as [Hos Hpl].
    split_and!; [done..|]. exists uid, x. split_and!; try done.
    apply map_eq. intros u. destruct (decide (u = uid)) as [->|Hu'].
    + by rewrite lookup_insert_eq.
    + rewrite lookup_insert_ne by done. rewrite <- Hv by done. by apply Ho.
  - intros e w3 Ho Hset. destruct (Hrest w3 Ho) as [Hos Hpl]. split_and!; [done..|]. right.
    exists uid. split_and!; try done. intros u Hu'. rewrite <- Hv by done. by apply Ho.
Qed.

Lemma wp_provision_reserved faults cfg pool host id w :
  wp faults (provision_reserved cfg pool host id)
    (fun err w' => reserved_result faults pool host id (w_db w) err (w_db w')) w.
Proof.
  unfold provision_reserved.
  assert (forall e w', same_core (w_db w) (w_db w') ->
    wp faults (then! release id in Ret (Some e))
      (fun r w' => reserved_result faults pool host id (w_db w) r (w_db w')) w') as Hstop.
  { intros e w1 Hs. apply wp_give_up; [by apply same_others|apply Hs|left; apply Hs]. }
  wp_skip. destruct x as [client|e]; [|by apply Hstop].
  apply wp_bind, wp_quiet; [apply q_CheckVersion|]. intros bad w2 Hs2.
  assert (same_core (w_db w) (w_db w2)) as Hs by by etrans.
  destruct bad; [by apply Hstop|].
  apply wp_bind, wp_quiet; [quiet_tac|]. intros resp w3 Hs3.
  assert (same_core (w_db w) (w_db w3)) as Hs' by by etrans.
  destruct resp as [uid|c]; [|by apply Hstop]. case_decide as Hne; [by apply Hstop|].
  apply wp_bind, wp_quiet; [quiet_tac|]. intros t w4 Hs4.
  assert (same_core (w_db w) (w_db w4)) as Hs'' by by etrans.
  assert (timed (new_vm pool host uid t)) as Ht by (split; by eexists).
  pose proof (CreateVM_cases (new_vm pool host uid t) (w_db w4) Ht) as Hc.
  apply wp_bind, wp_store.
  - intros now now' db' [] w5 E Ew. unfold denote in E. rewrite E in Hc.
    destruct Hc as (Hn & r & Hrow & Hdb). rewrite (same_vms _ _ Hs'') in Hn. simpl in Hn, Hdb.
    apply (wp_created faults cfg pool host id client uid t r w4 w); try done. by rewrite Ew.
  - intros e w5 Ew Hf. apply wp_bind, wp_deleteOrphan; [done| |].
    + intros ->. destruct Hf as [(now & now' & E)|[[=] _]]. rewrite Ew. unfold denote in E.
      destruct (CreateVM _ _) as [db' [[]|e']]; [done|]. apply Hc.
    + intros w6 Ho6 Hp6 Hl6. rewrite Ew in Ho6, Hp6, Hl6. apply wp_give_up.
      * etrans; [by apply same_others|done].
      * rewrite Hp6. apply Hs''.
      * unfold leftover in *. by rewrite (same_vms _ _ Hs'') in Hl6.
Qed.

(** The reservation is gone; only a failing store leaves it behind. *)
Definition placements_kept (faults : bool) (db db' : DB) : Prop :=
  placements db' = placements db \/
  faults = true /\ exists id p, placements db !! id = None /\ placements db' = <[id := p]> (placements db).

(** What Provision leaves. *)
Definition provision_result (faults : bool) (pool : PoolSpec) (db : DB) (err : option error)
    (db' : DB) : Prop :=
  others_same db db' /\
  placements_kept faults db db' /\
  match err with
  | None => exists host, host ∈ flintlock_hosts pool /\ eligible host db /\
      new_available pool host db db'
  | Some _ => leftover faults db db'
  end.

Lemma ReservePlacement_Ok now id host n ns db db' :
  ReservePlacement now id host n ns db = (db', Ok tt) ->
  placements db !! id = None /\ eligible host db /\
  exists p, db' = set_placements (<[id := p]> (placements db)) db.
Proof.
  unfold ReservePlacement, eligible. store_simpl.
  destruct (hosts db !! host) as [h|]; [|done]. destruct (hr_cordoned h) eqn:Ec; [done|].
  destruct (placements db !! id) eqn:Ep; [done|]. intros [= <-]. split_and!; [done| |]; eauto.
Qed.

Lemma wp_Provision faults cfg pool w :
  map_Forall host_row_ok (hosts (w_db w)) ->
  wp faults (Provision cfg pool)
    (fun err w' => provision_result faults pool (w_db w) err (w_db w')) w.
Proof.
  intros W. unfold Provision. apply wp_bind, wp_do. intros start w1 E1. simpl in E1.
  assert (w_db w1 = w_db w) as Ew1 by by rewrite E1. apply wp_bind.
  eapply wp_mono.
  { intros err w2 Hp. apply wp_bind, wp_quiet; [quiet_tac|]. intros t w3 Hs3.
    apply wp_bind, wp_quiet; [quiet_tac|]. intros [] w4 Hs4. cbn [wp].
    assert (same_core (w_db w2) (w_db w4)) as Hs by by etrans.
    revert Hp. instantiate (1 := fun err w2 => provision_result faults pool (w_db w) err (w_db w2)).
    intros (Ho & Hp & Hv). split_and!.
    - etrans; [done|by apply same_others].
    - unfold placements_kept in *. by rewrite (same_placements _ _ Hs).
    - unfold leftover, new_available, settled in *. by rewrite (same_vms _ _ Hs). }
  unfold provision_body. rewrite <- Ew1 in W |- *.
  assert (forall e w', w_db w' = w_db w1 ->
    provision_result faults pool (w_db w1) (Some e) (w_db w')) as Hstop
    by (intros e w' ->; split_and!; [done|by left|by left]).
  apply wp_bind, wp_ineligibleHosts; [done| |intros e w' Ew' _; by apply Hstop].
  intros l w2 Ew2 Hl. apply wp_bind, wp_PickHost; rewrite ?Ew2;
    [|intros e w' Ew' _; by apply Hstop].
  intros host w3 Ew3 Hh Hn Hle. apply wp_bind, wp_do. intros uuid w4 E4. simpl in E4.
  assert (w_db w4 = w_db w1) as Ew4 by by rewrite E4.
  apply wp_bind, wp_store.
  - intros now now' db' [] w5 E Ew. rewrite Ew4 in E.
    apply ReservePlacement_Ok in E as (Hfree & He & p & ->).
    eapply wp_mono; [|apply wp_provision_reserved]. rewrite Ew. intros err w6 (Ho & Hp & Hv).
    split_and!.
    + by destruct Ho.
    + unfold placements_kept. destruct Hp as [->|[-> ->]]; simpl; [left; by rewrite delete_insert_id|right; eauto].
    + destruct err; [done|]. exists host. split_and!; [|done|done].
      done.
  - intros e w5 Ew _. rewrite Ew4 in Ew. destruct e; cbn [wp]; by apply Hstop.
Qed.

(** C18: Provision with nothing else in between, whatever flintlock answers and
    whichever store calls fail.
    When it succeeds, exactly one VM was added: AVAILABLE, in this pool, under
    no lease, on a host the pool names that was registered and not cordoned
    when the placement was reserved.  When it fails, at most one row was added
    and, unless the store failed, that VM is quarantined or being deleted,
    never left PROVISIONING or running its hooks.  The placement reservation is
    given back; only a store call that fails can leave that one reservation
    behind.  Pools, leases and hosts never change. *)
Theorem Provision_spec faults cfg pool w :
  db_wf (w_db w) ->
  wp faults (Provision cfg pool)
    (fun err w' => provision_result faults pool (w_db w) err (w_db w')) w.
Proof. intros W. apply wp_Provision, W. Qed.
End provision.

(** ** Witnesses *)

Definition pick0 : prog (result error string) :=
  let! ineligible := ineligibleHosts pool0 in
  match ineligible with
  | Err err => Ret (Err err)
  | Ok ineligible => PickHost pool0 ineligible
  end.

(** host-a holds the three sample VMs, so host-b is chosen. *)
Lemma PickHost_least_loaded_witness :
  (run pick0 world0).2 = Ok "host-b" /\ w_db (run pick0 world0).1 = db0.
Proof.
  split; [vm_compute; reflexivity|].
  apply (wp_run pick0 (fun _ w' => w_db w' = w_db world0) world0).
  eapply wp_mono; [|apply (PickHost_least_loaded true pool0 world0 db0_wf)].
  intros r w' [Ew _]. exact Ew.
Defined.

(** A provision that succeeds, and one whose create hook exits with 1. *)
Lemma Provision_spec_witness :
  let out := run (Provision DefaultProvisionConfig pool0) world0 in
  provision_result true pool0 db0 out.2 (w_db out.1) /\ out.2 = None /\
  size (available "web" "default" (w_db out.1)) = 2 /\
  (run (H1 := env_with CREATED_STATE (Ok tt) 1) (Provision DefaultProvisionConfig pool0) world0).2
    = Some ErrHookFailed.
Proof.
  cbv zeta. split; [|split_and!; vm_compute; reflexivity].
  apply (wp_run (Provision DefaultProvisionConfig pool0)
    (fun err w' => provision_result true pool0 (w_db world0) err (w_db w')) world0).
  apply Provision_spec. apply db0_wf.
Defined.
