(* ===== verification/ReconcilerProps.v ===== *)
(** * The reconciler, one pass at a time

    CountVMs counts exactly, a pass never overshoots the pool's size and leaves
    existing VMs alone, and the recovery at startup moves on exactly the VMs a
    dead process left behind. *)

From stdpp Require Import base gmap strings list.
From Stdlib Require Import ZArith Lia.
From S2P Require Import Prelude Types Convert Store StoreOps Concrete StoreProps.
From S2P Require Import Effects Flintlock ConcreteEnv Deletion Strategy Provision.
From S2P Require Import Reconciler LeaseApi Quiet OneVM LeaseProps ProvisionProps.

(** ** Counting *)

Section counting.
Context `{Codec, Sqlite}.

(** The ids of the pool's leases. *)
Definition committed_in (n ns : string) (db : DB) (id : string) : Prop :=
  exists k l, leases db !! k = Some l /\ lease_in_pool n ns l /\ lr_leaseID l = id.

(** The VMs of the pool that satisfy [P]. *)
Definition count_rows (n ns : string) (db : DB) (P : VMRecord -> Prop)
    `{forall v, Decision (P v)} : Z :=
  Z.of_nat (length (filter (fun r => in_pool n ns r /\ P (rowToVM r)) (rows (vms db)))).

Definition counts_exact (n ns : string) (db : DB) (committed : list string) (c : VMCounts) : Prop :=
  Available c = count_rows n ns db (fun v => vm_phase v = AVAILABLE) /\
  Claiming c = count_rows n ns db (fun v => vm_phase v = PRE_LEASE_HOOK_RUNNING \/
    vm_phase v = LEASED /\ GetLeaseId v ∉ committed) /\
  Leased c = count_rows n ns db (fun v => vm_phase v = LEASED /\ GetLeaseId v ∈ committed) /\
  Provisioning c = count_rows n ns db (fun v => vm_phase v = PROVISIONING \/
    vm_phase v = CREATE_HOOK_RUNNING) /\
  Quarantined c = count_rows n ns db (fun v => vm_phase v = QUARANTINED).

Definition count (vs : list VMRecord) (P : VMRecord -> Prop) `{forall v, Decision (P v)} : Z :=
  Z.of_nat (length (filter P vs)).

Lemma count_cons v vs (P : VMRecord -> Prop) `{forall v, Decision (P v)} :
  count (v :: vs) P = ((if decide (P v) then 1 else 0) + count vs P)%Z.
Proof. unfold count. rewrite filter_cons. case_decide; simpl; lia. Qed.

(** The loop of [CountVMs]. *)
Lemma fold_counts committed vs c :
  let f := fold_left (count_vm committed) vs c in
  Available f = (Available c + count vs (fun v => vm_phase v = AVAILABLE))%Z /\
  Claiming f = (Claiming c + count vs (fun v => vm_phase v = PRE_LEASE_HOOK_RUNNING \/
    vm_phase v = LEASED /\ GetLeaseId v ∉ committed))%Z /\
  Leased f = (Leased c + count vs (fun v => vm_phase v = LEASED /\ GetLeaseId v ∈ committed))%Z /\
  Provisioning f = (Provisioning c + count vs (fun v => vm_phase v = PROVISIONING \/
    vm_phase v = CREATE_HOOK_RUNNING))%Z /\
  Quarantined f = (Quarantined c + count vs (fun v => vm_phase v = QUARANTINED))%Z.
Proof.
  revert c. induction vs as [|v vs IH]; intros c; simpl.
  { unfold count. simpl. split_and!; lia. }
  destruct (IH (count_vm committed c v)) as (Ha & Hc & Hl & Hp & Hq).
  rewrite Ha, Hc, Hl, Hp, Hq, !count_cons. clear IH Ha Hc Hl Hp Hq.
  unfold count_vm. destruct c as [a cl l p q].
  destruct (vm_phase v); simpl; repeat case_decide; simpl in *;
    split_and!; first [lia | exfalso; naive_solver].
Qed.

(** The query's rows, one by one. *)
Lemma count_listed n ns db (P : VMRecord -> Prop) `{forall v, Decision (P v)} :
  count (rowToVM <$> sort_on String.le vr_uid
    (filter (fun r => in_pool n ns r /\ has_phase None r) (rows (vms db)))) P = count_rows n ns db P.
Proof.
  unfold count, count_rows. f_equal. rewrite sort_on_perm.
  induction (rows (vms db)) as [|r l IH]; [done|]. rewrite !filter_cons.
  destruct (decide (in_pool n ns r /\ has_phase None r)) as [Hp|Hp];
    destruct (decide (in_pool n ns r /\ P (rowToVM r))) as [Hl|Hl];
    rewrite ?fmap_cons, ?filter_cons; repeat case_decide; simpl in *;
    first [by rewrite IH | exact IH | exfalso; naive_solver].
Qed.

Lemma wp_CountVMs faults n ns (Q : result error VMCounts -> world -> Prop) w :
  (forall c committed w', w_db w' = w_db w ->
     (forall id, id ∈ committed <-> committed_in n ns (w_db w) id) ->
     counts_exact n ns (w_db w) committed c -> Q (Ok c) w') ->
  (forall e w', w_db w' = w_db w -> faults = true -> Q (Err e) w') ->
  wp faults (CountVMs n ns) Q w.
Proof.
  intros Hok Herr. unfold CountVMs. apply wp_bind, wp_store.
  2: { intros e w1 Ew [(? & ? & [=])|[Hf _]]. by apply Herr. }
  intros now now' db' vs w1 E Ew. unfold denote, ListVMsByPool, query in E. injection E as <- <-.
  apply wp_bind, wp_store.
  2: { intros e w2 Ew2 [(? & ? & [=])|[Hf _]]. apply Herr; congruence. }
  intros now1 now1' db2 ls w2 E Ew2. unfold denote, Store.ListLeases, query in E.
  injection E as <- <-. cbn [wp]. rewrite Ew in *.
  match goal with |- Q (Ok (fold_left (count_vm ?ids) ?vs no_vms)) _ =>
    apply (Hok _ ids); [done| |pose proof (fold_counts ids vs no_vms) as Hf] end.
  - intros id. rewrite list_elem_of_fmap. setoid_rewrite list_elem_of_fmap.
    setoid_rewrite elem_of_sort_on. setoid_rewrite list_elem_of_filter. setoid_rewrite elem_of_rows.
    unfold committed_in. simpl. split.
    + intros (l & -> & r & -> & Hin & k & Hr). by exists k, r.
    + intros (k & r & Hr & Hin & <-). exists (rowToLease r). split; [done|]. eauto.
  - cbv zeta in Hf. rewrite !count_listed in Hf. exact Hf.
Qed.

(** CountVMs counts exactly: with the database it reads, each VM of the pool
    in an AVAILABLE, claiming, leased, provisioning or quarantined phase is
    counted once and under that heading, a LEASED VM as leased if a lease of
    the pool carries its lease id and as a pending claim otherwise. *)
Theorem CountVMs_exact faults n ns w :
  wp faults (CountVMs n ns) (fun r w' => w_db w' = w_db w /\
    match r with
    | Ok c => exists committed, (forall id, id ∈ committed <-> committed_in n ns (w_db w) id) /\
        counts_exact n ns (w_db w) committed c
    | Err _ => True
    end) w.
Proof. apply wp_CountVMs; [|done]. intros c committed w' Ew Hc He. split; [done|]. eauto. Qed.

(** The counts of a table of fewer than 2^31 rows fit. *)
Lemma count_rows_range n ns db (P : VMRecord -> Prop) `{forall v, Decision (P v)} :
  (Z.of_nat (size (vms db)) < 2 ^ 31)%Z -> (0 <= count_rows n ns db P < 2 ^ 31)%Z.
Proof.
  unfold count_rows. intros Hs. split; [lia|].
  pose proof (length_filter (fun r => in_pool n ns r /\ P (rowToVM r)) (rows (vms db))) as Hl.
  unfold rows in *. rewrite length_fmap in Hl. rewrite length_map_to_list in Hl. lia.
Qed.

Lemma counts_exact_ok n ns db committed c :
  (Z.of_nat (size (vms db)) < 2 ^ 31)%Z -> counts_exact n ns db committed c -> counts_ok c.
Proof.
  intros Hs (Ha & Hc & Hl & Hp & Hq). unfold counts_ok. rewrite Ha, Hc, Hl, Hp, Hq.
  split_and!; by apply count_rows_range.
Qed.
End counting.

(** ** One pass *)

Section pass.
Context `{Codec, Sqlite, Semver}.

(** Provisioning adds at most [n] VMs and changes nothing that was there. *)
Record grows (n : nat) (db db' : DB) : Prop := {
  grows_pools : pools db' = pools db;
  grows_leases : leases db' = leases db;
  grows_hosts : hosts db' = hosts db;
  grows_vms u r : vms db !! u = Some r -> vms db' !! u = Some r;
  grows_size : size (vms db') <= size (vms db) + n
}.

Lemma grows_refl db : grows 0 db db.
Proof. split; try done. lia. Qed.
Lemma grows_trans n k a b c : grows n a b -> grows k b c -> grows (n + k) a c.
Proof. intros [] []. split; [congruence..|naive_solver|lia]. Qed.
Lemma one_more uid (m m' : gmap string vmRow) :
  m !! uid = None -> (forall u, u <> uid -> m' !! u = m !! u) -> size m' <= size m + 1.
Proof.
  intros Hn Hm. assert (delete uid m' = m) as <-.
  { apply map_eq. intros u. destruct (decide (u = uid)) as [->|Hu].
    - by rewrite lookup_delete_eq.
    - rewrite lookup_delete_ne by done. by apply Hm. }
  rewrite map_size_delete. destruct (m' !! uid); simpl; lia.
Qed.

Lemma provision_grows faults pool db err db' :
  provision_result faults pool db err db' -> grows 1 db db'.
Proof.
  intros ([Ep El Eh] & _ & Hv).
  assert (vms db' = vms db \/ exists uid, vms db !! uid = None /\
    forall u, u <> uid -> vms db' !! u = vms db !! u) as [E|(uid & Hn & Hu)].
  { destruct err; [destruct Hv as [E|(uid & Hn & Hu & _)]; eauto|].
    destruct Hv as (h & _ & _ & uid & r & _ & Hn & E & _). right. exists uid. split; [done|].
    intros u Hu. by rewrite E, lookup_insert_ne. }
  - split; try done; rewrite E; [done|lia].
  - split; try done; [|by eapply one_more].
    intros u r Hr. rewrite Hu; [done|]. congruence.
Qed.

Lemma wp_start_provisions faults cfg pool n (Q : unit -> world -> Prop) w :
  map_Forall host_row_ok (hosts (w_db w)) ->
  (forall w', grows n (w_db w) (w_db w') -> Q tt w') ->
  wp faults (start_provisions cfg pool n) Q w.
Proof.
  revert w. induction n as [|n IH]; intros w W HQ; cbn [start_provisions].
  { cbn [wp]. apply HQ, grows_refl. }
  apply wp_bind. change (wp faults (bind (Provision cfg pool) (fun _ => Ret tt))
    (fun _ w' => wp faults (start_provisions cfg pool n) Q w') w).
  apply wp_bind. eapply wp_mono; [|by apply wp_Provision]. intros err w1 Hp%provision_grows.
  cbn [wp]. apply IH; [by rewrite (grows_hosts _ _ _ Hp)|]. intros w2 Hg. apply HQ.
  by apply (grows_trans 1 n (w_db w) (w_db w1)).
Qed.

(** The pool has a VM row. *)
Definition has_vm (n ns : string) (db : DB) : Prop :=
  exists u r, vms db !! u = Some r /\ in_pool n ns r.

Lemma wp_cap faults pool (Q : Z -> world -> Prop) w :
  (forall k w', w_db w' = w_db w -> (k = 0 \/ k = 1)%Z ->
     (k = 1%Z -> ~ has_vm (pool_name pool) (pool_namespace pool) (w_db w)) ->
     (faults = false -> k = 0%Z -> has_vm (pool_name pool) (pool_namespace pool) (w_db w)) ->
     Q k w') ->
  wp faults (capForStaticNetwork pool) Q w.
Proof.
  intros HQ. unfold capForStaticNetwork. apply wp_bind, wp_store.
  - intros now now' db' vs w1 E Ew. unfold denote, ListVMsByPool, query in E. injection E as <- <-.
    cbn [wp]. rewrite length_fmap, length_sort_on. case_decide as Hl; apply HQ; auto; try done.
    + intros _ _. apply length_filter_pos in Hl as (r & Hr & Hin & _).
      apply elem_of_rows in Hr as [u Hr]. by exists u, r.
    + intros _ (u & r & Hr & Hin). apply Hl. apply length_filter_pos. exists r.
      rewrite elem_of_rows. split; [eauto|]. by split.
  - intros e w1 Ew [(? & ? & [=])|[Hf _]]. cbn [wp]. apply HQ; auto; congruence.
Qed.

(** How many VMs a pass may add when its hook asked for [n]. *)
Definition may_add (pool : PoolSpec) (n : Z) (db : DB) (k : nat) : Prop :=
  k <= Z.to_nat n /\
  (TemplateHasStaticNetwork (microvm_template pool) = true ->
   k <= 1 /\ (0 < k -> ~ has_vm (pool_name pool) (pool_namespace pool) db)).

Lemma wp_provisionN faults cfg pool n (Q : unit -> world -> Prop) w :
  map_Forall host_row_ok (hosts (w_db w)) ->
  (forall w' k, grows k (w_db w) (w_db w') -> may_add pool n (w_db w) k -> Q tt w') ->
  wp faults (provisionN cfg pool n) Q w.
Proof.
  intros W HQ. unfold provisionN. apply wp_bind. case_bool_decide as Hn; simpl;
    [destruct (TemplateHasStaticNetwork (microvm_template pool)) eqn:Et|].
  - apply wp_cap. intros k w1 Ew Hk Hno _. apply wp_start_provisions; rewrite ?Ew; [done|].
    intros w2 Hg. apply (HQ _ (Z.to_nat k)); [done|]. split; [lia|]. intros _. split; [lia|].
    intros Hp. apply Hno. lia.
  - cbn [wp]. apply wp_start_provisions; [done|]. intros w1 Hg. apply (HQ _ (Z.to_nat n)); [done|].
    split; [lia|]. intros E. congruence.
  - cbn [wp]. apply wp_start_provisions; [done|]. intros w1 Hg. apply (HQ _ (Z.to_nat n)); [done|].
    split; lia.
Qed.

(** C22: A reconcile pass never overshoots and never disturbs.  Whatever its
    trigger, strategy, flintlock's answers and store failures, with its
    provisions run one after the other it leaves every existing VM, lease,
    pool and host as it was and adds at most as many VMs as the pool's size
    leaves room for, given the VMs the strategy counts; for a template with a
    fixed MAC or address it adds at most one, and none while the pool has any
    VM. *)
Theorem reconcile_bounded faults cfg pool spec s t w :
  db_wf (w_db w) -> size_ok pool -> (Z.of_nat (size (vms (w_db w))) < 2 ^ 31)%Z ->
  NewStrategy (Some spec) = Ok s ->
  wp faults (reconcile cfg pool (hook_for s t)) (fun _ w' =>
    exists k, grows k (w_db w) (w_db w') /\
      (0 < k -> exists c committed,
         (forall id, id ∈ committed <-> committed_in (pool_name pool) (pool_namespace pool) (w_db w) id) /\
         counts_exact (pool_name pool) (pool_namespace pool) (w_db w) committed c /\
         (counted (strategy_type spec) c + Z.of_nat k <= pool_size pool)%Z) /\
      (TemplateHasStaticNetwork (microvm_template pool) = true ->
         k <= 1 /\ (0 < k -> ~ has_vm (pool_name pool) (pool_namespace pool) (w_db w)))) w.
Proof.
  intros W Hsize Hsmall Hnew. unfold reconcile. apply wp_bind, wp_CountVMs.
  - intros c committed w1 Ew Hcom Hc. apply wp_provisionN; rewrite ?Ew; [apply W|].
    intros w2 k Hg [Hk Hstatic]. exists k. split_and!; [done| |apply Hstatic].
    intros Hp. exists c, committed. split_and!; [done..|].
    destruct (NewStrategy_laws spec s Hnew) as [Hb _].
    pose proof (counts_exact_ok _ _ _ _ _ Hsmall Hc) as Hcok.
    destruct (Hb pool c (hook_for s t) Hsize Hcok) as [H0' Hle]; [by destruct t; set_solver|].
    pose proof (counted_range (strategy_type spec) c Hcok). lia.
  - intros e w1 Ew _. cbn [wp]. exists 0. rewrite Ew. split_and!; [apply grows_refl|lia|lia].
Qed.
End pass.

(** ** Recovery at startup *)

Section recovery.
Context `{Codec, Sqlite}.

(** [r'] is [r] marked DELETING: its VM, host, pool and lease id are [r]'s. *)
Definition marked_as (r r' : vmRow) : Prop :=
  vr_phase r' = phase_code DELETING /\ vr_uid r' = vr_uid r /\ vr_leaseID r' = vr_leaseID r /\
  vr_flintlockHost r' = vr_flintlockHost r /\ in_pool (vr_poolName r) (vr_poolNamespace r) r'.

(** The VMs that [P] selects are marked DELETING, all of them unless the
    recovery ended with an error; nothing else has changed. *)
Record recovered (P : vmRow -> bool) (err : option error) (db db' : DB) : Prop := {
  rec_others : others_same db db';
  rec_placements : placements db' = placements db;
  rec_absent u : vms db !! u = None -> vms db' !! u = None;
  rec_kept u r : vms db !! u = Some r -> P r = false -> vms db' !! u = Some r;
  rec_marked u r : vms db !! u = Some r -> P r = true ->
    (err <> None /\ vms db' !! u = Some r) \/ exists r', vms db' !! u = Some r' /\ marked_as r r'
}.

Definition own_keys (db : DB) : Prop := forall u r, vms db !! u = Some r -> vr_uid r = u.

Lemma recovered_same P err db db' :
  same_core db db' -> (forall u r, vms db !! u = Some r -> P r = true -> err <> None) ->
  recovered P err db db'.
Proof.
  intros Hs He. split; [by apply same_others|apply Hs|..]; intros u; rewrite (same_vms _ _ Hs);
    [done..|]. intros r Hr Hp. left. eauto.
Qed.

Lemma recovered_ext P P' err db db' :
  (forall u r, vms db !! u = Some r -> P r = P' r) ->
  recovered P err db db' -> recovered P' err db db'.
Proof.
  intros He [Ho Hp Ha Hk Hm]. split; try done; intros u r Hr; rewrite <- (He u r Hr); eauto.
Qed.

Lemma recovered_more P P' err db db' :
  err <> None -> (forall u r, vms db !! u = Some r -> P r = true -> P' r = true) ->
  recovered P err db db' -> recovered P' err db db'.
Proof.
  intros He HP [Ho Hp Ha Hk Hm]. split; try done; intros u r Hr E; destruct (P r) eqn:EP;
    [exfalso|eauto..]. pose proof (HP u r Hr EP). congruence.
Qed.

(** A first round that ran to its end, then a second over other rows. *)
Lemma recovered_seq P1 P2 err db db1 db2 :
  (forall r, vr_phase r = phase_code DELETING -> P2 r = false) ->
  recovered P1 None db db1 -> recovered P2 err db1 db2 ->
  recovered (fun r => P1 r || P2 r) err db db2.
Proof.
  intros Hd [Ho Hp Ha Hk Hm] [Ho2 Hp2 Ha2 Hk2 Hm2]. split; [by etrans|congruence|auto|..].
  - intros u r Hr [H1 H2]%orb_false_iff. eauto.
  - intros u r Hr HP. destruct (P1 r) eqn:E1; simpl in HP; [|eauto].
    destruct (Hm u r Hr E1) as [[]|(r' & Hr' & Hmk)]; [done|]. right. exists r'. split; [|done].
    apply Hk2; [done|]. apply Hd, Hmk.
Qed.

Lemma own_keys_recovered P err db db' : recovered P err db db' -> own_keys db -> own_keys db'.
Proof.
  intros [_ _ Ha Hk Hm] Ho u r Hr. destruct (vms db !! u) as [r0|] eqn:E; [|naive_solver].
  pose proof (Ho u r0 E). destruct (P r0) eqn:EP.
  - destruct (Hm u r0 E EP) as [[_ Hr']|(r' & Hr' & _ & Hu & _)]; congruence.
  - pose proof (Hk u r0 E EP). congruence.
Qed.

Lemma recovered_after P err db db1 db' :
  same_core db db1 -> recovered P err db1 db' -> recovered P err db db'.
Proof.
  intros Hs [Ho Hp Ha Hk Hm]. pose proof (same_vms _ _ Hs) as Ev.
  split; [etrans; [by apply same_others|done]|rewrite Hp; apply Hs|..]; intros u;
    rewrite <- Ev; eauto.
Qed.

(** One write of the loop marks the row, or the store failed. *)
Lemma wp_mark_one faults t r (Q : result StoreError unit -> world -> Prop) w :
  own_keys (w_db w) -> vms (w_db w) !! vr_uid r = Some r ->
  (forall w', recovered (fun x => bool_decide (vr_uid x = vr_uid r)) None (w_db w) (w_db w') ->
     Q (Ok tt) w') ->
  (forall e w', w_db w' = w_db w -> faults = true -> Q (Err e) w') ->
  wp faults (store (OpUpdateVM (set_updated_at t (set_phase DELETING (rowToVM r))))) Q w.
Proof.
  intros Hown Hr Hok Herr. set (v := set_updated_at t (set_phase DELETING (rowToVM r))).
  assert (timed v) as Ht by (split; by eexists).
  pose proof (updateVM_cases v (w_db w) Ht) as Hu. apply wp_store.
  - intros now now' db' [] w1 E Ew. apply Hok. rewrite Ew. clear Hu Ew.
    store_run E; try done. clear Hok Herr.
    split; try done; simpl; intros u.
    + intros Hn. rewrite lookup_insert_ne by congruence. done.
    + intros x Hx Hp%bool_decide_eq_false. rewrite lookup_insert_ne; [done|].
      intros Eu. apply Hp. rewrite (Hown u x Hx). done.
    + intros x Hx Hp%bool_decide_eq_true. right.
      assert (u = vr_uid r) as -> by (rewrite <- Hp; by rewrite (Hown u x Hx)).
      assert (x = r) as -> by congruence. rewrite lookup_insert_eq. eexists. split; [done|].
      unfold marked_as. simpl. done.
  - intros e w1 Ew [(now & now' & E)|[Hf _]]; [|by apply Herr]. exfalso.
    unfold denote, UpdateVM in E. destruct (updateVM v (w_db w)) as [db' [[]|e']]; [done|].
    destruct Hu as [_ [Hn|(old & _ & _ & Hnd)]]; [simpl in Hn; by rewrite Hr in Hn|done].
Qed.

(** The rows a loop marks. *)
Definition picks (keep : VMRecord -> bool) (rs : list vmRow) (r : vmRow) : bool :=
  bool_decide (r ∈ rs) && negb (keep (rowToVM r)).

(** The loop over the rows of one phase. *)
Lemma wp_mark_abandoned faults keep rs n (Q : Z * option error -> world -> Prop) w :
  own_keys (w_db w) -> NoDup (vr_uid <$> rs) ->
  (forall r, r ∈ rs -> vr_phase r <> phase_code DELETING /\ vms (w_db w) !! vr_uid r = Some r) ->
  (forall w' m err, recovered (picks keep rs) err (w_db w) (w_db w') ->
     (faults = false -> err = None) -> Q (m, err) w') ->
  wp faults (mark_abandoned keep (rowToVM <$> rs) n) Q w.
Proof.
  revert n w. induction rs as [|r rs IH]; intros n w Hown Hnd Hrs HQ;
    cbn [mark_abandoned fmap list_fmap].
  { cbn [wp]. apply HQ; [|done]. by apply recovered_same. }
  apply NoDup_cons in Hnd as [Hnot Hnd].
  assert (forall x, x ∈ rs -> vr_uid x <> vr_uid r) as Hdiff.
  { intros x Hx E. apply Hnot. rewrite <- E. by apply list_elem_of_fmap_2. }
  assert (vms (w_db w) !! vr_uid r = Some r) as Hr by (apply Hrs; by left).
  destruct (keep (rowToVM r)) eqn:Ek.
  - apply IH; [done..|intros x Hx; apply Hrs; by right|]. intros w1 m err Hrec Hf.
    apply HQ; [|done]. eapply recovered_ext; [|done]. intros u x Hx. unfold picks.
    destruct (decide (x = r)) as [->|Hne]; [by rewrite Ek, !andb_false_r|].
    f_equal. apply bool_decide_ext. set_solver.
  - wp_skip. rename x into t, w' into w1, H1 into Hs. apply wp_bind, wp_mark_one.
    + intros u x. rewrite (same_vms _ _ Hs). apply Hown.
    + by rewrite (same_vms _ _ Hs).
    + intros w2 Hrec%(recovered_after _ _ _ _ _ Hs). apply IH; [by eapply own_keys_recovered|done| |].
      { intros x Hx. split; [apply Hrs; by right|]. eapply rec_kept; [done|apply Hrs; by right|].
        apply bool_decide_eq_false. by apply Hdiff. }
      intros w3 m err Hrec3 Hf. apply HQ; [|done].
      eapply recovered_ext; [|eapply (recovered_seq _ (picks keep rs)); [|done..]].
      * intros u x Hx. unfold picks. destruct (decide (x = r)) as [->|Hne].
        -- rewrite Ek, (bool_decide_eq_true_2 (r ∈ r :: rs)) by (by left). by rewrite bool_decide_eq_true_2.
        -- rewrite (bool_decide_eq_false_2 (vr_uid x = vr_uid r)); simpl.
           ++ f_equal. apply bool_decide_ext. set_solver.
           ++ intros E. apply Hne. rewrite (Hown u x Hx) in E. congruence.
      * intros x Hd. unfold picks. rewrite bool_decide_eq_false_2; [done|].
        intros Hx. by destruct (Hrs x ltac:(by right)).
    + intros e w2 Ew ->. cbn [wp]. apply HQ; [|done]. rewrite Ew. by apply recovered_same.
Qed.

(** The rows a recovery over [phases] marks. *)
Definition abandoned (keep : VMRecord -> bool) (phases : list VMPhase) (r : vmRow) : bool :=
  bool_decide (vr_phase r ∈ phase_code <$> phases) && negb (keep (rowToVM r)).

Lemma picks_abandoned keep phases p rs u r db :
  (forall r, r ∈ rs <-> vr_phase r = phase_code p /\ exists k, vms db !! k = Some r) ->
  vms db !! u = Some r ->
  picks keep rs r || abandoned keep phases r = abandoned keep (p :: phases) r.
Proof.
  intros Hrs Hr. unfold picks, abandoned. rewrite <- andb_orb_distrib_l, <- bool_decide_or. f_equal.
  apply bool_decide_ext. rewrite fmap_cons, elem_of_cons, Hrs. naive_solver.
Qed.

Lemma wp_recover_phases faults keep phases n (Q : Z * option error -> world -> Prop) w :
  own_keys (w_db w) -> DELETING ∉ phases ->
  (forall w' m err, recovered (abandoned keep phases) err (w_db w) (w_db w') ->
     (faults = false -> err = None) -> Q (m, err) w') ->
  wp faults (recover_phases keep phases n) Q w.
Proof.
  revert n w. induction phases as [|p phases IH]; intros n w Hown Hnd HQ; cbn [recover_phases].
  { cbn [wp]. apply HQ; [|done]. by apply recovered_same. }
  apply not_elem_of_cons in Hnd as [Hp Hnd].
  apply wp_bind, wp_store; [|intros e w1 Ew [(now & now' & E)|[-> _]]; [done|]; cbn [wp];
    apply HQ; [|done]; rewrite Ew; by apply recovered_same].
  intros now now' db' vs w1 E Ew. unfold denote, ListVMsByPhase, query in E. injection E as <- <-.
  set (rs := sort_on _ _ _). apply wp_bind.
  assert (forall r, r ∈ rs <-> vr_phase r = phase_code p /\ exists k, vms (w_db w) !! k = Some r) as Hrs.
  { intros r. unfold rs. by rewrite elem_of_sort_on, list_elem_of_filter, elem_of_rows. }
  apply wp_mark_abandoned; rewrite ?Ew.
  - done.
  - unfold rs. rewrite sort_on_perm. eapply sublist_NoDup; [exact (NoDup_rows_key _ _ Hown)|].
    apply fmap_sublist, sublist_filter.
  - intros r [Hph [k Hk]]%Hrs. split; [rewrite Hph; by intros E%(inj phase_code)|].
    by rewrite (Hown k r Hk).
  - intros w2 m err Hrec Hf. simpl. destruct err as [e|].
    { cbn [wp]. apply HQ; [|naive_solver].
      eapply recovered_more; [done| |done]. intros u r Hr Hk.
      by rewrite <- (picks_abandoned _ _ _ _ _ _ _ Hrs Hr), Hk. }
    apply IH; [by eapply own_keys_recovered|done|]. intros w3 m3 err3 Hrec3 Hf3. apply HQ; [|done].
    eapply recovered_ext; [|eapply (recovered_seq _ (abandoned keep phases)); [|done..]].
    + intros u r Hr. by apply (picks_abandoned _ _ _ _ u _ (w_db w)).
    + intros r Hd. unfold abandoned. rewrite bool_decide_eq_false_2; [done|]. rewrite Hd.
      intros (q & Hq%(inj phase_code) & Hin)%list_elem_of_fmap. congruence.
Qed.

Lemma wf_own_keys db : db_wf db -> own_keys db.
Proof. intros W u r Hr. apply (wf_vms _ W u r Hr). Qed.

(** A VM claimed by a process that died before its lease was written. *)
Definition abandoned_claim (db : DB) (r : vmRow) : Prop :=
  (vr_phase r = phase_code PRE_LEASE_HOOK_RUNNING \/ vr_phase r = phase_code LEASED) /\
  ~ exists k l, leases db !! k = Some l /\ lr_leaseID l = GetLeaseId (rowToVM r).

(** A VM a process that died was still provisioning. *)
Definition abandoned_provision (r : vmRow) : Prop :=
  vr_phase r = phase_code PROVISIONING \/ vr_phase r = phase_code CREATE_HOOK_RUNNING.

Lemma claims_abandoned db (committed : list string) r :
  (forall id, id ∈ committed <-> exists k l, leases db !! k = Some l /\ lr_leaseID l = id) ->
  abandoned (fun vm => bool_decide (GetLeaseId vm ∈ committed)) [PRE_LEASE_HOOK_RUNNING; LEASED] r
    = true <-> abandoned_claim db r.
Proof.
  intros Hc. unfold abandoned, abandoned_claim.
  rewrite andb_true_iff, negb_true_iff, bool_decide_eq_true, bool_decide_eq_false, Hc. set_solver.
Qed.

(** Recovery of abandoned claims is exact, whatever fails: the VMs it
    marks DELETING are those claimed (PRE_LEASE_HOOK_RUNNING or LEASED) whose
    lease id no stored lease carries, each keeping its host, pool and lease
    id; every other VM, every lease, pool, host and placement stays as it was.
    Without an error all of those VMs are marked, and without store failures
    there is no error. *)
Theorem RecoverAbandonedClaims_exact faults w :
  db_wf (w_db w) ->
  wp faults RecoverAbandonedClaims (fun out w' => exists P,
    (forall r, P r = true <-> abandoned_claim (w_db w) r) /\
    recovered P out.2 (w_db w) (w_db w') /\ (faults = false -> out.2 = None)) w.
Proof.
  intros W%wf_own_keys. unfold RecoverAbandonedClaims. apply wp_bind, wp_store.
  - intros now now' db' ls w1 E Ew. unfold denote, Store.ListLeases, query in E. injection E as <- <-.
    apply wp_recover_phases; rewrite ?Ew; [done|set_solver|]. intros w2 m err Hrec Hf.
    eexists. split_and!; [|done|done]. intros r. apply claims_abandoned. intros id.
    rewrite list_elem_of_fmap. setoid_rewrite list_elem_of_fmap. setoid_rewrite elem_of_sort_on.
    setoid_rewrite elem_of_rows. split.
    + intros (l & -> & x & -> & k & Hk). by exists k, x.
    + intros (k & x & Hk & <-). exists (rowToLease x). eauto.
  - intros e w1 Ew [(now & now' & E)|[-> _]]; [done|]. cbn [wp].
    exists (abandoned (fun vm => bool_decide (GetLeaseId vm ∈ lr_leaseID <$> rows (leases (w_db w))))
      [PRE_LEASE_HOOK_RUNNING; LEASED]). rewrite Ew. split_and!; [|by apply recovered_same|done].
    intros r. apply claims_abandoned. intros id. rewrite list_elem_of_fmap.
    setoid_rewrite elem_of_rows. naive_solver.
Qed.

(** Recovery of abandoned provisions is exact, whatever fails: the VMs it
    marks DELETING are those in PROVISIONING or CREATE_HOOK_RUNNING, each
    keeping its host, pool and lease id; every other VM, every lease, pool,
    host and placement stays as it was.  Without an error all of those VMs are
    marked, and without store failures there is no error. *)
Theorem RecoverAbandonedProvisions_exact faults w :
  db_wf (w_db w) ->
  wp faults RecoverAbandonedProvisions (fun out w' => exists P,
    (forall r, P r = true <-> abandoned_provision r) /\
    recovered P out.2 (w_db w) (w_db w') /\ (faults = false -> out.2 = None)) w.
Proof.
  intros W%wf_own_keys. apply wp_recover_phases; [done|set_solver|]. intros w' m err Hrec Hf.
  eexists. split_and!; [|done|done]. intros r. unfold abandoned, abandoned_provision.
  rewrite andb_true_r, bool_decide_eq_true. set_solver.
Qed.
End recovery.

(** ** Witnesses *)

(** A pass in immediate-on-lease mode: one VM is AVAILABLE, one leased, and
    the pool has size two, so one VM is added. *)
Definition immediate0 : ReplenishmentStrategy :=
  {| strategy_type := IMMEDIATE_ON_LEASE; min_size := None |}.

Lemma reconcile_bounded_witness :
  exists s, NewStrategy (Some immediate0) = Ok s /\
  let out := run (reconcile DefaultProvisionConfig pool0 (hook_for s ClaimedNotification)) world0 in
  size (vms (w_db out.1)) = 4 /\ vms (w_db out.1) !! "vm-1" = vms db0 !! "vm-1".
Proof.
  destruct (NewStrategy (Some immediate0)) as [s|e] eqn:E; [|discriminate E].
  exists s. split; [done|]. cbv zeta. split.
  { injection E as <-. vm_compute. reflexivity. }
  apply (wp_run (reconcile DefaultProvisionConfig pool0 (hook_for s ClaimedNotification))
    (fun _ w' => vms (w_db w') !! "vm-1" = vms db0 !! "vm-1") world0).
  eapply wp_mono; [|apply (reconcile_bounded true DefaultProvisionConfig pool0 immediate0 s);
    [apply db0_wf|done|vm_compute; reflexivity|exact E]].
  intros _ w' (k & Hg & _). destruct (vms db0 !! "vm-1") as [r|] eqn:Er; [|discriminate Er].
  by apply (grows_vms k (w_db world0) (w_db w') Hg).
Defined.

(** What a crash may leave: a claim without its lease, and a VM whose create
    hook was running. *)
Definition crashed_db : DB :=
  ((CreateVM (vm0 "vm-4" LEASED (Some "lease-4"));;
    CreateVM (vm0 "vm-5" CREATE_HOOK_RUNNING None)) db0).1.

Definition crashed : world :=
  {| w_db := crashed_db; w_locks := no_locks; w_flint := w_flint world0;
     w_tick := 0; w_log := [] |}.

Lemma crashed_wf : db_wf (w_db crashed).
Proof.
  apply (store_steps_wf db0); [|apply db0_wf].
  eapply rtc_l; [apply (Store_step _ 0 0 (OpCreateVM (vm0 "vm-4" LEASED (Some "lease-4")))); done|].
  eapply rtc_l; [apply (Store_step _ 0 0 (OpCreateVM (vm0 "vm-5" CREATE_HOOK_RUNNING None))); done|].
  match goal with |- rtc _ ?x _ => replace x with (w_db crashed) by (vm_compute; reflexivity) end.
  apply rtc_refl.
Qed.

Lemma RecoverAbandonedClaims_exact_witness :
  let out := run RecoverAbandonedClaims crashed in
  out.2 = (1%Z, None) /\ vms (w_db out.1) !! "vm-2" = vms crashed_db !! "vm-2" /\
  vr_phase <$> vms (w_db out.1) !! "vm-4" = Some (phase_code DELETING).
Proof.
  cbv zeta. split_and!; [vm_compute; reflexivity| |vm_compute; reflexivity].
  apply (wp_run RecoverAbandonedClaims
    (fun _ w' => vms (w_db w') !! "vm-2" = vms crashed_db !! "vm-2") crashed).
  eapply wp_mono; [|apply (RecoverAbandonedClaims_exact true crashed), crashed_wf].
  intros out w' (P & HP & Hrec & _).
  destruct (vms crashed_db !! "vm-2") as [r|] eqn:Er; [|discriminate Er].
  apply (rec_kept _ _ _ _ Hrec); [exact Er|]. apply not_true_is_false. intros Hr%HP.
  destruct Hr as [_ Hr]. apply Hr. injection Er as <-. exists "lease-2". eexists.
  split; [vm_compute; reflexivity|reflexivity].
Defined.

Lemma RecoverAbandonedProvisions_exact_witness :
  let out := run RecoverAbandonedProvisions crashed in
  out.2 = (1%Z, None) /\ vms (w_db out.1) !! "vm-1" = vms crashed_db !! "vm-1" /\
  vr_phase <$> vms (w_db out.1) !! "vm-5" = Some (phase_code DELETING).
Proof.
  cbv zeta. split_and!; [vm_compute; reflexivity| |vm_compute; reflexivity].
  apply (wp_run RecoverAbandonedProvisions
    (fun _ w' => vms (w_db w') !! "vm-1" = vms crashed_db !! "vm-1") crashed).
  eapply wp_mono; [|apply (RecoverAbandonedProvisions_exact true crashed), crashed_wf].
  intros out w' (P & HP & Hrec & _).
  destruct (vms crashed_db !! "vm-1") as [r|] eqn:Er; [|discriminate Er].
  apply (rec_kept _ _ _ _ Hrec); [exact Er|]. apply not_true_is_false. intros Hr%HP.
  injection Er as <-. destruct Hr as [Hr|Hr]; discriminate Hr.
Defined.
