(* ===== verification/SweeperProps.v ===== *)
(** * The sweeper, one tick at a time

    A tick only winds down: it deletes leases and VMs and creates nothing.  It
    ends every lease that has expired, and leaves the others and their VMs
    alone. *)

From stdpp Require Import base gmap strings list.
From Stdlib Require Import ZArith Lia.
From S2P Require Import Prelude Types Convert Store StoreOps Concrete StoreProps.
From S2P Require Import Effects Flintlock ConcreteEnv Deletion Strategy Provision.
From S2P Require Import Reconciler Sweeper LeaseApi Ownership Quiet OneVM LeaseProps.
From S2P Require Import ProvisionProps ReconcilerProps.

(** ** Winding down *)

(** Leases are only removed, and VMs only removed or marked DELETING. *)
Record winds_down (db db' : DB) : Prop := {
  wd_pools : pools db' = pools db;
  wd_hosts : hosts db' = hosts db;
  wd_placements : placements db' = placements db;
  wd_leases : leases db' ⊆ leases db;
  wd_vms u r' : vms db' !! u = Some r' ->
    vms db !! u = Some r' \/ is_Some (vms db !! u) /\ vr_phase r' = phase_code DELETING
}.

#[export] Instance winds_down_preorder : PreOrder winds_down.
Proof.
  split; [split; by auto|]. intros a b c [P1 H1 L1 E1 V1] [P2 H2 L2 E2 V2].
  split; [congruence..|by etrans|]. intros u r' Hr. destruct (V2 u r' Hr) as [Hb|[[x Hx] Hb]].
  - by apply V1.
  - right. split; [|done]. destruct (V1 u x Hx) as [Ha|[Ha _]]; [by eexists|done].
Qed.

Lemma winds_down_ending uid db db' : winds_down db db' -> ending uid db -> ending uid db'.
Proof. intros W He r Hr. destruct (wd_vms _ _ W _ _ Hr) as [Hr'|[_ Hr']]; [by apply He|done]. Qed.

Lemma same_winds_down db db' : same_core db db' -> winds_down db db'.
Proof. intros [? Ev El ? ?]. split; try done; rewrite ?Ev, ?El; by auto. Qed.

Lemma winds_down_vms m db :
  (forall u r', m !! u = Some r' ->
     vms db !! u = Some r' \/ is_Some (vms db !! u) /\ vr_phase r' = phase_code DELETING) ->
  winds_down db (set_vms m db).
Proof. by split. Qed.
Lemma winds_down_leases m db : m ⊆ leases db -> winds_down db (set_leases m db).
Proof. split; by auto. Qed.

Definition wind_op (A : Set) (o : storeOp A) : Prop :=
  match o with
  | OpUpdateVM v => vm_phase v = DELETING
  | OpDeleteVMCheckingPool _ | OpDeleteLease _ | OpDeleteLeaseIfExpired _ _
  | OpMarkDrainingHostsVMsDeleting => True
  | o => quiet_op o = true
  end.

Lemma quiet_wind_op (A : Set) (o : storeOp A) : quiet_op o = true -> wind_op A o.
Proof. by destruct o. Qed.

Section winding.
Context `{Codec, Sqlite}.

Lemma wind_op_down (A : Set) now now' (o : storeOp A) db :
  wind_op A o -> winds_down db (denote now now' o db).1.
Proof.
  intros Ho. destruct o; simpl in Ho; try (apply same_winds_down, quiet_op_core; exact Ho).
  - destruct (denote now now' (OpUpdateVM v) db) as [db' r] eqn:E. store_run E; try done.
    match goal with Hr : vmToRow v = Ok _ |- _ => apply vmToRow_fields in Hr as (_ & Hph & _) end.
    rewrite Ho in Hph. apply winds_down_vms. intros u r'. rewrite lookup_insert_Some.
    intros [[<- <-]|[_ Hr]]; [right|by left]. split; [by eexists|done].
  - destruct (denote now now' (OpDeleteVMCheckingPool uid) db) as [db' r] eqn:E.
    store_run E; try done. apply winds_down_vms. intros u r' Hr%shrinks_delete. by left.
  - destruct (denote now now' (OpDeleteLease leaseID) db) as [db' r] eqn:E.
    store_run E; try done; apply winds_down_leases, delete_subseteq.
  - destruct (denote now now' (OpDeleteLeaseIfExpired leaseID now0) db) as [db' r] eqn:E.
    store_run E; try done; apply winds_down_leases, delete_subseteq.
  - destruct (denote now now' OpMarkDrainingHostsVMsDeleting db) as [db' r] eqn:E.
    store_run E; try done. apply winds_down_vms. intros u r'. apply shrinks_mark.
Qed.

Lemma wp_wind faults {A : Set} (p : prog A) (Q : A -> world -> Prop) w :
  confined wind_op p ->
  (forall x w', winds_down (w_db w) (w_db w') -> Q x w') -> wp faults p Q w.
Proof. apply (wp_confined faults wind_op winds_down). apply wind_op_down. Qed.
End winding.

(** Two things proved of a program hold together. *)
Lemma wp_and `{Codec, Sqlite} faults {A : Set} (p : prog A) (Q Q' : A -> world -> Prop) w :
  wp faults p Q w -> wp faults p Q' w -> wp faults p (fun x w' => Q x w' /\ Q' x w') w.
Proof.
  revert Q Q' w. induction p as [A x|A X e k IH|A c IHc k IHk]; intros Q Q' w; simpl; [done| |].
  - intros Hk Hk' x w' He. apply IH; eauto.
  - intros Hc Hc'. eapply wp_mono; [|exact (IHc _ _ _ Hc Hc')]. intros [] w' [? ?]. by apply IHk.
Qed.

Create HintDb confined.

(** A program's calls are all of a class that the quiet ones belong to. *)
Ltac confined_tac quiet_in :=
  repeat lazymatch goal with
  | |- confined _ (bind _ _) => apply confined_bind; [|intros]
  | |- confined _ (Ret _) => exact I
  | |- confined _ (store _) => split; [first [exact I|reflexivity|done]|intros; exact I]
  | |- confined _ (for_each _ _) => apply confined_for_each; intros
  | |- confined _ (go _) => split; [|exact I]
  | |- confined _ (match ?x with _ => _ end) => destruct x
  | |- confined _ _ => first [ solve [apply quiet_confined; [apply quiet_in|quiet_tac]]
                             | solve [eauto with confined] ]
  end.

(** *** The sweeper's programs wind down *)

Lemma wind_delete_marked v : confined wind_op (delete_marked v).
Proof. unfold delete_marked. confined_tac quiet_wind_op. Qed.
#[export] Hint Resolve wind_delete_marked : confined.
Lemma wind_Ensure v : confined wind_op (EnsureVMDeleted v).
Proof. unfold EnsureVMDeleted, EnsureVMDeletedCheckingPool. confined_tac quiet_wind_op. Qed.
Lemma wind_FinishRelease p v l n m : confined wind_op (FinishVMRelease p v l n m).
Proof. unfold FinishVMRelease. confined_tac quiet_wind_op. Qed.
#[export] Hint Resolve wind_Ensure wind_FinishRelease : confined.
Lemma wind_FinishDeletion p v n m : confined wind_op (FinishVMDeletion p v n m).
Proof. unfold FinishVMDeletion. confined_tac quiet_wind_op. Qed.
#[export] Hint Resolve wind_FinishDeletion : confined.
Lemma wind_retry s : confined wind_op (retryPendingDeletions s).
Proof. unfold retryPendingDeletions, retry_deletion. confined_tac quiet_wind_op. Qed.
Lemma wind_drain s : confined wind_op (drainHosts s).
Proof. unfold drainHosts, DeleteDrainedVMs, delete_drained. confined_tac quiet_wind_op. Qed.
Lemma wind_begin s l t : confined wind_op (beginExpiry s l t).
Proof. unfold beginExpiry. confined_tac quiet_wind_op. Qed.
#[export] Hint Resolve wind_retry wind_drain wind_begin : confined.
Lemma wind_sweep_lease s t m l : confined wind_op (sweep_lease s t m l).
Proof. unfold sweep_lease. confined_tac quiet_wind_op. Qed.
#[export] Hint Resolve wind_sweep_lease : confined.
Lemma wind_sweep_leases s t m ls : confined wind_op (sweep_leases s t m ls).
Proof. revert m. induction ls; intros m; cbn [sweep_leases]; confined_tac quiet_wind_op. Qed.
#[export] Hint Resolve wind_sweep_leases : confined.
Lemma wind_Tick s t : confined wind_op (Tick s t).
Proof. unfold Tick. confined_tac quiet_wind_op. Qed.

(** ** One lease among the VMs a tick retires *)

Section lease.
Context `{Codec, Sqlite}.

(** The lease's id and its VM. *)
Context (id uid : string).

(** Only the lease's VM carries its id. *)
Record clean (db : DB) : Prop := {
  cl_keys : own_keys db;
  cl_leases : forall k x, leases db !! k = Some x -> lr_leaseID x = k;
  cl_carriers : forall u r, vms db !! u = Some r -> u = uid \/ vr_leaseID r <> Some id
}.

(** A VM read from such a database. *)
Definition fits (v : VMRecord) : Prop := vm_uid v = uid \/ vm_lease_id v <> Some id.

Lemma clean_fits db u r : clean db -> vms db !! u = Some r -> fits (rowToVM r).
Proof. intros C Hr. unfold fits. simpl. rewrite (cl_keys _ C u r Hr). by eapply cl_carriers. Qed.

(** The calls of EnsureVMDeleted for [v]. *)
Definition retire_op (v : VMRecord) (A : Set) (o : storeOp A) : Prop :=
  match o with
  | OpUpdateVM v' => vm_uid v' = vm_uid v /\ vm_lease_id v' = vm_lease_id v /\ vm_phase v' = DELETING
  | OpDeleteVMCheckingPool u => u = vm_uid v
  | o => quiet_op o = true
  end.

Lemma clean_same db db' : same_core db db' -> clean db -> clean db'.
Proof.
  intros [_ Ev El _ _] [K L C]. split; [intros u r|rewrite El; done|intros u r]; rewrite Ev; auto.
Qed.

Lemma clean_update v old row db :
  fits v -> vmToRow v = Ok row -> vms db !! vm_uid v = Some old ->
  clean db -> clean (set_vms (<[vm_uid v := updated_row row old]> (vms db)) db).
Proof.
  intros Hv (Eu & _ & El)%vmToRow_fields Ho [K L C]. split; [|done|]; intros u r; simpl;
    rewrite lookup_insert_Some; intros [[<- <-]|[_ Hr]]; eauto.
  - exact (K _ _ Ho).
  - simpl. rewrite El. by apply Hv.
Qed.

Lemma clean_delete u db : clean db -> clean (set_vms (delete u (vms db)) db).
Proof.
  intros [K L C]. split; [|done|]; intros x r Hr%shrinks_delete; eauto.
Qed.

Lemma retire_op_clean v (A : Set) now now' (o : storeOp A) db :
  fits v -> retire_op v A o -> clean db -> clean (denote now now' o db).1.
Proof.
  intros Hv Ho C. destruct o; simpl in Ho; try (eapply clean_same, C; apply quiet_op_core; exact Ho).
  - destruct Ho as (Eu & El & Ep). assert (fits v0) as Hv0 by (unfold fits; by rewrite Eu, El).
    destruct (denote now now' (OpUpdateVM v0) db) as [db' r] eqn:E. store_run E; try done.
    match goal with Hr : vmToRow v0 = Ok _ |- _ => rename Hr into Hrow end.
    pose proof Hrow as (Er & _ & _)%vmToRow_fields. rewrite Er in *. by apply clean_update.
  - destruct (denote now now' (OpDeleteVMCheckingPool uid0) db) as [db' r] eqn:E.
    store_run E; try done. by apply clean_delete.
Qed.

Lemma quiet_retire_op v (A : Set) (o : storeOp A) : quiet_op o = true -> retire_op v A o.
Proof. by destruct o. Qed.

Lemma retire_delete_marked v v' : vm_uid v' = vm_uid v -> confined (retire_op v) (delete_marked v').
Proof. intros Hv. unfold delete_marked. confined_tac (quiet_retire_op v). Qed.

Lemma retire_Ensure v : confined (retire_op v) (EnsureVMDeleted v).
Proof.
  unfold EnsureVMDeleted, EnsureVMDeletedCheckingPool. confined_tac (quiet_retire_op v);
    by apply retire_delete_marked.
Qed.

Lemma retire_wind_op v (A : Set) (o : storeOp A) : retire_op v A o -> wind_op A o.
Proof. destruct o; naive_solver. Qed.

(** Deleting a VM: its row alone changes, and it is gone on success. *)
Lemma wp_retire faults v (Q : option error -> world -> Prop) w :
  fits v -> clean (w_db w) ->
  (forall err w', clean (w_db w') -> winds_down (w_db w) (w_db w') ->
     only_vm (vm_uid v) (w_db w) (w_db w') -> (err = None -> vms (w_db w') !! vm_uid v = None) ->
     Q err w') ->
  wp faults (EnsureVMDeleted v) Q w.
Proof.
  intros Hv C HQ. apply (wp_mono faults _ (fun err w' =>
    ((clean (w_db w) -> clean (w_db w')) /\ (err = None -> vms (w_db w') !! vm_uid v = None)) /\
    winds_down (w_db w) (w_db w') /\ only_vm (vm_uid v) (w_db w) (w_db w'))).
  { intros err w' [[Hc Hg] [Hw Ho]]. by apply HQ; auto. }
  apply wp_and; apply wp_and.
  - apply (wp_confined faults (retire_op v) (fun db db' => clean db -> clean db')
      (PreOrder0 := {| PreOrder_Reflexive := fun _ x => x;
                       PreOrder_Transitive := fun _ _ _ f g x => g (f x) |}));
      [|apply retire_Ensure|done]. intros X t t' o db Ho. by apply (retire_op_clean v).
  - unfold EnsureVMDeleted, EnsureVMDeletedCheckingPool. apply wp_bind.
    assert (forall v' w', vm_uid v' = vm_uid v -> wp faults (delete_marked v') (fun r w'' =>
      wp faults (Ret (match r with Ok _ => None | Err e => Some e end))
        (fun err w0 => err = None -> vms (w_db w0) !! vm_uid v = None) w'') w') as Hdel.
    { intros v' w' <-. apply wp_delete_marked; [|done]. intros b w2 _ Hs _. by eapply gone_ending. }
    case_decide; [|by apply Hdel]. wp_skip. apply wp_bind, wp_store; [|done].
    intros t t' db' [] w2 _ _. by apply Hdel.
  - apply wp_wind; [|done]. eapply confined_mono; [apply retire_wind_op|apply retire_Ensure].
  - by apply (wp_vm_only faults (vm_uid v)); [apply onevm_Ensure|].
Qed.

(** Removing a lease row. *)
Definition finish_op (k : string) (A : Set) (o : storeOp A) : Prop :=
  match o with OpDeleteLease k' => k' = k | o => quiet_op o = true end.

Record finished (k : string) (db db' : DB) : Prop := {
  fin_winds : winds_down db db';
  fin_vms : vms db' = vms db;
  fin_leases i : i <> k -> leases db' !! i = leases db !! i
}.

#[local] Instance finished_preorder k : PreOrder (finished k).
Proof.
  split; [done|]. intros a b c [W1 V1 L1] [W2 V2 L2]. split; [by etrans|congruence|].
  intros i Hi. rewrite L2, L1; done.
Qed.

Lemma same_finished k db db' : same_core db db' -> finished k db db'.
Proof. intros Hs. split; [by apply same_winds_down|apply Hs|]. intros i _. by rewrite (same_leases _ _ Hs). Qed.

Lemma finish_op_finished k (A : Set) now now' (o : storeOp A) db :
  finish_op k A o -> finished k db (denote now now' o db).1.
Proof.
  intros Ho. destruct o; simpl in Ho; try (apply same_finished, quiet_op_core; exact Ho).
  subst. split; [by apply wind_op_down|..];
    destruct (denote now now' (OpDeleteLease k) db) as [db' r] eqn:E; store_run E; try done;
    intros i Hi; by rewrite lookup_delete_ne.
Qed.

Lemma quiet_finish_op k (A : Set) (o : storeOp A) : quiet_op o = true -> finish_op k A o.
Proof. by destruct o. Qed.

Lemma clean_finished k db db' : finished k db db' -> clean db -> clean db'.
Proof.
  intros [W Ev _] [K L C]. split; [intros u r; rewrite Ev; apply K| |intros u r; rewrite Ev; apply C].
  intros i x Hx. apply L. by eapply lookup_weaken; [|apply W].
Qed.

(** The bookkeeping after a deletion ends the lease the VM carried, if any. *)
Lemma wp_finish faults pool v n m (Q : unit -> world -> Prop) w :
  clean (w_db w) ->
  (forall w', clean (w_db w') -> winds_down (w_db w) (w_db w') -> vms (w_db w') = vms (w_db w) ->
     (vm_lease_id v <> Some id -> leases (w_db w') !! id = leases (w_db w) !! id) -> Q tt w') ->
  wp faults (FinishVMDeletion pool v n m) Q w.
Proof.
  intros C HQ.
  assert (forall k w1, same_core (w_db w) (w_db w1) -> (vm_lease_id v <> Some id -> k <> id) ->
    forall p, confined (finish_op k) p -> wp faults p Q w1) as Hfin.
  { intros k w1 Hs Hk p Hp.
    apply (wp_confined faults (finish_op k) (finished k)); [apply finish_op_finished|done|].
    intros [] w2 Hf. assert (finished k (w_db w) (w_db w2)) as Hf'
      by (etrans; [by apply same_finished|done]).
    apply HQ; [by eapply clean_finished|apply Hf'|apply Hf'|]. intros Hv. by apply Hf', not_eq_sym, Hk. }
  assert (forall w1 p, same_core (w_db w) (w_db w1) -> quiet p -> wp faults p Q w1) as Hquiet.
  { intros w1 p Hs Hp. apply wp_quiet; [done|]. intros [] w2 Hs2.
    assert (same_core (w_db w) (w_db w2)) as Hs' by by etrans.
    apply HQ; [by eapply clean_same|by apply same_winds_down|apply Hs'|].
    intros _. by rewrite (same_leases _ _ Hs'). }
  unfold FinishVMDeletion. case_decide as Hid.
  - apply wp_bind, wp_store.
    + intros t t' db' lease w1 E Ew. apply GetLease_Ok in E as (-> & x & Hx & ->).
      apply (Hfin (lr_leaseID x)); [by rewrite Ew| |].
      * intros Hv E. apply Hv. rewrite (cl_leases _ C _ _ Hx) in E. rewrite <- E. unfold GetLeaseId in *.
        by destruct (vm_lease_id v).
      * unfold FinishVMRelease. confined_tac (quiet_finish_op (lr_leaseID x)).
    + intros e w1 Ew _. apply Hquiet; [by rewrite Ew|quiet_tac].
  - apply Hquiet; [done|quiet_tac].
Qed.

(** *** Retiring a VM *)

(** What deleting [v] and finishing up may have done. *)
Record retired (v : VMRecord) (db db' : DB) : Prop := {
  ret_clean : clean db';
  ret_winds : winds_down db db';
  ret_vms u : u <> vm_uid v -> vms db' !! u = vms db !! u;
  ret_lease : leases db' !! id = leases db !! id \/
    vm_lease_id v = Some id /\ vms db' !! vm_uid v = None
}.

Lemma retired_same v db db1 db' : retired v db db1 -> same_core db1 db' -> retired v db db'.
Proof.
  intros [C W V L] Hs. split; [by eapply clean_same|by etrans; [|apply same_winds_down]|..];
    rewrite (same_vms _ _ Hs), ?(same_leases _ _ Hs); done.
Qed.

Lemma wp_retired faults v (Q : option error -> world -> Prop) w :
  fits v -> clean (w_db w) ->
  (forall err w', retired v (w_db w) (w_db w') -> (err = None -> vms (w_db w') !! vm_uid v = None) ->
     Q err w') ->
  wp faults (EnsureVMDeleted v) Q w.
Proof.
  intros Hv C HQ. apply wp_retire; [done..|]. intros err w1 C1 W1 O1 G1. apply HQ; [|done].
  split; [done..|apply O1|]. left. by rewrite (only_leases _ _ _ O1).
Qed.

Lemma wp_retired_quiet faults v db0 (p : prog unit) (Q : unit -> world -> Prop) w :
  retired v db0 (w_db w) -> quiet p -> (forall w', retired v db0 (w_db w') -> Q tt w') ->
  wp faults p Q w.
Proof.
  intros Hr Hp HQ. apply wp_quiet; [done|]. intros [] w' Hs. apply HQ. by eapply retired_same.
Qed.

Lemma wp_retired_finish faults v db0 p n m (Q : unit -> world -> Prop) w :
  retired v db0 (w_db w) -> vms (w_db w) !! vm_uid v = None ->
  (forall w', retired v db0 (w_db w') -> Q tt w') ->
  wp faults (FinishVMDeletion p v n m) Q w.
Proof.
  intros [C W V L] Hg HQ. apply wp_finish; [done|]. intros w' C' W' V' L'. apply HQ.
  split; [done|by etrans|by rewrite V'|].
  destruct (decide (vm_lease_id v = Some id)) as [E|E].
  - right. by rewrite V'.
  - rewrite L' by done. destruct L as [L|[? _]]; [by left|done].
Qed.

Lemma wp_retry_deletion faults s d v (Q : unit -> world -> Prop) w :
  fits v -> clean (w_db w) -> (forall w', retired v (w_db w) (w_db w') -> Q tt w') ->
  wp faults (retry_deletion s d v) Q w.
Proof.
  intros Hv C HQ. unfold retry_deletion. apply wp_bind, wp_retired; [done..|]. intros err w1 Hr Hg.
  destruct err as [e|]; [by eapply wp_retired_quiet; [|quiet_tac|]|].
  wp_skip. rename x into pool, w' into w2, H1 into Hs.
  apply (retired_same _ _ _ _ Hr) in Hs as Hr2.
  destruct pool as [pool|e]; [|by eapply wp_retired_quiet; [|quiet_tac|]].
  case_decide; [by eapply wp_retired_quiet; [|quiet_tac|]|].
  eapply wp_retired_finish; [done| |done]. rewrite (same_vms _ _ Hs). by apply Hg.
Qed.

Lemma wp_delete_drained faults n v (Q : unit -> world -> Prop) w :
  fits v -> clean (w_db w) -> (forall w', retired v (w_db w) (w_db w') -> Q tt w') ->
  wp faults (delete_drained n v) Q w.
Proof.
  intros Hv C HQ. unfold delete_drained. apply wp_bind, wp_retired; [done..|]. intros err w1 Hr Hg.
  eapply wp_retired_quiet; [done|quiet_tac|done].
Qed.

(** What the drain of the hosts marks. *)
Lemma clean_marks t db db' vs :
  clean db -> MarkDrainingHostsVMsDeleting t db = (db', Ok vs) ->
  clean db' /\ leases db' = leases db /\
  (forall x, x ∈ vs -> exists u r, vms db !! u = Some r /\ unleased r /\
     x = rowToVM (mark_deleting t r)) /\
  (forall u r, vms db !! u = Some r -> ~ unleased r -> vms db' !! u = Some r).
Proof.
  intros [K L C] E. unfold MarkDrainingHostsVMsDeleting, markUnleasedVMsDeleting in E. store_simpl.
  simplify_eq/=. split_and!; [split|done|..]; simpl; try done.
  - intros u r. simpl. rewrite lookup_update_where. intros (x & Hx & ->)%fmap_Some.
    pose proof (K u x Hx). by case_decide.
  - intros u r. simpl. rewrite lookup_update_where. intros (x & Hx & ->)%fmap_Some.
    case_decide; [by right|by apply C].
  - intros x. rewrite elem_of_sort_on. intros (r & -> & Hr)%list_elem_of_fmap.
    rewrite list_elem_of_filter, elem_of_rows in Hr. naive_solver.
  - intros u r Hr Hn. rewrite lookup_update_where, Hr. simpl. rewrite decide_False; [done|tauto].
Qed.

(** *** Any invariant that retiring keeps *)

Section invariant.
Context (J : DB -> Prop) (D : VMRecord -> Prop).
Hypothesis J_clean : forall db, J db -> clean db.
Hypothesis J_same : forall db db', same_core db db' -> J db -> J db'.
Hypothesis D_fits : forall v, D v -> fits v.
Hypothesis J_retired : forall v db db', D v -> retired v db db' -> J db -> J db'.
Hypothesis J_pending : forall db u r, J db -> vms db !! u = Some r ->
  vr_phase r = phase_code DELETING -> D (rowToVM r).
Hypothesis J_marks : forall t db db' vs, J db ->
  MarkDrainingHostsVMsDeleting t db = (db', Ok vs) -> J db' /\ forall v, v ∈ vs -> D v.

Lemma wp_retry_keeps faults s w :
  J (w_db w) -> wp faults (retryPendingDeletions s) (fun _ w' => J (w_db w')) w.
Proof.
  intros HJ. unfold retryPendingDeletions. apply wp_bind, wp_store.
  - intros t t' db' vs w1 E Ew. unfold denote, ListVMsByPhase, query in E. injection E as <- <-.
    set (rs := sort_on _ _ _) in *. assert (Forall D (rowToVM <$> rs)) as HD.
    { apply Forall_fmap, Forall_forall. intros r Hr. unfold rs in Hr.
      rewrite elem_of_sort_on, list_elem_of_filter, elem_of_rows in Hr.
      destruct Hr as [Hp [u Hu]]. by eapply J_pending. }
    clearbody rs. rewrite <- Ew in HJ. destruct (rowToVM <$> rs) as [|v vs]; [done|].
    wp_skip. rename x into hs, w' into w2, H1 into Hs. apply (J_same _ _ Hs) in HJ.
    destruct hs as [hs|e]; [|done]. apply wp_for_each; [|done]. intros x w3 Hx HJ3.
    rewrite Forall_forall in HD. apply wp_retry_deletion; [by apply D_fits, HD|by apply J_clean|].
    intros w4 Hr. by eapply J_retired; [apply HD|..].
  - intros e w1 Ew _. cbn [wp]. by rewrite Ew.
Qed.

Lemma wp_drain_keeps faults s w :
  J (w_db w) -> wp faults (drainHosts s) (fun _ w' => J (w_db w')) w.
Proof.
  intros HJ. unfold drainHosts. apply wp_bind, wp_store.
  - intros t t' db' vs w1 E Ew. destruct (J_marks t _ _ _ HJ E) as [HJ1 HD]. rewrite <- Ew in HJ1.
    unfold DeleteDrainedVMs. case_decide as Hne; [done|]. wp_skip. rename w' into w2, H1 into Hs.
    apply (J_same _ _ Hs) in HJ1. apply wp_for_each; [|done]. intros v w3 Hv HJ3.
    change (wp faults (delete_drained (notifier s) v) (fun _ w' => J (w_db w')) w3).
    apply wp_delete_drained; [by apply D_fits, HD|by apply J_clean|].
    intros w4 Hr. by eapply J_retired; [apply HD|..].
  - intros e w1 Ew _. cbn [wp]. by rewrite Ew.
Qed.

(** Ending another lease. *)
Hypothesis J_expire : forall k t db, k <> id -> J db -> J (DeleteLeaseIfExpired k t db).1.

Lemma wp_expire_keeps faults s x t w :
  lease_id x <> id -> J (w_db w) ->
  (forall db r, J db -> vms db !! lease_vm_uid x = Some r -> D (rowToVM r)) ->
  wp faults (beginExpiry s x t) (fun _ w' => J (w_db w')) w.
Proof.
  intros Hne HJ HD. unfold beginExpiry. apply wp_bind, wp_store; [|intros e w1 Ew _; cbn [wp]; by rewrite Ew].
  intros t1 t1' db' e w1 E Ew. unfold denote in E.
  pose proof (J_expire (lease_id x) t _ Hne HJ) as HJ1. rewrite E in HJ1. simpl in HJ1. rewrite <- Ew in HJ1.
  clear E Ew. wp_skip. apply (J_same _ _ H1) in HJ1. rename w' into w2. clear H1 x0.
  wp_skip. apply (J_same _ _ H1) in HJ1. rename w' into w3. clear H1 x0.
  apply wp_bind, wp_store; [|intros e' w4 Ew _; cbn [wp]; by rewrite Ew].
  intros t2 t2' db2 v w4 E Ew. apply GetVM_Ok in E as (-> & r & Hr & ->).
  apply (HD _ _ HJ1) in Hr as HDr. rewrite <- Ew in HJ1.
  case_decide; [done|]. wp_skip. rename x0 into pool, w' into w5, H2 into Hs. apply (J_same _ _ Hs) in HJ1.
  destruct pool as [pool|]; [|done].
  apply wp_bind, wp_retired; [by apply D_fits|by apply J_clean|]. intros err w6 Hret Hg.
  destruct err as [e'|]; [cbn [wp]; by eapply J_retired|].
  eapply wp_retired_finish; [done|by apply Hg|]. intros w7 Hret7. by eapply J_retired.
Qed.
End invariant.
End lease.

(** ** A live lease is spared *)

Section spared.
Context `{Codec, Sqlite}.

(** The lease is stored, its VM is LEASED under it, no other VM carries its
    id and no other lease is on its VM. *)
Record live (id : string) (l : leaseRow) (v : vmRow) (db : DB) : Prop := {
  live_clean : clean id (lr_vmUID l) db;
  live_lease : leases db !! id = Some l;
  live_vm : vms db !! lr_vmUID l = Some v;
  live_leased : vr_phase v = phase_code LEASED;
  live_only k x : leases db !! k = Some x -> lr_vmUID x = lr_vmUID l -> k = id
}.

Context (id : string) (l : leaseRow) (v : vmRow).

Definition another (x : VMRecord) : Prop :=
  fits id (lr_vmUID l) x /\ vm_uid x <> lr_vmUID l.

Lemma live_same db db' : same_core db db' -> live id l v db -> live id l v db'.
Proof.
  intros Hs [C L V P O]. pose proof (same_vms _ _ Hs) as Ev. pose proof (same_leases _ _ Hs) as El.
  split; [by eapply clean_same| | |done|]; rewrite ?Ev, ?El; done.
Qed.

Lemma live_retired x db db' :
  another x -> retired id (lr_vmUID l) x db db' -> live id l v db -> live id l v db'.
Proof.
  intros [Hf Hu] [C' W V L] [C Hl Hv P O]. split; [done| | |done|].
  - destruct L as [L|[E _]]; [by rewrite L|]. exfalso. destruct Hf; done.
  - by rewrite V.
  - intros k y Hy. apply O. by eapply lookup_weaken; [|apply W].
Qed.

Lemma live_another u r db : live id l v db -> vms db !! u = Some r -> u <> lr_vmUID l -> another (rowToVM r).
Proof.
  intros [C _ _ _ _] Hr Hu. split; [by eapply clean_fits|]. simpl. by rewrite (cl_keys _ _ _ C u r Hr).
Qed.

Lemma live_pending u r db :
  live id l v db -> vms db !! u = Some r -> vr_phase r = phase_code DELETING -> another (rowToVM r).
Proof.
  intros HJ Hr Hp. eapply live_another; [done..|]. intros ->. destruct HJ as [_ _ Hv Hl _].
  simplify_eq. by rewrite Hl in Hp.
Qed.

Lemma live_expire k t db : k <> id -> live id l v db -> live id l v (DeleteLeaseIfExpired k t db).1.
Proof.
  intros Hk HJ. pose proof (delete_expired_outcome_holds k t db) as Ho.
  unfold delete_expired_outcome in Ho. destruct (leases db !! k) as [x|]; [|by rewrite Ho].
  case_decide; rewrite Ho; [|done]. destruct HJ as [[K L C] Hl Hv P O]. simpl.
  split; [split|..]; simpl; try done.
  - intros i y [_ Hy]%lookup_delete_Some. by apply L.
  - by rewrite lookup_delete_ne.
  - intros i y [_ Hy]%lookup_delete_Some. by apply O.
Qed.

Lemma live_marks t db db' vs :
  live id l v db -> MarkDrainingHostsVMsDeleting t db = (db', Ok vs) ->
  live id l v db' /\ forall x, x ∈ vs -> another x.
Proof.
  intros HJ E. destruct (clean_marks id (lr_vmUID l) t db db' vs) as (C' & El & Hvs & Hkeep);
    [apply HJ|done|].
  assert (~ unleased v) as Hnot by (intros [Hv _]; by apply Hv, HJ). split.
  - destruct HJ as [C Hl Hv P O]. split; [done|by rewrite El|by apply Hkeep|done|by rewrite El].
  - intros x (u & r & Hr & Hun & ->)%Hvs. assert (u <> lr_vmUID l) as Hu.
    { intros ->. rewrite (live_vm _ _ _ _ HJ) in Hr. by simplify_eq. }
    split; [by right|]. simpl. by rewrite (cl_keys _ _ _ (live_clean _ _ _ _ HJ) u r Hr).
Qed.

(** The rest of the tick, over the leases the scan returned. *)
Definition scanned (x : LeaseRecord) : Prop :=
  lease_id x = id /\ x = rowToLease l \/ lease_id x <> id /\ lease_vm_uid x <> lr_vmUID l.

Lemma wp_sweep_keeps faults s t ls m w :
  (t < lr_expiresAt l)%Z -> Forall scanned ls -> live id l v (w_db w) ->
  wp faults (sweep_leases s t m ls) (fun _ w' => live id l v (w_db w')) w.
Proof.
  intros Ht Hls. revert m w. induction Hls as [|x ls Hx _ IH]; intros m w HJ; cbn [sweep_leases]; [done|].
  apply wp_bind. apply (wp_mono faults _ (fun _ w' => live id l v (w_db w'))); [by auto|].
  unfold sweep_lease. case_decide as He.
  - destruct Hx as [[_ ->]|[Hid Hvm]]; [unfold expiry in He; simpl in He; lia|].
    apply wp_bind. eapply wp_mono; [|apply (wp_expire_keeps id (lr_vmUID l) (live id l v) another)];
      try done; eauto using live_same, live_retired, live_expire.
    + apply live_clean.
    + by intros ? [].
    + intros db r HJ' Hr. by eapply live_another.
  - case_decide; [done|]. wp_skip. cbn [wp]. by eapply live_same.
Qed.

End spared.

(** ** An expired lease ends *)

Section ends.
Context `{Codec, Sqlite}.
Context (id : string) (l : leaseRow).
Hypothesis l_id : lr_leaseID l = id.

(** The lease is gone and its VM being deleted or gone. *)
Definition over (db : DB) : Prop := leases db !! id = None /\ ending (lr_vmUID l) db.

(** Until its turn comes, the lease stands and its VM is LEASED or being
    deleted, or both are over. *)
Record standing (db : DB) : Prop := {
  st_clean : clean id (lr_vmUID l) db;
  st_lease : leases db !! id = Some l \/ over db;
  st_phase r : vms db !! lr_vmUID l = Some r ->
    vr_phase r = phase_code LEASED \/ vr_phase r = phase_code DELETING;
  st_pool : is_Ok (Store.GetPool (lr_poolName l) (lr_poolNamespace l) db).2 = true
}.

Lemma GetPool_pools n ns db db' :
  pools db' = pools db -> (Store.GetPool n ns db').2 = (Store.GetPool n ns db).2.
Proof.
  intros E. unfold Store.GetPool. store_simpl. rewrite E. destruct (pools db !! _); [|done].
  by destruct (rowToPool _).
Qed.

Lemma over_down db db' : winds_down db db' -> over db -> over db'.
Proof.
  intros W [Hl He]. split; [|by eapply winds_down_ending].
  destruct (leases db' !! id) eqn:E; [|done].
  pose proof (lookup_weaken _ _ _ _ E (wd_leases _ _ W)). congruence.
Qed.

(** Winding down without touching the lease, unless its VM ended. *)
Lemma standing_down db db' :
  winds_down db db' -> clean id (lr_vmUID l) db' ->
  leases db' !! id = leases db !! id \/ ending (lr_vmUID l) db' -> standing db -> standing db'.
Proof.
  intros W C' HL [C L P G]. split; [done| | |].
  - destruct L as [L|L]; [|right; by eapply over_down].
    destruct (leases db' !! id) as [x|] eqn:E.
    + pose proof (lookup_weaken _ _ _ _ E (wd_leases _ _ W)). left. congruence.
    + right. split; [done|]. destruct HL as [HL|HL]; [congruence|done].
  - intros r Hr. destruct (wd_vms _ _ W _ _ Hr) as [Hr'|[_ Hd]]; [by apply P|by right].
  - by rewrite (GetPool_pools _ _ db db') by apply W.
Qed.

Lemma standing_same db db' : same_core db db' -> standing db -> standing db'.
Proof.
  intros Hs Hst. eapply standing_down; [by apply same_winds_down|by eapply clean_same, Hst| |done].
  left. by rewrite (same_leases _ _ Hs).
Qed.

Lemma standing_retired v db db' :
  fits id (lr_vmUID l) v -> retired id (lr_vmUID l) v db db' -> standing db -> standing db'.
Proof.
  intros Hf [C' W V L] Hst. eapply standing_down; [done..| |done].
  destruct L as [L|[E Hg]]; [by left|right]. destruct Hf as [Hu|]; [|done].
  intros r Hr. congruence.
Qed.

Lemma standing_marks t db db' vs :
  standing db -> MarkDrainingHostsVMsDeleting t db = (db', Ok vs) ->
  standing db' /\ forall x, x ∈ vs -> fits id (lr_vmUID l) x.
Proof.
  intros Hst E. destruct (clean_marks id (lr_vmUID l) t db db' vs) as (C' & El & Hvs & _);
    [apply Hst|done|]. split.
  - pose proof (wind_op_down _ t t OpMarkDrainingHostsVMsDeleting db I) as W.
    change (winds_down db (MarkDrainingHostsVMsDeleting t db).1) in W. rewrite E in W. eapply standing_down; [done..| |done]. left. by rewrite El.
  - intros x (u & r & _ & _ & ->)%Hvs. by right.
Qed.

Lemma standing_expire k t db : k <> id -> standing db -> standing (DeleteLeaseIfExpired k t db).1.
Proof.
  intros Hk Hst. pose proof (wind_op_down _ t t (OpDeleteLeaseIfExpired k t) db I) as W.
  change (winds_down db (DeleteLeaseIfExpired k t db).1) in W.
  pose proof (delete_expired_outcome_holds k t db) as Ho. unfold delete_expired_outcome in Ho.
  destruct (leases db !! k) as [x|]; [|by rewrite Ho]. case_decide; rewrite Ho in *; [|done].
  simpl in *. eapply standing_down; [done| |left; simpl; by rewrite lookup_delete_ne|done].
  destruct (st_clean _ Hst) as [K L C]. split; [done| |done].
  intros i y Hy%shrinks_delete. by apply L.
Qed.

Lemma wp_Ensure_ends r w :
  vms (w_db w) !! vr_uid r = Some r ->
  wp false (EnsureVMDeleted (rowToVM r)) (fun _ w' =>
    winds_down (w_db w) (w_db w') /\ ending (vr_uid r) (w_db w')) w.
Proof.
  intros Hr. apply wp_and; [by apply wp_wind; [apply wind_Ensure|]|].
  unfold EnsureVMDeleted. apply wp_bind, wp_EnsureCP; [done|..].
  - intros b w' Hg _ x Hx. congruence.
  - intros e w' _ _ He. by apply He.
Qed.

(** Once the lease is gone and its VM ending, whatever is left to do. *)
Lemma wp_over_rest w1 :
  leases (w_db w1) !! id = None -> forall (p : prog unit) w2,
  winds_down (w_db w1) (w_db w2) -> ending (lr_vmUID l) (w_db w2) -> confined wind_op p ->
  wp false p (fun _ w' => over (w_db w')) w2.
Proof.
  intros Hn p w2 W2 He2 Hp. apply wp_wind; [done|]. intros [] w3 W3. apply (over_down _ _ W3).
  split; [|done]. destruct (leases (w_db w2) !! id) eqn:E2; [|done].
  pose proof (lookup_weaken _ _ _ _ E2 (wd_leases _ _ W2)). congruence.
Qed.

(** The lease's turn. *)
Lemma wp_expire_over s t w :
  (lr_expiresAt l <= t)%Z -> in_int64 t -> standing (w_db w) ->
  wp false (beginExpiry s (rowToLease l) t) (fun _ w' => over (w_db w')) w.
Proof.
  intros He Ht Hst. unfold beginExpiry.
  pose proof (delete_expired_outcome_holds id t (w_db w)) as Ho. unfold delete_expired_outcome in Ho.
  cbn [lease_id rowToLease]. rewrite l_id. apply wp_bind, wp_store.
  - intros t1 t1' db' e w1 E Ew. unfold denote in E. rewrite E in Ho.
    destruct (leases (w_db w) !! id) as [x|] eqn:Ex; [|done]. case_decide as Hexp; [|done].
    injection Ho as -> ->.
    assert (leases (w_db w1) !! id = None) as Hn by (rewrite Ew; apply lookup_delete_eq).
    assert (vms (w_db w1) = vms (w_db w) /\ pools (w_db w1) = pools (w_db w)) as [Ev Ep]
      by by rewrite Ew.
    pose proof (wp_over_rest w1 Hn) as Hrest.
    wp_skip. rename H1 into Hs2, w' into w2. clear x0. wp_skip. rename H1 into Hs3, w' into w3. clear x0.
    assert (same_core (w_db w1) (w_db w3)) as Hs by by etrans. clear Hs2 Hs3 w2.
    assert (vms (w_db w3) = vms (w_db w)) as Ev3 by (rewrite (same_vms _ _ Hs); done).
    apply wp_bind, wp_store.
    + intros t2 t2' db2 v w4 E4 Ew4. apply GetVM_Ok in E4 as (-> & r & Hr & ->).
      cbn [lease_vm_uid rowToLease] in Hr. rewrite Ev3 in Hr.
      assert (winds_down (w_db w1) (w_db w4)) as W4 by (rewrite Ew4; by apply same_winds_down).
      assert (vms (w_db w4) !! lr_vmUID l = Some r) as Hr4 by by rewrite Ew4, Ev3.
      case_decide as Hph.
      { apply Hrest; [done| |done]. intros y Hy. rewrite Hr4 in Hy. injection Hy as <-.
        destruct (st_phase _ Hst r Hr) as [Hp|]; [|done]. exfalso. apply Hph. simpl. by rewrite Hp. }
      apply wp_bind, wp_store.
      * intros t3 t3' db3 pool w5 E5 Ew5. apply GetPool_Ok in E5 as ->.
        assert (vr_uid r = lr_vmUID l) as Eu by apply (cl_keys _ _ _ (st_clean _ Hst) _ _ Hr).
        rewrite <- Ew5 in *. apply wp_bind. eapply wp_mono; [|apply wp_Ensure_ends; by rewrite Eu].
        rewrite Eu. intros err w6 [W6 He6]. assert (winds_down (w_db w1) (w_db w6)) by by etrans.
        destruct err; apply Hrest; try done. apply wind_FinishDeletion.
      * intros e w5 Ew5 Hf. exfalso. destruct Hf as [(t3 & t3' & E5)|[[=] _]]. unfold denote in E5.
        pose proof (st_pool _ Hst) as Hp. rewrite <- (GetPool_pools _ _ _ (w_db w4)) in Hp.
        { simpl in E5. by rewrite E5 in Hp. }
        rewrite Ew4, (same_pools _ _ Hs). done.
    + intros e w4 Ew4 Hf. destruct Hf as [(t2 & t2' & E4)|[[=] _]].
      cbn [wp]. split; [by rewrite Ew4, (same_leases _ _ Hs)|]. intros r Hr. exfalso.
      revert E4. unfold denote, GetVM. store_simpl. rewrite Ew4 in Hr. by rewrite Hr.
  - intros e w1 Ew Hf. cbn [wp]. rewrite Ew. destruct Hf as [(t1 & t1' & E)|[[=] _]].
    unfold denote in E. destruct (st_lease _ Hst) as [Hl|]; [|done]. rewrite Hl in Ho.
    rewrite decide_True in Ho; [by rewrite Ho in E|]. unfold expired. by rewrite UnixNano_id.
Qed.

(** The scan's leases, this one among them. *)
Lemma wp_sweep_over s t ls m w :
  (lr_expiresAt l <= t)%Z -> in_int64 t -> rowToLease l ∈ ls ->
  Forall (fun x => lease_id x = id -> x = rowToLease l) ls -> standing (w_db w) ->
  wp false (sweep_leases s t m ls) (fun _ w' => over (w_db w')) w.
Proof.
  intros He Ht Hin Hls. revert m w. induction Hls as [|x ls Hx Hls IH]; intros m w Hst;
    [by apply not_elem_of_nil in Hin|]. cbn [sweep_leases]. apply wp_bind.
  unfold sweep_lease. destruct (decide (lease_id x = id)) as [Eid|Eid].
  - rewrite (Hx Eid), decide_True by done. apply wp_bind.
    eapply wp_mono; [|by apply wp_expire_over]. intros [] w1 Ho. cbn [wp].
    apply wp_wind; [apply wind_sweep_leases|]. intros m' w2 W. by eapply over_down.
  - apply elem_of_cons in Hin as [<-|Hin]; [done|].
    apply (wp_mono false _ (fun _ w' => standing (w_db w'))); [by auto|]. case_decide.
    + apply wp_bind. eapply wp_mono; [|exact (wp_expire_keeps id (lr_vmUID l) standing
        (fits id (lr_vmUID l)) st_clean standing_same (fun _ H => H) standing_retired
        standing_expire false s x t w Eid Hst
        (fun db r Hd Hr => clean_fits _ _ db _ r (st_clean db Hd) Hr))]. done.
    + case_decide; [done|]. wp_skip. cbn [wp]. by eapply standing_same.
Qed.
End ends.

Section tick.
Context `{Codec, Sqlite}.

(** Up to the scan, a tick leaves a live lease and its VM alone; the scan
    returns that lease and leases of other VMs. *)
Section before_scan.
Context (id : string) (l : leaseRow) (v : vmRow).

Lemma wp_retry_live faults s w :
  live id l v (w_db w) ->
  wp faults (retryPendingDeletions s) (fun _ w' => live id l v (w_db w')) w.
Proof.
  apply (wp_retry_keeps id (lr_vmUID l) _ (another id l)); [apply live_clean|apply live_same|
    by intros x []|apply live_retired|intros db u r; apply live_pending].
Qed.

Lemma wp_drain_live faults s w :
  live id l v (w_db w) -> wp faults (drainHosts s) (fun _ w' => live id l v (w_db w')) w.
Proof.
  apply (wp_drain_keeps id (lr_vmUID l) _ (another id l)); [apply live_clean|apply live_same|
    by intros x []|apply live_retired|apply live_marks].
Qed.

Lemma live_scan t db db' ls :
  live id l v db -> ListExpiredLeases t db = (db', Ok ls) -> db' = db /\ Forall (scanned id l) ls.
Proof.
  intros [C Hl _ _ O] E. unfold ListExpiredLeases, query in E. injection E as <- <-. split; [done|].
  apply Forall_fmap, Forall_forall. intros r Hr.
  rewrite elem_of_sort_on, list_elem_of_filter, scan_leases_perm, elem_of_rows in Hr.
  destruct Hr as [_ [k Hk]]. unfold scanned. simpl.
  rewrite (cl_leases _ _ _ C k r Hk). destruct (decide (k = id)) as [->|Hne].
  - left. split; [done|]. congruence.
  - right. split; [done|]. intros E. by apply Hne, (O k r).
Qed.
End before_scan.

(** C23: The sweeper spares live leases.  Whatever flintlock answers and
    whichever store calls fail, a tick at time [t] leaves a lease that expires
    after [t], and the VM that is LEASED under it, exactly as they were: with
    the lease and the VM each other's only one, nothing the tick does to
    pending deletions, draining hosts and expired leases reaches them. *)
Theorem Tick_spares_live_leases faults s t id l v w :
  live id l v (w_db w) -> (t < lr_expiresAt l)%Z ->
  wp faults (Tick s t) (fun _ w' =>
    leases (w_db w') !! id = Some l /\ vms (w_db w') !! lr_vmUID l = Some v) w.
Proof.
  intros HJ Ht. apply (wp_mono faults _ (fun _ w' => live id l v (w_db w'))); [by intros _ w' []|].
  unfold Tick. apply wp_bind. eapply wp_mono; [|by apply wp_retry_live]. intros ? w1 HJ1. cbv beta in HJ1.
  apply wp_bind. eapply wp_mono; [|by apply wp_drain_live]. intros ? w2 HJ2. cbv beta in HJ2.
  apply wp_bind, wp_store; [|intros e w3 Ew _; cbn [wp]; by rewrite Ew].
  intros t1 t1' db' ls w3 E Ew. destruct (live_scan id l v _ _ _ _ HJ2 E) as [-> Hls].
  apply wp_bind. eapply wp_mono; [|apply wp_sweep_keeps; [exact Ht|exact Hls|by rewrite Ew]]. done.
Qed.

(** C24: The sweeper ends expired leases.  If the store does not fail, a tick
    at time [t] removes every lease that expired by [t] and leaves its VM
    marked DELETING or gone, whatever flintlock answers; and the tick creates
    nothing: leases are only removed, VMs only removed or marked DELETING,
    pools, hosts and placements untouched.  The lease's VM is LEASED, no other
    VM carries its id, and its pool can be read. *)
Theorem Tick_ends_expired_leases s t id l v w :
  clean id (lr_vmUID l) (w_db w) -> leases (w_db w) !! id = Some l ->
  vms (w_db w) !! lr_vmUID l = Some v -> vr_phase v = phase_code LEASED ->
  is_Ok (Store.GetPool (lr_poolName l) (lr_poolNamespace l) (w_db w)).2 = true ->
  (lr_expiresAt l <= t)%Z -> (0 <= warningWindow s)%Z -> in_int64 t ->
  in_int64 (t + warningWindow s) ->
  wp false (Tick s t) (fun _ w' => winds_down (w_db w) (w_db w') /\
    leases (w_db w') !! id = None /\ ending (lr_vmUID l) (w_db w')) w.
Proof.
  intros C Hl Hv Hp Hpool He Hwin Ht Htw.
  assert (lr_leaseID l = id) as l_id by by apply (cl_leases _ _ _ C).
  assert (standing id l (w_db w)) as Hst.
  { split; [done|by left| |done]. intros r Hr. simplify_eq. by left. }
  apply wp_and; [by apply wp_wind; [apply wind_Tick|]|].
  change (wp false (Tick s t) (fun _ w' => over id l (w_db w')) w).
  unfold Tick. apply wp_bind. eapply wp_mono; [|exact (wp_retry_keeps id (lr_vmUID l) _ _
    (st_clean id l) (standing_same id l) (fun _ H => H) (standing_retired id l)
    (fun db u r Hd Hr _ => clean_fits _ _ db u r (st_clean id l db Hd) Hr) false s w Hst)].
  intros ? w1 Hst1. cbv beta in Hst1.
  apply wp_bind. eapply wp_mono; [|exact (wp_drain_keeps id (lr_vmUID l) _ _
    (st_clean id l) (standing_same id l) (fun _ H => H) (standing_retired id l)
    (standing_marks id l) false s w1 Hst1)].
  intros ? w2 Hst2. cbv beta in Hst2.
  apply wp_bind, wp_store.
  - intros t1 t1' db' ls w3 E Ew. unfold denote, ListExpiredLeases, query in E. injection E as <- <-.
    apply wp_bind. apply (wp_mono false _ (fun _ w' => over id l (w_db w'))); [done|].
    destruct (st_lease _ _ _ Hst2) as [Hl2|Ho2].
    + apply wp_sweep_over; rewrite ?Ew; try done.
      * apply list_elem_of_fmap_2. rewrite elem_of_sort_on, list_elem_of_filter, scan_leases_perm,
          elem_of_rows. split; [|by eexists]. rewrite UnixNano_id by done. lia.
      * apply Forall_fmap, Forall_forall. intros r Hr.
        rewrite elem_of_sort_on, list_elem_of_filter, scan_leases_perm, elem_of_rows in Hr.
        destruct Hr as [_ [k Hk]]. simpl. rewrite (cl_leases _ _ _ (st_clean _ _ _ Hst2) k r Hk).
        intros ->. congruence.
    + rewrite <- Ew in Ho2. apply wp_wind; [apply wind_sweep_leases|]. intros ? w4 W.
      by eapply over_down.
  - intros e w3 _ [(t1 & t1' & E)|[[=] _]]. done.
Qed.
End tick.

(** ** Witnesses *)

Definition sweeper0 : Sweeper := NewSweeper 0 0 ManagerNotifier.

Definition lease2_row : leaseRow := Build_leaseRow "lease-2" "vm-2" "web" "default" 100 100 500 (Some "req-2").
Definition vm2_row : vmRow :=
  Build_vmRow "vm-2" "web" "default" "host-a" (phase_code LEASED) (Some "lease-2") 100 100.

Lemma db0_clean : clean "lease-2" "vm-2" db0.
Proof.
  split; [apply wf_own_keys, db0_wf|intros k x Hx; apply (wf_leases _ db0_wf k x Hx)|].
  intros u r Hr. apply elem_of_map_to_list in Hr. vm_compute in Hr.
  repeat (apply elem_of_cons in Hr as [Hr|Hr]; [injection Hr as -> ->; simpl; auto|]).
  by apply not_elem_of_nil in Hr.
Qed.

(** At 300 the lease that expires at 500 is live; the tick warns about it. *)
Lemma Tick_spares_live_leases_witness :
  let out := run (Tick sweeper0 300) world0 in
  warned out.2 !! "lease-2" = Some 500%Z /\
  leases (w_db out.1) !! "lease-2" = Some lease2_row /\ vms (w_db out.1) !! "vm-2" = Some vm2_row.
Proof.
  cbv zeta. split; [vm_compute; reflexivity|].
  apply (wp_run (Tick sweeper0 300) (fun _ w' => leases (w_db w') !! "lease-2" = Some lease2_row /\
    vms (w_db w') !! "vm-2" = Some vm2_row) world0).
  apply (Tick_spares_live_leases true sweeper0 300 "lease-2" lease2_row vm2_row world0); [|reflexivity].
  split; [apply db0_clean|vm_compute; reflexivity..|].
  intros k x Hx _. apply elem_of_map_to_list in Hx. vm_compute in Hx.
  apply list_elem_of_singleton in Hx. by injection Hx as -> _.
Defined.

(** At 600 it is over: the tick ends it, and with flintlock's consent the VM. *)
Lemma Tick_ends_expired_leases_witness :
  wp false (Tick sweeper0 600) (fun _ w' => winds_down db0 (w_db w') /\
    leases (w_db w') !! "lease-2" = None /\ ending "vm-2" (w_db w')) world0 /\
  vms (w_db (run (Tick sweeper0 600) world0).1) !! "vm-2" = None.
Proof.
  split; [|vm_compute; reflexivity].
  apply (Tick_ends_expired_leases sweeper0 600 "lease-2" lease2_row vm2_row world0).
  - apply db0_clean.
  - vm_compute. reflexivity.
  - vm_compute. reflexivity.
  - reflexivity.
  - vm_compute. reflexivity.
  - vm_compute. discriminate.
  - vm_compute. discriminate.
  - split; vm_compute; discriminate.
  - split; vm_compute; discriminate.
Defined.
