(* ===== verification/EventsProps.v ===== *)
(** * Event delivery

    A subscriber reads the outbox in batches while the rest of the process goes
    on appending to it.  What it has been sent is at every moment a prefix of
    the events that match, in the order of their ids. *)

From stdpp Require Import base gmap strings list sorting.
From Stdlib Require Import ZArith Lia.
From S2P Require Import Prelude Types Convert Store StoreOps Concrete StoreProps.
From S2P Require Import Effects ConcreteEnv EventsApi Quiet.

(** ** One goroutine among others

    Like [wp], but before each effect the others may have changed the world as
    [R] allows. *)

Section rely.
Context `{Codec, Sqlite}.
Context (R : relation world).

Fixpoint wp_rely (faults : bool) {A : Set} (p : prog A) : (A -> world -> Prop) -> world -> Prop :=
  match p in prog A0 return (A0 -> world -> Prop) -> world -> Prop with
  | Ret x => fun Q w => forall w', R w w' -> Q x w'
  | Do e k => fun Q w => forall w1 x w2, R w w1 -> exec_eff faults e w1 x w2 -> wp_rely faults (k x) Q w2
  | Fork c k => fun Q w => wp_rely faults c (fun _ w' => wp_rely faults k Q w') w
  end.

Lemma wp_rely_mono faults {A : Set} (p : prog A) (Q Q' : A -> world -> Prop) w :
  (forall x w', Q x w' -> Q' x w') -> wp_rely faults p Q w -> wp_rely faults p Q' w.
Proof.
  revert Q Q' w. induction p as [A x|A X e k IH|A c IHc k IHk]; intros Q Q' w HQ; simpl.
  - eauto.
  - intros Hk w1 x w2 HR He. by eapply IH; [|eapply Hk].
  - apply IHc. intros [] w'. by apply IHk.
Qed.

Lemma wp_rely_bind faults {A B : Set} (p : prog A) (f : A -> prog B) Q w :
  Reflexive R ->
  wp_rely faults p (fun x w' => wp_rely faults (f x) Q w') w -> wp_rely faults (bind p f) Q w.
Proof.
  intros HR. revert w. induction p as [A x|A X e k IH|A c _ k IHk]; intros w; simpl.
  - intros Hx. by apply Hx.
  - intros Hk w1 x w2 Hw He. by apply IH, (Hk w1).
  - apply wp_rely_mono. intros [] w'. apply IHk.
Qed.

(** A goroutine alone is one of the cases. *)
Lemma wp_rely_wp faults {A : Set} (p : prog A) Q w :
  Reflexive R -> wp_rely faults p Q w -> wp faults p Q w.
Proof.
  intros HR. revert Q w. induction p as [A x|A X e k IH|A c IHc k IHk]; intros Q w; simpl.
  - auto.
  - intros Hk x w' He. apply IH. by eapply Hk.
  - intros Hc. apply IHc. eapply wp_rely_mono; [|exact Hc]. intros [] w'. apply IHk.
Qed.
End rely.

(** Others append events and send nothing on this stream. *)
Definition appends (w w' : world) : Prop :=
  w_log w' = w_log w /\
  (events_ok (events (w_db w)) (events_seq (w_db w)) ->
   events_ok (events (w_db w')) (events_seq (w_db w'))) /\
  events (w_db w) `prefix_of` events (w_db w').

#[export] Instance appends_preorder : PreOrder appends.
Proof.
  split; [done|]. intros a b c (L1 & O1 & P1) (L2 & O2 & P2).
  split_and!; [congruence|by auto|by etrans].
Qed.

(** ** The events that match *)

Definition matches (ref : option PoolRef) (r : eventRow) : Prop :=
  match ref with
  | None => True
  | Some p => er_poolName r = ref_name p /\ er_poolNamespace r = ref_namespace p
  end.
#[export] Instance matches_dec ref r : Decision (matches ref r).
Proof. unfold matches. destruct ref; apply _. Defined.

Definition matching (ref : option PoolRef) (w : world) : list eventRow :=
  filter (matches ref) (events (w_db w)).

Definition sent (rs : list eventRow) : list action := (fun r => Sent (rowToEvent r)) <$> rs.

Definition before (a b : eventRow) : Prop := (er_id a < er_id b)%Z.

Lemma matching_sorted ref w :
  events_ok (events (w_db w)) (events_seq (w_db w)) -> StronglySorted before (matching ref w).
Proof.
  intros (S & _). unfold matching. induction S as [|x l S IH Hx]; [constructor|].
  rewrite filter_cons. case_decide; [|done]. constructor; [done|].
  apply Forall_forall. intros y Hy. rewrite Forall_forall in Hx. apply Hx.
  by apply list_elem_of_filter in Hy as [_ Hy].
Qed.

Lemma before_distinct l a b :
  StronglySorted before l -> a ∈ l -> b ∈ l -> er_id a = er_id b -> a = b.
Proof.
  unfold before. induction 1 as [|x l S IH Hx]; [by intros ?%not_elem_of_nil|].
  rewrite Forall_forall in Hx.
  intros [->|Ha]%elem_of_cons [->|Hb]%elem_of_cons E; [done| | |by auto];
    [specialize (Hx b Hb)|specialize (Hx a Ha)]; lia.
Qed.

Lemma sort_on_sorted_id (l : list eventRow) : StronglySorted before l -> sort_on Z.le er_id l = l.
Proof.
  intros S. apply (StronglySorted_unique_strong (fun a b => er_id a <= er_id b)%Z).
  - intros a b Ha Hb Hab Hba. rewrite sort_on_perm in Ha. eapply before_distinct; [done..|]. lia.
  - apply sort_on_sorted; apply _.
  - induction S as [|x l S IH Hx]; constructor; [done|].
    eapply Forall_impl; [exact Hx|]. unfold before. lia.
  - apply sort_on_perm.
Qed.

Lemma filter_everything {A} (P : A -> Prop) `{forall x, Decision (P x)} l : Forall P l -> filter P l = l.
Proof. induction 1; [done|]. rewrite filter_cons_True by done. by f_equal. Qed.
Lemma filter_nothing {A} (P : A -> Prop) `{forall x, Decision (P x)} l :
  Forall (fun x => ~ P x) l -> filter P l = [].
Proof. induction 1; [done|]. by rewrite filter_cons_False. Qed.

(** ** The subscriber's invariant *)

(** [done] has been sent, the last of it [since]; [rest] is still to come.
    [base] is what matched at the start. *)
Record progress (ref : option PoolRef) (log : list action) (base done rest : list eventRow) (since : Z)
    (w : world) : Prop := {
  pg_ok : events_ok (events (w_db w)) (events_seq (w_db w));
  pg_split : matching ref w = done ++ rest;
  pg_log : w_log w = log ++ sent done;
  pg_base : base `prefix_of` done ++ rest;
  pg_since : since = match last done with Some e => er_id e | None => 0%Z end
}.

Lemma progress_appends ref log base done rest since w w' :
  progress ref log base done rest since w -> appends w w' ->
  exists new, progress ref log base done (rest ++ new) since w'.
Proof.
  intros [Ok Sp Lo Ba Si] (EL & EO & [new En]). exists (filter (matches ref) new).
  split; [by auto| |congruence| |done]; [|rewrite app_assoc; by apply prefix_app_r]. unfold matching in *. rewrite En, filter_app, Sp.
  by rewrite app_assoc.
Qed.

(** What is left is what has a larger id. *)
Lemma progress_filter ref log base done rest since w :
  progress ref log base done rest since w ->
  filter (fun r => er_id r > since)%Z (matching ref w) = rest.
Proof.
  intros [Ok Sp Lo Ba Si]. pose proof (matching_sorted ref w Ok) as S. rewrite Sp in *.
  assert (Forall (fun r => er_id r > since)%Z rest) as Hrest.
  { apply Forall_forall. intros r Hr. rewrite Si. destruct (last done) as [e|] eqn:El.
    - pose proof (StronglySorted_app_1_elem_of _ _ _ e r S (last_Some_elem_of _ _ El) Hr) as Hb.
      unfold before in Hb. lia.
    - destruct Ok as (_ & F & _). rewrite Forall_forall in F.
      assert (r ∈ matching ref w) as Hm by (rewrite Sp; apply elem_of_app; by right).
      unfold matching in Hm. apply list_elem_of_filter in Hm as [_ Hm]. specialize (F r Hm). lia. }
  assert (Forall (fun r => ~ (er_id r > since)%Z) done) as Hdone.
  { apply Forall_forall. intros r Hr. rewrite Si.
    destruct (last done) as [e|] eqn:El; [|apply last_None in El as ->; by apply not_elem_of_nil in Hr].
    apply last_Some in El as [d ->]. apply StronglySorted_app_1_l in S.
    apply elem_of_app in Hr as [Hr|Hr%list_elem_of_singleton]; [|subst; lia].
    pose proof (StronglySorted_app_1_elem_of _ _ _ r e S Hr ltac:(by left)) as Hb.
    unfold before in Hb. lia. }
  by rewrite filter_app, (filter_everything _ rest Hrest), (filter_nothing _ done Hdone).
Qed.

Section delivery.
Context `{Codec, Sqlite}.
Context (ref : option PoolRef) (log : list action) (base : list eventRow).

(** One query returns the next [batchSize] events. *)
Lemma listed_next s done rest since w now now' db' es :
  (0 < batchSize s)%Z -> progress ref log base done rest since w ->
  match ref with
  | None => denote now now' (OpListAllEventsSince since (batchSize s)) (w_db w) = (db', Ok es)
  | Some p => denote now now' (OpListEventsSince (ref_name p) (ref_namespace p) since (batchSize s))
      (w_db w) = (db', Ok es)
  end ->
  db' = w_db w /\ es = rowToEvent <$> take (Z.to_nat (batchSize s)) rest.
Proof.
  intros Hb Hp E. pose proof (progress_filter _ _ _ _ _ _ _ Hp) as Hf.
  assert (sort_on Z.le er_id rest = rest) as Hsort.
  { apply sort_on_sorted_id. pose proof (matching_sorted ref w (pg_ok _ _ _ _ _ _ _ Hp)) as S.
    rewrite (pg_split _ _ _ _ _ _ _ Hp) in S. by eapply StronglySorted_app_1_r. }
  unfold matching in Hf. rewrite list_filter_filter in Hf.
  unfold denote, ListEventsSince, ListAllEventsSince, query, limited in E.
  destruct ref as [p|]; injection E as <- <-; (split; [done|]); rewrite decide_False by lia;
    rewrite <- Hsort, <- Hf; do 3 f_equal; apply list_filter_iff; intros r; simpl; tauto.
Qed.

(** Sending a batch. *)
Lemma wp_send_batch faults es done rest since Q w :
  progress ref log base done (es ++ rest) since w ->
  (forall new since' w', progress ref log base (done ++ es) (rest ++ new) since' w' -> Q (Ok since') w') ->
  (forall c w', (exists done' rest' since', done `prefix_of` done' /\
     progress ref log base done' rest' since' w') -> Q (Err c) w') ->
  wp_rely appends faults (send_batch (rowToEvent <$> es) since) Q w.
Proof.
  revert done rest since w. induction es as [|e es IH]; intros done rest since w Hp Hok Herr.
  { simpl. intros w' Ha. destruct (progress_appends _ _ _ _ _ _ _ _ Hp Ha) as [new Hp'].
    apply (Hok new). rewrite app_nil_r. done. }
  cbn [fmap list_fmap send_batch]. apply wp_rely_bind; [apply _|].
  intros w1 x w2 Ha Hx w3 Ha3. simpl in Hx. subst w2.
  destruct (progress_appends _ _ _ _ _ _ _ _ Hp Ha) as [new Hp1].
  assert (progress ref log base (done ++ [e]) (es ++ rest ++ new) (er_id e)
    (logged [Sent (rowToEvent e)] w1)) as Hp2.
  { destruct Hp1 as [Ok Sp Lo Ba Si]. split; simpl; [done| | | |by rewrite last_snoc].
    - unfold matching in *. simpl. rewrite Sp. by rewrite <- !app_assoc.
    - rewrite Lo. unfold sent. by rewrite fmap_app, <- app_assoc.
    - by rewrite <- !app_assoc in Ba |- *. }
  destruct (progress_appends _ _ _ _ _ _ _ _ Hp2 Ha3) as [new3 Hp3].
  destruct x as [c|].
  - intros w4 Ha4. destruct (progress_appends _ _ _ _ _ _ _ _ Hp3 Ha4) as [new4 Hp4].
    apply Herr. eexists _, _, _. split; [|exact Hp4]. by exists [e].
  - apply (IH (done ++ [e]) (rest ++ new ++ new3)).
    + rewrite <- !app_assoc in Hp3. exact Hp3.
    + intros new' since' w' Hp'. rewrite <- !app_assoc in Hp'. simpl in Hp'.
      by apply (Hok (new ++ new3 ++ new')).
    + intros c w' (d & r & si & Hd & Hp'). apply Herr. exists d, r, si. split; [|done].
      etrans; [|done]. by exists [e].
Qed.

Lemma progress_length done rest since w :
  progress ref log base done rest since w -> length (matching ref w) = length done + length rest.
Proof. intros [_ E _ _ _]. by rewrite E, length_app. Qed.

(** One query, others appending before and after it. *)
Lemma wp_list faults s done rest since Q w :
  (0 < batchSize s)%Z -> progress ref log base done rest since w ->
  (forall new new' w', progress ref log base done ((rest ++ new) ++ new') since w' ->
     Q (Ok (rowToEvent <$> take (Z.to_nat (batchSize s)) (rest ++ new))) w') ->
  (forall e new w', progress ref log base done (rest ++ new) since w' -> Q (Err e) w') ->
  wp_rely appends faults (listEventsSince ref since (batchSize s)) Q w.
Proof.
  intros Hb Hp Hok Herr.
  assert (forall o : storeOp (list Event), (forall w1 new,
    progress ref log base done (rest ++ new) since w1 -> forall now now',
    denote now now' o (w_db w1) =
      (w_db w1, Ok (rowToEvent <$> take (Z.to_nat (batchSize s)) (rest ++ new)))) ->
    wp_rely appends faults (store o) Q w) as Hquery.
  { intros o Ho w1 x w2 Ha Hx w3 Ha3. destruct (progress_appends _ _ _ _ _ _ _ _ Hp Ha) as [new Hp1].
    assert (w_db w2 = w_db w1 /\ w_log w2 = w_log w1) as [Ed El].
    { destruct Hx as [(now & now' & _ & ->)|(_ & _ & ->)]; simpl; rewrite ?app_nil_r; [|done].
      by rewrite (Ho w1 new). }
    assert (progress ref log base done (rest ++ new) since w2) as Hp2.
    { destruct Hp1. split; unfold matching; rewrite ?Ed, ?El; done. }
    destruct (progress_appends _ _ _ _ _ _ _ _ Hp2 Ha3) as [new3 Hp3].
    destruct Hx as [(now & now' & -> & _)|(_ & (what & ->) & _)].
    - rewrite (Ho w1 new) by done. by eapply Hok.
    - rewrite <- app_assoc in Hp3. by eapply Herr. }
  unfold listEventsSince.
  destruct ref as [p|] eqn:Eref; apply Hquery; intros w1 new Hp1 now now';
    match goal with |- denote _ _ ?o _ = _ => destruct (denote now now' o (w_db w1)) as [db' [es|e]] eqn:E end;
    try (by unfold denote, ListEventsSince, ListAllEventsSince, query in E);
    destruct (listed_next s done (rest ++ new) since w1 now now' db' es Hb) as [-> ->];
    rewrite ?Eref; done.
Qed.

(** What a subscription leaves: a prefix sent, and after [rounds] rounds
    without an error at least [rounds] full batches, or all there was. *)
Definition delivered (s : EventsServer) (rounds : nat) (done0 : list eventRow) (total : nat)
    (out : option code * Z) (w' : world) : Prop :=
  exists done rest since, done0 `prefix_of` done /\ progress ref log base done rest since w' /\
    (out.1 = None -> total `min` (length done0 + rounds * Z.to_nat (batchSize s)) <= length done).

Lemma wp_subscribe faults s rounds done rest since w :
  (0 < batchSize s)%Z -> progress ref log base done rest since w ->
  wp_rely appends faults (subscribe s ref since rounds)
    (delivered s rounds done (length (matching ref w))) w.
Proof.
  intros Hb. revert done rest since w. induction rounds as [|n IH]; intros done rest since w Hp.
  { intros w' Ha. destruct (progress_appends _ _ _ _ _ _ _ _ Hp Ha) as [new Hp'].
    eexists _, _, _. split; [done|]. split; [exact Hp'|]. intros _. lia. }
  cbn [subscribe]. apply wp_rely_bind; [apply _|].
  pose proof (progress_length _ _ _ _ Hp) as Hlen. apply (wp_list faults s done rest since); [done..| |].
  - intros new new' w1 Hp1. apply wp_rely_bind; [apply _|].
    set (b := Z.to_nat (batchSize s)) in *. set (es := take b (rest ++ new)).
    assert (Hes : length es = b `min` (length rest + length new))
      by (unfold es; by rewrite length_take, length_app).
    rewrite <- (take_drop b (rest ++ new)), <- app_assoc in Hp1. fold es in Hp1.
    eapply wp_send_batch; [exact Hp1|..].
    + intros new2 since' w2 Hp2. eapply wp_rely_mono; [|exact (IH _ _ _ _ Hp2)].
      intros out w3 (d & r & si & Hpre & Hp3 & Hmin). exists d, r, si.
      split; [etrans; [|done]; by exists es|]. split; [done|]. intros Eo. specialize (Hmin Eo).
      rewrite (progress_length _ _ _ _ Hp2) in Hmin. rewrite !length_app in Hmin. fold b in Hmin |- *.
      rewrite length_drop, length_app in Hmin. lia.
    + intros c w2 (d & r & si & Hpre & Hp2) w3 Ha.
      destruct (progress_appends _ _ _ _ _ _ _ _ Hp2 Ha) as [new3 Hp3]. by exists d, (r ++ new3), si.
  - intros e new w1 Hp1 w2 Ha. destruct (progress_appends _ _ _ _ _ _ _ _ Hp1 Ha) as [new2 Hp2].
    by exists done, ((rest ++ new) ++ new2), since.
Qed.
End delivery.

Lemma wp_rely_subscribe `{Codec, Sqlite} faults s ref rounds w :
  (0 < batchSize s)%Z -> events_ok (events (w_db w)) (events_seq (w_db w)) ->
  wp_rely appends faults (subscribe s ref 0 rounds) (fun out w' => exists done rest,
    matching ref w' = done ++ rest /\ w_log w' = w_log w ++ sent done /\
    (out.1 = None -> length (matching ref w) <= rounds * Z.to_nat (batchSize s) ->
     matching ref w `prefix_of` done)) w.
Proof.
  intros Hb Hok. assert (progress ref (w_log w) (matching ref w) [] (matching ref w) 0 w) as Hp.
  { split; [done..| |done|done]. simpl. by rewrite app_nil_r. }
  eapply wp_rely_mono; [|exact (wp_subscribe ref (w_log w) (matching ref w) faults s rounds _ _ _ w Hb Hp)].
  intros out w' (done & rest & since & _ & [_ Sp Lo Ba _] & Hmin). exists done, rest.
  split_and!; [done..|]. intros Eo Hlen. specialize (Hmin Eo). simpl in Hmin.
  destruct (prefix_weak_total (matching ref w) done (done ++ rest)) as [Hpre|Hpre];
    [done|by apply prefix_app_r|done|]. apply prefix_length_eq in Hpre as ->; [done|]. lia.
Qed.

(** C25: Subscribe delivers every matching event once and in order.  While the
    rest of the process goes on appending events, what the subscriber has
    been sent is a prefix of the events in the outbox that match its pool, in
    the order of their ids: none twice, none skipped, none out of order.  And
    it gets on: after as many rounds without an error as it takes to cover
    the events that matched at the start, all of those have been sent. *)
Theorem Subscribe_in_order `{Codec, Sqlite} faults s ref rounds w :
  (0 < batchSize s)%Z -> events_ok (events (w_db w)) (events_seq (w_db w)) ->
  wp_rely appends faults (subscribe s ref 0 rounds) (fun out w' => exists done rest,
    matching ref w' = done ++ rest /\ w_log w' = w_log w ++ sent done /\
    (out.1 = None -> length (matching ref w) <= rounds * Z.to_nat (batchSize s) ->
     matching ref w `prefix_of` done)) w.
Proof. apply wp_rely_subscribe. Qed.

(** Three events, two of them of the pool, delivered in batches of one. *)
Definition event0 (pool uid : string) : Event :=
  {| event_id := 0; event_pool_name := pool; event_vm_uid := uid; event_type := VM_DELETED_ON_RELEASE;
     event_created_at := Some 5%Z; event_payload_json := ""; event_pool_namespace := "default" |}.

Definition outbox0 : world :=
  {| w_db := ((AppendEvent (event0 "web" "vm-1");; AppendEvent (event0 "db" "vm-9");;
               AppendEvent (event0 "web" "vm-2")) db0).1;
     w_locks := no_locks; w_flint := w_flint world0; w_tick := 0; w_log := [] |}.

Definition web_ref : option PoolRef := Some {| ref_name := "web"; ref_namespace := "default" |}.

Lemma Subscribe_in_order_witness :
  let out := run (subscribe (NewEventsServer 0 1) web_ref 0 3) outbox0 in
  length (w_log out.1) = 2 /\
  exists done rest, matching web_ref out.1 = done ++ rest /\ w_log out.1 = sent done /\
    (out.2.1 = None -> length (matching web_ref outbox0) <= 3 * 1 ->
     matching web_ref outbox0 `prefix_of` done).
Proof.
  cbv zeta. split; [vm_compute; reflexivity|].
  apply (wp_run (subscribe (NewEventsServer 0 1) web_ref 0 3) (fun out w' => exists done rest,
    matching web_ref w' = done ++ rest /\ w_log w' = sent done /\
    (out.1 = None -> length (matching web_ref outbox0) <= 3 * 1 ->
     matching web_ref outbox0 `prefix_of` done)) outbox0).
  apply (wp_rely_wp appends); [apply _|].
  apply (Subscribe_in_order true (NewEventsServer 0 1) web_ref 3 outbox0); [reflexivity|].
  split_and!; vm_compute; repeat constructor; discriminate.
Defined.
