(* ===== verification/HostProps.v ===== *)
(** * Hosts and their connections

    The HostAdmin handlers keep the client pool in step with the registry: a
    connection is dialled, checked, recorded and installed, or closed again. *)

From stdpp Require Import base gmap strings list.
From Stdlib Require Import ZArith Lia.
From S2P Require Import Prelude Types Convert Store StoreOps Concrete StoreProps.
From S2P Require Import Effects Flintlock ConcreteEnv Deletion Strategy Provision.
From S2P Require Import Reconciler PoolAdmin HostAdmin Quiet.

(** ** The pool's memory *)

(** The pool's connections are open and filed under their own name, and every
    open connection is in the pool: none leaks. *)
Record flint_ok (f : flintPool) : Prop := {
  fo_hosts n c : fl_hosts f !! n = Some c ->
    exists conn, fl_conns f !! c = Some conn /\ conn_name conn = n /\ conn_closed conn = false;
  fo_open c conn : fl_conns f !! c = Some conn -> conn_closed conn = false ->
    fl_hosts f !! conn_name conn = Some c
}.

Definition closed (c : connRef) (f : flintPool) : flintPool :=
  {| fl_hosts := fl_hosts f; fl_conns := alter set_closed c (fl_conns f) |}.

(** A connection the handler has dialled and not yet installed. *)
Record holding (c : connRef) (conn : Conn) (f : flintPool) : Prop := {
  ho_conn : fl_conns f !! c = Some conn;
  ho_open : conn_closed conn = false;
  ho_rest : flint_ok (closed c f)
}.

Lemma closed_hosts c f n : flint_ok (closed c f) -> fl_hosts f !! n <> Some c.
Proof.
  intros Hf E. destruct (fo_hosts _ Hf n c E) as (conn & Hc & _ & Ho). simpl in Hc.
  rewrite lookup_alter_eq in Hc. apply fmap_Some in Hc as (x & _ & ->). done.
Qed.

(** Dialling. *)
Lemma holding_new n a f :
  flint_ok f ->
  let c := (flint_exec (FlNew n a) f).2 in let f' := (flint_exec (FlNew n a) f).1 in
  fl_hosts f' = fl_hosts f /\
  holding c {| conn_name := n; conn_address := a; conn_version := ""; conn_versionOK := false;
               conn_closed := false |} f'.
Proof.
  intros Hf. simpl. set (c := fresh (dom (fl_conns f))).
  assert (fl_conns f !! c = None) as Hc by (apply not_elem_of_dom, is_fresh).
  split; [done|]. split; simpl; [apply lookup_insert_eq|done|]. split; simpl.
  - intros m d Hd. destruct (fo_hosts _ Hf m d Hd) as (conn & Hconn & Hm & Ho).
    exists conn. rewrite lookup_alter_ne, lookup_insert_ne by congruence. done.
  - intros d conn. destruct (decide (d = c)) as [->|Hd].
    + rewrite lookup_alter_eq, lookup_insert_eq. by intros [= <-].
    + rewrite lookup_alter_ne, lookup_insert_ne by done. apply Hf.
Qed.

(** Recording the version. *)
Lemma holding_version c conn f v ok :
  holding c conn f -> holding c (set_version v ok conn) (flint_exec (FlSetVersion c v ok) f).1.
Proof.
  intros [Hc Ho Hr]. split; simpl; [by rewrite lookup_alter_eq, Hc|done|].
  assert (forall m : gmap connRef Conn, alter set_closed c (alter (set_version v ok) c m)
    = alter (set_version v ok) c (alter set_closed c m)) as E.
  { intros m. apply map_eq. intros i. destruct (decide (i = c)) as [->|Hi].
    - rewrite !lookup_alter_eq. by destruct (m !! c).
    - by rewrite !lookup_alter_ne. }
  unfold closed. simpl. rewrite E. split; simpl.
  - intros n d Hd. destruct (fo_hosts _ Hr n d Hd) as (x & Hx & Hn & Hx'). simpl in Hx.
    exists x. rewrite lookup_alter_ne; [done|]. intros ->. by apply (closed_hosts d f n).
  - intros d x Hx Hx'. destruct (decide (d = c)) as [->|Hd].
    + rewrite !lookup_alter_eq, Hc in Hx. by injection Hx as <-.
    + rewrite lookup_alter_ne in Hx by done. by apply (fo_open _ Hr).
Qed.

(** Installing. *)
Lemma holding_add c conn f :
  holding c conn f -> fl_hosts f !! conn_name conn = None ->
  flint_ok {| fl_hosts := <[conn_name conn := c]> (fl_hosts f); fl_conns := fl_conns f |}.
Proof.
  intros [Hc Ho Hr] Hn. split; simpl.
  - intros n d [[<- <-]|[Hne Hd]]%lookup_insert_Some; [by exists conn|].
    destruct (fo_hosts _ Hr n d Hd) as (x & Hx & Hxn & Hx'). simpl in Hx.
    exists x. rewrite lookup_alter_ne in Hx; [done|]. intros ->. by apply (closed_hosts d f n).
  - intros d x Hx Hx'. destruct (decide (d = c)) as [->|Hd].
    + rewrite Hc in Hx. injection Hx as <-. apply lookup_insert_eq.
    + pose proof (fo_open _ Hr d x) as Hd'. simpl in Hd'. rewrite lookup_alter_ne in Hd' by done.
      rewrite lookup_insert_ne; [by auto|]. intros E. specialize (Hd' Hx Hx'). congruence.
Qed.

Lemma holding_swap c conn f old :
  holding c conn f -> fl_hosts f !! conn_name conn = Some old ->
  flint_ok (closed old {| fl_hosts := <[conn_name conn := c]> (fl_hosts f); fl_conns := fl_conns f |}).
Proof.
  intros [Hc Ho Hr] Hn.
  assert (old <> c) as Hne by (intros ->; by apply (closed_hosts c f (conn_name conn))). split; simpl.
  - intros n d [[<- <-]|[Hnn Hd]]%lookup_insert_Some.
    { exists conn. by rewrite lookup_alter_ne. }
    destruct (fo_hosts _ Hr n d Hd) as (x & Hx & Hxn & Hx'). simpl in Hx.
    assert (d <> c) by (intros ->; by apply (closed_hosts c f n)). rewrite lookup_alter_ne in Hx by done.
    exists x. rewrite lookup_alter_ne; [done|]. intros <-.
    destruct (fo_hosts _ Hr _ _ Hn) as (y & Hy & Hyn & _). simpl in Hy.
    rewrite lookup_alter_ne in Hy by done. congruence.
  - intros d x Hx Hx'. destruct (decide (d = old)) as [->|Hd].
    { rewrite lookup_alter_eq in Hx. apply fmap_Some in Hx as (y & _ & ->). done. }
    rewrite lookup_alter_ne in Hx by done. destruct (decide (d = c)) as [->|Hdc].
    + rewrite Hc in Hx. injection Hx as <-. apply lookup_insert_eq.
    + pose proof (fo_open _ Hr d x) as Hd'. simpl in Hd'. rewrite lookup_alter_ne in Hd' by done.
      specialize (Hd' Hx Hx'). rewrite lookup_insert_ne; [done|]. intros E. congruence.
Qed.

(** ** The handlers' steps *)

Section steps.
Context `{Codec, Sqlite, Semver}.

(** Nothing of the registry or the pool changed. *)
Record unmoved (w w' : world) : Prop := {
  un_db : same_core (w_db w) (w_db w');
  un_hosts : fl_hosts (w_flint w') = fl_hosts (w_flint w)
}.
#[local] Instance unmoved_preorder : PreOrder unmoved.
Proof. split; [done|]. intros a b c [] []. split; [by etrans|congruence]. Qed.

Lemma wp_flint faults {X : Set} (o : flintOp X) (Q : X -> world -> Prop) w :
  Q (flint_exec o (w_flint w)).2 (set_flint (flint_exec o (w_flint w)).1 w) ->
  wp faults (do (EFlint o)) Q w.
Proof. by intros HQ x w' [-> ->]. Qed.

(** A store call leaves the pool alone. *)
Lemma wp_store_flint faults {A : Set} (o : storeOp A) (Q : result StoreError A -> world -> Prop) w :
  (forall now now' db' x w', denote now now' o (w_db w) = (db', Ok x) -> w_db w' = db' ->
     w_flint w' = w_flint w -> Q (Ok x) w') ->
  (forall e w', w_db w' = w_db w -> w_flint w' = w_flint w -> Q (Err e) w') ->
  wp faults (store o) Q w.
Proof.
  intros Hok Herr x w' [(now & now' & -> & ->)|(-> & (what & ->) & ->)]; [|by apply Herr].
  destruct (denote now now' o (w_db w)) as [db' [x|e]] eqn:E; simpl; [by eapply Hok|].
  pose proof (failed_op_keeps_db _ _ _ _ _ _ E) as ->. by apply Herr.
Qed.

Lemma unmoved_flint f w : fl_hosts f = fl_hosts (w_flint w) -> unmoved w (set_flint f w).
Proof. by split. Qed.
Lemma unmoved_logged l w : unmoved w (logged l w).
Proof. by split. Qed.

Lemma wp_Dial faults h (Q : result error connRef -> world -> Prop) w :
  flint_ok (w_flint w) ->
  (forall e w', unmoved w w' -> flint_ok (w_flint w') -> Q (Err e) w') ->
  (forall c conn w', unmoved w w' -> holding c conn (w_flint w') -> conn_name conn = host_name h ->
     conn_address conn = host_address h -> conn_versionOK conn = false -> Q (Ok c) w') ->
  wp faults (Dial (Some h)) Q w.
Proof.
  intros Hf Herr Hok. unfold Dial. destruct (validateHost (Some h)); [by apply Herr|].
  apply wp_bind. unfold dialCredentials.
  assert (forall w1, unmoved w w1 -> w_flint w1 = w_flint w ->
    wp faults (let! ok := do (ENewClient (host_address h)) in
      if ok : bool then let! c := do (EFlint (FlNew (host_name h) (host_address h))) in Ret (Ok c)
      else Ret (Err (ErrPlain "dial"))) Q w1) as Hnew.
  { intros w1 Hu Ef. apply wp_bind. intros ok w2 E2. simpl in E2. subst w2.
    assert (unmoved w (logged [] w1)) as Hu2 by (etrans; [done|apply unmoved_logged]).
    destruct ok; [|apply Herr; [done|simpl; by rewrite Ef]].
    apply wp_bind, wp_flint. cbn [wp].
    destruct (holding_new (host_name h) (host_address h) (w_flint w1)) as [Eh Hh]; [by rewrite Ef|].
    eapply Hok; [|exact Hh|done..]. etrans; [done|]. by apply unmoved_flint. }
  destruct (tls_insecure (GetTls h)); [by apply Hnew|].
  apply wp_bind. intros ok w1 E. simpl in E. subst w1. cbn [wp].
  destruct ok; [apply Hnew; [apply unmoved_logged|done]|]. apply Herr; [apply unmoved_logged|done].
Qed.

Lemma wp_Conn_Close faults c conn (Q : option error -> world -> Prop) w :
  holding c conn (w_flint w) ->
  (forall e w', unmoved w w' -> flint_ok (w_flint w') -> Q e w') ->
  wp faults (Conn_Close c) Q w.
Proof.
  intros [_ _ Hr] HQ. unfold Conn_Close. apply wp_bind, wp_flint. cbn [wp].
  apply HQ; [by apply unmoved_flint|exact Hr].
Qed.

(** The version gate, on a new connection. *)
Lemma wp_CheckVersion faults c conn (Q : option error -> world -> Prop) w :
  holding c conn (w_flint w) -> conn_versionOK conn = false ->
  (forall e conn' w', unmoved w w' -> holding c conn' (w_flint w') ->
     conn_name conn' = conn_name conn -> conn_address conn' = conn_address conn ->
     (e = None -> exists v core, conn_version conn' = v /\ conn_versionOK conn' = true /\
        versionCore v = Some core /\ (0 <= semver_compare core MinFlintlockVersion)%Z) -> Q e w') ->
  wp faults (Conn_CheckVersion c) Q w.
Proof.
  intros Hh Hv HQ. unfold Conn_CheckVersion. apply wp_bind, wp_flint.
  assert (deref c (w_flint w) = conn) as Hd by (unfold deref; by rewrite (ho_conn _ _ _ Hh)).
  cbn [flint_exec fst snd]. rewrite Hd, Hv.
  apply wp_bind. intros resp w1 E. simpl in E. subst w1.
  set (w1 := logged _ _). assert (unmoved w w1) as Hu1 by by split.
  assert (holding c conn (w_flint w1)) as Hh1 by exact Hh.
  destruct resp as [version|e]; [|destruct e; cbn [wp]; by eapply HQ].
  assert (forall ok e, (e = None -> ok = true /\ exists core, versionCore version = Some core /\
      (0 <= semver_compare core MinFlintlockVersion)%Z) ->
    Q e (set_flint {| fl_hosts := fl_hosts (w_flint w1);
      fl_conns := alter (set_version version ok) c (fl_conns (w_flint w1)) |} w1)) as Hend.
  { intros ok e He. eapply HQ; [|exact (holding_version c conn (w_flint w1) version ok Hh1)|done|done|].
    - etrans; [done|]. by apply unmoved_flint.
    - intros E. destruct (He E) as (-> & core & Hc). by exists version, core. }
  cbn [wp]. cbv zeta. destruct (versionCore version) as [core|];
    [case_bool_decide as Hle|]; apply wp_bind, wp_flint; cbn [flint_exec fst snd wp]; apply Hend;
    [|done|done]. intros _. split; [done|]. by exists core.
Qed.

Lemma wp_install faults c conn (Q : option error -> world -> Prop) w :
  holding c conn (w_flint w) ->
  (forall w', w_db w' = w_db w -> flint_ok (w_flint w') ->
     fl_hosts (w_flint w') = <[conn_name conn := c]> (fl_hosts (w_flint w)) ->
     fl_conns (w_flint w') !! c = Some conn -> Q None w') ->
  wp faults (install c) Q w.
Proof.
  intros Hh HQ. unfold install, Pool_Update. apply wp_bind, wp_bind, wp_flint.
  assert (deref c (w_flint w) = conn) as Hd by (unfold deref; by rewrite (ho_conn _ _ _ Hh)).
  cbn [flint_exec]. rewrite Hd. destruct (fl_hosts (w_flint w) !! conn_name conn) as [old|] eqn:Eo.
  - cbn [fst snd]. unfold Conn_Close. apply wp_bind, wp_bind, wp_flint. cbn [flint_exec fst snd wp].
    pose proof (holding_swap c conn (w_flint w) old Hh Eo) as Hs.
    assert (fl_conns (closed old (w_flint w)) !! c = Some conn) as Hc.
    { simpl. rewrite lookup_alter_ne; [apply Hh|]. intros ->. by eapply (closed_hosts c), Eo; apply Hh. }
    match goal with |- context [negb ?b] => destruct b end; cbn [negb wp]; by apply HQ.
  - cbn [fst snd wp]. unfold Pool_Add. apply wp_bind, wp_flint. cbn [flint_exec set_flint w_flint].
    rewrite Hd, Eo. cbn [fst snd wp]. apply HQ; [done|by apply holding_add|done|apply Hh].
Qed.

(** The connection's version passed the gate, unless validation was skipped. *)
Definition gate (skip : bool) (conn : Conn) : Prop :=
  skip = true \/ exists core, versionCore (conn_version conn) = Some core /\
    (0 <= semver_compare core MinFlintlockVersion)%Z.

Lemma wp_dialHost faults h skip (Q : result code connRef -> world -> Prop) w :
  flint_ok (w_flint w) ->
  (forall e w', unmoved w w' -> flint_ok (w_flint w') -> Q (Err e) w') ->
  (forall c conn w', unmoved w w' -> holding c conn (w_flint w') -> conn_name conn = host_name h ->
     conn_address conn = host_address h -> gate skip conn -> Q (Ok c) w') ->
  wp faults (dialHost h skip) Q w.
Proof.
  intros Hf Herr Hok. unfold dialHost. apply wp_bind, wp_Dial; [done|..].
  - intros e w1 Hu Hf1. destruct e; cbn [wp]; by apply Herr.
  - intros c conn w1 Hu Hh Hn Ha Hv. destruct skip; [cbn [wp]; eapply Hok; [done..|by left]|].
    apply wp_bind, (wp_CheckVersion faults c conn); [done..|].
    intros e conn' w2 Hu2 Hh2 Hn2 Ha2 Hg. destruct e as [e|].
    + apply wp_bind, (wp_Conn_Close faults c conn'); [done|]. intros e' w3 Hu3 Hf3. cbn [wp].
      apply Herr; [|done]. by do 2 (etrans; [done|]).
    + cbn [wp]. destruct (Hg eq_refl) as (v & core & <- & _ & Hc & Hle).
      eapply Hok; [by etrans|done|congruence..|]. right. eauto.
Qed.

(** The host is in the pool, on an open connection to its address. *)
Definition connected (skip : bool) (h : Host) (f : flintPool) : Prop :=
  exists c conn, fl_hosts f !! host_name h = Some c /\ fl_conns f !! c = Some conn /\
    conn_closed conn = false /\ conn_address conn = host_address h /\ gate skip conn.

(** Installing after the registry was written. *)
Lemma wp_installed faults h skip c conn (ok : Host) (Q : result code Host -> world -> Prop) w :
  holding c conn (w_flint w) -> conn_name conn = host_name h -> conn_address conn = host_address h ->
  gate skip conn ->
  (forall w', w_db w' = w_db w -> flint_ok (w_flint w') -> connected skip h (w_flint w') ->
     (forall n, n <> host_name h -> fl_hosts (w_flint w') !! n = fl_hosts (w_flint w) !! n) ->
     Q (Ok ok) w') ->
  wp faults (let! err := install c in
    match err with
    | Some _ => then! Conn_Close c in Ret (Err Internal)
    | None => Ret (Ok ok)
    end) Q w.
Proof.
  intros Hh Hn Ha Hg HQ. apply wp_bind, (wp_install faults c conn); [done|].
  intros w' Ew Hf Eh Hc. cbn [wp]. rewrite Hn in Eh. apply HQ; [done..| |].
  - exists c, conn. rewrite Eh, lookup_insert_eq. split_and!; try done. apply Hh.
  - intros n Hne. by rewrite Eh, lookup_insert_ne.
Qed.

Lemma wp_locked faults {A : Set} m (body : prog A) (Q : A -> world -> Prop) w :
  (forall w1, w_db w1 = w_db w -> w_flint w1 = w_flint w ->
     wp faults body (fun x w2 => forall w3, w_db w3 = w_db w2 -> w_flint w3 = w_flint w2 -> Q x w3) w1) ->
  wp faults (locked m body) Q w.
Proof.
  intros Hb. unfold locked. apply wp_bind. intros x w1 ->. cbn [wp]. apply wp_bind.
  eapply wp_mono; [|by apply Hb]. intros y w2 HQ. apply wp_bind. intros [] w3 ->. cbn [wp].
  by apply HQ.
Qed.

Lemma CreateHost_cases h db :
  match Store.CreateHost h db with
  | (db', Ok _) => exists row, hostToRow h = Ok row /\ hosts db !! host_name h = None /\
      db' = set_hosts (<[host_name h := row]> (hosts db)) db
  | (db', Err e) => db' = db
  end.
Proof.
  unfold Store.CreateHost, hostToRow. store_simpl.
  destruct (host_updated_at h); simpl; [|done].
  destruct (hosts db !! host_name h) eqn:E; [done|]. by eexists.
Qed.

(** What a write of host [h]'s row leaves. *)
Record host_written (skip : bool) (h : Host) (row : hostRow) (w w' : world) : Prop := {
  hw_hosts : hosts (w_db w') = <[host_name h := row]> (hosts (w_db w));
  hw_pools : pools (w_db w') = pools (w_db w);
  hw_vms : vms (w_db w') = vms (w_db w);
  hw_leases : leases (w_db w') = leases (w_db w);
  hw_placements : placements (w_db w') = placements (w_db w);
  hw_connected : connected skip h (w_flint w');
  hw_others n : n <> host_name h -> fl_hosts (w_flint w') !! n = fl_hosts (w_flint w) !! n
}.

Lemma wp_add_dialled faults h skip w :
  flint_ok (w_flint w) ->
  wp faults (add_dialled h skip) (fun r w' => flint_ok (w_flint w') /\
    match r with
    | Ok h' => exists row, h' = h /\ hostToRow h = Ok row /\ hosts (w_db w) !! host_name h = None /\
        host_written skip h row w w'
    | Err _ => unmoved w w'
    end) w.
Proof.
  intros Hf. unfold add_dialled. apply wp_bind, wp_dialHost; [done|intros e w1 Hu Hf1; by split|].
  intros c conn w1 Hu Hh Hn Ha Hg. apply wp_bind, wp_store_flint.
  - intros t t' db' [] w2 E Ew Ef. pose proof (CreateHost_cases h (w_db w1)) as Hc. unfold denote in E.
    rewrite E in Hc. destruct Hc as (row & Hrow & Hnone & Hdb). rewrite <- Ef in Hh.
    eapply (wp_installed faults h skip c conn); [done..|]. intros w3 Ew3 Hf3 Hc Ho. split; [done|].
    exists row. destruct (un_db _ _ Hu) as [Ep Ev El Eh Epl]. rewrite Eh in Hnone.
    split_and!; try done.
    split; [..|done|]; rewrite ?Ew3, ?Ew, ?Hdb; simpl; rewrite ?Ep, ?Ev, ?El, ?Eh, ?Epl; try done.
    intros n Hne. rewrite Ho by done. rewrite Ef. by rewrite (un_hosts _ _ Hu).
  - intros e w2 Ew Ef. rewrite <- Ef in Hh. apply wp_bind, (wp_Conn_Close faults c conn); [done|].
    intros e' w3 Hu3 Hf3. cbn [wp]. split; [done|]. etrans; [done|]. etrans; [|done].
    split; [by rewrite Ew|by rewrite Ef].
Qed.

Lemma wp_AddHost faults h skip w :
  flint_ok (w_flint w) ->
  wp faults (AddHost h skip) (fun r w' => flint_ok (w_flint w') /\
    match r with
    | Ok h' => exists t row, h' = added_host h t /\ hostToRow h' = Ok row /\
        hosts (w_db w) !! host_name h = None /\ host_written skip h row w w'
    | Err _ => unmoved w w'
    end) w.
Proof.
  intros Hf. unfold AddHost. apply wp_bind. intros t w1 ->. cbn [wp].
  case_decide; [done|]. apply wp_locked. intros w1 Ed Ef. cbn [logged w_db w_flint] in Ed, Ef.
  unfold AddHost_body. apply wp_bind, wp_store_flint.
  { intros t1 t1' db' old w2 E Ew2 Ef2 w3 Ew3 Ef3. unfold denote in E.
    assert (db' = w_db w1) as Edb by (revert E; unfold Store.GetHost; store_simpl;
      destruct (hosts (w_db w1) !! _); naive_solver).
    split; [congruence|]. split; [by rewrite Ew3, Ew2, Edb, Ed|congruence]. }
  intros e w2 Ew2 Ef2.
  assert (forall w3, w_db w3 = w_db w2 -> w_flint w3 = w_flint w2 ->
    flint_ok (w_flint w3) /\ unmoved w w3) as Hfail.
  { intros w3 Ew3 Ef3. split; [congruence|]. split; [by rewrite Ew3, Ew2, Ed|congruence]. }
  destruct e; try (intros w3 Ew3 Ef3; by apply Hfail).
  eapply wp_mono; [|apply wp_add_dialled; congruence]. intros r w3 [Hf3 Hr] w4 Ew4 Ef4.
  split; [congruence|]. destruct r as [h'|c].
  - destruct Hr as (row & -> & Hrow & Hnone & [Hh Hp Hv Hl Hpl Hc Ho]). exists t, row.
    change (host_name (added_host h t)) with (host_name h) in *.
    split_and!; try done; [by rewrite Ew2, Ed in Hnone|].
    split; rewrite ?Ew4, ?Ef4; try congruence.
    + exact Hc.
    + intros n Hn. rewrite Ho by done. congruence.
  - destruct Hr as [Hs Eh]. split; [rewrite Ew4, <- Ed, <- Ew2; done|congruence].
Qed.

(** C31: AddHost, whatever the host answers and whichever store calls fail.  When
    it succeeds, the name was free, the registry has exactly one row more, the
    request's with the cordon and drain fields cleared, and the client pool
    has an open connection to its address, to a flintlock that passed the
    version gate unless validation was skipped; every other host keeps its
    connection.  When it fails, neither the registry nor the pool changed.
    Either way no connection leaks: every open one is in the pool. *)
Theorem AddHost_spec faults h skip w :
  flint_ok (w_flint w) ->
  wp faults (AddHost h skip) (fun r w' => flint_ok (w_flint w') /\
    match r with
    | Ok h' => exists t row, h' = added_host h t /\ hostToRow h' = Ok row /\
        hosts (w_db w) !! host_name h = None /\ host_written skip h row w w'
    | Err _ => unmoved w w'
    end) w.
Proof. apply wp_AddHost. Qed.

Lemma update_host_cases t h db :
  match update_host t h db with
  | (db', Ok _) => exists old, hosts db !! host_name h = Some old /\
      db' = set_hosts (<[host_name h := update_host_row t h old]> (hosts db)) db
  | (db', Err e) => True
  end.
Proof.
  unfold update_host. store_simpl.
  destruct (hosts db !! host_name h) as [old|] eqn:E; simpl; [|done].
  exists old. split; [done|]. f_equal. apply map_eq. intros i. destruct (decide (i = host_name h)) as [->|Hi].
  - by rewrite lookup_alter_eq, lookup_insert_eq, E.
  - by rewrite lookup_alter_ne, lookup_insert_ne.
Qed.

(** The store's UpdateHost writes the row and reads it back, fails before the
    write, or fails after it. *)
Lemma wp_Store_UpdateHost faults h (Q : result StoreError Host -> world -> Prop) w :
  let wrote t old w' := hosts (w_db w) !! host_name h = Some old /\
    w_db w' = set_hosts (<[host_name h := update_host_row t h old]> (hosts (w_db w))) (w_db w) /\
    w_flint w' = w_flint w in
  (forall t old w', wrote t old w' -> Q (Ok (rowToHost (update_host_row t h old))) w') ->
  (forall e w', w_db w' = w_db w -> w_flint w' = w_flint w -> Q (Err e) w') ->
  (faults = true -> forall what t old w', wrote t old w' -> Q (Err (ErrOther what)) w') ->
  wp faults (Effects.UpdateHost h) Q w.
Proof.
  intros wrote Hok Herr Hhalf. unfold Effects.UpdateHost. apply wp_bind, wp_store_flint; [|exact Herr].
  intros t t' db' [] w1 E Ew Ef. pose proof (update_host_cases t h (w_db w)) as Hc.
  unfold denote in E. rewrite E in Hc. destruct Hc as (old & Hold & ->).
  intros x w2 [(t2 & t2' & -> & ->)|(-> & (what & ->) & ->)]; cbn [wp].
  - unfold denote, Store.GetHost. store_simpl. rewrite Ew. simpl. rewrite lookup_insert_eq. simpl.
    by apply Hok.
  - by eapply Hhalf.
Qed.

(** The registry has [row] for the host and nothing else moved: the pool still
    has its old connection. *)
Definition row_only (h : Host) (row : hostRow) (w w' : world) : Prop :=
  unmoved (set_db (set_hosts (<[host_name h := row]> (hosts (w_db w))) (w_db w)) w) w'.

Lemma wp_update_body faults h skip w :
  flint_ok (w_flint w) ->
  wp faults (UpdateHost_body h skip) (fun r w' => flint_ok (w_flint w') /\
    match r with
    | Ok h' => exists t old, hosts (w_db w) !! host_name h = Some old /\
        h' = rowToHost (update_host_row t h old) /\
        host_written skip h (update_host_row t h old) w w'
    | Err c => unmoved w w' \/ faults = true /\ c = Internal /\
        exists t old, hosts (w_db w) !! host_name h = Some old /\ row_only h (update_host_row t h old) w w'
    end) w.
Proof.
  intros Hf. unfold UpdateHost_body. apply wp_bind, wp_store_flint.
  2:{ intros e w1 Ew Ef. assert (flint_ok (w_flint w1) /\ unmoved w w1) as Hr
        by (split; [congruence|]; split; [by rewrite Ew|congruence]).
      destruct Hr. destruct e; cbn [wp]; by auto. }
  intros t1 t1' db' x w1 E Ew Ef. unfold denote in E.
  assert (db' = w_db w) as -> by (revert E; unfold Store.GetHost; store_simpl;
    destruct (hosts (w_db w) !! _); naive_solver).
  apply wp_bind, wp_dialHost; [congruence|intros e w2 Hu Hf2; cbn [wp]; split; [done|]; left; etrans; [|done];
    split; [by rewrite Ew|congruence]|].
  intros c conn w2 Hu Hh Hn Ha Hg.
  assert (unmoved w w2) as Hu2 by (etrans; [|done]; split; [by rewrite Ew|congruence]).
  destruct (un_db _ _ Hu2) as [Ep Ev El Eh Epl].
  apply wp_bind, wp_Store_UpdateHost.
  - intros t old w3 (Hold & Ew3 & Ef3). rewrite <- Ef3 in Hh.
    eapply (wp_installed faults h skip c conn); [done..|].
    intros w4 Ew4 Hf4 Hc Ho. split; [done|]. exists t, old. rewrite Eh in Hold. split_and!; try done.
    split; [..|done|]; rewrite ?Ew4, ?Ew3; simpl; rewrite ?Ep, ?Ev, ?El, ?Eh, ?Epl; try done.
    intros n Hne. rewrite Ho by done. rewrite Ef3. by rewrite (un_hosts _ _ Hu2).
  - intros e w3 Ew3 Ef3. rewrite <- Ef3 in Hh. apply wp_bind, (wp_Conn_Close faults c conn); [done|].
    intros e' w4 Hu4 Hf4. cbn [wp]. split; [done|]. left. etrans; [exact Hu2|]. etrans; [|done].
    split; [by rewrite Ew3|by rewrite Ef3].
  - intros Hfault what t old w3 (Hold & Ew3 & Ef3). rewrite <- Ef3 in Hh.
    apply wp_bind, (wp_Conn_Close faults c conn); [done|]. intros e' w4 Hu4 Hf4. cbn [wp].
    split; [done|]. right. split_and!; [done..|]. exists t, old. rewrite Eh in Hold. split; [done|].
    unfold row_only. etrans; [|exact Hu4]. split; [|simpl; rewrite Ef3; by rewrite (un_hosts _ _ Hu2)].
    rewrite Ew3. split; simpl; congruence.
Qed.

(** C32: UpdateHost, whatever the host answers and whichever store calls fail.
    When it succeeds, the host was registered, its row has the request's
    address and TLS settings with its cordon and drain state kept, and the
    pool has swapped its connection for a new one to the new address, checked
    like in AddHost, and closed the old one; every other host keeps its
    connection.  When it fails, neither the registry nor the pool changed, and
    the old connection stays in use, with one exception: the store writes the
    row and reads it back in two statements, and if the second fails the call
    is answered Internal with the row rewritten and the old connection still
    in the pool.  Either way no connection leaks. *)
Theorem UpdateHost_spec faults h skip w :
  flint_ok (w_flint w) ->
  wp faults (UpdateHost h skip) (fun r w' => flint_ok (w_flint w') /\
    match r with
    | Ok h' => exists t old, hosts (w_db w) !! host_name h = Some old /\
        h' = rowToHost (update_host_row t h old) /\
        host_written skip h (update_host_row t h old) w w'
    | Err c => unmoved w w' \/ faults = true /\ c = Internal /\
        exists t old, hosts (w_db w) !! host_name h = Some old /\ row_only h (update_host_row t h old) w w'
    end) w.
Proof.
  intros Hf. unfold UpdateHost. case_decide; [cbn [wp]; split; [done|by left]|]. apply wp_locked. intros w1 Ed Ef.
  eapply wp_mono; [|apply wp_update_body; congruence]. intros r w2 [Hf2 Hr] w3 Ew3 Ef3.
  split; [congruence|]. destruct r as [h'|c].
  - destruct Hr as (t & old & Hold & -> & [Hh Hp Hv Hl Hpl Hc Ho]). exists t, old.
    change (host_name (update_request h)) with (host_name h) in *.
    change (update_host_row t (update_request h) old) with (update_host_row t h old) in *.
    split_and!; [congruence|done|]. split; rewrite ?Ew3, ?Ef3; try congruence.
    + exact Hc.
    + intros n Hn. rewrite Ho by done. congruence.
  - destruct Hr as [[Hs Eh]|(Hfault & -> & t & old & Hold & [Hs Eh])].
    + left. split; [by rewrite Ew3, <- Ed|congruence].
    + right. split_and!; [done..|]. exists t, old. rewrite Ed in Hold. split; [done|].
      split; [|simpl in *; congruence]. rewrite Ew3. simpl in *. by rewrite Ed in Hs.
Qed.

(** ** RemoveHost *)

(** Taking a connection out of the pool and closing it. *)
Lemma flint_ok_drop f name c :
  flint_ok f -> fl_hosts f !! name = Some c ->
  flint_ok (closed c {| fl_hosts := delete name (fl_hosts f); fl_conns := fl_conns f |}).
Proof.
  intros [Hh Ho] Hc. split; simpl.
  - intros n d [Hne Hd]%lookup_delete_Some. destruct (Hh n d Hd) as (x & Hx & Hn & Hx').
    destruct (decide (d = c)) as [->|Hdc].
    + destruct (Hh name c Hc) as (y & Hy & Hyn & _). congruence.
    + exists x. by rewrite lookup_alter_ne.
  - intros d x Hd Hx. destruct (decide (d = c)) as [->|Hdc].
    + rewrite lookup_alter_eq in Hd. apply fmap_Some in Hd as (y & _ & ->). done.
    + rewrite lookup_alter_ne in Hd by done. pose proof (Ho d x Hd Hx) as Hin.
      rewrite lookup_delete_ne; [done|]. intros ->. congruence.
Qed.

Lemma wp_Pool_Remove faults name (Q : option error -> world -> Prop) w :
  flint_ok (w_flint w) ->
  (forall e w', w_db w' = w_db w -> flint_ok (w_flint w') ->
     fl_hosts (w_flint w') = delete name (fl_hosts (w_flint w)) -> Q e w') ->
  wp faults (Pool_Remove name) Q w.
Proof.
  intros Hf HQ. unfold Pool_Remove. apply wp_bind, wp_flint. cbn [flint_exec fst snd].
  destruct (fl_hosts (w_flint w) !! name) as [c|] eqn:Ec.
  - unfold Conn_Close. apply wp_bind, wp_bind, wp_flint. cbn [wp]. apply HQ; [done| |done].
    by apply flint_ok_drop.
  - cbn [wp]. rewrite delete_id by done. apply HQ; [done| |simpl; by rewrite delete_id].
    by destruct (w_flint w).
Qed.

(** C33: RemoveHost, whichever store calls fail.  When it succeeds the host
    was registered and nothing depended on it (no pool names it, no VM is on
    it, no placement is reserved for it), its row alone is gone, its
    connection is out of the client pool and closed, and every other host
    keeps its own.  When it fails neither the registry nor the pool changed.
    Unless the store fails, an unknown host is NotFound and one in use is
    refused. *)
Theorem RemoveHost_spec faults name w :
  flint_ok (w_flint w) ->
  wp faults (RemoveHost name) (fun r w' => flint_ok (w_flint w') /\
    match r with
    | Ok _ => is_Some (hosts (w_db w) !! name) /\ ~ host_in_use name (w_db w) /\
        w_db w' = set_hosts (delete name (hosts (w_db w))) (w_db w) /\
        fl_hosts (w_flint w') = delete name (fl_hosts (w_flint w))
    | Err c => unmoved w w' /\
        (name <> "" -> faults = false ->
         c = NotFound /\ hosts (w_db w) !! name = None \/
         (c = FailedPrecondition \/ c = Internal) /\ host_in_use name (w_db w))
    end) w.
Proof.
  intros Hf. unfold RemoveHost. case_decide as Hn; [cbn [wp]; by split_and!|].
  apply wp_locked. intros w1 Ed Ef. unfold RemoveHost_body. apply wp_bind, wp_locked. intros w2 Ed2 Ef2.
  rewrite Ed in Ed2. rewrite Ef in Ef2. pose proof (DeleteHost_spec name (w_db w)) as Hs.
  intros x w3 Hx w4 Ed4 Ef4.
  assert (w_flint w3 = w_flint w2) as Ef3
    by by destruct Hx as [(? & ? & _ & ->)|(_ & _ & ->)]. rewrite Ef3, Ef2 in Ef4.
  destruct Hx as [(t & t' & -> & ->)|(-> & (what & ->) & ->)]; rewrite ?Ed2 in *.
  - unfold denote in *. simpl in Ed4.
    destruct (DeleteHost name (w_db w)) as [db' [[]|e]]; cbn [fst snd] in *.
    + destruct Hs as (Hin & Hfree & ->). apply wp_bind, wp_Pool_Remove; [congruence|].
      intros err w5 Ed5 Hf5 Hh5. cbn [wp]. intros w6 Ed6 Ef6.
      rewrite Ef6, Hh5, Ed6, Ed5, Ef4, Ed4. by split_and!.
    + destruct Hs as [-> Hs].
      assert (forall w5, w_db w5 = w_db w4 -> w_flint w5 = w_flint w4 ->
        flint_ok (w_flint w5) /\ unmoved w w5) as Hend.
      { intros w5 Ed5 Ef5. split; [congruence|]. split; [by rewrite Ed5, Ed4|congruence]. }
      destruct e; cbn [wp]; intros w5 Ed5 Ef5; destruct (Hend w5 Ed5 Ef5); split_and!; try done;
        intros _ _; naive_solver.
  - simpl in Ed4. cbn [wp]. intros w5 Ed5 Ef5. split; [congruence|].
    split; [|done]. split; [by rewrite Ed5, Ed4, Ed2|congruence].
Qed.
End steps.

(** ** Witnesses *)

Lemma world0_flint : flint_ok (w_flint world0).
Proof.
  split.
  - intros n c Hc. apply elem_of_map_to_list in Hc. vm_compute in Hc.
    repeat (apply elem_of_cons in Hc as [Hc|Hc]; [injection Hc as -> ->; eexists; vm_compute; done|]).
    by apply not_elem_of_nil in Hc.
  - intros c conn Hc _. apply elem_of_map_to_list in Hc. vm_compute in Hc.
    repeat (apply elem_of_cons in Hc as [Hc|Hc]; [injection Hc as -> ->; vm_compute; done|]).
    by apply not_elem_of_nil in Hc.
Qed.

Definition insecure (name address : string) : Host :=
  {| host_name := name; host_address := address; host_cordoned := true;
     host_cordoned_reason := "ignored"; host_cordoned_at := None; host_updated_at := None;
     host_tls := Some {| tls_insecure := true; ca_file := ""; cert_file := ""; key_file := "" |};
     host_draining := false; host_draining_at := None |}.

(** A third host is added; adding it under a name in use fails. *)
Lemma AddHost_spec_witness :
  let out := run (AddHost (insecure "host-c" "c:9090") false) world0 in
  is_Ok out.2 = true /\ size (hosts (w_db out.1)) = 3 /\ flint_ok (w_flint out.1) /\
  (run (AddHost (insecure "host-a" "c:9090") false) world0).2 = Err AlreadyExists.
Proof.
  cbv zeta. split_and!; [vm_compute; reflexivity..| |vm_compute; reflexivity].
  apply (wp_run (AddHost (insecure "host-c" "c:9090") false) (fun _ w' => flint_ok (w_flint w')) world0).
  eapply wp_mono; [|apply (AddHost_spec true), world0_flint]. by intros r w' [Hf _].
Defined.

(** A host moves to another address: the pool follows. *)
(** The environment of the tests, with a store call that fails at tick [n]. *)
Definition env_fault_at (n : nat) : Env := {|
  env_now := env_now; env_uuid := env_uuid; env_ctxErr := env_ctxErr; env_budget := env_budget;
  env_fault t := if decide (t = n) then Some "interrupted" else None;
  env_rpc := env_rpc; env_exec := env_exec; env_file := env_file; env_start := env_start;
  env_stop := env_stop; env_send := env_send
|}.

(** It succeeds; and with the read failing, the exception is real. *)
Lemma UpdateHost_spec_witness :
  let out := run (UpdateHost (insecure "host-a" "a:9999") false) world0 in
  let half := @run _ _ (env_fault_at 8) _ (UpdateHost (insecure "host-a" "a:9999") false) world0 in
  (is_Ok out.2 = true /\ (run (Address "host-a") out.1).2 = Ok "a:9999" /\
   size (hosts (w_db out.1)) = 2 /\ flint_ok (w_flint out.1)) /\
  half.2 = Err Internal /\ hr_address <$> hosts (w_db half.1) !! "host-a" = Some "a:9999" /\
  (run (Address "host-a") half.1).2 = (run (Address "host-a") world0).2.
Proof.
  cbv zeta. split_and!; try (vm_compute; reflexivity).
  apply (wp_run (UpdateHost (insecure "host-a" "a:9999") false) (fun _ w' => flint_ok (w_flint w')) world0).
  eapply wp_mono; [|apply (UpdateHost_spec true), world0_flint]. by intros r w' [Hf _].
Defined.

(** A host with VMs stays; one that nothing uses goes, with its connection. *)
Lemma RemoveHost_spec_witness :
  let w := (run (AddHost (insecure "host-c" "c:9090") false) world0).1 in
  let out := run (RemoveHost "host-c") w in
  out.2 = Ok tt /\ flint_ok (w_flint out.1) /\
  (run (RemoveHost "host-a") w).2 = Err FailedPrecondition /\
  (run (Pool_Hosts) out.1).2 ≡ₚ ["host-a"; "host-b"].
Proof.
  cbv zeta. split; [vm_compute; reflexivity|]. split; [|split; [vm_compute; reflexivity|]].
  - apply (wp_run (RemoveHost "host-c") (fun _ w' => flint_ok (w_flint w'))).
    eapply wp_mono; [|apply (RemoveHost_spec true "host-c")]; [by intros r w' [? _]|].
    apply (wp_run (AddHost (insecure "host-c" "c:9090") false) (fun _ w' => flint_ok (w_flint w')) world0).
    eapply wp_mono; [|apply (wp_AddHost true); apply world0_flint]. by intros r w' [? _].
  - vm_compute. apply Permutation_refl || apply perm_swap.
Defined.
