(* ===== verification/PoolProps.v ===== *)
(** * The PoolAdmin service, one call at a time

    What DeletePool does to the database and to the pool's reconciler on every
    path, whatever flintlock and the pool manager answer and, with [faults],
    whichever store calls fail. *)

From stdpp Require Import base gmap strings list.
From Stdlib Require Import ZArith Lia.
From S2P Require Import Prelude Types Convert Store StoreOps Concrete StoreProps Effects.
From S2P Require Import Flintlock ConcreteEnv Deletion Strategy Provision Reconciler Sweeper.
From S2P Require Import LeaseApi PoolAdmin HostAdmin EventsApi Protocols Quiet OneVM LeaseProps.
From S2P Require Import HostRefs ProvisionProps ReconcilerProps SweeperProps HostProps.

(** ** Starting and stopping reconcilers *)

(** The calls to the pool manager in a log. *)
Definition reconciler_call (a : action) : bool :=
  match a with Started _ | Stopped _ _ => true | _ => false end.
Definition lifecycle (w : world) : list action := filter (fun a => reconciler_call a = true) (w_log w).

(** Neither the database nor a reconciler was touched. *)
Definition untouched (w w' : world) : Prop := w_db w' = w_db w /\ lifecycle w' = lifecycle w.
#[export] Instance untouched_preorder : PreOrder untouched.
Proof. split; [done|]. intros a b c [] []. split; congruence. Qed.

(** A program that neither starts nor stops one. *)
Definition hands_off_eff {X : Set} (e : eff X) : Prop :=
  match e with EStart _ | EStop _ _ | EStopWait _ _ => False | _ => True end.
Fixpoint hands_off {A : Set} (p : prog A) : Prop :=
  match p with
  | Ret _ => True
  | Do e k => hands_off_eff e /\ forall x, hands_off (k x)
  | Fork c k => hands_off c /\ hands_off k
  end.

Lemma ho_bind {A B : Set} (p : prog A) (f : A -> prog B) :
  hands_off p -> (forall x, hands_off (f x)) -> hands_off (bind p f).
Proof. induction p; simpl; naive_solver. Qed.
Lemma ho_for_each {X} (l : list X) (f : X -> prog unit) :
  (forall x, hands_off (f x)) -> hands_off (for_each l f).
Proof. intros Hf. induction l; cbn [for_each]; [done|]. by apply ho_bind. Qed.

Ltac ho_tac :=
  repeat lazymatch goal with
  | |- hands_off (bind _ _) => apply ho_bind; [|intros]
  | |- hands_off (Ret _) => exact I
  | |- hands_off (do _) => split; [exact I|intros; exact I]
  | |- hands_off (store _) => split; [exact I|intros; exact I]
  | |- hands_off now => split; [exact I|intros; exact I]
  | |- hands_off (go _) => split; [|exact I]
  | |- hands_off (for_each _ _) => apply ho_for_each; intros
  | |- hands_off (match ?x with _ => _ end) => destruct x
  end.

Lemma ho_deletePoolVMs flint spec vs : hands_off (deletePoolVMs flint spec vs).
Proof.
  unfold deletePoolVMs, delete_pool_vm, EmitEvent, EnsureVMDeleted, EnsureVMDeletedCheckingPool,
    delete_marked, Client, Pool_conn. ho_tac.
Qed.

Section lifecycles.
Context `{Codec, Sqlite}.

Lemma lifecycle_step faults {X : Set} (e : eff X) w x w' :
  hands_off_eff e -> exec_eff faults e w x w' -> lifecycle w' = lifecycle w.
Proof.
  unfold lifecycle. intros Ho He. destruct e; simpl in Ho, He; try done;
    try (subst w'; simpl; rewrite ?filter_app; simpl; by rewrite ?app_nil_r).
  - destruct He as [(t & t' & _ & ->)|(_ & _ & ->)]; simpl; by rewrite ?app_nil_r.
  - by destruct He as [_ ->].
Qed.

Lemma wp_hands_off faults {A : Set} (p : prog A) w :
  hands_off p -> wp faults p (fun _ w' => lifecycle w' = lifecycle w) w.
Proof.
  revert w. induction p as [A x|A X e k IH|A c IHc k IHk]; intros w; simpl; [done| |].
  - intros [He Hk] x w' Hx. eapply wp_mono; [|by apply IH]. intros y w'' Ey. rewrite Ey.
    by eapply lifecycle_step.
  - intros [Hc Hk]. eapply wp_mono; [|by apply IHc]. intros [] w1 E1.
    eapply wp_mono; [|by apply IHk]. intros y w2 E2. congruence.
Qed.

(** A store call starts and stops nothing. *)
Lemma wp_store_off faults {A : Set} (o : storeOp A) (Q : result StoreError A -> world -> Prop) w :
  (forall now now' db' x w', denote now now' o (w_db w) = (db', Ok x) -> w_db w' = db' ->
     lifecycle w' = lifecycle w -> Q (Ok x) w') ->
  (forall e w', w_db w' = w_db w -> lifecycle w' = lifecycle w ->
     store_failed faults o (w_db w) e -> Q (Err e) w') ->
  wp faults (store o) Q w.
Proof.
  intros Hok Herr. eapply wp_mono; [|apply wp_and; [|apply (wp_hands_off faults (store o)); done]].
  2: { apply (wp_store faults o (fun r w' => lifecycle w' = lifecycle w -> Q r w')).
       - intros now now' db' x w' E Ew L. by eapply Hok.
       - intros e w' Ew Hf L. by apply Herr. }
  intros r w' [HQ L]. by apply HQ.
Qed.

(** A mutex around a body. *)
Lemma wp_locked_off faults {A : Set} m (body : prog A) (R : world -> A -> world -> Prop) w :
  (forall w1 x w2 w3, untouched w w1 -> untouched w2 w3 -> R w1 x w2 -> R w x w3) ->
  (forall w1, w_db w1 = w_db w -> wp faults body (R w1) w1) ->
  wp faults (locked m body) (R w) w.
Proof.
  intros HR Hb. unfold locked. apply wp_bind. intros [] w1 ->. cbn [wp]. apply wp_bind.
  eapply wp_mono; [|by apply Hb]. intros y w2 HQ. apply wp_bind. intros [] w3 ->. cbn [wp].
  by eapply HR; [..|exact HQ].
Qed.

(** ** Deleting the VMs of a deleted pool *)

(** The calls of [deletePoolVMs]: the VMs are marked already. *)
Definition purge_op (us : list string) (A : Set) (o : storeOp A) : Prop :=
  match o with OpDeleteVMCheckingPool u => u ∈ us | o => quiet_op o = true end.

Record purged (us : list string) (db db' : DB) : Prop := {
  pu_pools : pools db' = pools db;
  pu_leases : leases db' = leases db;
  pu_hosts : hosts db' = hosts db;
  pu_placements : placements db' = placements db;
  pu_vms : vms db' ⊆ vms db;
  pu_others u : u ∉ us -> vms db' !! u = vms db !! u
}.

#[local] Instance purged_preorder us : PreOrder (purged us).
Proof.
  split; [done|]. intros a b c [] []. split; [congruence..|by etrans|]. intros u Hu.
  etrans; by auto.
Qed.

Lemma same_purged us db db' : same_core db db' -> purged us db db'.
Proof. intros [? Ev ? ? ?]. split; try done; by rewrite Ev. Qed.

Lemma quiet_purge_op us (A : Set) (o : storeOp A) : quiet_op o = true -> purge_op us A o.
Proof. by destruct o. Qed.

Lemma purge_op_purged us (A : Set) t t' (o : storeOp A) db :
  purge_op us A o -> purged us db (denote t t' o db).1.
Proof.
  intros Ho. destruct o; simpl in Ho; try (apply same_purged, quiet_op_core; exact Ho).
  pose proof (DeleteVMCheckingPool_cases uid db) as Hc. unfold denote.
  destruct (DeleteVMCheckingPool uid db) as [db' [b|e]]; simpl; [|by destruct Hc as [-> _]].
  destruct Hc as [_ ->]. split; try done; simpl; [apply delete_subseteq|].
  intros u Hu. rewrite lookup_delete_ne; [done|]. by intros ->.
Qed.

Lemma purge_deletePoolVMs flint spec vs :
  (forall v, v ∈ vs -> vm_phase v = DELETING) ->
  confined (purge_op (vm_uid <$> vs)) (deletePoolVMs flint spec vs).
Proof.
  intros Hv. unfold deletePoolVMs. apply confined_bind.
  { apply quiet_confined; [apply quiet_purge_op|quiet_tac]. }
  intros []. destruct flint; [|done]. apply confined_for_each. intros v Hin. split; [|done].
  unfold delete_pool_vm, EnsureVMDeleted, EnsureVMDeletedCheckingPool.
  rewrite decide_False by (intros Hn; by apply Hn, Hv). unfold delete_marked.
  confined_tac (quiet_purge_op (vm_uid <$> vs)). split; [by apply list_elem_of_fmap_2|done].
Qed.

(** ** DeletePool *)

(** The pool is gone with its leases; what is left of its VMs is DELETING under
    no lease, and no row of another pool changed. *)
Record pool_removed (n ns : string) (db db' : DB) : Prop := {
  rm_pool : pools db' !! (n, ns) = None;
  rm_pools k : k <> (n, ns) -> pools db' !! k = pools db !! k;
  rm_vms u r : vms db' !! u = Some r -> in_pool n ns r ->
    vr_phase r = phase_code DELETING /\ vr_leaseID r = None;
  rm_known u : is_Some (vms db' !! u) -> is_Some (vms db !! u);
  rm_other_vms u r : ~ in_pool n ns r -> vms db !! u = Some r <-> vms db' !! u = Some r;
  rm_leases i l : leases db' !! i = Some l -> ~ lease_in_pool n ns l;
  rm_other_leases i l : ~ lease_in_pool n ns l ->
    leases db !! i = Some l <-> leases db' !! i = Some l;
  rm_hosts : hosts db' = hosts db;
  rm_placements : placements db' = placements db
}.

Lemma removed_purged n ns db db1 db2 vs :
  pool_gone n ns db db1 -> others_kept n ns db db1 -> lists_pool_vms n ns db1 vs ->
  own_keys db1 -> purged (vm_uid <$> vs) db1 db2 -> pool_removed n ns db db2.
Proof.
  intros (Gp & Gd & Gv & Gl) (Op & Ov & Ol & _ & _ & Oh & Opl) (_ & _ & Hvs) Hk [Pp Pl Ph Ppl Pv Po].
  split.
  - by rewrite Pp.
  - intros k Hne. rewrite Pp. by apply Op.
  - intros u r Hr. apply Gv with u. by eapply lookup_weaken.
  - intros u [r Hr]. apply Gd. exists r. by eapply lookup_weaken.
  - intros u r Hn. rewrite (Ov u r Hn). split; [|intros Hr; by eapply lookup_weaken].
    intros Hr. rewrite Po; [done|]. intros (v & -> & Hv)%list_elem_of_fmap.
    apply Hvs in Hv as (u' & r' & Hr' & Hin & ->). simpl in Hr. rewrite (Hk _ _ Hr') in Hr.
    rewrite Hr in Hr'. by injection Hr' as ->.
  - intros i l. rewrite Pl. apply Gl.
  - intros i l Hn. rewrite Pl. by apply Ol.
  - by rewrite Ph.
  - by rewrite Ppl.
Qed.

(** What DeletePool may answer and leave, and what it did to the pool's
    reconciler: stopped when the pool is gone, started again with the stored
    spec when it stays. *)
Definition delete_pool_result (faults : bool) (n ns : string) (force : bool) (w : world)
    (r : result code unit) (w' : world) : Prop :=
  match r with
  | Ok _ =>
      is_Some (pools (w_db w) !! (n, ns)) /\ (force = false -> ~ pool_has_leased n ns (w_db w)) /\
      pool_removed n ns (w_db w) (w_db w') /\ lifecycle w' = lifecycle w ++ [Stopped n ns]
  | Err c =>
      same_core (w_db w) (w_db w') /\
      (lifecycle w' = lifecycle w \/
       exists spec, Store.GetPool n ns (w_db w) = (w_db w, Ok spec) /\
         lifecycle w' = lifecycle w ++ [Stopped n ns; Started spec])
  end /\
  (faults = false -> pools (w_db w) !! (n, ns) = None -> r = Err NotFound) /\
  (faults = false -> force = false -> pool_has_leased n ns (w_db w) ->
     is_Ok (Store.GetPool n ns (w_db w)).2 = true -> r = Err FailedPrecondition).

Lemma wp_restart faults spec (r : result code unit) (Q : result code unit -> world -> Prop) w :
  (forall w', same_core (w_db w) (w_db w') -> lifecycle w' = lifecycle w ++ [Started spec] -> Q r w') ->
  wp faults (then! restartReconciler spec in Ret r) Q w.
Proof.
  intros HQ. unfold restartReconciler. cbn. intros x w' ->. apply HQ; [done|].
  unfold lifecycle. simpl. by rewrite filter_app.
Qed.

(** The early check counts the VMs the transaction looks for. *)
Lemma countLeased_pos n ns db :
  0 < countLeased (rowToVM <$> sort_on String.le vr_uid
        (filter (fun r => in_pool n ns r /\ has_phase None r) (rows (vms db)))) <->
  pool_has_leased n ns db.
Proof.
  unfold countLeased, pool_has_leased. rewrite length_filter_pos.
  setoid_rewrite list_elem_of_fmap. setoid_rewrite elem_of_sort_on.
  setoid_rewrite list_elem_of_filter. setoid_rewrite elem_of_rows.
  assert (forall r, (vm_phase (rowToVM r) = LEASED \/ vm_phase (rowToVM r) = PRE_LEASE_HOOK_RUNNING)
    <-> leased_phase r) as Hph.
  { intros r. unfold leased_phase. simpl. split.
    - intros [E|E]; [left|right]; by rewrite <- (phase_code_of_code (vr_phase r)), E.
    - intros [-> | ->]; auto. }
  split.
  - intros (v & (r & -> & (Hin & _) & u & Hu) & Hl). exists u, r. by rewrite <- Hph.
  - intros (u & r & Hu & Hin & Hl). exists (rowToVM r). split; [|by apply Hph]. exists r. split_and!; by eauto.
Qed.

(** From the stop of the reconciler on. *)
Lemma wp_delete_found faults flint n ns force spec w :
  db_wf (w_db w) -> Store.GetPool n ns (w_db w) = (w_db w, Ok spec) ->
  (force = false -> ~ pool_has_leased n ns (w_db w)) -> is_Some (pools (w_db w) !! (n, ns)) ->
  wp faults (delete_found flint n ns force spec)
    (fun r w' => delete_pool_result faults n ns force w r w') w.
Proof.
  intros W Hspec Hfree Hp. unfold delete_found. apply wp_bind. intros err w1 ->. cbn [wp].
  set (w1 := logged _ w). assert (lifecycle w1 = lifecycle w ++ [Stopped n ns]) as L1
    by (unfold lifecycle, w1; simpl; by rewrite filter_app).
  assert (forall c w', same_core (w_db w) (w_db w') -> lifecycle w' = lifecycle w1 ++ [Started spec] ->
    delete_pool_result faults n ns force w (Err c) w') as Hfail.
  { intros c w' Hs Hl. split_and!; [done| |by intros _ E; rewrite E in Hp; destruct Hp|
      by intros _ Hf Hl'; destruct (Hfree Hf)].
    right. exists spec. split; [done|]. by rewrite Hl, L1, <- app_assoc. }
  destruct err as [c|]; [by apply wp_restart; auto|].
  apply wp_bind, wp_store_off.
  - intros t t' db1 vs w2 E Ew L2. unfold denote in E.
    pose proof (DeletePoolAndMarkVMs_spec t n ns force (w_db w) W) as Ho.
    pose proof (op_keeps_wf t t' (OpDeletePoolAndMarkVMs n ns force) (w_db w) I W) as W1.
    change (w_db w1) with (w_db w) in E. unfold denote in W1. rewrite E in Ho, W1. simpl in W1.
    destruct Ho as (_ & _ & Hgone & Hkept & Hvs). pose proof (wf_own_keys _ W1) as Hk.
    apply wp_bind. eapply wp_mono; [|apply wp_and; [apply (wp_confined faults (purge_op (vm_uid <$> vs))
      (purged (vm_uid <$> vs)) (deletePoolVMs flint spec vs) (fun _ w' => purged (vm_uid <$> vs) db1 (w_db w')));
        [apply purge_op_purged|apply purge_deletePoolVMs|rewrite Ew; by auto]|
        apply wp_hands_off, ho_deletePoolVMs]].
    + intros [] w3 [Hpu L3]. cbn [wp]. split_and!; try done.
      * by eapply removed_purged.
      * by rewrite L3, L2, L1.
      * intros _ E'. rewrite E' in Hp. by destruct Hp.
      * intros _ Hff Hl. by destruct (Hfree Hff).
    + intros v (u & r & Hr & Hin & ->)%Hvs. destruct Hgone as (_ & _ & Hd & _).
      destruct (Hd u r Hr Hin) as [Hph _]. simpl. by rewrite Hph.
  - intros e w2 Ew L2 Hf.
    assert (forall c w3, w_db w3 = w_db w2 -> lifecycle w3 = lifecycle w2 ->
      wp faults (then! restartReconciler spec in Ret (Err c))
        (fun r w' => delete_pool_result faults n ns force w r w') w3) as Hre.
    { intros c w3 Ew3 L3. apply wp_restart. intros w4 Hs4 L4. apply Hfail; [|congruence].
      rewrite Ew3, Ew in Hs4. exact Hs4. }
    assert (wp faults (let! ctxErr := do ECtxErr in
      match ctxErr with
      | Some c => then! restartReconciler spec in Ret (Err c)
      | None => then! restartReconciler spec in Ret (Err Internal)
      end) (fun r w' => delete_pool_result faults n ns force w r w') w2) as Hctx.
    { apply wp_bind. intros c w3 ->. cbn [wp].
      destruct c; apply Hre; try done; unfold lifecycle; simpl; by rewrite app_nil_r. }
    destruct e; try exact Hctx; [|by apply Hre]. exfalso.
    destruct Hf as [(t & t' & E)|(_ & what & [=])]. unfold denote in E.
    pose proof (DeletePoolAndMarkVMs_spec t n ns force (w_db w) W) as Ho. simpl in E.
    destruct (DeletePoolAndMarkVMs t n ns force (w_db w)) as [db1 [vs|e]]; [done|]. simpl in E.
    injection E as ->. destruct Ho as [_ [[_ Hn]|[[=] _]]]. rewrite Hn in Hp. by destruct Hp.
Qed.

Lemma delete_result_untouched faults n ns force w w1 r w2 w3 :
  untouched w w1 -> untouched w2 w3 -> delete_pool_result faults n ns force w1 r w2 ->
  delete_pool_result faults n ns force w r w3.
Proof.
  intros [E1 L1] [E3 L3]. unfold delete_pool_result. by rewrite E1, L1, E3, L3.
Qed.

Lemma wp_DeletePool_body faults flint n ns force w :
  db_wf (w_db w) ->
  wp faults (DeletePool_body flint n ns force) (delete_pool_result faults n ns force w) w.
Proof.
  intros W. unfold DeletePool_body.
  assert (forall c w', w_db w' = w_db w -> lifecycle w' = lifecycle w -> (faults = false -> False) ->
    delete_pool_result faults n ns force w (Err c) w') as Hfault.
  { intros c w' Ew L Hf. split_and!; [by rewrite Ew|by left|by intros ?; destruct Hf..]. }
  apply wp_bind, wp_store_off.
  - intros t t' db1 spec w1 E Ew L1. unfold denote in E. pose proof (GetPool_Ok _ _ _ _ _ E) as ->.
    assert (is_Some (pools (w_db w) !! (n, ns))) as Hp.
    { revert E. unfold Store.GetPool. store_simpl. by destruct (pools (w_db w) !! (n, ns)). }
    assert (forall w2, w_db w2 = w_db w -> lifecycle w2 = lifecycle w ->
      (force = false -> ~ pool_has_leased n ns (w_db w)) -> wp faults (delete_found flint n ns force spec)
        (fun r w' => delete_pool_result faults n ns force w r w') w2) as Hfound.
    { intros w2 Ew2 L2 Hfree. eapply wp_mono; [|apply wp_delete_found; rewrite ?Ew2; try done].
      unfold delete_pool_result. by rewrite Ew2, L2. }
    destruct force; [by apply Hfound|].
    apply wp_bind, wp_store_off.
    + intros t2 t2' db2 vs w2 E2 Ew2 L2. unfold denote, ListVMsByPool, query in E2. injection E2 as <- <-.
      rewrite Ew in *. case_decide as Hl.
      * cbn [wp]. split_and!; [by rewrite Ew2|left; congruence| |done].
        intros _ E'. rewrite E' in Hp. by destruct Hp.
      * apply Hfound; [done|congruence|]. intros _ Hl'. by apply Hl, countLeased_pos.
    + intros e w2 Ew2 L2 Hf. cbn [wp]. apply Hfault; [congruence..|].
      intros ->. destruct Hf as [(? & ? & [=])|[[=] _]].
  - intros e w1 Ew L1 Hf.
    destruct (decide (e = ErrNotFound)) as [->|Hne].
    + cbn [wp]. apply GetPool_failed in Hf as Hn. split_and!; [by rewrite Ew|by left|done|].
      intros _ _ _ Hok. exfalso. revert Hok. unfold Store.GetPool. store_simpl. by rewrite Hn.
    + assert (delete_pool_result faults n ns force w (Err Internal) w1) as Hi; [|by destruct e].
      split_and!; [by rewrite Ew|by left|..].
      * intros -> Hn. destruct Hf as [(t & t' & E)|[[=] _]]. revert E. unfold denote, Store.GetPool.
        store_simpl. rewrite Hn. by intros [= <-].
      * intros -> _ _ Hok. destruct Hf as [(t & t' & E)|[[=] _]]. unfold denote in E.
        destruct (Store.GetPool n ns (w_db w)) as [db' [p|e']]; simpl in *; congruence.
Qed.

(** C19: DeletePool, whatever flintlock and the pool manager answer and
    whichever store calls fail.  When it succeeds the pool and its leases are
    gone, what is left of its VMs is DELETING for the sweeper, no row of
    another pool changed, without [force] no VM of the pool was leased or
    being claimed, and the pool's reconciler was stopped.  When it fails
    nothing changed, and if the reconciler was stopped it was started again
    with the stored spec.  Unless the store fails, a pool that does not exist
    is NotFound and, without [force], one with such a VM is
    FailedPrecondition. *)
Theorem DeletePool_spec faults flint n ns force w :
  db_wf (w_db w) ->
  wp faults (DeletePool flint n ns force)
    (fun r w' => delete_pool_result faults n ns force w r w') w.
Proof.
  intros W. apply (wp_locked_off faults _ _ (delete_pool_result faults n ns force));
    [apply delete_result_untouched|].
  intros w1 E1. apply wp_DeletePool_body. by rewrite E1.
Qed.
End lifecycles.

(** ** CreatePool and UpdatePool *)

Lemma unknown_fold (hosts : list Host) (names acc : list string) x :
  x ∈ fold_left (fun unknown n =>
    if decide (n ∈ host_name <$> hosts) then unknown
    else if decide (n ∈ unknown) then unknown else unknown ++ [n]) names acc ->
  x ∈ acc \/ x ∈ names /\ x ∉ host_name <$> hosts.
Proof.
  revert acc. induction names as [|n names IH]; intros acc; simpl; [by left|].
  intros [Hx|[Hx Hn]]%IH; [|set_solver]. repeat case_decide; [by auto..|].
  apply elem_of_app in Hx as [?|Hx]; [by left|]. apply list_elem_of_singleton in Hx as ->. set_solver.
Qed.

Lemma elem_of_unknown (hosts : list Host) names x :
  x ∈ unknown_hosts hosts names -> x ∈ names /\ x ∉ host_name <$> hosts.
Proof. intros [Hx|?]%unknown_fold; [by apply not_elem_of_nil in Hx|done]. Qed.

(** Every host the pool names is registered. *)
Definition hosts_registered (p : PoolSpec) (db : DB) : Prop :=
  forall h, h ∈ flintlock_hosts p -> is_Some (hosts db !! h).

Section writes.
Context `{Codec, Sqlite}.

Lemma registered_names db hs h :
  map_Forall host_row_ok (hosts db) -> Store.ListHosts db = (db, Ok hs) ->
  h ∈ host_name <$> hs <-> is_Some (hosts db !! h).
Proof.
  intros W E. rewrite list_elem_of_fmap. split.
  - intros (x & -> & Hx). apply (elem_of_ListHosts _ _ _ E) in Hx as (k & r & Hr & ->). simpl.
    destruct (W k r Hr) as [-> _]. by exists r.
  - intros [r Hr]. exists (rowToHost r). split; [by destruct (W h r Hr)|].
    apply (elem_of_ListHosts _ _ _ E). eauto.
Qed.

Lemma wp_checkHosts faults p (Q : option code -> world -> Prop) w :
  map_Forall host_row_ok (hosts (w_db w)) ->
  (forall w', w_db w' = w_db w -> lifecycle w' = lifecycle w -> hosts_registered p (w_db w) -> Q None w') ->
  (forall c w', w_db w' = w_db w -> lifecycle w' = lifecycle w ->
     (c = InvalidArgument /\ ~ hosts_registered p (w_db w) \/ c = Internal /\ faults = true) ->
     Q (Some c) w') ->
  wp faults (checkFlintlockHosts p) Q w.
Proof.
  intros W Hok Herr. unfold checkFlintlockHosts. apply wp_bind, wp_store_off.
  - intros t t' db' hs w1 E Ew L. unfold denote in E.
    assert (db' = w_db w) as -> by (revert E; unfold Store.ListHosts; store_simpl; by intros [= <- _]).
    cbn [wp]. destruct (unknown_hosts hs (flintlock_hosts p)) as [|x xs] eqn:Eu.
    + apply Hok; [done..|]. intros h Hh. eapply registered_names; [done..|].
      by eapply unknown_hosts_nil.
    + apply Herr; [done..|]. left. split; [done|]. intros Hr.
      destruct (elem_of_unknown hs (flintlock_hosts p) x) as [Hx Hn]; [rewrite Eu; by left|].
      by eapply Hn, registered_names, Hr.
  - intros e w1 Ew L Hf. cbn [wp]. apply Herr; [done..|]. right. split; [done|].
    by destruct Hf as [(? & ? & [=])|[Hf _]].
Qed.

(** Only the pool's row differs. *)
Record pool_written (p : PoolSpec) (db db' : DB) : Prop := {
  pw_row : exists row, poolToRow p = Ok row /\
    pools db' = <[(pool_name p, pool_namespace p) := row]> (pools db);
  pw_vms : vms db' = vms db;
  pw_leases : leases db' = leases db;
  pw_hosts : hosts db' = hosts db;
  pw_placements : placements db' = placements db
}.

Lemma poolToRow_key p row :
  poolToRow p = Ok row -> pr_name row = pool_name p /\ pr_namespace row = pool_namespace p.
Proof.
  unfold poolToRow. intros E. by destruct (heartbeat_interval p), (heartbeat_expiry_threshold p),
    (marshal_template _), (marshal_strategy _); simplify_eq/=.
Qed.

Lemma CreatePool_cases p db :
  match Store.CreatePool p db with
  | (db', Ok _) => pools db !! (pool_name p, pool_namespace p) = None /\ pool_written p db db'
  | (db', Err e) => db' = db
  end.
Proof.
  unfold Store.CreatePool. store_simpl. destruct (poolToRow p) as [row|] eqn:E; [simpl|done].
  destruct (poolToRow_key p row E) as [-> ->]. destruct (pools db !! _) eqn:Ep; [done|]. simpl.
  split; [done|]. split; try done. by exists row.
Qed.

Lemma UpdatePool_cases p db :
  match Store.UpdatePool p db with
  | (db', Ok _) => is_Some (pools db !! (pool_name p, pool_namespace p)) /\ pool_written p db db'
  | (db', Err e) => True
  end.
Proof.
  unfold Store.UpdatePool, checkRowsAffected, matched. store_simpl.
  destruct (poolToRow p) as [row|] eqn:E; [simpl|done].
  destruct (poolToRow_key p row E) as [-> ->].
  destruct (pools db !! (pool_name p, pool_namespace p)) as [old|] eqn:Ep; [|done]. simpl.
  split; [by eexists|]. split; try done. exists row. split; [done|]. simpl.
  apply map_eq. intros k. destruct (decide (k = (pool_name p, pool_namespace p))) as [->|Hk].
  - by rewrite lookup_alter_eq, Ep, lookup_insert_eq.
  - by rewrite lookup_alter_ne, lookup_insert_ne.
Qed.

(** What CreatePool may answer and leave. *)
Definition create_pool_result (faults : bool) (spec : PoolSpec) (w : world) (r : result code Pool)
    (w' : world) : Prop :=
  match r with
  | Ok p =>
      validatePoolSpec spec = Ok (p_spec p) /\ p_status p = empty_status /\
      hosts_registered (p_spec p) (w_db w) /\
      pools (w_db w) !! (pool_name spec, pool_namespace spec) = None /\
      pool_written (p_spec p) (w_db w) (w_db w') /\
      lifecycle w' = lifecycle w ++ [Started (p_spec p)]
  | Err c =>
      same_core (w_db w) (w_db w') /\ lifecycle w' = lifecycle w /\
      match validatePoolSpec spec with
      | Err c' => c = c'
      | Ok p =>
          c = InvalidArgument /\ ~ hosts_registered p (w_db w) \/
          c = AlreadyExists /\ is_Some (pools (w_db w) !! (pool_name spec, pool_namespace spec)) \/
          c = Internal
      end
  end.

Lemma validate_key spec p :
  validatePoolSpec spec = Ok p -> pool_name p = pool_name spec /\ pool_namespace p = pool_namespace spec.
Proof.
  unfold validatePoolSpec. repeat case_decide; try done. destruct (NewStrategy _); [|done].
  destruct (hook_failure_policy spec), (microvm_template spec), (validateTemplateNetwork spec);
    intros E; by simplify_eq/=.
Qed.

Lemma create_result_untouched faults spec w w1 r w2 w3 :
  untouched w w1 -> untouched w2 w3 -> create_pool_result faults spec w1 r w2 ->
  create_pool_result faults spec w r w3.
Proof.
  intros [E1 L1] [E3 L3]. unfold create_pool_result. by rewrite E1, L1, E3, L3.
Qed.

Lemma wp_CreatePool_body faults spec p w :
  db_wf (w_db w) -> validatePoolSpec spec = Ok p ->
  wp faults (CreatePool_body p) (create_pool_result faults spec w) w.
Proof.
  intros W Hv. destruct (validate_key spec p Hv) as [En Ens].
  assert (forall c w', untouched w w' ->
    (c = InvalidArgument /\ ~ hosts_registered p (w_db w) \/
     c = AlreadyExists /\ is_Some (pools (w_db w) !! (pool_name spec, pool_namespace spec)) \/
     c = Internal) -> create_pool_result faults spec w (Err c) w') as Hfail.
  { intros c w' [E L] Hc. unfold create_pool_result. rewrite Hv, E, L. done. }
  unfold CreatePool_body. apply wp_bind, wp_checkHosts; [apply W| |].
  2: { intros c w1 E1 L1 Hc. cbn [wp]. apply Hfail; [done|naive_solver]. }
  intros w1 E1 L1 Hreg. apply wp_bind, wp_store_off; rewrite ?E1, ?En, ?Ens.
  - intros t t' db' old w2 E E2 L2. pose proof (GetPool_Ok _ _ _ _ _ E) as ->. cbn [wp].
    apply Hfail; [split; congruence|]. right. left. split; [done|].
    revert E. unfold denote, Store.GetPool. store_simpl. by destruct (pools (w_db w) !! _).
  - intros e w2 E2 L2 _. assert (untouched w w2) as U2 by (split; congruence).
    destruct e; try (cbn [wp]; apply Hfail; by auto).
    apply wp_bind, wp_store_off; rewrite ?E2.
    + intros t t' db' [] w3 E E3 L3. pose proof (CreatePool_cases p (w_db w)) as Hc. unfold denote in E.
      rewrite E, En, Ens in Hc. destruct Hc as [Hn Hw]. apply wp_bind. intros err w4 ->. cbn [wp].
      split_and!; try done; [by rewrite <- E3 in Hw|].
      unfold lifecycle at 1. simpl. rewrite filter_app. simpl.
      change (filter _ (w_log w3)) with (lifecycle w3). by rewrite L3, L2, L1.
    + intros e w3 E3 L3 _. cbn [wp]. apply Hfail; [split; congruence|by auto].
Qed.

(** C20: CreatePool, on every path and whichever store calls fail.  When it
    succeeds the spec passed validation, every host it names is registered,
    there was no such pool, the store has the validated spec's row and nothing
    else is different, and StartReconciler was called exactly once, with that spec.
    When it fails nothing changed and StartReconciler was not called: the spec is
    invalid, names an unregistered host (InvalidArgument), the pool exists
    (AlreadyExists), or the store or the encoding of the spec failed
    (Internal). *)
Theorem CreatePool_spec faults spec w :
  db_wf (w_db w) ->
  wp faults (CreatePool spec) (fun r w' => create_pool_result faults spec w r w') w.
Proof.
  intros W. unfold CreatePool. destruct (validatePoolSpec spec) as [p|c] eqn:Hv.
  - apply (wp_locked_off faults _ _ (create_pool_result faults spec)); [apply create_result_untouched|].
    intros w1 E1. apply (wp_locked_off faults _ _ (create_pool_result faults spec));
      [apply create_result_untouched|].
    intros w2 E2. apply wp_CreatePool_body; [by rewrite E2, E1|done].
  - cbn [wp]. unfold create_pool_result. by rewrite Hv.
Qed.

(** What UpdatePool may answer and leave.  Its last step only reads: a failure
    there is answered although the update is done. *)
Definition update_pool_result (faults : bool) (spec : PoolSpec) (w : world) (r : result code Pool)
    (w' : world) : Prop :=
  let updated p :=
    hosts_registered p (w_db w) /\ pool_written p (w_db w) (w_db w') /\
    is_Some (pools (w_db w) !! (pool_name spec, pool_namespace spec)) /\
    lifecycle w' = lifecycle w ++ [Stopped (pool_name spec) (pool_namespace spec); Started p] in
  match r with
  | Ok p => validatePoolSpec spec = Ok (p_spec p) /\ updated (p_spec p) /\
      exists committed c,
        (forall id, id ∈ committed <->
           committed_in (pool_name spec) (pool_namespace spec) (w_db w') id) /\
        counts_exact (pool_name spec) (pool_namespace spec) (w_db w') committed c /\
        p_status p = countsToStatus c
  | Err c =>
      match validatePoolSpec spec with
      | Err c' => c = c' /\ untouched w w'
      | Ok p =>
          c = Internal /\ faults = true /\ updated p \/
          untouched w w' /\
            (c = InvalidArgument /\ ~ hosts_registered p (w_db w) \/
             c = NotFound /\ pools (w_db w) !! (pool_name spec, pool_namespace spec) = None \/
             c = Internal)
      end
  end.

Lemma update_result_untouched faults spec w w1 r w2 w3 :
  untouched w w1 -> untouched w2 w3 -> update_pool_result faults spec w1 r w2 ->
  update_pool_result faults spec w r w3.
Proof.
  intros [E1 L1] [E3 L3]. unfold update_pool_result, untouched. by rewrite E1, L1, E3, L3.
Qed.

Lemma counts_exact_rows n ns db db' committed c :
  vms db' = vms db -> counts_exact n ns db committed c -> counts_exact n ns db' committed c.
Proof. intros E. unfold counts_exact, count_rows. by rewrite E. Qed.

Lemma wp_CountVMs_off faults n ns (Q : result error VMCounts -> world -> Prop) w :
  (forall c committed w', untouched w w' ->
     (forall id, id ∈ committed <-> committed_in n ns (w_db w) id) ->
     counts_exact n ns (w_db w) committed c -> Q (Ok c) w') ->
  (forall e w', untouched w w' -> faults = true -> Q (Err e) w') ->
  wp faults (CountVMs n ns) Q w.
Proof.
  intros Hok Herr. eapply wp_mono; [|apply wp_and; [|apply wp_hands_off; unfold CountVMs; ho_tac]].
  2: { apply (wp_CountVMs faults n ns (fun r w' => lifecycle w' = lifecycle w -> Q r w')).
       - intros c committed w' Ew Hc He L. by eapply Hok.
       - intros e w' Ew Hf L. by apply Herr. }
  intros r w' [HQ L]. by apply HQ.
Qed.

Lemma wp_UpdatePool_body faults spec p w :
  db_wf (w_db w) -> validatePoolSpec spec = Ok p ->
  wp faults (UpdatePool_body p) (update_pool_result faults spec w) w.
Proof.
  intros W Hv. destruct (validate_key spec p Hv) as [En Ens].
  assert (forall c w', untouched w w' ->
    (c = InvalidArgument /\ ~ hosts_registered p (w_db w) \/
     c = NotFound /\ pools (w_db w) !! (pool_name spec, pool_namespace spec) = None \/
     c = Internal) -> update_pool_result faults spec w (Err c) w') as Hfail.
  { intros c w' U Hc. unfold update_pool_result. rewrite Hv. by right. }
  unfold UpdatePool_body. apply wp_bind, wp_checkHosts; [apply W| |].
  2: { intros c w1 E1 L1 Hc. cbn [wp]. apply Hfail; [done|naive_solver]. }
  intros w1 E1 L1 Hreg. apply wp_bind, wp_store_off; rewrite ?E1, ?En, ?Ens.
  2: { intros e w2 E2 L2 Hf. assert (untouched w w2) as U2 by (split; congruence).
       destruct e; cbn [wp]; apply Hfail; auto. right. left. split; [done|]. by apply GetPool_failed in Hf. }
  intros t t' db' old w2 E E2 L2. pose proof (GetPool_Ok _ _ _ _ _ E) as ->.
  apply wp_bind, wp_store_off; rewrite ?E2.
  2: { intros e w3 E3 L3 _. cbn [wp]. apply Hfail; [split; congruence|by auto]. }
  intros t2 t2' db3 [] w3 E' E3 L3. pose proof (UpdatePool_cases p (w_db w)) as Hc. unfold denote in E'.
  rewrite E', En, Ens in Hc. destruct Hc as [Hs Hw].
  apply wp_bind. intros [] w4 ->. cbn [wp]. apply wp_bind. intros err w5 ->. cbn [wp].
  match goal with |- wp _ _ _ ?x => set (w5 := x) end.
  assert (lifecycle w5 = lifecycle w ++ [Stopped (pool_name spec) (pool_namespace spec); Started p]) as L5.
  { unfold lifecycle, w5. simpl. rewrite !filter_app. simpl. rewrite <- app_assoc. simpl.
    change (filter _ (w_log w3)) with (lifecycle w3). by rewrite L3, L2, L1. }
  assert (w_db w5 = db3) as E5 by exact E3. clearbody w5. rewrite <- E5 in Hw. clear E5.
  unfold with_status. rewrite En, Ens. apply wp_bind, wp_CountVMs_off.
  - intros c committed w6 [E6 L6] Hcom Hc. cbn [wp]. unfold update_pool_result. rewrite E6, L6.
    cbn [p_spec p_status]. split_and!; [done..|]. by exists committed, c.
  - intros e w6 [E6 L6] ->. cbn [wp]. unfold update_pool_result. rewrite Hv, E6, L6. by left.
Qed.

(** C21: UpdatePool, on every path and whichever store calls fail.  When it
    succeeds the spec passed validation, every host it names is registered,
    the pool existed, its row is the validated spec's and nothing else is
    different, its reconciler was stopped and started again with that spec,
    and the status it answers counts the pool's VMs exactly.  When it fails
    nothing changed and its reconciler was left alone, except that a store
    failure in the last step, which only reads, is answered as Internal after
    the update is done. *)
Theorem UpdatePool_spec faults spec w :
  db_wf (w_db w) ->
  wp faults (UpdatePool spec) (fun r w' => update_pool_result faults spec w r w') w.
Proof.
  intros W. unfold UpdatePool. destruct (validatePoolSpec spec) as [p|c] eqn:Hv.
  - apply (wp_locked_off faults _ _ (update_pool_result faults spec)); [apply update_result_untouched|].
    intros w1 E1. apply (wp_locked_off faults _ _ (update_pool_result faults spec));
      [apply update_result_untouched|].
    intros w2 E2. apply wp_UpdatePool_body; [by rewrite E2, E1|done].
  - cbn [wp]. unfold update_pool_result. by rewrite Hv.
Qed.
End writes.

(** ** Witnesses *)

Definition resized : PoolSpec :=
  {| pool_name := "web"; pool_namespace := "default";
     microvm_template := Some empty_MicroVMSpec; pool_size := 7;
     flintlock_hosts := ["host-b"];
     replenishment_strategy := Some {| strategy_type := IMMEDIATE_ON_LEASE; min_size := None |};
     create_commands := []; pre_lease_commands := [];
     hook_failure_policy := DELETE_AND_REPLACE;
     heartbeat_interval := Some 10%Z; heartbeat_expiry_threshold := Some 30%Z |}.

(** A second pool is created; the first cannot be created again. *)
Definition api_pool : PoolSpec :=
  {| pool_name := "api"; pool_namespace := "default";
     microvm_template := Some empty_MicroVMSpec; pool_size := 7;
     flintlock_hosts := ["host-b"];
     replenishment_strategy := Some {| strategy_type := IMMEDIATE_ON_LEASE; min_size := None |};
     create_commands := []; pre_lease_commands := [];
     hook_failure_policy := DELETE_AND_REPLACE;
     heartbeat_interval := Some 10%Z; heartbeat_expiry_threshold := Some 30%Z |}.

Lemma CreatePool_spec_witness :
  let out := run (CreatePool api_pool) world0 in
  create_pool_result true api_pool world0 out.2 out.1 /\ is_Ok out.2 = true /\
  size (pools (w_db out.1)) = 2 /\ (run (CreatePool resized) world0).2 = Err AlreadyExists.
Proof.
  cbv zeta. split; [|split_and!; vm_compute; reflexivity].
  apply (wp_run (CreatePool api_pool)
    (fun r w' => create_pool_result true api_pool world0 r w') world0).
  apply CreatePool_spec. apply db0_wf.
Defined.

Lemma UpdatePool_spec_witness :
  let out := run (UpdatePool resized) world0 in
  update_pool_result true resized world0 out.2 out.1 /\ is_Ok out.2 = true /\
  (run (UpdatePool api_pool) world0).2 = Err NotFound.
Proof.
  cbv zeta. split; [|split_and!; vm_compute; reflexivity].
  apply (wp_run (UpdatePool resized)
    (fun r w' => update_pool_result true resized world0 r w') world0).
  apply UpdatePool_spec. apply db0_wf.
Defined.

(** Without [force] the sample pool is not deleted, since a VM is leased; with
    it, the pool goes and flintlock deletes its three VMs. *)
Lemma DeletePool_spec_witness :
  let out := run (DeletePool true "web" "default" true) world0 in
  delete_pool_result true "web" "default" true world0 out.2 out.1 /\
  out.2 = Ok tt /\ size (vms (w_db out.1)) = 0 /\
  (run (DeletePool true "web" "default" false) world0).2 = Err FailedPrecondition.
Proof.
  cbv zeta. split; [|split_and!; vm_compute; reflexivity].
  apply (wp_run (DeletePool true "web" "default" true)
    (fun r w' => delete_pool_result true "web" "default" true world0 r w') world0).
  apply DeletePool_spec. apply db0_wf.
Defined.
