(* ===== verification/Healthy.v ===== *)
(** * A healthy environment

    [wp] asks what holds whatever flintlock answers.  Liveness needs more: a
    flintlock that does its work.  [under] is [wp] without store failures and
    with the answers restricted to those an [Environment] gives; [Healthy]
    states what a working flintlock promises, and the rest of the file what
    the client code makes of it. *)

From stdpp Require Import base gmap strings list.
From Stdlib Require Import ZArith Lia.
From S2P Require Import Prelude Types Convert Store StoreOps Concrete StoreProps Effects.
From S2P Require Import Flintlock ConcreteEnv Deletion Strategy Provision Reconciler Sweeper.
From S2P Require Import LeaseApi PoolAdmin HostAdmin EventsApi Protocols Quiet OneVM LeaseProps.

(** The answers an environment may give in a world, and the uids flintlock has
    handed out by then. *)
Class Environment := {
  answers {X : Set} : eff X -> world -> X -> Prop;
  issued : world -> string -> Prop
}.

(** The stream of a command that ran and exited with 0. *)
Definition exec_ok (s : ExecStream) : Prop :=
  open_err s = None /\ send_err s = None /\ closeSend_err s = None /\
  exists r, recv_loop (recv_end s) (recvs s) {| stdout := ""; stderr := ""; exitCode := 0 |} = Ok r /\
    exitCode r = 0%Z.

Class Healthy `{Codec, Sqlite, Semver} (env : Environment) : Prop := {
  issued_kept {X : Set} (e : eff X) w x w' u :
    exec_eff false e w x w' -> answers e w x -> issued w u -> issued w' u;
  create_answer c spec w x :
    answers (ERpc c (CreateMicroVM spec)) w x ->
    exists u, x = Ok u /\ u <> "" /\ ~ issued w u /\
      issued (logged [Called c (CallCreate spec) None] w) u;
  get_answer c uid w x :
    answers (ERpc c (GetMicroVM uid)) w x -> exists m, x = Ok m /\ mvm_state m = CREATED_STATE;
  delete_answer c uid w x :
    answers (ERpc c (DeleteMicroVM uid)) w x -> x = Ok tt \/ x = Err NotFound;
  info_answer c w x :
    answers (ERpc c ServerInfo) w x -> exists v core, x = Ok v /\ versionCore v = Some core /\
      (0 <= semver_compare core MinFlintlockVersion)%Z;
  exec_answer c uid cmd t w x : answers (EExec c uid cmd t) w x -> exec_ok x
}.

(** ** Weakest preconditions in an environment *)

Section under.
Context `{Codec, Sqlite} {env : Environment}.

Fixpoint under {A : Set} (p : prog A) : (A -> world -> Prop) -> world -> Prop :=
  match p in prog A0 return (A0 -> world -> Prop) -> world -> Prop with
  | Ret x => fun Q w => Q x w
  | Do e k => fun Q w =>
      forall x w', exec_eff false e w x w' -> answers e w x -> under (k x) Q w'
  | Fork c k => fun Q w => under c (fun _ w' => under k Q w') w
  end.

Lemma under_mono {A : Set} (p : prog A) (Q Q' : A -> world -> Prop) w :
  (forall x w', Q x w' -> Q' x w') -> under p Q w -> under p Q' w.
Proof.
  revert Q Q' w. induction p as [A x|A X e k IH|A c IHc k IHk]; intros Q Q' w HQ; simpl.
  - apply HQ.
  - intros Hk x w' He Ha. by eapply IH; [|apply Hk].
  - apply IHc. intros [] w'. by apply IHk.
Qed.

Lemma under_bind {A B : Set} (p : prog A) (f : A -> prog B) Q w :
  under p (fun x w' => under (f x) Q w') w -> under (bind p f) Q w.
Proof.
  revert w. induction p as [A x|A X e k IH|A c _ k IHk]; intros w; simpl; [done| |].
  - intros Hk x w' He Ha. by apply IH, Hk.
  - apply under_mono. intros [] w'. apply IHk.
Qed.

(** What holds whatever the answers holds for these. *)
Lemma under_wp {A : Set} (p : prog A) (Q : A -> world -> Prop) w : wp false p Q w -> under p Q w.
Proof.
  revert Q w. induction p as [A x|A X e k IH|A c IHc k IHk]; intros Q w; simpl; [done| |].
  - intros Hk x w' He _. by apply IH, Hk.
  - intros Hc. apply IHc in Hc. eapply under_mono; [|done]. intros [] w'. apply IHk.
Qed.

Lemma under_and {A : Set} (p : prog A) (Q R : A -> world -> Prop) w :
  under p Q w -> under p R w -> under p (fun x w' => Q x w' /\ R x w') w.
Proof.
  revert Q R w. induction p as [A x|A X e k IH|A c IHc k IHk]; intros Q R w; simpl; [done| |].
  - intros HQ HR x w' He Ha. apply IH; eauto.
  - intros HQ HR. eapply under_mono; [|by apply (IHc _ _ w HQ HR)]. intros [] w' []. by apply IHk.
Qed.

Lemma under_forall {T : Type} {A : Set} (p : prog A) (Q : T -> A -> world -> Prop) w :
  (forall t, under p (Q t) w) -> under p (fun x w' => forall t, Q t x w') w.
Proof.
  revert Q w. induction p as [A x|A X e k IH|A c IHc k IHk]; intros Q w; simpl; [done| |].
  - intros HQ x w' He Ha. apply IH. intros t. by apply HQ.
  - intros HQ. eapply under_mono; [|apply (IHc _ w HQ)]. intros [] w' Hk. by apply IHk.
Qed.

Lemma under_for_each {X} (l : list X) (f : X -> prog unit) (I : list X -> world -> Prop) w :
  (forall x l w, I (x :: l) w -> under (f x) (fun _ => I l) w) ->
  I l w -> under (for_each l f) (fun _ => I []) w.
Proof.
  intros Hf. revert w. induction l as [|x l IH]; intros w HI; cbn [for_each]; [done|].
  apply under_bind. eapply under_mono; [|by apply Hf]. intros [] w' HI'. by apply IH.
Qed.

(** An [Env] of this environment runs one of the executions considered. *)
Class Obeys (E : Env) : Prop := obeys_answers : forall {X : Set} (e : eff X) w,
  exec_eff false e w (run_eff e w).2 (run_eff e w).1 /\ answers e w (run_eff e w).2.

Lemma under_run {E : Env} `{!Obeys E} {A : Set} (p : prog A) (Q : A -> world -> Prop) w :
  under p Q w -> Q (run p w).2 (run p w).1.
Proof.
  revert Q w. induction p as [A x|A X e k IH|A c IHc k IHk]; intros Q w; simpl; [done| |].
  - intros Hk. destruct (obeys_answers e w) as [He Ha].
    destruct (run_eff e w) as [w' x]. by apply IH, Hk.
  - intros Hc. apply IHc in Hc. destruct (run c w) as [w' []]. by apply IHk.
Qed.

(** The dual of [under]: with some answers of the environment, [Q] comes out. *)
Fixpoint happens {A : Set} (p : prog A) : (A -> world -> Prop) -> world -> Prop :=
  match p in prog A0 return (A0 -> world -> Prop) -> world -> Prop with
  | Ret x => fun Q w => Q x w
  | Do e k => fun Q w =>
      exists x w', exec_eff false e w x w' /\ answers e w x /\ happens (k x) Q w'
  | Fork c k => fun Q w => happens c (fun _ w' => happens k Q w') w
  end.

(** An environment that always has an answer: what [under] promises does
    happen. *)
Class Total : Prop := total : forall {X : Set} (e : eff X) w,
  exists x w', exec_eff false e w x w' /\ answers e w x.

Lemma under_happens `{!Total} {A : Set} (p : prog A) (Q : A -> world -> Prop) w :
  under p Q w -> happens p Q w.
Proof.
  assert (forall (B : Set) (c : prog B) (R R' : B -> world -> Prop) w0,
    (forall x w', R x w' -> R' x w') -> happens c R w0 -> happens c R' w0) as Hmono.
  { intros B c. induction c as [B x|B X e k IH|B c IHc k IHk]; intros R R' w0 HR; simpl; [auto| |].
    - intros (x & w' & He & Ha & Hk). exists x, w'. split_and!; [done..|]. by eapply IH.
    - apply IHc. intros [] w'. by apply IHk. }
  revert Q w. induction p as [A x|A X e k IH|A c IHc k IHk]; intros Q w; simpl; [done| |].
  - intros Hk. destruct (total e w) as (x & w' & He & Ha). exists x, w'. split_and!; [done..|].
    by apply IH, Hk.
  - intros Hc. eapply Hmono; [|by apply IHc]. intros [] w'. apply IHk.
Qed.
End under.
Arguments Total {_ _} env.

(** ** Programs that leave the connections alone *)

Definition conn_eff {X : Set} (e : eff X) : Prop :=
  match e with EFlint (FlAdd _) | EFlint (FlSwap _) | EFlint (FlDrop _) => False | _ => True end.

Fixpoint keeps_conns {A : Set} (p : prog A) : Prop :=
  match p with
  | Ret _ => True
  | Do e k => conn_eff e /\ forall x, keeps_conns (k x)
  | Fork c k => keeps_conns c /\ keeps_conns k
  end.

Lemma kc_bind {A B : Set} (p : prog A) (f : A -> prog B) :
  keeps_conns p -> (forall x, keeps_conns (f x)) -> keeps_conns (bind p f).
Proof. induction p; simpl; naive_solver. Qed.

Lemma kc_for_each {X} (l : list X) (f : X -> prog unit) :
  (forall x, keeps_conns (f x)) -> keeps_conns (for_each l f).
Proof. intros Hf. induction l; cbn [for_each]; [done|]. by apply kc_bind. Qed.

Create HintDb conns.

Ltac kc_step :=
  lazymatch goal with
  | |- keeps_conns (bind _ _) => apply kc_bind; [|intros]
  | |- keeps_conns (Ret _) => exact I
  | |- keeps_conns (do _) => split; [exact I|intros; exact I]
  | |- keeps_conns (store _) => split; [exact I|intros; exact I]
  | |- keeps_conns now => split; [exact I|intros; exact I]
  | |- keeps_conns (go _) => split; [|exact I]
  | |- keeps_conns (for_each _ _) => apply kc_for_each; intros
  | |- keeps_conns (match ?x with _ => _ end) => destruct x
  | |- keeps_conns _ => solve [eauto with conns]
  | |- forall _, _ => intros
  end.
Ltac kc_tac := repeat kc_step.

Lemma kc_conn h : keeps_conns (Pool_conn h).
Proof. unfold Pool_conn. kc_tac. Qed.
Lemma kc_Client h : keeps_conns (Client h).
Proof. apply kc_conn. Qed.
Lemma kc_EmitEvent p u t : keeps_conns (EmitEvent p u t).
Proof. unfold EmitEvent. kc_tac. Qed.
#[export] Hint Resolve kc_conn kc_Client kc_EmitEvent : conns.
Lemma kc_EnsureCP v : keeps_conns (EnsureVMDeletedCheckingPool v).
Proof. unfold EnsureVMDeletedCheckingPool, delete_marked. kc_tac. Qed.
#[export] Hint Resolve kc_EnsureCP : conns.
Lemma kc_Ensure v : keeps_conns (EnsureVMDeleted v).
Proof. unfold EnsureVMDeleted. kc_tac. Qed.
Lemma kc_NotifyDeleted n p ns : keeps_conns (NotifyVMDeleted n p ns).
Proof. unfold NotifyVMDeleted. kc_tac. Qed.
#[export] Hint Resolve kc_Ensure kc_NotifyDeleted : conns.
Lemma kc_FinishRelease p v l n m : keeps_conns (FinishVMRelease p v l n m).
Proof. unfold FinishVMRelease. kc_tac. Qed.
#[export] Hint Resolve kc_FinishRelease : conns.
Lemma kc_FinishDeletion p v n m : keeps_conns (FinishVMDeletion p v n m).
Proof. unfold FinishVMDeletion. kc_tac. Qed.
#[export] Hint Resolve kc_FinishDeletion : conns.
Lemma kc_retry s d v : keeps_conns (retry_deletion s d v).
Proof. unfold retry_deletion. kc_tac. Qed.
#[export] Hint Resolve kc_retry : conns.
Lemma kc_retryPending s : keeps_conns (retryPendingDeletions s).
Proof. unfold retryPendingDeletions. kc_tac. Qed.
Lemma kc_delete_drained n v : keeps_conns (delete_drained n v).
Proof. unfold delete_drained. kc_tac. Qed.
#[export] Hint Resolve kc_retryPending kc_delete_drained : conns.
Lemma kc_drainHosts s : keeps_conns (drainHosts s).
Proof. unfold drainHosts, DeleteDrainedVMs. kc_tac. Qed.
Lemma kc_warn l : keeps_conns (warnExpiringSoon l).
Proof. unfold warnExpiringSoon. kc_tac. Qed.
Lemma kc_beginExpiry s l t : keeps_conns (beginExpiry s l t).
Proof. unfold beginExpiry. kc_tac. Qed.
#[export] Hint Resolve kc_drainHosts kc_warn kc_beginExpiry : conns.
Lemma kc_sweep_leases s t m ls : keeps_conns (sweep_leases s t m ls).
Proof. revert m. induction ls; intros m; cbn [sweep_leases]; unfold sweep_lease; kc_tac; auto. Qed.
#[export] Hint Resolve kc_sweep_leases : conns.
Lemma kc_Tick s t : keeps_conns (Tick s t).
Proof. unfold Tick. kc_tac. Qed.
Lemma kc_CountVMs n ns : keeps_conns (CountVMs n ns).
Proof. unfold CountVMs. kc_tac. Qed.
Lemma kc_cap p : keeps_conns (capForStaticNetwork p).
Proof. unfold capForStaticNetwork. kc_tac. Qed.

(** ** What stays as it is *)

Section rules.
Context `{Codec, Sqlite, Semver} {env : Environment} `{!Healthy env}.

(** The connections stay, and flintlock forgets no uid. *)
Record onward (w w' : world) : Prop := {
  on_conns : fl_hosts (w_flint w') = fl_hosts (w_flint w);
  on_issued u : issued w u -> issued w' u
}.
#[global] Instance onward_preorder : PreOrder onward.
Proof. split; [done|]. intros a b c [] []. split; [congruence|auto]. Qed.

Record steady (w w' : world) : Prop := {
  sd_core : same_core (w_db w) (w_db w');
  sd_onward : onward w w'
}.
#[global] Instance steady_preorder : PreOrder steady.
Proof. split; [done|]. intros a b c [] []. split; by etrans. Qed.

(** An effect that touches neither the tables nor the map of connections. *)
Definition calm {X : Set} (e : eff X) : Prop :=
  match e with
  | EStore o => quiet_op o = true
  | EFlint o => match o with
                | FlAdd _ | FlSwap _ | FlDrop _ => False
                | _ => True
                end
  | _ => True
  end.

Lemma calm_steady {X : Set} (e : eff X) w x w' :
  calm e -> exec_eff false e w x w' -> answers e w x -> steady w w'.
Proof.
  intros Hc He Ha. pose proof (fun u => issued_kept e w x w' u He Ha) as Hi.
  destruct e; simpl in Hc, He; try (subst w'; split; [done|by split]).
  - destruct He as [(now & now' & -> & ->)|[[=] _]]. split; [by apply quiet_op_core|by split].
  - destruct He as [-> ->]. split; [done|]. split; [|done]. by destruct o.
Qed.

Lemma under_calm {X : Set} (e : eff X) (Q : X -> world -> Prop) w :
  calm e -> (forall x w', answers e w x -> steady w w' -> Q x w') -> under (do e) Q w.
Proof. intros Hc HQ x w' He Ha. apply HQ; [done|]. by eapply calm_steady. Qed.

Lemma under_store {A : Set} (o : storeOp A) (Q : result StoreError A -> world -> Prop) w :
  (forall now now' db' x w', denote now now' o (w_db w) = (db', x) -> w_db w' = db' ->
     onward w w' -> Q x w') ->
  under (store o) Q w.
Proof.
  intros HQ x w' He Ha. pose proof (fun u => issued_kept _ w x w' u He Ha) as Hi.
  destruct He as [(now & now' & -> & ->)|[[=] _]].
  destruct (denote now now' o (w_db w)) as [db' x] eqn:E. by eapply HQ.
Qed.

Lemma under_now (Q : Timestamp -> world -> Prop) w :
  (forall t w', steady w w' -> Q t w') -> under now Q w.
Proof. intros HQ. apply (under_calm ENow); [done|]. auto. Qed.

Lemma under_EmitEvent p u t (Q : unit -> world -> Prop) w :
  (forall w', steady w w' -> Q tt w') -> under (EmitEvent p u t) Q w.
Proof.
  intros HQ. unfold EmitEvent. apply under_bind, under_now. intros at_ w1 Hs1.
  apply under_bind, under_calm; [done|]. intros _ w2 _ Hs2. cbn [under]. apply HQ. by etrans.
Qed.

Lemma under_conn h c (Q : result error connRef -> world -> Prop) w :
  fl_hosts (w_flint w) !! h = Some c -> (forall w', steady w w' -> Q (Ok c) w') ->
  under (Pool_conn h) Q w.
Proof.
  intros Hc HQ. unfold Pool_conn. apply under_bind. intros x w' He Ha.
  assert (steady w w') as Hs by (eapply calm_steady; [|exact He|exact Ha]; exact I).
  destruct He as [-> _]. cbn [under]. simpl. rewrite Hc. by apply HQ.
Qed.

Lemma under_Conn_CheckVersion c (Q : option error -> world -> Prop) w :
  (forall w', steady w w' -> Q None w') -> under (Conn_CheckVersion c) Q w.
Proof.
  intros HQ. unfold Conn_CheckVersion. apply under_bind, under_calm; [done|].
  intros conn w2 _ Hs2. destruct (conn_versionOK conn); [cbn [under]; by apply HQ|].
  apply under_bind, under_calm; [done|]. intros x w3 (v & core & -> & Ev & Hle)%info_answer Hs3.
  rewrite Ev, bool_decide_eq_true_2 by done. apply under_bind, under_calm; [done|].
  intros [] w4 _ Hs4. cbn [under]. apply HQ. etrans; [done|]. by etrans.
Qed.

Lemma under_CheckVersion h (Q : option error -> world -> Prop) w :
  is_Some (fl_hosts (w_flint w) !! h) -> (forall w', steady w w' -> Q None w') ->
  under (Pool_CheckVersion h) Q w.
Proof.
  intros [c Hc] HQ. unfold Pool_CheckVersion. apply under_bind, (under_conn h c); [done|].
  intros w1 Hs1. apply under_Conn_CheckVersion. intros w2 Hs2. apply HQ. by etrans.
Qed.

(** flintlock reports the microvm CREATED at the first poll. *)
Lemma under_waitCreated c uid (Q : option error -> world -> Prop) w :
  (forall w', steady w w' -> Q None w') -> under (waitCreated c uid) Q w.
Proof.
  intros HQ. unfold waitCreated. apply under_bind, under_calm; [done|]. intros rounds w1 _ Hs1.
  destruct rounds; cbn [wait_created]; (apply under_bind, under_calm; [done|]);
    intros x w2 (m & -> & ->)%get_answer Hs2; cbn [under]; apply HQ; by etrans.
Qed.

Lemma under_Exec c uid cmd t (Q : result error ExecResult -> world -> Prop) w :
  (forall r w', exitCode r = 0%Z -> steady w w' -> Q (Ok r) w') -> under (Exec c uid cmd t) Q w.
Proof.
  intros HQ. unfold Exec. apply under_bind, under_calm; [done|].
  intros x w1 (-> & -> & -> & r & -> & Hr)%exec_answer Hs. cbn [under]. by apply HQ.
Qed.

Lemma under_WaitReady c uid interval (Q : option error -> world -> Prop) w :
  (0 < interval)%Z -> (forall w', steady w w' -> Q None w') -> under (WaitReady c uid interval) Q w.
Proof.
  intros Hi HQ. unfold WaitReady. rewrite decide_False by lia.
  apply under_bind, under_calm; [done|]. intros rounds w1 _ Hs1.
  destruct rounds; cbn [wait_ready]; apply under_bind, under_Exec; intros r w2 _ Hs2; cbn [under];
    apply HQ; by etrans.
Qed.

Lemma under_run_commands c uid t cmds (Q : option error -> world -> Prop) w :
  (forall w', steady w w' -> Q None w') -> under (run_commands c uid t cmds) Q w.
Proof.
  revert w. induction cmds as [|cmd cmds IH]; intros w HQ; cbn [run_commands]; [by apply HQ|].
  apply under_bind, under_Exec. intros r w1 Hr Hs1. rewrite decide_False by lia.
  apply IH. intros w2 Hs2. apply HQ. by etrans.
Qed.

(** A program that leaves the map of connections alone. *)
Lemma under_keeps_conns {A : Set} (p : prog A) w :
  keeps_conns p -> under p (fun _ w' => onward w w') w.
Proof.
  revert w. induction p as [A x|A X e k IH|A c IHc k IHk]; intros w; simpl; [done| |].
  - intros [He Hk] x w' Hx Ha. assert (onward w w') as On.
    { split; [|intros u; by eapply issued_kept].
      destruct e; simpl in He, Hx; subst; try done.
      - by destruct Hx as [(now & now' & -> & ->)|[[=] _]].
      - destruct Hx as [_ ->]. by destruct o. }
    eapply under_mono; [|by apply IH]. intros y w'' On'. by etrans.
  - intros [Hc Hk]. eapply under_mono; [|by apply IHc]. intros [] w1 On1.
    eapply under_mono; [|by apply IHk]. intros y w2 On2. by etrans.
Qed.

Lemma under_confined (allow : forall A : Set, storeOp A -> Prop) (R : relation DB) `{!PreOrder R}
    {A : Set} (p : prog A) w :
  (forall (X : Set) now now' (o : storeOp X) db, allow X o -> R db (denote now now' o db).1) ->
  confined allow p -> keeps_conns p ->
  under p (fun _ w' => R (w_db w) (w_db w') /\ onward w w') w.
Proof.
  intros HR Hp Hc. apply under_and; [|by apply under_keeps_conns].
  apply under_wp, (wp_confined false allow R); done.
Qed.

Lemma under_quiet {A : Set} (p : prog A) (Q : A -> world -> Prop) w :
  quiet p -> keeps_conns p -> (forall x w', steady w w' -> Q x w') -> under p Q w.
Proof.
  intros Hq Hc HQ. eapply under_mono; [|apply (under_confined (fun _ o => quiet_op o = true)
    same_core); [intros X now now' o db; apply quiet_op_core|done..]].
  intros x w' [? ?]. apply HQ. by split.
Qed.
End rules.

(** ** A healthy environment that runs

    The environment [env0] of ConcreteEnv.v: microvms are numbered by the tick
    at which they are created, after the three of the sample database. *)

#[export] Instance environment0 : Environment := {|
  answers X e w x := x = (run_eff e w).2;
  issued w u := u ∈ ["vm-1"; "vm-2"; "vm-3"] \/ exists t, t < w_tick w /\ u = numbered "uid-" t
|}.

Lemma exec_tick `{Codec, Sqlite} {X : Set} (e : eff X) w x w' :
  exec_eff false e w x w' -> w_tick w' = S (w_tick w).
Proof.
  destruct e; simpl; try (by intros ->).
  - by intros [(now & now' & -> & ->)|[[=] _]].
  - by intros [-> ->].
Qed.

Lemma numbered_inj p t t' : numbered p t = numbered p t' -> t = t'.
Proof.
  unfold numbered. intros E%(inj (String.append p)).
  assert (Some (Pos.of_succ_nat t) = Some (Pos.of_succ_nat t')) as E'
    by (rewrite <- !unbits_bits; by rewrite E).
  injection E'. lia.
Qed.

#[export] Instance healthy0 : Healthy environment0.
Proof.
  split; try (cbn; by eauto).
  - intros X e w x w' u He%exec_tick _ [Hu|(t & Ht & ->)]; [by left|]. right. exists t. split; [lia|done].
  - intros c spec w x ->. exists (numbered "uid-" (w_tick w)). split_and!; [done| | |].
    + unfold numbered. by destruct (bits _).
    + intros [Hu|(t & Ht & E%numbered_inj)]; [|lia]. unfold numbered in Hu. simpl in Hu. set_solver.
    + right. exists (w_tick w). split; [simpl; lia|done].
  - intros c w x ->. exists "v0.15.2", "v0.15.2". done.
  - intros c uid cmd t w x ->. repeat split. eexists. split; reflexivity.
Qed.

#[export] Instance obeys0 : Obeys env0.
Proof.
  intros X e w. split; [|done]. destruct e; simpl; try done.
  - left. exists (1000 + Z.of_nat (w_tick w))%Z, (1000 + Z.of_nat (w_tick w))%Z.
    by destruct (denote _ _ _ _).
  - by destruct (flint_exec o (w_flint w)).
Qed.
