(* ===== verification/Liveness.v ===== *)
(** * What the daemon gets done

    With a healthy flintlock (Healthy.v) and a store that does not fail, the
    control loops reach their goals: a provision succeeds, a reconcile pass
    fills the pool and the next one finds nothing to do, a sweep finishes the
    deletions that are pending. *)

From stdpp Require Import base gmap strings list.
From Stdlib Require Import ZArith Lia.
From S2P Require Import Prelude Types Convert Store StoreOps Concrete StoreProps Effects.
From S2P Require Import Flintlock ConcreteEnv Deletion Strategy Provision Reconciler Sweeper.
From S2P Require Import LeaseApi PoolAdmin HostAdmin EventsApi Protocols Quiet OneVM LeaseProps.
From S2P Require Import ProvisionProps ReconcilerProps SweeperProps Healthy.

(** ** Provisioning *)

Section provisioning.
Context `{Codec, Sqlite, Semver} {env : Environment} `{!Healthy env}.

(** Writing a VM that nobody is deleting. *)
Lemma under_updatePhase pool v p (Q : VMRecord * option error -> world -> Prop) w :
  timed v -> held (vm_uid v) (w_db w) -> p <> DELETING ->
  (forall t w', only_vm (vm_uid v) (w_db w) (w_db w') -> at_phase v p (w_db w') -> onward w w' ->
     Q (set_updated_at t (set_phase p v), None) w') ->
  under (updatePhase pool v p) Q w.
Proof.
  intros Ht Hh Hp HQ. unfold updatePhase. apply under_bind, under_now. intros t w1 [Hs1 On1].
  set (v' := set_updated_at t (set_phase p v)).
  assert (timed v') as Ht' by (split; [apply Ht|by eexists]).
  apply (held_same _ _ _ Hs1) in Hh as (r & Hr & Hd).
  pose proof (updateVM_cases v' (w_db w1) Ht') as Hu.
  apply under_bind, under_store. intros now now' db' x w2 E Ew On2.
  unfold denote, UpdateVM in E. rewrite E in Hu. destruct x as [[]|e].
  - destruct Hu as (old & new & Hold & Hrow & _ & Hdb). cbn [under]. apply HQ; [| |by etrans].
    + etrans; [by apply same_only|]. rewrite Ew, Hdb. split; try done. intros u Hu. simpl.
      by rewrite lookup_insert_ne.
    + exists new. rewrite Ew, Hdb. simpl. by rewrite lookup_insert_eq.
  - exfalso. destruct Hu as [_ [Hn|(old & Ho & Hdel & _)]]; simpl in *; congruence.
Qed.

Lemma under_provision_hooks cfg pool h v (Q : option error -> world -> Prop) w :
  timed v -> held (vm_uid v) (w_db w) -> is_Some (fl_hosts (w_flint w) !! h) ->
  (0 < GuestAgentInterval cfg)%Z ->
  (forall w', only_vm (vm_uid v) (w_db w) (w_db w') -> onward w w' -> Q None w') ->
  under (provision_hooks cfg pool h v) Q w.
Proof.
  intros Ht Hh [c Hc] Hi HQ. unfold provision_hooks.
  apply under_bind, (under_conn h c); [done|]. intros w1 Hs1.
  apply under_bind, under_WaitReady; [done|]. intros w2 Hs2.
  apply under_bind, under_now. intros start w3 Hs3.
  apply under_bind, under_run_commands. intros w4 Hs4.
  apply under_bind, under_now. intros t w5 Hs5.
  apply under_bind, under_calm; [done|]. intros [] w6 _ Hs6.
  assert (steady w w6) as [Hs On].
  { etrans; [done|]. etrans; [done|]. etrans; [done|]. etrans; [done|]. by etrans. }
  apply under_bind, under_updatePhase; [done|by eapply held_same|done|].
  intros t' w7 Ho _ On7. apply under_bind, under_EmitEvent. intros w8 [Hs8 On8]. cbn [under].
  apply HQ; [|etrans; [done|]; by etrans].
  etrans; [by apply same_only|]. etrans; [done|by apply same_only].
Qed.

Lemma under_provision_recorded cfg pool h c v (Q : option error -> world -> Prop) w :
  timed v -> held (vm_uid v) (w_db w) -> is_Some (fl_hosts (w_flint w) !! h) ->
  (0 < GuestAgentInterval cfg)%Z ->
  (forall w', only_vm (vm_uid v) (w_db w) (w_db w') -> onward w w' -> Q None w') ->
  under (provision_recorded cfg pool h c v) Q w.
Proof.
  intros Ht Hh Hc Hi HQ. unfold provision_recorded.
  apply under_bind, under_EmitEvent. intros w1 Hs1.
  apply under_bind, under_waitCreated. intros w2 Hs2.
  assert (steady w w2) as [Hs On] by by etrans.
  apply under_bind, under_updatePhase; [done|by eapply held_same|done|].
  intros t w3 Ho Hat On3. apply under_provision_hooks; [split; [apply Ht|by eexists]| | |done|].
  - by apply (at_phase_held v CREATE_HOOK_RUNNING).
  - by rewrite (on_conns _ _ On3), (on_conns _ _ On).
  - intros w4 Ho4 On4. apply HQ; [|etrans; [done|]; by etrans].
    etrans; [by apply same_only|]. by etrans.
Qed.

(** Every VM on record was created by flintlock. *)
Definition all_issued (w : world) : Prop := forall u r, vms (w_db w) !! u = Some r -> issued w u.

Lemma all_issued_same w w' :
  vms (w_db w') = vms (w_db w) -> onward w w' -> all_issued w -> all_issued w'.
Proof. intros Ev On Ha u r. rewrite Ev. intros Hr. by eapply on_issued, Ha. Qed.

Lemma under_release id (Q : unit -> world -> Prop) w :
  (forall w', vms (w_db w') = vms (w_db w) -> onward w w' -> Q tt w') -> under (release id) Q w.
Proof.
  intros HQ. unfold release. apply under_bind, under_store. intros now now' db' x w1 E Ew On.
  unfold denote, ReleasePlacement, exec in E. injection E as <- <-. cbn [under].
  apply HQ; [by rewrite Ew|done].
Qed.

(** The microvm is created under a new uid, recorded and brought up. *)
Lemma under_provision_reserved cfg pool h id w :
  all_issued w -> is_Some (fl_hosts (w_flint w) !! h) -> (0 < GuestAgentInterval cfg)%Z ->
  under (provision_reserved cfg pool h id)
    (fun err w' => err = None /\ onward w w' /\ all_issued w') w.
Proof.
  intros Ha [c Hc] Hi. unfold provision_reserved.
  apply under_bind, (under_conn h c); [done|]. intros w1 Hs1.
  apply under_bind, under_CheckVersion; [rewrite (on_conns _ _ (sd_onward _ _ Hs1)); by eexists|].
  intros w2 Hs2. apply under_bind. intros x w3 He3 Ha3.
  assert (steady w2 w3) as Hs3 by (eapply calm_steady; [|exact He3|exact Ha3]; exact I).
  destruct (create_answer _ _ _ _ Ha3) as (uid & -> & Hne & Hfresh & Hiss).
  cbn [under]. rewrite decide_False by done. simpl in He3. rewrite <- He3 in Hiss.
  apply under_bind, under_now. intros t w4 Hs4.
  assert (steady w w4) as [Hs On] by (etrans; [done|]; etrans; [done|]; by etrans).
  assert (vms (w_db w) !! uid = None) as Hnone.
  { destruct (vms (w_db w) !! uid) as [r|] eqn:E; [|done]. destruct Hfresh.
    apply (on_issued _ _ (sd_onward _ _ Hs2)), (on_issued _ _ (sd_onward _ _ Hs1)). by eapply Ha. }
  set (v := new_vm pool h uid t). assert (timed v) as Ht by (split; by eexists).
  pose proof (CreateVM_cases v (w_db w4) Ht) as Hcv.
  apply under_bind, under_store. intros now now' db' y w5 E Ew On5. unfold denote in E.
  rewrite E in Hcv. destruct y as [[]|e].
  2: { exfalso. destruct Hcv as [_ [r Hr]]. rewrite (same_vms _ _ Hs) in Hr. simpl in Hr. congruence. }
  destruct Hcv as (_ & r & Hrow & Hdb). simpl in Hdb.
  apply under_bind, under_release. intros w6 Ev6 On6.
  assert (vms (w_db w6) = <[uid := r]> (vms (w_db w))) as Ev
    by (rewrite Ev6, Ew, Hdb; simpl; by rewrite (same_vms _ _ Hs)).
  assert (onward w w6) as On' by (etrans; [done|]; by etrans).
  assert (issued w6 uid) as Hu
    by (apply (on_issued _ _ On6), (on_issued _ _ On5), (on_issued _ _ (sd_onward _ _ Hs4)), Hiss).
  apply under_provision_recorded; [done| |by rewrite (on_conns _ _ On'); eexists|done|].
  - exists r. rewrite Ev. split; [apply lookup_insert_eq|]. destruct Hrow as [Hp _].
    by rewrite Hp.
  - intros w7 Ho7 On7. split_and!; [done|by etrans|]. intros u x Hx. apply (on_issued _ _ On7).
    destruct (decide (u = uid)) as [->|Hu']; [done|]. apply (on_issued _ _ On').
    rewrite (only_vms _ _ _ Ho7 u Hu'), Ev, lookup_insert_ne in Hx by done. by eapply Ha.
Qed.

(** What a provision needs: a host the pool names that takes VMs, a connection
    to each such host, flintlock's word for every VM on record, and no
    placement left over. *)
Record ready (pool : PoolSpec) (w : world) : Prop := {
  rd_rows : map_Forall host_row_ok (hosts (w_db w));
  rd_host : exists h, h ∈ flintlock_hosts pool /\ eligible h (w_db w);
  rd_conns h : h ∈ flintlock_hosts pool -> eligible h (w_db w) ->
    is_Some (fl_hosts (w_flint w) !! h);
  rd_issued : all_issued w;
  rd_placements : placements (w_db w) = ∅
}.

Lemma ready_kept pool w w' :
  ready pool w -> onward w w' -> hosts (w_db w') = hosts (w_db w) ->
  placements (w_db w') = placements (w_db w) -> all_issued w' -> ready pool w'.
Proof.
  intros [Hr Hh Hc Hi Hp] On Eh Ep Hi'. split; unfold eligible in *; rewrite ?Eh, ?Ep; try done.
  by rewrite (on_conns _ _ On).
Qed.

Lemma under_ineligible pool (Q : result error (list string) -> world -> Prop) w :
  map_Forall host_row_ok (hosts (w_db w)) ->
  (forall l w', w_db w' = w_db w -> onward w w' ->
     (forall n, (n ∈ l) <-> (n ∈ flintlock_hosts pool /\ ~ eligible n (w_db w))) -> Q (Ok l) w') ->
  under (ineligibleHosts pool) Q w.
Proof.
  intros W HQ. unfold ineligibleHosts. apply under_bind, under_store.
  intros now now' db' x w1 E Ew On. unfold denote in E.
  assert (exists hs, x = Ok hs /\ Store.ListHosts (w_db w) = (w_db w, Ok hs) /\ db' = w_db w)
    as (hs & -> & Eh & ->) by (revert E; unfold Store.ListHosts; store_simpl; intros [= <- <-]; eauto).
  cbn [under]. apply HQ; [done..|]. intros n. by apply elem_of_ineligible.
Qed.

Lemma under_PickHost pool l (Q : result error string -> world -> Prop) w :
  (exists h, h ∈ flintlock_hosts pool /\ h ∉ l) ->
  (forall h w', w_db w' = w_db w -> onward w w' -> h ∈ flintlock_hosts pool -> h ∉ l ->
     Q (Ok h) w') ->
  under (PickHost pool l) Q w.
Proof.
  intros (h0 & Hh0 & Hl0) HQ. unfold PickHost.
  destruct (filter (fun h => h ∉ l) (flintlock_hosts pool)) as [|best rest] eqn:Ef.
  { assert (h0 ∈ filter (fun h => h ∉ l) (flintlock_hosts pool)) as Hin
      by by apply list_elem_of_filter. rewrite Ef in Hin. by apply not_elem_of_nil in Hin. }
  apply under_bind, under_store. intros now now' db' x w1 E Ew On.
  unfold denote, ListVMsByPool, query in E. injection E as <- <-. cbn [under].
  match goal with |- Q (Ok (least_loaded ?vs best rest)) _ =>
    destruct (least_loaded_spec vs best rest) as [Hb _] end.
  rewrite <- Ef, list_elem_of_filter in Hb. destruct Hb. by apply HQ.
Qed.

Lemma ReservePlacement_free t id h n ns db :
  eligible h db -> placements db !! id = None ->
  exists p, ReservePlacement t id h n ns db = (set_placements (<[id := p]> (placements db)) db, Ok tt).
Proof.
  intros (r & Hr & Hc) Hp. unfold ReservePlacement. store_simpl. rewrite Hr, Hc, Hp. eauto.
Qed.

Lemma under_Provision_runs cfg pool w :
  ready pool w -> (0 < GuestAgentInterval cfg)%Z ->
  under (Provision cfg pool) (fun err w' => err = None /\ onward w w' /\ all_issued w') w.
Proof.
  intros [Hr Hh Hc Hi Hp] Hg. unfold Provision. apply under_bind, under_now. intros start w1 [S1 On1].
  apply under_bind. apply (under_mono _ (fun err w' => err = None /\ onward w w' /\ all_issued w')).
  { intros err w2 (-> & On & Ha). apply under_bind, under_now. intros t w3 [S3 On3].
    apply under_bind, under_calm; [done|]. intros [] w4 _ [S4 On4]. cbn [under].
    split_and!; [done|etrans; [done|]; by etrans|].
    eapply (all_issued_same w2); [|by etrans|done]. rewrite (same_vms _ _ S4). apply S3. }
  unfold provision_body. apply under_bind, under_ineligible; [by rewrite (same_hosts _ _ S1)|].
  intros l w2 Ew2 On2 Hl. apply under_bind, under_PickHost.
  { destruct Hh as (h & Hin & He). exists h. split; [done|]. rewrite Hl. intros [_ []].
    unfold eligible in *. by rewrite (same_hosts _ _ S1). }
  intros h w3 Ew3 On3 Hin Hnot. rewrite Hl in Hnot.
  assert (eligible h (w_db w)) as He.
  { apply dec_stable. intros Hn. apply Hnot. split; [done|]. unfold eligible in *.
    by rewrite (same_hosts _ _ S1). }
  apply under_bind, under_calm; [done|]. intros uuid w4 _ [S4 On4].
  assert (same_core (w_db w) (w_db w4)) as S by (etrans; [|done]; by rewrite Ew3, Ew2).
  assert (onward w w4) as On by (etrans; [done|]; etrans; [done|]; by etrans).
  apply under_bind, under_store. intros now now' db' x w5 E Ew On5. unfold denote in E.
  edestruct (ReservePlacement_free now (pool_name pool +:+ "-" +:+ String.substring 0 8 uuid) h
    (pool_name pool) (pool_namespace pool) (w_db w4)) as [p Ep].
  { unfold eligible in *. by rewrite (same_hosts _ _ S). }
  { rewrite (same_placements _ _ S), Hp. apply lookup_empty. }
  rewrite Ep in E. injection E as <- <-.
  assert (onward w w5) as On' by by etrans. eapply under_mono; [|apply under_provision_reserved].
  - intros err w6 (-> & On6 & Ha6). split_and!; [done|by etrans|done].
  - apply (all_issued_same w); [|done..]. rewrite Ew. apply S.
  - rewrite (on_conns _ _ On'). by apply Hc.
  - done.
Qed.

(** A provision succeeds: one more VM, AVAILABLE on an eligible host. *)
Lemma under_Provision cfg pool w :
  ready pool w -> (0 < GuestAgentInterval cfg)%Z ->
  under (Provision cfg pool) (fun err w' => err = None /\ onward w w' /\ ready pool w' /\
    provision_result false pool (w_db w) None (w_db w')) w.
Proof.
  intros Hr Hg. eapply under_mono; [|apply under_and; [by apply under_Provision_runs|apply under_wp,
    (wp_Provision false), Hr]].
  intros err w' [(-> & On & Ha) Hp]. split_and!; try done.
  destruct Hp as ([_ _ Eh] & Ep & _). eapply ready_kept; try done. by destruct Ep as [?|[[=] _]].
Qed.
End provisioning.

(** ** Reconciling *)

Section counts.
Context `{Codec, Sqlite}.

Lemma count_rows_ext n ns db (P P' : VMRecord -> Prop) `{forall v, Decision (P v)}
    `{forall v, Decision (P' v)} :
  (forall v, P v <-> P' v) -> count_rows n ns db P = count_rows n ns db P'.
Proof.
  intros HP. unfold count_rows. do 2 f_equal. apply list_filter_iff. intros r. by rewrite HP.
Qed.

(** The counts are determined by the database. *)
Lemma counts_exact_unique n ns db l1 l2 c1 c2 :
  (forall id : string, id ∈ l1 <-> id ∈ l2) ->
  counts_exact n ns db l1 c1 -> counts_exact n ns db l2 c2 -> c1 = c2.
Proof.
  intros Hl (A1 & C1 & L1 & P1 & Q1) (A2 & C2 & L2 & P2 & Q2).
  destruct c1 as [a1 cl1 le1 p1 q1], c2 as [a2 cl2 le2 p2 q2]; simpl in *.
  rewrite A1, A2, C1, C2, L1, L2, P1, P2, Q1, Q2.
  f_equal; apply count_rows_ext; intros v; by rewrite ?Hl.
Qed.

(** One row more. *)
Lemma count_rows_insert n ns db db' uid r (P : VMRecord -> Prop) `{forall v, Decision (P v)} :
  vms db !! uid = None -> vms db' = <[uid := r]> (vms db) -> in_pool n ns r ->
  count_rows n ns db' P = (count_rows n ns db P + if decide (P (rowToVM r)) then 1 else 0)%Z.
Proof.
  intros Hn Ev Hin. unfold count_rows, rows. rewrite Ev, map_to_list_insert by done.
  rewrite fmap_cons, filter_cons. repeat case_decide; simpl; try lia; exfalso; naive_solver.
Qed.

Lemma new_available_counts pool h db db' committed c :
  new_available pool h db db' ->
  counts_exact (pool_name pool) (pool_namespace pool) db committed c ->
  counts_exact (pool_name pool) (pool_namespace pool) db' committed (more_available 1 c).
Proof.
  intros (uid & r & _ & Hn & Ev & Hp & _ & Hin & _) (A & C & L & P & Q).
  assert (vm_phase (rowToVM r) = AVAILABLE) as Hph by (simpl; by rewrite Hp).
  split_and!; simpl; rewrite (count_rows_insert _ _ db db' uid r) by done;
    (case_decide as Hd; [|lia || (exfalso; naive_solver)]); rewrite Hph in Hd; naive_solver lia.
Qed.

Lemma new_available_has pool h db db' :
  new_available pool h db db' -> has_vm (pool_name pool) (pool_namespace pool) db'.
Proof.
  intros (uid & r & _ & _ & Ev & _ & _ & Hin & _). exists uid, r. split; [|done].
  rewrite Ev. apply lookup_insert_eq.
Qed.
End counts.

Section reconciling.
Context `{Codec, Sqlite, Semver} {env : Environment} `{!Healthy env}.

(** A VM ready to be claimed, on a host of the pool. *)
Definition in_stock (pool : PoolSpec) (r : vmRow) : Prop :=
  claimable (pool_name pool) (pool_namespace pool) r /\ vr_leaseID r = None /\
  vr_flintlockHost r ∈ flintlock_hosts pool.

(** [n] such VMs are new, the others were there. *)
Record stocked (pool : PoolSpec) (n : nat) (db db' : DB) : Prop := {
  sk_vms u r : vms db' !! u = Some r -> vms db !! u = Some r \/ in_stock pool r;
  sk_size : size (vms db') = size (vms db) + n
}.

(** [n] provisions that succeeded. *)
Record filled (pool : PoolSpec) (n : nat) (w w' : world) : Prop := {
  fi_grows : grows n (w_db w) (w_db w');
  fi_stocked : stocked pool n (w_db w) (w_db w');
  fi_ready : ready pool w';
  fi_onward : onward w w';
  fi_counts committed c :
    counts_exact (pool_name pool) (pool_namespace pool) (w_db w) committed c ->
    counts_exact (pool_name pool) (pool_namespace pool) (w_db w') committed
      (more_available (Z.of_nat n) c);
  fi_has : 0 < n -> has_vm (pool_name pool) (pool_namespace pool) (w_db w')
}.

Lemma has_vm_grows n ns k db db' : grows k db db' -> has_vm n ns db -> has_vm n ns db'.
Proof. intros G (u & r & Hr & Hin). exists u, r. split; [by apply (grows_vms _ _ _ G)|done]. Qed.

Lemma filled_refl pool w : ready pool w -> filled pool 0 w w.
Proof.
  intros Hr. split; [apply grows_refl|split; [by left|lia]|done|done| |lia]. intros committed c Hc.
  destruct c; unfold more_available; simpl. by rewrite Z.add_0_r.
Qed.

Lemma stocked_step pool h n db db1 db2 :
  h ∈ flintlock_hosts pool -> new_available pool h db db1 -> stocked pool n db1 db2 ->
  stocked pool (S n) db db2.
Proof.
  intros Hh (uid & r & _ & Hn & Ev & Hp & Hl & Hin & <-) [V S]. split.
  - intros u x Hx. destruct (V u x Hx) as [Hx1|]; [|by right]. rewrite Ev in Hx1.
    apply lookup_insert_Some in Hx1 as [[<- <-]|[_ Hx1]]; [right|by left]. by split.
  - rewrite S, Ev, map_size_insert_None by done. lia.
Qed.

Lemma filled_step pool n w w1 w2 :
  onward w w1 -> ready pool w1 -> provision_result false pool (w_db w) None (w_db w1) ->
  filled pool n w1 w2 -> filled pool (S n) w w2.
Proof.
  intros On Hr Hp [G Sk R O C Hh]. pose proof (provision_grows _ _ _ _ _ Hp) as G1.
  destruct Hp as (_ & _ & h & Hhost & _ & Hnew). split; [| |done|by etrans| |].
  - by apply (grows_trans 1 n (w_db w) (w_db w1)).
  - by eapply stocked_step.
  - intros committed c Hc. apply (new_available_counts pool h) with (db' := w_db w1) in Hc; [|done].
    apply C in Hc. unfold more_available in *. simpl in Hc.
    by replace (Available c + Z.of_nat (S n))%Z with (Available c + 1 + Z.of_nat n)%Z by lia.
  - intros _. by eapply has_vm_grows, new_available_has.
Qed.

Lemma under_start_provisions cfg pool n w :
  ready pool w -> (0 < GuestAgentInterval cfg)%Z ->
  under (start_provisions cfg pool n) (fun _ w' => filled pool n w w') w.
Proof.
  intros Hr Hi. revert w Hr. induction n as [|n IH]; intros w Hr; cbn [start_provisions].
  { cbn [under]. by apply filled_refl. }
  apply under_bind. change (under (bind (Provision cfg pool) (fun _ => Ret tt))
    (fun _ w' => under (start_provisions cfg pool n) (fun _ w'' => filled pool (S n) w w'') w') w).
  apply under_bind. eapply under_mono; [|by apply under_Provision].
  intros err w1 (-> & On & Hr1 & Hp). cbn [under].
  eapply under_mono; [|by apply IH]. intros [] w2. by apply filled_step.
Qed.

Lemma ready_steady pool w w' : steady w w' -> ready pool w -> ready pool w'.
Proof.
  intros [S On] Hr. eapply ready_kept; [done|done|apply S|apply S|].
  eapply all_issued_same; [apply S|done|apply Hr].
Qed.

(** The pool has a VM, and its template's fixed address allows no other. *)
Definition one_of_a_kind (pool : PoolSpec) (db : DB) : Prop :=
  TemplateHasStaticNetwork (microvm_template pool) = true /\
  has_vm (pool_name pool) (pool_namespace pool) db.

(** How many VMs a pass adds when its hook asked for [n]. *)
Lemma under_provisionN cfg pool n w :
  ready pool w -> (0 < GuestAgentInterval cfg)%Z -> (0 <= n)%Z ->
  under (provisionN cfg pool n) (fun _ w' =>
    (exists w1, w_db w1 = w_db w /\ filled pool (Z.to_nat n) w1 w' /\
       (TemplateHasStaticNetwork (microvm_template pool) = false \/ n = 0%Z)) \/
    (exists w1 k, w_db w1 = w_db w /\ filled pool k w1 w' /\ k <= 1 /\ k <= Z.to_nat n /\
       (has_vm (pool_name pool) (pool_namespace pool) (w_db w) -> k = 0) /\
       one_of_a_kind pool (w_db w'))) w.
Proof.
  intros Hr Hi Hn. unfold provisionN. apply under_bind. case_bool_decide as Hp; simpl;
    [destruct (TemplateHasStaticNetwork (microvm_template pool)) eqn:Et|].
  - eapply under_mono; [|apply under_and; [apply under_wp, wp_cap|apply under_keeps_conns, kc_cap]].
    2: { intros k w1 Ew Hk Hno Hyes. exact (conj Ew (conj Hk (conj Hno (Hyes eq_refl)))). }
    intros k w1 [(Ew & Hk & Hno & Hyes) On]. eapply under_mono; [|apply under_start_provisions; [|done]].
    + intros [] w2 F. right. exists w1, (Z.to_nat k). split_and!; [done..|lia|lia| |split; [done|]].
      * intros Hh. destruct Hk as [-> | ->]; [done|]. by destruct Hno.
      * destruct (fi_grows _ _ _ _ F) as [? ? ? Hv ?]. destruct Hk as [-> | ->].
        -- destruct (Hyes eq_refl) as (u & r & Hu & Hin). exists u, r. split; [|done].
           apply Hv. by rewrite Ew.
        -- apply (fi_has _ _ _ _ F). lia.
    + eapply ready_steady; [|done]. split; [by rewrite Ew|done].
  - cbn [under]. eapply under_mono; [|by apply under_start_provisions]. intros [] w2 F. left. exists w. auto.
  - cbn [under]. eapply under_mono; [|by apply under_start_provisions]. intros [] w2 F. left. exists w.
    split_and!; [done..|]. right. lia.
Qed.

Lemma grows_0 db db' : grows 0 db db' -> vms db' = vms db.
Proof.
  intros [_ _ _ Hv Hs]. symmetry. apply map_subseteq_size_eq; [|lia]. by apply map_subseteq_spec.
Qed.

Lemma under_CountVMs n ns (Q : result error VMCounts -> world -> Prop) w :
  (forall c committed w', w_db w' = w_db w -> onward w w' ->
     (forall id, id ∈ committed <-> committed_in n ns (w_db w) id) ->
     counts_exact n ns (w_db w) committed c -> Q (Ok c) w') ->
  under (CountVMs n ns) Q w.
Proof.
  intros HQ. apply (under_mono _ (fun r w' => (w_db w' = w_db w /\ exists c committed, r = Ok c /\
    (forall id, id ∈ committed <-> committed_in n ns (w_db w) id) /\
    counts_exact n ns (w_db w) committed c) /\ onward w w')).
  { intros r w' [(Ew & c & committed & -> & Hc & He) On]. by eapply HQ. }
  apply under_and; [|apply under_keeps_conns, kc_CountVMs].
  apply under_wp, wp_CountVMs; [|done]. intros c committed w' Ew Hc He. eauto 7.
Qed.

(** One pass: it adds what its hook asked for, or all a fixed address allows. *)
Lemma under_reconcile cfg pool (desired : PoolSpec -> VMCounts -> Z) w :
  ready pool w -> (0 < GuestAgentInterval cfg)%Z ->
  (Z.of_nat (size (vms (w_db w))) < 2 ^ 31)%Z ->
  (forall c, counts_ok c -> (0 <= desired pool c)%Z) ->
  under (reconcile cfg pool desired) (fun _ w' =>
    exists committed c k,
      (forall id, id ∈ committed <-> committed_in (pool_name pool) (pool_namespace pool) (w_db w) id) /\
      counts_exact (pool_name pool) (pool_namespace pool) (w_db w) committed c /\
      counts_exact (pool_name pool) (pool_namespace pool) (w_db w') committed
        (more_available (Z.of_nat k) c) /\
      grows k (w_db w) (w_db w') /\ stocked pool k (w_db w) (w_db w') /\ ready pool w' /\
      (Z.of_nat k <= desired pool c)%Z /\
      (Z.of_nat k = desired pool c \/ one_of_a_kind pool (w_db w')) /\
      (one_of_a_kind pool (w_db w) -> k = 0)) w.
Proof.
  intros Hr Hi Hs Hpos. unfold reconcile. apply under_bind, under_CountVMs.
  intros c committed w1 Ew On Hcom He.
  pose proof (Hpos c (counts_exact_ok _ _ _ _ _ Hs He)) as Hge.
  assert (ready pool w1) as Hr1 by (eapply ready_steady; [|done]; split; [by rewrite Ew|done]).
  eapply under_mono; [|by apply (under_provisionN cfg pool (desired pool c) w1)].
  intros [] w2 [(w3 & Ew3 & F & Hz)|(w3 & k & Ew3 & F & H1k & Hle & Hno & Hone)];
    rewrite Ew in *; exists committed, c.
  - exists (Z.to_nat (desired pool c)). destruct F as [G Sk R O C Hh]. rewrite Ew3 in *.
    split_and!; [done|done|by apply C|done|done|done|lia|left; lia|]. intros [Ht _].
    destruct Hz as [Hz|Hz]; [congruence|lia].
  - exists k. destruct F as [G Sk R O C Hh]. rewrite Ew3 in *.
    split_and!; [done|done|by apply C|done|done|done|lia|by right|]. intros [_ Hv]. by apply Hno.
Qed.

(** A pool on target is left alone. *)
Lemma under_reconcile_idle cfg pool (desired : PoolSpec -> VMCounts -> Z) w :
  ready pool w -> (0 < GuestAgentInterval cfg)%Z ->
  (Z.of_nat (size (vms (w_db w))) < 2 ^ 31)%Z ->
  (forall c, counts_ok c -> (0 <= desired pool c)%Z) ->
  (forall committed c,
     (forall id, id ∈ committed <-> committed_in (pool_name pool) (pool_namespace pool) (w_db w) id) ->
     counts_exact (pool_name pool) (pool_namespace pool) (w_db w) committed c ->
     desired pool c = 0%Z \/ one_of_a_kind pool (w_db w)) ->
  under (reconcile cfg pool desired) (fun _ w' => vms (w_db w') = vms (w_db w)) w.
Proof.
  intros Hr Hi Hs Hpos Hidle. eapply under_mono; [|by apply under_reconcile].
  intros [] w' (committed & c & k & Hcom & He & _ & G & _ & _ & Hle & _ & Hone). apply grows_0.
  assert (k = 0) as ->; [|done]. destruct (Hidle committed c Hcom He) as [Hz|Ho]; [lia|auto].
Qed.

Lemma NewStrategy_type pool s :
  NewStrategy (replenishment_strategy pool) = Ok s -> StrategyLaws (GetType pool) s.
Proof.
  unfold GetType. destruct (replenishment_strategy pool) as [spec|]; [|done].
  apply NewStrategy_laws.
Qed.

Lemma under_reconcile_target cfg pool s w :
  ready pool w -> (0 < GuestAgentInterval cfg)%Z -> size_ok pool ->
  (Z.of_nat (size (vms (w_db w))) + Z.max 0 (pool_size pool) < 2 ^ 31)%Z ->
  NewStrategy (replenishment_strategy pool) = Ok s ->
  under (reconcile cfg pool (DesiredNewVMs s)) (fun _ w' =>
    (exists committed c,
      (forall id, id ∈ committed <-> committed_in (pool_name pool) (pool_namespace pool) (w_db w') id) /\
      counts_exact (pool_name pool) (pool_namespace pool) (w_db w') committed c /\
      (target_met (GetType pool) pool c \/ one_of_a_kind pool (w_db w'))) /\
    vms (w_db w) ⊆ vms (w_db w') /\
    (forall u r, vms (w_db w') !! u = Some r -> vms (w_db w) !! u = Some r \/ in_stock pool r) /\
    under (reconcile cfg pool (DesiredNewVMs s)) (fun _ w'' => vms (w_db w'') = vms (w_db w')) w') w.
Proof.
  intros Hr Hi Hsz Hb L%NewStrategy_type.
  assert (forall c, counts_ok c -> 0 <= DesiredNewVMs s pool c <= Z.max 0 (pool_size pool))%Z as Hpos.
  { intros c Hc. pose proof (counted_range (GetType pool) c Hc).
    destruct (hooks_bounded pool c (DesiredNewVMs s) Hsz Hc) as [? ?]; [by left|lia]. }
  eapply under_mono; [|apply under_reconcile; try done; [lia|naive_solver]].
  intros [] w' (committed & c & k & Hcom & He & He' & G & Sk & Hr' & Hle & Hk & _).
  assert (counts_ok c) as Hc by (eapply counts_exact_ok; [|done]; lia).
  assert (Z.of_nat (size (vms (w_db w'))) < 2 ^ 31)%Z as Hs'.
  { pose proof (grows_size _ _ _ G). specialize (Hpos c Hc). lia. }
  assert (forall id, (id ∈ committed) <->
    committed_in (pool_name pool) (pool_namespace pool) (w_db w') id) as Hcom'.
  { intros id. rewrite Hcom. unfold committed_in. by rewrite (grows_leases _ _ _ G). }
  assert (target_met (GetType pool) pool (more_available (Z.of_nat k) c) \/
    one_of_a_kind pool (w_db w')) as Ht.
  { destruct Hk as [-> |]; [left|by right]. by apply desired_reaches. }
  split_and!; [by eauto|apply map_subseteq_spec, G|apply Sk|].
  apply under_reconcile_idle; [done..|naive_solver|]. intros l c' Hl Hc'.
  assert (more_available (Z.of_nat k) c = c') as <-
    by (eapply counts_exact_unique; [|done..]; intros id; by rewrite Hcom', Hl).
  destruct Ht as [Ht|]; [left|by right]. rewrite desired_exact by (done || by eapply counts_exact_ok).
  by rewrite decide_True.
Qed.

(** C11: The reconciler reaches its target.  With a flintlock that does its
    work, a store that does not fail, and a connected host that takes VMs, one
    pass provisions what the strategy asks for: afterwards the pool has as
    many VMs as its size (or, under MIN_SIZE_THRESHOLD, enough AVAILABLE
    ones), or else it has a VM and its template's fixed MAC or address allows
    no second.  No VM that was there is touched, every new one is AVAILABLE on a
    host of the pool, and the next pass finds nothing to do. *)
Theorem reconcile_reaches_target cfg pool s w :
  ready pool w -> (0 < GuestAgentInterval cfg)%Z -> size_ok pool ->
  (Z.of_nat (size (vms (w_db w))) + Z.max 0 (pool_size pool) < 2 ^ 31)%Z ->
  NewStrategy (replenishment_strategy pool) = Ok s ->
  under (reconcile cfg pool (DesiredNewVMs s)) (fun _ w' =>
    (exists committed c,
      (forall id, id ∈ committed <-> committed_in (pool_name pool) (pool_namespace pool) (w_db w') id) /\
      counts_exact (pool_name pool) (pool_namespace pool) (w_db w') committed c /\
      (target_met (GetType pool) pool c \/ one_of_a_kind pool (w_db w'))) /\
    vms (w_db w) ⊆ vms (w_db w') /\
    (forall u r, vms (w_db w') !! u = Some r -> vms (w_db w) !! u = Some r \/ in_stock pool r) /\
    under (reconcile cfg pool (DesiredNewVMs s)) (fun _ w'' => vms (w_db w'') = vms (w_db w')) w') w.
Proof. apply under_reconcile_target. Qed.
End reconciling.

(** ** Sweeping *)

Section sweeping.
Context `{Codec, Sqlite, Semver} {env : Environment} `{!Healthy env}.

(** flintlock confirms, and the row goes. *)
Lemma under_delete_marked v (Q : result error bool -> world -> Prop) w :
  is_Some (fl_hosts (w_flint w) !! vm_flintlock_host v) ->
  (forall b w', vms (w_db w') !! vm_uid v = None -> is_Some (vms (w_db w) !! vm_uid v) -> Q (Ok b) w') ->
  (forall e w', vms (w_db w') !! vm_uid v = None -> vms (w_db w) !! vm_uid v = None -> Q (Err e) w') ->
  under (delete_marked v) Q w.
Proof.
  intros [c Hc] Hok Herr. unfold delete_marked. apply under_bind, (under_conn _ c); [done|]. intros w1 S1.
  apply under_bind, under_calm; [done|]. intros x w2 Hx%delete_answer S2.
  assert (vms (w_db w2) = vms (w_db w)) as Ev by (apply (same_vms (w_db w)), sd_core; by etrans).
  assert (match x with Ok _ => None | Err NotFound => None | Err c => Some c end = None) as ->
    by by destruct Hx as [-> | ->].
  pose proof (DeleteVMCheckingPool_cases (vm_uid v) (w_db w2)) as Hd. rewrite Ev in Hd.
  apply under_bind, under_store. intros now now' db' y w3 E Ew _. cbn [under].
  unfold denote in E. rewrite E in Hd. destruct y as [b|e].
  - destruct Hd as [Hs ->]. apply Hok; [|done]. rewrite Ew. apply lookup_delete_eq.
  - destruct Hd as (-> & _ & Hn). apply Herr; [|done]. by rewrite Ew, Ev.
Qed.

Lemma under_EnsureCP v (Q : result error bool -> world -> Prop) w :
  timed v -> is_Some (fl_hosts (w_flint w) !! vm_flintlock_host v) ->
  (forall b w', vms (w_db w') !! vm_uid v = None -> is_Some (vms (w_db w) !! vm_uid v) -> Q (Ok b) w') ->
  (forall e w', vms (w_db w') !! vm_uid v = None -> vms (w_db w) !! vm_uid v = None -> Q (Err e) w') ->
  under (EnsureVMDeletedCheckingPool v) Q w.
Proof.
  intros Ht Hc Hok Herr. unfold EnsureVMDeletedCheckingPool. case_decide; [|by apply under_delete_marked].
  apply under_bind, under_now. intros t w1 [S1 On1]. set (v' := set_updated_at t (set_phase DELETING v)).
  pose proof (same_vms _ _ S1) as Ev.
  assert (timed v') as Ht' by (split; [apply Ht|by eexists]).
  pose proof (updateVM_cases v' (w_db w1) Ht') as Hu. rewrite Ev in Hu.
  apply under_bind, under_store. intros now now' db' x w2 E Ew On2. unfold denote, UpdateVM in E.
  rewrite E in Hu. destruct x as [[]|e].
  - destruct Hu as (old & new & Hold & _ & _ & Hdb).
    apply (under_delete_marked v'); [by rewrite (on_conns _ _ On2), (on_conns _ _ On1)|..].
    + intros b w3 Hn _. apply Hok; [done|by eexists].
    + intros e w3 Hn Hno. exfalso. revert Hno. rewrite Ew, Hdb. simpl. by rewrite lookup_insert_eq.
  - cbn [under]. destruct Hu as [-> [Hn|(old & _ & _ & [])]]; [|done].
    apply Herr; [|done]. by rewrite Ew, Ev.
Qed.

Lemma under_Ensure v w :
  timed v -> is_Some (fl_hosts (w_flint w) !! vm_flintlock_host v) ->
  under (EnsureVMDeleted v) (fun _ w' => vms (w_db w') !! vm_uid v = None) w.
Proof. intros Ht Hc. unfold EnsureVMDeleted. by apply under_bind, under_EnsureCP. Qed.

Lemma winds_down_absent u db db' : winds_down db db' -> vms db !! u = None -> vms db' !! u = None.
Proof.
  intros W Hn. destruct (vms db' !! u) as [r|] eqn:E; [|done].
  destruct (wd_vms _ _ W _ _ E) as [Hr|[[x Hx] _]]; congruence.
Qed.

Lemma under_wind {A : Set} (p : prog A) w :
  confined wind_op p -> keeps_conns p ->
  under p (fun _ w' => winds_down (w_db w) (w_db w') /\ onward w w') w.
Proof. apply (under_confined wind_op winds_down). apply wind_op_down. Qed.

(** A VM is gone once [p] has run, and stays so. *)
Lemma under_then_wind {A B : Set} (p : prog A) (k : A -> prog B) u w :
  under p (fun _ w' => vms (w_db w') !! u = None) w ->
  (forall x, confined wind_op (k x)) -> (forall x, keeps_conns (k x)) ->
  under (bind p k) (fun _ w' => vms (w_db w') !! u = None) w.
Proof.
  intros Hp Hk Hc. apply under_bind. eapply under_mono; [|exact Hp]. intros x w1 Hn.
  eapply under_mono; [|by apply under_wind]. intros y w2 [W _]. by eapply winds_down_absent.
Qed.

Lemma under_retry_deletion s d v w :
  timed v -> is_Some (fl_hosts (w_flint w) !! vm_flintlock_host v) ->
  under (retry_deletion s d v) (fun _ w' => vms (w_db w') !! vm_uid v = None) w.
Proof.
  intros Ht Hc. unfold retry_deletion. apply under_then_wind; [by apply under_Ensure|..]; intros x.
  - confined_tac quiet_wind_op.
  - kc_tac.
Qed.

(** A pending deletion whose host is connected is finished. *)
Lemma under_retryPending s u r w :
  own_keys (w_db w) -> vms (w_db w) !! u = Some r -> vr_phase r = phase_code DELETING ->
  is_Some (fl_hosts (w_flint w) !! vr_flintlockHost r) ->
  under (retryPendingDeletions s) (fun _ w' => vms (w_db w') !! u = None) w.
Proof.
  intros Hown Hr Hd Hc. unfold retryPendingDeletions. apply under_bind, under_store.
  intros now now' db' x w1 E Ew On1. unfold denote, ListVMsByPhase, query in E. injection E as <- <-.
  match goal with |- context [rowToVM <$> ?l] => set (rs := l) end.
  assert (rowToVM r ∈ rowToVM <$> rs) as Hin.
  { apply list_elem_of_fmap_2. unfold rs. rewrite elem_of_sort_on, list_elem_of_filter, elem_of_rows.
    eauto. }
  clearbody rs. destruct (rowToVM <$> rs) as [|v0 vs0] eqn:El; [by apply not_elem_of_nil in Hin|].
  rewrite <- El in *. clear El v0 vs0.
  apply under_bind, under_store. intros now1 now1' db2 hs w2 E2 Ew2 On2.
  assert (exists l, hs = Ok l) as [l ->]
    by (revert E2; unfold denote, Store.ListHosts; store_simpl; intros [= _ <-]; eauto).
  apply (under_mono _ (fun _ w' => (rowToVM r ∈ @nil VMRecord \/ vms (w_db w') !! u = None) /\
    fl_hosts (w_flint w') = fl_hosts (w_flint w))).
  { intros [] w' [[Hx|Hx] _]; [by apply not_elem_of_nil in Hx|done]. }
  apply (under_for_each _ _ (fun vs w' => (rowToVM r ∈ vs \/ vms (w_db w') !! u = None) /\
    fl_hosts (w_flint w') = fl_hosts (w_flint w))).
  2: { split; [by left|]. by rewrite (on_conns _ _ On2), (on_conns _ _ On1). }
  intros v vs w3 [HI Ec]. assert (under (retry_deletion s (draining_map l) v) (fun _ w' =>
    winds_down (w_db w3) (w_db w') /\ onward w3 w') w3) as Hw.
  { apply under_wind; [|apply kc_retry]. unfold retry_deletion. confined_tac quiet_wind_op. }
  destruct HI as [[<-|Hin']%elem_of_cons|Hn].
  - eapply under_mono; [|apply under_and; [exact Hw|apply under_retry_deletion]].
    + intros [] w4 [[_ On] Hn]. simpl in Hn. rewrite (Hown u r Hr) in Hn.
      split; [by right|]. by rewrite (on_conns _ _ On).
    + split; by eexists.
    + by rewrite Ec.
  - eapply under_mono; [|exact Hw]. intros [] w4 [_ On]. split; [by left|]. by rewrite (on_conns _ _ On).
  - eapply under_mono; [|exact Hw]. intros [] w4 [W On]. split; [right; by eapply winds_down_absent|].
    by rewrite (on_conns _ _ On).
Qed.

(** *** An expired lease *)

Section expired.
Context (id : string) (l : leaseRow) (v : vmRow).

(** Its VM is on a connected host and its pool can be read. *)
Record due (w : world) : Prop := {
  due_live : live id l v (w_db w);
  due_pool : is_Ok (Store.GetPool (lr_poolName l) (lr_poolNamespace l) (w_db w)).2 = true;
  due_conn : is_Some (fl_hosts (w_flint w) !! vr_flintlockHost v)
}.

(** Whatever winds down without touching this lease keeps it so. *)
Lemma under_due {A : Set} (p : prog A) w :
  due w -> confined wind_op p -> keeps_conns p ->
  wp false p (fun _ w' => live id l v (w_db w')) w -> under p (fun _ w' => due w') w.
Proof.
  intros [HJ Hp Hc] Hw Hk Hl. eapply under_mono; [|apply under_and; [apply under_wp, Hl|
    by apply under_wind]].
  intros x w' [HJ' [W On]]. split; [done| |].
  - by rewrite (GetPool_pools _ _ (w_db w)) by apply W.
  - by rewrite (on_conns _ _ On).
Qed.

Definition reclaimed (w : world) : Prop :=
  leases (w_db w) !! id = None /\ vms (w_db w) !! lr_vmUID l = None.

Lemma reclaimed_down w w' : winds_down (w_db w) (w_db w') -> reclaimed w -> reclaimed w'.
Proof.
  intros W [Hl Hv]. split; [|by eapply winds_down_absent].
  destruct (leases (w_db w') !! id) as [x|] eqn:E; [|done].
  pose proof (lookup_weaken _ _ _ _ E (wd_leases _ _ W)). congruence.
Qed.

(** Its turn. *)
Lemma under_expire s t w :
  (lr_expiresAt l <= t)%Z -> in_int64 t -> due w ->
  under (beginExpiry s (rowToLease l) t) (fun _ w' => reclaimed w') w.
Proof.
  intros He Ht [HJ Hpool Hconn].
  assert (lr_leaseID l = id) as Eid by apply (cl_leases _ _ _ (live_clean _ _ _ _ HJ)), HJ.
  assert (vr_uid v = lr_vmUID l) as Eu by apply (cl_keys _ _ _ (live_clean _ _ _ _ HJ)), HJ.
  apply (under_mono _ (fun _ w' => over id l (w_db w') /\ vms (w_db w') !! lr_vmUID l = None)).
  { intros _ w' [[Hl _] Hv]. done. }
  apply under_and.
  { apply under_wp, wp_expire_over; [done..|]. split; [apply HJ|left; apply HJ| |done].
    intros r Hr. rewrite (live_vm _ _ _ _ HJ) in Hr. injection Hr as <-. left. apply HJ. }
  unfold beginExpiry. pose proof (delete_expired_outcome_holds id t (w_db w)) as Ho.
  unfold delete_expired_outcome in Ho. rewrite (live_lease _ _ _ _ HJ) in Ho.
  rewrite decide_True in Ho by (unfold expired; by rewrite UnixNano_id).
  cbn [lease_id rowToLease lease_vm_uid lease_pool_name lease_pool_namespace]. rewrite Eid.
  apply under_bind, under_store. intros t1 t1' db' x w1 E Ew On1. unfold denote in E.
  rewrite Ho in E. injection E as <- <-. apply under_bind, under_calm; [done|]. intros [] w2 _ [S2 On2].
  apply under_bind, under_calm; [done|]. intros [] w3 _ [S3 On3].
  assert (same_core (w_db w1) (w_db w3)) as S by by etrans. clear S2 S3.
  assert (onward w w3) as On by (etrans; [done|]; by etrans). clear On1 On2 On3 w2.
  assert (vms (w_db w3) !! lr_vmUID l = Some v) as Hv
    by (rewrite (same_vms _ _ S), Ew; apply HJ).
  apply under_bind, under_store. intros t2 t2' db2 y w4 E4 Ew4 On4.
  assert (db2 = w_db w3 /\ y = Ok (rowToVM v)) as [-> ->].
  { revert E4. unfold denote, GetVM. store_simpl. rewrite Hv. by intros [= <- <-]. }
  rewrite decide_False by (intros Hn; apply Hn; simpl; by rewrite (live_leased _ _ _ _ HJ)).
  apply under_bind, under_store. intros t3 t3' db3 z w5 E5 Ew5 On5.
  assert (exists pool, z = Ok pool) as [pool ->].
  { destruct z as [pool|e]; [by eexists|]. exfalso. unfold denote in E5.
    rewrite <- (GetPool_pools _ _ _ (w_db w4)) in Hpool; [by rewrite E5 in Hpool|].
    by rewrite Ew4, (same_pools _ _ S), Ew. }
  rewrite <- Eu. apply under_then_wind; [apply (under_Ensure (rowToVM v)); [split; by eexists|]|..].
  - by rewrite (on_conns _ _ On5), (on_conns _ _ On4), (on_conns _ _ On).
  - intros err. confined_tac quiet_wind_op.
  - intros err. kc_tac.
Qed.

Lemma under_sweep s t ls m w :
  (lr_expiresAt l <= t)%Z -> in_int64 t -> rowToLease l ∈ ls -> Forall (scanned id l) ls -> due w ->
  under (sweep_leases s t m ls) (fun _ w' => reclaimed w') w.
Proof.
  intros He Ht Hin Hls. revert m w. induction Hls as [|x ls Hx Hls IH]; intros m w Hd;
    [by apply not_elem_of_nil in Hin|]. cbn [sweep_leases]. apply under_bind.
  destruct (decide (x = rowToLease l)) as [->|Hne].
  - unfold sweep_lease. rewrite decide_True by done. apply under_bind.
    eapply under_mono; [|by apply under_expire]. intros [] w1 Hr. cbn [under].
    eapply under_mono; [|apply under_wind; [apply wind_sweep_leases|apply kc_sweep_leases]].
    intros m' w2 [W _]. by eapply reclaimed_down.
  - apply elem_of_cons in Hin as [Hin|Hin]; [done|].
    eapply under_mono; [|apply (under_due (sweep_lease s t m x)); [done|apply wind_sweep_lease|..]].
    + intros m' w1. by apply IH.
    + unfold sweep_lease. kc_tac.
    + destruct Hx as [[_ ->]|[Hid Hvm]]; [done|]. destruct Hd as [HJ _ _]. unfold sweep_lease.
      case_decide; [|case_decide; [done|]; wp_skip; by eapply live_same].
      apply wp_bind. eapply wp_mono; [|apply (wp_expire_keeps id (lr_vmUID l) (live id l v) (another id l))];
        try done; eauto using live_same, live_retired, live_expire.
      * apply live_clean.
      * by intros ? [].
      * intros db r HJ' Hr. by eapply live_another.
Qed.


Lemma under_Tick_reclaims s t w :
  due w -> (lr_expiresAt l <= t)%Z -> (0 <= warningWindow s)%Z -> in_int64 t ->
  in_int64 (t + warningWindow s) ->
  under (Tick s t) (fun _ w' => reclaimed w') w.
Proof.
  intros Hd He Hwin Ht Htw. unfold Tick.
  apply under_bind. eapply under_mono; [|apply under_due; [done|apply wind_retry|apply kc_retryPending|
    apply wp_retry_live, Hd]]. intros ? w1 Hd1. cbv beta in Hd1.
  apply under_bind. eapply under_mono; [|apply under_due; [done|apply wind_drain|apply kc_drainHosts|
    apply wp_drain_live, Hd1]]. intros ? w2 [HJ Hp Hc].
  apply under_bind, under_store. intros t1 t1' db' found w3 E Ew On. unfold denote in E.
  assert (exists ls, found = Ok ls /\ rowToLease l ∈ ls) as (ls & -> & Hin).
  { revert E. unfold ListExpiredLeases, query. intros [= _ <-]. eexists. split; [done|].
    apply list_elem_of_fmap_2. rewrite elem_of_sort_on, list_elem_of_filter, scan_leases_perm,
      elem_of_rows. split; [|eexists; apply HJ]. rewrite UnixNano_id by done. lia. }
  destruct (live_scan id l v _ _ _ _ HJ E) as [-> Hls]. apply under_bind.
  eapply under_mono; [|apply under_sweep; [done|done|exact Hin|done|]]; [done|].
  split; [by rewrite Ew|by rewrite Ew|]. by rewrite (on_conns _ _ On).
Qed.
End expired.

Lemma under_Tick_finishes s t u r w :
  own_keys (w_db w) -> vms (w_db w) !! u = Some r -> vr_phase r = phase_code DELETING ->
  is_Some (fl_hosts (w_flint w) !! vr_flintlockHost r) ->
  under (Tick s t) (fun _ w' => vms (w_db w') !! u = None) w.
Proof.
  intros Hown Hr Hd Hc. unfold Tick. apply under_then_wind; [by eapply under_retryPending|..]; intros x.
  - confined_tac quiet_wind_op.
  - kc_tac.
Qed.

(** C12: The sweeper gets its work done.  With a flintlock that confirms
    deletions and a store that does not fail, one tick at time [t] removes
    every VM that was DELETING on a connected host and, for every lease that
    expired by [t], the lease and, if its host is connected, the VM: what one
    tick finds it does not leave to the next. *)
Theorem Tick_reclaims s t w :
  db_wf (w_db w) -> (0 <= warningWindow s)%Z -> in_int64 t -> in_int64 (t + warningWindow s) ->
  under (Tick s t) (fun _ w' =>
    (forall u r, vms (w_db w) !! u = Some r -> vr_phase r = phase_code DELETING ->
       is_Some (fl_hosts (w_flint w) !! vr_flintlockHost r) -> vms (w_db w') !! u = None) /\
    (forall id l v, due id l v w -> (lr_expiresAt l <= t)%Z ->
       leases (w_db w') !! id = None /\ vms (w_db w') !! lr_vmUID l = None)) w.
Proof.
  intros W Hwin Ht Htw. apply under_and.
  - repeat (apply under_forall; intros ?). by eapply under_Tick_finishes; [apply wf_own_keys|..].
  - repeat (apply under_forall; intros ?). by eapply under_Tick_reclaims.
Qed.
End sweeping.

(** ** Witnesses *)

Lemma world0_ready : ready pool0 world0.
Proof.
  split.
  - apply db0_wf.
  - exists "host-a". split; [by left|]. eexists. split; vm_compute; reflexivity.
  - intros h Hh _. repeat (apply elem_of_cons in Hh as [->|Hh]; [by eexists; vm_compute|]).
    by apply not_elem_of_nil in Hh.
  - intros u r Hr. left. apply elem_of_map_to_list in Hr. vm_compute in Hr. set_solver.
  - vm_compute. reflexivity.
Qed.

(** The sample pool wants three VMs and has one AVAILABLE and one leased: one
    is added. *)
Definition pool_of (n : Z) : PoolSpec :=
  {| pool_name := "web"; pool_namespace := "default";
     microvm_template := Some empty_MicroVMSpec; pool_size := n;
     flintlock_hosts := ["host-a"; "host-b"];
     replenishment_strategy := Some {| strategy_type := REPLACE_ON_DELETE; min_size := None |};
     create_commands := ["true"]; pre_lease_commands := ["true"];
     hook_failure_policy := DELETE_AND_REPLACE;
     heartbeat_interval := Some 10%Z; heartbeat_expiry_threshold := Some 30%Z |}.

Lemma reconcile_reaches_target_witness :
  let pass := reconcile DefaultProvisionConfig (pool_of 3) (DesiredNewVMs replaceOnDelete) in
  let out := run pass world0 in
  size (available "web" "default" (w_db out.1)) = 2 /\
  vms (w_db world0) ⊆ vms (w_db out.1) /\
  under pass (fun _ w' => vms (w_db w') = vms (w_db out.1)) out.1.
Proof.
  cbv zeta. split; [vm_compute; reflexivity|].
  pose (Q := fun (_ : unit) w' => vms (w_db world0) ⊆ vms (w_db w') /\
    under (reconcile DefaultProvisionConfig (pool_of 3) (DesiredNewVMs replaceOnDelete))
      (fun _ w'' => vms (w_db w'') = vms (w_db w')) w').
  apply (under_run (reconcile DefaultProvisionConfig (pool_of 3) (DesiredNewVMs replaceOnDelete)) Q).
  eapply under_mono; [|apply (reconcile_reaches_target DefaultProvisionConfig (pool_of 3)
    replaceOnDelete world0)].
  - intros x w' (_ & Hs & _ & Hu). by split.
  - destruct world0_ready as [Hr Hh Hc Hi Hp]. split; assumption.
  - reflexivity.
  - split; vm_compute; congruence.
  - vm_compute. reflexivity.
  - reflexivity.
Defined.

Lemma world0_due : due "lease-2" lease2_row vm2_row world0.
Proof.
  split; [|vm_compute; reflexivity|by eexists; vm_compute].
  split; [apply db0_clean|vm_compute; reflexivity..|].
  intros k x Hx _. apply elem_of_map_to_list in Hx. vm_compute in Hx.
  apply list_elem_of_singleton in Hx. by injection Hx as -> _.
Qed.

(** At 600 the lease that expired at 500 and its VM are reclaimed in one tick. *)
Lemma Tick_reclaims_witness :
  let out := run (Tick sweeper0 600) world0 in
  leases (w_db out.1) !! "lease-2" = None /\ vms (w_db out.1) !! "vm-2" = None.
Proof.
  cbv zeta. apply (under_run (Tick sweeper0 600) (fun _ w' =>
    leases (w_db w') !! "lease-2" = None /\ vms (w_db w') !! "vm-2" = None)).
  eapply under_mono; [|apply (Tick_reclaims sweeper0 600 world0 db0_wf)].
  - intros x w' [_ H]. apply (H "lease-2" lease2_row vm2_row world0_due). vm_compute. congruence.
  - vm_compute. congruence.
  - split; vm_compute; congruence.
  - split; vm_compute; congruence.
Defined.
