(* ===== verification/LeaseLiveness.v ===== *)
(** * What a client of the Lease service gets

    With a healthy flintlock (Healthy.v), a store that does not fail and the
    VMs' hosts connected: a claim of a pool that has an AVAILABLE VM succeeds,
    and so does the release of a lease. *)

From stdpp Require Import base gmap strings list.
From Stdlib Require Import ZArith Lia.
From S2P Require Import Prelude Types Convert Store StoreOps Concrete StoreProps Effects.
From S2P Require Import Flintlock ConcreteEnv Deletion Strategy Provision Reconciler Sweeper.
From S2P Require Import LeaseApi PoolAdmin HostAdmin EventsApi Protocols Quiet OneVM LeaseProps.
From S2P Require Import ProvisionProps ReconcilerProps SweeperProps Healthy Liveness.

Section claiming.
Context `{Codec, Sqlite, Semver} {env : Environment} `{!Healthy env}.

Lemma under_pre_lease s c p v cmds (Q : option error -> world -> Prop) w :
  (forall w', steady w w' -> Q None w') -> under (pre_lease_commands_loop s c p v cmds) Q w.
Proof.
  revert w. induction cmds as [|cmd cmds IH]; intros w HQ; cbn [pre_lease_commands_loop]; [by apply HQ|].
  apply under_bind, under_Exec. intros r w1 Hr Hs1. rewrite decide_False by lia.
  apply IH. intros w2 Hs2. apply HQ. by etrans.
Qed.

Lemma under_runPreLeaseHooks s p v (Q : VMRecord * option error -> world -> Prop) w :
  timed v -> held (vm_uid v) (w_db w) -> is_Some (fl_hosts (w_flint w) !! vm_flintlock_host v) ->
  (forall t w', only_vm (vm_uid v) (w_db w) (w_db w') -> held (vm_uid v) (w_db w') -> onward w w' ->
     Q (set_updated_at t (set_phase PRE_LEASE_HOOK_RUNNING v), None) w') ->
  under (runPreLeaseHooks s p v) Q w.
Proof.
  intros Ht Hh [c Hc] HQ. unfold runPreLeaseHooks. apply under_bind, under_now. intros t w1 [S1 On1].
  set (v' := set_updated_at t (set_phase PRE_LEASE_HOOK_RUNNING v)).
  assert (timed v') as Ht' by (split; [apply Ht|by eexists]).
  apply (held_same _ _ _ S1) in Hh as (r & Hr & Hd).
  pose proof (updateVM_cases v' (w_db w1) Ht') as Hu.
  apply under_bind, under_store. intros now now' db' x w2 E Ew On2.
  unfold denote, UpdateVM in E. rewrite E in Hu. destruct x as [[]|e].
  2: { exfalso. destruct Hu as [_ [Hn|(old & Ho & Hdel & _)]]; simpl in *; congruence. }
  destruct Hu as (old & new & _ & (Hph & _) & _ & Hdb).
  apply under_bind, (under_conn _ c); [simpl; by rewrite (on_conns _ _ On2), (on_conns _ _ On1)|].
  intros w3 Hs3. apply under_bind, under_now. intros start w4 Hs4.
  apply under_bind, under_pre_lease. intros w5 Hs5. apply under_bind, under_now. intros t2 w6 Hs6.
  apply under_bind, under_calm; [done|]. intros [] w7 _ Hs7. cbn [under].
  assert (steady w2 w7) as [S On] by (etrans; [done|]; etrans; [done|]; etrans; [done|]; by etrans).
  apply HQ; [| |etrans; [done|]; by etrans].
  - etrans; [by apply same_only|]. etrans; [|by apply same_only]. rewrite Ew, Hdb.
    split; try done. intros u Hu. simpl. by rewrite lookup_insert_ne.
  - eapply held_same; [done|]. exists new. rewrite Ew, Hdb. simpl. by rewrite lookup_insert_eq, Hph.
Qed.

(** The uuids drawn for leases are new ones, as long as the leases are [ls]. *)
Definition new_uuids (ls : gmap string leaseRow) : Prop :=
  forall w x, leases (w_db w) = ls -> answers EUUID w x -> ls !! x = None.

Lemma under_commit s p v n ns rid w :
  timed v -> held (vm_uid v) (w_db w) -> ~ request_id_used rid (w_db w) ->
  new_uuids (leases (w_db w)) ->
  under (commit_claim s p v n ns rid) (fun r _ => is_Ok r = true) w.
Proof.
  intros Ht Hh Hrid Hnew. unfold commit_claim. apply under_bind, under_calm; [done|].
  intros id w1 Hid [S1 _]. apply (Hnew w id eq_refl) in Hid.
  apply under_bind, under_now. intros t w2 [S2 _].
  assert (same_core (w_db w) (w_db w2)) as S by by etrans. pose proof (same_leases _ _ S) as El.
  set (v' := set_updated_at t (set_lease_id (Some id) (set_phase LEASED v))).
  assert (timed v') as Ht' by (split; [apply Ht|by eexists]).
  destruct (leaseToRow (new_lease id rid v' n ns t (t + expiry_threshold p))) as [l|] eqn:Erow; [|done].
  pose proof (LeaseVM_cases v' _ l (w_db w2) Ht' Erow (held_same _ _ _ S Hh)) as Hc.
  apply under_bind, under_store. intros now now' db' x w3 E Ew On. unfold denote in E.
  rewrite E in Hc. destruct x as [[]|e].
  - apply under_wp. wp_skip. wp_skip. wp_skip. wp_skip. done.
  - exfalso. destruct Hc as [[_ (Hne & i & r & Hi & Hr)]|[_ Hs]].
    + apply Hrid. split; [done|]. exists i, r. by rewrite <- El.
    + simpl in Hs. rewrite El, Hid in Hs. by destruct Hs.
Qed.

(** Every AVAILABLE VM of the pool is on a connected host. *)
Definition reachable_vms (n ns : string) (w : world) : Prop :=
  forall u r, vms (w_db w) !! u = Some r -> claimable n ns r ->
    is_Some (fl_hosts (w_flint w) !! vr_flintlockHost r).

Lemma under_fresh_claim s p n ns rid w :
  db_wf (w_db w) -> ~ request_id_used rid (w_db w) -> new_uuids (leases (w_db w)) ->
  available n ns (w_db w) <> ∅ -> reachable_vms n ns w ->
  under (fresh_claim s p n ns rid) (fun r _ => is_Ok r = true) w.
Proof.
  intros W Hrid Hnew Hav Hconn. unfold fresh_claim. apply under_bind, under_store.
  intros now now' db' x w1 E Ew On. unfold denote in E.
  pose proof (claim_outcome_holds now n ns (w_db w) W) as Hc. rewrite E in Hc.
  destruct x as [v|e]; [|by destruct Hc as (_ & _ & Hno)].
  destruct Hc as (uid & r & Hr & Hcl & Hdb & Hv & Hu). subst v. rewrite Hdb in Ew. clear E Hdb.
  set (v := rowToVM (mark_leased now r)) in *. assert (timed v) as Ht by (split; by eexists).
  apply under_bind, under_runPreLeaseHooks; [done| | |].
  - exists (mark_leased now r). rewrite Hu, Ew. split; [apply lookup_insert_eq|done].
  - rewrite (on_conns _ _ On). simpl. by eapply Hconn.
  - intros t w2 Ho Hh _. assert (leases (w_db w2) = leases (w_db w)) as El
      by (rewrite (only_leases _ _ _ Ho), Ew; done).
    apply under_commit; [split; by eexists|done| |by rewrite El].
    intros (Hne & i & y & Hi & Hy). apply Hrid. split; [done|]. exists i, y. by rewrite <- El.
Qed.

Lemma under_ClaimVM s req w :
  let n := ref_name (claim_pool req) in let ns := ref_namespace (claim_pool req) in
  db_wf (w_db w) -> is_Ok (Store.GetPool n ns (w_db w)).2 = true ->
  String.length (claim_request_id req) <= maxRequestIDLength ->
  ~ request_id_used (claim_request_id req) (w_db w) -> new_uuids (leases (w_db w)) ->
  available n ns (w_db w) <> ∅ -> reachable_vms n ns w ->
  under (ClaimVM s req) (fun r w' => exists resp, r = Ok resp /\
    claim_committed n ns (claim_request_id req) resp (w_db w) (w_db w')) w.
Proof.
  intros n ns W Hpool Hlen Hrid Hnew Hav Hconn.
  eapply under_mono; [|apply (under_and _ (fun r _ => is_Ok r = true)); [|apply under_wp,
    (wp_ClaimVM false s req w W)]].
  { intros r w' [Hok Hres]. destruct r as [resp|c]; [|done]. exists resp. split; [done|].
    destruct Hres as [[Hu _]|[_ Hc]]; [done|exact Hc]. }
  unfold ClaimVM. rewrite decide_False by lia. fold n ns.
  apply under_bind, under_store. intros now now' db' x w1 E Ew On. unfold denote in E.
  assert (exists p, x = Ok p) as [p ->] by (rewrite E in Hpool; destruct x; [by eexists|done]).
  apply GetPool_Ok in E as ->.
  assert (forall w2, w_db w2 = w_db w -> onward w w2 ->
    under (fresh_claim s p n ns (claim_request_id req)) (fun r _ => is_Ok r = true) w2) as Hfresh.
  { intros w2 Ew2 On2. apply under_fresh_claim; rewrite ?Ew2; try done. intros u r.
    rewrite Ew2, (on_conns _ _ On2). apply Hconn. }
  case_decide as Hne; [|by apply Hfresh].
  apply under_bind, under_store. intros now2 now2' db2 y w2 E2 Ew2 On2. rewrite Ew in E2.
  unfold denote in E2. destruct y as [lease|e].
  { exfalso. apply GetLeaseByRequestID_Ok in E2 as (_ & r & Hr & Hx & _); [|apply W].
    apply Hrid. split; [done|]. eauto. }
  assert (db2 = w_db w /\ e = ErrNotFound) as [-> ->]
    by (revert E2; unfold GetLeaseByRequestID; store_simpl; by destruct (head _); intros E2; simplify_eq/=).
  apply Hfresh; [done|by etrans].
Qed.

(** C13: An AVAILABLE VM can be claimed.  With a flintlock that does its work,
    a store that does not fail and uuids that are new, ClaimVM of a pool that
    has an AVAILABLE VM, with a request id no lease carries, succeeds when the
    hosts of all its AVAILABLE VMs are connected (the store picks which of them is
    taken): one of them is now LEASED under the new
    lease it answers with. *)
Theorem available_VM_claimable s req w :
  let n := ref_name (claim_pool req) in let ns := ref_namespace (claim_pool req) in
  db_wf (w_db w) -> is_Ok (Store.GetPool n ns (w_db w)).2 = true ->
  String.length (claim_request_id req) <= maxRequestIDLength ->
  ~ request_id_used (claim_request_id req) (w_db w) -> new_uuids (leases (w_db w)) ->
  available n ns (w_db w) <> ∅ -> reachable_vms n ns w ->
  under (ClaimVM s req) (fun r w' => exists resp, r = Ok resp /\
    claim_committed n ns (claim_request_id req) resp (w_db w) (w_db w')) w.
Proof. apply under_ClaimVM. Qed.
End claiming.

Section releasing.
Context `{Codec, Sqlite, Semver} {env : Environment} `{!Healthy env}.

Lemma under_release_gone s id l (Q : result code unit -> world -> Prop) w :
  (forall w', Q (Ok tt) w') -> under (release_gone s id l) Q w.
Proof. intros HQ. apply under_wp, wp_release_gone; [intros; apply HQ|done]. Qed.

Lemma under_ReleaseVM s id l w :
  db_wf (w_db w) -> leases (w_db w) !! id = Some l ->
  (forall r, vms (w_db w) !! lr_vmUID l = Some r ->
     is_Some (fl_hosts (w_flint w) !! vr_flintlockHost r)) ->
  under (ReleaseVM s id) (fun r w' => r = Ok tt /\ leases (w_db w') !! id = None /\
    vms (w_db w') !! lr_vmUID l = None) w.
Proof.
  intros W Hl Hconn. eapply under_mono; [|apply (under_and _ (fun r _ => r = Ok tt));
    [|apply under_wp, (wp_ReleaseVM false s id w W)]].
  { intros r w' [-> (l' & Hl' & _ & Hv & Hlease)]. rewrite Hl in Hl'. injection Hl' as <-. auto. }
  unfold ReleaseVM. apply under_bind, under_store. intros now now' db' x w1 E Ew On.
  assert (db' = w_db w /\ x = Ok (rowToLease l)) as [-> ->].
  { revert E. unfold denote, GetLease. store_simpl. rewrite Hl. by intros [= <- <-]. }
  apply under_bind, under_store. intros now2 now2' db2 y w2 E2 Ew2 On2. rewrite Ew in E2.
  assert (db2 = w_db w) as ->.
  { revert E2. unfold denote, GetVM. store_simpl. by destruct (vms (w_db w) !! _); intros [= <- _]. }
  destruct y as [v|e].
  - apply GetVM_Ok in E2 as (_ & r & Hr & ->). simpl in Hr.
    unfold release_vm. apply under_bind, under_EnsureCP; [split; by eexists| | |].
    + simpl. rewrite (on_conns _ _ On2), (on_conns _ _ On). by apply Hconn.
    + intros b w3 _ _. destruct b; [|by apply under_release_gone].
      by apply under_wp, wp_bind, wp_FinishVMRelease.
    + intros e w3 _ Hn. simpl in Hn. rewrite Ew2 in Hn.
      assert (vr_uid r = lr_vmUID l) as Eu by by destruct (wf_vms _ W _ _ Hr). congruence.
  - assert (e = ErrNotFound) as ->.
    { revert E2. unfold denote, GetVM. store_simpl. by destruct (vms (w_db w) !! _); intros [= <-]. }
    by apply under_release_gone.
Qed.

(** A lease can be released.  With a flintlock that does its work, a store
    that does not fail and the VM's host connected, ReleaseVM of a stored lease
    succeeds, and the lease and its VM are gone. *)
Theorem lease_releasable s id l w :
  db_wf (w_db w) -> leases (w_db w) !! id = Some l ->
  (forall r, vms (w_db w) !! lr_vmUID l = Some r ->
     is_Some (fl_hosts (w_flint w) !! vr_flintlockHost r)) ->
  under (ReleaseVM s id) (fun r w' => r = Ok tt /\ leases (w_db w') !! id = None /\
    vms (w_db w') !! lr_vmUID l = None) w.
Proof. apply under_ReleaseVM. Qed.
End releasing.

(** ** Witnesses *)

Lemma available_VM_claimable_witness :
  let out := run (ClaimVM server0 (web0 "req-9")) world0 in
  exists resp, out.2 = Ok resp /\ claim_committed "web" "default" "req-9" resp db0 (w_db out.1).
Proof.
  cbv zeta. apply (under_run (ClaimVM server0 (web0 "req-9")) (fun r w' => exists resp, r = Ok resp /\
    claim_committed "web" "default" "req-9" resp db0 (w_db w'))).
  apply (available_VM_claimable server0 (web0 "req-9") world0 db0_wf).
  - vm_compute. reflexivity.
  - vm_compute. lia.
  - intros (_ & i & r & Hi & Hr). apply elem_of_map_to_list in Hi. vm_compute in Hi.
    apply list_elem_of_singleton in Hi. by injection Hi as -> ->.
  - intros w x _ ->. destruct (leases (w_db world0) !! _) as [l|] eqn:E; [|reflexivity].
    exfalso. apply elem_of_map_to_list in E. vm_compute in E. apply list_elem_of_singleton in E.
    by injection E as E _.
  - vm_compute. discriminate.
  - intros u r Hr _. apply elem_of_map_to_list in Hr. vm_compute in Hr.
    repeat (apply elem_of_cons in Hr as [Hr|Hr]; [injection Hr as -> ->; by eexists; vm_compute|]).
    by apply not_elem_of_nil in Hr.
Defined.

Lemma lease_releasable_witness :
  let out := run (ReleaseVM server0 "lease-2") world0 in
  out.2 = Ok tt /\ leases (w_db out.1) !! "lease-2" = None /\ vms (w_db out.1) !! "vm-2" = None.
Proof.
  cbv zeta. apply (under_run (ReleaseVM server0 "lease-2") (fun r w' => r = Ok tt /\
    leases (w_db w') !! "lease-2" = None /\ vms (w_db w') !! "vm-2" = None)).
  apply (lease_releasable server0 "lease-2" lease2_row world0 db0_wf).
  - vm_compute. reflexivity.
  - intros r Hr. vm_compute in Hr. injection Hr as <-. by eexists; vm_compute.
Defined.
