(* ===== verification/FakeFlintlock.v ===== *)
(** * The fake flintlock of the end-to-end suites: [src/internal/e2etest/flintlock.go]

    The MicroVM and MicroVMExec services the suites run the daemon against, as
    functions of the fake's counter, and the pool spec they use.  The fake is a
    [Healthy] environment. *)

From stdpp Require Import base gmap strings list pretty.
From Stdlib Require Import ZArith Lia.
From S2P Require Import Prelude Types Convert Store StoreOps Concrete StoreProps Effects.
From S2P Require Import Flintlock ConcreteEnv Deletion Strategy Provision Reconciler Sweeper.
From S2P Require Import LeaseApi PoolAdmin HostAdmin Healthy.

(** ** The services *)

(** [FakeMicroVM]; its [int] counts the microvms created, far below 2^63. *)
Record FakeMicroVM := { nextUID : Z }.

Definition fake_uid (n : Z) : string := "e2e-vm-" +:+ pretty n.

(** The answer is the uid of the returned microvm, whose spec is the request's
    with that uid and whose state is CREATED. *)
Definition Fake_CreateMicroVM (f : FakeMicroVM) (spec : MicroVMSpec)
    : FakeMicroVM * result code string :=
  let n := (nextUID f + 1)%Z in
  ({| nextUID := n |}, Ok (fake_uid n)).

Definition Fake_GetMicroVM (uid : string) : result code MicroVM :=
  Ok {| mvm_state := CREATED_STATE; network_interfaces := [("eth0", "eth0")] |}.

Definition Fake_DeleteMicroVM (uid : string) : result code unit := Ok tt.

Definition Fake_ServerInfo : result code string := Ok MinFlintlockVersion.

(** [ExecCommand], given what receiving the start message answered: what it
    sends, and the status it ends the stream with. *)
Definition Fake_ExecCommand (recv : option code) : list payload * option code :=
  match recv with
  | Some err => ([], Some err)
  | None => ([ExitCode 0], None)
  end.

(** ** Fixtures *)

(** The host [StartFakeFlintlock] dials; [addr] is the listener's address. *)
Definition fake_host (addr : string) : Host :=
  {| host_name := "host-a"; host_address := addr; host_cordoned := false;
     host_cordoned_reason := ""; host_cordoned_at := None; host_updated_at := None;
     host_tls := Some {| tls_insecure := true; ca_file := ""; cert_file := ""; key_file := "" |};
     host_draining := false; host_draining_at := None |}.

(** The client pool with its one host; the test fails on an error. *)
Definition StartFakeFlintlock (addr : string) : prog (option error) :=
  Pool_New [Some (fake_host addr)].

Definition MinSizeThresholdPoolSpec (name : string) (size minSize : Z) : PoolSpec :=
  {| pool_name := name; pool_namespace := "e2e";
     microvm_template := Some
       {| spec_id := ""; spec_namespace := ""; allow_guest_agent := false; interfaces := [];
          spec_rest := "vcpu:1 memory_in_mb:1024" |};
     pool_size := size; flintlock_hosts := ["host-a"];
     replenishment_strategy := Some {| strategy_type := MIN_SIZE_THRESHOLD; min_size := Some minSize |};
     create_commands := []; pre_lease_commands := [];
     hook_failure_policy := DELETE_AND_REPLACE;
     heartbeat_interval := Some 30000000000%Z; heartbeat_expiry_threshold := Some 90000000000%Z |}.

(** ** The fake as an environment *)

(** The fake after the calls of a log. *)
Definition fake_serve (f : FakeMicroVM) (a : action) : FakeMicroVM :=
  match a with Called _ (CallCreate spec) _ => (Fake_CreateMicroVM f spec).1 | _ => f end.
Definition fake_state (log : list action) : FakeMicroVM := fold_left fake_serve log {| nextUID := 0 |}.

Definition fake_rpc (f : FakeMicroVM) {A : Set} (r : rpc A) : result code A :=
  match r in rpc B return result code B with
  | CreateMicroVM spec => (Fake_CreateMicroVM f spec).2
  | GetMicroVM uid => Fake_GetMicroVM uid
  | DeleteMicroVM uid => Fake_DeleteMicroVM uid
  | ServerInfo => Fake_ServerInfo
  end.

(** The client's end of an exec stream whose start message arrives. *)
Definition fake_stream : ExecStream :=
  {| open_err := None; send_err := None; closeSend_err := None;
     recvs := (Fake_ExecCommand None).1; recv_end := (Fake_ExecCommand None).2 |}.

(** The network works, no context is cancelled, and a new uuid is the id of no
    lease; the clock, the timers and the reconcilers answer as they like. *)
#[export] Instance fake_environment : Environment := {|
  answers X e w :=
    match e in eff Y return Y -> Prop with
    | ERpc _ r => fun x => x = fake_rpc (fake_state (w_log w)) r
    | EExec _ _ _ _ => fun x => x = fake_stream
    | ENewClient _ => fun x => x = true
    | ECtxErr => fun x => x = None
    | EUUID => fun x => leases (w_db w) !! x = None
    | _ => fun _ => True
    end;
  issued w u := exists n, (1 <= n <= nextUID (fake_state (w_log w)))%Z /\ u = fake_uid n
|}.

Lemma fake_uid_inj n m : fake_uid n = fake_uid m -> n = m.
Proof. unfold fake_uid. by intros E%(inj (String.append _))%(inj pretty). Qed.

Lemma fake_serve_up l f : (nextUID f <= nextUID (fold_left fake_serve l f))%Z.
Proof.
  revert f. induction l as [|a l IH]; intros f; simpl; [lia|]. etrans; [|apply IH].
  destruct a as [c r e| | | | | |]; simpl; try lia. destruct r; simpl; lia.
Qed.

Section fake.
Context `{Codec, Sqlite, Semver}.

Lemma exec_log {X : Set} (e : eff X) w x w' :
  exec_eff false e w x w' -> exists l, w_log w' = w_log w ++ l.
Proof.
  assert (exists l, w_log w = w_log w ++ l) as Hn by (exists []; by rewrite app_nil_r).
  destruct e; simpl; try (intros ->; simpl; by eauto).
  - by intros [(now & now' & -> & ->)|[[=] _]].
  - by intros [-> ->].
Qed.

(** The fake always answers. *)
#[global] Instance fake_total : Total fake_environment.
Proof.
  assert (forall (X : Set) (e : eff X) w x, answers e w x ->
    (forall w', w' = logged (log_of e x) w -> exec_eff false e w x w') ->
    exists x w', exec_eff false e w x w' /\ answers e w x) as Hlog by (intros; eauto).
  intros X e w. destruct e.
  - exists (denote 0 0 o (w_db w)).2. eexists. split; [|done]. left. by exists 0%Z, 0%Z.
  - by apply (Hlog _ ENow w 0%Z).
  - apply (Hlog _ EUUID w (fresh (dom (leases (w_db w))))); [|done]. apply not_elem_of_dom, is_fresh.
  - by apply (Hlog _ ECtxErr w None).
  - by apply (Hlog _ EBudget w 0).
  - by eapply (Hlog _ (ERpc c r)).
  - by eapply (Hlog _ (EExec c uid cmd timeoutSeconds)).
  - by exists (flint_exec o (w_flint w)).2, (set_flint (flint_exec o (w_flint w)).1 w).
  - by apply (Hlog _ (ECreds t) w true).
  - by apply (Hlog _ (ENewClient address) w true).
  - by apply (Hlog _ (ENotify n) w tt).
  - by apply (Hlog _ (EMetric m) w tt).
  - by apply (Hlog _ (EStart spec) w None).
  - by apply (Hlog _ (EStop name namespace) w tt).
  - by apply (Hlog _ (EStopWait name namespace) w None).
  - by apply (Hlog _ (ESend e) w None).
  - exists tt. eexists. by split.
  - exists tt. eexists. by split.
Qed.

(** What the fake needs of [semver]: the minimum version is a version, and no
    older than itself. *)
Class MinVersionOK : Prop := {
  min_valid : semver_valid MinFlintlockVersion = true;
  min_refl : (0 <= semver_compare MinFlintlockVersion MinFlintlockVersion)%Z
}.
Context `{!MinVersionOK}.

#[global] Instance fake_healthy : Healthy fake_environment.
Proof.
  split.
  - intros X e w x w' u [l El]%exec_log _ (n & Hn & ->). exists n. split; [|done]. rewrite El.
    unfold fake_state. rewrite fold_left_app. pose proof (fake_serve_up l (fake_state (w_log w))).
    unfold fake_state in *. lia.
  - intros c spec w x ->. exists (fake_uid (nextUID (fake_state (w_log w)) + 1)).
    pose proof (fake_serve_up (w_log w) {| nextUID := 0 |}) as Hup. simpl in Hup.
    split_and!; [done|done| |].
    + intros (n & Hn & E%fake_uid_inj). lia.
    + eexists. split; [|done]. unfold fake_state in *. simpl. rewrite fold_left_app. simpl. lia.
  - intros c uid w x ->. eexists. split; reflexivity.
  - intros c uid w x ->. by left.
  - intros c w x ->. exists MinFlintlockVersion, MinFlintlockVersion. split_and!; [done| |apply min_refl].
    unfold versionCore. change (until_dash_plus (with_v MinFlintlockVersion)) with MinFlintlockVersion.
    by rewrite min_valid.
  - intros c uid cmd t w x ->. repeat split. eexists. split; reflexivity.
Qed.
End fake.
