(* ===== verification/GoldenPath.v ===== *)
(** * The golden path, end to end

    The scenario of [TestE2E_PoolLifecycle] in
    [src/cmd/poolmgrd/e2e_test.go], run against the fake flintlock
    (FakeFlintlock.v): a host is registered, a pool created, its reconciler
    fills it, a VM is claimed and released.  It succeeds whatever the clock,
    the uuids and the timers answer. *)

From stdpp Require Import base gmap strings list.
From Stdlib Require Import ZArith Lia.
From S2P Require Import Prelude Types Convert Store StoreOps Concrete StoreProps Effects.
From S2P Require Import Flintlock ConcreteEnv Deletion Strategy Provision Reconciler Sweeper.
From S2P Require Import LeaseApi PoolAdmin HostAdmin EventsApi Protocols Quiet OneVM LeaseProps.
From S2P Require Import ProvisionProps ReconcilerProps SweeperProps HostProps.
From S2P Require Import Healthy Liveness LeaseLiveness FakeFlintlock.

(** ** Well-formedness along the way *)

Definition keeps_wf {A : Set} (p : prog A) : Prop := confined (fun _ o => op_ok o) p.

Lemma quiet_op_ok (A : Set) (o : storeOp A) : quiet_op o = true -> op_ok o.
Proof. by destruct o. Qed.

Create HintDb opok.

Ltac opok_tac :=
  repeat lazymatch goal with
  | |- keeps_wf (bind _ _) => apply confined_bind; [|intros]
  | |- keeps_wf (Ret _) => exact I
  | |- keeps_wf (store _) => split; [first [exact I|done]|intros; exact I]
  | |- keeps_wf (for_each _ _) => apply confined_for_each; intros
  | |- keeps_wf (go _) => split; [|exact I]
  | |- keeps_wf (match ?x with _ => _ end) => destruct x
  | |- keeps_wf _ => first [ solve [apply quiet_confined; [apply quiet_op_ok|quiet_tac]]
                           | solve [eauto with opok] ]
  | |- confined _ ?p => change (keeps_wf p)
  end.

Lemma vm_op_ok uid (A : Set) (o : storeOp A) : vm_op uid A o -> op_ok o.
Proof. by destruct o. Qed.
Lemma wind_op_ok (A : Set) (o : storeOp A) : wind_op A o -> op_ok o.
Proof. by destruct o. Qed.

Lemma ok_Apply p v h m : keeps_wf (ApplyHookFailurePolicy p v h m).
Proof. eapply confined_mono; [apply (vm_op_ok (vm_uid v))|apply onevm_Apply]. Qed.
Lemma ok_policy s p v : keeps_wf (apply_pre_lease_policy s p v).
Proof. eapply confined_mono; [apply (vm_op_ok (vm_uid v))|apply onevm_policy]. Qed.
Lemma ok_Ensure v : keeps_wf (EnsureVMDeleted v).
Proof. eapply confined_mono; [apply (vm_op_ok (vm_uid v))|apply onevm_Ensure]. Qed.
#[export] Hint Resolve ok_Apply ok_policy ok_Ensure : opok.
Lemma ok_fail p v : keeps_wf (applyHookFailurePolicy p v).
Proof. unfold applyHookFailurePolicy. opok_tac. Qed.
#[export] Hint Resolve ok_fail : opok.
Lemma ok_updatePhase p v ph : keeps_wf (updatePhase p v ph).
Proof. unfold updatePhase. opok_tac. Qed.
#[export] Hint Resolve ok_updatePhase : opok.
Lemma ok_hooks cfg p h v : keeps_wf (provision_hooks cfg p h v).
Proof. unfold provision_hooks, fail_with. opok_tac. Qed.
#[export] Hint Resolve ok_hooks : opok.
Lemma ok_recorded cfg p h c v : keeps_wf (provision_recorded cfg p h c v).
Proof. unfold provision_recorded, fail_with. opok_tac. Qed.
Lemma ok_orphan v : keeps_wf (deleteOrphan v).
Proof. unfold deleteOrphan. opok_tac. Qed.
#[export] Hint Resolve ok_recorded ok_orphan : opok.

Section wf.
Context `{Codec, Sqlite, Semver}.

Lemma ok_Provision cfg p : keeps_wf (Provision cfg p).
Proof. unfold Provision, provision_body, provision_reserved, release. opok_tac. Qed.
#[local] Hint Resolve ok_Provision : opok.
Lemma ok_start cfg p n : keeps_wf (start_provisions cfg p n).
Proof. induction n; cbn [start_provisions]; opok_tac. Qed.
#[local] Hint Resolve ok_start : opok.
Lemma ok_reconcile cfg p d : keeps_wf (reconcile cfg p d).
Proof. unfold reconcile, CountVMs, provisionN, capForStaticNetwork. opok_tac. Qed.

Lemma ok_loop s c p v cmds : keeps_wf (pre_lease_commands_loop s c p v cmds).
Proof. induction cmds; cbn [pre_lease_commands_loop]; opok_tac. Qed.
#[local] Hint Resolve ok_loop : opok.
Lemma ok_replay l n ns : keeps_wf (replayClaim l n ns).
Proof. unfold replayClaim. opok_tac. Qed.
#[local] Hint Resolve ok_replay : opok.
Lemma ok_ClaimVM s req : keeps_wf (ClaimVM s req).
Proof. unfold ClaimVM, fresh_claim, runPreLeaseHooks, commit_claim, yieldClaim. opok_tac. Qed.

Lemma ok_AddHost h skip : keeps_wf (AddHost h skip).
Proof.
  unfold AddHost, AddHost_body, add_dialled, dialHost, install, locked, Dial, dialCredentials,
    Conn_CheckVersion, Pool_Update, Pool_Add, Conn_Close. opok_tac.
Qed.

Lemma wp_wf faults {A : Set} (p : prog A) w :
  keeps_wf p -> db_wf (w_db w) -> wp faults p (fun _ w' => db_wf (w_db w')) w.
Proof.
  intros Hp W. apply (wp_confined faults (fun _ o => op_ok o) (fun db db' => db_wf db -> db_wf db')
    (PreOrder0 := {| PreOrder_Reflexive := fun _ x => x;
                     PreOrder_Transitive := fun _ _ _ f g x => g (f x) |})); [|done|by auto].
  intros X now now' o db. apply op_keeps_wf.
Qed.
End wf.

(** ** The connections along the way *)

Lemma kc_Apply p v h m : keeps_conns (ApplyHookFailurePolicy p v h m).
Proof. unfold ApplyHookFailurePolicy, deleteAfterHookFailure. kc_tac. Qed.
#[export] Hint Resolve kc_Apply : conns.
Lemma kc_policy s p v : keeps_conns (apply_pre_lease_policy s p v).
Proof. unfold apply_pre_lease_policy. kc_tac. Qed.
Lemma kc_response i v : keeps_conns (claimResponse i v).
Proof. unfold claimResponse, Address. kc_tac. Qed.
#[export] Hint Resolve kc_policy kc_response : conns.
Lemma kc_replay l n ns : keeps_conns (replayClaim l n ns).
Proof. unfold replayClaim. kc_tac. Qed.
Lemma kc_loop s c p v cmds : keeps_conns (pre_lease_commands_loop s c p v cmds).
Proof. induction cmds; cbn [pre_lease_commands_loop]; unfold Exec; kc_tac. Qed.
#[export] Hint Resolve kc_replay kc_loop : conns.
Lemma kc_ClaimVM s req : keeps_conns (ClaimVM s req).
Proof.
  unfold ClaimVM, fresh_claim, runPreLeaseHooks, commit_claim, yieldClaim, ExecClient, NotifyVMClaimed.
  kc_tac.
Qed.

(** ** The steps *)

Section steps.
Context `{C : Codec} `{!CodecLaws C} `{Sqlite, Semver} `{!MinVersionOK}.

(** A new process over a new store. *)
Record pristine (w : world) : Prop := {
  pr_db : w_db w = empty_db;
  pr_hosts : fl_hosts (w_flint w) = ∅;
  pr_flint : flint_ok (w_flint w)
}.

Lemma fake_host_valid addr t :
  addr <> "" -> validateHost (Some (fake_host addr)) = None /\
  validateHost (Some (added_host (fake_host addr) t)) = None.
Proof. intros Ha. unfold validateHost. cbn. repeat case_decide; naive_solver. Qed.

Lemma under_Dial_ok h (Q : result error connRef -> world -> Prop) w :
  validateHost (Some h) = None -> tls_insecure (GetTls h) = true ->
  (forall c w', steady w w' -> Q (Ok c) w') -> under (Dial (Some h)) Q w.
Proof.
  intros Hv Ht HQ. unfold Dial, dialCredentials. rewrite Hv, Ht. cbn [bind].
  apply under_bind. intros x w1 He1 ->. cbn [under]. apply under_bind, under_calm; [done|].
  intros c w2 _ Hs. cbn [under]. apply HQ. etrans; [|done].
  by apply (calm_steady (ENewClient (host_address h)) w true w1).
Qed.

Lemma under_Dial addr w :
  addr <> "" -> flint_ok (w_flint w) ->
  under (Dial (Some (fake_host addr))) (fun r w' => exists c conn, r = Ok c /\ unmoved w w' /\
    holding c conn (w_flint w') /\ conn_name conn = "host-a" /\ conn_versionOK conn = false) w.
Proof.
  intros Ha Hf. eapply under_mono; [|apply (under_and _ (fun r _ => is_Ok r = true)); [|apply under_wp,
    (wp_Dial false (fake_host addr) (fun r w' => match r with
       | Ok c => exists conn, unmoved w w' /\ holding c conn (w_flint w') /\
           conn_name conn = "host-a" /\ conn_versionOK conn = false
       | Err _ => True end)); [done|done|eauto]]].
  - intros r w' [Hok Hr]. destruct r as [c|]; [|done]. destruct Hr as (conn & ?). by exists c, conn.
  - by apply under_Dial_ok; [apply (fake_host_valid addr 0)|..].
Qed.

Lemma q_close_all cs : quiet (close_all cs).
Proof. induction cs; cbn [close_all]; unfold Conn_Close; quiet_tac. Qed.
Lemma q_Start addr : quiet (StartFakeFlintlock addr).
Proof.
  unfold StartFakeFlintlock, Pool_New, Dial, dialCredentials, Pool_Add, Pool_Close, Conn_Close.
  quiet_tac; apply q_close_all.
Qed.

(** The client pool with its one connection. *)
Lemma under_Start addr w :
  addr <> "" -> pristine w ->
  under (StartFakeFlintlock addr) (fun err w' => err = None /\ flint_ok (w_flint w') /\
    same_core empty_db (w_db w') /\ db_wf (w_db w')) w.
Proof.
  intros Ha [Hdb Hno Hf].
  apply (under_mono _ (fun err w' => (err = None /\ flint_ok (w_flint w')) /\
    same_core empty_db (w_db w') /\ db_wf (w_db w'))); [naive_solver|].
  apply under_and; [|apply under_and; apply under_wp].
  - unfold StartFakeFlintlock. cbn [Pool_New]. apply under_bind. eapply under_mono; [|by apply under_Dial].
    intros r w1 (c & conn & -> & Hu & Hh & Hn & _). cbn [under].
    apply under_bind, under_bind, under_bind. intros x w2 [-> ->] _.
    destruct Hh as [Hc Ho Hr]. assert (deref c (w_flint w1) = conn) as Ed by (unfold deref; by rewrite Hc).
    assert (fl_hosts (w_flint w1) !! conn_name conn = None) as Hfree
      by (rewrite (un_hosts _ _ Hu), Hno; apply lookup_empty).
    cbn [under flint_exec]. rewrite Ed, Hfree. cbn [fst snd]. split; [done|].
    by apply (holding_add c conn).
  - apply wp_quiet; [apply q_Start|]. by rewrite Hdb.
  - apply wp_wf; [|rewrite Hdb; apply empty_db_wf].
    apply quiet_confined; [apply quiet_op_ok|apply q_Start].
Qed.

Lemma under_install c w : under (install c) (fun err _ => err = None) w.
Proof.
  unfold install, Pool_Update, Pool_Add, Conn_Close. cbn. intros x w1 [-> ->] _. cbn.
  destruct (fl_hosts (w_flint w) !! conn_name (deref c (w_flint w))) as [old|] eqn:E; cbn.
  - intros y w2 _ _. by destruct y.
  - intros y w2 [-> _] _. cbn. by rewrite E.
Qed.

(** The registry's one host, connected; nothing else is stored. *)
Record registered (w : world) : Prop := {
  re_hosts : exists row, hosts (w_db w) = {["host-a" := row]} /\ hr_cordoned row = false;
  re_pools : pools (w_db w) = ∅;
  re_vms : vms (w_db w) = ∅;
  re_leases : leases (w_db w) = ∅;
  re_placements : placements (w_db w) = ∅;
  re_wf : db_wf (w_db w);
  re_conn : is_Some (fl_hosts (w_flint w) !! "host-a")
}.

Lemma under_AddHost_ok addr w :
  addr <> "" -> flint_ok (w_flint w) -> hosts (w_db w) = ∅ ->
  under (AddHost (fake_host addr) false) (fun r _ => is_Ok r = true) w.
Proof.
  intros Ha Hf Hno. unfold AddHost. apply under_bind. intros t w1 -> _. cbn [under].
  rewrite decide_False by done. unfold locked. apply under_bind. intros [] w2 -> _. cbn [under].
  apply under_bind. apply (under_mono _ (fun r _ => is_Ok r = true)).
  { intros r w' Hr. apply under_bind. by intros [] w'' _ _. }
  unfold AddHost_body. apply under_bind, under_store. intros now now' db' x w3 E Ew On.
  assert (x = Err ErrNotFound /\ db' = w_db w) as [-> ->].
  { revert E. unfold denote, Store.GetHost. store_simpl. rewrite Hno. simpl. by intros [= <- <-]. }
  assert (hosts (w_db w3) = ∅) as Hno3 by by rewrite Ew.
  unfold add_dialled. apply under_bind. unfold dialHost. apply under_bind, under_Dial_ok;
    [by apply fake_host_valid|done|]. intros c w4 [S4 _].
  apply under_bind, under_Conn_CheckVersion. intros w5 [S5 _]. cbn [under].
  assert (hosts (w_db w5) = ∅) as Hno5 by (rewrite (same_hosts _ _ S5), (same_hosts _ _ S4); done).
  apply under_bind, under_store. intros now2 now2' db2 y w6 E6 Ew6 On6.
  assert (y = Ok tt) as ->.
  { revert E6. unfold denote, Store.CreateHost, hostToRow. store_simpl. rewrite Hno5. simpl.
    by intros [= _ <-]. }
  apply under_bind. eapply under_mono; [|apply under_install]. by intros err w7 ->.
Qed.

Lemma under_AddHost addr w :
  addr <> "" -> flint_ok (w_flint w) -> same_core empty_db (w_db w) -> db_wf (w_db w) ->
  under (AddHost (fake_host addr) false) (fun r w' => is_Ok r = true /\ registered w') w.
Proof.
  intros Ha Hf [Ep Ev El Eh Epl] W. simpl in Ep, Ev, El, Eh, Epl.
  eapply under_mono; [|apply under_and; [by apply under_AddHost_ok|apply under_wp, wp_and;
    [by apply wp_AddHost|by apply wp_wf; [apply ok_AddHost|]]]].
  intros r w' [Hok [[Hf' Hr] W']]. split; [done|]. destruct r as [h|]; [|done].
  destruct Hr as (t & row & -> & Hrow & _ & [Hh Hp Hv Hl Hpl (c & conn & Hc & _) _]).
  split; try congruence; [|by exists c].
  exists row. rewrite Hh, Eh. split; [done|]. by injection Hrow as <-.
Qed.

(** The spec as CreatePool stores it. *)
Definition e2e_pool (name : string) (size minSize : Z) : PoolSpec :=
  let spec := MinSizeThresholdPoolSpec name size minSize in
  set_template (allow_agent <$> microvm_template spec) spec.

Lemma e2e_valid name size minSize :
  name <> "" -> (0 < minSize)%Z ->
  validatePoolSpec (MinSizeThresholdPoolSpec name size minSize) = Ok (e2e_pool name size minSize).
Proof.
  intros Hn Hm. unfold validatePoolSpec, NewStrategy, validateTemplateNetwork, TemplateHasStaticNetwork.
  cbn -[decide]. rewrite !decide_False by (done || lia). by destruct (decide _).
Qed.

(** The codecs can write the spec; [protojson] fails on invalid UTF-8 only. *)
Definition encodable (p : PoolSpec) : Prop :=
  is_Some (marshal_template (microvm_template p)) /\ is_Some (marshal_strategy (replenishment_strategy p)).

Record created (p : PoolSpec) (w : world) : Prop := {
  cr_hosts : exists row, hosts (w_db w) = {["host-a" := row]} /\ hr_cordoned row = false;
  cr_pool : is_Ok (Store.GetPool (pool_name p) (pool_namespace p) (w_db w)).2 = true;
  cr_vms : vms (w_db w) = ∅;
  cr_leases : leases (w_db w) = ∅;
  cr_placements : placements (w_db w) = ∅;
  cr_conn : is_Some (fl_hosts (w_flint w) !! "host-a")
}.

Lemma under_locked {A : Set} m (body : prog A) (Q : A -> world -> Prop) w :
  (forall w1, w_db w1 = w_db w -> w_flint w1 = w_flint w ->
     under body (fun x w2 => forall w3, w_db w3 = w_db w2 -> w_flint w3 = w_flint w2 -> Q x w3) w1) ->
  under (locked m body) Q w.
Proof.
  intros Hb. unfold locked. apply under_bind. intros [] w1 -> _. cbn [under].
  apply under_bind. eapply under_mono; [|by apply Hb]. intros x w2 HQ. apply under_bind.
  intros [] w3 -> _. cbn [under]. by apply HQ.
Qed.

Lemma under_CreatePool_body p w :
  registered w -> flintlock_hosts p = ["host-a"] -> pool_strings_ok p -> encodable p ->
  is_Some (heartbeat_interval p) -> is_Some (heartbeat_expiry_threshold p) ->
  under (CreatePool_body p) (fun r w' => (exists st, r = Ok {| p_spec := p; p_status := st |}) /\
    created p w') w.
Proof.
  intros [(row & Eh & Hc) Ep Ev El Epl W Hconn] Hhosts Hs [[t Et] [st Es]] [i Ei] [th Eth].
  unfold CreatePool_body, checkFlintlockHosts. apply under_bind, under_bind, under_store.
  intros now now' db' x w1 E1 Ew1 On1. unfold denote in E1.
  assert (exists hs, x = Ok hs /\ db' = w_db w /\ Store.ListHosts (w_db w) = (w_db w, Ok hs))
    as (hs & -> & -> & Ehs) by (revert E1; unfold Store.ListHosts; store_simpl; intros [= <- <-]; eauto).
  assert ("host-a" ∈ host_name <$> hs) as Hin.
  { apply list_elem_of_fmap. exists (rowToHost row). split.
    - simpl. destruct (wf_hosts _ W "host-a" row) as [-> _]; [|done]. rewrite Eh. apply lookup_insert_eq.
    - apply (elem_of_ListHosts _ _ _ Ehs). exists "host-a", row. rewrite Eh. split; [|done].
      apply lookup_insert_eq. }
  unfold unknown_hosts. rewrite Hhosts. cbn [fold_left under]. rewrite decide_True by done.
  apply under_bind, under_store. intros now2 now2' db2 y w2 E2 Ew2 On2. rewrite Ew1 in E2.
  assert (y = Err ErrNotFound /\ db2 = w_db w) as [-> ->].
  { revert E2. unfold denote, Store.GetPool. store_simpl. rewrite Ep, lookup_empty. by intros [= <- <-]. }
  apply under_bind, under_store. intros now3 now3' db3 z w3 E3 Ew3 On3. rewrite Ew2 in E3.
  unfold denote in E3.
  destruct (poolToRow p) as [prow|] eqn:Erow.
  2: { apply poolToRow_error in Erow as [?|[?|[?|?]]]; congruence. }
  assert (pr_name prow = pool_name p /\ pr_namespace prow = pool_namespace p) as [En Ens].
  { unfold poolToRow in Erow. rewrite Ei, Eth, Et, Es in Erow. simpl in Erow. by injection Erow as <-. }
  assert (z = Ok tt /\ db3 = set_pools (<[(pool_name p, pool_namespace p) := prow]> ∅) (w_db w))
    as [-> ->].
  { revert E3. unfold Store.CreatePool. store_simpl. rewrite Erow. simpl.
    rewrite En, Ens, Ep, lookup_empty. intros [= <- <-]. by rewrite Ep. }
  apply under_bind, under_calm; [done|]. intros err w4 _ [S4 On4]. cbn [under]. split; [by eexists|].
  destruct S4 as [Ep4 Ev4 El4 Eh4 Epl4]. rewrite Ew3 in *. simpl in *.
  split; try congruence; [exists row; by split; [congruence|]| |].
  - unfold Store.GetPool. store_simpl. rewrite Ep4, lookup_insert_eq. simpl.
    by rewrite (rowToPool_poolToRow p prow).
  - rewrite (on_conns _ _ On4), (on_conns _ _ On3), (on_conns _ _ On2), (on_conns _ _ On1). done.
Qed.

Lemma ok_CreatePool p : keeps_wf (CreatePool p).
Proof. unfold CreatePool, CreatePool_body, checkFlintlockHosts, locked. opok_tac. Qed.

Lemma under_CreatePool name size minSize w :
  registered w -> name <> "" -> (0 < minSize)%Z -> encodable (e2e_pool name size minSize) ->
  under (CreatePool (MinSizeThresholdPoolSpec name size minSize)) (fun r w' =>
    (exists st, r = Ok {| p_spec := e2e_pool name size minSize; p_status := st |}) /\
    created (e2e_pool name size minSize) w' /\ db_wf (w_db w')) w.
Proof.
  intros Hr Hn Hm Henc. eapply under_mono; [|apply under_and; [|apply under_wp, wp_wf; [apply
    ok_CreatePool|apply Hr]]].
  { intros r w' [Hx W]. revert Hx. instantiate (1 := fun r w' =>
      (exists st, r = Ok {| p_spec := e2e_pool name size minSize; p_status := st |}) /\
      created (e2e_pool name size minSize) w'). naive_solver. }
  unfold CreatePool. rewrite e2e_valid by done. apply under_locked. intros w1 E1 F1.
  apply under_locked. intros w2 E2 F2. eapply under_mono; [|apply under_CreatePool_body].
  - intros r w3 [Hst Hc] w4 E4 F4 w5 E5 F5. split; [done|].
    destruct Hc. split; rewrite ?E5, ?F5, ?E4, ?F4; done.
  - destruct Hr. split; rewrite ?E2, ?F2, ?E1, ?F1; done.
  - done.
  - by split_and!; repeat constructor.
  - done.
  - by eexists.
  - by eexists.
Qed.

(** The pool's first pass fills it to its size. *)
Record full (p : PoolSpec) (n : nat) (w : world) : Prop := {
  fu_stock u r : vms (w_db w) !! u = Some r -> in_stock p r;
  fu_size : size (vms (w_db w)) = n;
  fu_leases : leases (w_db w) = ∅;
  fu_pool : is_Ok (Store.GetPool (pool_name p) (pool_namespace p) (w_db w)).2 = true;
  fu_conn : is_Some (fl_hosts (w_flint w) !! "host-a");
  fu_wf : db_wf (w_db w)
}.

Lemma count_rows_empty n ns db (P : VMRecord -> Prop) `{forall v, Decision (P v)} :
  vms db = ∅ -> count_rows n ns db P = 0%Z.
Proof. intros E. unfold count_rows, rows. by rewrite E, map_to_list_empty. Qed.

Lemma created_ready p w : created p w -> db_wf (w_db w) -> flintlock_hosts p = ["host-a"] -> ready p w.
Proof.
  intros [(row & Eh & Hc) _ Ev _ Epl Hconn] W Hh. split; try done.
  - apply W.
  - exists "host-a". rewrite Hh. split; [by left|]. exists row. rewrite Eh. split; [|done].
    apply lookup_insert_eq.
  - intros h. rewrite Hh. by intros ->%list_elem_of_singleton.
  - intros u r. rewrite Ev. by rewrite lookup_empty.
Qed.

Lemma under_fill cfg name n minSize w :
  let p := e2e_pool name n minSize in
  created p w -> db_wf (w_db w) -> (0 < GuestAgentInterval cfg)%Z -> (0 < minSize)%Z ->
  (0 <= n < 2 ^ 31)%Z ->
  under (reconcile cfg p (DesiredNewVMs minSizeThreshold)) (fun _ w' => full p (Z.to_nat n) w') w.
Proof.
  intros p Hc W Hi Hm Hsz. pose proof (created_ready p w Hc W eq_refl) as Hr.
  assert (size_ok p) as Hok by (unfold size_ok, in_int32, p; simpl; lia).
  eapply under_mono; [|apply under_and; [apply under_reconcile; [exact Hr|exact Hi|..]|apply under_wp,
    wp_wf; [apply ok_reconcile|done]]].
  - intros [] w' [(committed & c & k & _ & He & _ & G & [Sv Ss] & R & Hle & Hk & _) W'].
    assert (k = Z.to_nat n) as ->.
    { destruct Hk as [Hk|[Hs _]]; [|done]. destruct He as (A & Cl & L & P & Qu).
      pose proof (cr_vms _ _ Hc) as Ev. rewrite count_rows_empty in A, Cl, L, P, Qu by done.
      cbn [DesiredNewVMs minSizeThreshold] in Hk. rewrite min_size_exact in Hk; [|done|].
      - change (GetMinSize p) with minSize in Hk. change (pool_size p) with n in Hk.
        rewrite A, decide_False in Hk by lia. unfold counted in Hk. lia.
      - unfold counts_ok. rewrite A, Cl, L, P, Qu. lia. }
    split; [| | | | |done].
    + intros u r Hu. destruct (Sv u r Hu) as [Hx|]; [|done]. by rewrite (cr_vms _ _ Hc), lookup_empty in Hx.
    + rewrite Ss, (cr_vms _ _ Hc). done.
    + rewrite (grows_leases _ _ _ G). apply Hc.
    + rewrite (GetPool_pools _ _ (w_db w)) by apply G. apply Hc.
    + destruct Hc as [(row & Eh & Hco) _ _ _ _ _]. apply (rd_conns _ _ R); [by left|].
      exists row. rewrite (grows_hosts _ _ _ G), Eh. split; [apply lookup_insert_eq|done].
  - rewrite (cr_vms _ _ Hc), map_size_empty. lia.
  - intros c Hcc. apply (hooks_bounded (t := MIN_SIZE_THRESHOLD) p c); [done..|by left].
Qed.

(** A claim takes a VM, its release gives the lease and the VM up. *)
Definition e2e_claim (name : string) : ClaimVMRequest :=
  {| claim_pool := {| ref_name := name; ref_namespace := "e2e" |}; claim_request_id := "" |}.

Lemma under_claim_release srv name n minSize w :
  let p := e2e_pool name n minSize in
  full p (Z.to_nat n) w -> (0 < n)%Z ->
  under (let! claim := ClaimVM srv (e2e_claim name) in
         match claim with
         | Err c => Ret (Err c)
         | Ok claim =>
             let! released := ReleaseVM srv (resp_lease_id claim) in
             Ret (match released with Ok _ => Ok claim | Err c => Err c end)
         end)
    (fun r w' => (exists claim, r = Ok claim /\ resp_host_name claim = "host-a") /\
       leases (w_db w') = ∅ /\ size (vms (w_db w')) = Z.to_nat n - 1 /\
       (forall u r, vms (w_db w') !! u = Some r -> in_stock p r)) w.
Proof.
  intros p [Hst Hsize Hl Hpool Hconn W] Hpos.
  assert (forall u r, vms (w_db w) !! u = Some r -> vr_flintlockHost r = "host-a") as Hhost.
  { intros u r Hr. destruct (Hst u r Hr) as (_ & _ & Hin). by apply list_elem_of_singleton in Hin. }
  apply under_bind. eapply under_mono; [|apply under_and; [apply (under_ClaimVM srv (e2e_claim name) w W)|
    apply under_and; [apply under_wp, (wp_wf false); [apply ok_ClaimVM|exact W]|
      apply under_keeps_conns, kc_ClaimVM]]].
  - intros r w1 [(claim & -> & (x & y & Hx & _ & Ev & _ & _ & _ & Hy & Hxh) & (l & _ & El & _ & Hlv & _) & _)
      [W1 On1]]. rewrite Hl in El.
    apply under_bind. eapply under_mono; [|apply under_and; [apply (under_ReleaseVM srv (resp_lease_id claim) l w1 W1)|
      apply under_wp, (wp_ReleaseVM false srv (resp_lease_id claim) w1 W1)]].
    + intros r2 w2 [(-> & Hl2 & Hv2) (l' & Hl' & [_ _ _ Ov Ol] & _)]. cbn [under].
      rewrite El, lookup_insert_eq in Hl'. injection Hl' as <-. rewrite Hlv in Hv2, Ov.
      assert (vms (w_db w2) = delete (resp_vm_uid claim) (vms (w_db w))) as Ev2.
      { apply map_eq. intros u. destruct (decide (u = resp_vm_uid claim)) as [->|Hu].
        - by rewrite lookup_delete_eq.
        - rewrite lookup_delete_ne, Ov, Ev, lookup_insert_ne by done. done. }
      split_and!; [| | |].
      * exists claim. split; [done|]. rewrite <- Hxh. by eapply Hhost.
      * apply map_eq. intros i. rewrite lookup_empty. destruct (decide (i = resp_lease_id claim)) as [->|Hi]; [done|].
        by rewrite Ol, El, lookup_insert_ne.
      * rewrite Ev2, map_size_delete_Some by by eexists. by rewrite Hsize, Nat.sub_1_r.
      * intros u z. rewrite Ev2. intros [_ Hz]%lookup_delete_Some. by eapply Hst.
    + rewrite El. apply lookup_insert_eq.
    + intros z. rewrite Hlv, Ev, lookup_insert_eq. intros [= <-].
      rewrite (on_conns _ _ On1), Hy, <- Hxh, (Hhost _ _ Hx). done.
  - done.
  - simpl. lia.
  - by intros [[] _].
  - intros w' u <- Hu. exact Hu.
  - destruct (map_choose (vms (w_db w))) as (u & r & Hr).
    { intros E. rewrite E, map_size_empty in Hsize. lia. }
    change (available name "e2e" (w_db w) <> ∅). intros E.
    assert (u ∈ available name "e2e" (w_db w)) as Hin; [|rewrite E in Hin; set_solver].
    apply elem_of_available. exists r. split; [done|]. by destruct (Hst u r Hr).
  - intros u r Hr _. by rewrite (Hhost u r Hr).
Qed.

(** ** The scenario *)

(** From the start of the fake to the release of the first lease; the
    reconciler that CreatePool starts makes its first pass before the claim. *)
Definition PoolLifecycle (cfg : ProvisionConfig) (srv : LeaseServer) (addr name : string)
    (n minSize : Z) : prog (result code ClaimVMResponse) :=
  let! err := StartFakeFlintlock addr in
  match err with
  | Some _ => Ret (Err Unknown)
  | None =>
      let! host := AddHost (fake_host addr) false in
      match host with
      | Err c => Ret (Err c)
      | Ok _ =>
          let! pool := CreatePool (MinSizeThresholdPoolSpec name n minSize) in
          match pool with
          | Err c => Ret (Err c)
          | Ok pool =>
              then! reconcile cfg (p_spec pool) (DesiredNewVMs minSizeThreshold) in
              let! claim := ClaimVM srv (e2e_claim name) in
              match claim with
              | Err c => Ret (Err c)
              | Ok claim =>
                  let! released := ReleaseVM srv (resp_lease_id claim) in
                  Ret (match released with Ok _ => Ok claim | Err c => Err c end)
              end
          end
      end
  end.

Lemma under_PoolLifecycle cfg srv addr name n minSize w :
  pristine w -> addr <> "" -> name <> "" -> (0 < minSize)%Z -> (0 < n < 2 ^ 31)%Z ->
  (0 < GuestAgentInterval cfg)%Z -> encodable (e2e_pool name n minSize) ->
  under (PoolLifecycle cfg srv addr name n minSize) (fun r w' =>
    (exists claim, r = Ok claim /\ resp_host_name claim = "host-a") /\
    leases (w_db w') = ∅ /\ size (vms (w_db w')) = Z.to_nat n - 1 /\
    (forall u x, vms (w_db w') !! u = Some x -> in_stock (e2e_pool name n minSize) x)) w.
Proof.
  intros Hw Ha Hname Hm Hn Hi Henc. unfold PoolLifecycle.
  apply under_bind. eapply under_mono; [|by apply under_Start].
  intros err w1 (-> & Hf & Hs & W). apply under_bind. eapply under_mono; [|by apply under_AddHost].
  intros host w2 [Hok Hr]. destruct host as [h|]; [|done].
  apply under_bind. eapply under_mono; [|by apply under_CreatePool].
  intros pool w3 ((st & ->) & Hc & W3). cbn [p_spec].
  apply under_bind. eapply under_mono; [|apply under_fill; [done..|lia]].
  intros [] w4 Hfull. apply (under_claim_release srv name n minSize w4 Hfull). lia.
Qed.

(** C14: The golden path of the end-to-end suite always succeeds.  Over a new
    store, against the fake flintlock: AddHost registers it, CreatePool stores
    the suite's pool spec, the reconciler's first pass fills the pool, ClaimVM
    hands out a VM on host-a and ReleaseVM takes it back, whatever the clock,
    the uuids and the timers answer.  In the end no lease is left and all but
    the released one of the pool's [size] VMs are AVAILABLE: it is the pool's
    size, not its [min_size], that a pass fills it to.  And there is an answer
    to every call, so the path is taken. *)
Theorem golden_path cfg srv addr name n minSize w :
  pristine w -> addr <> "" -> name <> "" -> (0 < minSize)%Z -> (0 < n < 2 ^ 31)%Z ->
  (0 < GuestAgentInterval cfg)%Z -> encodable (e2e_pool name n minSize) ->
  let happy (r : result code ClaimVMResponse) (w' : world) :=
    (exists claim, r = Ok claim /\ resp_host_name claim = "host-a") /\
    leases (w_db w') = ∅ /\ size (vms (w_db w')) = Z.to_nat n - 1 /\
    (forall u x, vms (w_db w') !! u = Some x -> in_stock (e2e_pool name n minSize) x) in
  under (PoolLifecycle cfg srv addr name n minSize) happy w /\
  happens (PoolLifecycle cfg srv addr name n minSize) happy w.
Proof.
  intros Hw Ha Hname Hm Hn Hi Henc happy.
  assert (under (PoolLifecycle cfg srv addr name n minSize) happy w) as Hu by by apply under_PoolLifecycle.
  split; [done|]. by apply under_happens.
Qed.
End steps.

(** ** Witness *)

#[export] Instance min_version0 : MinVersionOK.
Proof. split; [reflexivity|]. simpl. lia. Qed.

(** The process before the suite's first call. *)
Definition world_new : world :=
  {| w_db := empty_db; w_locks := no_locks; w_flint := empty_flint; w_tick := 0; w_log := [] |}.

Lemma golden_path_witness :
  under (env := fake_environment)
    (PoolLifecycle DefaultProvisionConfig server0 "127.0.0.1:9090" "e2e-pool" 2 1) (fun r w' =>
      exists claim, r = Ok claim /\ resp_host_name claim = "host-a" /\ size (vms (w_db w')) = 1)
    world_new.
Proof.
  eapply under_mono; [|apply (golden_path DefaultProvisionConfig server0 "127.0.0.1:9090" "e2e-pool" 2 1)].
  - intros r w' ((claim & E & Hh) & _ & Hs & _). exists claim. split; [exact E|]. split; [exact Hh|exact Hs].
  - split; [reflexivity|reflexivity|]. split; intros k c Hc; cbn in Hc; by rewrite lookup_empty in Hc.
  - discriminate.
  - discriminate.
  - reflexivity.
  - split; reflexivity.
  - reflexivity.
  - split; by eexists; vm_compute.
Defined.
