(* ===== verification/Progress.v ===== *)
(** * The mutexes cannot deadlock

    The mutexes of [internal/api] are taken in one order, [lock_order]: a pool's
    mutex before the reader side of [hostRefsMu], a host's before its writer side,
    and nothing inside those; and every path of a handler gives back what it
    took.  So whatever has arrived, somebody can go on ([no_deadlock]), and when all
    have ended every mutex is free ([mutexes_given_back]). *)

From stdpp Require Import base gmap strings list relations.
From Stdlib Require Import ZArith Lia.
From S2P Require Import Prelude Types Convert Store StoreOps Concrete StoreProps Effects.
From S2P Require Import ConcreteEnv Flintlock Deletion Strategy Provision Reconciler Sweeper.
From S2P Require Import LeaseApi PoolAdmin HostAdmin EventsApi Protocols.

(** No new request arrives. *)
Definition no_entry (p : prog unit) : Prop := False.

(** ** The order of the mutexes *)

(** What a goroutine holds. *)
Inductive held :=
  | Nothing
  | InPool (n ns : string) | InPoolRefs (n ns : string)
  | InHost (n : string) | InHostRefs (n : string).

Definition order_allowed (s : held) (X : Set) (e : eff X) : Prop :=
  match e with
  | EAcquire (PoolLock _ _) | EAcquire (HostLock _) => s = Nothing
  | EAcquire HostRefsRead => exists n ns, s = InPool n ns
  | EAcquire HostRefsWrite => exists n, s = InHost n
  | ERelease (PoolLock n ns) => s = InPool n ns
  | ERelease (HostLock n) => s = InHost n
  | ERelease HostRefsRead => exists n ns, s = InPoolRefs n ns
  | ERelease HostRefsWrite => exists n, s = InHostRefs n
  | _ => True
  end.

Definition order_next (s : held) (X : Set) (e : eff X) : X -> held :=
  match e in eff Y return Y -> held with
  | EAcquire (PoolLock n ns) => fun _ => InPool n ns
  | EAcquire (HostLock n) => fun _ => InHost n
  | EAcquire HostRefsRead => fun _ =>
      match s with InPool n ns => InPoolRefs n ns | _ => s end
  | EAcquire HostRefsWrite => fun _ =>
      match s with InHost n => InHostRefs n | _ => s end
  | ERelease (PoolLock _ _) | ERelease (HostLock _) => fun _ => Nothing
  | ERelease HostRefsRead => fun _ =>
      match s with InPoolRefs n ns => InPool n ns | _ => s end
  | ERelease HostRefsWrite => fun _ =>
      match s with InHostRefs n => InHost n | _ => s end
  | _ => fun _ => s
  end.

Definition lock_order : protocol :=
  {| St := held; idle := Nothing; allowed := order_allowed; next := order_next;
     final := fun s => s = Nothing |}.

#[export] Instance lock_order_lenient : Lenient lock_order.
Proof. split; [intros s X e|intros s X e x|done]; by destruct e. Qed.

(** *** Every entry point keeps to it *)

Definition lockless_ok (X : Set) (e : eff X) : bool :=
  match e with EAcquire _ | ERelease _ => false | _ => true end.

Definition lockless {A : Set} (p : prog A) : Prop := every lockless_ok p.

Lemma lockless_keeps {A : Set} (p : prog A) : lockless p -> keeps lock_order p.
Proof.
  unfold lockless. intros Hp s. revert s.
  induction p as [A x|A X e k IH|A c IHc k IHk]; intros s; simpl; [done| |].
  - destruct Hp as [He Hk]. split; [by destruct e|]. intros x.
    assert (order_next s X e x = s) as -> by by destruct e. by apply IH.
  - destruct Hp as [Hc Hk]. split; [by apply IHc|by apply IHk].
Qed.

Lemma lockless_tame {A : Set} (p : prog A) : tame p -> lockless p.
Proof. apply every_mono. intros X e. by destruct e. Qed.

Ltac lockless_tac := unfold lockless; every_tac @lockless_tame.

(** From nothing held to nothing held. *)
Definition orderly {A : Set} (p : prog A) : Prop :=
  respects lock_order p Nothing (fun _ s => s = Nothing).

Lemma orderly_lockless {A : Set} (p : prog A) : lockless p -> orderly p.
Proof. intros Hp. by apply lockless_keeps. Qed.

Lemma locked_order {A : Set} m (body : prog A) s s' :
  order_allowed s unit (EAcquire m) -> order_next s unit (EAcquire m) tt = s' ->
  order_allowed s' unit (ERelease m) -> order_next s' unit (ERelease m) tt = s ->
  respects lock_order body s' (fun _ s'' => s'' = s') ->
  respects lock_order (locked m body) s (fun _ s'' => s'' = s).
Proof.
  intros Ha Es Hr Es' Hb. unfold locked. apply respects_bind. split; [done|].
  intros []. cbn [respects next lock_order]. rewrite Es. apply respects_bind.
  eapply respects_mono; [|exact Hb]. intros x s'' ->. apply respects_bind.
  split; [done|]. intros []. cbn [respects]. done.
Qed.

Lemma order_refs {A : Set} n ns (body : prog A) :
  lockless body -> orderly (locked (PoolLock n ns) (locked HostRefsRead body)).
Proof.
  intros Hb. apply (locked_order _ _ Nothing (InPool n ns)); try done.
  apply (locked_order _ _ (InPool n ns) (InPoolRefs n ns)); try (by repeat eexists).
  by apply lockless_keeps.
Qed.

Lemma order_host {A : Set} n (body : prog A) :
  lockless body -> orderly (locked (HostLock n) body).
Proof.
  intros Hb. apply (locked_order _ _ Nothing (InHost n)); try done. by apply lockless_keeps.
Qed.

Lemma order_pool {A : Set} n ns (body : prog A) :
  lockless body -> orderly (locked (PoolLock n ns) body).
Proof.
  intros Hb. apply (locked_order _ _ Nothing (InPool n ns)); try done. by apply lockless_keeps.
Qed.

Section entries.
Context `{Semver}.

Lemma order_RemoveHost n : orderly (RemoveHost n).
Proof.
  unfold RemoveHost. case_match; [done|]. apply (locked_order _ _ Nothing (InHost n)); try done.
  unfold RemoveHost_body. apply respects_bind. eapply respects_mono;
    [|apply (locked_order _ _ (InHost n) (InHostRefs n)); try (by repeat eexists); by split].
  intros r s ->. apply lockless_keeps. lockless_tac.
Qed.

Lemma orderly_ignore {A : Set} (p : prog A) : orderly p -> obeys lock_order Nothing (ignore p).
Proof. intros Hp. apply respects_bind. eapply respects_mono; [|exact Hp]. by intros x s ->. Qed.

Lemma order_entry p : entry p -> obeys lock_order Nothing p.
Proof.
  destruct 1; try (apply orderly_ignore, orderly_lockless, lockless_tame; by tame_tac);
    try apply orderly_ignore.
  - unfold PoolAdmin.CreatePool. destruct (validatePoolSpec spec); [|done].
    apply order_refs. unfold CreatePool_body. lockless_tac.
  - unfold PoolAdmin.UpdatePool. destruct (validatePoolSpec spec); [|done].
    apply order_refs. unfold UpdatePool_body. lockless_tac.
  - apply order_pool. unfold DeletePool_body, delete_found, restartReconciler. lockless_tac.
  - apply orderly_lockless. unfold HostAdmin.DrainHost. lockless_tac.
  - unfold AddHost. apply respects_bind. split; [done|]. intros t. cbn [respects]. cbv zeta.
    case_match; [done|]. apply order_host. unfold AddHost_body, add_dialled. lockless_tac.
  - unfold HostAdmin.UpdateHost. cbv zeta. case_match; [done|].
    apply order_host. unfold UpdateHost_body. lockless_tac.
  - apply order_RemoveHost.
  - apply orderly_lockless, lockless_tame. tame_tac.
  - apply orderly_lockless. unfold RecoverAbandonedClaims. lockless_tac.
Qed.
End entries.

(** *** The locks are those the goroutines hold *)

Definition in_pool (n ns : string) (s : held) : Prop := s = InPool n ns \/ s = InPoolRefs n ns.
Definition in_host (n : string) (s : held) : Prop := s = InHost n \/ s = InHostRefs n.
Definition in_read (s : held) : Prop := match s with InPoolRefs _ _ => True | _ => False end.
Definition in_write (s : held) : Prop := match s with InHostRefs _ => True | _ => False end.

#[export] Instance held_eq_dec : EqDecision held.
Proof. solve_decision. Defined.
#[export] Instance in_pool_dec n ns s : Decision (in_pool n ns s).
Proof. unfold in_pool; apply _. Defined.
#[export] Instance in_host_dec n s : Decision (in_host n s).
Proof. unfold in_host; apply _. Defined.
#[export] Instance in_read_dec s : Decision (in_read s).
Proof. destruct s; simpl; apply _. Defined.
#[export] Instance in_write_dec s : Decision (in_write s).
Proof. destruct s; simpl; apply _. Defined.

(** How many goroutines hold a mutex. *)
Definition holders (P : held -> Prop) `{forall s, Decision (P s)} (ss : list held) : nat :=
  length (filter P ss).

Record locks_ok (l : locks) (ss : list held) : Prop := {
  l_pools n ns : holders (in_pool n ns) ss = if decide ((n, ns) ∈ lk_pools l) then 1 else 0;
  l_hosts n : holders (in_host n) ss = if decide (n ∈ lk_hosts l) then 1 else 0;
  l_readers : holders in_read ss = lk_readers l;
  l_writer : holders in_write ss = if lk_writer l then 1 else 0
}.

Lemma holders_insert (P : held -> Prop) `{forall s, Decision (P s)} ss i s s' :
  ss !! i = Some s ->
  holders P (<[i := s']> ss) + (if decide (P s) then 1 else 0) =
  holders P ss + (if decide (P s') then 1 else 0).
Proof. apply length_filter_insert. Qed.

Lemma locks_ok_spawn l ss : locks_ok l ss -> locks_ok l (ss ++ [Nothing]).
Proof.
  intros []. split; intros; unfold holders in *; rewrite filter_app, length_app;
    simpl; rewrite ?Nat.add_0_r; auto.
Qed.

(** Taking and giving back a mutex changes the count of that mutex alone. *)
Ltac count_holders Hi :=
  lazymatch goal with
  | |- holders ?P (<[?i := ?s']> ?ss) = _ =>
      let Hc := fresh "Hc" in
      pose proof (holders_insert P ss i _ s' Hi) as Hc; simpl in Hc |- *;
      try unfold in_pool, in_host in *
  end.
Ltac locks_case := repeat case_decide; try lia; try set_solver; naive_solver lia.
(** One field of [locks_ok] after a step of goroutine [i]. *)
Ltac locks_fields Hp Hh Hi :=
  split; [ let n := fresh "n" in let ns := fresh "ns" in intros n ns; specialize (Hp n ns)
         | let n := fresh "n" in intros n; specialize (Hh n) | .. ];
  count_holders Hi; locks_case.

Lemma locks_ok_acquire l ss i s m :
  locks_ok l ss -> ss !! i = Some s -> order_allowed s unit (EAcquire m) -> lock_free m l ->
  locks_ok (acquire m l) (<[i := order_next s unit (EAcquire m) tt]> ss).
Proof.
  intros [Hp Hh Hr Hw] Hi Ha Hf.
  destruct m; simpl in Ha, Hf; [subst s|subst s|destruct Ha as (n & ns & ->)|destruct Ha as (n & ->)].
  - locks_fields Hp Hh Hi.
  - locks_fields Hp Hh Hi.
  - locks_fields Hp Hh Hi.
  - destruct Hf as [Ew Hf]. rewrite Ew in Hw. locks_fields Hp Hh Hi.
Qed.

Lemma locks_ok_release l ss i s m :
  locks_ok l ss -> ss !! i = Some s -> order_allowed s unit (ERelease m) ->
  locks_ok (unlock m l) (<[i := order_next s unit (ERelease m) tt]> ss).
Proof.
  intros [Hp Hh Hr Hw] Hi Ha.
  destruct m; simpl in Ha; [subst s|subst s|destruct Ha as (n & ns & ->)|destruct Ha as (n & ->)].
  - locks_fields Hp Hh Hi.
  - locks_fields Hp Hh Hi.
  - locks_fields Hp Hh Hi.
  - destruct (lk_writer l) eqn:?; locks_fields Hp Hh Hi.
Qed.

(** ** Somebody can always go on *)

(** The goroutine has not ended. *)
Definition unfinished {A : Set} (p : prog A) : Prop :=
  match p with Ret _ => False | _ => True end.

(** The goroutine can take a step now. *)
Definition ready {A : Set} (p : prog A) (l : locks) : Prop :=
  match p with
  | Ret _ => False
  | Do (EAcquire m) _ => lock_free m l
  | _ => True
  end.

#[export] Instance ready_dec {A : Set} (p : prog A) l : Decision (ready p l).
Proof. destruct p as [|? ? []|]; simpl; apply _. Defined.

(** A goroutine that waits does so for a mutex it may take in its state; one
    that has ended holds nothing. *)
Lemma not_ready {A : Set} s (p : prog A) l :
  respects lock_order p s (fun _ s' => s' = Nothing) -> ~ ready p l ->
  (s = Nothing /\ ~ unfinished p) \/
  exists m, order_allowed s unit (EAcquire m) /\ ~ lock_free m l.
Proof.
  destruct p as [A x|A X e k|A c k]; simpl.
  - intros ->. auto.
  - intros [Ha _] Hr. destruct e; try (by destruct Hr). right. eauto.
  - intros _ []. done.
Qed.

Lemma ended_holds_nothing {A : Set} s (p : prog A) :
  respects lock_order p s (fun _ s' => s' = Nothing) -> ~ unfinished p -> s = Nothing.
Proof. destruct p; simpl; [done|intros _ []; done..]. Qed.

Lemma holders_pos (P : held -> Prop) `{forall s, Decision (P s)} ss :
  holders P ss <> 0 -> exists i s, ss !! i = Some s /\ P s.
Proof.
  unfold holders. intros Hn. destruct (filter P ss) as [|s l] eqn:E; [done|].
  assert (s ∈ filter P ss) as Hs by (rewrite E; by left).
  apply list_elem_of_filter in Hs as [HP Hs]. apply list_elem_of_lookup_1 in Hs as [i Hi]. eauto.
Qed.

Section some_ready.
Context (l : locks) (ss : list held) (ts : list (prog unit)).
Hypothesis Hobey : Forall2 (obeys lock_order) ss ts.
Hypothesis Hlocks : locks_ok l ss.

Definition someone_ready : Prop := exists j q, ts !! j = Some q /\ ready q l.

(** Whoever holds [hostRefsMu] waits for nothing. *)
Lemma inner_ready i s : ss !! i = Some s -> in_read s \/ in_write s -> someone_ready.
Proof.
  intros Hi Hs. destruct (Forall2_lookup_l _ _ _ _ _ Hobey Hi) as (p & Hp & Ho).
  destruct (decide (ready p l)) as [|Hn]; [by exists i, p|]. exfalso.
  destruct (not_ready s p l Ho Hn) as [[-> _]|(m & Hm & _)]; [naive_solver|].
  destruct s, m; naive_solver.
Qed.

Lemma refs_ready m : m = HostRefsRead \/ m = HostRefsWrite -> ~ lock_free m l -> someone_ready.
Proof.
  intros Hm Hf.
  assert (lk_writer l = true \/ lk_readers l <> 0) as [Hw|Hr].
  { destruct (lk_writer l) eqn:Ew; [by left|]. right. intros E.
    destruct Hm as [-> | ->]; apply Hf; done. }
  - destruct (holders_pos in_write ss) as (i & s & Hi & Hs).
    { rewrite (l_writer _ _ Hlocks), Hw. done. }
    eapply inner_ready; eauto.
  - destruct (holders_pos in_read ss) as (i & s & Hi & Hs).
    { by rewrite (l_readers _ _ Hlocks). }
    eapply inner_ready; eauto.
Qed.

(** Whoever holds a pool's or a host's mutex waits at most for [hostRefsMu]. *)
Lemma outer_ready i s : ss !! i = Some s -> s <> Nothing -> someone_ready.
Proof.
  intros Hi Hs. destruct (Forall2_lookup_l _ _ _ _ _ Hobey Hi) as (p & Hp & Ho).
  destruct (decide (ready p l)) as [|Hn]; [by exists i, p|].
  destruct (not_ready s p l Ho Hn) as [[-> _]|(m & Hm & Hf)]; [done|].
  apply (refs_ready m); [|done]. destruct m; simpl in Hm; naive_solver.
Qed.

Lemma some_ready i p : ts !! i = Some p -> unfinished p -> someone_ready.
Proof.
  intros Hi Hu. destruct (Forall2_lookup_r _ _ _ _ _ Hobey Hi) as (s & Hs & Ho).
  destruct (decide (ready p l)) as [|Hn]; [by exists i, p|].
  destruct (not_ready s p l Ho Hn) as [[_ []]|(m & Hm & Hf)]; [done|].
  destruct m as [n ns|n| |].
  - destruct (holders_pos (in_pool n ns) ss) as (j & s' & Hj & Hs').
    { rewrite (l_pools _ _ Hlocks). case_decide; [done|]. by destruct Hf. }
    apply (outer_ready j s' Hj). destruct Hs' as [-> | ->]; done.
  - destruct (holders_pos (in_host n) ss) as (j & s' & Hj & Hs').
    { rewrite (l_hosts _ _ Hlocks). case_decide; [done|]. by destruct Hf. }
    apply (outer_ready j s' Hj). destruct Hs' as [-> | ->]; done.
  - apply (refs_ready HostRefsRead); auto.
  - apply (refs_ready HostRefsWrite); auto.
Qed.
End some_ready.

(** When all have ended no mutex is held. *)
Lemma all_ended_no_locks l ss ts :
  Forall2 (obeys lock_order) ss ts -> locks_ok l ss -> (forall p, p ∈ ts -> ~ unfinished p) ->
  l = no_locks.
Proof.
  intros Hobey [Hp Hh Hr Hw] Hend.
  assert (forall s, s ∈ ss -> s = Nothing) as Hnone.
  { intros s [i Hi]%list_elem_of_lookup_1.
    destruct (Forall2_lookup_l _ _ _ _ _ Hobey Hi) as (p & Hpi & Ho).
    specialize (Hend p (list_elem_of_lookup_2 _ _ _ Hpi)). by eapply ended_holds_nothing. }
  assert (forall (P : held -> Prop) `{forall s, Decision (P s)}, ~ P Nothing -> holders P ss = 0) as H0.
  { intros P ? Hn. apply filter_length_zero. intros s ->%Hnone. done. }
  destruct l as [lp lh lr lw]; simpl in *. unfold no_locks. f_equal.
  - apply set_eq. intros [n ns]. specialize (Hp n ns). rewrite H0 in Hp by (intros []; done).
    case_decide; set_solver.
  - apply set_eq. intros n. specialize (Hh n). rewrite H0 in Hh by (intros []; done).
    case_decide; set_solver.
  - rewrite <- Hr. apply H0. intros [].
  - rewrite H0 in Hw by (by intros []). by destruct lw.
Qed.

(** ** In every interleaving *)

(** Nobody is running and no mutex is held: the process has just started. *)
Definition fresh_start (σ : sys) : Prop :=
  s_threads σ = [] /\ w_locks (s_world σ) = no_locks.

Section interleavings.
Context `{Codec, Sqlite, Semver}.

Lemma eff_step_locks (X : Set) (e : eff X) x w w' ss i s :
  locks_ok (w_locks w) ss -> ss !! i = Some s -> order_allowed s X e -> enabled e w ->
  exec_eff true e w x w' -> locks_ok (w_locks w') (<[i := order_next s X e x]> ss).
Proof.
  intros L Hi Ha Hen He.
  destruct e; try (simpl in *; subst; simpl; by rewrite list_insert_id).
  - destruct He as [(now & now' & _ & ->)|(_ & _ & ->)]; simpl; by rewrite list_insert_id.
  - destruct He as [_ ->]. simpl. by rewrite list_insert_id.
  - simpl in He. subst w'. destruct x. by apply locks_ok_acquire.
  - simpl in He. subst w'. destruct x. by apply locks_ok_release.
Qed.

Lemma lock_invariant σ σ' :
  fresh_start σ -> rtc (sys_step entry) σ σ' ->
  exists ss, Forall2 (obeys lock_order) ss (s_threads σ') /\ locks_ok (w_locks (s_world σ')) ss.
Proof.
  intros [Ht Hl] Hs.
  apply (sys_steps_ok lock_order entry (fun w _ ss => locks_ok (w_locks w) ss)) in Hs.
  - exact Hs.
  - apply order_entry.
  - intros w _ ss. apply locks_ok_spawn.
  - intros w used ss i s X e x w' L Hi Ha Hen He _. by eapply eff_step_locks.
  - exists []. rewrite Ht, Hl. split; [constructor|]. split; intros; simpl; try done;
      by rewrite decide_False by set_solver.
Qed.

(** Every effect has an answer that hands out no uid. *)
Lemma eff_answers {X : Set} (e : eff X) w :
  exists x w', exec_eff true e w x w' /\ uid_handed_out e x = None.
Proof.
  destruct e; simpl; try (by eauto).
  - exists (Err (ErrOther "")). eauto 7.
  - exists 0%Z. eauto.
  - exists "". eauto.
  - exists None. eauto.
  - exists 0. eauto.
  - exists (Err Unavailable). destruct r; eauto.
  - exists {| open_err := None; send_err := None; closeSend_err := None; recvs := [];
              recv_end := None |}. eauto.
  - exists true. eauto.
  - exists true. eauto.
  - exists tt. eauto.
  - exists tt. eauto.
  - exists None. eauto.
  - exists tt. eauto.
  - exists None. eauto.
  - exists None. eauto.
  - exists tt. eauto.
  - exists tt. eauto.
Qed.

Lemma ready_steps entry0 σ i p :
  s_threads σ !! i = Some p -> ready p (w_locks (s_world σ)) ->
  exists σ', sys_step entry0 σ σ'.
Proof.
  intros Hi Hr. assert (forall (A : Set) (q : prog A) (E : A = unit),
    s_threads σ !! i = Some (eq_rect A prog q unit E) -> ready q (w_locks (s_world σ)) ->
    exists σ', sys_step entry0 σ σ') as Hall.
  { intros A q E. destruct q as [A x|A X e k|A c k]; subst A; simpl; intros Hq Hrq; [done| |].
    - destruct (eff_answers e (s_world σ)) as (x & w' & He & Hu).
      eexists. apply (Step_do entry0 σ i X e k x w'); [exact Hq|by destruct e|exact He|].
      intros u. by rewrite Hu.
    - eexists. by apply (Step_fork entry0 σ i c k). }
  exact (Hall unit p eq_refl Hi Hr).
Qed.

(** C9: No deadlock.  Whatever requests have arrived, and wherever their
    goroutines and those of the reconcilers and the sweeper have got to, as long
    as one of them has not ended one of them can take a step. *)
Theorem no_deadlock σ σ' i p :
  fresh_start σ -> rtc (sys_step entry) σ σ' ->
  s_threads σ' !! i = Some p -> unfinished p ->
  exists σ'', sys_step no_entry σ' σ''.
Proof.
  intros Hf Hs Hi Hu. destruct (lock_invariant σ σ' Hf Hs) as (ss & Hobey & L).
  destruct (some_ready _ ss _ Hobey L i p Hi Hu) as (j & q & Hj & Hq).
  by eapply ready_steps.
Qed.

(** No path of a handler keeps a mutex: when every goroutine there was has ended,
    all are free. *)
Theorem mutexes_given_back σ σ' :
  fresh_start σ -> rtc (sys_step entry) σ σ' ->
  (forall p, p ∈ s_threads σ' -> ~ unfinished p) -> w_locks (s_world σ') = no_locks.
Proof.
  intros Hf Hs Hend. destruct (lock_invariant σ σ' Hf Hs) as (ss & Hobey & L).
  by eapply all_ended_no_locks.
Qed.
End interleavings.

(** UpdatePool holds the mutex of its pool and waits for [hostRefsMu], which
    RemoveHost holds. *)
Definition blocked0 : sys :=
  sched [0; 1; 1] (spawn [ignore (PoolAdmin.UpdatePool pool0); ignore (RemoveHost "host-b")] sys0).

Lemma blocked0_reached : fresh_start sys0 /\ rtc (sys_step entry) sys0 blocked0.
Proof.
  split; [done|]. etrans; [|apply sched_steps]. apply spawn_steps.
  repeat constructor; vm_compute; reflexivity.
Qed.

Lemma no_deadlock_witness :
  can_step 0 blocked0 = false /\ exists σ'', sys_step no_entry blocked0 σ''.
Proof.
  split; [vm_compute; reflexivity|]. destruct blocked0_reached as [Hf Hs].
  assert (match s_threads blocked0 !! 0 with Some p => unfinished p | None => False end) as Hu
    by (vm_compute; exact I).
  destruct (s_threads blocked0 !! 0) as [p|] eqn:E; [|destruct Hu].
  exact (no_deadlock sys0 blocked0 0 p Hf Hs E Hu).
Defined.
