(* ===== verification/Lifecycle.v ===== *)
(** * The life of a VM

    What a pool promises of a VM, without goroutines, hooks and retries: it is
    created, worked on, ready, leased once, and then it only ever ends
    ([moves]).  The process refines this: [simulates] relates its states to a
    status per uid, and every step of every goroutine, of requests, loops and
    timers alike, is a step of the abstract pool. *)

From stdpp Require Import base gmap strings list relations.
From Stdlib Require Import ZArith Lia.
From S2P Require Import Prelude Types Convert Store StoreOps Concrete StoreProps Effects.
From S2P Require Import ConcreteEnv Flintlock Deletion Strategy Provision Reconciler Sweeper.
From S2P Require Import LeaseApi PoolAdmin HostAdmin EventsApi Protocols Ownership.

(** ** The abstract pool *)

Inductive status :=
  (** flintlock has not handed out the uid *)
  | New
  (** created, not yet recorded *)
  | Unrecorded
  (** a goroutine provisions it or prepares it for a claim *)
  | Working
  | Ready
  | Leased (lease : string)
  (** quarantined, or its lease is over and its deletion is due *)
  | Stranded
  | Ending
  | Gone.

Definition recorded (s : status) : Prop :=
  match s with New | Unrecorded | Gone => False | _ => True end.

Inductive moves : status -> status -> Prop :=
  | moves_create : moves New Unrecorded
  | moves_record : moves Unrecorded Working
  | moves_orphan : moves Unrecorded Ending
  | moves_ready : moves Working Ready
  | moves_claim : moves Ready Working
  | moves_lease id : moves Working (Leased id)
  | moves_strand : moves Working Stranded
  | moves_lapse id : moves (Leased id) Stranded
  | moves_mark s : recorded s -> moves s Ending
  | moves_gone s : recorded s -> moves s Gone.

(** One step: every VM stays or moves.  A drain or the deletion of a pool moves
    many at once. *)
Definition pool_step (a a' : string -> status) : Prop :=
  forall u, a' u = a u \/ moves (a u) (a' u).

(** After a lease only the end: never ready again, never another lease. *)
Definition over (id : string) (s : status) : Prop :=
  s = Leased id \/ s = Stranded \/ s = Ending \/ s = Gone.

Lemma moves_over id s s' : moves s s' -> over id s -> over id s'.
Proof. unfold over. destruct 1; naive_solver. Qed.

Lemma pool_steps_over id u a a' : rtc pool_step a a' -> over id (a u) -> over id (a' u).
Proof.
  induction 1 as [|a1 a2 a3 Hs _ IH]; [done|]. intros Ho. apply IH.
  destruct (Hs u) as [->|Hm]; [done|]. by eapply moves_over.
Qed.

(** ** The abstraction *)

#[export] Instance own_eq_dec : EqDecision own.
Proof. solve_decision. Defined.

(** The lease under which the row [r] of [u] is out. *)
Definition lease_on (db : DB) (u : string) (r : vmRow) : option string :=
  id ← vr_leaseID r; l ← leases db !! id; if decide (lr_vmUID l = u) then Some id else None.

Definition row_status (ss : list own) (db : DB) (u : string) (r : vmRow) : status :=
  if decide (vr_phase r = phase_code DELETING) then Ending
  else if decide (Owns u ∈ ss) then Working
  else if decide (vr_phase r = phase_code AVAILABLE) then Ready
  else if decide (vr_phase r = phase_code LEASED)
  then match lease_on db u r with Some id => Leased id | None => Stranded end
  else Stranded.

Definition status_of (used : gset string) (ss : list own) (db : DB) (u : string) : status :=
  match vms db !! u with
  | Some r => row_status ss db u r
  | None => if decide (u ∈ used) then if decide (Fresh u ∈ ss) then Unrecorded else Gone else New
  end.

(** The state of the process and the abstract pool. *)
Definition simulates (σ : sys) (a : string -> status) : Prop :=
  exists ss, Forall2 (obeys ownership) ss (s_threads σ) /\
    consistent (s_used σ) ss (w_db (s_world σ)) /\
    forall u, a u = status_of (s_used σ) ss (w_db (s_world σ)) u.

(** ** Each step *)

Lemma recorded_row ss db u r : recorded (row_status ss db u r).
Proof. unfold row_status. repeat case_decide; try done. by destruct (lease_on db u r). Qed.

(** A goroutine's ownership of another VM does not matter to [u]. *)
Lemma elem_of_insert_other {A} (l : list A) i x y z :
  l !! i = Some x -> x <> z -> y <> z -> (z ∈ <[i := y]> l <-> z ∈ l).
Proof.
  intros Hi Hx Hy. rewrite !list_elem_of_lookup. split; intros [j Hj].
  - apply list_lookup_insert_Some in Hj as [(_ & E & _)|[_ Hj]]; [by destruct Hy|eauto].
  - exists j. rewrite list_lookup_insert_ne; [done|]. intros ->. congruence.
Qed.

Lemma status_other used ss db db' i s s' u :
  ss !! i = Some s -> token s <> Some u -> token s' <> Some u ->
  vms db' !! u = vms db !! u ->
  (forall id l, leases db !! id = Some l -> lr_vmUID l = u -> leases db' !! id = Some l) ->
  (forall id l, leases db' !! id = Some l -> lr_vmUID l = u -> leases db !! id = Some l) ->
  status_of used (<[i := s']> ss) db' u = status_of used ss db u.
Proof.
  intros Hi Hs Hs' Hv Hl Hl'.
  assert (forall t, token t = Some u -> t ∈ <[i := s']> ss <-> t ∈ ss) as Ht.
  { intros t Et. eapply elem_of_insert_other; [exact Hi| |]; intros ->; done. }
  unfold status_of. rewrite Hv. destruct (vms db !! u) as [r|].
  - unfold row_status. repeat case_decide; rewrite ?Ht in * by done; try done.
    assert (lease_on db' u r = lease_on db u r) as ->; [|done].
    unfold lease_on. destruct (vr_leaseID r) as [id|]; [simpl|done].
    destruct (leases db !! id) as [l|] eqn:E, (leases db' !! id) as [l'|] eqn:E'; simpl;
      repeat case_decide; try done; exfalso; subst.
    all: try (eapply Hl in E; [|reflexivity]); try (eapply Hl' in E'; [|reflexivity]); congruence.
  - repeat case_decide; rewrite ?Ht in * by done; done.
Qed.

Definition stays_or_moves (s s' : status) : Prop := s' = s \/ moves s s'.

Section steps.
Context `{Codec, Sqlite}.
Context (used : gset string) (ss : list own) (db : DB) (i : nat).
Hypothesis C : consistent used ss db.

(** What marking rows, removing rows and ending or renewing leases does. *)
Lemma shrinks_moves db' u :
  shrinks db db' -> stays_or_moves (status_of used ss db u) (status_of used ss db' u).
Proof.
  intros [Hv Hl]. unfold stays_or_moves, status_of.
  destruct (vms db' !! u) as [r'|] eqn:E'.
  - destruct (Hv u r' E') as [E|[[r E] Hd]]; rewrite E.
    + unfold row_status. repeat case_decide; auto.
      assert (lease_on db' u r' = lease_on db u r' \/ lease_on db' u r' = None) as [-> | ->]; [|auto|].
      * unfold lease_on. destruct (vr_leaseID r') as [id|]; [simpl|auto].
        destruct (leases db' !! id) as [l'|] eqn:El; [|by right].
        apply Hl in El as (l & -> & Eu). simpl. rewrite Eu. auto.
      * destruct (lease_on db u r'); auto using moves.
    + right. unfold row_status at 2. rewrite decide_True by done. apply moves_mark, recorded_row.
  - destruct (vms db !! u) as [r|] eqn:E; [|auto]. right.
    rewrite decide_True by by eapply (c_used _ _ _ C). rewrite decide_False.
    + apply moves_gone, recorded_row.
    + intros [j Hj]%list_elem_of_lookup_1. apply (c_fresh _ _ _ C) in Hj. congruence.
Qed.

(** The status of a VM someone owns. *)
Lemma owned_status u r :
  ss !! i = Some (Owns u) -> vms db !! u = Some r ->
  status_of used ss db u = if decide (vr_phase r = phase_code DELETING) then Ending else Working.
Proof.
  intros Hi E. unfold status_of, row_status. rewrite E. case_decide; [done|].
  rewrite decide_True; [done|]. by eapply list_elem_of_lookup_2.
Qed.

(** Nobody else owns what goroutine [i] does. *)
Lemma not_elsewhere u s s' t :
  ss !! i = Some s -> token s = Some u -> token t = Some u -> t <> s' -> t ∉ <[i := s']> ss.
Proof.
  intros Hi Hs Ht Hne [j Hj]%list_elem_of_lookup_1.
  apply list_lookup_insert_Some in Hj as [(_ & E & _)|[Hj' Hj]]; [by destruct Hne|].
  apply Hj'. by eapply (c_tokens _ _ _ C).
Qed.

(** Another VM, when goroutine [i] writes the row of [u0] and no lease of
    another. *)
Lemma write_other u0 s s' u row ls :
  ss !! i = Some s -> token s = Some u0 \/ token s = None ->
  token s' = Some u0 \/ token s' = None -> u <> u0 ->
  (forall id l, leases db !! id = Some l -> lr_vmUID l = u -> ls !! id = Some l) ->
  (forall id l, ls !! id = Some l -> lr_vmUID l = u -> leases db !! id = Some l) ->
  stays_or_moves (status_of used ss db u)
    (status_of used (<[i := s']> ss) (set_leases ls (set_vms (<[u0 := row]> (vms db)) db)) u).
Proof.
  intros Hi Hs Hs' Hne Hl Hl'. left. eapply status_other; try done.
  - destruct Hs as [-> | ->]; congruence.
  - destruct Hs' as [-> | ->]; congruence.
  - simpl. by rewrite lookup_insert_ne.
Qed.

(** *** The operations an owner has *)

Lemma create_moves db' v x u :
  CreateVM v db = (db', Ok x) -> ss !! i = Some (Fresh (vm_uid v)) ->
  stays_or_moves (status_of used ss db u) (status_of used
    (<[i := if decide (vm_phase v = DELETING) then Idle else Owns (vm_uid v)]> ss) db' u).
Proof.
  intros E Hi. apply CreateVM_Ok in E as (row & Er & ->).
  destruct (vmToRow_fields v row Er) as (_ & Ep & _).
  rewrite <- (set_leases_id (set_vms _ _)). destruct (decide (u = vm_uid v)) as [->|Hne].
  2: { apply (write_other _ (Fresh (vm_uid v))); auto. case_decide; auto. }
  destruct (c_owned _ _ _ C i _ _ Hi eq_refl) as (Hu & _).
  right. unfold status_of at 1. rewrite (c_fresh _ _ _ C i _ Hi), decide_True by done.
  rewrite decide_True by by eapply list_elem_of_lookup_2.
  unfold status_of, row_status. cbn [set_leases set_vms vms]. rewrite lookup_insert_eq, Ep.
  destruct (decide (vm_phase v = DELETING)) as [Hd|Hd].
  - rewrite decide_True by by rewrite Hd. constructor.
  - rewrite decide_False by by intros ?%(inj phase_code). rewrite decide_True; [constructor|].
    apply list_elem_of_lookup. exists i. apply list_lookup_insert_eq. by eapply lookup_lt_Some.
Qed.

Lemma UpdateVM_guard db' v x old :
  UpdateVM v db = (db', Ok x) -> vms db !! vm_uid v = Some old ->
  vr_phase old <> phase_code DELETING \/ vm_phase v = DELETING.
Proof.
  unfold UpdateVM, updateVM. store_simpl. destruct (vmToRow v) as [row|] eqn:E; [|done]. simpl.
  destruct (vmToRow_fields v row E) as (-> & Ep & _). intros Eu Eo. rewrite Eo in Eu.
  case_decide as Hg; [|done]. rewrite Ep in Hg. destruct Hg as [|Hg]; [by left|right].
  by apply (inj phase_code).
Qed.

Lemma update_moves db' v x s u :
  UpdateVM v db = (db', Ok x) -> ss !! i = Some s -> own_op s (OpUpdateVM v) ->
  stays_or_moves (status_of used ss db u) (status_of used
    (<[i := if decide (in_progress (vm_phase v)) then s else Idle]> ss) db' u).
Proof.
  intros E Hi Ho. pose proof (fun old => UpdateVM_guard db' v x old E) as Hg.
  apply UpdateVM_Ok in E as E'. destruct E' as (row & old & Er & Eo & Edb).
  specialize (Hg old Eo). subst db'. clear E. destruct (vmToRow_fields v row Er) as (_ & Ep & _).
  destruct (decide (vm_phase v = DELETING)) as [Hd|Hd].
  { rewrite decide_True by (unfold in_progress; auto). rewrite list_insert_id by done.
    apply shrinks_moves. split; simpl; [|eauto].
    intros y r' [[<- <-]|[_ Hr]]%lookup_insert_Some; [right|by left].
    simpl. rewrite Ep, Hd. eauto. }
  destruct Ho as [|[-> Hl]]; [done|]. destruct Hg as [Hg|]; [|done].
  rewrite <- (set_leases_id (set_vms _ _)). destruct (decide (u = vm_uid v)) as [->|Hne].
  2: { apply (write_other _ (Owns (vm_uid v))); auto. case_decide; auto. }
  rewrite (owned_status _ old Hi Eo), decide_False by done.
  unfold status_of, row_status. cbn [set_leases set_vms vms]. rewrite lookup_insert_eq. cbn [updated_row vr_phase].
  rewrite Ep, decide_False by by intros ?%(inj phase_code).
  destruct (decide (in_progress (vm_phase v))) as [Hin|Hin].
  - rewrite list_insert_id, decide_True by eauto using list_elem_of_lookup_2. by left.
  - rewrite decide_False by by eapply not_elsewhere. right.
    case_decide; [constructor|]. rewrite decide_False by by intros ?%(inj phase_code). constructor.
Qed.

Lemma LeaseVM_guard db' v l x old :
  LeaseVM v l db = (db', Ok x) -> vms db !! vm_uid v = Some old -> vm_phase v = LEASED ->
  vr_phase old <> phase_code DELETING /\ leases db !! lease_id l = None.
Proof.
  unfold LeaseVM. intros E Eo Hp. change (updateVM v) with (UpdateVM v) in E. store_simpl.
  destruct (UpdateVM v db) as [db1 [[]|e]] eqn:Eu; [|done]. split.
  { destruct (UpdateVM_guard _ v _ old Eu Eo) as [|Hd]; [done|]. by rewrite Hp in Hd. }
  apply UpdateVM_Ok in Eu as (row & old' & _ & _ & ->). destruct (leaseToRow l) as [lrow|] eqn:El.
  - pose proof (insertLease_cases l lrow (set_vms (<[vm_uid v := updated_row row old']> (vms db)) db) El) as Hins.
    destruct (insertLease l _) as [db2 [[]|e]]; [|done]. by destruct Hins as (_ & ? & _).
  - unfold insertLease in E. rewrite El in E. done.
Qed.

Lemma lease_moves db' v l x u :
  LeaseVM v l db = (db', Ok x) -> ss !! i = Some (Owns (vm_uid v)) -> lease_vm_uid l = vm_uid v ->
  vm_phase v = LEASED -> vm_lease_id v = Some (lease_id l) ->
  stays_or_moves (status_of used ss db u) (status_of used (<[i := Idle]> ss) db' u).
Proof.
  intros E Hi Hu Hp Hid. pose proof (fun old Eo => LeaseVM_guard db' v l x old E Eo Hp) as Hg.
  apply LeaseVM_Ok in E as (row & old & lrow & Er & Eo & El & ->).
  destruct (Hg old Eo) as [Hg' Hnone].
  destruct (vmToRow_fields v row Er) as (_ & Ep & Ei), (leaseToRow_fields l lrow El) as (_ & Eu).
  destruct (decide (u = vm_uid v)) as [->|Hne].
  2: { apply (write_other _ (Owns (vm_uid v))); auto.
       - intros id l' Hl' _. simpl. rewrite lookup_insert_ne; [done|]. congruence.
       - intros id l' [[<- <-]|[_ ?]]%lookup_insert_Some Hl'; [congruence|done]. }
  rewrite (owned_status _ old Hi Eo), decide_False by done.
  right. unfold status_of, row_status. cbn [set_leases set_vms vms]. rewrite lookup_insert_eq.
  cbn [updated_row vr_phase]. rewrite Ep, Hp, decide_False by done.
  rewrite decide_False by by eapply not_elsewhere. rewrite decide_False, decide_True by done.
  unfold lease_on. cbn [updated_row vr_leaseID set_leases leases]. rewrite Ei, Hid. simpl.
  rewrite lookup_insert_eq. simpl. rewrite decide_True by congruence. constructor.
Qed.

Lemma claim_moves db' now n ns v u :
  ClaimAvailableVM now n ns db = (db', Ok v) -> ss !! i = Some Idle ->
  stays_or_moves (status_of used ss db u) (status_of used (<[i := Owns (vm_uid v)]> ss) db' u).
Proof.
  intros E Hi. pose proof (claim_outcome_holds now n ns db (c_wf _ _ _ C)) as Hc.
  rewrite E in Hc. destruct Hc as (u0 & r & Hr & [_ Hp] & -> & -> & Hu). rewrite Hu.
  destruct (available_free _ _ _ u0 r C Hr Hp) as [Hnt _].
  rewrite <- (set_leases_id (set_vms _ _)). destruct (decide (u = u0)) as [->|Hne].
  2: { apply (write_other _ Idle); auto. }
  right. unfold status_of. rewrite Hr. unfold row_status. rewrite Hp, decide_False by done.
  rewrite decide_False by (intros [j Hj]%list_elem_of_lookup_1; by apply (Hnt j _ Hj)).
  rewrite decide_True by done. cbn [set_leases set_vms vms]. rewrite lookup_insert_eq.
  cbn [mark_leased vr_phase]. rewrite decide_False, decide_True; [constructor| |done].
  apply list_elem_of_lookup. exists i. apply list_lookup_insert_eq. by eapply lookup_lt_Some.
Qed.
End steps.

(** *** Any effect of any goroutine *)

Section simulation.
Context `{Codec, Sqlite}.

Lemma store_moves {A : Set} used ss db i s now now' (o : storeOp A) u :
  consistent used ss db -> ss !! i = Some s -> own_op s o ->
  stays_or_moves (status_of used ss db u)
    (status_of used (<[i := own_next s _ (EStore o) (denote now now' o db).2]> ss)
       (denote now now' o db).1 u).
Proof.
  intros C Hi Ho. destruct (restricted o) eqn:Er.
  - destruct (denote now now' o db) as [db' [x|e]] eqn:E; cbn [fst snd] in *.
    + destruct o; simpl in *; try done.
      * destruct Ho as [-> Hp]. by eapply create_moves.
      * by eapply update_moves.
      * subst s. by eapply claim_moves.
      * destruct Ho as (-> & ? & ? & ?). by eapply lease_moves.
    + apply failed_op_keeps_db in E as ->. rewrite own_next_err, list_insert_id by done. by left.
  - assert (own_next s _ (EStore o) (denote now now' o db).2 = s) as -> by by destruct o.
    rewrite list_insert_id by done. by apply shrinks_moves, op_shrinks.
Qed.

(** flintlock hands out a new uid. *)
Lemma handed_out_moves used ss db i u0 u :
  consistent used ss db -> ss !! i = Some Idle -> u0 ∉ used ->
  stays_or_moves (status_of used ss db u) (status_of ({[u0]} ∪ used) (<[i := Fresh u0]> ss) db u).
Proof.
  intros C Hi Hu. destruct (decide (u = u0)) as [->|Hne].
  - assert (vms db !! u0 = None) as Hv.
    { destruct (vms db !! u0) eqn:E; [|done]. by apply (c_used _ _ _ C) in E. }
    right. unfold status_of. rewrite Hv, decide_False, decide_True by set_solver.
    rewrite decide_True; [constructor|]. apply list_elem_of_lookup. exists i.
    apply list_lookup_insert_eq. by eapply lookup_lt_Some.
  - left. transitivity (status_of used (<[i := Fresh u0]> ss) db u).
    + unfold status_of. destruct (vms db !! u); [done|]. repeat case_decide; set_solver.
    + eapply status_other; try done. simpl. congruence.
Qed.

Lemma eff_moves {X : Set} w used ss i s (e : eff X) x w' u :
  consistent used ss (w_db w) -> ss !! i = Some s -> own_allowed s X e ->
  exec_eff true e w x w' -> (forall u, uid_handed_out e x = Some u -> u ∉ used) ->
  stays_or_moves (status_of used ss (w_db w) u)
    (status_of (use (uid_handed_out e x) used) (<[i := own_next s X e x]> ss) (w_db w') u).
Proof.
  intros C Hi Ha He Hu.
  destruct e; try (simpl in *; subst; simpl; rewrite list_insert_id by done; by left).
  - destruct He as [(now & now' & -> & ->)|(_ & (what & ->) & ->)].
    + by apply store_moves.
    + rewrite own_next_err, list_insert_id by done. by left.
  - destruct r; simpl in *; subst; try (rewrite list_insert_id by done; by left).
    destruct x as [u0|]; simpl; [|rewrite list_insert_id by done; by left].
    apply handed_out_moves; auto.
  - destruct He as [-> ->]; simpl. rewrite list_insert_id by done. by left.
Qed.

Lemma status_spawn used ss db u : status_of used (ss ++ [Idle]) db u = status_of used ss db u.
Proof.
  assert (forall t, t <> Idle -> t ∈ ss ++ [Idle] <-> t ∈ ss) as Ht by set_solver.
  unfold status_of, row_status. destruct (vms db !! u); repeat case_decide; set_solver.
Qed.

Context `{Semver}.

Lemma simulates_step σ σ' a :
  simulates σ a -> sys_step entry σ σ' -> exists a', pool_step a a' /\ simulates σ' a'.
Proof.
  intros (ss & Hobey & C & Ha) Hs.
  destruct Hs as [i X e k x w' Hi Hen He Hu|i c k Hi|p Hp].
  - destruct (Forall2_lookup_r _ _ _ _ _ Hobey Hi) as (s & Hs & Hal & Hk).
    exists (status_of (use (uid_handed_out e x) (s_used σ)) (<[i := own_next s X e x]> ss) (w_db w')).
    split.
    + intros u. rewrite Ha. by eapply eff_moves.
    + exists (<[i := own_next s X e x]> ss). split_and!; [|by eapply eff_step_consistent|done].
      apply Forall2_insert; [done|apply Hk].
  - destruct (Forall2_lookup_r _ _ _ _ _ Hobey Hi) as (s & Hs & Hc & Hk).
    exists a. split; [by left|]. exists (ss ++ [Idle]). split_and!; simpl.
    + apply Forall2_app; [|by repeat constructor].
      rewrite <- (list_insert_id ss i s Hs). by apply Forall2_insert.
    + by apply consistent_spawn.
    + intros u. by rewrite status_spawn.
  - exists a. split; [by left|]. exists (ss ++ [Idle]). split_and!; simpl.
    + apply Forall2_app; [done|]. repeat constructor. by apply own_entry.
    + by apply consistent_spawn.
    + intros u. by rewrite status_spawn.
Qed.

Lemma simulates_steps σ σ' a :
  simulates σ a -> rtc (sys_step entry) σ σ' -> exists a', rtc pool_step a a' /\ simulates σ' a'.
Proof.
  intros Ha Hs. revert a Ha. induction Hs as [σ|σ1 σ2 σ3 Hs _ IH]; intros a Ha; [by exists a|].
  destruct (simulates_step _ _ _ Ha Hs) as (a1 & Hp & Ha1). destruct (IH a1 Ha1) as (a2 & ? & ?).
  exists a2. split; [by eapply rtc_l|done].
Qed.

Lemma simulates_started σ : started σ -> exists a, simulates σ a.
Proof.
  intros [Ht C]. exists (status_of (s_used σ) [] (w_db (s_world σ))), []. rewrite Ht.
  split_and!; [constructor|done|done].
Qed.

(** *** What the abstract pool says of the database *)

Lemma simulates_available σ a u r :
  simulates σ a -> vms (w_db (s_world σ)) !! u = Some r -> vr_phase r = phase_code AVAILABLE ->
  a u = Ready.
Proof.
  intros (ss & _ & C & ->) Hr Hp. unfold status_of. rewrite Hr. unfold row_status.
  rewrite Hp, decide_False by done. rewrite decide_False, decide_True; [done..|].
  intros [j Hj]%list_elem_of_lookup_1. by apply (proj1 (available_free _ _ _ u r C Hr Hp) j _ Hj).
Qed.

Lemma simulates_leased σ a u r id l :
  simulates σ a -> vms (w_db (s_world σ)) !! u = Some r ->
  leases (w_db (s_world σ)) !! id = Some l -> lr_vmUID l = u ->
  a u = Ending \/ a u = Leased id.
Proof.
  intros (ss & _ & C & ->) Hr Hl Hu. unfold status_of. rewrite Hr. unfold row_status.
  destruct (c_leases _ _ _ C id l Hl) as [_ Hc]. rewrite Hu in Hc.
  destruct (Hc r Hr) as [Hd|[Hd Hid]]; [rewrite decide_True by done; by left|].
  rewrite Hd, decide_False by done. rewrite decide_False, decide_False, decide_True; [|done..|].
  - unfold lease_on. rewrite Hid. simpl. rewrite Hl. simpl. rewrite decide_True by done. by right.
  - intros [j Hj]%list_elem_of_lookup_1.
    destruct (c_owned _ _ _ C j _ u Hj eq_refl) as (_ & Hn & _). by apply (Hn id l).
Qed.

(** C3: The process refines the abstract pool of VMs, whose VMs each live one
    life: created, worked on, ready, leased, ending, gone.  A process that has
    just started has an abstract state, every step of every goroutine, request
    or timer is matched by a step of the abstract pool, and the abstract state
    tells which VMs are AVAILABLE and which are leased under which lease. *)
Theorem vm_lifecycle_refinement :
  (forall σ, started σ -> exists a, simulates σ a) /\
  (forall σ σ' a, simulates σ a -> sys_step entry σ σ' ->
     exists a', pool_step a a' /\ simulates σ' a') /\
  (forall σ a u r, simulates σ a -> vms (w_db (s_world σ)) !! u = Some r ->
     (vr_phase r = phase_code AVAILABLE -> a u = Ready) /\
     (forall id l, leases (w_db (s_world σ)) !! id = Some l -> lr_vmUID l = u ->
        a u = Ending \/ a u = Leased id)).
Proof.
  split_and!; [apply simulates_started|apply simulates_step|].
  intros σ a u r Ha Hr. split; [by eapply simulates_available|].
  intros id l. by eapply simulates_leased.
Qed.

(** C2: A VM is leased once.  When a VM has been out under a lease, then
    however the process goes on, it is never AVAILABLE again, and the only lease
    it can have is that one, unless it is already being deleted: no consumer
    gets a VM that another has used. *)
Theorem leased_once σ σ1 σ2 u r1 r2 id l :
  started σ -> rtc (sys_step entry) σ σ1 -> rtc (sys_step entry) σ1 σ2 ->
  vms (w_db (s_world σ1)) !! u = Some r1 -> leases (w_db (s_world σ1)) !! id = Some l ->
  lr_vmUID l = u -> vms (w_db (s_world σ2)) !! u = Some r2 ->
  vr_phase r2 <> phase_code AVAILABLE /\
  (forall id' l', leases (w_db (s_world σ2)) !! id' = Some l' -> lr_vmUID l' = u ->
     id' = id \/ vr_phase r2 = phase_code DELETING).
Proof.
  intros Hst Hs1 Hs2 Hr1 Hl Hu Hr2. destruct (simulates_started σ Hst) as (a & Ha).
  destruct (simulates_steps _ _ _ Ha Hs1) as (a1 & _ & Ha1).
  destruct (simulates_steps _ _ _ Ha1 Hs2) as (a2 & Hp & Ha2).
  assert (over id (a2 u)) as Ho.
  { eapply pool_steps_over; [exact Hp|]. unfold over.
    destruct (simulates_leased σ1 a1 u r1 id l Ha1 Hr1 Hl Hu); auto. }
  split.
  - intros Hav. rewrite (simulates_available σ2 a2 u r2 Ha2 Hr2 Hav) in Ho.
    unfold over in Ho. naive_solver.
  - intros id' l' Hl' Hu'.
    destruct (simulates_leased σ2 a2 u r2 id' l' Ha2 Hr2 Hl' Hu') as [E|E]; rewrite E in Ho.
    + right. destruct Ha2 as (ss & _ & C & Eq). rewrite Eq in E. unfold status_of in E.
      rewrite Hr2 in E. unfold row_status in E. repeat case_decide; try done.
      by destruct (lease_on _ u r2).
    + left. unfold over in Ho. naive_solver.
Qed.
End simulation.

(** The holder of the sample lease releases its VM, up to the point where
    flintlock is asked to delete it, while another claim runs. *)
Definition released0 : sys :=
  sched (mjoin (replicate 6 [0; 1]))
    (spawn [ignore (ReleaseVM (NewLeaseServer 0 0 ManagerNotifier) "lease-2"); claim0 "req-a"] sys0).

Lemma released0_reached : started sys0 /\ rtc (sys_step entry) sys0 released0.
Proof.
  split; [split; [done|apply db0_consistent]|].
  etrans; [|apply sched_steps]. apply spawn_steps. repeat constructor.
Qed.

Lemma vm_lifecycle_refinement_witness :
  exists a a', simulates sys0 a /\ a "vm-1" = Ready /\ pool_step a a' /\
    simulates (spawn [claim0 "req-a"] sys0) a'.
Proof.
  destruct vm_lifecycle_refinement as (Hstart & Hstep & Hobs).
  destruct (Hstart sys0 (proj1 released0_reached)) as (a & Ha).
  destruct (Hstep sys0 (spawn [claim0 "req-a"] sys0) a Ha) as (a' & Hp & Ha').
  { apply (Step_spawn entry sys0 (claim0 "req-a")). constructor. }
  exists a, a'. split_and!; [exact Ha| |exact Hp|exact Ha'].
  destruct (vms (w_db (s_world sys0)) !! "vm-1") as [r|] eqn:E; [|by vm_compute in E].
  apply (Hobs sys0 a "vm-1" r Ha E). vm_compute in E. injection E as <-. reflexivity.
Defined.

Lemma leased_once_witness :
  exists r2, vms (w_db (s_world released0)) !! "vm-2" = Some r2 /\
    vr_phase r2 = phase_code DELETING /\ vr_phase r2 <> phase_code AVAILABLE.
Proof.
  destruct released0_reached as [Hst Hs].
  destruct (vms (w_db (s_world sys0)) !! "vm-2") as [r1|] eqn:E1; [|by vm_compute in E1].
  destruct (leases (w_db (s_world sys0)) !! "lease-2") as [l|] eqn:El; [|by vm_compute in El].
  destruct (vms (w_db (s_world released0)) !! "vm-2") as [r2|] eqn:E2; [|by vm_compute in E2].
  exists r2. split; [done|].
  assert (lr_vmUID l = "vm-2") as Hl by (vm_compute in El; by injection El as <-).
  split; [vm_compute in E2; injection E2 as <-; reflexivity|].
  exact (proj1 (leased_once sys0 sys0 released0 "vm-2" r1 r2 "lease-2" l Hst (rtc_refl _ _) Hs
    E1 El Hl E2)).
Defined.
