(* ===== verification/PoolTypes.v ===== *)
(** * Stored pools are valid

    The reconciler, the sweeper and the Lease service read pools from the
    store and use them without checking them again.  They can: PoolAdmin is the
    only writer, it validates a spec before it writes it, and what the store
    gives back of a valid spec is valid.  [pool_types] states this as a protocol
    whose allowed pool writes are of valid specs; in every interleaving every
    stored pool then decodes to a valid spec with a working strategy. *)

From stdpp Require Import base gmap strings list relations.
From Stdlib Require Import ZArith Lia.
From S2P Require Import Prelude Types Convert Store StoreOps Concrete StoreProps Effects.
From S2P Require Import ConcreteEnv Flintlock Deletion Strategy Provision Reconciler Sweeper.
From S2P Require Import LeaseApi PoolAdmin HostAdmin EventsApi Protocols HostRefs.

(** ** Validation is idempotent and survives storage *)

(** A spec that validation accepts and leaves as it is. *)
Definition valid_spec (p : PoolSpec) : Prop := validatePoolSpec p = Ok p.

Lemma set_template_same p t : microvm_template p = Some t -> allow_guest_agent t = true ->
  set_template (Some (allow_agent t)) p = p.
Proof. destruct p as [? ? [[]|]]; simpl; intros [= <-] Ha; simpl in *; by subst. Qed.

(** What validation checks, as a proposition. *)
Lemma valid_spec_iff p :
  valid_spec p <->
  pool_name p <> "" /\ pool_namespace p <> "" /\
  is_Ok (NewStrategy (replenishment_strategy p)) = true /\
  (hook_failure_policy p = DELETE_AND_REPLACE \/ hook_failure_policy p = QUARANTINE) /\
  validateTemplateNetwork p = None /\
  exists t, microvm_template p = Some t /\ allow_guest_agent t = true.
Proof.
  unfold valid_spec, validatePoolSpec. split.
  - intros E. repeat case_decide; try done. destruct (NewStrategy _); [|done].
    destruct (hook_failure_policy p) eqn:?; try done;
      destruct (microvm_template p) as [t|] eqn:Et; try done;
      destruct (validateTemplateNetwork p); try done; injection E as E;
      (split_and!; auto; exists t; split; [done|]);
      apply (f_equal microvm_template) in E; rewrite Et in E; injection E as <-; done.
  - intros (Hn & Hns & Hs & Hp & Ht & t & Et & Ha). rewrite !decide_False by done.
    destruct (NewStrategy _); [|done]. rewrite Et, Ht.
    destruct Hp as [-> | ->]; by rewrite (set_template_same p t).
Qed.

Lemma validated_valid spec p : validatePoolSpec spec = Ok p -> valid_spec p.
Proof.
  intros E. apply valid_spec_iff. unfold validatePoolSpec in E.
  repeat case_decide; try done. destruct (NewStrategy _) eqn:Es; [|done].
  destruct (hook_failure_policy spec) eqn:Ep; try done;
    destruct (microvm_template spec) as [t|] eqn:Et; try done;
    destruct (validateTemplateNetwork spec) eqn:En; try done; injection E as <-; simpl;
    rewrite Es; (split_and!; auto; [|by eexists]);
    unfold validateTemplateNetwork, GetType, TemplateHasStaticNetwork in *; simpl;
    by rewrite Et in En.
Qed.

Lemma valid_stored p : valid_spec p -> valid_spec (stored_pool p).
Proof.
  rewrite !valid_spec_iff. intros (Hn & Hns & Hs & Hp & Ht & t & Et & Ha).
  destruct (replenishment_strategy p) as [st|] eqn:Es; [|done].
  unfold stored_pool. simpl. rewrite Es, Et. simpl. split_and!; eauto.
  unfold validateTemplateNetwork, GetType in *. simpl. by rewrite Es, Et in *.
Qed.

(** ** The protocol *)

Definition types_allowed (s : unit) (X : Set) (e : eff X) : Prop :=
  match e with
  | EStore (OpCreatePool p) | EStore (OpUpdatePool p) => pool_strings_ok p /\ valid_spec p
  | _ => True
  end.

Definition pool_types : protocol :=
  {| St := unit; idle := tt; allowed := types_allowed; next := fun s _ _ _ => s;
     final := fun _ => True |}.

#[export] Instance pool_types_lenient : Lenient pool_types.
Proof. split; [intros s X e|done|done]. destruct e; try done. by destruct o. Qed.

(** Programs that write no pool. *)
Definition poolless_ok (X : Set) (e : eff X) : bool :=
  match e with EStore (OpCreatePool _) | EStore (OpUpdatePool _) => false | _ => true end.

Lemma poolless_tame {A : Set} (p : prog A) : tame p -> every poolless_ok p.
Proof. apply every_mono. intros X e. destruct e; try done. by destruct o. Qed.

Lemma poolless_keeps {A : Set} (p : prog A) : every poolless_ok p -> keeps pool_types p.
Proof.
  intros Hp s. revert s. induction p as [A x|A X e k IH|A c IHc k IHk]; intros s; simpl; [done| |].
  - destruct Hp as [He Hk]. split; [destruct e; try done; by destruct o|]. intros x. by apply IH.
  - destruct Hp as [Hc Hk]. split; [|by apply IHk]. eapply respects_mono; [|by apply IHc]. done.
Qed.

Ltac types_allow := cbn [allowed pool_types types_allowed]; solve [done | auto].
Ltac types_tac := repeat (proto_step types_allow; cbn [next pool_types] in * ).

Lemma types_locked {A : Set} m (body : prog A) : keeps pool_types body -> keeps pool_types (locked m body).
Proof. intros Hb s. unfold locked. types_tac. done. Qed.

Section entries.
Context `{Semver}.

Lemma types_CreatePool spec : pool_strings_ok spec -> keeps pool_types (PoolAdmin.CreatePool spec).
Proof.
  intros Hs. unfold PoolAdmin.CreatePool. destruct (validatePoolSpec spec) as [p|] eqn:E; [|done].
  pose proof (validated_valid spec p E). pose proof (validate_strings spec p E Hs).
  do 2 apply types_locked. intros s. unfold CreatePool_body. types_tac; done.
Qed.

Lemma types_UpdatePool spec : pool_strings_ok spec -> keeps pool_types (PoolAdmin.UpdatePool spec).
Proof.
  intros Hs. unfold PoolAdmin.UpdatePool. destruct (validatePoolSpec spec) as [p|] eqn:E; [|done].
  pose proof (validated_valid spec p E). pose proof (validate_strings spec p E Hs).
  do 2 apply types_locked. intros s. unfold UpdatePool_body. types_tac; done.
Qed.

Lemma types_entry p : entry p -> obeys pool_types tt p.
Proof.
  intros Hp. assert (every poolless_ok p \/ keeps pool_types p) as [Ho|Ho];
    [|by apply keeps_use; [apply poolless_keeps|]|by apply keeps_use].
  destruct Hp; try (left; by unfold ignore, PoolAdmin.DeletePool, DeletePool_body, delete_found, restartReconciler,
    HostAdmin.DrainHost, AddHost, AddHost_body, add_dialled, HostAdmin.UpdateHost,
    UpdateHost_body, RemoveHost, RemoveHost_body, RecoverAbandonedClaims,
    RecoverAbandonedProvisions, locked; cbv zeta; every_tac @poolless_tame); right;
    (apply keeps_bind; [|done]); [by apply types_CreatePool|by apply types_UpdatePool].
Qed.
End entries.

(** ** In every interleaving *)

(** A row that decodes to a valid spec of its own name. *)
Definition pool_row_typed `{Codec} (k : string * string) (r : poolRow) : Prop :=
  exists p, rowToPool r = Ok p /\ (pool_name p, pool_namespace p) = k /\ valid_spec p.

Definition pools_typed `{Codec} (db : DB) : Prop := map_Forall pool_row_typed (pools db).

Section interleavings.
Context `{C : Codec} `{!CodecLaws C} `{Sqlite, Semver}.

Lemma written_row_typed p row :
  pool_strings_ok p -> valid_spec p -> poolToRow p = Ok row ->
  pool_row_typed (pr_name row, pr_namespace row) row.
Proof.
  intros Hs Hv E. exists (stored_pool p). split_and!.
  - by apply rowToPool_poolToRow.
  - unfold poolToRow in E. by destruct (heartbeat_interval p), (heartbeat_expiry_threshold p),
      (marshal_template _), (marshal_strategy _); simplify_eq/=.
  - by apply valid_stored.
Qed.

Lemma write_pool_typed p db :
  pool_strings_ok p -> valid_spec p -> pools_typed db ->
  pools_typed (Store.CreatePool p db).1 /\ pools_typed (Store.UpdatePool p db).1.
Proof.
  intros Hs Hv Ht. unfold Store.CreatePool, Store.UpdatePool, pools_typed in *. store_simpl.
  destruct (poolToRow p) as [row|] eqn:E; [|done]. simpl.
  pose proof (written_row_typed p row Hs Hv E) as Hr. split.
  - destruct (pools db !! _); [done|]. simpl. by apply map_Forall_ins.
  - assert (map_Forall pool_row_typed (alter (fun _ => row) (pr_name row, pr_namespace row) (pools db))).
    { intros k r [(<- & r0 & Hk & ->)|[_ Hk]]%lookup_alter_Some; [done|by apply Ht]. }
    by destruct (pools db !! _).
Qed.

Lemma store_step_typed {A : Set} now now' (o : storeOp A) db :
  types_allowed tt _ (EStore o) -> pools_typed db -> pools_typed (denote now now' o db).1.
Proof.
  intros Ha Ht. destruct (writes_pool o) eqn:E.
  - destruct o; try done; destruct Ha; by apply write_pool_typed.
  - intros k r Hr. apply op_pools_shrink in Hr; [by apply Ht|done].
Qed.

(** C8: Stored pools are well typed.  Whatever requests run, at every moment every
    row of the pool table decodes to a spec of its own name that passes
    validation unchanged, so its template is set and lets the guest agent in,
    its hook failure policy is one the code knows, and its strategy can be
    built: no reader of the store meets a pool it cannot handle. *)
Theorem stored_pools_valid σ σ' k r :
  s_threads σ = [] -> pools_typed (w_db (s_world σ)) -> rtc (sys_step entry) σ σ' ->
  pools (w_db (s_world σ')) !! k = Some r ->
  exists p s, rowToPool r = Ok p /\ (pool_name p, pool_namespace p) = k /\
    validatePoolSpec p = Ok p /\ NewStrategy (replenishment_strategy p) = Ok s.
Proof.
  intros Ht Hty Hs Hr.
  apply (sys_steps_ok pool_types entry (fun w _ _ => pools_typed (w_db w))) in Hs
    as (ss & _ & Hty'); cbn beta in *.
  - destruct (Hty' k r Hr) as (p & Ep & Ek & Hv). exists p.
    pose proof (proj1 (valid_spec_iff p) Hv) as (_ & _ & Hst & _).
    destruct (NewStrategy _) as [s|] eqn:Es; [|done]. exists s. done.
  - apply types_entry.
  - done.
  - intros w used ss i [] X e x w' Hw _ Ha _ He _.
    destruct e; try (simpl in He; by subst w').
    + destruct He as [(now & now' & _ & ->)|(_ & _ & ->)]; [|done]. simpl.
      by apply store_step_typed.
    + by destruct He as [_ ->].
  - exists []. rewrite Ht. split; [constructor|done].
Qed.
End interleavings.

(** Before its first pool is created, and after. *)
Definition poolless0 : sys :=
  {| s_world := set_db (set_pools ∅ db0) world0; s_used := s_used sys0; s_threads := [] |}.
Definition created0 : sys :=
  sched (replicate 12 0) (spawn [ignore (PoolAdmin.CreatePool pool1)] poolless0).

Lemma stored_pools_valid_witness :
  exists r p s, pools (w_db (s_world created0)) !! ("api", "default") = Some r /\
    rowToPool r = Ok p /\ NewStrategy (replenishment_strategy p) = Ok s.
Proof.
  destruct (pools (w_db (s_world created0)) !! ("api", "default")) as [r|] eqn:E;
    [|by vm_compute in E].
  destruct (stored_pools_valid poolless0 created0 ("api", "default") r) as (p & s & Hp & _ & _ & Hs).
  - reflexivity.
  - apply map_Forall_empty.
  - etrans; [|apply sched_steps]. apply spawn_steps. constructor; [|constructor].
    constructor. split_and!; repeat constructor.
  - exact E.
  - exists r, p, s. split; [reflexivity|split; [exact Hp|exact Hs]].
Defined.
