(* ===== verification/Config.v ===== *)
(** * Configuration: [src/internal/config/config.go]

    The static configuration of the manager, its validation and [Load], and Go's
    [time.ParseDuration], which decides which sweeper timings are accepted.
    Decoding the file's JSON is the class [ConfigJSON]. *)

From stdpp Require Import base gmap strings list.
From Stdlib Require Import ZArith Lia SpecFloat.
From S2P Require Import Prelude Types Convert Store StoreOps Effects Flintlock Deletion Sweeper.

(** ** Durations: [time.ParseDuration]

    A sign, then numbers with a unit each.  Integer parts are [uint64] with
    explicit overflow checks; fractions go through [float64], computed here with
    the binary64 operations of [SpecFloat]. *)

Definition ch (c : Ascii.ascii) : Z := Z.of_N (Ascii.N_of_ascii c).
Definition is_digit (c : Ascii.ascii) : bool := ((48 <=? ch c) && (ch c <=? 57))%Z.
Definition digit (c : Ascii.ascii) : Z := (ch c - 48)%Z.
Definition is_dot (c : Ascii.ascii) : bool := (ch c =? 46)%Z.

Fixpoint leadingInt (x : Z) (s : string) : option (Z * string) :=
  match s with
  | String c s' =>
      if is_digit c then
        if (2 ^ 63 / 10 <? x)%Z then None
        else let x := (x * 10 + digit c)%Z in
             if (2 ^ 63 <? x)%Z then None else leadingInt x s'
      else Some (x, s)
  | EmptyString => Some (x, s)
  end.

(** [float64] values. *)
Definition float_of (z : Z) : spec_float := binary_normalize 53 1024 z 0 false.
Definition fmul (a b : spec_float) : spec_float := SFmul 53 1024 a b.
Definition fdiv (a b : spec_float) : spec_float := SFdiv 53 1024 a b.
(** [uint64(x)] of a float that is finite and not negative. *)
Definition trunc (x : spec_float) : Z :=
  match x with S754_finite false m e => Z.shiftl (Zpos m) e | _ => 0%Z end.

Fixpoint leadingFraction (x : Z) (scale : spec_float) (overflow : bool) (s : string)
    : Z * spec_float * string :=
  match s with
  | String c s' =>
      if is_digit c then
        if overflow then leadingFraction x scale true s'
        else if ((2 ^ 63 - 1) / 10 <? x)%Z then leadingFraction x scale true s'
        else let y := (x * 10 + digit c)%Z in
             if (2 ^ 63 <? y)%Z then leadingFraction x scale true s'
             else leadingFraction y (fmul scale (float_of 10)) false s'
      else (x, scale, s)
  | EmptyString => (x, scale, s)
  end.

(** [unitMap]; the micro sign comes as U+00B5 and as U+03BC. *)
Definition byte (n : nat) : Ascii.ascii := Ascii.ascii_of_nat n.
Definition unitMap (u : string) : option Z :=
  if decide (u = "ns") then Some 1%Z
  else if decide (u = "us") then Some 1000%Z
  else if decide (u = String (byte 194) (String (byte 181) "s")) then Some 1000%Z
  else if decide (u = String (byte 206) (String (byte 188) "s")) then Some 1000%Z
  else if decide (u = "ms") then Some 1000000%Z
  else if decide (u = "s") then Some 1000000000%Z
  else if decide (u = "m") then Some 60000000000%Z
  else if decide (u = "h") then Some 3600000000000%Z
  else None.

(** The longest prefix without a digit or a dot, and the rest. *)
Fixpoint takeUnit (s : string) : string * string :=
  match s with
  | String c s' =>
      if is_dot c || is_digit c then ("", s)
      else let '(u, rest) := takeUnit s' in (String c u, rest)
  | EmptyString => ("", "")
  end.

(** One number with its unit: its value in nanoseconds and the rest. *)
Definition parse_term (s : string) : option (Z * string) :=
  match s with
  | EmptyString => None
  | String c _ =>
      if negb (is_dot c || is_digit c) then None else
      '(v, s1) ← leadingInt 0 s;
      let pre := negb (String.length s1 =? String.length s) in
      let '(f, scale, s2, post) :=
        match s1 with
        | String c1 s1' =>
            if is_dot c1 then
              let '(f, scale, s2) := leadingFraction 0 (float_of 1) false s1' in
              (f, scale, s2, negb (String.length s2 =? String.length s1'))
            else (0%Z, float_of 1, s1, false)
        | EmptyString => (0%Z, float_of 1, s1, false)
        end in
      if negb (pre || post) then None else
      let '(u, rest) := takeUnit s2 in
      if decide (u = "") then None else
      unit ← unitMap u;
      if (2 ^ 63 / unit <? v)%Z then None else
      let v := (v * unit)%Z in
      if (0 <? f)%Z then
        let v := (v + trunc (fmul (float_of f) (fdiv (float_of unit) scale)))%Z in
        if (2 ^ 63 <? v)%Z then None else Some (v, rest)
      else Some (v, rest)
  end.

(** The loop, on a [uint64]; every term is at least a digit and a letter long, so the length
    of the text is fuel enough. *)
Fixpoint parse_terms (fuel : nat) (d : Z) (s : string) : option Z :=
  match s, fuel with
  | EmptyString, _ => Some d
  | _, O => None
  | _, S fuel =>
      '(v, rest) ← parse_term s;
      let d := ((d + v) mod 2 ^ 64)%Z in
      if (2 ^ 63 <? d)%Z then None else parse_terms fuel d rest
  end.

(** A duration in nanoseconds, or the error. *)
Definition ParseDuration (s : string) : option Z :=
  let '(neg, s) :=
    match s with
    | String c s' =>
        if decide (c = byte 45) then (true, s')
        else if decide (c = byte 43) then (false, s') else (false, s)
    | EmptyString => (false, s)
    end in
  if decide (s = "0") then Some 0%Z
  else if decide (s = "") then None
  else
    d ← parse_terms (String.length s) 0 s;
    if neg then Some (wrap64 (- d))
    else if (2 ^ 63 - 1 <? d)%Z then None else Some d.

Example parse_90s : ParseDuration "1m30s" = Some 90000000000%Z.
Proof. vm_compute. reflexivity. Qed.
Example parse_fraction : ParseDuration "1.5h" = Some 5400000000000%Z.
Proof. vm_compute. reflexivity. Qed.
Example parse_tenth : ParseDuration "0.1s" = Some 100000000%Z.
Proof. vm_compute. reflexivity. Qed.
Example parse_negative : ParseDuration "-3ms" = Some (-3000000)%Z.
Proof. vm_compute. reflexivity. Qed.
Example parse_wraps : ParseDuration "9223372036854775808ns9223372036854775808ns1s" = Some 1000000000%Z.
Proof. vm_compute. reflexivity. Qed.
Example parse_no_unit : ParseDuration "10" = None.
Proof. vm_compute. reflexivity. Qed.

(** Each term consumes some of the text, so the fuel never runs out. *)
Lemma leadingInt_length x s v rest : leadingInt x s = Some (v, rest) ->
  String.length rest <= String.length s.
Proof.
  revert x. induction s as [|c s IH]; intros x; simpl; [by intros [= _ <-]|].
  repeat case_match; try done; [|by intros [= _ <-]]. intros E%IH. lia.
Qed.

Lemma leadingFraction_length x sc o s v sc' rest : leadingFraction x sc o s = (v, sc', rest) ->
  String.length rest <= String.length s.
Proof.
  revert x sc o. induction s as [|c s IH]; intros x sc o; simpl; [by intros [= _ _ <-]|].
  repeat case_match; try (intros E%IH; lia). by intros [= _ _ <-].
Qed.

Lemma takeUnit_length s u rest : takeUnit s = (u, rest) ->
  String.length rest + String.length u = String.length s.
Proof.
  revert u. induction s as [|c s IH]; intros u; simpl; [by intros [= <- <-]|].
  case_match; [by intros [= <- <-]|]. destruct (takeUnit s) as [u' rest'] eqn:E.
  intros [= <- <-]. simpl. specialize (IH u' eq_refl). lia.
Qed.

Lemma parse_term_length s v rest : parse_term s = Some (v, rest) ->
  String.length rest < String.length s.
Proof.
  unfold parse_term. destruct s as [|c s']; [done|]. case_match; [done|].
  destruct (leadingInt 0 (String c s')) as [[w s1]|] eqn:Ei; [|done].
  apply leadingInt_length in Ei. cbn [mbind option_bind].
  assert (forall f sc s2 post, (match s1 with
    | String c1 s1' => if is_dot c1 then
        let '(f, scale, s2) := leadingFraction 0 (float_of 1) false s1' in
        (f, scale, s2, negb (String.length s2 =? String.length s1'))
      else (0%Z, float_of 1, s1, false)
    | EmptyString => (0%Z, float_of 1, s1, false) end) = (f, sc, s2, post) ->
    String.length s2 <= String.length s1) as Hs2.
  { intros f sc s2 post. destruct s1 as [|c1 s1']; [by intros [= _ _ <- _]|].
    destruct (is_dot c1); [|by intros [= _ _ <- _]].
    destruct (leadingFraction 0 (float_of 1) false s1') as [[f' sc'] s2'] eqn:Ef.
    intros [= _ _ <- _]. apply leadingFraction_length in Ef. simpl. lia. }
  destruct (match s1 with EmptyString => _ | String _ _ => _ end) as [[[f sc] s2] post] eqn:E2.
  specialize (Hs2 f sc s2 post eq_refl). destruct (negb (negb _ || post)); [done|].
  destruct (takeUnit s2) as [u rest'] eqn:Eu. apply takeUnit_length in Eu.
  destruct (decide (u = "")) as [|Hne]; [done|].
  assert (0 < String.length u) by (destruct u; [by destruct Hne|simpl; lia]).
  destruct (unitMap u) as [unit|]; [|done]. cbn [mbind option_bind].
  repeat case_match; try done; intros [= _ <-]; lia.
Qed.

Lemma parse_terms_fuel n m d s :
  String.length s <= n -> String.length s <= m -> parse_terms n d s = parse_terms m d s.
Proof.
  revert m d s. induction n as [|n IH]; intros m d s Hn Hm.
  - destruct s; [by destruct m|simpl in Hn; lia].
  - destruct s as [|c s]; [by destruct m|]. destruct m as [|m]; [simpl in Hm; lia|].
    cbn [parse_terms]. destruct (parse_term (String c s)) as [[v rest]|] eqn:E; [|done].
    apply parse_term_length in E. cbn [mbind option_bind]. case_match; [done|].
    apply IH; lia.
Qed.

(** ** The configuration *)

Record ServerTLSConfig := {
  Insecure : bool;
  CertFile : string;
  KeyFile : string;
  ValidateClient : bool;
  ClientCAFile : string
}.

Record APIServerConfig := {
  Addr : string;
  TLS : ServerTLSConfig;
  BasicAuthToken : string
}.

Record Config := {
  APIServer : option APIServerConfig;
  MetricsAddr : string;
  SweepInterval : string;
  WarningWindow : string
}.

Inductive cfgError :=
  | ErrRead | ErrParse | ErrHostsKey
  | ErrAPIServerRequired | ErrAddrRequired
  | ErrInsecureFields | ErrCertKeyRequired | ErrClientCARequired
  | ErrDuration (field : string) | ErrNotPositive (field : string).

Definition DefaultMetricsAddr : string := ":9090".

Definition ServerTLSConfig_Validate (t : ServerTLSConfig) : option cfgError :=
  if Insecure t then
    if decide (CertFile t <> "" \/ KeyFile t <> "" \/ ValidateClient t = true \/ ClientCAFile t <> "")
    then Some ErrInsecureFields else None
  else if decide (CertFile t = "" \/ KeyFile t = "") then Some ErrCertKeyRequired
  else if decide (ValidateClient t = true /\ ClientCAFile t = "") then Some ErrClientCARequired
  else None.

Definition APIServerConfig_Validate (a : APIServerConfig) : option cfgError :=
  if decide (Addr a = "") then Some ErrAddrRequired
  else ServerTLSConfig_Validate (TLS a).

Definition validatePositiveDuration (field s : string) : option cfgError :=
  if decide (s = "") then None
  else match ParseDuration s with
       | None => Some (ErrDuration field)
       | Some d => if decide (d <= 0)%Z then Some (ErrNotPositive field) else None
       end.

Definition Config_Validate (c : Config) : option cfgError :=
  match APIServer c with
  | None => Some ErrAPIServerRequired
  | Some a =>
      match APIServerConfig_Validate a with
      | Some e => Some e
      | None =>
          match validatePositiveDuration "sweep_interval" (SweepInterval c) with
          | Some e => Some e
          | None => validatePositiveDuration "warning_window" (WarningWindow c)
          end
      end
  end.

(** What [encoding/json] makes of a text: the keys of the object it holds, and
    the configuration. *)
Class ConfigJSON := {
  json_keys : string -> option (list string);
  json_config : string -> option Config
}.

Definition default_metrics (c : Config) : Config :=
  {| APIServer := APIServer c;
     MetricsAddr := if decide (MetricsAddr c = "") then DefaultMetricsAddr else MetricsAddr c;
     SweepInterval := SweepInterval c; WarningWindow := WarningWindow c |}.

(** [data] is what reading the file gave. *)
Definition Load `{ConfigJSON} (data : option string) : result cfgError Config :=
  match data with
  | None => Err ErrRead
  | Some data =>
      match json_keys data with
      | None => Err ErrParse
      | Some keys =>
          if decide ("hosts" ∈ keys) then Err ErrHostsKey
          else match json_config data with
               | None => Err ErrParse
               | Some cfg =>
                   let cfg := default_metrics cfg in
                   match Config_Validate cfg with
                   | Some e => Err e
                   | None => Ok cfg
                   end
               end
      end
  end.

(** [d, _ := time.ParseDuration(s)]: zero when [s] does not parse. *)
Definition duration_or_zero (s : string) : Duration := default 0%Z (ParseDuration s).

(** The sweeper [main] builds from a configuration. *)
Definition sweeper_of (cfg : Config) : Sweeper :=
  NewSweeper (duration_or_zero (SweepInterval cfg)) (duration_or_zero (WarningWindow cfg))
    ManagerNotifier.

(** ** What a loaded configuration promises *)

Lemma ParseDuration_range s d : ParseDuration s = Some d -> (d <= max_int64)%Z.
Proof.
  unfold ParseDuration.
  destruct (match s with EmptyString => _ | String _ _ => _ end) as [neg s'].
  repeat case_decide; try done; [by intros [= <-]|].
  destruct (parse_terms _ _ _) as [t|]; [|done]. cbn [mbind option_bind].
  destruct neg; [intros [= <-]; apply wrap64_range|].
  destruct (2 ^ 63 - 1 <? t)%Z eqn:E; [done|]. intros [= <-]. unfold max_int64. lia.
Qed.

(** TLS settings that fit together. *)
Definition tls_consistent (t : ServerTLSConfig) : Prop :=
  if Insecure t
  then CertFile t = "" /\ KeyFile t = "" /\ ValidateClient t = false /\ ClientCAFile t = ""
  else CertFile t <> "" /\ KeyFile t <> "" /\ (ValidateClient t = true -> ClientCAFile t <> "").

Lemma TLS_Validate_spec t : ServerTLSConfig_Validate t = None <-> tls_consistent t.
Proof.
  unfold ServerTLSConfig_Validate, tls_consistent. destruct (Insecure t).
  - case_decide as Hd; split; try done.
    + intros (? & ? & ? & ?). destruct (ValidateClient t); naive_solver.
    + intros _. destruct (decide (CertFile t = "")), (decide (KeyFile t = "")),
        (ValidateClient t), (decide (ClientCAFile t = "")); naive_solver.
  - repeat case_decide; split; naive_solver.
Qed.

(** The timing a duration setting stands for: the setting, or the default. *)
Definition timing (s : string) (fallback d : Duration) : Prop :=
  (0 < d <= max_int64)%Z /\ (if decide (s = "") then d = fallback else ParseDuration s = Some d).

Lemma valid_timing field s fallback :
  (0 < fallback <= max_int64)%Z -> validatePositiveDuration field s = None ->
  timing s fallback (if decide (duration_or_zero s <= 0)%Z then fallback else duration_or_zero s).
Proof.
  intros Hf. unfold validatePositiveDuration, timing, duration_or_zero.
  destruct (decide (s = "")) as [->|Hs]; [done|].
  destruct (ParseDuration s) as [d|] eqn:E; [|done]. simpl. case_decide as Hd; [done|].
  intros _. apply ParseDuration_range in E. split; [lia|done].
Qed.

Section load.
Context `{ConfigJSON}.

Lemma Load_inv data cfg :
  Load data = Ok cfg -> Config_Validate cfg = None /\ MetricsAddr cfg <> "" /\
  exists text keys, data = Some text /\ json_keys text = Some keys /\ "hosts" ∉ keys.
Proof.
  unfold Load. destruct data as [data|]; [|done]. destruct (json_keys data) as [keys|] eqn:Ek; [|done].
  case_decide; [done|]. destruct (json_config data) as [c|]; [|done]. cbv zeta.
  destruct (Config_Validate (default_metrics c)) eqn:Ev; [done|]. intros [= <-].
  split_and!; [done|simpl; by case_decide|]. by exists data, keys.
Qed.

Lemma Validate_inv cfg :
  Config_Validate cfg = None ->
  (exists a, APIServer cfg = Some a /\ Addr a <> "" /\ tls_consistent (TLS a)) /\
  validatePositiveDuration "sweep_interval" (SweepInterval cfg) = None /\
  validatePositiveDuration "warning_window" (WarningWindow cfg) = None.
Proof.
  unfold Config_Validate. destruct (APIServer cfg) as [a|]; [|done].
  destruct (APIServerConfig_Validate a) eqn:Ea; [done|].
  destruct (validatePositiveDuration "sweep_interval" _); [done|]. intros Ew.
  unfold APIServerConfig_Validate in Ea. destruct (decide (Addr a = "")); [done|].
  split_and!; [|done|done]. exists a. by rewrite <- TLS_Validate_spec.
Qed.

(** C38: A configuration that loads is complete and consistent: it has an API
    address, TLS settings that fit together (no file in insecure mode, a
    certificate and key otherwise, a client CA when clients are verified) and a
    metrics address; the sweeper built from it has exactly the timings it
    names, or the defaults where it names none, always positive and within an
    [int64], so that its ticker can be started; and the file has no [hosts]
    key. *)
Theorem Load_spec data cfg :
  Load (Some data) = Ok cfg ->
  (exists a, APIServer cfg = Some a /\ Addr a <> "" /\ tls_consistent (TLS a)) /\
  MetricsAddr cfg <> "" /\
  timing (SweepInterval cfg) DefaultSweepInterval (tickInterval (sweeper_of cfg)) /\
  timing (WarningWindow cfg) DefaultWarningWindow (warningWindow (sweeper_of cfg)) /\
  (exists keys, json_keys data = Some keys /\ "hosts" ∉ keys).
Proof.
  intros E. destruct (Load_inv _ _ E) as (Hv & Hm & text & keys & [= <-] & Hk & Hh).
  destruct (Validate_inv cfg Hv) as (Ha & Hs & Hw). split_and!; [done|done| | |by exists keys].
  - by eapply (valid_timing "sweep_interval" _ DefaultSweepInterval).
  - by eapply (valid_timing "warning_window" _ DefaultWarningWindow).
Qed.
End load.

(** A file that holds one configuration. *)
Definition config0 : Config :=
  {| APIServer := Some {| Addr := ":9091";
       TLS := {| Insecure := false; CertFile := "tls.crt"; KeyFile := "tls.key";
                 ValidateClient := true; ClientCAFile := "ca.crt" |};
       BasicAuthToken := "secret" |};
     MetricsAddr := ""; SweepInterval := "1m30s"; WarningWindow := "" |}.
#[export] Instance json0 : ConfigJSON :=
  {| json_keys _ := Some ["api_server"; "sweep_interval"]; json_config _ := Some config0 |}.

Lemma Load_spec_witness :
  tickInterval (sweeper_of (default_metrics config0)) = 90000000000%Z /\
  timing "1m30s" DefaultSweepInterval (tickInterval (sweeper_of (default_metrics config0))).
Proof.
  split; [vm_compute; reflexivity|].
  apply (Load_spec "{}" (default_metrics config0)). vm_compute. reflexivity.
Defined.
