(* ===== verification/Server.v ===== *)
(** * The API server: [src/internal/server/server.go]

    The server's TLS set-up and the interceptors around every call: logging and
    basic authentication.  A handler is a [prog], so an interceptor is a
    function from programs to programs.  Certificates are read through the class
    [Files]; gRPC's own interceptor (metrics) is a parameter of [serve]. *)

From stdpp Require Import base gmap strings list.
From Stdlib Require Import ZArith Lia.
From S2P Require Import Prelude Types Convert Store StoreOps Concrete Effects ConcreteEnv.
From S2P Require Import Flintlock Deletion Sweeper Config.

(** ** Base64: [base64.StdEncoding.EncodeToString] *)

Definition b64_alphabet : string :=
  "ABCDEFGHIJKLMNOPQRSTUVWXYZabcdefghijklmnopqrstuvwxyz0123456789+/".
Definition b64_char (n : N) : Ascii.ascii :=
  default Ascii.zero (String.get (N.to_nat n) b64_alphabet).

(** The four groups of six bits of three bytes. *)
Definition bits1 (a : N) : N := a / 4.
Definition bits2 (a b : N) : N := a mod 4 * 16 + b / 16.
Definition bits3 (b c : N) : N := b mod 16 * 4 + c / 64.
Definition bits4 (c : N) : N := c mod 64.

Fixpoint EncodeToString (s : string) : string :=
  match s with
  | EmptyString => ""
  | String a s1 =>
      let a := Ascii.N_of_ascii a in
      match s1 with
      | EmptyString =>
          String (b64_char (bits1 a)) (String (b64_char (bits2 a 0)) "==")
      | String b s2 =>
          let b := Ascii.N_of_ascii b in
          match s2 with
          | EmptyString =>
              String (b64_char (bits1 a)) (String (b64_char (bits2 a b))
                (String (b64_char (bits3 b 0)) "="))
          | String c s3 =>
              let c := Ascii.N_of_ascii c in
              String (b64_char (bits1 a)) (String (b64_char (bits2 a b))
                (String (b64_char (bits3 b c)) (String (b64_char (bits4 c))
                  (EncodeToString s3))))
          end
      end
  end.

Example b64_secret : EncodeToString "secret" = "c2VjcmV0".
Proof. vm_compute. reflexivity. Qed.
Example b64_pad1 : EncodeToString "ab" = "YWI=".
Proof. vm_compute. reflexivity. Qed.
Example b64_pad2 : EncodeToString "a" = "YQ==".
Proof. vm_compute. reflexivity. Qed.

(** *** Encoding is injective *)

Definition b64_value (c : Ascii.ascii) : option N :=
  match String.index 0 (String c "") b64_alphabet with
  | Some i => Some (N.of_nat i)
  | None => None
  end.

Lemma b64_value_char n : (n < 64)%N -> b64_value (b64_char n) = Some n.
Proof.
  intros Hn. rewrite <- (N2Nat.id n) in *.
  assert (N.to_nat n ∈ seq 0 64) as Hin by (apply elem_of_seq; lia).
  set (k := N.to_nat n) in *. clearbody k. clear Hn.
  revert k Hin. apply Forall_forall.
  assert (forallb (fun k => bool_decide (b64_value (b64_char (N.of_nat k)) = Some (N.of_nat k)))
    (seq 0 64) = true) as Hall by (vm_compute; reflexivity).
  apply Forall_forall. intros k Hk. rewrite forallb_forall in Hall.
  apply list_elem_of_In in Hk. apply Hall in Hk. by apply bool_decide_eq_true in Hk.
Qed.

Lemma b64_char_inj n m : (n < 64)%N -> (m < 64)%N -> b64_char n = b64_char m -> n = m.
Proof. intros Hn Hm E. apply (f_equal b64_value) in E. rewrite !b64_value_char in E by done. congruence. Qed.

Lemma b64_char_not_pad n : (n < 64)%N -> b64_char n <> byte 61.
Proof. intros Hn E. apply (f_equal b64_value) in E. by rewrite b64_value_char in E. Qed.

Lemma byte_bound a : (Ascii.N_of_ascii a < 256)%N.
Proof. apply Ascii.N_ascii_bounded. Qed.

Lemma N_of_ascii_inj a b : Ascii.N_of_ascii a = Ascii.N_of_ascii b -> a = b.
Proof. intros E. rewrite <- (Ascii.ascii_N_embedding a), E. apply Ascii.ascii_N_embedding. Qed.

Lemma bits_bound a b :
  (a < 256)%N -> (b < 256)%N ->
  (bits1 a < 64)%N /\ (bits2 a b < 64)%N /\ (bits3 a b < 64)%N /\ (bits4 a < 64)%N.
Proof.
  unfold bits1, bits2, bits3, bits4. intros Ha Hb. split_and!; zify; Z.to_euclidean_division_equations; lia.
Qed.

Lemma bits12_inj a b a' b' :
  (b < 256)%N -> (b' < 256)%N -> bits1 a = bits1 a' -> bits2 a b = bits2 a' b' ->
  a = a' /\ (b / 16 = b' / 16)%N.
Proof. unfold bits1, bits2. intros. zify. Z.to_euclidean_division_equations. lia. Qed.

Lemma bits3_inj b c b' c' :
  (c < 256)%N -> (c' < 256)%N -> (b / 16 = b' / 16)%N -> bits3 b c = bits3 b' c' ->
  b = b' /\ (c / 64 = c' / 64)%N.
Proof. unfold bits3. intros. zify. Z.to_euclidean_division_equations. lia. Qed.

Lemma bits4_inj c c' : (c / 64 = c' / 64)%N -> bits4 c = bits4 c' -> c = c'.
Proof. unfold bits4. intros. zify. Z.to_euclidean_division_equations. lia. Qed.

(** What equal characters say of the bytes. *)
Lemma first_two a b a' b' :
  (a < 256)%N -> (b < 256)%N -> (a' < 256)%N -> (b' < 256)%N ->
  b64_char (bits1 a) = b64_char (bits1 a') -> b64_char (bits2 a b) = b64_char (bits2 a' b') ->
  a = a' /\ (b / 16 = b' / 16)%N.
Proof.
  intros Ha Hb Ha' Hb' E1 E2. destruct (bits_bound a b Ha Hb) as (? & ? & _),
    (bits_bound a' b' Ha' Hb') as (? & ? & _).
  apply b64_char_inj in E1, E2; try done. by apply bits12_inj.
Qed.

Lemma third b c b' c' :
  (b < 256)%N -> (c < 256)%N -> (b' < 256)%N -> (c' < 256)%N -> (b / 16 = b' / 16)%N ->
  b64_char (bits3 b c) = b64_char (bits3 b' c') -> b = b' /\ (c / 64 = c' / 64)%N.
Proof.
  intros Hb Hc Hb' Hc' E E3. destruct (bits_bound b c Hb Hc) as (_ & _ & ? & _),
    (bits_bound b' c' Hb' Hc') as (_ & _ & ? & _).
  apply b64_char_inj in E3; try done. by apply bits3_inj.
Qed.

Lemma third_not_pad b c : (b < 256)%N -> (c < 256)%N -> b64_char (bits3 b c) <> byte 61.
Proof. intros Hb Hc. apply b64_char_not_pad. by destruct (bits_bound b c Hb Hc) as (_ & _ & ? & _). Qed.

Lemma fourth_not_pad c : (c < 256)%N -> b64_char (bits4 c) <> byte 61.
Proof. intros Hc. apply b64_char_not_pad. by destruct (bits_bound c c Hc Hc) as (_ & _ & _ & ?). Qed.

Create HintDb b64.
#[local] Hint Resolve byte_bound : b64.
#[local] Hint Extern 1 (_ < 256)%N => lia : b64.

Lemma EncodeToString_inj s t : EncodeToString s = EncodeToString t -> s = t.
Proof.
  remember (String.length s) as n eqn:Hn. revert s t Hn.
  induction n as [n IH] using lt_wf_ind. intros s t ->.
  destruct s as [|a [|b [|c s]]], t as [|a' [|b' [|c' t]]]; cbn [EncodeToString];
    intros E; try done.
  - injection E as E1 E2. destruct (first_two (Ascii.N_of_ascii a) 0 (Ascii.N_of_ascii a') 0)
      as [->%N_of_ascii_inj _]; auto with b64.
  - injection E as _ _ E3. by destruct (third_not_pad (Ascii.N_of_ascii b') 0); auto with b64.
  - injection E as _ _ E3.
    by destruct (third_not_pad (Ascii.N_of_ascii b') (Ascii.N_of_ascii c')); auto with b64.
  - injection E as _ _ E3. by destruct (third_not_pad (Ascii.N_of_ascii b) 0); auto with b64.
  - injection E as E1 E2 E3.
    destruct (first_two _ _ _ _ (byte_bound a) (byte_bound b) (byte_bound a') (byte_bound b') E1 E2)
      as [->%N_of_ascii_inj Eb].
    by apply third in E3 as [->%N_of_ascii_inj _]; [|auto with b64..].
  - injection E as _ _ _ E4. by destruct (fourth_not_pad (Ascii.N_of_ascii c')); auto with b64.
  - injection E as _ _ E3.
    by destruct (third_not_pad (Ascii.N_of_ascii b) (Ascii.N_of_ascii c)); auto with b64.
  - injection E as _ _ _ E4. by destruct (fourth_not_pad (Ascii.N_of_ascii c)); auto with b64.
  - injection E as E1 E2 E3 E4 E5.
    destruct (first_two _ _ _ _ (byte_bound a) (byte_bound b) (byte_bound a') (byte_bound b') E1 E2)
      as [->%N_of_ascii_inj Eb].
    apply third in E3 as [->%N_of_ascii_inj Ec]; [|auto with b64..].
    apply b64_char_inj in E4; [|apply (bits_bound _ 0); auto with b64..].
    apply bits4_inj, N_of_ascii_inj in E4 as ->; [|done].
    do 3 f_equal. eapply IH; [|reflexivity|done]. simpl. lia.
Qed.

(** ** Basic authentication *)

(** The metadata of a call, by lower-case key. *)
Definition MD := gmap string (list string).

(** [strings.EqualFold] against text of ASCII letters and spaces: a rune of more
    than one byte folds to no such character in the same number of bytes. *)
Definition lower (c : Ascii.ascii) : Ascii.ascii :=
  if ((65 <=? ch c) && (ch c <=? 90))%Z then byte (Z.to_nat (ch c + 32)) else c.
Fixpoint fold_lower (s : string) : string :=
  match s with EmptyString => "" | String c s => String (lower c) (fold_lower s) end.

Inductive authError := errMissingAuth | errInvalidAuth.

Definition prefix : string := "basic ".

(** The closure [check] of [basicAuthInterceptors]; [None] is no error.  Both
    errors have the code Unauthenticated. *)
Definition check (token : string) (md : option MD) : option authError :=
  match md with
  | None => Some errMissingAuth
  | Some md =>
      match md !! "authorization" with
      | None | Some [] => Some errMissingAuth
      | Some (v :: _) =>
          let n := String.length prefix in
          if decide (String.length v < n \/
                     fold_lower (String.substring 0 n v) <> prefix)
          then Some errMissingAuth
          else
            let supplied := String.substring n (String.length v - n) v in
            if decide (supplied = EncodeToString token) then None else Some errInvalidAuth
      end
  end.

(** The unary and the stream interceptor do the same with what they wrap. *)
Definition basicAuth (token : string) (md : option MD) {A : Set} (handler : prog (result code A))
    : prog (result code A) :=
  match check token md with
  | Some _ => Ret (Err Unauthenticated)
  | None => handler
  end.

(** The logging interceptors read the clock before and after. *)
Definition logging {A : Set} (handler : prog (result code A)) : prog (result code A) :=
  then! now in
  let! r := handler in
  then! now in
  Ret r.

(** ** TLS *)

(** Reading certificates: a key pair by its two files, a file's contents, and
    the certificates in a PEM text. *)
Class Files := {
  LoadX509KeyPair : string -> string -> option string;
  ReadFile : string -> option string;
  certs_of_PEM : string -> list string
}.

Record tlsConfig := {
  Certificates : list string;
  MinVersion12 : bool;
  (** set when client certificates are required and verified *)
  ClientCAs : option (list string)
}.

Inductive serverError :=
  | InvalidConfig (e : cfgError) | LoadCert | ReadClientCA | NoClientCerts.

Definition loadServerTLS `{Files} (cfg : ServerTLSConfig) : result serverError tlsConfig :=
  match LoadX509KeyPair (CertFile cfg) (KeyFile cfg) with
  | None => Err LoadCert
  | Some cert =>
      if ValidateClient cfg then
        match ReadFile (ClientCAFile cfg) with
        | None => Err ReadClientCA
        | Some caPEM =>
            if decide (certs_of_PEM caPEM = []) then Err NoClientCerts
            else Ok {| Certificates := [cert]; MinVersion12 := true;
                       ClientCAs := Some (certs_of_PEM caPEM) |}
        end
      else Ok {| Certificates := [cert]; MinVersion12 := true; ClientCAs := None |}
  end.

(** The options of a [grpc.Server]: its transport credentials and the token its
    authentication interceptor was built with. *)
Record Server := { srv_creds : option tlsConfig; srv_auth : option string }.

Definition New `{Files} (cfg : APIServerConfig) : result serverError Server :=
  match APIServerConfig_Validate cfg with
  | Some e => Err (InvalidConfig e)
  | None =>
      let auth := if decide (BasicAuthToken cfg <> "") then Some (BasicAuthToken cfg) else None in
      if Insecure (TLS cfg) then Ok {| srv_creds := None; srv_auth := auth |}
      else match loadServerTLS (TLS cfg) with
           | Err e => Err e
           | Ok creds => Ok {| srv_creds := Some creds; srv_auth := auth |}
           end
  end.

(** A call as the server runs it: logging, then authentication, then the
    handler.  The metrics interceptor of [extraOpts], which gRPC puts around the
    chain, only counts. *)
Definition serve (srv : Server) (md : option MD) {A : Set} (handler : prog (result code A))
    : prog (result code A) :=
  logging
    match srv_auth srv with
    | Some token => basicAuth token md handler
    | None => handler
    end.

(** ** Who gets in *)

(** The first authorization header is the scheme, in any case, and the token. *)
Definition authorized (token : string) (md : option MD) : Prop :=
  exists m p rest, md = Some m /\ fold_lower p = prefix /\
    m !! "authorization" = Some ((p +:+ EncodeToString token) :: rest).

Lemma fold_lower_length s : String.length (fold_lower s) = String.length s.
Proof. induction s; simpl; congruence. Qed.

Lemma substring_split n s : n <= String.length s ->
  s = String.substring 0 n s +:+ String.substring n (String.length s - n) s /\
  String.length (String.substring 0 n s) = n.
Proof.
  revert n. induction s as [|c s IH]; intros [|n] Hn; simpl in *; try done; try lia.
  - split; [|done]. f_equal. assert (forall t, String.substring 0 (String.length t) t = t) as Hall.
    { induction t; simpl; congruence. } by rewrite Hall.
  - destruct (IH n) as [E El]; [lia|]. split; [exact (f_equal (String c) E)|by rewrite El].
Qed.

Lemma substring_app p t : String.substring 0 (String.length p) (p +:+ t) = p /\
  String.substring (String.length p) (String.length (p +:+ t) - String.length p) (p +:+ t) = t.
Proof.
  assert (forall t, String.substring 0 (String.length t) t = t) as Hall.
  { induction t0; simpl; congruence. }
  induction p as [|c p [IH1 IH2]]; simpl.
  - rewrite Nat.sub_0_r. split; [by destruct t|apply Hall].
  - split; [by rewrite IH1|apply IH2].
Qed.

Lemma string_length_app p t : String.length (p +:+ t) = String.length p + String.length t.
Proof.
  induction p as [|c p IH]; [done|].
  change (S (String.length (p +:+ t)) = S (String.length p + String.length t)). by rewrite IH.
Qed.

Lemma check_spec token md : check token md = None <-> authorized token md.
Proof.
  unfold check, authorized. split.
  - destruct md as [m|]; [|done]. destruct (m !! "authorization") as [[|v rest]|] eqn:Em; try done.
    case_decide as Hd; [done|]. case_decide as Hs; [|done]. intros _.
    destruct (substring_split (String.length prefix) v) as [E _]; [lia|].
    exists m, (String.substring 0 (String.length prefix) v), rest.
    split_and!; [done| |rewrite <- Hs, <- E; done].
    destruct (decide (fold_lower (String.substring 0 (String.length prefix) v) = prefix)); [done|].
    destruct Hd. by right.
  - intros (m & p & rest & -> & Hp & ->). cbv zeta.
    assert (String.length p = String.length prefix) as Hl by by rewrite <- Hp, fold_lower_length.
    rewrite <- Hl. destruct (substring_app p (EncodeToString token)) as [-> ->].
    rewrite decide_False, decide_True; [done|done|].
    intros [Hlt|Hne]; [|done]. rewrite string_length_app in Hlt. lia.
Qed.

(** A header lets one token in. *)
Lemma authorized_unique t t' md : authorized t md -> authorized t' md -> t = t'.
Proof.
  intros (m & p & rest & -> & Hp & E) (m' & p' & rest' & [= <-] & Hp' & E').
  rewrite E in E'. injection E' as Ev _.
  assert (String.length p = String.length p') as Hl
    by by rewrite <- (fold_lower_length p), Hp, <- Hp', fold_lower_length.
  apply EncodeToString_inj.
  destruct (substring_app p (EncodeToString t)) as [_ Et].
  rewrite Ev, Hl in Et. rewrite <- Et. apply substring_app.
Qed.

Section calls.
Context `{Codec, Sqlite, Files}.

Definition same_state (w w' : world) : Prop :=
  w_db w' = w_db w /\ w_locks w' = w_locks w /\ w_flint w' = w_flint w /\ w_log w' = w_log w.

Lemma same_state_tick w : same_state w (logged [] w).
Proof. unfold same_state. simpl. by rewrite app_nil_r. Qed.

Lemma same_state_trans w1 w2 w3 : same_state w1 w2 -> same_state w2 w3 -> same_state w1 w3.
Proof. unfold same_state. naive_solver congruence. Qed.

Lemma New_auth cfg srv :
  New cfg = Ok srv -> BasicAuthToken cfg <> "" -> srv_auth srv = Some (BasicAuthToken cfg).
Proof.
  unfold New. intros Hn Ht. destruct (APIServerConfig_Validate cfg); [done|].
  rewrite decide_True in Hn by done. destruct (Insecure (TLS cfg)); [by simplify_eq/=|].
  by destruct (loadServerTLS (TLS cfg)); simplify_eq/=.
Qed.

(** C36: With a token configured, calls get in with that token only.  A call whose
    first authorization header is the basic scheme and the base64 of the token
    runs its handler, and gives the client the handler's answer; any other call
    is answered Unauthenticated and changes nothing, whatever its handler would
    have done; and a header made for one token never serves for another. *)
Theorem only_token_holders_call {A : Set} cfg srv md (handler : prog (result code A)) w :
  New cfg = Ok srv -> BasicAuthToken cfg <> "" ->
  (authorized (BasicAuthToken cfg) md -> forall Q, wp true handler Q (logged [] w) ->
     wp true (serve srv md handler) (fun r w' => exists w0, Q r w0 /\ same_state w0 w') w) /\
  (~ authorized (BasicAuthToken cfg) md ->
     wp true (serve srv md handler)
       (fun r w' => r = Err Unauthenticated /\ same_state w w') w) /\
  (forall t, authorized t md -> authorized (BasicAuthToken cfg) md -> t = BasicAuthToken cfg).
Proof.
  intros Hn Ht. pose proof (New_auth cfg srv Hn Ht) as Ea.
  unfold serve. rewrite Ea. unfold basicAuth, logging. split_and!.
  - intros Hauth Q HQ. apply check_spec in Hauth as ->. apply wp_bind. intros t w1 ->. cbn [wp].
    apply wp_bind. eapply wp_mono; [|exact HQ]. intros r w2 Hr. apply wp_bind.
    intros t' w3 ->. cbn [wp]. exists w2. split; [done|apply same_state_tick].
  - intros Hauth. destruct (check (BasicAuthToken cfg) md) as [e|] eqn:E;
      [|by apply check_spec in E]. apply wp_bind. intros t w1 ->. cbn [wp].
    apply wp_bind. cbn [wp]. apply wp_bind. intros t' w3 ->. cbn [wp]. split; [done|].
    exact (same_state_trans _ _ _ (same_state_tick w) (same_state_tick _)).
  - intros t. by apply authorized_unique.
Qed.

(** The server's transport is what its configuration says.  A server is
    built without TLS only in insecure mode; otherwise it presents the configured
    certificate, speaks TLS 1.2 at least, and demands client certificates that a
    non-empty set of CAs vouches for exactly when the configuration asks for it;
    nothing is built from an inconsistent configuration. *)
Theorem New_transport cfg srv :
  New cfg = Ok srv ->
  tls_consistent (TLS cfg) /\ Addr cfg <> "" /\
  match srv_creds srv with
  | None => Insecure (TLS cfg) = true
  | Some c =>
      Insecure (TLS cfg) = false /\ MinVersion12 c = true /\
      (exists cert, LoadX509KeyPair (CertFile (TLS cfg)) (KeyFile (TLS cfg)) = Some cert /\
         Certificates c = [cert]) /\
      match ClientCAs c with
      | None => ValidateClient (TLS cfg) = false
      | Some cas => ValidateClient (TLS cfg) = true /\ cas <> [] /\
          exists pem, ReadFile (ClientCAFile (TLS cfg)) = Some pem /\ cas = certs_of_PEM pem
      end
  end.
Proof.
  unfold New. destruct (APIServerConfig_Validate cfg) eqn:Ev; [done|].
  unfold APIServerConfig_Validate in Ev. destruct (decide (Addr cfg = "")); [done|].
  apply TLS_Validate_spec in Ev. intros E. split_and!; [done|done|].
  destruct (Insecure (TLS cfg)) eqn:Ei; [by simplify_eq/=|].
  unfold loadServerTLS in E.
  destruct (LoadX509KeyPair _ _) as [cert|]; [|done].
  destruct (ValidateClient (TLS cfg)); [|simplify_eq/=; eauto 6].
  destruct (ReadFile _) as [pem|]; [|done]. case_decide; [done|].
  simplify_eq/=. split_and!; eauto.
Qed.
End calls.

(** ** Witnesses *)

#[export] Instance files0 : Files := {|
  LoadX509KeyPair _ _ := Some "server"; ReadFile f := Some f; certs_of_PEM t := [t] |}.

Definition apiServer0 : APIServerConfig := default {| Addr := "";
  TLS := {| Insecure := true; CertFile := ""; KeyFile := ""; ValidateClient := false;
            ClientCAFile := "" |}; BasicAuthToken := "" |} (APIServer config0).
Definition server0 : Server :=
  {| srv_creds := Some {| Certificates := ["server"]; MinVersion12 := true;
                          ClientCAs := Some ["ca.crt"] |};
     srv_auth := Some "secret" |}.
Definition md0 : option MD := Some {["authorization" := ["Basic c2VjcmV0"]]}.

Example check_md0 : check "secret" md0 = None /\ check "secret" (Some ∅) = Some errMissingAuth.
Proof. vm_compute. done. Qed.

Lemma only_token_holders_call_witness :
  authorized "secret" md0 /\
  wp true (serve server0 None (let! e := store OpClearPlacements in Ret (Ok tt)))
    (fun r w' => r = Err Unauthenticated /\ same_state world0 w') world0.
Proof.
  destruct (only_token_holders_call apiServer0 server0 None
    (let! e := store OpClearPlacements in Ret (Ok tt)) world0) as (_ & Hno & _).
  - vm_compute. reflexivity.
  - discriminate.
  - split; [apply check_spec; vm_compute; reflexivity|].
    apply Hno. intros (m & p & rest & E & _). discriminate.
Defined.

Lemma New_transport_witness :
  New apiServer0 = Ok server0 /\ tls_consistent (TLS apiServer0).
Proof.
  assert (New apiServer0 = Ok server0) as E by (vm_compute; reflexivity).
  split; [exact E|]. apply (New_transport apiServer0 server0 E).
Defined.
