(* ===== verification/Metrics.v ===== *)
(** * Metrics: [src/internal/metrics]

    The manager's own Prometheus metrics: the vectors [newMetricSet] registers,
    the recording functions as what they pass to them, and the pull-based
    [PoolCollector], which counts each pool's VMs on every scrape.  The
    Prometheus client itself is the class [Prometheus]. *)

From stdpp Require Import base gmap strings list.
From Stdlib Require Import ZArith Lia.
From S2P Require Import Prelude Types Convert Store StoreOps Concrete StoreProps.
From S2P Require Import Effects Flintlock ConcreteEnv Deletion Strategy Provision.
From S2P Require Import Reconciler LeaseApi PoolAdmin Quiet OneVM LeaseProps ProvisionProps.
From S2P Require Import ReconcilerProps.

(** ** Push-based metrics: [metrics.go] *)

Inductive vecKind := CounterVec | HistogramVec.

Record vec := { vec_kind : vecKind; vec_name : string; vec_labels : list string }.

Definition vmClaimsTotal : vec :=
  {| vec_kind := CounterVec; vec_name := "poolmgr_vm_claims_total";
     vec_labels := ["pool_name"; "pool_namespace"; "replayed"] |}.
Definition vmReleasesTotal : vec :=
  {| vec_kind := CounterVec; vec_name := "poolmgr_vm_releases_total";
     vec_labels := ["pool_name"; "pool_namespace"; "reason"] |}.
Definition provisionDuration : vec :=
  {| vec_kind := HistogramVec; vec_name := "poolmgr_vm_provision_duration_seconds";
     vec_labels := ["pool_name"; "pool_namespace"] |}.
Definition hookDuration : vec :=
  {| vec_kind := HistogramVec; vec_name := "poolmgr_hook_duration_seconds";
     vec_labels := ["hook"; "pool_name"; "pool_namespace"] |}.
Definition hookFailuresTotal : vec :=
  {| vec_kind := CounterVec; vec_name := "poolmgr_hook_failures_total";
     vec_labels := ["hook"; "pool_name"; "pool_namespace"] |}.
Definition leaseDuration : vec :=
  {| vec_kind := HistogramVec; vec_name := "poolmgr_lease_duration_seconds";
     vec_labels := ["pool_name"; "pool_namespace"] |}.
Definition reconcilerUnexpectedExitsTotal : vec :=
  {| vec_kind := CounterVec; vec_name := "poolmgr_reconciler_unexpected_exit_total";
     vec_labels := ["pool_name"; "pool_namespace"] |}.

(** What [newMetricSet] registers, in order. *)
Definition newMetricSet : list vec :=
  [vmClaimsTotal; vmReleasesTotal; provisionDuration; hookDuration; hookFailuresTotal;
   leaseDuration; reconcilerUnexpectedExitsTotal].

(** A child of a vector, by its label values, and what is done to it: [Inc], or
    [Observe] of a duration. *)
Record recording := { rec_vec : vec; rec_values : list string; rec_observed : option Duration }.

Definition FormatBool (b : bool) : string := if b then "true" else "false".

Definition RecordVMClaim (poolName poolNamespace : string) (replayed : bool) : recording :=
  {| rec_vec := vmClaimsTotal; rec_values := [poolName; poolNamespace; FormatBool replayed];
     rec_observed := None |}.
Definition RecordVMRelease (poolName poolNamespace reason : string) : recording :=
  {| rec_vec := vmReleasesTotal; rec_values := [poolName; poolNamespace; reason];
     rec_observed := None |}.
Definition ObserveProvisionDuration (poolName poolNamespace : string) (d : Duration) : recording :=
  {| rec_vec := provisionDuration; rec_values := [poolName; poolNamespace]; rec_observed := Some d |}.
Definition ObserveHookDuration (hook poolName poolNamespace : string) (d : Duration) : recording :=
  {| rec_vec := hookDuration; rec_values := [hook; poolName; poolNamespace]; rec_observed := Some d |}.
Definition RecordHookFailure (hook poolName poolNamespace : string) : recording :=
  {| rec_vec := hookFailuresTotal; rec_values := [hook; poolName; poolNamespace];
     rec_observed := None |}.
Definition ObserveLeaseDuration (poolName poolNamespace : string) (d : Duration) : recording :=
  {| rec_vec := leaseDuration; rec_values := [poolName; poolNamespace]; rec_observed := Some d |}.
Definition RecordReconcilerUnexpectedExit (poolName poolNamespace : string) : recording :=
  {| rec_vec := reconcilerUnexpectedExitsTotal; rec_values := [poolName; poolNamespace];
     rec_observed := None |}.

(** The recording behind each metric effect of the callers. *)
Definition record_metric (m : metric) : recording :=
  match m with
  | VMClaim p ns replay => RecordVMClaim p ns replay
  | VMRelease p ns reason => RecordVMRelease p ns reason
  | LeaseDuration p ns d => ObserveLeaseDuration p ns d
  | HookDuration h p ns d => ObserveHookDuration h p ns d
  | HookFailure h p ns => RecordHookFailure h p ns
  | ProvisionDuration p ns d => ObserveProvisionDuration p ns d
  | ReconcilerUnexpectedExit p ns => RecordReconcilerUnexpectedExit p ns
  end.

(** ** The pool collector: [pool_collector.go] *)

Definition poolLabels : list string := ["pool_name"; "pool_namespace"].

Definition poolSizeDesc : string := "poolmgr_pool_size".
Definition poolAvailableDesc : string := "poolmgr_pool_available".
Definition poolLeasedDesc : string := "poolmgr_pool_leased".
Definition poolProvisioningDesc : string := "poolmgr_pool_provisioning".
Definition poolQuarantinedDesc : string := "poolmgr_pool_quarantined".

(** The descriptions the collector sends, in order. *)
Definition Describe : list string :=
  [poolSizeDesc; poolAvailableDesc; poolLeasedDesc; poolProvisioningDesc; poolQuarantinedDesc].

Record vmCounts := {
  mc_available : Z;
  mc_leased : Z;
  mc_provisioning : Z;
  mc_quarantined : Z
}.

Definition no_counts : vmCounts :=
  {| mc_available := 0; mc_leased := 0; mc_provisioning := 0; mc_quarantined := 0 |}.

(** The body of the loop of [countVMs]. *)
Definition count_phase (counts : vmCounts) (vm : VMRecord) : vmCounts :=
  let 'Build_vmCounts a l p q := counts in
  match vm_phase vm with
  | AVAILABLE => Build_vmCounts (a + 1) l p q
  | LEASED | PRE_LEASE_HOOK_RUNNING => Build_vmCounts a (l + 1) p q
  | PROVISIONING | CREATE_HOOK_RUNNING => Build_vmCounts a l (p + 1) q
  | QUARANTINED => Build_vmCounts a l p (q + 1)
  | _ => counts
  end.

Definition countVMs (poolName poolNamespace : string) : prog (result StoreError vmCounts) :=
  let! vms := store (OpListVMsByPool poolName poolNamespace None) in
  Ret (match vms with
       | Err e => Err e
       | Ok vms => Ok (fold_left count_phase vms no_counts)
       end).

(** A gauge: its description, value and label values. *)
Record sample := { s_desc : string; s_value : Z; s_labels : list string }.

(** The five gauges of one pool. *)
Definition pool_samples (pool : PoolSpec) (c : vmCounts) : list sample :=
  let gauge desc v :=
    {| s_desc := desc; s_value := v; s_labels := [pool_name pool; pool_namespace pool] |} in
  [gauge poolSizeDesc (pool_size pool); gauge poolAvailableDesc (mc_available c);
   gauge poolLeasedDesc (mc_leased c); gauge poolProvisioningDesc (mc_provisioning c);
   gauge poolQuarantinedDesc (mc_quarantined c)].

(** The loop of [Collect]: a pool whose VMs cannot be counted is skipped. *)
Fixpoint collect_pools (pools : list PoolSpec) : prog (list sample) :=
  match pools with
  | [] => Ret []
  | pool :: pools =>
      let! counts := countVMs (pool_name pool) (pool_namespace pool) in
      let! rest := collect_pools pools in
      Ret (match counts with Ok c => pool_samples pool c ++ rest | Err _ => rest end)
  end.

(** The metrics sent to the channel. *)
Definition Collect : prog (list sample) :=
  let! pools := store OpListPools in
  match pools with
  | Err _ => Ret []
  | Ok pools => collect_pools pools
  end.

(** ** The Prometheus client *)

(** What the code relies on: a vector has a child for as many values as it has
    labels (anything else panics), and vectors of different names register. *)
Class Prometheus := {
  WithLabelValues : vec -> list string -> option (string * list string);
  MustRegister : list string -> bool
}.
Class PrometheusLaws (P : Prometheus) : Prop := {
  child_exists v values : length values = length (vec_labels v) ->
    WithLabelValues v values = Some (vec_name v, values);
  distinct_register names : NoDup names -> MustRegister names = true
}.

(** Everything the registry of [NewRegistry] and [RegisterPoolCollector] holds of
    the manager's own. *)
Definition registered : list string := (vec_name <$> newMetricSet) ++ Describe.

Section panics.
Context `{P : Prometheus} `{!PrometheusLaws P}.

(** Metrics never bring the manager down: all its metrics register, and every
    recording any caller makes has a value for each label of its vector, so that
    the client, which panics otherwise, finds its child. *)
Theorem metrics_never_panic :
  MustRegister registered = true /\
  forall m, WithLabelValues (rec_vec (record_metric m)) (rec_values (record_metric m)) =
    Some (vec_name (rec_vec (record_metric m)), rec_values (record_metric m)) /\
    rec_vec (record_metric m) ∈ newMetricSet.
Proof.
  split.
  - apply distinct_register. vm_compute. apply (bool_decide_unpack _). vm_compute. exact I.
  - intros m. split; [apply child_exists; by destruct m|]. destruct m; vm_compute; set_solver.
Qed.
End panics.

(** ** The gauges and the API agree *)

(** The counts of a pool's VMs, from the table. *)
Definition gauges (n ns : string) (db : DB) : vmCounts :=
  {| mc_available := count_rows n ns db (fun v => vm_phase v = AVAILABLE);
     mc_leased := count_rows n ns db (fun v => vm_phase v = LEASED \/ vm_phase v = PRE_LEASE_HOOK_RUNNING);
     mc_provisioning := count_rows n ns db (fun v => vm_phase v = PROVISIONING \/
       vm_phase v = CREATE_HOOK_RUNNING);
     mc_quarantined := count_rows n ns db (fun v => vm_phase v = QUARANTINED) |}.

(** The reconciler's counts with its claiming and leased VMs taken together. *)
Definition merged (c : VMCounts) : vmCounts :=
  {| mc_available := Available c; mc_leased := (Claiming c + Leased c)%Z;
     mc_provisioning := Provisioning c; mc_quarantined := Quarantined c |}.

Lemma count_vm_merged committed c vm :
  merged (count_vm committed c vm) = count_phase (merged c) vm.
Proof.
  destruct c. unfold count_vm, count_phase, merged. simpl.
  destruct (vm_phase vm); try case_decide; simpl; f_equal; lia.
Qed.

Lemma fold_merged committed vms c :
  merged (fold_left (count_vm committed) vms c) = fold_left count_phase vms (merged c).
Proof.
  revert c. induction vms as [|v vms IH]; intros c; simpl; [done|].
  by rewrite IH, count_vm_merged.
Qed.

Lemma count_rows_split n ns db (P Q R : VMRecord -> Prop)
    `{forall v, Decision (P v)} `{forall v, Decision (Q v)} `{forall v, Decision (R v)} :
  (forall v, R v <-> P v \/ Q v) -> (forall v, ~ (P v /\ Q v)) ->
  count_rows n ns db R = (count_rows n ns db P + count_rows n ns db Q)%Z.
Proof.
  intros HR Hd. unfold count_rows. rewrite <- Nat2Z.inj_add. f_equal.
  induction (rows (vms db)) as [|r l IH]; [done|]. rewrite !filter_cons.
  specialize (HR (rowToVM r)). specialize (Hd (rowToVM r)).
  repeat case_decide; simpl; try lia; exfalso; tauto.
Qed.

Lemma merged_exact n ns db committed c :
  counts_exact n ns db committed c -> merged c = gauges n ns db.
Proof.
  intros (Ha & Hc & Hl & Hp & Hq). unfold merged, gauges. rewrite Ha, Hc, Hl, Hp, Hq. f_equal.
  symmetry. apply count_rows_split.
  - intros v. destruct (decide (GetLeaseId v ∈ committed)); naive_solver.
  - intros v. naive_solver congruence.
Qed.

Section collect.
Context `{Codec, Sqlite}.

Lemma wp_countVMs faults n ns (Q : result StoreError vmCounts -> world -> Prop) w :
  (forall w', w_db w' = w_db w -> Q (Ok (gauges n ns (w_db w))) w') ->
  (forall e w', w_db w' = w_db w -> faults = true -> Q (Err e) w') ->
  wp faults (countVMs n ns) Q w.
Proof.
  intros Hok Herr. unfold countVMs. apply wp_bind, wp_store.
  - intros now now' db' vs w1 E Ew. unfold denote, ListVMsByPool, query in E. injection E as <- <-.
    cbn [wp].
    match goal with |- Q (Ok (fold_left count_phase ?vs no_counts)) _ =>
      pose proof (fold_counts [] vs no_vms) as Hf; cbv zeta in Hf; rewrite !count_listed in Hf;
      assert (fold_left count_phase vs no_counts = gauges n ns (w_db w)) as ->
        by (rewrite <- (merged_exact n ns (w_db w) [] _ Hf); symmetry; apply fold_merged) end.
    by apply Hok.
  - intros e w1 Ew [(now & now' & E)|[Hf _]]; cbn [wp]; [|by apply Herr]. done.
Qed.

(** The gauges of [pools], all of them when no call fails. *)
Lemma wp_collect_pools faults db pools w :
  w_db w = db ->
  wp faults (collect_pools pools) (fun samples w' => w_db w' = db /\
    (forall s, s ∈ samples -> exists p, p ∈ pools /\
       s ∈ pool_samples p (gauges (pool_name p) (pool_namespace p) db)) /\
    (faults = false -> forall p s, p ∈ pools ->
       s ∈ pool_samples p (gauges (pool_name p) (pool_namespace p) db) -> s ∈ samples)) w.
Proof.
  revert w. induction pools as [|p pools IH]; intros w Ew; cbn [collect_pools].
  - cbn [wp]. split_and!; [done|set_solver|set_solver].
  - apply wp_bind, wp_countVMs.
    + intros w1 E1. apply wp_bind. eapply wp_mono; [|apply IH; congruence].
      intros rest w2 (E2 & Hs & Hall). cbn [wp]. rewrite Ew in *. split_and!; [done| |].
      * intros s [Hin|Hin]%elem_of_app; [exists p; set_solver|].
        destruct (Hs s Hin) as (p' & ? & ?). exists p'. set_solver.
      * intros Hf p' s [->|Hp]%elem_of_cons Hin; apply elem_of_app; [by left|right; eauto].
    + intros e w1 E1 Hf. apply wp_bind. eapply wp_mono; [|apply IH; congruence].
      intros rest w2 (E2 & Hs & _). cbn [wp]. split_and!; [done| |by rewrite Hf].
      intros s Hin. destruct (Hs s Hin) as (p' & ? & ?). exists p'. set_solver.
Qed.

(** What the API says of a pool, in terms of the gauges. *)
Definition status_of_gauges (g : vmCounts) : PoolStatus :=
  {| AvailableCount := wrap32 (mc_available g); LeasedCount := wrap32 (mc_leased g);
     ProvisioningCount := wrap32 (mc_provisioning g);
     QuarantinedCount := wrap32 (mc_quarantined g) |}.

(** C37: The metrics and the API count alike.  A scrape reads the store only;
    every gauge it reports has exactly the value of the pool table and the VM
    table, with the pre-lease and leased VMs together, and when no store call
    fails it reports all five gauges of every pool; and GetPool, whose counts
    come from the reconciler's own breakdown with the leases, reports for the
    same database the same numbers as int32. *)
Theorem metrics_match_api faults n ns w :
  wp faults Collect (fun samples w' => w_db w' = w_db w /\
    (forall s, s ∈ samples -> exists pools p,
       (Store.ListPools (w_db w)).2 = Ok pools /\ p ∈ pools /\
       s ∈ pool_samples p (gauges (pool_name p) (pool_namespace p) (w_db w))) /\
    (faults = false -> forall pools p s, (Store.ListPools (w_db w)).2 = Ok pools -> p ∈ pools ->
       s ∈ pool_samples p (gauges (pool_name p) (pool_namespace p) (w_db w)) -> s ∈ samples)) w /\
  wp faults (PoolAdmin.GetPool n ns) (fun r w' => w_db w' = w_db w /\
    forall p, r = Ok p -> p_status p = status_of_gauges (gauges n ns (w_db w))) w.
Proof.
  split.
  - unfold Collect. apply wp_bind, wp_store.
    + intros now now' db' pools w1 E Ew. simpl in E.
      assert (Store.ListPools (w_db w) = (db', Ok pools)) as El by exact E.
      assert (db' = w_db w) as ->.
      { unfold Store.ListPools in E. store_simpl. by destruct (mapM _ _); simplify_eq/=. }
      eapply wp_mono; [|by apply (wp_collect_pools faults (w_db w))].
      intros samples w2 (E2 & Hs & Hall). rewrite El. simpl. split_and!; [done| |].
      * intros s Hin. destruct (Hs s Hin) as (p & ? & ?). by exists pools, p.
      * intros Hf pools' p s [= <-]. by apply Hall.
    + intros e w1 Ew Hf. cbn [wp]. split_and!; [done|set_solver|].
      intros -> pools p s Ep. exfalso. destruct Hf as [(now & now' & E)|[? _]]; [|done].
      assert ((Store.ListPools (w_db w)).2 = Err e) as E' by exact E. congruence.
  - unfold PoolAdmin.GetPool. apply wp_bind, wp_store.
    + intros now now' db' spec w1 E Ew. assert (db' = w_db w) as ->.
      { simpl in E. unfold Store.GetPool in E. store_simpl.
        destruct (pools (w_db w) !! _) as [r|]; [|done]. by destruct (rowToPool r); simplify_eq/=. }
      apply wp_bind, wp_CountVMs.
      * intros c committed w2 Ew2 _ Hc. rewrite Ew in *. cbn [wp]. split; [congruence|].
        intros p [= <-]. simpl. by rewrite <- (merged_exact _ _ _ _ _ Hc).
      * intros e w2 Ew2 _. cbn [wp]. split; [congruence|done].
    + intros e w1 Ew _. destruct e; cbn [wp]; split; done.
Qed.
End collect.

(** ** Witnesses *)

#[export] Instance prometheus0 : Prometheus := {|
  WithLabelValues v values :=
    if decide (length values = length (vec_labels v)) then Some (vec_name v, values) else None;
  MustRegister names := bool_decide (NoDup names) |}.
#[export] Instance prometheus0_laws : PrometheusLaws prometheus0.
Proof.
  split; [intros v values E; simpl; by rewrite decide_True|].
  intros names Hn. simpl. by apply bool_decide_eq_true.
Qed.

Example collect0 : (fun s => (s_desc s, s_value s)) <$> (run Collect world0).2 =
  [("poolmgr_pool_size", 2%Z); ("poolmgr_pool_available", 1%Z); ("poolmgr_pool_leased", 1%Z);
   ("poolmgr_pool_provisioning", 0%Z); ("poolmgr_pool_quarantined", 1%Z)].
Proof. vm_compute. reflexivity. Qed.

Lemma metrics_never_panic_witness :
  WithLabelValues vmClaimsTotal ["web"; "default"; "true"] =
    Some ("poolmgr_vm_claims_total", ["web"; "default"; "true"]).
Proof. exact (proj1 (proj2 metrics_never_panic (VMClaim "web" "default" true))). Defined.
