(* ===== verification/Daemon.v ===== *)
(** * The daemon: [src/cmd/poolmgrd/main.go]

    Startup in the order of [main] (flags, configuration, recovery of what a dead
    process left, connections, seeding), the two servers' shutdown logic, and how
    [main] collects the results of its four goroutines. *)

From stdpp Require Import base gmap strings list.
From Stdlib Require Import ZArith Lia.
From S2P Require Import Prelude Types Convert Store StoreOps Concrete StoreProps.
From S2P Require Import Effects Flintlock ConcreteEnv Deletion Strategy Provision.
From S2P Require Import Reconciler Sweeper LeaseApi PoolAdmin HostAdmin Quiet OneVM LeaseProps HostRefs.
From S2P Require Import EventsApi Protocols ProvisionProps ReconcilerProps SweeperProps HostProps Config Server.

(** ** Startup *)

Inductive slogLevel := LevelDebug | LevelInfo | LevelWarn | LevelError.

Definition parseLogLevel (s : string) : option slogLevel :=
  if decide (s = "debug") then Some LevelDebug
  else if decide (s = "info") then Some LevelInfo
  else if decide (s = "warn") then Some LevelWarn
  else if decide (s = "error") then Some LevelError
  else None.

(** Why the process exits with status 1. *)
Inductive fatal :=
  | BadLogLevel | ConfigRequired | LoadConfig (e : cfgError) | OpenStore
  | ClearStalePlacements | RecoverClaims | RecoverProvisions | ListHostsFailed
  | SeedManager (e : error) | BuildServer (e : serverError) | Listen | RunFailed (e : error)
  (** a nil dereference *)
  | Panic.

Definition clearStalePlacements : prog (option error) :=
  let! r := store OpClearPlacements in
  Ret (match r with Ok _ => None | Err e => Some (StoreErr e) end).

(** One stored host: dialled and added, or skipped. *)
Definition add_stored (h : Host) : prog unit :=
  let! c := Dial (Some h) in
  match c with
  | Err _ => Ret tt
  | Ok c =>
      let! err := Pool_Add c in
      match err with
      | None => Ret tt
      | Some _ => then! Conn_Close c in Ret tt
      end
  end.

(** [New(nil)] dials nothing. *)
Definition buildFlintlockPool (hosts : list Host) : prog unit :=
  then! Pool_New [] in
  for_each hosts add_stored.

(** [Manager.Seed], which starts the reconcilers one by one. *)
Fixpoint seed_pools (pools : list PoolSpec) : prog (option error) :=
  match pools with
  | [] => Ret None
  | spec :: pools =>
      let! err := do (EStart spec) in
      match err with
      | Some err => Ret (Some err)
      | None => seed_pools pools
      end
  end.

Definition Seed : prog (option error) :=
  let! pools := store OpListPools in
  match pools with
  | Err e => Ret (Some (StoreErr e))
  | Ok pools => seed_pools pools
  end.

(** [main] from the opened store to the seeded manager. *)
Definition bring_up : prog (option fatal) :=
  let! err := clearStalePlacements in
  match err with Some _ => Ret (Some ClearStalePlacements) | None =>
  let! claims := RecoverAbandonedClaims in
  match claims.2 with Some _ => Ret (Some RecoverClaims) | None =>
  let! provisions := RecoverAbandonedProvisions in
  match provisions.2 with Some _ => Ret (Some RecoverProvisions) | None =>
  let! hosts := store OpListHosts in
  match hosts with Err _ => Ret (Some ListHostsFailed) | Ok hosts =>
  then! buildFlintlockPool hosts in
  let! err := Seed in
  Ret (match err with Some e => Some (SeedManager e) | None => None end)
  end end end end.

(** The services on the server, with the settings [main] gives them.  PoolAdmin and
    HostAdmin keep no settings but the manager they notify. *)
Record manager := {
  mg_server : Server; mg_lease : LeaseServer; mg_events : EventsServer; mg_notifier : Notifier
}.

Definition buildGRPCServer `{Files} (cfg : APIServerConfig) : result serverError manager :=
  match New cfg with
  | Err e => Err e
  | Ok srv =>
      Ok {| mg_server := srv; mg_lease := NewLeaseServer 0 0 ManagerNotifier;
            mg_events := NewEventsServer 0 0; mg_notifier := ManagerNotifier |}
  end.

(** [main] up to the point where it waits for its goroutines: the configuration,
    the sweeper and the server it runs them with.  [data] is what the
    configuration file holds, [opened] whether the store opened, [listening]
    whether the address could be bound. *)
Definition start `{ConfigJSON, Files} (logLevel configPath : string) (data : option string)
    (opened listening : bool) : prog (result fatal (Config * Sweeper * manager)) :=
  match parseLogLevel logLevel with None => Ret (Err BadLogLevel) | Some _ =>
  if decide (configPath = "") then Ret (Err ConfigRequired) else
  match Load data with Err e => Ret (Err (LoadConfig e)) | Ok cfg =>
  if negb opened then Ret (Err OpenStore) else
  let! err := bring_up in
  match err with Some e => Ret (Err e) | None =>
  let sweeper := sweeper_of cfg in
  match APIServer cfg with None => Ret (Err Panic) | Some api =>
  match buildGRPCServer api with
  | Err e => Ret (Err (BuildServer e))
  | Ok srv => if listening then Ret (Ok (cfg, sweeper, srv)) else Ret (Err Listen)
  end end end end end.

(** ** The servers' goroutines *)

(** What happens to a server: it returns by itself, or the context ends first,
    with the error of the context. *)
Inductive outcome (E : Type) := Returned (err : option E) | ContextDone (err : E).
Arguments Returned {E} err.
Arguments ContextDone {E} err.

Inductive serverAction := Serve | GracefulStop | Stop | Shutdown.

Definition grpcShutdownTimeout : Duration := 5000000000.

(** [serveGRPC]: what it does to the server, and what it returns.  [stopped] is
    how long the graceful stop takes by itself; [Stop] makes it return. *)
Definition serveGRPC (o : outcome error) (stopped : Duration) : list serverAction * option error :=
  match o with
  | Returned err => ([Serve], err)
  | ContextDone err =>
      if decide (stopped <= grpcShutdownTimeout)%Z then ([Serve; GracefulStop], Some err)
      else ([Serve; GracefulStop; Stop], Some err)
  end.

(** [serveMetrics]: a server closed by [Shutdown] returns [http.ErrServerClosed],
    which is no error; [shutdown] is the error of [Shutdown]. *)
Inductive httpError := ErrServerClosed | HttpErr (e : error).

Definition serveMetrics (o : outcome httpError) (ctxErr : error) (shutdown : option error)
    : list serverAction * option error :=
  match o with
  | Returned None | Returned (Some ErrServerClosed) => ([Serve], None)
  | Returned (Some (HttpErr e)) => ([Serve], Some e)
  | ContextDone _ =>
      match shutdown with
      | Some e => ([Serve; Shutdown], Some e)
      | None => ([Serve; Shutdown], Some ctxErr)
      end
  end.

(** [errors.Is(err, context.Canceled)]. *)
Definition is_canceled (e : error) : bool :=
  match e with RpcErr Canceled => true | _ => false end.

(** The loop that drains [errCh]: the first error that is not the cancellation,
    and how often [stop] was called. *)
Fixpoint drain (results : list (option error)) (firstErr : option error) (stops : nat)
    : option error * nat :=
  match results with
  | [] => (firstErr, stops)
  | r :: results =>
      match r, firstErr with
      | Some e, None =>
          if is_canceled e then drain results firstErr stops else drain results (Some e) (S stops)
      | _, _ => drain results firstErr stops
      end
  end.

(** The exit status of the process, from the four results. *)
Definition exit_status (results : list (option error)) : Z :=
  match (drain results None 0).1 with Some _ => 1 | None => 0 end.

Lemma drain_done l e n : drain l (Some e) n = (Some e, n).
Proof. induction l as [|[e'|] l IH]; simpl; auto. Qed.

(** Either every error is the cancellation, or the first other one is kept. *)
Lemma drain_cases l :
  (drain l None 0 = (None, 0) /\ forall e, Some e ∈ l -> is_canceled e = true) \/
  exists e before after, drain l None 0 = (Some e, 1) /\ l = before ++ Some e :: after /\
    is_canceled e = false /\ forall e', Some e' ∈ before -> is_canceled e' = true.
Proof.
  induction l as [|[e|] l IH]; cbn [drain].
  - left. split; [done|set_solver].
  - destruct (is_canceled e) eqn:E.
    + destruct IH as [[-> IH]|(e0 & b & a & -> & -> & He & Hb)]; [left|right].
      * split; [done|]. set_solver.
      * exists e0, (Some e :: b), a. split_and!; [done..|]. set_solver.
    + right. exists e, [], l. rewrite drain_done. split_and!; [done..|set_solver].
  - destruct IH as [[-> IH]|(e0 & b & a & -> & -> & He & Hb)]; [left|right].
    + split; [done|]. set_solver.
    + exists e0, (None :: b), a. split_and!; [done..|]. set_solver.
Qed.

(** ** After startup *)

(** Programs whose effects are store calls and clock readings. *)
Definition store_only (X : Set) (e : eff X) : bool :=
  match e with
  | EStore (OpCreateHost _) => false
  | EStore _ | ENow => true
  | _ => false
  end.

Section startup.
Context `{Codec, Sqlite}.

(** They keep the database well formed and leave everything else alone. *)
Definition tended (w w' : world) : Prop :=
  (db_wf (w_db w) -> db_wf (w_db w')) /\ w_flint w' = w_flint w /\ w_log w' = w_log w.

Lemma wp_store_only faults {A : Set} (p : prog A) w :
  every store_only p -> wp faults p (fun _ => tended w) w.
Proof.
  intros Hp. assert (forall w1, tended w w1 -> wp faults p (fun _ => tended w) w1) as Hall;
    [|by apply Hall].
  revert Hp. induction p as [A x|A X e k IH|A c IHc k IHk]; intros Hp w1 (Hw & Hf & Hl); simpl in *.
  - done.
  - destruct Hp as [He Hk]. intros x w2 Hx. apply IH; [done|].
    assert (tended w1 w2) as (Hw' & Hf' & Hl'); [|split_and!; [auto|congruence..]].
    destruct e; try done.
    + assert (op_ok o) by by destruct o.
      destruct Hx as [(now & now' & _ & ->)|(_ & _ & ->)]; simpl;
        [split_and!; [intros W; by apply op_keeps_wf|done..]|].
      split_and!; [done..|simpl; by rewrite app_nil_r].
    + simpl in Hx. subst w2. split_and!; [done..|simpl; by rewrite app_nil_r].
  - destruct Hp as [Hc Hk]. eapply wp_mono; [|apply IHc; [done|done]].
    intros [] w2 Hw2. by apply IHk.
Qed.

Ltac store_only_tac IH :=
  repeat first [apply IH | apply every_bind; [|intros] | case_match | exact I | split; [done|done]].

Lemma mark_store_only k vms n : every store_only (mark_abandoned k vms n).
Proof.
  revert n. induction vms as [|v vms IH]; intros n; cbn [mark_abandoned]; [done|]. store_only_tac IH.
Qed.

Lemma recover_store_only k phs n : every store_only (recover_phases k phs n).
Proof.
  revert n. induction phs as [|ph phs IH]; intros n; cbn [recover_phases]; [done|].
  apply every_bind; [split; done|]. intros [vms|e]; [|exact I].
  apply every_bind; [apply mark_store_only|]. intros x. store_only_tac IH.
Qed.

Lemma claims_store_only : every store_only RecoverAbandonedClaims.
Proof. unfold RecoverAbandonedClaims. store_only_tac recover_store_only. Qed.

(** *** The connections *)

(** Open connections only, to registered hosts only. *)
Definition dialled (db : DB) (f : flintPool) : Prop :=
  flint_ok f /\ forall n c, fl_hosts f !! n = Some c -> is_Some (hosts db !! n).

Lemma wp_add_stored faults h db w :
  is_Some (hosts db !! host_name h) -> same_core db (w_db w) -> dialled db (w_flint w) ->
  wp faults (add_stored h) (fun _ w' => same_core db (w_db w') /\ dialled db (w_flint w')) w.
Proof.
  intros Hh Hdb [Hf Hr]. unfold add_stored. apply wp_bind, wp_Dial; [done| |].
  - intros e w1 Hu Hf1. cbn [wp]. split; [by etrans; [|apply Hu]|]. split; [done|].
    intros n c. rewrite (un_hosts _ _ Hu). apply Hr.
  - intros c conn w1 Hu Hold Hn _ _. unfold Pool_Add. apply wp_bind, wp_bind, wp_flint.
    assert (deref c (w_flint w1) = conn) as Hd by (unfold deref; by rewrite (ho_conn _ _ _ Hold)).
    cbn [flint_exec]. rewrite Hd. assert (same_core db (w_db w1)) as Hdb1 by (by etrans; [|apply Hu]).
    destruct (fl_hosts (w_flint w1) !! conn_name conn) as [old|] eqn:Eo; cbn [fst snd wp].
    + apply wp_bind, (wp_Conn_Close faults c conn); [exact Hold|]. intros e w2 Hu2 Hf2. cbn [wp].
      split; [etrans; [exact Hdb1|apply Hu2]|]. split; [done|].
      intros n d. rewrite (un_hosts _ _ Hu2). simpl. rewrite (un_hosts _ _ Hu). apply Hr.
    + split; [done|]. split; simpl; [by apply holding_add|].
      intros n d [[<- <-]|[_ Hin]]%lookup_insert_Some; [by rewrite Hn|].
      rewrite (un_hosts _ _ Hu) in Hin. by eapply Hr.
Qed.

Lemma wp_build faults hs db w :
  (forall h, h ∈ hs -> is_Some (hosts db !! host_name h)) -> same_core db (w_db w) ->
  dialled db (w_flint w) ->
  wp faults (buildFlintlockPool hs) (fun _ w' => same_core db (w_db w') /\ dialled db (w_flint w')) w.
Proof.
  intros Hh Hdb Hf. apply wp_bind. cbn [Pool_New wp].
  apply (wp_for_each faults hs add_stored (fun w => same_core db (w_db w) /\ dialled db (w_flint w)));
    [|done]. intros h w1 Hin [Hdb1 Hf1]. apply wp_add_stored; auto.
Qed.

(** *** Seeding *)

Lemma wp_seed_pools faults pools w (Q : option error -> world -> Prop) :
  (forall w', w_db w' = w_db w -> w_flint w' = w_flint w ->
     (forall p, p ∈ pools -> Started p ∈ w_log w') -> (forall a, a ∈ w_log w -> a ∈ w_log w') ->
     Q None w') ->
  (forall e w', Q (Some e) w') ->
  wp faults (seed_pools pools) Q w.
Proof.
  intros Hok Herr. revert w Hok. induction pools as [|p pools IH]; intros w Hok; cbn [seed_pools].
  - cbn [wp]. apply Hok; auto. set_solver.
  - apply wp_bind. intros err w1 E. simpl in E. subst w1. destruct err as [e|]; [apply Herr|].
    apply IH. intros w' Ed Ef Hs Hl. apply Hok; [done..| |].
    + intros p' [->|Hp]%elem_of_cons; [|by apply Hs]. apply Hl. simpl. set_solver.
    + intros a Ha. apply Hl. simpl. set_solver.
Qed.

(** *** All of it *)

(** What the reconcilers, the sweeper and the API find. *)
Record ready_to_serve (w w' : world) : Prop := {
  rs_placements : placements (w_db w') = ∅;
  rs_pools : pools (w_db w') = pools (w_db w);
  rs_leases : leases (w_db w') = leases (w_db w);
  rs_hosts : hosts (w_db w') = hosts (w_db w);
  rs_absent u : vms (w_db w) !! u = None -> vms (w_db w') !! u = None;
  (** what a dead process was working on is marked for deletion *)
  rs_marked u r : vms (w_db w) !! u = Some r ->
    abandoned_claim (w_db w) r \/ abandoned_provision r ->
    exists r', vms (w_db w') !! u = Some r' /\ marked_as r r';
  (** every other VM is as it was *)
  rs_kept u r : vms (w_db w) !! u = Some r ->
    ~ abandoned_claim (w_db w) r -> ~ abandoned_provision r -> vms (w_db w') !! u = Some r;
  rs_dialled : dialled (w_db w') (w_flint w');
  rs_started specs p : (Store.ListPools (w_db w')).2 = Ok specs -> p ∈ specs -> Started p ∈ w_log w'
}.

Lemma deleting_not_abandoned r r' : marked_as r r' -> ~ abandoned_provision r'.
Proof.
  intros (Hd & _). unfold abandoned_provision. rewrite Hd.
  intros [E|E]; by apply (inj phase_code) in E.
Qed.

(** The two recoveries one after the other. *)
Lemma recoveries_compose db db1 db2 (P1 P2 : vmRow -> bool) :
  (forall r, P1 r = true <-> abandoned_claim db r) -> recovered P1 None db db1 ->
  (forall r, P2 r = true <-> abandoned_provision r) -> recovered P2 None db1 db2 ->
  (forall u, vms db !! u = None -> vms db2 !! u = None) /\
  (forall u r, vms db !! u = Some r -> abandoned_claim db r \/ abandoned_provision r ->
     exists r', vms db2 !! u = Some r' /\ marked_as r r') /\
  (forall u r, vms db !! u = Some r -> ~ abandoned_claim db r -> ~ abandoned_provision r ->
     vms db2 !! u = Some r).
Proof.
  intros HP1 R1 HP2 R2. split_and!.
  - intros u Hu. by apply (rec_absent _ _ _ _ R2), (rec_absent _ _ _ _ R1).
  - intros u r Hr Ha. destruct (P1 r) eqn:E1.
    + destruct (rec_marked _ _ _ _ R1 u r Hr E1) as [[? _]|(r1 & Hr1 & Hm)]; [done|].
      exists r1. split; [|done]. apply (rec_kept _ _ _ _ R2); [done|].
      apply not_true_is_false. rewrite HP2. by eapply deleting_not_abandoned.
    + destruct Ha as [Ha|Ha]; [apply HP1 in Ha; congruence|].
      pose proof (rec_kept _ _ _ _ R1 u r Hr E1) as Hr1. apply HP2 in Ha.
      by destruct (rec_marked _ _ _ _ R2 u r Hr1 Ha) as [[? _]|?].
  - intros u r Hr Hc Hp. apply (rec_kept _ _ _ _ R2).
    + apply (rec_kept _ _ _ _ R1); [done|]. apply not_true_is_false. by rewrite HP1.
    + apply not_true_is_false. by rewrite HP2.
Qed.

Lemma wp_clear faults w (Q : option error -> world -> Prop) :
  (forall w', w_db w' = set_placements ∅ (w_db w) -> w_flint w' = w_flint w -> Q None w') ->
  (forall e w', faults = true -> Q (Some e) w') -> wp faults clearStalePlacements Q w.
Proof.
  intros Hok Herr. unfold clearStalePlacements. apply wp_bind.
  intros x w' [(now & now' & -> & ->)|(Hf & (what & ->) & ->)]; cbn [wp]; [by apply Hok|by apply Herr].
Qed.

Lemma ListPools_reads t t' db : (denote t t' OpListPools db).1 = db.
Proof. simpl. unfold Store.ListPools. store_simpl. done. Qed.

(** The errors of this part of startup. *)
Definition bring_up_error (e : fatal) : Prop :=
  match e with
  | ClearStalePlacements | RecoverClaims | RecoverProvisions | ListHostsFailed | SeedManager _ => True
  | _ => False
  end.

(** From the listed hosts on. *)
Lemma wp_connect_and_seed faults w (Q : option fatal -> world -> Prop) :
  db_wf (w_db w) -> w_flint w = empty_flint ->
  (forall w', same_core (w_db w) (w_db w') -> dialled (w_db w') (w_flint w') ->
     (forall specs p, (Store.ListPools (w_db w')).2 = Ok specs -> p ∈ specs -> Started p ∈ w_log w') ->
     Q None w') ->
  (forall e w', bring_up_error e -> (faults = false -> exists e', e = SeedManager e') -> Q (Some e) w') ->
  wp faults (let! hosts := store OpListHosts in
    match hosts with Err _ => Ret (Some ListHostsFailed) | Ok hosts =>
      then! buildFlintlockPool hosts in
      let! err := Seed in
      Ret (match err with Some e => Some (SeedManager e) | None => None end)
    end) Q w.
Proof.
  intros W Hf Hok Herr. apply wp_bind.
  intros x w1 [(now & now' & -> & ->)|(Hflt & (what & ->) & ->)].
  2: { cbn [wp]. apply Herr; [done|by rewrite Hflt]. }
  set (hs := rowToHost <$> sort_on String.le hr_name (rows (hosts (w_db w)))).
  change (denote now now' OpListHosts (w_db w)) with (w_db w, @Ok StoreError _ hs).
  cbn [fst snd]. apply wp_bind. eapply wp_mono; [|apply (wp_build faults hs (w_db w))].
  - intros [] w2 [Hdb [Hfl Hr]]. apply wp_bind. unfold Seed. apply wp_bind.
    assert (dialled (w_db w2) (w_flint w2)) as Hd2.
    { split; [done|]. intros n c Hn. rewrite (same_hosts _ _ Hdb). by eapply Hr. }
    intros y w3 [(now2 & now2' & -> & ->)|(Hflt & (what & ->) & ->)].
    2: { cbn [wp]. apply Herr; [done|by rewrite Hflt]. }
    rewrite ListPools_reads. change (denote now2 now2' OpListPools (w_db w2)) with (Store.ListPools (w_db w2)).
    destruct (Store.ListPools (w_db w2)).2 as [specs|e] eqn:El; [|cbn [wp]; apply Herr; [done|eauto]].
    apply wp_seed_pools; [|intros e w4; cbn [wp]; apply Herr; [done|eauto]].
    intros w4 Ed4 Ef4 Hs _. cbn [wp]. simpl in Ed4, Ef4. apply Hok; rewrite ?Ed4, ?Ef4; [done..|].
    intros specs' p. rewrite El. intros [= <-]. apply Hs.
  - intros h Hh. apply (listed_registered (w_db w) _ hs); [apply W|done|].
    by apply list_elem_of_fmap_2.
  - simpl. done.
  - simpl. rewrite Hf. split; [split|]; [intros n c Hn|intros c conn Hn|intros n c Hn]; simpl in Hn;
      by rewrite lookup_empty in Hn.
Qed.

Lemma wp_bring_up faults w :
  db_wf (w_db w) -> w_flint w = empty_flint ->
  wp faults bring_up (fun err w' =>
    (err = None -> ready_to_serve w w') /\
    (faults = false -> err = None \/ exists e, err = Some (SeedManager e)) /\
    (forall e, err = Some e -> bring_up_error e)) w.
Proof.
  intros W Hf. unfold bring_up. apply wp_bind, wp_clear;
    [|intros e w1 Hflt; cbn [wp]; split_and!; [done|by rewrite Hflt|by intros ? [= <-]]].
  intros w1 Ed1 Ef1. assert (db_wf (w_db w1)) as W1.
  { rewrite Ed1. by apply (op_keeps_wf 0 0 OpClearPlacements). }
  apply wp_bind. eapply wp_mono; [|apply wp_and; [apply (RecoverAbandonedClaims_exact faults w1 W1)
    |apply (wp_store_only faults RecoverAbandonedClaims w1 claims_store_only)]].
  intros [n1 [e1|]] w2 [(P1 & HP1 & R1 & Hok1) (W2 & Ef2 & _)]; cbn [snd] in *.
  { cbn [wp]. split_and!; [done| |by intros ? [= <-]]. intros Hflt. by specialize (Hok1 Hflt). }
  apply wp_bind.
  eapply wp_mono; [|apply wp_and; [apply (RecoverAbandonedProvisions_exact faults w2 (W2 W1))
    |apply (wp_store_only faults RecoverAbandonedProvisions w2), recover_store_only]].
  intros [n2 [e2|]] w3 [(P2 & HP2 & R2 & Hok2) (W3 & Ef3 & _)]; cbn [snd] in *.
  { cbn [wp]. split_and!; [done| |by intros ? [= <-]]. intros Hflt. by specialize (Hok2 Hflt). }
  apply wp_connect_and_seed; [auto|congruence| |].
  - intros w4 Hdb Hd Hs. split_and!; [intros _|auto|done].
    destruct (recoveries_compose _ _ _ _ _ HP1 R1 HP2 R2) as (Ha & Hm & Hk).
    destruct (rec_others _ _ _ _ R1) as [E1 E2 E3], (rec_others _ _ _ _ R2) as [E4 E5 E6],
      Hdb as [F1 F2 F3 F4 F5].
    pose proof (rec_placements _ _ _ _ R1) as E7. pose proof (rec_placements _ _ _ _ R2) as E8.
    rewrite Ed1 in *. cbn [set_placements pools leases hosts placements] in *.
    split; rewrite ?F2; try done; congruence.
  - intros e w4 Hb He. split_and!; [done| |by intros ? [= <-]]. intros Hflt. right. destruct (He Hflt) as [e' ->]. eauto.
Qed.

(** C27: Startup makes good what a crash left behind.  Whatever the hosts answer and
    whichever store calls fail, when [main] gets to serving: no placement
    reservation is left; the VMs a dead process had claimed without writing their
    lease, or was still provisioning, are marked for deletion, keeping their host
    and pool, and every other VM, lease, pool and host is untouched; the client
    pool holds open connections only, to registered hosts only; and a reconciler
    was started for every stored pool.  Without store failures only seeding can
    keep it from getting there. *)
Theorem startup_recovers faults w :
  db_wf (w_db w) -> w_flint w = empty_flint ->
  wp faults bring_up (fun err w' =>
    (err = None -> ready_to_serve w w') /\
    (faults = false -> err = None \/ exists e, err = Some (SeedManager e))) w.
Proof.
  intros W Hf. eapply wp_mono; [|by apply wp_bring_up]. by intros err w' (? & ? & _).
Qed.

Context `{ConfigJSON, Files}.

(** The daemon serves only what it could set up.  It gets to serving only with
    a known log level, a configuration that loads, a server built from that
    configuration's API settings and a recovered store; a bad flag or
    configuration stops it before it touches the store; and it never
    dereferences a missing API configuration. *)
Theorem start_spec logLevel path data opened listening w :
  db_wf (w_db w) -> w_flint w = empty_flint ->
  wp true (start logLevel path data opened listening) (fun r w' =>
    match r with
    | Ok (cfg, sweeper, srv) =>
        is_Some (parseLogLevel logLevel) /\ path <> "" /\ Load data = Ok cfg /\
        sweeper = sweeper_of cfg /\ listening = true /\
        (exists api, APIServer cfg = Some api /\ buildGRPCServer api = Ok srv) /\ ready_to_serve w w'
    | Err (BadLogLevel | ConfigRequired | LoadConfig _ | OpenStore) => w' = w
    | Err Panic => False
    | Err _ => True
    end) w.
Proof.
  intros W Hf. unfold start. destruct (parseLogLevel logLevel) as [lvl|]; [|done].
  case_decide as Hp; [done|]. destruct (Load data) as [cfg|e] eqn:El; [|done].
  destruct opened; [cbn [negb]|done]. apply wp_bind.
  eapply wp_mono; [|by apply wp_bring_up]. intros [e|] w1 (Hr & _ & He).
  - cbn [wp]. specialize (He e eq_refl). by destruct e.
  - destruct (Load_inv _ _ El) as (Hv & _). destruct (Validate_inv cfg Hv) as ((a & Ha & _) & _).
    cbv zeta. rewrite Ha. destruct (buildGRPCServer a) as [srv|e] eqn:En; [|done].
    destruct listening; [|done]. cbn [wp]. split_and!; eauto.
Qed.
End startup.

(** The exit status tells whether a goroutine failed.  The process exits with
    status 1 exactly when one of its goroutines returned an error other than the
    cancellation that ends them all, the error reported is the first such to
    arrive, and the rest are stopped once, no matter how many follow; a server
    that the context ended, forcibly or not, is no failure. *)
Theorem exit_status_spec results :
  (exit_status results = 1%Z <-> exists e, Some e ∈ results /\ is_canceled e = false) /\
  (forall e, (drain results None 0).1 = Some e -> (drain results None 0).2 = 1 /\
     exists before after, results = before ++ Some e :: after /\ is_canceled e = false /\
       forall e', Some e' ∈ before -> is_canceled e' = true) /\
  (forall stopped shutdown o, exit_status
     [(serveGRPC (ContextDone (RpcErr Canceled)) stopped).2;
      (serveMetrics o (RpcErr Canceled) shutdown).2] = 1%Z ->
     (exists e, o = Returned (Some (HttpErr e))) \/ exists e, shutdown = Some e).
Proof.
  split_and!.
  - unfold exit_status. destruct (drain_cases results) as [[-> Hn]|(e & b & a & -> & -> & He & _)]; simpl.
    + split; [done|]. intros (e & He & Hc). rewrite (Hn e He) in Hc. done.
    + split; [|done]. intros _. exists e. split; [set_solver|done].
  - intros e. destruct (drain_cases results) as [[-> _]|(e0 & b & a & -> & -> & He & Hb)]; simpl; [done|].
    intros [= ->]. split; [done|]. by exists b, a.
  - intros stopped shutdown o. unfold serveGRPC, serveMetrics.
    destruct o as [[[|e]|]|]; [| |..|destruct shutdown]; case_decide; simpl; eauto; done.
Qed.

(** ** Witnesses *)

(** The sample crash, before any connection. *)
Definition crashed0 : world :=
  {| w_db := crashed_db; w_locks := no_locks; w_flint := empty_flint; w_tick := 0; w_log := [] |}.

Lemma startup_recovers_witness :
  let out := run bring_up crashed0 in
  out.2 = None /\ vr_phase <$> vms (w_db out.1) !! "vm-5" = Some (phase_code DELETING) /\
  ready_to_serve crashed0 out.1.
Proof.
  cbv zeta. split; [vm_compute; reflexivity|]. split; [vm_compute; reflexivity|].
  enough (((run bring_up crashed0).2 = None -> ready_to_serve crashed0 (run bring_up crashed0).1))
    as Hr by (apply Hr; vm_compute; reflexivity).
  apply (wp_run bring_up (fun err w' => err = None -> ready_to_serve crashed0 w') crashed0).
  eapply wp_mono; [|apply (startup_recovers true crashed0); [apply crashed_wf|reflexivity]].
  intros err w' [Hr _]. exact Hr.
Defined.

Lemma start_spec_witness :
  match (run (start "info" "poolmgr.json" (Some "{}") true true) crashed0).2 with
  | Ok (cfg, _, srv) => cfg = default_metrics config0 /\ mg_server srv = server0
  | Err _ => False
  end /\
  match (run (start "loud" "poolmgr.json" (Some "{}") true true) crashed0) with
  | (w', Err BadLogLevel) => w' = crashed0
  | _ => False
  end.
Proof.
  split; [vm_compute; done|].
  pose proof (wp_run _ _ _ (start_spec "loud" "poolmgr.json" (Some "{}") true true crashed0
    crashed_wf eq_refl)) as Hs.
  vm_compute in Hs |- *. done.
Defined.
