(* ===== verification/Seeding.v ===== *)
(** * Seeding cannot fail

    At startup the manager starts a reconciler for every stored pool and gives up
    at the first that it cannot start.  With the pools [PoolTypes] finds in the
    store there is none: every row decodes, every strategy can be built, and no
    two pools have one key. *)

From stdpp Require Import base gmap strings list.
From Stdlib Require Import ZArith Lia.
From S2P Require Import Prelude Types Convert Store StoreOps Concrete StoreProps Effects.
From S2P Require Import ConcreteEnv Flintlock Deletion Strategy Provision Reconciler PoolAdmin.
From S2P Require Import Manager PoolTypes HostRefs.

(** Specs the manager can start, one after the other. *)
Definition startable (m : Manager) (specs : list PoolSpec) : Prop :=
  stopped m = false /\ NoDup (key_of <$> specs) /\
  (forall p, p ∈ specs -> handles m !! key_of p = None) /\
  (forall p, p ∈ specs -> is_Ok (NewStrategy (replenishment_strategy p)) = true).

Lemma seed_all specs m :
  startable m specs ->
  exists m', seed specs m = (m', None) /\
    forall k, is_Some (handles m' !! k) <-> is_Some (handles m !! k) \/ k ∈ key_of <$> specs.
Proof.
  revert m. induction specs as [|p specs IH]; intros m (Hs & Hnd & Hfree & Hst); cbn [seed].
  { exists m. split; [done|]. set_solver. }
  unfold StartReconciler at 1, newReconciler at 1, Reconciler_New. rewrite (Hfree p) by set_solver. rewrite Hs.
  specialize (Hst p) as Hp. destruct (NewStrategy (replenishment_strategy p)); [|set_solver]. cbn beta iota.
  apply NoDup_cons in Hnd as [Hni Hnd]. set (m1 := Build_Manager _ _ _ _).
  destruct (IH m1) as (m' & -> & Hk).
  { split_and!; [done|done| |set_solver]. intros q Hq. simpl. rewrite lookup_insert_ne.
    - apply Hfree. set_solver.
    - intros E. apply Hni. rewrite E. by apply list_elem_of_fmap_2. }
  exists m'. split; [done|]. intros k. rewrite Hk. simpl. rewrite elem_of_cons, lookup_insert.
  case_decide as E; [subst; split; [by auto|by eauto]|]. naive_solver.
Qed.

Section seeding.
Context `{C : Codec} `{!CodecLaws C} `{Sqlite}.

(** The rows of the pool table decode, in any order. *)
Lemma decode_all (rs : list poolRow) :
  (forall r, r ∈ rs -> exists k, pool_row_typed k r) ->
  exists specs, mapM rowToPool rs = Ok specs /\ Forall2 (fun r p => rowToPool r = Ok p) rs specs.
Proof.
  induction rs as [|r rs IH]; intros Hr; [by exists []|].
  destruct (Hr r) as (k & p & Ep & _); [set_solver|].
  destruct IH as (specs & Es & Hf); [set_solver|]. exists (p :: specs). simpl. rewrite Ep. simpl.
  rewrite Es. split; [done|by constructor].
Qed.

Definition row_key (r : poolRow) : poolKey := (pr_name r, pr_namespace r).

Lemma decoded_key r p : rowToPool r = Ok p -> key_of p = row_key r.
Proof.
  unfold rowToPool. intros E. unfold key_of, row_key. repeat case_match; simplify_eq/=; try done.
  all: repeat match goal with H : context [mbind] |- _ => unfold mbind, result_bind in H end;
    repeat case_match; by simplify_eq/=.
Qed.

Lemma typed_row_key db k r : pools_typed db -> pools db !! k = Some r -> row_key r = k.
Proof.
  intros Ht Hr. destruct (Ht k r Hr) as (p & Ep & <- & _). by rewrite <- (decoded_key r p Ep).
Qed.

(** The stored pools as the manager gets them. *)
Lemma listed_pools db :
  pools_typed db ->
  exists specs, (Store.ListPools db).2 = Ok specs /\ startable New specs /\
    forall p, p ∈ specs <-> exists r, pools db !! key_of p = Some r /\ rowToPool r = Ok p.
Proof.
  intros Ht. unfold Store.ListPools. store_simpl. set (rs := sort_on pair_le _ _).
  assert (forall r, r ∈ rs <-> exists k, pools db !! k = Some r) as Hrows.
  { intros r. unfold rs. by rewrite elem_of_sort_on, elem_of_rows. }
  destruct (decode_all rs) as (specs & Es & Hf).
  { intros r Hr. apply Hrows in Hr as (k & Hk). exists k. by apply Ht. }
  rewrite Es. simpl.
  assert (key_of <$> specs = row_key <$> rs) as Ekeys.
  { clear Es Hrows. induction Hf as [|r p rs' ps E _ IH]; [done|]. rewrite !fmap_cons, IH.
    by rewrite (decoded_key r p E). }
  assert (NoDup (row_key <$> rs)) as Hnd.
  { unfold rs. rewrite sort_on_perm. apply NoDup_rows_key. intros k r. by apply typed_row_key. }
  assert (forall p, p ∈ specs <-> exists r, pools db !! key_of p = Some r /\ rowToPool r = Ok p) as Hin.
  { intros p. split.
    - intros [i Hi]%list_elem_of_lookup_1. destruct (Forall2_lookup_r _ _ _ _ _ Hf Hi) as (r & Hr & Ep).
      exists r. split; [|done]. apply list_elem_of_lookup_2, Hrows in Hr as (k & Hk).
      by rewrite (decoded_key r p Ep), (typed_row_key db k r).
    - intros (r & Hr & Ep). assert (r ∈ rs) as [i Hi]%list_elem_of_lookup_1 by (apply Hrows; eauto).
      destruct (Forall2_lookup_l _ _ _ _ _ Hf Hi) as (p' & Hp' & Ep'). assert (p' = p) as -> by congruence.
      by eapply list_elem_of_lookup_2. }
  exists specs. split; [done|]. split; [|done]. split_and!; [done|by rewrite Ekeys|done|].
  intros p (r & Hr & Ep)%Hin. destruct (Ht _ r Hr) as (p' & Ep' & _ & Hv).
  assert (p' = p) as -> by congruence. by apply valid_spec_iff in Hv as (_ & _ & ? & _).
Qed.

(** The manager always comes up.  From a store whose pools are well typed, as
    every store the process writes is, seeding succeeds, and starts a
    reconciler for every stored pool and for nothing else. *)
Theorem seeding_succeeds db :
  pools_typed db ->
  exists m, Seed (Store.ListPools db).2 New = (m, None) /\
    forall k, is_Some (handles m !! k) <-> is_Some (pools db !! k).
Proof.
  intros Ht. destruct (listed_pools db Ht) as (specs & -> & Hst & Hin). simpl.
  destruct (seed_all specs New Hst) as (m & Em & Hk). exists m. split; [done|].
  intros k. rewrite Hk, list_elem_of_fmap. simpl. rewrite lookup_empty. split.
  - intros [[]%is_Some_None|(p & -> & (r & Hr & _)%Hin)]. by exists r.
  - intros [r Hr]. right. destruct (Ht k r Hr) as (p & Ep & <- & _). exists p. split; [done|]. apply Hin. eauto.
Qed.
End seeding.

Lemma seeding_succeeds_witness :
  exists m, Seed (Store.ListPools (w_db (s_world created0))).2 New = (m, None) /\
    is_Some (handles m !! ("api", "default")).
Proof.
  destruct (seeding_succeeds (w_db (s_world created0))) as (m & Em & Hk).
  - intros k r Hr. apply elem_of_map_to_list in Hr. vm_compute in Hr.
    apply list_elem_of_singleton in Hr. injection Hr as -> ->.
    eexists. split; [vm_compute; reflexivity|]. split; vm_compute; reflexivity.
  - exists m. split; [exact Em|]. apply Hk. eexists. vm_compute. reflexivity.
Defined.
