(* ===== verification/Supervision.v ===== *)
(** * Reconcilers and stored pools

    PoolAdmin writes a pool to the store and starts, stops or replaces its
    reconciler in two calls, to two components.  The comment at [lockPool] says why
    it locks the pool meanwhile: else the store could hold one spec while the
    live reconciler runs another, for good.  Here the handlers' goroutines and
    the manager of [Manager] run together: the lifecycle effects of the
    handlers are answered by the manager, whose own goroutines exit and shut
    down in between.  [reconcilers_match_pools]: whenever a pool's lock is free,
    the pool is stored exactly if a reconciler is tracked for it, and that one
    runs the stored spec. *)

From stdpp Require Import base gmap strings list relations.
From Stdlib Require Import ZArith Lia.
From S2P Require Import Manager PoolProps.
From S2P Require Import Prelude Types Convert Store StoreOps Concrete StoreProps Effects.
From S2P Require Import ConcreteEnv Flintlock Deletion Strategy Provision Reconciler Sweeper.
From S2P Require Import LeaseApi PoolAdmin HostAdmin EventsApi Protocols HostRefs PoolTypes Seeding.

(** ** The manager as the handlers see it *)

(** The spec of the reconciler that is tracked for a pool. *)
Definition tracked (m : Manager.Manager) (k : poolKey) : option PoolSpec :=
  h ← Manager.handles m !! k; Manager.g_spec <$> Manager.goroutines m !! h.

(** What the manager does by itself, and its notifications. *)
Definition internal (a : Manager.action) : bool :=
  match a with Manager.AStart _ | Manager.AForget _ => false | _ => true end.

Section manager.
Implicit Types m : Manager.Manager.

Lemma tracked_None m k : Manager.inv m -> tracked m k = None <-> Manager.handles m !! k = None.
Proof.
  intros I. unfold tracked. destruct (Manager.handles m !! k) as [h|] eqn:Hk; [|done]. simpl.
  destruct (Manager.inv_handles _ I k h Hk) as (g & -> & _). done.
Qed.

Lemma tracked_alter m f h k :
  (forall g, Manager.g_spec (f g) = Manager.g_spec g) -> tracked (Manager.alter_goroutine f h m) k = tracked m k.
Proof.
  intros Hf. unfold tracked. simpl. destruct (Manager.handles m !! k) as [h'|]; [|done]. simpl.
  rewrite lookup_alter. case_decide; subst; [|done]. destruct (Manager.goroutines m !! _) as [g|]; [|done].
  simpl. by rewrite Hf.
Qed.

(** Only a shutdown loses sight of a reconciler. *)
Lemma tracked_internal a m :
  internal a = true ->
  (Manager.stopped (Manager.act a m) = Manager.stopped m /\ forall k, tracked (Manager.act a m) k = tracked m k) \/
  (Manager.stopped (Manager.act a m) = true /\ forall k, tracked (Manager.act a m) k = None).
Proof.
  intros Ha. destruct a as [spec|key|h|h|h|key|key|]; try done; simpl.
  - left. split; [done|]. intros k. by apply tracked_alter.
  - left. unfold Manager.close_done. destruct (Manager.in_run h m); [|done].
    split; [done|]. intros k. by apply tracked_alter.
  - left. unfold Manager.exited. destruct (Manager.goroutines m !! h) as [g|] eqn:Hg; [|done].
    case_decide; [|done]. split; [done|]. intros k. unfold tracked. simpl.
    destruct (Manager.handles m !! k) as [h'|]; [|done]. simpl. rewrite lookup_insert.
    case_decide; subst; [|done]. by rewrite Hg.
  - left. unfold Manager.NotifyVMClaimed, Manager.notify_runner.
    destruct (Manager.handles m !! key); [|done]. split; [done|]. intros k. by apply tracked_alter.
  - left. unfold Manager.NotifyVMDeleted, Manager.notify_runner.
    destruct (Manager.handles m !! key); [|done]. split; [done|]. intros k. by apply tracked_alter.
  - by right.
Qed.

Lemma tracked_start spec m :
  Manager.inv m -> is_Ok (NewStrategy (replenishment_strategy spec)) = true ->
  let m' := (Manager.StartReconciler spec m).1 in
  Manager.stopped m' = Manager.stopped m /\
  (forall k, k <> key_of spec -> tracked m' k = tracked m k) /\
  (Manager.stopped m = false -> tracked m (key_of spec) = None -> tracked m' (key_of spec) = Some spec).
Proof.
  intros I Hs. unfold Manager.StartReconciler, Manager.newReconciler, Reconciler_New. rewrite tracked_None by done.
  destruct (Manager.handles m !! key_of spec) as [h0|] eqn:Hk; [by split_and!|].
  destruct (Manager.stopped m) eqn:Es; [by split_and!|]. destruct (NewStrategy _); [|done]. simpl. split_and!; [done|..].
  - intros k Hne. unfold tracked. simpl. rewrite lookup_insert_ne by done.
    destruct (Manager.handles m !! k) as [h|] eqn:Hh; [|done]. simpl.
    destruct (Manager.inv_handles _ I k h Hh) as (g & Hg & _).
    rewrite lookup_insert_ne; [done|]. intros E. by apply (Manager.fresh_goroutine _ _ _ Hg).
  - intros _ _. unfold tracked. simpl. rewrite lookup_insert_eq. simpl. by rewrite lookup_insert_eq.
Qed.

Lemma tracked_seed specs m :
  Manager.inv m -> startable m specs ->
  let m' := (Manager.seed specs m).1 in
  Manager.inv m' /\ (forall k, k ∉ key_of <$> specs -> tracked m' k = tracked m k) /\
  (forall p, p ∈ specs -> tracked m' (key_of p) = Some p).
Proof.
  revert m. induction specs as [|p specs IH]; intros m I (Hs & Hnd & Hfree & Hst); cbn [Manager.seed].
  { split_and!; [done|done|]. by intros p ?%not_elem_of_nil. }
  apply NoDup_cons in Hnd as [Hni Hnd].
  assert (Hp : is_Ok (NewStrategy (replenishment_strategy p)) = true) by (apply Hst; left).
  assert (Hf : Manager.handles m !! key_of p = None) by (apply Hfree; left).
  destruct (tracked_start p m I Hp) as (Es & Eo & En). pose proof (Manager.inv_start p m I) as I'.
  assert (startable (Manager.StartReconciler p m).1 specs) as Hst'.
  { split_and!; [congruence|done| |intros q Hq; apply Hst; by right]. intros q Hq. apply tracked_None; [done|].
    rewrite Eo; [apply tracked_None; [done|apply Hfree; by right]|].
    intros E. apply Hni. rewrite <- E. by apply list_elem_of_fmap_2. }
  assert (exists m1, Manager.StartReconciler p m = (m1, None)) as [m1 E].
  { unfold Manager.StartReconciler, Manager.newReconciler, Reconciler_New. rewrite Hf, Hs. destruct (NewStrategy _); [eauto|done]. }
  rewrite E in *. simpl in *. destruct (IH m1 I' Hst') as (Im & Ho & Hin). split; [done|]. split.
  - intros k [Hne Hk]%not_elem_of_cons. by rewrite Ho, Eo.
  - intros q [->|Hq]%elem_of_cons; [|by apply Hin]. rewrite Ho by done. apply En; [done|]. by apply tracked_None.
Qed.

Lemma tracked_stop k m :
  Manager.stopped (Manager.StopReconciler k m) = Manager.stopped m /\
  tracked (Manager.StopReconciler k m) k = None /\
  forall k', k' <> k -> tracked (Manager.StopReconciler k m) k' = tracked m k'.
Proof.
  unfold Manager.StopReconciler, Manager.cancelAndForget. destruct (Manager.handles m !! k) as [h|] eqn:Hk; simpl.
  - split_and!; [done|..].
    + unfold Manager.cancel. rewrite tracked_alter by done. unfold tracked. simpl. by rewrite lookup_delete_eq.
    + intros k' Hne. unfold Manager.cancel. rewrite tracked_alter by done. unfold tracked. simpl.
      by rewrite lookup_delete_ne.
  - split_and!; [done| |done]. unfold tracked. by rewrite Hk.
Qed.

Lemma inv_stop k m : Manager.inv m -> Manager.inv (Manager.StopReconciler k m).
Proof.
  intros I. unfold Manager.StopReconciler. pose proof (Manager.inv_forget k m I) as I'.
  destruct (Manager.cancelAndForget k m) as [m1 [h|]]; simpl in *; [by apply Manager.inv_alter|done].
Qed.
End manager.

(** ** The process and the manager together *)

(** [v_waiting]: the goroutines inside StopReconcilerAndWait, with the handles
    each waits for. *)
Record supervised := {
  v_sys : sys;
  v_mgr : Manager.Manager;
  v_waiting : gmap nat (list Manager.handle)
}.

(** How the manager answers goroutine [i].  StopReconcilerAndWait has stopped the
    reconciler before; it returns nil once all it waits for have left their run,
    or the error of its context. *)
Definition answers (i : nat) (m : Manager.Manager) (wt : gmap nat (list Manager.handle))
    {X : Set} (e : eff X) : X -> Manager.Manager -> gmap nat (list Manager.handle) -> Prop :=
  match e in eff Y return Y -> Manager.Manager -> gmap nat (list Manager.handle) -> Prop with
  | EStart spec => fun x m' wt' =>
      m' = (Manager.StartReconciler spec m).1 /\ x = (Manager.StartReconciler spec m).2 /\ wt' = wt
  | EStop n ns => fun _ m' wt' => m' = Manager.StopReconciler (n, ns) m /\ wt' = wt
  | EStopWait n ns => fun x m' wt' => exists hs, wt !! i = Some hs /\
      (x = None -> forall h, h ∈ hs -> Manager.in_run h m = false) /\ m' = m /\ wt' = delete i wt
  | _ => fun _ m' wt' => m' = m /\ wt' = wt
  end.

Section steps.
Context `{Codec, Sqlite, Semver}.

Inductive sup_step (c : supervised) : supervised -> Prop :=
  | Sup_do i (X : Set) (e : eff X) k x w' m' wt' :
      s_threads (v_sys c) !! i = Some (Do e k) -> enabled e (s_world (v_sys c)) ->
      exec_eff true e (s_world (v_sys c)) x w' ->
      (forall u, uid_handed_out e x = Some u -> u ∉ s_used (v_sys c)) ->
      answers i (v_mgr c) (v_waiting c) e x m' wt' ->
      sup_step c {| v_sys := {| s_world := w'; s_used := use (uid_handed_out e x) (s_used (v_sys c));
                                s_threads := <[i := k x]> (s_threads (v_sys c)) |};
                    v_mgr := m'; v_waiting := wt' |}
  (** StopReconcilerAndWait up to its wait *)
  | Sup_stop i n ns k :
      s_threads (v_sys c) !! i = Some (Do (EStopWait n ns) k) -> v_waiting c !! i = None ->
      let m' := Manager.StopReconciler (n, ns) (v_mgr c) in
      sup_step c {| v_sys := v_sys c; v_mgr := m';
                    v_waiting := <[i := Manager.exiting_of (n, ns) m']> (v_waiting c) |}
  | Sup_fork i ch k :
      s_threads (v_sys c) !! i = Some (Fork ch k) ->
      sup_step c {| v_sys := {| s_world := s_world (v_sys c); s_used := s_used (v_sys c);
                                s_threads := <[i := k]> (s_threads (v_sys c)) ++ [ch] |};
                    v_mgr := v_mgr c; v_waiting := v_waiting c |}
  | Sup_spawn p :
      entry p ->
      sup_step c {| v_sys := spawn [p] (v_sys c); v_mgr := v_mgr c; v_waiting := v_waiting c |}
  | Sup_manager a :
      internal a = true ->
      sup_step c {| v_sys := v_sys c; v_mgr := Manager.act a (v_mgr c); v_waiting := v_waiting c |}.

(** The handlers' side is a run of the process. *)
Lemma sup_sys c c' : sup_step c c' -> v_sys c' = v_sys c \/ sys_step entry (v_sys c) (v_sys c').
Proof.
  destruct 1 as [i X e k x w' m' wt' Hi Hen He Hu Ha|i n ns k Hi Hw|i ch k Hi|p Hp|a Ha]; simpl; [| |..|].
  - right. by econstructor.
  - by left.
  - right. by constructor.
  - right. by constructor.
  - by left.
Qed.
End steps.

(** ** The discipline of PoolAdmin *)

Inductive sv_state :=
  (** holds no pool's lock *)
  | Away
  (** holds the lock; store and manager agree *)
  | Synced (k : poolKey)
  (** ... and the store holds this spec *)
  | Known (k : poolKey) (p : PoolSpec)
  (** holds the lock; wrote this spec, the old reconciler may still run *)
  | Written (k : poolKey) (p : PoolSpec)
  (** holds the lock; the store holds this spec and no reconciler runs *)
  | Unstarted (k : poolKey) (p : PoolSpec).

Definition in_lock (k : poolKey) (s : sv_state) : Prop := s = Synced k \/ exists p, s = Known k p.

Definition sv_allowed (s : sv_state) (X : Set) (e : eff X) : Prop :=
  match e with
  | EAcquire (PoolLock _ _) => s = Away
  | ERelease (PoolLock n ns) => in_lock (n, ns) s
  | EStore (OpCreatePool p) | EStore (OpUpdatePool p) =>
      in_lock (key_of p) s /\ pool_strings_ok p /\ valid_spec p
  | EStore (OpDeletePool _ _) => False
  | EStore (OpDeletePoolAndMarkVMs n ns _) => exists p, s = Unstarted (n, ns) p
  | EStart p => exists k, s = Unstarted k p
  | EStop n ns => exists p, s = Written (n, ns) p
  | EStopWait n ns => exists p, s = Known (n, ns) p
  | _ => True
  end.

Definition sv_next (s : sv_state) (X : Set) (e : eff X) : X -> sv_state :=
  match e in eff Y return Y -> sv_state with
  | EAcquire (PoolLock n ns) => fun _ => Synced (n, ns)
  | ERelease (PoolLock n ns) => fun _ => Away
  | EStore o =>
      match o in storeOp A return result StoreError A -> sv_state with
      | OpGetPool n ns => fun r =>
          match s, r with
          | Synced k, Ok p | Known k _, Ok p => if decide (k = (n, ns)) then Known k p else s
          | _, _ => s
          end
      | OpCreatePool p => fun r => match r with Ok _ => Unstarted (key_of p) p | Err _ => s end
      | OpUpdatePool p => fun r => match r with Ok _ => Written (key_of p) p | Err _ => s end
      | OpDeletePoolAndMarkVMs n ns _ => fun r =>
          match r with Ok _ | Err ErrNotFound => Synced (n, ns) | Err _ => s end
      | _ => fun _ => s
      end
  | EStart _ => fun _ => match s with Unstarted k _ => Synced k | _ => s end
  | EStop _ _ => fun _ => match s with Written k p => Unstarted k p | _ => s end
  | EStopWait _ _ => fun _ => match s with Known k p => Unstarted k p | _ => s end
  | _ => fun _ => s
  end.

Definition supervision : protocol :=
  {| St := sv_state; idle := Away; allowed := sv_allowed; next := sv_next; final := fun _ => True |}.

(** *** Every entry point keeps to it *)

Definition away_ok (X : Set) (e : eff X) : bool :=
  match e with
  | EAcquire (PoolLock _ _) | ERelease (PoolLock _ _) | EStart _ | EStop _ _ | EStopWait _ _ => false
  | EStore (OpCreatePool _) | EStore (OpUpdatePool _) | EStore (OpDeletePool _ _)
  | EStore (OpDeletePoolAndMarkVMs _ _ _) => false
  | _ => true
  end.

Lemma away_keeps {A : Set} (p : prog A) :
  every away_ok p -> respects supervision p Away (fun _ s => s = Away).
Proof.
  induction p as [A x|A X e k IH|A c IHc k IHk]; simpl; [done| |].
  - intros [He Hk]. split; [destruct e; try done; [by destruct o|by destruct m..]|]. intros x.
    assert (sv_next Away X e x = Away) as -> by (destruct e; try done; [by destruct o|by destruct m..]).
    by apply IH.
  - intros [Hc Hk]. split; [|by apply IHk]. eapply respects_mono; [|by apply IHc]. done.
Qed.

Lemma away_tame {A : Set} (p : prog A) : tame p -> every away_ok p.
Proof. apply every_mono. intros X e. destruct e; try done; by destruct o. Qed.

Ltac sv_allow := cbn [allowed supervision sv_allowed]; solve [done | unfold in_lock; eauto 6].
Ltac sv_tac := repeat (proto_step sv_allow; cbn [next supervision sv_next] in *; rewrite ?decide_True by reflexivity).

(** Under a lock, nothing but the calls above matters. *)
Lemma sv_check p : keeps supervision (checkFlintlockHosts p).
Proof. intros s. unfold checkFlintlockHosts. sv_tac; done. Qed.
Lemma sv_status p : keeps supervision (with_status p).
Proof. intros s. unfold with_status, CountVMs. sv_tac; done. Qed.
Lemma sv_emit p u t : keeps supervision (EmitEvent p u t).
Proof. intros s. unfold EmitEvent. sv_tac; done. Qed.
#[local] Hint Resolve sv_check sv_status sv_emit : proto.
Lemma sv_deletePoolVMs fl p vms : keeps supervision (deletePoolVMs fl p vms).
Proof.
  unfold deletePoolVMs, delete_pool_vm. apply keeps_bind.
  - apply keeps_for_each. intros v. apply sv_emit.
  - intros _. destruct fl; [|done]. apply keeps_for_each. intros v. apply keeps_go.
    eapply respects_mono; [|apply away_keeps, away_tame; tame_tac]. done.
Qed.
#[local] Hint Resolve sv_deletePoolVMs : proto.

Section bodies.
Context (k : poolKey).

Lemma sv_CreatePool_body p :
  key_of p = k -> pool_strings_ok p -> valid_spec p ->
  respects supervision (CreatePool_body p) (Synced k) (fun _ => in_lock k).
Proof. intros <- Hs Hv. unfold CreatePool_body. sv_tac; unfold in_lock; by eauto. Qed.

Lemma sv_UpdatePool_body p :
  key_of p = k -> pool_strings_ok p -> valid_spec p ->
  respects supervision (UpdatePool_body p) (Synced k) (fun _ => in_lock k).
Proof. intros <- Hs Hv. unfold UpdatePool_body. sv_tac; unfold in_lock; by eauto. Qed.

Lemma sv_DeletePool_body fl n ns force :
  (n, ns) = k -> respects supervision (DeletePool_body fl n ns force) (Synced k) (fun _ => in_lock k).
Proof.
  intros <-. unfold DeletePool_body, delete_found, restartReconciler. sv_tac; unfold in_lock; by eauto.
Qed.
End bodies.

Lemma sv_locked {A : Set} n ns (body : prog A) :
  respects supervision body (Synced (n, ns)) (fun _ => in_lock (n, ns)) ->
  respects supervision (locked (PoolLock n ns) body) Away (fun _ s => s = Away).
Proof.
  intros Hb. unfold locked. apply respects_bind. split; [done|]. intros x. cbn [respects next supervision sv_next].
  apply respects_bind. eapply respects_mono; [|exact Hb]. intros y s Hs. apply respects_bind. by split.
Qed.

Lemma sv_refs {A : Set} k (body : prog A) :
  respects supervision body (Synced k) (fun _ => in_lock k) ->
  respects supervision (locked HostRefsRead body) (Synced k) (fun _ => in_lock k).
Proof.
  intros Hb. unfold locked. apply respects_bind. split; [done|]. intros x. cbn [respects next supervision sv_next].
  apply respects_bind. eapply respects_mono; [|exact Hb]. intros y s Hs. apply respects_bind. by split.
Qed.

Section entries.
Context `{Semver}.

Lemma sv_entry p : entry p -> obeys supervision Away p.
Proof.
  intros Hp.
  assert (every away_ok p \/ respects supervision p Away (fun _ s => s = Away)) as [Ho|Ho];
    [|eapply respects_mono; [|by apply away_keeps]; done|eapply respects_mono; [|exact Ho]; done].
  destruct Hp; try (left; by unfold ignore, HostAdmin.DrainHost, AddHost, AddHost_body, add_dialled,
    HostAdmin.UpdateHost, UpdateHost_body, RemoveHost, RemoveHost_body, RecoverAbandonedClaims,
    RecoverAbandonedProvisions, locked; cbv zeta; every_tac @away_tame); right; apply respects_bind.
  - unfold PoolAdmin.CreatePool. destruct (validatePoolSpec spec) as [p|] eqn:E; [|done].
    eapply respects_mono; [|apply sv_locked, sv_refs, sv_CreatePool_body;
      [done|by eapply validate_strings|by eapply validated_valid]]. by intros x s ->.
  - unfold PoolAdmin.UpdatePool. destruct (validatePoolSpec spec) as [p|] eqn:E; [|done].
    eapply respects_mono; [|apply sv_locked, sv_refs, sv_UpdatePool_body;
      [done|by eapply validate_strings|by eapply validated_valid]]. by intros x s ->.
  - eapply respects_mono; [|by apply sv_locked, sv_DeletePool_body]. by intros x s ->.
Qed.
End entries.

(** ** The invariant *)

(** The reconciler's spec is the stored one, or reads back as it. *)
Definition runs `{Codec} (p : PoolSpec) (r : poolRow) : Prop :=
  rowToPool r = Ok p \/ rowToPool r = Ok (stored_pool p).

(** Stored exactly if tracked, and with that spec; after a shutdown none is. *)
Definition agree `{Codec} (stopped : bool) (row : option poolRow) (spec : option PoolSpec) : Prop :=
  stopped = false ->
  match row, spec with Some r, Some p => runs p r | None, None => True | _, _ => False end.

Definition stored_as `{Codec} (k : poolKey) (p : PoolSpec) (row : option poolRow) : Prop :=
  key_of p = k /\ is_Ok (NewStrategy (replenishment_strategy p)) = true /\ exists r, row = Some r /\ runs p r.

Definition held (s : sv_state) : option poolKey :=
  match s with Away => None | Synced k | Known k _ | Written k _ | Unstarted k _ => Some k end.

(** What the holder of a lock knows of its pool. *)
Definition state_ok `{Codec} (row : option poolRow) (spec : option PoolSpec) (stopped waiting : bool)
    (s : sv_state) : Prop :=
  match s with
  | Away => True
  | Synced _ => agree stopped row spec
  | Known k p => stored_as k p row /\ (exists r, row = Some r /\ rowToPool r = Ok p) /\
      (if waiting then spec = None else agree stopped row spec)
  | Written k p => stored_as k p row
  | Unstarted k p => stored_as k p row /\ (stopped = false -> spec = None)
  end.

(** Is the program about to call StopReconcilerAndWait? *)
Definition at_wait {A : Set} (p : prog A) : option poolKey :=
  match p with
  | Do e _ => match e with EStopWait n ns => Some (n, ns) | _ => None end
  | _ => None
  end.

Section interleavings.
Context `{C : Codec} `{!CodecLaws C} `{Sqlite, Semver}.

Definition state_at (w : world) (m : Manager.Manager) (waiting : bool) (k : poolKey) (s : sv_state) : Prop :=
  state_ok (pools (w_db w) !! k) (tracked m k) (Manager.stopped m) waiting s.

Record sv_ok (w : world) (m : Manager.Manager) (wt : gmap nat (list Manager.handle))
    (th : list (prog unit)) (ss : list sv_state) : Prop := {
  so_typed : pools_typed (w_db w);
  so_inv : Manager.inv m;
  so_held i s k : ss !! i = Some s -> held s = Some k -> k ∈ lk_pools (w_locks w);
  so_one i j s s' k : ss !! i = Some s -> ss !! j = Some s' -> held s = Some k -> held s' = Some k -> i = j;
  so_free k : k ∉ lk_pools (w_locks w) -> agree (Manager.stopped m) (pools (w_db w) !! k) (tracked m k);
  so_state i s k : ss !! i = Some s -> held s = Some k ->
    state_at w m (bool_decide (is_Some (wt !! i))) k s;
  so_wait i hs : wt !! i = Some hs -> exists p k q,
    th !! i = Some p /\ at_wait p = Some k /\ ss !! i = Some (Known k q)
}.

(** A step of the goroutine [i] that concerns at most the pool it has locked. *)
Section one_key.
Context (w w' : world) (m m' : Manager.Manager) (wt wt' : gmap nat (list Manager.handle)).
Context (th th' : list (prog unit)) (ss : list sv_state) (i : nat) (s s' : sv_state).
Context (O : sv_ok w m wt th ss) (Hi : ss !! i = Some s).
Context (Htyped : pools_typed (w_db w')) (Hinv : Manager.inv m') (Hstop : Manager.stopped m' = Manager.stopped m).
Context (Hother : forall k, held s <> Some k -> held s' <> Some k ->
  pools (w_db w') !! k = pools (w_db w) !! k /\ tracked m' k = tracked m k /\
  (k ∈ lk_pools (w_locks w') <-> k ∈ lk_pools (w_locks w))).
Context (Hmine : forall k, held s' = Some k -> k ∈ lk_pools (w_locks w') /\
  (held s = Some k \/ k ∉ lk_pools (w_locks w)) /\ state_at w' m' (bool_decide (is_Some (wt' !! i))) k s').
Context (Hgave : forall k, held s = Some k -> held s' <> Some k ->
  k ∉ lk_pools (w_locks w') /\ agree (Manager.stopped m') (pools (w_db w') !! k) (tracked m' k)).
Context (Hrest : forall j, j <> i -> wt' !! j = wt !! j /\ th' !! j = th !! j).
Context (Hwait : forall hs, wt' !! i = Some hs -> exists p k q,
  th' !! i = Some p /\ at_wait p = Some k /\ s' = Known k q).

(** No other goroutine holds the lock that [i] has, had or gets. *)
Lemma others_keys j sj k : j <> i -> ss !! j = Some sj -> held sj = Some k -> held s <> Some k /\ held s' <> Some k.
Proof.
  intros Hne Hj Hk. assert (Hs : held s <> Some k) by (intros E; by apply Hne, (so_one _ _ _ _ _ O j i sj s k)).
  split; [done|]. intros E. destruct (Hmine k E) as (_ & [?|Hf] & _); [done|]. by apply Hf, (so_held _ _ _ _ _ O j sj).
Qed.

Lemma sv_ok_step : sv_ok w' m' wt' th' (<[i := s']> ss).
Proof.
  split; [done|done|..].
  - intros j sj k [(<- & <- & _)|[Hne Hj]]%list_lookup_insert_Some Hk; [by apply Hmine|].
    destruct (others_keys j sj k ltac:(done) Hj Hk) as [H1 H2]. apply (Hother k H1 H2). by eapply (so_held _ _ _ _ _ O).
  - intros j j' sj sj' k [(<- & <- & _)|[Hne Hj]]%list_lookup_insert_Some
      [(<- & <- & _)|[Hne' Hj']]%list_lookup_insert_Some Hk Hk'; try done.
    + by destruct (others_keys j' sj' k ltac:(done) Hj' Hk').
    + by destruct (others_keys j sj k ltac:(done) Hj Hk).
    + by eapply (so_one _ _ _ _ _ O).
  - intros k Hk. destruct (decide (held s' = Some k)) as [E|E]; [by destruct (Hmine k E)|].
    destruct (decide (held s = Some k)) as [E'|E']; [by apply Hgave|].
    destruct (Hother k E' E) as (-> & -> & El). rewrite Hstop. apply (so_free _ _ _ _ _ O). by rewrite <- El.
  - intros j sj k [(<- & <- & _)|[Hne Hj]]%list_lookup_insert_Some Hk; [by apply Hmine|].
    destruct (others_keys j sj k ltac:(done) Hj Hk) as [H1 H2]. destruct (Hother k H1 H2) as (E1 & E2 & _).
    destruct (Hrest j) as [-> _]; [done|]. unfold state_at. rewrite E1, E2, Hstop.
    by apply (so_state _ _ _ _ _ O).
  - intros j hs Hw. destruct (decide (j = i)) as [->|Hne].
    + destruct (Hwait hs Hw) as (p & k & q & Hp & Ha & ->). exists p, k, q.
      rewrite list_lookup_insert_eq by by eapply lookup_lt_Some. done.
    + destruct (Hrest j Hne) as [Ew Et]. rewrite Ew in Hw. rewrite Et, list_lookup_insert_ne by done.
      by eapply (so_wait _ _ _ _ _ O).
Qed.
End one_key.

(** *** Store calls *)

(** The pool whose row a call may change. *)
Definition pool_key {A : Set} (o : storeOp A) : option poolKey :=
  match o with
  | OpCreatePool p | OpUpdatePool p => Some (key_of p)
  | OpDeletePool n ns | OpDeletePoolAndMarkVMs n ns _ => Some (n, ns)
  | _ => None
  end.

Lemma written_key p row :
  poolToRow p = Ok row -> (pr_name row, pr_namespace row) = (pool_name p, pool_namespace p).
Proof. intros E. by destruct (PoolProps.poolToRow_key p row E) as [-> ->]. Qed.

Lemma op_pools_other {A : Set} now now' (o : storeOp A) db k :
  pool_key o <> Some k -> pools (denote now now' o db).1 !! k = pools db !! k.
Proof.
  intros Hk. destruct (denote now now' o db) as [db' r] eqn:E.
  destruct o; store_run E; try done;
    try match goal with E : poolToRow _ = Ok _ |- _ => apply written_key in E end;
    simpl in Hk; unfold key_of in Hk;
    first [rewrite lookup_insert_ne|rewrite lookup_alter_ne|rewrite lookup_delete_ne]; try done.
  all: intros <-; apply Hk; by f_equal.
Qed.

Lemma write_pool p db x db' :
  pool_strings_ok p ->
  Store.CreatePool p db = (db', Ok x) \/ Store.UpdatePool p db = (db', Ok x) ->
  exists r, pools db' !! (pool_name p, pool_namespace p) = Some r /\ runs p r.
Proof.
  intros Hp Hw. unfold Store.CreatePool, Store.UpdatePool in Hw. store_simpl.
  destruct (poolToRow p) as [row|] eqn:E; [|naive_solver]. pose proof (written_key _ _ E) as Ek.
  exists row. split; [|right; by apply rowToPool_poolToRow].
  rewrite Ek in Hw. clear Ek.
  destruct (pools db !! _) eqn:Hr; destruct Hw as [Hw|Hw]; simplify_eq/=;
    [by rewrite lookup_alter_eq, Hr|by rewrite lookup_insert_eq].
Qed.

Lemma create_pool_new p db x db' : 
  Store.CreatePool p db = (db', Ok x) -> pools db !! (pool_name p, pool_namespace p) = None.
Proof.
  unfold Store.CreatePool. store_simpl. intros Hw. destruct (poolToRow p) as [row|] eqn:E; [|done].
  rewrite <- (written_key _ _ E). by destruct (pools db !! _).
Qed.

Lemma get_pool_stored n ns db p db' : Store.GetPool n ns db = (db', Ok p) ->
  db' = db /\ exists r, pools db !! (n, ns) = Some r /\ rowToPool r = Ok p.
Proof.
  unfold Store.GetPool. store_simpl. destruct (pools db !! (n, ns)) as [r|]; [|done].
  destruct (rowToPool r) eqn:E; intros; simplify_eq/=. eauto.
Qed.

Lemma delete_pool_gone now n ns force db db' r :
  Store.DeletePoolAndMarkVMs now n ns force db = (db', r) -> (exists x, r = Ok x) \/ r = Err ErrNotFound ->
  pools db' !! (n, ns) = None.
Proof.
  intros E Hr. unfold Store.DeletePoolAndMarkVMs, Store.DeletePool in E. store_simpl.
  destruct (pools db !! (n, ns)) as [row|] eqn:Hrow; simpl in *;
    repeat (case_match; simplify_eq/=; try (rewrite ?lookup_delete_eq; done));
    destruct Hr as [[? ?]|?]; simplify_eq/=; done.
Qed.

Lemma typed_known db k r p :
  pools_typed db -> pools db !! k = Some r -> rowToPool r = Ok p -> stored_as k p (Some r).
Proof.
  intros Ht Hr Hp. destruct (Ht k r Hr) as (p' & Hp' & Hk & Hv). rewrite Hp in Hp'. injection Hp' as <-.
  split; [done|]. split; [|exists r; split; [done|by left]]. by apply valid_spec_iff in Hv as (_ & _ & ? & _).
Qed.

(** *** Every effect a goroutine may have *)

Section effects.
Context (w : world) (m : Manager.Manager) (wt : gmap nat (list Manager.handle)) (th : list (prog unit)).
Context (ss : list sv_state) (i : nat) (s : sv_state) (p p' : prog unit).
Context (O : sv_ok w m wt th ss) (Hi : ss !! i = Some s) (Hp : th !! i = Some p).

Lemma not_waiting : at_wait p = None -> wt !! i = None.
Proof.
  intros Ha. destruct (wt !! i) as [hs|] eqn:E; [|done].
  destruct (so_wait _ _ _ _ _ O i hs E) as (p0 & k & q & Hp0 & Hk & _). rewrite Hp in Hp0. congruence.
Qed.

Lemma mine k : at_wait p = None -> held s = Some k -> state_at w m false k s.
Proof.
  intros Ha%not_waiting Hk. pose proof (so_state _ _ _ _ _ O i s k Hi Hk) as Hs. by rewrite Ha in Hs.
Qed.

(** The goroutine keeps its lock, or stays without one. *)
Lemma sv_ok_keep w' m' s' :
  at_wait p = None -> held s' = held s -> lk_pools (w_locks w') = lk_pools (w_locks w) ->
  pools_typed (w_db w') -> Manager.inv m' -> Manager.stopped m' = Manager.stopped m ->
  (forall k, held s <> Some k -> pools (w_db w') !! k = pools (w_db w) !! k /\ tracked m' k = tracked m k) ->
  (forall k, held s = Some k -> state_at w' m' false k s') ->
  sv_ok w' m' wt (<[i := p']> th) (<[i := s']> ss).
Proof.
  intros Ha%not_waiting Hh Hl Ht HI Hs Hother Hmine.
  apply (sv_ok_step w w' m m' wt wt th _ ss i s s'); try done.
  - intros k H1 _. rewrite Hl. destruct (Hother k H1). by split_and!.
  - intros k Hk. rewrite Hh in Hk. rewrite Hl, Ha. split_and!; [by eapply (so_held _ _ _ _ _ O)|by left|by apply Hmine].
  - intros k H1 H2. congruence.
  - intros j Hne. by rewrite list_lookup_insert_ne.
  - rewrite Ha. done.
Qed.

(** Nothing that matters happens. *)
Lemma sv_ok_quiet w' :
  at_wait p = None -> pools (w_db w') = pools (w_db w) -> lk_pools (w_locks w') = lk_pools (w_locks w) ->
  sv_ok w' m wt (<[i := p']> th) (<[i := s]> ss).
Proof.
  intros Ha Hd Hl. apply sv_ok_keep; try done; try apply O.
  - unfold pools_typed. rewrite Hd. apply O.
  - intros k _. by rewrite Hd.
  - intros k Hk. unfold state_at. rewrite Hd. by apply mine.
Qed.

Lemma sv_ok_acquire n ns :
  at_wait p = None -> s = Away -> (n, ns) ∉ lk_pools (w_locks w) ->
  sv_ok (set_locks (acquire (PoolLock n ns) (w_locks w)) w) m wt (<[i := p']> th) (<[i := Synced (n, ns)]> ss).
Proof.
  intros Ha -> Hfree. pose proof (not_waiting Ha) as Hw.
  apply (sv_ok_step w _ m m wt wt th _ ss i Away (Synced (n, ns))); try done; try apply O; simpl.
  - intros k _ Hne. split_and!; [done..|]. split; [|set_solver]. intros [->%elem_of_singleton|?]%elem_of_union; done.
  - intros k [= <-]. split_and!; [set_solver|by right|by apply (so_free _ _ _ _ _ O)].
  - intros j Hne. by rewrite list_lookup_insert_ne.
  - by rewrite Hw.
Qed.

Lemma sv_ok_release n ns :
  at_wait p = None -> in_lock (n, ns) s ->
  sv_ok (set_locks (unlock (PoolLock n ns) (w_locks w)) w) m wt (<[i := p']> th) (<[i := Away]> ss).
Proof.
  intros Ha Hs. pose proof (not_waiting Ha) as Hw.
  assert (Hh : held s = Some (n, ns)) by by destruct Hs as [->|[q ->]].
  assert (Hag : agree (Manager.stopped m) (pools (w_db w) !! (n, ns)) (tracked m (n, ns))).
  { pose proof (mine _ Ha Hh) as Hm. destruct Hs as [->|[q ->]]; [done|]. by destruct Hm as (_ & _ & ?). }
  apply (sv_ok_step w _ m m wt wt th _ ss i s Away); try done; try apply O; simpl.
  - intros k Hne _. rewrite Hh in Hne. split_and!; [done..|]. rewrite elem_of_difference, elem_of_singleton.
    naive_solver.
  - intros k Hk _. rewrite Hh in Hk. injection Hk as <-. split; [set_solver|done].
  - intros j Hne. by rewrite list_lookup_insert_ne.
  - by rewrite Hw.
Qed.

Lemma sv_ok_start q k x :
  at_wait p = None -> s = Unstarted k q ->
  sv_ok (logged (log_of (EStart q) x) w) (Manager.StartReconciler q m).1 wt (<[i := p']> th) (<[i := Synced k]> ss).
Proof.
  intros Ha E. pose proof (mine k Ha) as Hm. rewrite E in Hm.
  destruct (Hm eq_refl) as [(Hk & Hst & r & Hr & Hrun) Hn].
  destruct (tracked_start q m (so_inv _ _ _ _ _ O) Hst) as (Es & Eo & En). rewrite Hk in *.
  apply sv_ok_keep; rewrite ?E; try done; try apply O.
  - by apply Manager.inv_start, O.
  - intros k' Hne. split; [done|]. apply Eo. simpl in Hne. congruence.
  - intros k' [= <-] Hstop. simpl. rewrite Es in Hstop. by rewrite Hr, En by auto.
Qed.

Lemma sv_ok_stop n ns q :
  at_wait p = None -> s = Written (n, ns) q ->
  sv_ok (logged (log_of (EStop n ns) tt) w) (Manager.StopReconciler (n, ns) m) wt (<[i := p']> th)
    (<[i := Unstarted (n, ns) q]> ss).
Proof.
  intros Ha E. pose proof (mine (n, ns) Ha) as Hm. rewrite E in Hm. specialize (Hm eq_refl).
  destruct (tracked_stop (n, ns) m) as (Es & Et & Eo).
  apply sv_ok_keep; rewrite ?E; try done; try apply O.
  - by apply inv_stop, O.
  - intros k' Hne. split; [done|]. apply Eo. simpl in Hne. congruence.
  - intros k' [= <-]. by split.
Qed.

(** StopReconcilerAndWait up to its wait, and its return. *)
Lemma sv_ok_wait n ns q hs :
  at_wait p = Some (n, ns) -> s = Known (n, ns) q -> wt !! i = None ->
  sv_ok w (Manager.StopReconciler (n, ns) m) (<[i := hs]> wt) th ss.
Proof.
  intros Ha E Hw. rewrite E in Hi. pose proof (so_state _ _ _ _ _ O i _ (n, ns) Hi eq_refl) as (Hs & Hr & _).
  destruct (tracked_stop (n, ns) m) as (Es & Et & Eo). rewrite <- (list_insert_id ss i _ Hi).
  apply (sv_ok_step w w m _ wt _ th th ss i (Known (n, ns) q) (Known (n, ns) q)); try done; try apply O.
  - by apply inv_stop, O.
  - intros k Hne _. split; [done|]. split; [|done]. apply Eo. simpl in Hne. congruence.
  - intros k [= <-]. split; [by eapply (so_held _ _ _ _ _ O)|]. split; [by left|].
    rewrite lookup_insert_eq, bool_decide_eq_true_2 by done. by split_and!.
  - intros j Hne. by rewrite lookup_insert_ne.
  - intros hs' _. eauto 6.
Qed.

Lemma sv_ok_waited n ns q hs w' :
  s = Known (n, ns) q -> wt !! i = Some hs -> w_db w' = w_db w -> w_locks w' = w_locks w ->
  sv_ok w' m (delete i wt) (<[i := p']> th) (<[i := Unstarted (n, ns) q]> ss).
Proof.
  intros E Hw Ed El. rewrite E in Hi. pose proof (so_state _ _ _ _ _ O i _ (n, ns) Hi eq_refl) as (Hs & _ & Hn).
  rewrite Hw, bool_decide_eq_true_2 in Hn by done.
  apply (sv_ok_step w w' m m wt _ th _ ss i (Known (n, ns) q) (Unstarted (n, ns) q)); try done; rewrite ?Ed, ?El;
    try apply O; try done.
  - intros k [= <-]. split; [by eapply (so_held _ _ _ _ _ O)|]. split; [by left|]. unfold state_at. by rewrite Ed.
  - intros j Hne. by rewrite lookup_delete_ne, list_lookup_insert_ne.
  - by rewrite lookup_delete_eq.
Qed.

(** Calls that may write the pool the goroutine has locked. *)
Lemma op_key_held {A : Set} (o : storeOp A) k :
  sv_allowed s _ (EStore o) -> pool_key o = Some k -> held s = Some k.
Proof.
  destruct o; try done; simpl.
  - intros [[->|[q ->]] _] [= <-]; done.
  - intros [[->|[q ->]] _] [= <-]; done.
  - intros [q ->] [= <-]. done.
Qed.

Lemma next_held {A : Set} (o : storeOp A) x : sv_allowed s _ (EStore o) -> held (sv_next s _ (EStore o) x) = held s.
Proof.
  destruct o; try done; simpl.
  - intros [[->|[q ->]] _]; by destruct x.
  - intros _. destruct s, x; simpl; try done; by case_decide.
  - intros [[->|[q ->]] _]; by destruct x.
  - intros [q ->]. destruct x as [|[]]; done.
Qed.

(** What the goroutine knows of its pool after the call. *)
Lemma store_state {A : Set} now now' (o : storeOp A) k :
  at_wait p = None -> sv_allowed s _ (EStore o) -> held s = Some k ->
  state_at (set_db (denote now now' o (w_db w)).1 w) m false k (sv_next s _ (EStore o) (denote now now' o (w_db w)).2).
Proof.
  intros Ha Hal Hk. pose proof (mine k Ha Hk) as Hm.
  assert (Hsame : pool_key o <> Some k -> state_at (set_db (denote now now' o (w_db w)).1 w) m false k s).
  { intros Hne. unfold state_at. simpl. by rewrite (op_pools_other now now' o (w_db w) k Hne). }
  assert (Herr : forall e, (denote now now' o (w_db w)).2 = Err e ->
    state_at (set_db (denote now now' o (w_db w)).1 w) m false k s).
  { intros e E. destruct (denote now now' o (w_db w)) as [db' r] eqn:Ed. simpl in *. subst r.
    by rewrite (failed_op_keeps_db _ _ _ _ _ _ Ed). }
  pose proof (so_typed _ _ _ _ _ O) as Ht.
  assert (Hwr : forall q db' x, pool_strings_ok q -> valid_spec q ->
    Store.CreatePool q (w_db w) = (db', Ok x) \/ Store.UpdatePool q (w_db w) = (db', Ok x) ->
    stored_as (key_of q) q (pools db' !! key_of q)).
  { intros q db' x Hs Hv Hw. destruct (write_pool q _ x db' Hs Hw) as (r & Hr & Hrun).
    split; [done|]. split; [by apply valid_spec_iff in Hv as (_ & _ & ? & _)|eauto]. }
  destruct o; try (by apply Hsame); simpl in Hal; cbn [sv_next].
  - destruct Hal as (Hl & Hs & Hv). cbn [denote] in *.
    destruct (Store.CreatePool p0 (w_db w)) as [db' [x|e]] eqn:E; simpl in *; [|by eapply Herr].
    assert (k = key_of p0) as -> by (destruct Hl as [->|[q ->]]; by injection Hk).
    split; [by eapply Hwr; eauto|]. intros Hstop. pose proof (create_pool_new _ _ _ _ E) as Hnew.
    assert (agree (Manager.stopped m) (pools (w_db w) !! key_of p0) (tracked m (key_of p0))) as Hag
      by (destruct Hl as [->|[q ->]]; [done|by destruct Hm as (_ & _ & ?)]).
    assert (agree (Manager.stopped m) None (tracked m (key_of p0))) as Hag' by (rewrite <- Hnew; exact Hag).
    specialize (Hag' Hstop). by destruct (tracked m _).
  - cbn [denote] in *. destruct (Store.GetPool name namespace (w_db w)) as [db' [q|e]] eqn:E; simpl in *.
    + apply get_pool_stored in E as (-> & r & Hr & Hq).
      assert (Hg : agree (Manager.stopped m) (pools (w_db w) !! (name, namespace)) (tracked m (name, namespace)) ->
        state_at (set_db (w_db w) w) m false (name, namespace) (Known (name, namespace) q)).
      { intros Hag. unfold state_at. simpl. rewrite Hr in *. split_and!; [by eapply typed_known|eauto|done]. }
      destruct s as [|k'|k' q0|k' q0|k' q0]; try (by apply Hsame); injection Hk as ->;
        (case_decide as Ek; [|by apply Hsame]); rewrite Ek in *; apply Hg; [exact Hm|apply Hm].
    + destruct s; by apply Hsame.
  - destruct Hal as (Hl & Hs & Hv). cbn [denote] in *.
    destruct (Store.UpdatePool p0 (w_db w)) as [db' [x|e]] eqn:E; simpl in *; [|by eapply Herr].
    assert (k = key_of p0) as -> by (destruct Hl as [->|[q ->]]; by injection Hk). by eapply Hwr; eauto.
  - destruct Hal as [q ->]. injection Hk as <-. cbn [denote] in *.
    destruct (Store.DeletePoolAndMarkVMs now name namespace force (w_db w)) as [db' r] eqn:E. simpl in *.
    assert (Hgone : (exists x, r = Ok x) \/ r = Err ErrNotFound -> agree (Manager.stopped m)
      (pools db' !! (name, namespace)) (tracked m (name, namespace))).
    { intros Hr Hstop. rewrite (delete_pool_gone _ _ _ _ _ _ _ E Hr). by rewrite (proj2 Hm Hstop). }
    destruct r as [x|e]; [apply Hgone; eauto|]. destruct e; try (by eapply Herr). apply Hgone. by right.
Qed.

Lemma sv_ok_store {A : Set} now now' (o : storeOp A) :
  at_wait p = None -> sv_allowed s _ (EStore o) ->
  sv_ok (set_db (denote now now' o (w_db w)).1 w) m wt (<[i := p']> th)
    (<[i := sv_next s _ (EStore o) (denote now now' o (w_db w)).2]> ss).
Proof.
  intros Ha Hal. apply sv_ok_keep; try done; try apply O.
  - by apply next_held.
  - simpl. apply store_step_typed; [|apply O]. destruct o; try done; by destruct Hal.
  - intros k Hne. split; [|done]. simpl. apply op_pools_other. intros E. by apply Hne, (op_key_held o).
  - intros k. by apply store_state.
Qed.
End effects.

Lemma sv_ok_eff w m wt th ss i s (X : Set) (e : eff X) (k : X -> prog unit) x w' m' wt' :
  sv_ok w m wt th ss -> ss !! i = Some s -> th !! i = Some (Do e k) -> sv_allowed s X e -> enabled e w ->
  exec_eff true e w x w' -> answers i m wt e x m' wt' ->
  sv_ok w' m' wt' (<[i := k x]> th) (<[i := sv_next s X e x]> ss).
Proof.
  intros O Hi Hp Hal Hen He Han.
  destruct e; try (destruct Han as [-> ->]); try (simpl in He; subst w'; by eapply sv_ok_quiet).
  - destruct He as [(now & now' & -> & ->)|(_ & (what & ->) & ->)]; [by eapply sv_ok_store|].
    assert (sv_next s _ (EStore o) (Err (ErrOther what)) = s) as -> by (destruct o; try done; by destruct s).
    by eapply sv_ok_quiet.
  - destruct He as [_ ->]. by eapply sv_ok_quiet.
  - simpl in He. subst w'. destruct Han as (-> & _ & ->). destruct Hal as [k0 ->].
    by eapply sv_ok_start with (x := x).
  - simpl in He. subst w'. destruct Hal as [q ->]. destruct x. by eapply sv_ok_stop.
  - simpl in He. subst w'. destruct Han as (hs & Hw & _ & -> & ->). destruct Hal as [q ->]. by eapply sv_ok_waited.
  - simpl in He. subst w'. destruct m0; try (by eapply sv_ok_quiet). by eapply sv_ok_acquire.
  - simpl in He. subst w'. destruct m0; try (by eapply sv_ok_quiet). by eapply sv_ok_release.
Qed.

Lemma sv_ok_internal w m wt th ss a :
  internal a = true -> sv_ok w m wt th ss -> sv_ok w (Manager.act a m) wt th ss.
Proof.
  intros Ha O. split; try apply O; [by apply Manager.inv_act, O|..];
    destruct (tracked_internal a m Ha) as [[Es Et]|[Es Et]].
  - intros k Hk. rewrite Es, Et. by apply O.
  - intros k _ Hstop. congruence.
  - intros i s k Hi Hk. unfold state_at. rewrite Es, Et. by apply (so_state _ _ _ _ _ O).
  - intros i s k Hi Hk. unfold state_at. rewrite Es, Et.
    pose proof (so_state _ _ _ _ _ O i s k Hi Hk) as Hs. unfold state_at in Hs.
    destruct s as [|k'|k' q|k' q|k' q]; simpl in *; try done; [|by destruct Hs].
    destruct Hs as (? & ? & _). split_and!; [done..|]. by case_match.
Qed.

Lemma sv_ok_new w m wt th ss p : length ss = length th -> sv_ok w m wt th ss -> sv_ok w m wt (th ++ [p]) (ss ++ [Away]).
Proof.
  intros Hlen O.
  assert (Hold : forall j s k, (ss ++ [Away]) !! j = Some s -> held s = Some k -> ss !! j = Some s).
  { intros j s k [Hj|[_ Hj]]%lookup_app_Some Hk; [done|]. by apply list_lookup_singleton_Some in Hj as [_ <-]. }
  split; try apply O.
  - intros i s k Hi Hk. eapply (so_held _ _ _ _ _ O); eauto.
  - intros i j s s' k Hi Hj Hk Hk'. eapply (so_one _ _ _ _ _ O); eauto.
  - intros i s k Hi Hk. apply (so_state _ _ _ _ _ O); eauto.
  - intros i hs Hw. destruct (so_wait _ _ _ _ _ O i hs Hw) as (q & k & r & Hq & Ha & Hs).
    exists q, k, r. split_and!; [by apply lookup_app_l_Some|done|by apply lookup_app_l_Some].
Qed.

(** A [go] statement: the goroutine goes on, a new one starts. *)
Lemma sv_ok_fork w m wt th ss i s c k :
  Forall2 (obeys supervision) ss th -> sv_ok w m wt th ss -> ss !! i = Some s -> th !! i = Some (Fork c k) ->
  sv_ok w m wt (<[i := k]> th ++ [c]) (ss ++ [Away]).
Proof.
  intros Hf O Hi Hp. apply sv_ok_new; [rewrite length_insert; by eapply Forall2_length|].
  rewrite <- (list_insert_id ss i s Hi). by eapply sv_ok_quiet.
Qed.

Definition sup_ok (c : supervised) : Prop :=
  exists ss, Forall2 (obeys supervision) ss (s_threads (v_sys c)) /\
    sv_ok (s_world (v_sys c)) (v_mgr c) (v_waiting c) (s_threads (v_sys c)) ss.

Lemma sup_step_ok c c' : sup_step c c' -> sup_ok c -> sup_ok c'.
Proof.
  intros Hstep (ss & Hob & O).
  destruct Hstep as [i X e k x w' m' wt' Hi Hen He Hu Ha|i n ns k Hi Hw m'|i ch k Hi|p Hp|a Ha].
  - destruct (Forall2_lookup_r _ _ _ _ _ Hob Hi) as (s & Hs & Hal & Hk).
    exists (<[i := sv_next s X e x]> ss). split; simpl.
    + apply Forall2_insert; [done|apply Hk].
    + by eapply sv_ok_eff.
  - destruct (Forall2_lookup_r _ _ _ _ _ Hob Hi) as (s & Hs & Hal & _).
    destruct Hal as [q ->]. exists ss. split; [done|]. simpl. by eapply sv_ok_wait.
  - destruct (Forall2_lookup_r _ _ _ _ _ Hob Hi) as (s & Hs & Hc & Hk).
    exists (ss ++ [Away]). split; simpl; [|by eapply sv_ok_fork].
    apply Forall2_app; [|by repeat constructor].
    rewrite <- (list_insert_id ss i s Hs). by apply Forall2_insert.
  - exists (ss ++ [Away]). split; simpl.
    + apply Forall2_app; [done|]. repeat constructor. by apply sv_entry.
    + apply sv_ok_new; [|done]. by eapply Forall2_length.
  - exists ss. split; [done|]. by apply sv_ok_internal.
Qed.

(** The process has seeded the manager from a store it wrote, and serves no
    request yet. *)
Record seeded (c : supervised) : Prop := {
  sd_idle : s_threads (v_sys c) = [] /\ v_waiting c = ∅ /\ w_locks (s_world (v_sys c)) = no_locks;
  sd_typed : pools_typed (w_db (s_world (v_sys c)));
  sd_manager : v_mgr c = (Manager.Seed (Store.ListPools (w_db (s_world (v_sys c)))).2 Manager.New).1
}.

Lemma seeded_agree db k :
  pools_typed db -> let m := (Manager.Seed (Store.ListPools db).2 Manager.New).1 in
  Manager.inv m /\ agree (Manager.stopped m) (pools db !! k) (tracked m k).
Proof.
  intros Ht. destruct (listed_pools db Ht) as (specs & -> & Hst & Hin). simpl.
  destruct (tracked_seed specs _ Manager.inv_New Hst) as (Im & Ho & Hm). split; [done|]. intros _.
  destruct (pools db !! k) as [r|] eqn:Hr.
  - destruct (Ht k r Hr) as (p & Ep & Ek & _). change (key_of p = k) in Ek. subst k.
    rewrite Hm by (apply Hin; eauto). by left.
  - rewrite Ho; [done|]. intros (p & -> & (r & Hr' & _)%Hin)%list_elem_of_fmap. congruence.
Qed.

(** C7: The manager runs what the store holds.  Take the process from the moment
    its manager is seeded, with every request, loop, reconciler exit and even the
    shutdown interleaved in any way, and store calls failing anywhere.  Whenever no
    PoolAdmin call holds the lock of a pool and the manager is not shut down, the
    pool is stored if and only if a reconciler is tracked for it, and the spec that
    one runs with is the stored one: no CreatePool, UpdatePool or DeletePool, however
    they race or fail, leaves a live reconciler with a stale spec, one for a pool
    that is gone, or a stored pool without one. *)
Theorem reconcilers_match_pools c c' k :
  seeded c -> rtc sup_step c c' -> k ∉ lk_pools (w_locks (s_world (v_sys c'))) ->
  Manager.stopped (v_mgr c') = false ->
  match pools (w_db (s_world (v_sys c'))) !! k with
  | Some r => exists h g, Manager.handles (v_mgr c') !! k = Some h /\
      Manager.goroutines (v_mgr c') !! h = Some g /\ Manager.g_key g = k /\ runs (Manager.g_spec g) r
  | None => Manager.handles (v_mgr c') !! k = None
  end.
Proof.
  intros [(Ht & Hw & Hl) Hty Hm] Hs Hk Hstop.
  assert (sup_ok c) as Hok.
  { exists []. rewrite Ht, Hw, Hm. split; [constructor|]. split; try done; [by apply (seeded_agree _ k)|].
    intros k' _. by apply seeded_agree. }
  assert (sup_ok c') as (ss & _ & O) by (clear -Hok Hs CodecLaws0; induction Hs; eauto using sup_step_ok).
  pose proof (so_free _ _ _ _ _ O k Hk Hstop) as Ha.
  destruct (pools _ !! k) as [r|].
  - destruct (tracked (v_mgr c') k) as [q|] eqn:Et; [|done]. unfold tracked in Et.
    apply bind_Some in Et as (h & Hh & Hg). apply fmap_Some in Hg as (g & Hg & ->).
    destruct (Manager.inv_handles _ (so_inv _ _ _ _ _ O) k h Hh) as (g' & Hg' & Hkey). simplify_eq. eauto 10.
  - apply (tracked_None _ k (so_inv _ _ _ _ _ O)). by destruct (tracked (v_mgr c') k).
Qed.
End interleavings.

(** ** A scheduler *)

(** What the manager does for goroutine [i], if that agrees with the answer [x]. *)
Definition answered (i : nat) (m : Manager.Manager) (wt : gmap nat (list Manager.handle))
    {X : Set} (e : eff X) : X -> option (Manager.Manager * gmap nat (list Manager.handle)) :=
  match e in eff Y return Y -> option (Manager.Manager * gmap nat (list Manager.handle)) with
  | EStart spec => fun x =>
      match x, Manager.StartReconciler spec m with None, (m', None) => Some (m', wt) | _, _ => None end
  | EStop n ns => fun _ => Some (Manager.StopReconciler (n, ns) m, wt)
  | EStopWait n ns => fun _ =>
      match wt !! i with
      | Some hs => if forallb (fun h => negb (Manager.in_run h m)) hs then Some (m, delete i wt) else None
      | None => None
      end
  | _ => fun _ => Some (m, wt)
  end.

Lemma answered_sound i m wt {X : Set} (e : eff X) x m' wt' :
  answered i m wt e x = Some (m', wt') -> answers i m wt e x m' wt'.
Proof.
  destruct e; simpl; try (by intros [= <- <-]).
  - destruct x; [done|]. by destruct (Manager.StartReconciler spec m) as [m1 []]; intros [= <- <-].
  - destruct (wt !! i) as [hs|] eqn:Hw; [|done]. destruct (forallb _ hs) eqn:Hf; [|done].
    intros [= <- <-]. exists hs. split_and!; try done. intros _ h Hh. rewrite forallb_forall in Hf.
    apply negb_true_iff, Hf. by apply list_elem_of_In.
Qed.

Section scheduler.
Context `{Env, Semver}.

(** Goroutine [i] takes its next step, if it can. *)
Definition mgr_next (i : nat) (m : Manager.Manager) (wt : gmap nat (list Manager.handle)) {A : Set} (p : prog A)
    (w : world) : option (Manager.Manager * gmap nat (list Manager.handle)) :=
  match p with Do e _ => answered i m wt e (run_eff e w).2 | _ => Some (m, wt) end.
Definition sup_thread (i : nat) (c : supervised) : supervised :=
  match s_threads (v_sys c) !! i with
  | None => c
  | Some p =>
      match at_wait p, v_waiting c !! i with
      | Some k, None =>
          let m' := Manager.StopReconciler k (v_mgr c) in
          {| v_sys := v_sys c; v_mgr := m'; v_waiting := <[i := Manager.exiting_of k m']> (v_waiting c) |}
      | _, _ =>
          match step_prog p (s_world (v_sys c)) (s_used (v_sys c)),
            mgr_next i (v_mgr c) (v_waiting c) p (s_world (v_sys c)) with
          | Some (w', used', p', forked), Some (m', wt') =>
              {| v_sys := {| s_world := w'; s_used := used';
                             s_threads := <[i := p']> (s_threads (v_sys c)) ++ forked |};
                 v_mgr := m'; v_waiting := wt' |}
          | _, _ => c
          end
      end
  end.
Definition sup_sched (schedule : list nat) (c : supervised) : supervised :=
  fold_left (fun c i => sup_thread i c) schedule c.

Lemma at_wait_inv {A : Set} (p : prog A) n ns : at_wait p = Some (n, ns) -> exists k, p = Do (EStopWait n ns) k.
Proof. destruct p as [|? X e k|]; try done. destruct e; try done. intros [= -> ->]. eauto. Qed.

Lemma sup_prog_cases i m wt {A : Set} (p : prog A) w used w' used' p' forked m' wt' :
  step_prog p w used = Some (w', used', p', forked) -> mgr_next i m wt p w = Some (m', wt') ->
  (exists (X : Set) (e : eff X) k x, p = Do e k /\ enabled e w /\ exec_eff true e w x w' /\
     (forall u, uid_handed_out e x = Some u -> u ∉ used) /\ answers i m wt e x m' wt' /\
     used' = use (uid_handed_out e x) used /\ p' = k x /\ forked = []) \/
  (exists c, p = Fork c p' /\ w' = w /\ used' = used /\ forked = [c] /\ m' = m /\ wt' = wt).
Proof.
  destruct p as [A x|A X e k|A c k]; simpl; [done| |].
  - case_decide as Hen; [|done]. pose proof (run_eff_sound e w) as He.
    destruct (run_eff e w) as [w1 x]. simpl in He. case_decide as Hu; [|done].
    intros [= <- <- <- <-] Ha%answered_sound. left. exists X, e, k, x. split_and!; try done.
    intros u Eu. rewrite Eu in Hu. done.
  - intros [= <- <- <- <-] [= <- <-]. right. eauto 10.
Qed.

Lemma sup_thread_steps i c : rtc sup_step c (sup_thread i c).
Proof.
  unfold sup_thread. destruct (s_threads (v_sys c) !! i) as [p|] eqn:Hi; [|done].
  destruct (at_wait p) as [[n ns]|] eqn:Ha; [destruct (v_waiting c !! i) eqn:Hw|].
  2: { apply at_wait_inv in Ha as [k ->]. apply rtc_once. by eapply Sup_stop. }
  all: destruct (step_prog p _ _) as [[[[w' used'] p'] forked]|] eqn:E; [|done];
    destruct (mgr_next i _ _ p _) as [[m' wt']|] eqn:Em; [|done]; apply rtc_once;
    destruct (sup_prog_cases _ _ _ _ _ _ _ _ _ _ _ _ E Em)
      as [(X & e & k & x & -> & Hen & He & Hu & Han & -> & -> & ->)|(ch & -> & -> & -> & -> & -> & ->)];
    rewrite ?app_nil_r; by econstructor.
Qed.

Lemma sup_sched_steps l c : rtc sup_step c (sup_sched l c).
Proof.
  revert c. induction l as [|i l IH]; intros c; simpl; [done|]. etrans; [apply sup_thread_steps|apply IH].
Qed.
End scheduler.

(** A pool is created and updated at once, in a store without pools. *)
Definition supervised0 : supervised := {| v_sys := poolless0; v_mgr := Manager.New; v_waiting := ∅ |}.
Definition pool2 : PoolSpec :=
  {| pool_name := "api"; pool_namespace := "default";
     microvm_template := Some empty_MicroVMSpec; pool_size := 5;
     flintlock_hosts := ["host-b"];
     replenishment_strategy := Some {| strategy_type := REPLACE_ON_DELETE; min_size := None |};
     create_commands := []; pre_lease_commands := [];
     hook_failure_policy := DELETE_AND_REPLACE;
     heartbeat_interval := Some 10%Z; heartbeat_expiry_threshold := Some 30%Z |}.
Definition serving0 : supervised :=
  sup_sched (mjoin (replicate 25 [0; 1]))
    {| v_sys := spawn [ignore (PoolAdmin.UpdatePool pool2)] (spawn [ignore (PoolAdmin.CreatePool pool1)] poolless0);
       v_mgr := Manager.New; v_waiting := ∅ |}.

(** The tracked reconciler is the second one, with the updated size. *)
Lemma reconcilers_match_pools_witness :
  exists r h g, pools (w_db (s_world (v_sys serving0))) !! ("api", "default") = Some r /\
    Manager.handles (v_mgr serving0) !! ("api", "default") = Some h /\
    Manager.goroutines (v_mgr serving0) !! h = Some g /\ h = 1 /\ pool_size (Manager.g_spec g) = 5%Z /\
    runs (Manager.g_spec g) r.
Proof.
  assert (exists r, pools (w_db (s_world (v_sys serving0))) !! ("api", "default") = Some r) as [r E]
    by (eexists; vm_compute; reflexivity).
  pose proof (reconcilers_match_pools supervised0 serving0 ("api", "default")) as H. rewrite E in H.
  destruct H as (h & g & Hh & Hg & _ & Hr).
  - split; [split_and!; reflexivity|apply map_Forall_empty|vm_compute; reflexivity].
  - etrans; [|apply sup_sched_steps].
    eapply rtc_l; [apply (Sup_spawn _ (ignore (PoolAdmin.CreatePool pool1)))|].
    2: eapply rtc_l; [apply (Sup_spawn _ (ignore (PoolAdmin.UpdatePool pool2)))|apply rtc_refl].
    all: constructor; split_and!; repeat constructor.
  - vm_compute. discriminate.
  - vm_compute. reflexivity.
  - exists r, h, g. split; [exact E|]. split; [exact Hh|]. split; [exact Hg|].
    vm_compute in Hh. injection Hh as <-. split; [reflexivity|]. split; [|exact Hr].
    vm_compute in Hg. injection Hg as <-. reflexivity.
Defined.
