(* ===== verification/Output.v ===== *)
(** * The client's output: [src/internal/poolmgrctl/output.go]

    Every print function as the text it writes, with Go's [text/tabwriter] and
    RFC 3339 timestamps.  [protojson] and [encoding/json] are the class
    [OutputJSONCodec]; the fields of a network interface that flintlock defines
    are the class [InterfaceStatus].  A writer that fails is left out. *)

From stdpp Require Import base gmap strings list.
From Stdlib Require Import ZArith Lia DecimalString.
From S2P Require Import Prelude Types Convert Store StoreOps Concrete Effects Flintlock Deletion.
From S2P Require Import Strategy Reconciler LeaseApi PoolAdmin HostAdmin Config.

(** ** [text/tabwriter]

    As the code configures it: no minimal width, padding 2, blanks, no flags.  A
    tab ends a cell, so the last cell of a line belongs to no column; a column is
    a run of lines that have a cell in it, inside a run of the column before; a
    form feed starts over.  The writer's escape character, byte 255, is in no
    valid UTF-8, so in no string of a message. *)

Definition tab : Ascii.ascii := byte 9.
Definition newline : Ascii.ascii := byte 10.
Definition vtab : Ascii.ascii := byte 11.
Definition formfeed : Ascii.ascii := byte 12.

(** The pieces between the characters that satisfy [sep]; at least one. *)
Fixpoint split_at (sep : Ascii.ascii -> bool) (s : string) : list string :=
  match s with
  | EmptyString => [""]
  | String c s =>
      if sep c then "" :: split_at sep s
      else match split_at sep s with
           | [] => [String c ""]
           | p :: ps => String c p :: ps
           end
  end.

Definition is_char (c d : Ascii.ascii) : bool := bool_decide (d = c).
Definition ends_cell (c : Ascii.ascii) : bool := is_char tab c || is_char vtab c.

(** The width of a text: its code points, which are the bytes that do not
    continue one. *)
Fixpoint runes (s : string) : nat :=
  match s with
  | EmptyString => 0
  | String c s => (if byte_in 128 191 c then 0 else 1) + runes s
  end.

Fixpoint spaces (n : nat) : string :=
  match n with O => "" | S n => String (byte 32) (spaces n) end.

Definition padding : nat := 2.

(** A cell of a column of width [w]. *)
Definition pad (w : nat) (cell : string) : string := cell +:+ spaces (w - runes cell).

(** [writeLines], one line: the cells of the known columns padded, then the rest. *)
Fixpoint write_line (widths : list nat) (cells : list string) : string :=
  match widths, cells with
  | w :: widths, c :: cells => pad w c +:+ write_line widths cells
  | [], cells => String.concat "" cells
  | _, [] => ""
  end.

(** Runs of lines that agree on [P]. *)
Fixpoint runs {A} (P : A -> bool) (l : list A) : list (bool * list A) :=
  match l with
  | [] => []
  | x :: l =>
      match runs P l with
      | (b, run) :: rest => if Bool.eqb b (P x) then (b, x :: run) :: rest
                            else (P x, [x]) :: (b, run) :: rest
      | [] => [(P x, [x])]
      end
  end.

Definition column_width (column : nat) (lines : list (list string)) : nat :=
  foldr (fun line w => Nat.max (runes (default "" (line !! column)) + padding) w) 0 lines.

(** [Writer.format]: one more column at a time.  The number of cells of the longest
    line is fuel enough. *)
Fixpoint format (fuel : nat) (widths : list nat) (lines : list (list string)) : list string :=
  match fuel with
  | O => write_line widths <$> lines
  | S fuel =>
      let column := length widths in
      mjoin ((fun '(in_block, block) =>
        if in_block : bool then format fuel (widths ++ [column_width column block]) block
        else write_line widths <$> block)
        <$> runs (fun line => column <? pred (length line)) lines)
  end.

Definition max_cells (lines : list (list string)) : nat :=
  foldr (fun line n => Nat.max (length line) n) 0 lines.

(** The text a [tabwriter.Writer] passes on, of the text written to it. *)
Definition tabwrite (text : string) : string :=
  String.concat (String newline "")
    (mjoin ((fun group =>
       let lines := split_at ends_cell <$> split_at (is_char newline) group in
       format (max_cells lines) [] lines) <$> split_at (is_char formfeed) text)).

(** [fmt.Fprintf(tw, "%s\t...\n", ...)]: the cells of a row. *)
Definition row_text (cells : list string) : string :=
  String.concat (String tab "") cells +:+ String newline "".

(** A table: its rows written to a tabwriter and flushed. *)
Definition table (rows : list (list string)) : string :=
  tabwrite (String.concat "" (row_text <$> rows)).

(** [%d] and [%t]. *)
Definition itoa (z : Z) : string := NilEmpty.string_of_int (Z.to_int z).
Definition fmt_bool (b : bool) : string := if b then "true" else "false".

Example table0 :
  table [["NAME"; "SIZE"; "FREE"]; ["web"; itoa 10; itoa (-2)]; ["database"; itoa 0; ""]] =
  String.concat (String newline "")
    ["NAME      SIZE  FREE"; "web       10    -2"; "database  0     "; ""].
Proof. vm_compute. reflexivity. Qed.

(** ** Timestamps: [ts.AsTime().Format(time.RFC3339)] *)

(** Year, month and day of a day counted from 1970-01-01, in the proleptic
    Gregorian calendar: years from March, in eras of 400 years. *)
Definition civil_in_era (doe : Z) : Z * Z * Z :=
  let yoe := ((doe - doe / 1460 + doe / 36524 - doe / 146096) / 365)%Z in
  let doy := (doe - (365 * yoe + yoe / 4 - yoe / 100))%Z in
  let mp := ((5 * doy + 2) / 153)%Z in
  let d := (doy - (153 * mp + 2) / 5 + 1)%Z in
  let m := (if mp <? 10 then mp + 3 else mp - 9)%Z in
  ((if m <=? 2 then yoe + 1 else yoe)%Z, m, d).

Definition civil (days : Z) : Z * Z * Z :=
  let z := (days + 719468)%Z in
  let '(y, m, d) := civil_in_era (z mod 146097) in ((y + 400 * (z / 146097))%Z, m, d).

Definition decimal_digit (n : Z) : Ascii.ascii := byte (Z.to_nat (48 + n)).
Definition two_digits (n : Z) (rest : string) : string :=
  String (decimal_digit (n / 10)) (String (decimal_digit (n mod 10)) rest).

(** [appendInt(b, year, 4)]. *)
Definition year_text (y : Z) (rest : string) : string :=
  if ((0 <=? y) && (y <=? 9999))%Z then two_digits (y / 100) (two_digits (y mod 100) rest)
  else if (y <? 0)%Z then String (byte 45)
    (if (y <? -9999)%Z then itoa (- y) +:+ rest
     else two_digits (- y / 100) (two_digits (- y mod 100) rest))
  else itoa y +:+ rest.

Definition char (c : string) (rest : string) : string := c +:+ rest.

Definition formatTimestamp (ts : option Timestamp) : string :=
  match ts with
  | None => ""
  | Some ts =>
      let sec := (ts / 1000000000)%Z in
      let '(y, m, d) := civil (sec / 86400) in
      let s := (sec mod 86400)%Z in
      year_text y (char "-" (two_digits m (char "-" (two_digits d (char "T"
        (two_digits (s / 3600) (char ":" (two_digits (s / 60 mod 60) (char ":"
        (two_digits (s mod 60) "Z"))))))))))
  end.

Example format_epoch : formatTimestamp (Some 0%Z) = "1970-01-01T00:00:00Z".
Proof. vm_compute. reflexivity. Qed.
Example format_leap :
  formatTimestamp (Some 1709210096123456789%Z) = "2024-02-29T12:34:56Z".
Proof. vm_compute. reflexivity. Qed.
Example format_before : formatTimestamp (Some (-1)%Z) = "1969-12-31T23:59:59Z".
Proof. vm_compute. reflexivity. Qed.

(** ** What the commands print *)

Definition OutputTable : string := "table".
Definition OutputJSON : string := "json".

Inductive printError := InvalidFormat (format : string) | Marshal (what : string).

Definition parseOutputFormat (s : string) : result printError string :=
  if decide (s = OutputTable \/ s = OutputJSON) then Ok s else Err (InvalidFormat s).

(** Multi-line protojson of each message, and the JSON object that reports a
    removed host. *)
Class OutputJSONCodec := {
  marshal_pool : Pool -> option string;
  marshal_lease : LeaseRecord -> option string;
  marshal_claim : ClaimVMResponse -> option string;
  marshal_host : Host -> option string;
  marshal_host_status : HostStatus -> option string;
  marshal_removed : string -> option string
}.

(** What flintlock says of a network interface. *)
Class InterfaceStatus := {
  GetHostDeviceName : string -> string;
  GetIndex : string -> Z;
  GetMacAddress : string -> string
}.

Definition ln (s : string) : string := s +:+ String newline "".

(** A JSON array stitched together from its elements' texts. *)
Fixpoint json_elements {A} (marshal : A -> option string) (what : string) (first : bool)
    (l : list A) (buf : string) : result printError string :=
  match l with
  | [] => Ok buf
  | x :: l =>
      match marshal x with
      | None => Err (Marshal what)
      | Some b => json_elements marshal what false l (buf +:+ (if first then "" else ",") +:+ b)
      end
  end.
Definition json_array {A} (marshal : A -> option string) (what : string) (l : list A)
    : result printError string :=
  match json_elements marshal what true l "[" with
  | Ok buf => Ok (ln (buf +:+ "]"))
  | Err e => Err e
  end.
Definition json_object {A} (marshal : A -> option string) (what : string) (x : A)
    : result printError string :=
  match marshal x with None => Err (Marshal what) | Some b => Ok (ln b) end.

(** [switch format]. *)
Definition by_format (f : string) (json table : result printError string) : result printError string :=
  if decide (f = OutputJSON) then json
  else if decide (f = OutputTable \/ f = "") then table
  else Err (InvalidFormat f).

(** [hostTLSMode]; the getters of a nil message read its zero values. *)
Definition hostTLSMode (t : option HostTLS) : string :=
  match t with
  | None => ""
  | Some t =>
      if tls_insecure t then "insecure"
      else if decide (cert_file t <> "") then "mtls"
      else if decide (ca_file t <> "") then "tls" else ""
  end.

Definition hostVersion (v : string) : string := if decide (v = "") then "-" else v.

Definition pool_row (p : Pool) : list string :=
  [pool_name (p_spec p); pool_namespace (p_spec p); itoa (pool_size (p_spec p));
   itoa (AvailableCount (p_status p)); itoa (LeasedCount (p_status p));
   itoa (ProvisioningCount (p_status p)); itoa (QuarantinedCount (p_status p))].
Definition printPoolsTable (pools : list Pool) : string :=
  table (["NAME"; "NAMESPACE"; "SIZE"; "AVAILABLE"; "LEASED"; "PROVISIONING"; "QUARANTINED"]
    :: (pool_row <$> pools)).

Definition printPoolTable (pool : Pool) : string := printPoolsTable [pool].

Definition lease_row (l : LeaseRecord) : list string :=
  [lease_id l; lease_pool_name l; lease_pool_namespace l; lease_vm_uid l;
   formatTimestamp (lease_claimed_at l); formatTimestamp (lease_expires_at l); lease_request_id l].
Definition printLeasesTable (leases : list LeaseRecord) : string :=
  table (["LEASE_ID"; "POOL"; "NAMESPACE"; "VM_UID"; "CLAIMED_AT"; "EXPIRES_AT"; "REQUEST_ID"]
    :: (lease_row <$> leases)).

Definition host_row (h : Host) : list string :=
  [host_name h; host_address h; hostTLSMode (host_tls h); fmt_bool (host_cordoned h);
   fmt_bool (host_draining h)].
Definition printHostTable (h : Host) : string :=
  table [["NAME"; "ADDRESS"; "TLS"; "CORDONED"; "DRAINING"]; host_row h].

Definition host_status_row (hs : HostStatus) : list string :=
  host_row (hs_host hs) ++ [itoa (hs_vmCount hs); hostVersion (hs_flintlockVersion hs)].
Definition printHostStatusesTable (hosts : list HostStatus) : string :=
  table (["NAME"; "ADDRESS"; "TLS"; "CORDONED"; "DRAINING"; "VMS"; "VERSION"]
    :: (host_status_row <$> hosts)).

Section print.
Context `{OutputJSONCodec, InterfaceStatus}.

Definition printPoolsJSON (pools : list Pool) : result printError string :=
  json_array marshal_pool "pool" pools.
Definition printPoolJSON (pool : Pool) : result printError string :=
  json_object marshal_pool "pool" pool.
Definition printLeasesJSON (leases : list LeaseRecord) : result printError string :=
  json_array marshal_lease "lease" leases.
Definition printClaimJSON (resp : ClaimVMResponse) : result printError string :=
  json_object marshal_claim "claim response" resp.
Definition printHostJSON (h : Host) : result printError string := json_object marshal_host "host" h.
Definition printHostStatusesJSON (hosts : list HostStatus) : result printError string :=
  json_array marshal_host_status "host" hosts.

Definition printPools (pools : list Pool) (f : string) : result printError string :=
  by_format f (printPoolsJSON pools) (Ok (printPoolsTable pools)).
Definition printPool (pool : Pool) (f : string) : result printError string :=
  by_format f (printPoolJSON pool) (Ok (printPoolTable pool)).
Definition printLeases (leases : list LeaseRecord) (f : string) : result printError string :=
  by_format f (printLeasesJSON leases) (Ok (printLeasesTable leases)).

(** The interfaces by name, as the map iteration and [sort.Strings] leave them. *)
Definition iface_line (i : string * string) : string :=
  ln ("  " +:+ i.1 +:+ ": host_device=" +:+ GetHostDeviceName i.2 +:+ " index="
      +:+ itoa (GetIndex i.2) +:+ " mac=" +:+ GetMacAddress i.2).
Definition sorted_ifaces (l : list (string * string)) : list (string * string) :=
  sort_on String.le fst (map_to_list (list_to_map l : gmap string string)).
Definition printClaimTable (resp : ClaimVMResponse) : string :=
  table [["LEASE_ID"; resp_lease_id resp]; ["VM_UID"; resp_vm_uid resp];
         ["HOST"; resp_host_name resp +:+ " (" +:+ resp_host_address resp +:+ ")"]]
  +:+ match sorted_ifaces (resp_network_interfaces resp) with
      | [] => ""
      | l => ln "NETWORK_INTERFACES:" +:+ String.concat "" (iface_line <$> l)
      end.
Definition printClaim (resp : ClaimVMResponse) (f : string) : result printError string :=
  by_format f (printClaimJSON resp) (Ok (printClaimTable resp)).

Definition printHost (h : Host) (f : string) : result printError string :=
  by_format f (printHostJSON h) (Ok (printHostTable h)).
Definition printHostStatuses (hosts : list HostStatus) (f : string) : result printError string :=
  by_format f (printHostStatusesJSON hosts) (Ok (printHostStatusesTable hosts)).
Definition printHostStatus (hs : HostStatus) (f : string) : result printError string :=
  by_format f (json_object marshal_host_status "host" hs) (Ok (printHostStatusesTable [hs])).
Definition printHostRemoved (name f : string) : result printError string :=
  by_format f (json_object marshal_removed "host" name) (Ok (ln ("host " +:+ name +:+ " removed"))).
End print.
