(* ===== verification/OutputProps.v ===== *)
(** * The client's tables and timestamps

    [tables_align]: what [text/tabwriter] makes of a table is each cell padded to
    the width of its column.  [timestamp_roundtrip]: a printed time reads back to
    the second. *)

From stdpp Require Import base gmap strings list.
From Stdlib Require Import ZArith Lia.
From S2P Require Import Prelude Types Convert Store StoreOps Concrete Effects Flintlock Deletion.
From S2P Require Import Strategy Reconciler LeaseApi PoolAdmin HostAdmin Config Server Output.

(** ** Timestamps *)

(** The day, from 1970-01-01, of a year, month and day. *)
Definition days_of (y m d : Z) : Z :=
  let y' := (if m <=? 2 then y - 1 else y)%Z in
  let mp := (if m <=? 2 then m + 9 else m - 3)%Z in
  (365 * y' + y' / 4 - y' / 100 + y' / 400 + ((153 * mp + 2) / 5 + d - 1) - 719468)%Z.

(** The digit a character stands for, and the reader of an RFC 3339 time in UTC
    with whole seconds. *)
Definition digit_value (c : Ascii.ascii) : option Z :=
  if byte_in 48 57 c then Some (Z.of_nat (Ascii.nat_of_ascii c) - 48)%Z else None.

Definition read2 (s : string) : option (Z * string) :=
  match s with
  | String a (String b rest) =>
      x ← digit_value a; y ← digit_value b; Some (10 * x + y, rest)%Z
  | _ => None
  end.

Definition read_char (c : Ascii.ascii) (s : string) : option string :=
  match s with
  | String d rest => if decide (d = c) then Some rest else None
  | EmptyString => None
  end.

Definition parse_time (s : string) : option Z :=
  '(c, s) ← read2 s; '(y, s) ← read2 s; s ← read_char (byte 45) s;
  '(m, s) ← read2 s; s ← read_char (byte 45) s;
  '(d, s) ← read2 s; s ← read_char (byte 84) s;
  '(h, s) ← read2 s; s ← read_char (byte 58) s;
  '(n, s) ← read2 s; s ← read_char (byte 58) s;
  '(t, s) ← read2 s; s ← read_char (byte 90) s;
  if decide (s = "") then
    Some (86400 * days_of (100 * c + y) m d + 3600 * h + 60 * n + t)%Z
  else None.

Lemma read2_digits (n : Z) (rest : string) :
  (0 <= n < 100)%Z -> read2 (two_digits n rest) = Some (n, rest).
Proof.
  intros Hn.
  assert (Hd : forall k, (0 <= k < 10)%Z -> digit_value (decimal_digit k) = Some k).
  { intros k Hk.
    assert (Hc : (k = 0 \/ k = 1 \/ k = 2 \/ k = 3 \/ k = 4 \/ k = 5 \/ k = 6 \/ k = 7 \/ k = 8 \/ k = 9)%Z)
      by lia.
    repeat (destruct Hc as [-> | Hc]; [by vm_compute|]). by subst. }
  assert (0 <= n / 10 < 10 /\ 0 <= n mod 10 < 10)%Z as [H1 H2]
    by (split; Z.to_euclidean_division_equations; lia).
  unfold read2, two_digits. rewrite (Hd _ H1), (Hd _ H2). cbn [mbind option_bind]. do 2 f_equal.
  Z.to_euclidean_division_equations. lia.
Qed.

(** Reads the next two digits, or the next separator. *)
Ltac read_next :=
  first [ rewrite read2_digits by (Z.to_euclidean_division_equations; lia)
        | match goal with |- context [read_char ?c (char ?s ?r)] =>
            change (read_char c (char s r)) with (Some r) end ];
  cbn [mbind option_bind].

(** The year of the era that a day of an era falls in, and the day of that year. *)
Definition era_year (doe : Z) : Z :=
  ((doe - doe / 1460 + doe / 36524 - doe / 146096) / 365)%Z.
Definition year_day (doe : Z) : Z :=
  (doe - (365 * era_year doe + era_year doe / 4 - era_year doe / 100))%Z.

Lemma era_bounds (doe : Z) :
  (0 <= doe < 146097)%Z -> (0 <= era_year doe <= 399 /\ 0 <= year_day doe <= 365)%Z.
Proof.
  intros Hd. unfold year_day, era_year.
  Z.to_euclidean_division_equations. lia.
Qed.

(** The month that starts in March that a day of the year falls in. *)
Definition march_month (doy : Z) : Z := ((5 * doy + 2) / 153)%Z.

Lemma month_bounds (doy : Z) :
  (0 <= doy <= 365)%Z ->
  (0 <= march_month doy <= 11 /\ 1 <= doy - (153 * march_month doy + 2) / 5 + 1 <= 31)%Z.
Proof. intros Hd. unfold march_month. Z.to_euclidean_division_equations. lia. Qed.

(** A date from its era, its year in the era, its month from March and its day:
    its number, and where it lies for the years 0 to 9999. *)
Lemma date_spec (era yoe mp doy days : Z) :
  let m := (if mp <? 10 then mp + 3 else mp - 9)%Z in
  let y := ((if m <=? 2 then yoe + 1 else yoe) + 400 * era)%Z in
  let d := (doy - (153 * mp + 2) / 5 + 1)%Z in
  (0 <= yoe <= 399 -> 0 <= doy <= 365 -> mp = march_month doy ->
   days + 719468 = 146097 * era + (365 * yoe + yoe / 4 - yoe / 100 + doy) ->
   days_of y m d = days /\ 1 <= m <= 12 /\ 1 <= d <= 31 /\
   (-719528 <= days < 2932897 -> 0 <= y <= 9999))%Z.
Proof.
  cbv zeta. intros Hy Hdoy Hmp Hdays.
  pose proof (month_bounds doy Hdoy) as [Hm Hd]. rewrite <- Hmp in Hm, Hd.
  unfold march_month in Hmp. unfold days_of.
  destruct (Z.ltb_spec mp 10).
  - rewrite (proj2 (Z.leb_gt (mp + 3) 2)) by lia.
    replace (mp + 3 - 3)%Z with mp by lia.
    repeat split; try lia; Z.to_euclidean_division_equations; lia.
  - rewrite (proj2 (Z.leb_le (mp - 9) 2)) by lia.
    replace (mp - 9 + 9)%Z with mp by lia.
    replace (yoe + 1 + 400 * era - 1)%Z with (yoe + 400 * era)%Z by lia.
    repeat split; try lia; Z.to_euclidean_division_equations; lia.
Qed.

(** [civil] is a date, whose day is the one it was made from. *)
Lemma civil_spec (days : Z) :
  let '(y, m, d) := civil days in
  (days_of y m d = days /\ 1 <= m <= 12 /\ 1 <= d <= 31 /\
   (-719528 <= days < 2932897 -> 0 <= y <= 9999))%Z.
Proof.
  pose proof (Z.mod_pos_bound (days + 719468) 146097 eq_refl) as Hdoe.
  pose proof (Z.div_mod (days + 719468) 146097 ltac:(lia)) as Hz.
  pose proof (era_bounds _ Hdoe) as [Hy Hdoy].
  apply (date_spec ((days + 719468) / 146097) _ (march_month _) _ days Hy Hdoy eq_refl).
  unfold year_day. lia.
Qed.

(** A printed time is the second it was printed from: over the whole range
    of a protobuf timestamp (years 1 to 9999), reading [formatTimestamp]'s RFC 3339
    text back gives the timestamp without its nanoseconds. *)
Theorem timestamp_roundtrip (ts : Timestamp) :
  (-62135596800 * 1000000000 <= ts < 253402300800 * 1000000000)%Z ->
  parse_time (formatTimestamp (Some ts)) = Some (ts / 1000000000)%Z.
Proof.
  intros Hts. set (sec := (ts / 1000000000)%Z).
  assert (-62135596800 <= sec < 253402300800)%Z
    by (unfold sec; Z.to_euclidean_division_equations; lia).
  unfold formatTimestamp. fold sec. clearbody sec.
  pose proof (civil_spec (sec / 86400)) as Hc.
  destruct (civil (sec / 86400)) as [[y m] d]. destruct Hc as (Hdays & Hm & Hd & Hy).
  assert (0 <= y <= 9999)%Z by (apply Hy; Z.to_euclidean_division_equations; lia).
  unfold year_text. rewrite (proj2 (Z.leb_le 0 y)), (proj2 (Z.leb_le y 9999)) by lia.
  cbn [andb]. unfold parse_time.
  do 12 read_next. change (read_char (byte 90) "Z") with (Some "").
  cbn [mbind option_bind]. rewrite decide_True by done.
  replace (100 * (y / 100) + y mod 100)%Z with y by (Z.to_euclidean_division_equations; lia).
  rewrite Hdays. f_equal. Z.to_euclidean_division_equations. lia.
Qed.

Lemma timestamp_roundtrip_witness :
  parse_time (formatTimestamp (Some 1709210096123456789%Z)) = Some 1709210096%Z.
Proof. exact (timestamp_roundtrip 1709210096123456789 ltac:(lia)). Defined.

(** ** Tables *)

(** A cell of no character that ends a cell, a line or a table. *)
Fixpoint clean (s : string) : bool :=
  match s with
  | EmptyString => true
  | String c s =>
      negb (ends_cell c || is_char newline c || is_char formfeed c) && clean s
  end.

(** The width of column [j], and a row with all its cells but the last padded. *)
Definition width_of (j : nat) (rows : list (list string)) : nat :=
  foldr Nat.max 0 ((fun row => runes (default "" (row !! j)) + 2) <$> rows).

Fixpoint aligned_row (widths : list nat) (row : list string) : string :=
  match row, widths with
  | [], _ => ""
  | [cell], _ => cell
  | cell :: row, w :: widths => cell +:+ spaces (w - runes cell) +:+ aligned_row widths row
  | cell :: row, [] => cell +:+ aligned_row [] row
  end.

Definition aligned (rows : list (list string)) (n : nat) : string :=
  String.concat "" ((fun row =>
    aligned_row ((fun j => width_of j rows) <$> seq 0 (pred n)) row +:+ String newline "") <$> rows).

Lemma string_app_assoc (s t u : string) : (s +:+ t) +:+ u = s +:+ (t +:+ u).
Proof.
  induction s as [|c s IH]; [done|]. exact (f_equal (String c) IH).
Qed.

Lemma string_app_nil (s : string) : s +:+ "" = s.
Proof. induction s as [|c s IH]; [done|]. exact (f_equal (String c) IH). Qed.

Lemma concat_cons (s : string) (l : list string) :
  String.concat "" (s :: l) = s +:+ String.concat "" l.
Proof. destruct l; [|done]. by rewrite string_app_nil. Qed.

(** No character of [s] satisfies [P]. *)
Fixpoint avoids (P : Ascii.ascii -> bool) (s : string) : Prop :=
  match s with EmptyString => True | String c s => P c = false /\ avoids P s end.

Lemma avoids_app P s t : avoids P (s +:+ t) <-> avoids P s /\ avoids P t.
Proof.
  induction s as [|c s IH]; [change ("" +:+ t) with t; simpl; tauto|].
  change (String c s +:+ t) with (String c (s +:+ t)). simpl. rewrite IH. tauto.
Qed.

Lemma avoids_concat P sep l :
  avoids P sep -> Forall (avoids P) l -> avoids P (String.concat sep l).
Proof.
  intros Hsep. induction 1 as [|s l Hs Hl IH]; [done|].
  destruct l; [done|].
  change (avoids P (s +:+ sep +:+ String.concat sep (s0 :: l))). by rewrite !avoids_app.
Qed.

(** A text that ends where [sep] holds, in front of another one. *)
Lemma split_at_app sep c s t :
  avoids sep s -> sep c = true -> split_at sep (s +:+ String c t) = s :: split_at sep t.
Proof.
  intros Hs Hc. induction s as [|d s IH].
  - change ("" +:+ String c t) with (String c t). simpl. by rewrite Hc.
  - destruct Hs as [Hd Hs]. change (String d s +:+ String c t) with (String d (s +:+ String c t)).
    simpl. by rewrite Hd, (IH Hs).
Qed.

Lemma split_at_none sep s : avoids sep s -> split_at sep s = [s].
Proof.
  induction s as [|d s IH]; [done|]. intros [Hd Hs]. simpl. by rewrite Hd, (IH Hs).
Qed.

(** The cells of a line, and the lines of a text. *)
Lemma split_cells sep c cells :
  sep c = true -> cells <> [] -> Forall (avoids sep) cells ->
  split_at sep (String.concat (String c "") cells) = cells.
Proof.
  intros Hc Hne Hcl. induction Hcl as [|s l Hs Hl IH]; [done|].
  destruct l as [|s' l]; [by apply split_at_none|].
  change (String.concat (String c "") (s :: s' :: l))
    with (s +:+ String c (String.concat (String c "") (s' :: l))).
  by rewrite split_at_app, IH.
Qed.

Lemma split_lines sep c lines :
  sep c = true -> Forall (avoids sep) lines ->
  split_at sep (String.concat "" ((fun l => l +:+ String c "") <$> lines)) = lines ++ [""].
Proof.
  intros Hc. induction 1 as [|s l Hs Hl IH]; [done|].
  rewrite fmap_cons, concat_cons, string_app_assoc.
  match goal with |- context [String c "" +:+ ?t] =>
    change (String c "" +:+ t) with (String c t) end.
  rewrite split_at_app by done. by rewrite IH.
Qed.

(** Lines that agree are one run; a last line that does not is another. *)
Lemma runs_const {A} (P : A -> bool) b (l : list A) :
  l <> [] -> Forall (fun x => P x = b) l -> runs P l = [(b, l)].
Proof.
  intros Hne Hl. induction Hl as [|x l Hx Hl IH]; [done|]. simpl. rewrite Hx.
  destruct l as [|y l]; [done|]. by rewrite IH, eqb_reflx.
Qed.

Lemma runs_snoc {A} (P : A -> bool) (l : list A) x :
  l <> [] -> Forall (fun y => P y = true) l -> P x = false ->
  runs P (l ++ [x]) = [(true, l); (false, [x])].
Proof.
  intros Hne Hl Hx. induction Hl as [|y l Hy Hl IH]; [done|]. simpl. rewrite Hy.
  destruct l as [|z l]; [by simpl; rewrite Hx|]. by rewrite IH.
Qed.

Definition has_cells (n : nat) (rows : list (list string)) : Prop :=
  Forall (fun row => length row = n) rows.

Lemma in_column_const n j rows :
  has_cells n rows -> Forall (fun line => (j <? pred (length line)) = (j <? pred n)) rows.
Proof. intros Hn. eapply Forall_impl; [exact Hn|]. simpl. by intros row ->. Qed.

(** The rest of the columns of a block of lines of [n] cells. *)
Lemma format_block n rows fuel widths :
  rows <> [] -> has_cells n rows -> length widths < n -> n - length widths <= fuel ->
  format fuel widths rows =
  write_line (widths ++ ((fun j => column_width j rows) <$> seq (length widths) (pred n - length widths)))
    <$> rows.
Proof.
  intros Hne Hn. revert widths. induction fuel as [|fuel IH]; intros widths Hw Hf; [lia|].
  cbn [format]. pose proof (in_column_const n (length widths) rows Hn) as Hp.
  rewrite (runs_const _ _ rows Hne Hp).
  destruct (Nat.ltb_spec (length widths) (pred n)) as [Hlt | Hge].
  - simpl. rewrite app_nil_r, IH by (rewrite length_app; simpl; lia).
    rewrite length_app. simpl.
    replace (pred n - length widths) with (S (pred n - (length widths + 1))) by lia.
    simpl. replace (length widths + 1) with (S (length widths)) by lia.
    by rewrite <- (assoc_L (++)).
  - simpl. replace (pred n - length widths) with 0 by lia. simpl. by rewrite !app_nil_r.
Qed.

Lemma column_width_of j rows : column_width j rows = width_of j rows.
Proof. induction rows as [|row rows IH]; [done|]. unfold column_width, width_of in *. simpl. by rewrite IH. Qed.

(** A line whose cells but the last lie in known columns. *)
Lemma write_line_aligned widths row :
  length row = S (length widths) -> write_line widths row = aligned_row widths row.
Proof.
  revert widths. induction row as [|cell row IH]; intros widths Hl; [done|].
  destruct widths as [|w widths]; simpl in Hl.
  - destruct row; [done|]. done.
  - destruct row as [|cell' row]; [done|].
    cbn [write_line aligned_row]. unfold pad. rewrite string_app_assoc. do 2 f_equal.
    apply IH. simpl in *. lia.
Qed.

Lemma max_cells_le rows row : row ∈ rows -> length row <= max_cells rows.
Proof.
  induction rows as [|r rows IH]; [by intros ?%elem_of_nil|].
  intros [-> | Hin]%elem_of_cons; unfold max_cells in *; simpl; [lia|]. specialize (IH Hin). lia.
Qed.

(** The rows of a table and the empty line that follows the last line break. *)
Lemma format_table n rows :
  0 < n -> has_cells n rows ->
  format (max_cells (rows ++ [[""]])) [] (rows ++ [[""]]) =
  (aligned_row ((fun j => width_of j rows) <$> seq 0 (pred n)) <$> rows) ++ [""].
Proof.
  intros Hpos Hn. destruct (decide (rows = [])) as [-> | Hne]; [done|].
  assert (Hfuel : n <= max_cells (rows ++ [[""]])).
  { destruct rows as [|row rows]; [done|]. inversion Hn as [|?? Hrow ?]; subst.
    apply max_cells_le, elem_of_app. left. by left. }
  assert (Haligned : forall widths, length widths = pred n ->
    write_line widths <$> rows = aligned_row widths <$> rows).
  { intros widths Hw. apply list_fmap_ext. intros i row Hi.
    apply write_line_aligned. rewrite Hw, (Forall_lookup_1 _ _ _ _ Hn Hi). lia. }
  assert (Hwidths : (fun j => column_width j rows) <$> seq 0 (pred n)
    = (fun j => width_of j rows) <$> seq 0 (pred n))
    by (apply list_fmap_ext; intros; apply column_width_of).
  destruct (max_cells (rows ++ [[""]])) as [|fuel] eqn:Em; [lia|]. cbn [format].
  destruct (decide (1 < n)) as [Hbig | Hone].
  - rewrite runs_snoc; [|done| |done].
    2: { eapply Forall_impl; [exact (in_column_const n 0 rows Hn)|]. simpl.
         intros row ->. by apply Nat.ltb_lt; lia. }
    cbn [fmap list_fmap mjoin list_join]. rewrite app_nil_r.
    rewrite (format_block n) by (try done; simpl; lia).
    rewrite <- Haligned by (by rewrite length_fmap, length_seq).
    rewrite <- Hwidths. destruct n as [|[|k]]; [lia..|]. simpl. by rewrite Nat.sub_0_r.
  - assert (n = 1) as -> by lia.
    rewrite (runs_const _ false);
      [|by destruct rows|apply Forall_app; split; [|by repeat constructor]].
    + cbn [fmap list_fmap mjoin list_join]. rewrite app_nil_r.
      change (list_fmap (list string) string) with (@fmap list list_fmap (list string) string).
      by rewrite fmap_app, (Haligned []) by done.
    + exact (in_column_const 1 0 rows Hn).
Qed.

(** A clean cell holds no separator, so that a text of clean cells splits back. *)
Lemma clean_avoids s :
  clean s = true -> avoids ends_cell s /\ avoids (is_char newline) s /\ avoids (is_char formfeed) s.
Proof.
  induction s as [|c s IH]; [done|]. simpl.
  rewrite andb_true_iff, negb_true_iff, !orb_false_iff. naive_solver.
Qed.

Lemma concat_row_text rows :
  String.concat "" (row_text <$> rows) =
  String.concat "" ((fun l => l +:+ String newline "") <$> (String.concat (String tab "") <$> rows)).
Proof. rewrite <- list_fmap_compose. done. Qed.

Lemma concat_lines ls :
  String.concat (String newline "") (ls ++ [""]) =
  String.concat "" ((fun l => l +:+ String newline "") <$> ls).
Proof.
  induction ls as [|s ls IH]; [done|]. rewrite fmap_cons, concat_cons, <- IH.
  destruct ls; by rewrite string_app_assoc.
Qed.

(** The reference: a rectangular table of clean cells is printed with every cell
    but a row's last padded to its column. *)
Lemma table_aligned n rows :
  0 < n -> has_cells n rows -> Forall (Forall (fun cell => clean cell = true)) rows ->
  table rows = aligned rows n.
Proof.
  intros Hpos Hn Hclean. unfold table, tabwrite.
  set (lines := String.concat (String tab "") <$> rows).
  assert (Hl : Forall (fun l => avoids (is_char newline) l /\ avoids (is_char formfeed) l) lines).
  { unfold lines. apply Forall_fmap. eapply Forall_impl; [exact Hclean|]. simpl.
    intros row Hrow.
    split; (apply avoids_concat; [done|]; eapply Forall_impl; [exact Hrow|]);
      simpl; intros cell Hc; by apply clean_avoids in Hc as (? & ? & ?). }
  rewrite concat_row_text. fold lines.
  rewrite (split_at_none (is_char formfeed)).
  2: { apply avoids_concat; [done|]. apply Forall_fmap. eapply Forall_impl; [exact Hl|].
       intros l [_ Hff]. simpl. by apply avoids_app. }
  cbn [fmap list_fmap mjoin list_join]. rewrite app_nil_r.
  rewrite (split_lines (is_char newline));
    [|done|eapply Forall_impl; [exact Hl|]; by intros ? []].
  assert (Hcells : split_at ends_cell <$> (lines ++ [""]) = rows ++ [[""]]).
  { rewrite fmap_app. f_equal. unfold lines. rewrite <- list_fmap_compose.
    rewrite <- (list_fmap_id rows) at 2. apply list_fmap_ext. intros i row Hi. simpl.
    apply split_cells; [done| |].
    - intros ->. pose proof (Forall_lookup_1 _ _ _ _ Hn Hi) as Hz. simpl in Hz. lia.
    - eapply Forall_impl; [exact (Forall_lookup_1 _ _ _ _ Hclean Hi)|].
      intros cell Hc. by apply clean_avoids in Hc as (? & ? & ?). }
  change (list_fmap string (list string)) with (@fmap list list_fmap string (list string)).
  rewrite Hcells, (format_table n) by done.
  rewrite concat_lines. unfold aligned. by rewrite <- list_fmap_compose.
Qed.

(** Numbers, truth values, times and TLS modes are clean cells. *)
Lemma clean_app s t : clean (s +:+ t) = clean s && clean t.
Proof.
  induction s as [|c s IH]; [done|]. change (String c s +:+ t) with (String c (s +:+ t)).
  simpl. by rewrite IH, andb_assoc.
Qed.

Lemma clean_itoa z : clean (itoa z) = true.
Proof.
  assert (Hu : forall d, clean (DecimalString.NilEmpty.string_of_uint d) = true)
    by (induction d; [done|simpl; assumption..]).
  unfold itoa. destruct (Z.to_int z) as [d | d]; simpl; apply Hu.
Qed.

Lemma clean_two_digits n rest :
  (0 <= n < 100)%Z -> clean (two_digits n rest) = clean rest.
Proof.
  intros Hn. unfold two_digits.
  assert (Hd : forall k s, (0 <= k < 10)%Z -> clean (String (decimal_digit k) s) = clean s).
  { intros k s Hk.
    assert (Hc : (k = 0 \/ k = 1 \/ k = 2 \/ k = 3 \/ k = 4 \/ k = 5 \/ k = 6 \/ k = 7 \/ k = 8 \/ k = 9)%Z)
      by lia.
    repeat (destruct Hc as [-> | Hc]; [done|]). by subst. }
  rewrite !Hd; [done|Z.to_euclidean_division_equations; lia..].
Qed.

Lemma clean_year y rest : clean (year_text y rest) = clean rest.
Proof.
  unfold year_text.
  destruct (Z.leb_spec 0 y), (Z.leb_spec y 9999), (Z.ltb_spec y 0), (Z.ltb_spec y (-9999));
    cbn [andb]; try lia;
    try (change (clean (String (byte 45) ?s)) with (clean s));
    rewrite ?clean_app, ?clean_itoa, ?clean_two_digits;
    solve [done | Z.to_euclidean_division_equations; lia].
Qed.

Lemma clean_time ts : clean (formatTimestamp ts) = true.
Proof.
  destruct ts as [ts|]; [|done]. unfold formatTimestamp.
  generalize (ts / 1000000000)%Z. intros sec.
  pose proof (civil_spec (sec / 86400)) as Hc.
  destruct (civil (sec / 86400)) as [[y m] d]. destruct Hc as (_ & Hm & Hd & _).
  rewrite clean_year. unfold char.
  repeat (rewrite clean_app || (rewrite clean_two_digits by (Z.to_euclidean_division_equations; lia))).
  done.
Qed.

Lemma clean_tls t : clean (hostTLSMode t) = true.
Proof. unfold hostTLSMode. by repeat case_match. Qed.

Lemma clean_bool b : clean (fmt_bool b) = true.
Proof. by destruct b. Qed.

Lemma clean_version v : clean v = true -> clean (hostVersion v) = true.
Proof. unfold hostVersion. by case_decide. Qed.

Create HintDb cells.
#[export] Hint Resolve clean_itoa clean_time clean_tls clean_bool clean_version : cells.

Definition clean_pool (p : Pool) : Prop :=
  clean (pool_name (p_spec p)) = true /\ clean (pool_namespace (p_spec p)) = true.
Definition clean_lease (l : LeaseRecord) : Prop :=
  clean (lease_id l) = true /\ clean (lease_pool_name l) = true /\
  clean (lease_pool_namespace l) = true /\ clean (lease_vm_uid l) = true /\
  clean (lease_request_id l) = true.
Definition clean_host (hs : HostStatus) : Prop :=
  clean (host_name (hs_host hs)) = true /\ clean (host_address (hs_host hs)) = true /\
  clean (hs_flintlockVersion hs) = true.

(** A header and the rows under it. *)
Lemma listing_aligned {A} (clean_item : A -> Prop) (row : A -> list string) header n (l : list A) :
  0 < n -> length header = n -> Forall (fun cell => clean cell = true) header ->
  (forall x, length (row x) = n) ->
  (forall x, clean_item x -> Forall (fun cell => clean cell = true) (row x)) ->
  Forall clean_item l ->
  table (header :: (row <$> l)) = aligned (header :: (row <$> l)) n.
Proof.
  intros Hn Hh Hch Hlen Hrow Hl. apply table_aligned; [done| |].
  - constructor; [done|]. apply Forall_fmap, Forall_true. intros x. apply Hlen.
  - constructor; [done|]. apply Forall_fmap. eapply Forall_impl; [exact Hl|]. exact Hrow.
Qed.

Ltac listing clean_item :=
  intros Hl; unfold printPools, printLeases, printHostStatuses, by_format;
  cbn [decide OutputTable OutputJSON]; f_equal;
  apply (listing_aligned clean_item); try done; try lia;
  [repeat constructor|intros x Hx; unfold clean_item in Hx; repeat (constructor; [naive_solver eauto with cells|]); constructor].

(** The tables line up: [pool list], [lease list] and [host list] print every
    row of the listing, in order under the header, with each cell but the row's last
    padded to two more than the widest cell of its column, whatever the number of
    rows, as long as the names in it have no tab or line break. *)
Theorem tables_align `{OutputJSONCodec, InterfaceStatus}
    (pools : list Pool) (leases : list LeaseRecord) (hosts : list HostStatus) :
  (Forall clean_pool pools ->
   printPools pools OutputTable =
   Ok (aligned (["NAME"; "NAMESPACE"; "SIZE"; "AVAILABLE"; "LEASED"; "PROVISIONING"; "QUARANTINED"]
                  :: (pool_row <$> pools)) 7)) /\
  (Forall clean_lease leases ->
   printLeases leases OutputTable =
   Ok (aligned (["LEASE_ID"; "POOL"; "NAMESPACE"; "VM_UID"; "CLAIMED_AT"; "EXPIRES_AT"; "REQUEST_ID"]
                  :: (lease_row <$> leases)) 7)) /\
  (Forall clean_host hosts ->
   printHostStatuses hosts OutputTable =
   Ok (aligned (["NAME"; "ADDRESS"; "TLS"; "CORDONED"; "DRAINING"; "VMS"; "VERSION"]
                  :: (host_status_row <$> hosts)) 7)).
Proof. split_and!; [listing clean_pool|listing clean_lease|listing clean_host]. Qed.
