(* ===== verification/Cli.v ===== *)
(** * The command-line client: [src/internal/poolmgrctl], [src/cmd/poolmgrctl/main.go]

    Every subcommand of poolmgrctl from its parsed flags to its printed text or
    its error.  A command is a [prog]: its RPC runs the manager's handler behind
    the server's interceptors, and may fail on the way there or on the way back.
    Flag parsing is cobra's; a flag is [None] when it was not given.  Of an RPC's
    error the code is kept, not the message. *)

From stdpp Require Import base gmap strings list.
From Stdlib Require Import ZArith Lia.
From S2P Require Import Prelude Types Convert Store StoreOps Concrete Effects Flintlock Deletion.
From S2P Require Import Strategy Reconciler LeaseApi PoolAdmin HostAdmin EventsApi Config Server Daemon Output.

(** ** Dialling: [client.go] *)

Record connFlags := {
  cf_addr : string; cf_insecure : bool; cf_caFile : string; cf_certFile : string;
  cf_keyFile : string
}.

Definition defaultAddr : string := "127.0.0.1:9090".

(** Transport credentials: none, or TLS 1.2 and up with its roots and the
    client's certificate. *)
Inductive TransportCredentials :=
  | InsecureCredentials
  | NewTLS (RootCAs : list string) (Certificates : option string).

Inductive cliError :=
  | ErrNoTransport | ErrReadCA | ErrNoCACerts | ErrClientCert | ErrTarget
  | ErrReadSpec (path : string) | ErrParseSpec (path : string)
  | ErrTogether | ErrExactArgs | ErrRequired (flags : list string)
  | ErrStatus (text : string)
  | ErrPrint (e : printError).

(** [protojson.Unmarshal] into a PoolSpec, and the targets [grpc.NewClient] accepts. *)
Class CliEnv := {
  unmarshal_spec : string -> option PoolSpec;
  valid_target : string -> bool
}.

Section dial.
Context `{Files, CliEnv}.

Definition dialCredentials (cf : connFlags) : result cliError TransportCredentials :=
  if cf_insecure cf then Ok InsecureCredentials
  else if decide (cf_caFile cf = "") then Err ErrNoTransport
  else
    match ReadFile (cf_caFile cf) with
    | None => Err ErrReadCA
    | Some caPEM =>
        if decide (certs_of_PEM caPEM = []) then Err ErrNoCACerts
        else if decide (cf_certFile cf <> "") then
          match LoadX509KeyPair (cf_certFile cf) (cf_keyFile cf) with
          | None => Err ErrClientCert
          | Some cert => Ok (NewTLS (certs_of_PEM caPEM) (Some cert))
          end
        else Ok (NewTLS (certs_of_PEM caPEM) None)
    end.

(** [grpc.NewClient] connects lazily; it only checks the target. *)
Definition dial (cf : connFlags) : result cliError TransportCredentials :=
  match dialCredentials cf with
  | Err e => Err e
  | Ok creds => if valid_target (cf_addr cf) then Ok creds else Err ErrTarget
  end.

(** ** [loadPoolSpec] *)

Definition loadPoolSpec (path : string) : result cliError PoolSpec :=
  match ReadFile path with
  | None => Err (ErrReadSpec path)
  | Some data =>
      match unmarshal_spec data with
      | None => Err (ErrParseSpec path)
      | Some spec => Ok spec
      end
  end.
End dial.

(** ** Errors: [root.go] *)

(** [codes.Code.String]. *)
Definition code_String (c : code) : string :=
  match c with
  | Canceled => "Canceled" | Unknown => "Unknown" | InvalidArgument => "InvalidArgument"
  | DeadlineExceeded => "DeadlineExceeded" | NotFound => "NotFound"
  | AlreadyExists => "AlreadyExists" | PermissionDenied => "PermissionDenied"
  | ResourceExhausted => "ResourceExhausted" | FailedPrecondition => "FailedPrecondition"
  | Aborted => "Aborted" | OutOfRange => "OutOfRange" | Unimplemented => "Unimplemented"
  | Internal => "Internal" | Unavailable => "Unavailable" | DataLoss => "DataLoss"
  | Unauthenticated => "Unauthenticated"
  end.

Definition IsUpper (c : Ascii.ascii) : bool := byte_in 65 90 c.

(** [for i, r := range pascal], with [i > 0] once [first] is false. *)
Fixpoint snake (first : bool) (s : string) : string :=
  match s with
  | EmptyString => ""
  | String r s =>
      if negb first && IsUpper r then String (byte 95) (String (lower r) (snake false s))
      else String (lower r) (snake false s)
  end.
Definition snakeCaseCode (c : code) : string := snake true (code_String c).

(** The code of the status; an error of an RPC always has one. *)
Definition wrapGRPCErr (c : code) : cliError := ErrStatus (snakeCaseCode c).

Definition ExitCode {A} (r : result cliError A) : Z := match r with Ok _ => 0 | Err _ => 1 end.

(** ** Commands *)

Record hostSpecFlags := {
  hf_address : option string; hf_insecure : bool; hf_caFile : string; hf_certFile : string;
  hf_keyFile : string; hf_skipValidation : bool
}.

Definition flag (f : option string) : string := default "" f.
Definition output_flag (f : option string) : string := default OutputTable f.

(** [hostSpecFlags.host]. *)
Definition flags_host (f : hostSpecFlags) (name : string) : Host :=
  {| host_name := name; host_address := flag (hf_address f); host_cordoned := false;
     host_cordoned_reason := ""; host_cordoned_at := None; host_updated_at := None;
     host_tls := Some {| tls_insecure := hf_insecure f; ca_file := hf_caFile f;
                         cert_file := hf_certFile f; key_file := hf_keyFile f |};
     host_draining := false; host_draining_at := None |}.

(** A [cobra.Command] that has been given its flags: the check of its arguments, its
    required flags with what was given for them, and its action. *)
Record Command := {
  Args : result cliError ();
  Required : list (string * option string);
  RunE : prog (result cliError string)
}.

(** The required flags that were not given. *)
Definition missing (cmd : Command) : list string :=
  fst <$> filter (fun f => f.2 = None) (Required cmd).

(** [cobra.ExactArgs(1)], and no check. *)
Definition ExactArgs1 (args : list string) : result cliError () :=
  match args with [_] => Ok tt | _ => Err ErrExactArgs end.
Definition ArbitraryArgs : result cliError () := Ok tt.

Definition first_arg (args : list string) : string := default "" (head args).

(** *** Following events: [events.go] *)

(** [EventType.String]. *)
Definition event_String (e : EventType) : string :=
  match e with
  | EVENT_TYPE_UNSPECIFIED => "EVENT_TYPE_UNSPECIFIED" | VM_PROVISIONED => "VM_PROVISIONED"
  | VM_AVAILABLE => "VM_AVAILABLE" | VM_CLAIMED => "VM_CLAIMED" | VM_RELEASED => "VM_RELEASED"
  | VM_EXPIRING_SOON => "VM_EXPIRING_SOON"
  | VM_DELETED_DUE_TO_EXPIRY => "VM_DELETED_DUE_TO_EXPIRY"
  | VM_DELETED_ON_RELEASE => "VM_DELETED_ON_RELEASE" | VM_HOOK_FAILED => "VM_HOOK_FAILED"
  | POOL_REPLENISHING => "POOL_REPLENISHING"
  | POOL_SIZE_BELOW_TARGET => "POOL_SIZE_BELOW_TARGET"
  | VM_DELETED_ON_POOL_DELETE => "VM_DELETED_ON_POOL_DELETE"
  | VM_DELETED_ON_HOST_DRAIN => "VM_DELETED_ON_HOST_DRAIN"
  | e => itoa (event_code e)
  end.

Definition event_line (e : Event) : string :=
  ln (formatTimestamp (event_created_at e) +:+ " " +:+ event_String (event_type e) +:+ " "
      +:+ event_vm_uid e +:+ " " +:+ event_payload_json e).

(** How a stream ends: io.EOF, or an error, with whether the context was done. *)
Inductive streamEnd := EOF | RecvErr (c : code) (ctxDone : bool).

(** The events received before the end, one line each. *)
Fixpoint tailEvents (received : list Event) (e : streamEnd) (out : string)
    : string * result cliError () :=
  match received with
  | ev :: received => tailEvents received e (out +:+ event_line ev)
  | [] =>
      (out, match e with
            | EOF => Ok tt
            | RecvErr c ctxDone =>
                if ctxDone || bool_decide (c = Canceled) then Ok tt else Err (wrapGRPCErr c)
            end)
  end.

(** The request of [events tail]. *)
Definition tail_request (pool namespace : option string) : option PoolRef :=
  Some {| ref_name := flag pool; ref_namespace := flag namespace |}.

(** The events a streaming handler sends. *)
Definition sent_by {X : Set} (e : eff X) : X -> list Event :=
  match e in eff Y return Y -> list Event with
  | ESend ev => fun err => match err with None => [ev] | Some _ => [] end
  | _ => fun _ => []
  end.
Fixpoint streamed {A : Set} (p : prog A) (sent : list Event) : prog (A * list Event) :=
  match p in prog B return prog (B * list Event) with
  | Ret x => Ret (x, sent)
  | Do e k => Do e (fun x => streamed (k x) (sent ++ sent_by e x))
  | Fork c k => Fork c (streamed k sent)
  end.

Section commands.
Context `{Files, CliEnv, OutputJSONCodec, InterfaceStatus, Semver}.
Context (m : manager).

(** An RPC.  The call may fail before it reaches the manager; the manager may carry
    it out and the answer be lost.  The client sends no authorization, which is all
    the server reads of the metadata. *)
Definition invoke {A : Set} (handler : prog (result code A)) : prog (result code A) :=
  let! unsent := do ECtxErr in
  match unsent with
  | Some c => Ret (Err c)
  | None =>
      let! r := serve (mg_server m) (Some ∅) handler in
      let! lost := do ECtxErr in
      Ret (match lost with Some c => Err c | None => r end)
  end.

(** The RPC of a command and what is printed of its answer. *)
Definition call_rpc {A : Set} (handler : prog (result code A))
    (print : A -> result printError string) : prog (result cliError string) :=
  let! r := invoke handler in
  Ret match r with
      | Err c => Err (wrapGRPCErr c)
      | Ok x => match print x with Ok s => Ok s | Err e => Err (ErrPrint e) end
      end.

(** [format, err := parseOutputFormat(output)], first in an action. *)
Definition formatted (output : option string) (k : string -> prog (result cliError string))
    : prog (result cliError string) :=
  match parseOutputFormat (output_flag output) with
  | Err e => Ret (Err (ErrPrint e))
  | Ok f => k f
  end.

(** *** [pool.go] *)

(** The spec that [Args] leaves for the action: nil when the path is empty. *)
Definition load_if_given (specFile : option string) : result cliError (option PoolSpec) :=
  if decide (flag specFile = "") then Ok None
  else match loadPoolSpec (flag specFile) with Ok spec => Ok (Some spec) | Err e => Err e end.

Definition spec_args (specFile : option string) : result cliError () :=
  match load_if_given specFile with Ok _ => Ok tt | Err e => Err e end.

(** A nil spec in a request reads as an empty one. *)
Definition loaded_spec (specFile : option string) : PoolSpec :=
  match load_if_given specFile with Ok (Some spec) => spec | _ => empty_PoolSpec end.

Definition newPoolCreateCmd (specFile : option string) : Command :=
  {| Args := spec_args specFile;
     Required := [("spec-file", specFile)];
     RunE := call_rpc (PoolAdmin.CreatePool (loaded_spec specFile))
               (fun pool => printPool pool OutputTable) |}.

Definition newPoolUpdateCmd (specFile : option string) : Command :=
  {| Args := spec_args specFile;
     Required := [("spec-file", specFile)];
     RunE := call_rpc (PoolAdmin.UpdatePool (loaded_spec specFile))
               (fun pool => printPool pool OutputTable) |}.

Definition newPoolDeleteCmd (name namespace : option string) (force : bool) : Command :=
  {| Args := ArbitraryArgs;
     Required := [("name", name); ("namespace", namespace)];
     RunE := call_rpc (PoolAdmin.DeletePool true (flag name) (flag namespace) force)
               (fun _ => Ok (ln ("pool " +:+ flag namespace +:+ "/" +:+ flag name +:+ " deleted"))) |}.

Definition newPoolGetCmd (name namespace output : option string) : Command :=
  {| Args := ArbitraryArgs;
     Required := [("name", name); ("namespace", namespace)];
     RunE := formatted output (fun format =>
               call_rpc (PoolAdmin.GetPool (flag name) (flag namespace))
                 (fun pool => printPool pool format)) |}.

(** [req.Namespace] is set when the flag was given, whatever its value. *)
Definition newPoolListCmd (namespace output : option string) : Command :=
  {| Args := ArbitraryArgs;
     Required := [];
     RunE := formatted output (fun format =>
               call_rpc (PoolAdmin.ListPools namespace) (fun pools => printPools pools format)) |}.

(** *** [lease.go] *)

Definition claim_request (pool namespace requestID : option string) : ClaimVMRequest :=
  {| claim_pool := {| ref_name := flag pool; ref_namespace := flag namespace |};
     claim_request_id := flag requestID |}.

Definition newLeaseClaimCmd (pool namespace requestID output : option string) : Command :=
  {| Args := ArbitraryArgs;
     Required := [("pool", pool); ("namespace", namespace)];
     RunE := formatted output (fun format =>
               call_rpc (ClaimVM (mg_lease m) (claim_request pool namespace requestID))
                 (fun resp => printClaim resp format)) |}.

Definition newLeaseReleaseCmd (leaseID : option string) : Command :=
  {| Args := ArbitraryArgs;
     Required := [("lease-id", leaseID)];
     RunE := call_rpc (ReleaseVM (mg_lease m) (flag leaseID))
               (fun _ => Ok (ln ("lease " +:+ flag leaseID +:+ " released"))) |}.

Definition given (f : option string) : bool := bool_decide (f <> None).

(** [req.PoolRef]: set when --pool was given. *)
Definition list_ref (pool namespace : option string) : option PoolRef :=
  if given pool then Some {| ref_name := flag pool; ref_namespace := flag namespace |} else None.

Definition newLeaseListCmd (pool namespace output : option string) : Command :=
  {| Args := if Bool.eqb (given pool) (given namespace) then Ok tt else Err ErrTogether;
     Required := [];
     RunE := formatted output (fun format =>
               call_rpc (LeaseApi.ListLeases (list_ref pool namespace))
                 (fun leases => printLeases leases format)) |}.

(** *** [host.go] *)

(** A host command: one positional argument, the name, and an answer to print. *)
Definition host_command {A : Set} (args : list string) (req : list (string * option string))
    (output : option string) (handler : string -> prog (result code A))
    (print : A -> string -> result printError string) : Command :=
  {| Args := ExactArgs1 args;
     Required := req;
     RunE := formatted output (fun format =>
               call_rpc (handler (first_arg args)) (fun x => print x format)) |}.

Definition newHostDrainCmd (args : list string) (reason output : option string) : Command :=
  host_command args [] output
    (fun name => HostAdmin.DrainHost (mg_notifier m) name (flag reason)) printHost.

Definition newHostCordonCmd (args : list string) (reason output : option string) : Command :=
  host_command args [] output (fun name => CordonHost name (flag reason)) printHost.

Definition newHostUncordonCmd (args : list string) (output : option string) : Command :=
  host_command args [] output UncordonHost printHost.

Definition newHostListCmd (output : option string) : Command :=
  {| Args := ArbitraryArgs;
     Required := [];
     RunE := formatted output (fun format =>
               call_rpc HostAdmin.ListHosts (fun hosts => printHostStatuses hosts format)) |}.

(** [hostSpecFlags.register]: the flag it requires. *)
Definition register (f : hostSpecFlags) : list (string * option string) :=
  [("address", hf_address f)].

Definition newHostAddCmd (args : list string) (spec : hostSpecFlags) (output : option string)
    : Command :=
  host_command args (register spec) output
    (fun name => AddHost (flags_host spec name) (hf_skipValidation spec)) printHost.

Definition newHostUpdateCmd (args : list string) (spec : hostSpecFlags) (output : option string)
    : Command :=
  host_command args (register spec) output
    (fun name => HostAdmin.UpdateHost (flags_host spec name) (hf_skipValidation spec)) printHost.

Definition newHostRemoveCmd (args : list string) (output : option string) : Command :=
  host_command args [] output RemoveHost (fun _ => printHostRemoved (first_arg args)).

Definition newHostGetCmd (args : list string) (output : option string) : Command :=
  host_command args [] output HostAdmin.GetHost printHostStatus.

(** *** [events.go] *)

(** [events.Subscribe] and what [Recv] then returns: it may fail at once; the stream
    goes through the server's interceptors like any call; it ends with the status of
    the handler, or breaks off when some of the events have arrived. *)
Definition Subscribe_stream (ref : option PoolRef) : prog (result code (list Event * streamEnd)) :=
  let! unsent := do ECtxErr in
  match unsent with
  | Some c => Ret (Err c)
  | None =>
      let! r := serve (mg_server m) (Some ∅)
        (let! out := streamed (Subscribe (mg_events m) ref) [] in Ret (Ok out)) in
      let! arrived := do EBudget in
      let! broken := do ECtxErr in
      let! ctxErr := do ECtxErr in
      let ctxDone := match ctxErr with Some _ => true | None => false end in
      let '(status, events) := match r with Ok out => out | Err c => (Some c, []) end in
      Ret (Ok match broken with
              | Some c => (take arrived events, RecvErr c ctxDone)
              | None => (events, match status with Some c => RecvErr c ctxDone | None => EOF end)
              end)
  end.

(** What was printed before an error is [tailEvents]'s; here an error is all that is
    kept of such a run. *)
Definition newEventsTailCmd (pool namespace : option string) : Command :=
  {| Args := ArbitraryArgs;
     Required := [("pool", pool); ("namespace", namespace)];
     RunE :=
       let! stream := Subscribe_stream (tail_request pool namespace) in
       Ret match stream with
           | Err c => Err (wrapGRPCErr c)
           | Ok (received, e) =>
               match tailEvents received e "" with (out, Ok _) => Ok out | (_, Err err) => Err err end
           end |}.

(** *** [root.go] *)

(** The command tree below the root. *)
Inductive poolmgrctl : Command -> Prop :=
  | pool_create f : poolmgrctl (newPoolCreateCmd f)
  | pool_update f : poolmgrctl (newPoolUpdateCmd f)
  | pool_delete n ns force : poolmgrctl (newPoolDeleteCmd n ns force)
  | pool_get n ns o : poolmgrctl (newPoolGetCmd n ns o)
  | pool_list ns o : poolmgrctl (newPoolListCmd ns o)
  | lease_claim p ns rid o : poolmgrctl (newLeaseClaimCmd p ns rid o)
  | lease_release l : poolmgrctl (newLeaseReleaseCmd l)
  | lease_list p ns o : poolmgrctl (newLeaseListCmd p ns o)
  | host_drain a r o : poolmgrctl (newHostDrainCmd a r o)
  | host_cordon a r o : poolmgrctl (newHostCordonCmd a r o)
  | host_uncordon a o : poolmgrctl (newHostUncordonCmd a o)
  | host_list o : poolmgrctl (newHostListCmd o)
  | host_add a f o : poolmgrctl (newHostAddCmd a f o)
  | host_update a f o : poolmgrctl (newHostUpdateCmd a f o)
  | host_remove a o : poolmgrctl (newHostRemoveCmd a o)
  | host_get a o : poolmgrctl (newHostGetCmd a o)
  | events_tail p ns : poolmgrctl (newEventsTailCmd p ns).

(** [ExecuteContext]: cobra runs [Args], then the root's [PersistentPreRunE], which
    dials, then checks the required flags, then [RunE]; [PersistentPostRunE] closes
    the connection. *)
Definition execute (cf : connFlags) (cmd : Command) : prog (result cliError string) :=
  match Args cmd with
  | Err e => Ret (Err e)
  | Ok _ =>
      match dial cf with
      | Err e => Ret (Err e)
      | Ok _ =>
          if decide (missing cmd <> []) then Ret (Err (ErrRequired (missing cmd))) else RunE cmd
      end
  end.
End commands.
