(* ===== verification/CliProps.v ===== *)
(** * poolmgrctl against the manager

    The client's commands run through the server's interceptors into the handlers:
    retrying a claim, what a failing command has done, and a manager that asks for a
    token. *)

From stdpp Require Import base gmap strings list.
From Stdlib Require Import ZArith Lia.
From S2P Require Import Prelude Types Convert Store StoreOps Concrete StoreProps Effects.
From S2P Require Import Flintlock ConcreteEnv Deletion Strategy Provision Reconciler Sweeper.
From S2P Require Import LeaseApi PoolAdmin HostAdmin EventsApi Protocols Quiet OneVM LeaseProps.
From S2P Require Import EventsProps Config Server Daemon Output OutputProps Cli.

Section cli.
Context `{Codec, Sqlite, Files, CliEnv, OutputJSONCodec, InterfaceStatus, Semver}.

(** ** An RPC *)

(** What the client is told is the handler's answer, or an error whatever the
    handler did, if it ran at all. *)
Lemma wp_invoke faults m {A : Set} (handler : prog (result code A)) Q w :
  (forall w1, same_state w w1 ->
     wp faults handler (fun r w2 => forall w3, same_state w2 w3 ->
       Q r w3 /\ forall c, Q (Err c) w3) w1) ->
  (forall c w1, same_state w w1 -> Q (Err c) w1) ->
  wp faults (invoke m handler) Q w.
Proof.
  intros Hrun Herr. unfold invoke. apply wp_bind. intros unsent w1 ->.
  destruct unsent as [c|]; [cbn [wp]; apply Herr, same_state_tick|].
  assert (forall w2 r, same_state w w2 -> wp faults
    (let! lost := do ECtxErr in Ret match lost with Some c => Err c | None => @Err code A r end)
    Q w2) as Hlost.
  { intros w2 r Hs. apply wp_bind. intros lost w3 ->. cbn [wp].
    destruct lost; apply Herr; (eapply same_state_trans; [exact Hs|apply same_state_tick]). }
  apply wp_bind. unfold serve, logging. apply wp_bind. intros t w2 ->.
  pose proof (same_state_trans _ _ _ (same_state_tick w) (same_state_tick _)) as H12.
  assert (wp faults handler (fun r w2 => wp faults (then! now in Ret r) (fun r w3 =>
    wp faults (let! lost := do ECtxErr in Ret match lost with Some c => Err c | None => r end) Q w3) w2)
    (logged [] (logged [] w))) as Hh.
  { eapply wp_mono; [|apply Hrun, H12]. intros r w3 Hr. apply wp_bind. intros t' w4 ->. cbn [wp].
    apply wp_bind. intros lost w5 ->. cbn [wp].
    destruct (Hr (logged [] (logged [] w3))) as [Hok He];
      [apply (same_state_trans _ _ _ (same_state_tick w3) (same_state_tick _))|].
    by destruct lost. }
  apply wp_bind. destruct (srv_auth (mg_server m)) as [token|]; [|exact Hh].
  unfold basicAuth. destruct (check token (Some ∅)); [|exact Hh]. cbn [wp].
  apply wp_bind. intros t' w4 ->. cbn [wp]. apply Hlost.
  apply (same_state_trans _ _ _ H12 (same_state_tick _)).
Qed.

(** ** Retrying a claim *)

(** The leases stored under a request id. *)
Definition lease_of (rid : string) (db : DB) (id : string) : Prop :=
  exists l, leases db !! id = Some l /\ lr_requestID l = Some rid.

(** The text a claim prints for a lease. *)
Definition prints_lease (output : option string) (out id : string) : Prop :=
  exists resp, printClaim resp (output_flag output) = Ok out /\ resp_lease_id resp = id.

Definition claim_cmd (m : manager) (p ns rid : string) (o : option string) : Command :=
  newLeaseClaimCmd m (Some p) (Some ns) (Some rid) o.

(** Every way a claim command ends: the handler's result, which the client may or
    may not get to see. *)
Lemma wp_claim_cmd m cf p ns rid o w :
  db_wf (w_db w) ->
  wp true (execute cf (claim_cmd m p ns rid o)) (fun r w' => exists r0,
    claim_result true (claim_request (Some p) (Some ns) (Some rid)) (w_db w) r0 (w_db w') /\
    (forall out, r = Ok out -> exists resp, r0 = Ok resp /\
       printClaim resp (output_flag o) = Ok out)) w.
Proof.
  intros W.
  assert (forall db, claim_result true (claim_request (Some p) (Some ns) (Some rid)) db (Err Internal) db)
    as Hnone by (intros db; split_and!; [by left|done..]).
  unfold execute, claim_cmd, newLeaseClaimCmd. cbn [Args ArbitraryArgs].
  destruct (dial cf) as [creds|e]; [|cbn [wp]; exists (Err Internal); by split].
  change (missing _) with (@nil string). rewrite decide_False by auto. cbn [RunE].
  unfold formatted. destruct (parseOutputFormat (output_flag o)) as [f|e] eqn:Ef;
    [|cbn [wp]; exists (Err Internal); by split].
  assert (f = output_flag o) as -> by (unfold parseOutputFormat in Ef; by case_decide; simplify_eq).
  unfold call_rpc. apply wp_bind, wp_invoke.
  - intros w1 (Hdb & _). eapply wp_mono; [|apply wp_ClaimVM; by rewrite Hdb].
    rewrite Hdb. intros r w2 Hr w3 (Hdb3 & _). split; [|intros c]; cbn [wp]; exists r;
      rewrite Hdb3; (split; [done|]); intros out; [|done].
    destruct r as [resp|c]; [|done]. destruct (printClaim resp (output_flag o)) as [s|] eqn:Ep; [|done].
    intros [= <-]. eauto.
  - intros c w1 (Hdb & _). cbn [wp]. exists (Err Internal). rewrite Hdb. by split.
Qed.

(** One claim: at most one lease under its request id afterwards, which is the one
    it prints; and if there was one before, no lease changed. *)
Lemma claim_result_leases req db r db' :
  db_wf db -> claim_request_id req <> "" -> claim_result true req db r db' ->
  (forall id id', lease_of (claim_request_id req) db' id -> lease_of (claim_request_id req) db' id' -> id = id') /\
  (forall id, lease_of (claim_request_id req) db id -> leases db' = leases db) /\
  (forall resp, r = Ok resp -> lease_of (claim_request_id req) db' (resp_lease_id resp)).
Proof.
  intros W Hne Hc.
  assert (forall id id', lease_of (claim_request_id req) db id ->
    lease_of (claim_request_id req) db id' -> id = id') as Huniq.
  { intros id id' (l & Hl & Hr) (l' & Hl' & Hr'). eapply (wf_request_ids _ W); eauto. }
  assert (leases db' = leases db -> forall id id', lease_of (claim_request_id req) db' id ->
    lease_of (claim_request_id req) db' id' -> id = id') as Hsame
    by (intros E; unfold lease_of; rewrite E; apply Huniq).
  unfold claim_result in Hc. destruct r as [resp|c].
  - destruct Hc as [(_ & Hs & l & v & Hl & Hr & _)|(Hunused & _ & (l & Hnone & El & _ & _ & _ & Hr) & _)].
    + pose proof (same_leases _ _ Hs) as El. split_and!; [auto|auto|].
      intros resp' [= <-]. exists l. by rewrite El.
    + assert (forall id, ~ lease_of (claim_request_id req) db id) as Hno.
      { intros id (l0 & Hl0 & Hr0). apply Hunused. split; [done|]. eauto. }
      assert (forall id, lease_of (claim_request_id req) db' id -> id = resp_lease_id resp) as Hnew.
      { intros id (l0 & Hl0 & Hr0). rewrite El in Hl0.
        destruct (decide (id = resp_lease_id resp)) as [|Hid]; [done|].
        rewrite lookup_insert_ne in Hl0 by done. destruct (Hno id). by exists l0. }
      split_and!.
      * intros id id' Hi Hi'. by rewrite (Hnew _ Hi), (Hnew _ Hi').
      * intros id Hi. by destruct (Hno id).
      * intros resp' [= <-]. exists l. rewrite El, lookup_insert_eq. split; [done|].
        rewrite Hr. unfold NullString. by rewrite decide_False.
  - destruct Hc as ([Hs|(uid & r & _ & _ & Ho & _)] & _).
    + pose proof (same_leases _ _ Hs) as El. by split_and!; [auto|auto|].
    + destruct Ho as [_ El _ _ _]. by split_and!; [auto|auto|].
Qed.

(** C26: Claiming is safe to retry.  However [lease claim] with a request id ends,
    lost answers and failed store calls included, at most one lease is stored under
    the id, and if the command succeeded that lease is the one it printed.  And run
    again at any later time at which that lease is still there, the command changes
    no lease, and when it succeeds it prints the same lease. *)
Theorem claim_retry_safe m cf p ns rid o w :
  db_wf (w_db w) -> rid <> "" ->
  wp true (execute cf (claim_cmd m p ns rid o)) (fun r1 w1 =>
    (forall id id', lease_of rid (w_db w1) id -> lease_of rid (w_db w1) id' -> id = id') /\
    (forall out, r1 = Ok out -> exists id, lease_of rid (w_db w1) id /\ prints_lease o out id) /\
    forall id w2, lease_of rid (w_db w1) id -> lease_of rid (w_db w2) id -> db_wf (w_db w2) ->
      wp true (execute cf (claim_cmd m p ns rid o)) (fun r2 w3 =>
        leases (w_db w3) = leases (w_db w2) /\
        forall out, r2 = Ok out -> prints_lease o out id) w2) w.
Proof.
  intros W Hne. eapply wp_mono; [|by apply wp_claim_cmd].
  intros r1 w1 (r0 & Hres & Hout). apply claim_result_leases in Hres as (Huniq & _ & Hlease); [|done..].
  split_and!; [exact Huniq| |].
  - intros out Hr. apply Hout in Hr as (resp & -> & Hp). exists (resp_lease_id resp).
    split; [by apply Hlease|by exists resp].
  - intros id w2 _ Hid W2. eapply wp_mono; [|by apply wp_claim_cmd].
    intros r2 w3 (r0' & Hres & Hout2). apply claim_result_leases in Hres as (Huniq3 & Hkeep & Hlease3); [|done..].
    specialize (Hkeep id Hid). split; [done|]. intros out Hr. apply Hout2 in Hr as (resp & -> & Hp).
    exists resp. split; [done|]. apply (Huniq3 _ id); [by apply Hlease3|].
    destruct Hid as (l & Hl & Hr). exists l. by rewrite Hkeep.
Qed.

(** ** What a failed command has done *)

(** An error that can follow an RPC: the RPC's own, or that of encoding the answer. *)
Definition after_rpc (e : cliError) : Prop :=
  match e with ErrStatus _ | ErrPrint (Marshal _) => True | _ => False end.

(** Printing in a format that was accepted fails only in encoding. *)
Definition prints {A} (print : A -> result printError string) : Prop :=
  forall x, match print x with Err (InvalidFormat _) => False | _ => True end.

Lemma by_format_prints f json table :
  is_Ok (parseOutputFormat f) = true -> prints (fun _ : () => json) -> prints (fun _ : () => table) ->
  match by_format f json table with Err (InvalidFormat _) => False | _ => True end.
Proof.
  unfold parseOutputFormat, by_format. intros Hf Hj Ht. case_decide as Hd; [|done].
  destruct Hd as [-> | ->]; [exact (Ht tt)|exact (Hj tt)].
Qed.

Lemma json_object_prints {A} marshal what (x : A) :
  match json_object marshal what x with Err (InvalidFormat _) => False | _ => True end.
Proof. unfold json_object. by destruct (marshal x). Qed.

Lemma json_array_prints {A} marshal what (l : list A) :
  match json_array marshal what l with Err (InvalidFormat _) => False | _ => True end.
Proof.
  unfold json_array.
  assert (Hall : forall first buf, match json_elements marshal what first l buf with
    | Err (InvalidFormat _) => False | _ => True end).
  { induction l as [|x l IH]; intros first buf; [done|]. simpl. destruct (marshal x); [apply IH|done]. }
  specialize (Hall true "["). by destruct (json_elements _ _ _ _ _).
Qed.

Lemma wp_ends faults {A : Set} (p : prog A) w : wp faults p (fun _ _ => True) w.
Proof.
  revert w. induction p as [A x|A X e k IH|A c IHc k IHk]; intros w; simpl; [done|auto|].
  eapply wp_mono; [|apply IHc]. intros [] w' _. apply IHk.
Qed.

(** A command either stops before its RPC, or is one RPC and its printing. *)
Lemma wp_call_rpc m {A : Set} (handler : prog (result code A)) print w :
  prints print ->
  wp true (call_rpc m handler print)
    (fun r _ => match r with Ok _ => True | Err e => after_rpc e end) w.
Proof.
  intros Hp. unfold call_rpc. apply wp_bind, wp_invoke; [|done]. intros w1 _.
  eapply wp_mono with (Q := fun _ _ => True).
  - intros r w2 _ w3 _. split; [|done]. cbn [wp]. destruct r as [x|c]; [|done].
    specialize (Hp x). by destruct (print x) as [|[]].
  - apply wp_ends.
Qed.

Definition only_after_rpc (w : world) (r : result cliError string) (w' : world) : Prop :=
  match r with Ok _ => True | Err e => after_rpc e \/ same_state w w' end.

Lemma same_state_refl w : same_state w w.
Proof. done. Qed.

Lemma wp_call_only m {A : Set} (handler : prog (result code A)) print w :
  prints print -> wp true (call_rpc m handler print) (only_after_rpc w) w.
Proof.
  intros Hp. eapply wp_mono; [|by apply wp_call_rpc]. intros [|e] w' He; [done|by left].
Qed.

Lemma wp_formatted m {A : Set} o (handler : prog (result code A)) print w :
  (forall f, is_Ok (parseOutputFormat f) = true -> prints (fun x => print x f)) ->
  wp true (formatted o (fun f => call_rpc m handler (fun x => print x f))) (only_after_rpc w) w.
Proof.
  intros Hp. unfold formatted. destruct (parseOutputFormat (output_flag o)) as [f|e] eqn:Ef;
    [|by right]. apply wp_call_only, Hp.
  unfold parseOutputFormat in *. case_decide as Hd; [|done]. injection Ef as <-. by rewrite decide_True.
Qed.

Ltac printing :=
  intros ? ? ?; apply by_format_prints; try done; intros ?;
  first [apply json_object_prints | apply json_array_prints].

Lemma wp_tail m p n w : wp true (RunE (newEventsTailCmd m p n)) (only_after_rpc w) w.
Proof.
  cbn [RunE newEventsTailCmd]. apply wp_bind. eapply wp_mono; [|apply wp_ends].
  intros [[received e]|c] w' _; cbn [wp]; [|by left].
  assert (forall out, match (tailEvents received e out).2 with Ok _ => True | Err err => after_rpc err end) as Ht.
  { induction received as [|ev received IH]; intros out; [|apply IH]. simpl. destruct e as [|c []]; try done.
    cbn; by case_bool_decide. }
  specialize (Ht ""). destruct (tailEvents received e "") as [out [|err]]; [done|by left].
Qed.

(** The action of a command whose arguments are in order. *)
Lemma wp_action m cmd w : poolmgrctl m cmd -> wp true (RunE cmd) (only_after_rpc w) w.
Proof.
  destruct 1; try apply wp_tail; cbn [RunE newPoolCreateCmd newPoolUpdateCmd newPoolDeleteCmd newPoolGetCmd newPoolListCmd
    newLeaseClaimCmd newLeaseReleaseCmd newLeaseListCmd newHostListCmd].
  1, 2: apply wp_call_only; intros x; apply by_format_prints; [done|intros ?; apply json_object_prints|done].
  1: by apply wp_call_only.
  4: by apply wp_call_only.
  all: apply wp_formatted; printing.
Qed.

(** A command that fails for a reason of its own has done nothing.  Whatever the
    command, if it ends in an error other than the status of its RPC or a failure to
    encode the answer as JSON (an unreadable spec file, a flag missing or out of
    place, an unknown output format, no usable TLS set-up), then no RPC was made: the
    manager's database, locks and connections are as they were. *)
Theorem failed_before_sending m cf cmd w :
  poolmgrctl m cmd ->
  wp true (execute cf cmd)
    (fun r w' => match r with Ok _ => True | Err e => after_rpc e \/ same_state w w' end) w.
Proof.
  intros Hc. unfold execute. destruct (Args cmd) as [[]|e]; [|by right].
  destruct (dial cf) as [creds|e]; [|by right].
  case_decide; [by right|]. by apply wp_action with (m := m).
Qed.

(** ** A manager with a token *)

Lemma locked_out m {A : Set} token (handler : prog (result code A)) print w :
  srv_auth (mg_server m) = Some token ->
  wp true (call_rpc m handler print) (fun r w' => (exists e, r = Err e) /\ same_state w w') w.
Proof.
  intros Ha. unfold call_rpc, invoke, serve, logging. rewrite Ha. apply wp_bind, wp_bind.
  intros [c|] w1 ->; cbn [wp]; [split; [eauto|apply same_state_tick]|].
  apply wp_bind, wp_bind. intros t w2 ->.
  unfold basicAuth. change (check token (Some ∅)) with (Some errMissingAuth). apply wp_bind. cbn [wp].
  apply wp_bind. intros t' w3 ->. cbn [wp]. apply wp_bind. intros lost w4 ->. cbn [wp].
  split; [destruct lost; eauto|]. do 3 (eapply same_state_trans; [apply same_state_tick|]).
  apply same_state_tick.
Qed.

Lemma tail_locked_out m p n token w :
  srv_auth (mg_server m) = Some token ->
  wp true (RunE (newEventsTailCmd m p n)) (fun r w' =>
    (forall out, r = Ok out -> out = "") /\ same_state w w') w.
Proof.
  intros Ha. cbn [RunE newEventsTailCmd]. unfold Subscribe_stream, serve, logging. rewrite Ha.
  apply wp_bind, wp_bind. intros [c|] w1 ->; cbn [wp]; [split; [done|apply same_state_tick]|].
  apply wp_bind, wp_bind. intros t w2 ->.
  unfold basicAuth. change (check token (Some ∅)) with (Some errMissingAuth). apply wp_bind. cbn [wp].
  apply wp_bind. intros t' w3 ->. cbn [wp]. apply wp_bind. intros arrived w4 ->. cbn [wp].
  apply wp_bind. intros broken w5 ->. cbn [wp]. apply wp_bind. intros ctxErr w6 ->. cbn [wp].
  split; [|do 5 (eapply same_state_trans; [apply same_state_tick|]); apply same_state_tick].
  intros out. rewrite take_nil. destruct broken as [c|], ctxErr as [c'|]; cbn; try case_bool_decide; by intros [= <-].
Qed.

(** C40: poolmgrctl cannot talk to a manager that has a token configured: whatever
    the command and its flags, it changes nothing and prints nothing of an answer, and
    it ends in an error.  Only [events tail], for which being interrupted is a normal
    end, can end without one, having printed nothing. *)
Theorem token_locks_poolmgrctl_out cfg m cf cmd w :
  buildGRPCServer cfg = Ok m -> BasicAuthToken cfg <> "" -> poolmgrctl m cmd ->
  wp true (execute cf cmd) (fun r w' =>
    (forall out, r = Ok out -> out = "" /\ exists p n, cmd = newEventsTailCmd m p n) /\ same_state w w') w.
Proof.
  intros Hn Ht Hc. assert (srv_auth (mg_server m) = Some (BasicAuthToken cfg)) as Ha.
  { unfold buildGRPCServer in Hn. destruct (New cfg) as [srv|] eqn:En; [|done].
    injection Hn as <-. by apply New_auth. }
  assert (forall e : cliError, (forall out, @Err cliError string e = Ok out -> out = "" /\
    exists p n, cmd = newEventsTailCmd m p n) /\ same_state w w) as Hstop
    by (split; [done|apply same_state_refl]).
  unfold execute. destruct (Args cmd) as [[]|e]; [|apply Hstop].
  destruct (dial cf) as [creds|e]; [|apply Hstop].
  case_decide; [apply Hstop|].
  destruct Hc; try (eapply wp_mono; [|by apply (tail_locked_out _ _ _ _ _ Ha)];
    intros r w' [Ho Hs]; split; [intros out E; split; [by apply Ho|by eauto]|done]);
    cbn -[wp formatted call_rpc parseOutputFormat newEventsTailCmd]; unfold formatted;
    try (case_match; [|apply Hstop]);
    (eapply wp_mono; [|by eapply locked_out]); intros res w' [[e' ->] Hs]; by split.
Qed.

(** ** Following events *)

Lemma tailEvents_text received e out :
  (tailEvents received e out).1 = out +:+ String.concat "" (event_line <$> received).
Proof.
  revert out. induction received as [|ev received IH]; intros out; [by rewrite string_app_nil|].
  simpl tailEvents. by rewrite IH, fmap_cons, concat_cons, string_app_assoc.
Qed.

Lemma prefix_of_fmap {A B} (f : A -> B) l l' :
  l' `prefix_of` (f <$> l) -> exists shown rest, l = shown ++ rest /\ l' = f <$> shown.
Proof.
  intros [k Hk]. exists (take (length l') l), (drop (length l') l).
  rewrite take_drop. split; [done|]. by rewrite fmap_take, Hk, take_app_length.
Qed.

(** [events tail] shows the pool's events in order.  While the rest of the process
    goes on appending events, what the client has printed of the events it has received
    so far is one line each of the first events of the pool in the outbox, in the order
    of their ids: none twice, none skipped. *)
Theorem tail_prints_outbox faults s p n rounds e w :
  let ref := tail_request (Some p) (Some n) in
  (0 < batchSize s)%Z -> events_ok (events (w_db w)) (events_seq (w_db w)) ->
  wp_rely appends faults (subscribe s ref 0 rounds) (fun _ w' =>
    forall received, (Sent <$> received) `prefix_of` drop (length (w_log w)) (w_log w') ->
    exists shown rest, matching ref w' = shown ++ rest /\
      (tailEvents received e "").1 =
      String.concat "" ((fun r => event_line (rowToEvent r)) <$> shown)) w.
Proof.
  intros ref Hb Hok. eapply wp_rely_mono; [|by apply wp_rely_subscribe].
  intros out w' (done & rest & Hm & Hlog & _) received Hpre.
  rewrite Hlog, drop_app_length in Hpre.
  apply prefix_of_fmap in Hpre as (shown & more & -> & Hsent).
  exists shown, (more ++ rest). split; [by rewrite Hm, <- app_assoc|].
  assert (received = rowToEvent <$> shown) as ->.
  { apply (f_equal (omap (fun a => match a with Sent ev => Some ev | _ => None end))) in Hsent.
    revert Hsent. clear. revert shown. induction received as [|ev received IH]; intros [|r shown] E;
      simpl in E; [done..|]. injection E as -> E. simpl. f_equal. by apply IH. }
  rewrite tailEvents_text. by rewrite <- list_fmap_compose.
Qed.
End cli.

(** ** Witnesses *)

#[export] Instance cli0 : CliEnv := {|
  unmarshal_spec := fun s => if decide (s = "{}") then Some empty_PoolSpec else None;
  valid_target := fun _ => true
|}.
#[export] Instance output_json0 : OutputJSONCodec := {|
  marshal_pool := fun _ => Some "{}"; marshal_lease := fun _ => Some "{}";
  marshal_claim := fun _ => Some "{}"; marshal_host := fun _ => Some "{}";
  marshal_host_status := fun _ => Some "{}"; marshal_removed := fun _ => None
|}.
#[export] Instance iface0 : InterfaceStatus := {|
  GetHostDeviceName := fun s => s; GetIndex := fun _ => 1%Z; GetMacAddress := fun s => s
|}.

Definition conn0 : connFlags :=
  {| cf_addr := defaultAddr; cf_insecure := true; cf_caFile := ""; cf_certFile := ""; cf_keyFile := "" |}.

(** A manager without a token, and one with the token of [apiServer0]. *)
Definition open_manager : manager :=
  {| mg_server := {| srv_creds := None; srv_auth := None |};
     mg_lease := NewLeaseServer 0 0 ManagerNotifier; mg_events := NewEventsServer 0 0;
     mg_notifier := ManagerNotifier |}.
Definition closed_manager : manager :=
  {| mg_server := Server.server0; mg_lease := NewLeaseServer 0 0 ManagerNotifier;
     mg_events := NewEventsServer 0 0; mg_notifier := ManagerNotifier |}.

Definition claim1 : Command := claim_cmd open_manager "web" "default" "req-1" None.

(** The first run claims vm-1 and prints its new lease; the second prints it again. *)
Lemma claim_retry_safe_witness :
  let out1 := run (execute conn0 claim1) world0 in
  let out2 := run (execute conn0 claim1) out1.1 in
  is_Ok out1.2 = true /\ out2.2 = out1.2 /\
  (forall out, out1.2 = Ok out ->
     exists id, lease_of "req-1" (w_db out1.1) id /\ prints_lease None out id).
Proof.
  cbv zeta. split; [vm_compute; reflexivity|]. split; [vm_compute; reflexivity|].
  pose proof (wp_run _ _ _ (claim_retry_safe open_manager conn0 "web" "default" "req-1" None world0
    db0_wf ltac:(discriminate))) as Hw. exact (proj1 (proj2 Hw)).
Defined.

(** A spec file that does not parse. *)
Lemma failed_before_sending_witness :
  let out := run (execute conn0 (newPoolCreateCmd open_manager (Some "bad.json"))) world0 in
  out.2 = Err (ErrParseSpec "bad.json") /\ same_state world0 out.1.
Proof.
  cbv zeta. split; [vm_compute; reflexivity|].
  pose proof (wp_run _ _ _ (failed_before_sending open_manager conn0
    (newPoolCreateCmd open_manager (Some "bad.json")) world0 (pool_create _ _))) as Hw.
  assert (Hr : (run (execute conn0 (newPoolCreateCmd open_manager (Some "bad.json"))) world0).2
    = Err (ErrParseSpec "bad.json")) by (vm_compute; reflexivity).
  rewrite Hr in Hw. destruct Hw as [[] | Hw]. exact Hw.
Defined.

Lemma token_locks_poolmgrctl_out_witness :
  buildGRPCServer apiServer0 = Ok closed_manager /\
  (run (execute conn0 (newHostListCmd closed_manager None)) world0).2
    = Err (ErrStatus "unauthenticated") /\
  (run (execute conn0 (newEventsTailCmd closed_manager (Some "web") (Some "default"))) world0).2
    = Err (ErrStatus "unauthenticated") /\
  same_state world0 (run (execute conn0 (newHostListCmd closed_manager None)) world0).1.
Proof.
  assert (E : buildGRPCServer apiServer0 = Ok closed_manager) by (vm_compute; reflexivity).
  split; [exact E|]. split; [vm_compute; reflexivity|]. split; [vm_compute; reflexivity|].
  exact (proj2 (wp_run _ _ _ (token_locks_poolmgrctl_out apiServer0 closed_manager conn0
    (newHostListCmd closed_manager None) world0 E ltac:(discriminate) (host_list _ _)))).
Defined.

(** Two lines of the three events in the outbox. *)
Lemma tail_prints_outbox_witness :
  let out := run (subscribe (NewEventsServer 0 1) web_ref 0 3) outbox0 in
  length (matching web_ref out.1) = 2 /\
  exists shown rest, matching web_ref out.1 = shown ++ rest /\
    (tailEvents (rowToEvent <$> matching web_ref out.1) EOF "").1 =
    String.concat "" ((fun r => event_line (rowToEvent r)) <$> shown).
Proof.
  cbv zeta. split; [vm_compute; reflexivity|].
  assert (Hok : events_ok (events (w_db outbox0)) (events_seq (w_db outbox0)))
    by (split_and!; vm_compute; repeat constructor; discriminate).
  pose proof (wp_run _ _ _ (wp_rely_wp appends _ _ _ _ _ (tail_prints_outbox true (NewEventsServer 0 1)
    "web" "default" 3 EOF outbox0 eq_refl Hok))) as Hw.
  specialize (Hw (rowToEvent <$> matching web_ref
    (run (subscribe (NewEventsServer 0 1) web_ref 0 3) outbox0).1)).
  destruct Hw as (shown & rest & Hm & Hout).
  { exists []. vm_compute. reflexivity. }
  exists shown, rest. split; [exact Hm|exact Hout].
Defined.
