(* ===== verification/Schema.v ===== *)
(** * Opening the database: [Open] and [migrate] of [src/internal/store/sqlite.go]

    The database file as SQLite sees it: named tables of rows with named columns and
    a [user_version].  [Open] applies the baseline schema and then each pending
    migration in a transaction of its own.  Any step may fail. *)

From stdpp Require Import base gmap strings list.
From Stdlib Require Import ZArith Lia.
From S2P Require Import Prelude Types Convert Store.

(** ** Tables *)

Inductive value := VNull | VInt (z : Z) | VText (s : string).
#[export] Instance value_eq_dec : EqDecision value.
Proof. solve_decision. Defined.

(** A row has a value for each of its table's columns, in their order. *)
Notation row := (list (string * value)).

Fixpoint col (c : string) (r : row) : option value :=
  match r with
  | [] => None
  | (c', v) :: r => if String.eqb c c' then Some v else col c r
  end.

Record tbl := { columns : list string; tab_rows : list row }.

(** [sequence] is the AUTOINCREMENT counter of the events table, its row in
    [sqlite_sequence]. *)
Record file := {
  user_version : nat; tables : gmap string tbl; indexes : gset string; sequence : Z
}.

Definition set_tables (t : gmap string tbl) (f : file) : file :=
  {| user_version := user_version f; tables := t; indexes := indexes f; sequence := sequence f |}.
Definition set_indexes (i : gset string) (f : file) : file :=
  {| user_version := user_version f; tables := tables f; indexes := i; sequence := sequence f |}.
Definition set_user_version (v : nat) (f : file) : file :=
  {| user_version := v; tables := tables f; indexes := indexes f; sequence := sequence f |}.

Inductive stmt :=
  | CreateTableIfNotExists (t : string) (cols : list string)
  | AlterTableAddColumn (t c : string) (dflt : value)
  (** unique where the column is not null *)
  | CreateUniqueIndexIfNotExists (name t c : string).

Definition add_column (c : string) (d : value) (t : tbl) : tbl :=
  {| columns := columns t ++ [c]; tab_rows := (fun r => r ++ [(c, d)]) <$> tab_rows t |}.

(** The values of a column that are not null. *)
Definition nonnull (c : string) (rs : list row) : list value :=
  filter (fun v => v <> VNull) ((fun r : row => default VNull (col c r)) <$> rs).

Definition exec_stmt (s : stmt) (f : file) : option file :=
  match s with
  | CreateTableIfNotExists t cols =>
      match tables f !! t with
      | Some _ => Some f
      | None => Some (set_tables (<[t := {| columns := cols; tab_rows := [] |}]> (tables f)) f)
      end
  | AlterTableAddColumn t c d =>
      match tables f !! t with
      | None => None
      | Some tab =>
          if decide (c ∈ columns tab) then None
          else Some (set_tables (<[t := add_column c d tab]> (tables f)) f)
      end
  | CreateUniqueIndexIfNotExists name t c =>
      if decide (name ∈ indexes f) then Some f
      else
        match tables f !! t with
        | None => None
        | Some tab =>
            if decide (c ∈ columns tab /\ NoDup (nonnull c (tab_rows tab)))
            then Some (set_indexes ({[name]} ∪ indexes f) f) else None
        end
  end.

Fixpoint exec_stmts (l : list stmt) (f : file) : option file :=
  match l with
  | [] => Some f
  | s :: l => match exec_stmt s f with Some f => exec_stmts l f | None => None end
  end.

(** ** The schema and the migrations *)

Definition pools_columns : list string :=
  ["name"; "namespace"; "size"; "flintlock_hosts"; "microvm_template"; "replenishment_strategy";
   "create_commands"; "pre_lease_commands"; "hook_failure_policy"; "heartbeat_interval_ns";
   "heartbeat_expiry_threshold_ns"].
Definition vms_columns : list string :=
  ["uid"; "pool_name"; "pool_namespace"; "flintlock_host"; "phase"; "lease_id"; "created_at"; "updated_at"].
Definition leases_columns : list string :=
  ["lease_id"; "vm_uid"; "pool_name"; "pool_namespace"; "claimed_at"; "last_heartbeat_at"; "expires_at"].
Definition events_columns : list string :=
  ["id"; "pool_name"; "pool_namespace"; "vm_uid"; "type"; "created_at"; "payload_json"].
Definition hosts_columns : list string :=
  ["name"; "address"; "cordoned"; "cordoned_reason"; "cordoned_at"; "updated_at"].
Definition placements_columns : list string :=
  ["id"; "host"; "pool_name"; "pool_namespace"; "created_at"].

Definition schema : list (string * list string) :=
  [("pools", pools_columns); ("vms", vms_columns); ("leases", leases_columns);
   ("events", events_columns); ("hosts", hosts_columns); ("placements", placements_columns)].

(** [schema.sql]; its other indexes only speed up queries. *)
Definition schemaSQL : list stmt :=
  (fun '(t, cols) => CreateTableIfNotExists t cols) <$> schema.

Definition idx_leases_request_id : string := "idx_leases_request_id".

Definition migrations : list (list stmt) :=
  [[AlterTableAddColumn "leases" "request_id" VNull;
    CreateUniqueIndexIfNotExists idx_leases_request_id "leases" "request_id"];
   [AlterTableAddColumn "hosts" "tls_insecure" (VInt 0);
    AlterTableAddColumn "hosts" "ca_file" (VText "");
    AlterTableAddColumn "hosts" "cert_file" (VText "");
    AlterTableAddColumn "hosts" "key_file" (VText "")];
   [AlterTableAddColumn "hosts" "draining" (VInt 0);
    AlterTableAddColumn "hosts" "draining_at" VNull]].

(** ** [Open] *)

Inductive openError :=
  | ErrOpen | ErrForeignKeys | ErrWAL | ErrSchema | ErrReadVersion | ErrNewer | ErrMigration (version : nat).

(** What fails: a step, the schema after so many of its statements, or a step of the
    transaction of a migration, which rolls it back. *)
Record faults := {
  fail_open : bool; fail_foreign_keys : bool; fail_wal : bool; fail_schema : option nat;
  fail_version : bool; fail_migration : nat -> bool
}.

Definition applyMigration (x : faults) (version : nat) (stmts : list stmt) (f : file)
    : file * option openError :=
  if fail_migration x version then (f, Some (ErrMigration version))
  else
    match exec_stmts stmts f with
    | None => (f, Some (ErrMigration version))
    | Some f' => (set_user_version version f', None)
    end.

(** [for v := version; v < len(migrations); v++] *)
Fixpoint apply_pending (x : faults) (v : nat) (pending : list (list stmt)) (f : file)
    : file * option openError :=
  match pending with
  | [] => (f, None)
  | stmts :: pending =>
      match applyMigration x (S v) stmts f with
      | (f, Some e) => (f, Some e)
      | (f, None) => apply_pending x (S v) pending f
      end
  end.

Definition migrate (x : faults) (f : file) : file * option openError :=
  if fail_version x then (f, Some ErrReadVersion)
  else if decide (length migrations < user_version f) then (f, Some ErrNewer)
  else apply_pending x (user_version f) (drop (user_version f) migrations) f.

Definition Open (x : faults) (f : file) : file * option openError :=
  if fail_open x then (f, Some ErrOpen)
  else if fail_foreign_keys x then (f, Some ErrForeignKeys)
  else if fail_wal x then (f, Some ErrWAL)
  else
    match fail_schema x with
    | Some k => (default f (exec_stmts (take k schemaSQL) f), Some ErrSchema)
    | None =>
        match exec_stmts schemaSQL f with
        | None => (f, Some ErrSchema)
        | Some f => migrate x f
        end
    end.

Definition no_faults : faults :=
  {| fail_open := false; fail_foreign_keys := false; fail_wal := false; fail_schema := None;
     fail_version := false; fail_migration := fun _ => false |}.

Definition new_file : file := {| user_version := 0; tables := ∅; indexes := ∅; sequence := 0 |}.

(** ** Rows of values *)

(** How the driver binds a [sql.NullString], a [sql.NullInt64] and a bool. *)
Definition null_text (s : option string) : value := match s with Some s => VText s | None => VNull end.
Definition null_int (z : option Z) : value := match z with Some z => VInt z | None => VNull end.
Definition bool_int (b : bool) : value := VInt (if b then 1 else 0).

(** The values of columns of a row. *)
Definition project (cols : list string) (r : row) : list value :=
  (fun c => default VNull (col c r)) <$> cols.

(** [Scan] into a [string], an [int64], an [int32], a [sql.NullString] and a
    [sql.NullInt64]. *)
Definition scan_text (v : value) : option string :=
  match v with VText s => Some s | _ => None end.
Definition scan_int (v : value) : option Z :=
  match v with VInt z => Some z | _ => None end.
Definition scan_int32 (v : value) : option Z :=
  match v with
  | VInt z => if decide (- 2 ^ 31 <= z < 2 ^ 31)%Z then Some z else None
  | _ => None
  end.
Definition scan_null_text (v : value) : option (option string) :=
  match v with VText s => Some (Some s) | VNull => Some None | _ => None end.
Definition scan_null_int (v : value) : option (option Z) :=
  match v with VInt z => Some (Some z) | VNull => Some None | _ => None end.
(** database/sql reads 0 and 1 as a bool. *)
Definition scan_bool (v : value) : option bool :=
  match v with VInt 0%Z => Some false | VInt 1%Z => Some true | _ => None end.

Definition leaseColumns : list string :=
  ["lease_id"; "vm_uid"; "pool_name"; "pool_namespace"; "claimed_at"; "last_heartbeat_at";
   "expires_at"; "request_id"].

Definition scanLease (t : list value) : option leaseRow :=
  match t with
  | [id; uid; p; ns; c; hb; e; rid] =>
      id ← scan_text id; uid ← scan_text uid; p ← scan_text p; ns ← scan_text ns;
      c ← scan_int c; hb ← scan_int hb; e ← scan_int e; rid ← scan_null_text rid;
      Some {| lr_leaseID := id; lr_vmUID := uid; lr_poolName := p; lr_poolNamespace := ns;
              lr_claimedAt := c; lr_lastHeartbeatAt := hb; lr_expiresAt := e; lr_requestID := rid |}
  | _ => None
  end.

Definition hostColumns : list string :=
  ["name"; "address"; "cordoned"; "cordoned_reason"; "cordoned_at"; "updated_at";
   "tls_insecure"; "ca_file"; "cert_file"; "key_file"; "draining"; "draining_at"].

(** [Scan(row.scanDest()...)]. *)
Definition scanHost (t : list value) : option hostRow :=
  match t with
  | [n; a; co; cr; ca; u; ti; cf; ce; k; d; da] =>
      n ← scan_text n; a ← scan_text a; co ← scan_bool co; cr ← scan_null_text cr;
      ca ← scan_null_int ca; u ← scan_int u; ti ← scan_bool ti; cf ← scan_text cf;
      ce ← scan_text ce; k ← scan_text k; d ← scan_bool d; da ← scan_null_int da;
      Some {| hr_name := n; hr_address := a; hr_cordoned := co; hr_cordonedReason := cr;
              hr_cordonedAt := ca; hr_updatedAt := u; hr_tlsInsecure := ti; hr_caFile := cf;
              hr_certFile := ce; hr_keyFile := k; hr_draining := d; hr_drainingAt := da |}
  | _ => None
  end.
