(* ===== verification/SchemaProps.v ===== *)
(** * Opening a database of any age

    [Open_migrates]: whatever fails, a database file stays at a version of the schema
    with its rows kept, and opening it again finishes the job.  [lease_row_at]
    and [host_row_at] are the rows that older versions wrote. *)

From stdpp Require Import base gmap strings list.
From Stdlib Require Import ZArith Lia.
From S2P Require Import Prelude Types Convert Store Schema.

(** ** Versions of the schema *)

(** The columns a migration adds to a table. *)
Definition added (m : list stmt) (t : string) : list (string * value) :=
  omap (fun s => match s with
                 | AlterTableAddColumn t' c d => if decide (t' = t) then Some (c, d) else None
                 | _ => None
                 end) m.

(** The columns added to a table between two versions. *)
Definition adds (v w : nat) (t : string) : list (string * value) :=
  mjoin ((fun m => added m t) <$> take (w - v) (drop v migrations)).

Definition base_columns (t : string) : list string :=
  default [] ((list_to_map schema : gmap string (list string)) !! t).
Definition columns_at (v : nat) (t : string) : list string := base_columns t ++ (adds 0 v t).*1.

(** A row with columns added. *)
Definition upgrade (l : list (string * value)) (r : row) : row := r ++ l.

Definition full (f : file) : Prop := forall t, t ∈ schema.*1 -> is_Some (tables f !! t).

Record at_version (v : nat) (f : file) : Prop := {
  av_version : user_version f = v;
  av_le : v <= length migrations;
  av_tables : forall t tab, tables f !! t = Some tab ->
    t ∈ schema.*1 /\ columns tab = columns_at v t;
  av_rows : forall t tab r, tables f !! t = Some tab -> r ∈ tab_rows tab -> r.*1 = columns tab;
  av_full : v <> 0 -> full f;
  av_index : idx_leases_request_id ∈ indexes f <-> 1 <= v
}.

(** The rows are kept, with the defaults of the columns added since, and tables
    that were not there are empty. *)
Record grown (v w : nat) (f f' : file) : Prop := {
  gr_rows : forall t tab, tables f !! t = Some tab -> exists tab', tables f' !! t = Some tab' /\
    tab_rows tab' = upgrade (adds v w t) <$> tab_rows tab;
  gr_new : forall t tab', tables f !! t = None -> tables f' !! t = Some tab' -> tab_rows tab' = [];
  gr_sequence : sequence f' = sequence f
}.

Lemma adds_app u v w t : u <= v -> v <= w -> adds u w t = adds u v t ++ adds v w t.
Proof.
  intros Huv Hvw. unfold adds.
  replace (drop v migrations) with (drop (v - u) (drop u migrations))
    by (rewrite drop_drop; f_equal; lia).
  replace (w - u) with ((v - u) + (w - v)) by lia.
  rewrite <- take_take_drop, fmap_app, join_app. done.
Qed.

Lemma adds_same v t : adds v v t = [].
Proof. unfold adds. by rewrite Nat.sub_diag. Qed.

Lemma upgrade_app l l' r : upgrade (l ++ l') r = upgrade l' (upgrade l r).
Proof. apply (assoc_L (++)). Qed.

Lemma grown_trans u v w f g h :
  u <= v -> v <= w -> grown u v f g -> grown v w g h -> grown u w f h.
Proof.
  intros Huv Hvw [Hfg Nfg Sfg] [Hgh Ngh Sgh]. split; [| |congruence].
  - intros t tab Ht. destruct (Hfg t tab Ht) as (tab1 & H1 & R1).
    destruct (Hgh t tab1 H1) as (tab2 & H2 & R2). exists tab2. split; [done|].
    rewrite R2, R1, (adds_app u v w t) by done. rewrite <- list_fmap_compose.
    apply list_fmap_ext. intros i r _. simpl. by rewrite upgrade_app.
  - intros t tab' Hf Hh. destruct (tables g !! t) as [tab|] eqn:Hg; [|by eapply Ngh].
    destruct (Hgh t tab Hg) as (tab2 & H2 & R2). rewrite Hh in H2. injection H2 as <-.
    by rewrite R2, (Nfg t tab).
Qed.

Lemma upgrade_nil (l : list row) : upgrade [] <$> l = l.
Proof. induction l as [|r l IH]; [done|]. rewrite fmap_cons, IH. unfold upgrade. by rewrite app_nil_r. Qed.

Lemma grown_keep v f f' :
  (forall t tab, tables f !! t = Some tab -> tables f' !! t = Some tab) ->
  (forall t tab', tables f !! t = None -> tables f' !! t = Some tab' -> tab_rows tab' = []) ->
  sequence f' = sequence f -> grown v v f f'.
Proof.
  intros Hk Hn Hs. split; [|done..]. intros t tab Ht. exists tab. split; [auto|].
  by rewrite adds_same, upgrade_nil.
Qed.

Lemma grown_refl v f : grown v v f f.
Proof. apply grown_keep; try done. intros t tab' ??. congruence. Qed.

(** ** One migration *)

Definition add_columns (l : list (string * value)) (tab : tbl) : tbl :=
  foldl (fun tab '(c, d) => add_column c d tab) tab l.

Lemma add_columns_spec l tab :
  columns (add_columns l tab) = columns tab ++ l.*1 /\
  tab_rows (add_columns l tab) = upgrade l <$> tab_rows tab.
Proof.
  revert tab. induction l as [|[c d] l IH]; intros tab; simpl.
  - by rewrite app_nil_r, upgrade_nil.
  - destruct (IH (add_column c d tab)) as [-> ->]. simpl. rewrite <- app_assoc, <- list_fmap_compose.
    split; [done|]. apply list_fmap_ext. intros i r _. unfold upgrade. simpl. by rewrite <- app_assoc.
Qed.

Lemma exec_adds t l f tab more :
  tables f !! t = Some tab -> NoDup (columns tab ++ l.*1) ->
  exec_stmts (((fun '(c, d) => AlterTableAddColumn t c d) <$> l) ++ more) f =
  exec_stmts more (set_tables (<[t := add_columns l tab]> (tables f)) f).
Proof.
  revert f tab. induction l as [|[c d] l IH]; intros f tab Ht Hnd.
  - simpl. rewrite insert_id by done. by destruct f.
  - cbn [fmap list_fmap app exec_stmts exec_stmt]. rewrite Ht.
    rewrite decide_False by (intros Hin; apply NoDup_app in Hnd as (_ & Hd & _);
      apply (Hd c Hin); by left).
    rewrite (IH _ (add_column c d tab)).
    + simpl. by rewrite insert_insert_eq.
    + simpl. by rewrite lookup_insert_eq.
    + simpl in *. by rewrite <- app_assoc.
Qed.

(** A table's columns at every version are distinct. *)
Lemma columns_distinct t v :
  t ∈ schema.*1 -> v < length migrations -> NoDup (columns_at v t ++ (adds v (S v) t).*1).
Proof.
  intros Ht Hv.
  assert (Hall : Forall (fun t => Forall (fun v => NoDup (columns_at v t ++ (adds v (S v) t).*1)) [0; 1; 2])
    schema.*1) by (apply (bool_decide_unpack _); by vm_compute).
  rewrite Forall_forall in Hall. specialize (Hall t Ht). rewrite Forall_forall in Hall. apply Hall.
  simpl in Hv. destruct v as [|[|[|v]]]; [set_solver..|lia].
Qed.

(** The table a migration changes, and what it does to it. *)
Lemma migration_shape v :
  v < length migrations -> exists t m more, migrations !! v = Some m /\ t ∈ schema.*1 /\
    m = ((fun '(c, d) => AlterTableAddColumn t c d) <$> adds v (S v) t) ++ more /\
    (forall t', t' <> t -> adds v (S v) t' = []) /\
    (v = 0 -> t = "leases" /\ more = [CreateUniqueIndexIfNotExists idx_leases_request_id "leases" "request_id"]) /\
    (v <> 0 -> more = []).
Proof.
  intros Hv. destruct v as [|[|[|v]]]; [| | |simpl in Hv; lia].
  - exists "leases". eexists _, _. split; [done|]. split; [set_solver|]. split; [by vm_compute|].
    split; [|done]. intros t' Ht. unfold adds, added. simpl. by rewrite !decide_False.
  - exists "hosts". eexists _, []. split; [done|]. split; [set_solver|]. split; [by vm_compute|].
    split; [|done]. intros t' Ht. unfold adds, added. simpl. by rewrite !decide_False.
  - exists "hosts". eexists _, []. split; [done|]. split; [set_solver|]. split; [by vm_compute|].
    split; [|done]. intros t' Ht. unfold adds, added. simpl. by rewrite !decide_False.
Qed.

(** A column just added as null is unique where it is not null. *)
Lemma col_app c (r r' : row) : c ∉ r.*1 -> col c (r ++ r') = col c r'.
Proof.
  induction r as [|[c' v] r IH]; simpl; [done|]. intros [Hne Hr]%not_elem_of_cons.
  destruct (String.eqb_spec c c'); [done|]. by apply IH.
Qed.

Lemma nonnull_added c (rs : list row) :
  (forall r, r ∈ rs -> c ∉ r.*1) -> nonnull c (upgrade [(c, VNull)] <$> rs) = [].
Proof.
  unfold nonnull. rewrite <- list_fmap_compose. induction rs as [|r rs IH]; intros Hc; [done|].
  rewrite fmap_cons, filter_cons_False; [apply IH; intros r' Hr; apply Hc; by right|].
  unfold compose, upgrade. rewrite col_app by (apply Hc; by left). simpl. rewrite String.eqb_refl. auto.
Qed.

Lemma columns_at_S v t : columns_at (S v) t = columns_at v t ++ (adds v (S v) t).*1.
Proof. unfold columns_at. by rewrite (adds_app 0 v (S v)), fmap_app, (assoc_L (++)) by lia. Qed.

(** A file in which one table grew by the columns of a version. *)
Section grow.
Context (v : nat) (f : file) (t : string) (tab : tbl).
Context (Hat : at_version v f) (Ht : tables f !! t = Some tab).
Context (Hother : forall t', t' <> t -> adds v (S v) t' = []).
Definition grow (f' : file) : Prop :=
  tables f' = <[t := add_columns (adds v (S v) t) tab]> (tables f) /\ sequence f' = sequence f.

Lemma grow_grown f' : grow f' -> grown v (S v) f f'.
Proof.
  intros [Hf Hs]. destruct (add_columns_spec (adds v (S v) t) tab) as [Hc Hr].
  split; [..|done]; intros t' tab'; rewrite Hf; destruct (decide (t' = t)) as [-> | Hne].
  - rewrite Ht, lookup_insert_eq. intros [= <-]. eauto.
  - rewrite lookup_insert_ne by done. intros Ht'. exists tab'. by rewrite Hother, upgrade_nil.
  - by rewrite Ht.
  - rewrite lookup_insert_ne by done. congruence.
Qed.

Lemma grow_at f' :
  v < length migrations -> full f -> grow f' -> idx_leases_request_id ∈ indexes f' ->
  at_version (S v) (set_user_version (S v) f').
Proof.
  intros Hv Hfull [Hf Hs] Hi. destruct (add_columns_spec (adds v (S v) t) tab) as [Hc Hr].
  destruct (av_tables _ _ Hat t tab Ht) as [Hin Hcols].
  split; [done|lia| | | |split; [lia|done]]; simpl; try rewrite Hf.
  - intros t' tab'. rewrite columns_at_S. destruct (decide (t' = t)) as [-> | Hne].
    + rewrite lookup_insert_eq. intros [= <-]. by rewrite Hc, Hcols.
    + rewrite lookup_insert_ne by done. intros Ht'. destruct (av_tables _ _ Hat _ _ Ht') as [? ->].
      by rewrite Hother, app_nil_r.
  - intros t' tab' r. destruct (decide (t' = t)) as [-> | Hne].
    + rewrite lookup_insert_eq. intros [= <-]. rewrite Hc, Hr.
      intros (r0 & -> & Hr0)%list_elem_of_fmap. unfold upgrade.
      by rewrite fmap_app, (av_rows _ _ Hat t tab r0).
    + rewrite lookup_insert_ne by done. apply (av_rows _ _ Hat).
  - intros _ t' Ht'. simpl. rewrite Hf. apply lookup_insert_is_Some'. right. by apply Hfull.
Qed.
End grow.

(** The first migration makes an index on the column it adds. *)
Lemma index_added f f1 tab :
  at_version 0 f -> tables f !! "leases" = Some tab -> indexes f1 = indexes f ->
  tables f1 !! "leases" = Some (add_columns (adds 0 1 "leases") tab) ->
  exec_stmts [CreateUniqueIndexIfNotExists idx_leases_request_id "leases" "request_id"] f1 =
  Some (set_indexes ({[idx_leases_request_id]} ∪ indexes f1) f1).
Proof.
  intros Hat Ht Hi Hl. destruct (add_columns_spec (adds 0 1 "leases") tab) as [Hc Hr].
  destruct (av_tables _ _ Hat _ _ Ht) as [_ Hcols].
  cbn [exec_stmts exec_stmt].
  rewrite decide_False by (rewrite Hi; intros Hx; apply (av_index _ _ Hat) in Hx; lia).
  rewrite Hl, decide_True; [done|]. rewrite Hc, Hr. split; [apply elem_of_app; right; by left|].
  change (adds 0 1 "leases") with [("request_id", VNull)]. rewrite nonnull_added; [constructor|].
  intros r Hin. rewrite (av_rows _ _ Hat _ _ r Ht Hin), Hcols. apply (bool_decide_unpack _). by vm_compute.
Qed.

(** A migration takes a full file to the next version. *)
Lemma migration_step v f m :
  at_version v f -> full f -> migrations !! v = Some m ->
  exists f', exec_stmts m f = Some f' /\ at_version (S v) (set_user_version (S v) f') /\
    full f' /\ grown v (S v) f f'.
Proof.
  intros Hat Hfull Hm. assert (Hv : v < length migrations) by by eapply lookup_lt_Some.
  destruct (migration_shape v Hv) as (t & m' & more & Hm' & Ht & Em & Hother & Hzero & Hnz).
  rewrite Hm in Hm'. injection Hm' as <-. destruct (Hfull t Ht) as [tab Htab].
  destruct (av_tables _ _ Hat t tab Htab) as [_ Hcols].
  set (f1 := set_tables (<[t := add_columns (adds v (S v) t) tab]> (tables f)) f).
  assert (Hex : exec_stmts m f = exec_stmts more f1).
  { rewrite Em. apply exec_adds; [done|]. rewrite Hcols. by apply columns_distinct. }
  assert (Hdone : forall f', exec_stmts more f1 = Some f' -> grow v f t tab f' ->
    idx_leases_request_id ∈ indexes f' -> exists f', exec_stmts m f = Some f' /\
    at_version (S v) (set_user_version (S v) f') /\ full f' /\ grown v (S v) f f').
  { intros f' Hf' Hg Hi. exists f'. assert (Hat' := grow_at v f t tab Hat Htab Hother f' Hv Hfull Hg Hi).
    split_and!; [by rewrite Hex|done| |by apply (grow_grown v f t tab)].
    exact (av_full _ _ Hat' ltac:(lia)). }
  destruct (decide (v = 0)) as [-> | Hne].
  - destruct (Hzero eq_refl) as [-> ->].
    eapply Hdone; [apply (index_added f f1 tab); [done..|apply lookup_insert_eq]|done|].
    apply elem_of_union_l, elem_of_singleton. done.
  - rewrite (Hnz Hne) in *. eapply (Hdone f1); [done..|]. apply (av_index _ _ Hat). lia.
Qed.

(** ** All pending migrations *)

Lemma drop_cons v m : migrations !! v = Some m -> drop v migrations = m :: drop (S v) migrations.
Proof. intros Hm. by rewrite (drop_S _ _ _ Hm). Qed.

(** With the file that a run without faults, from where it was left, ends with. *)
Lemma pending_spec x f v :
  at_version v f -> full f ->
  let r := apply_pending x v (drop v migrations) f in
  full r.1 /\ exists w, v <= w /\ at_version w r.1 /\ grown v w f r.1 /\
    (r.2 = None -> w = length migrations) /\
    ((forall n, fail_migration x n = false) -> r.2 = None) /\
    apply_pending no_faults w (drop w migrations) r.1 =
    apply_pending no_faults v (drop v migrations) f.
Proof.
  intros Hat Hfull. remember (length migrations - v) as n eqn:Hn. revert v f Hn Hat Hfull.
  induction n as [|n IH]; intros v f Hn Hat Hfull r.
  - assert (v = length migrations) as -> by (pose proof (av_le _ _ Hat); lia).
    split; [done|]. exists (length migrations). split_and!; try done. apply grown_refl.
  - destruct (lookup_lt_is_Some_2 migrations v) as [m Hm]; [lia|].
    destruct (migration_step v f m Hat Hfull Hm) as (f' & Hex & Hat' & Hfull' & Hg).
    unfold r. rewrite (drop_cons v m Hm). cbn [apply_pending]. unfold applyMigration.
    destruct (fail_migration x (S v)) eqn:Ex.
    + split; [done|]. exists v. split_and!; try done; [apply grown_refl| |].
      * intros Hno. by rewrite Hno in Ex.
      * by rewrite (drop_cons v m Hm).
    + rewrite Hex. destruct (IH (S v) (set_user_version (S v) f')) as (Hf & w & Hw & Hatw & Hgw & Hd & Hok & E);
        [lia|done|done|]. split; [done|]. exists w. split_and!; try done; [lia|].
      eapply (grown_trans v (S v) w f (set_user_version (S v) f')); [lia|lia|by destruct Hg|exact Hgw].
Qed.

(** ** The schema *)

Definition new_tables (l : list (string * list string)) : gmap string tbl :=
  list_to_map ((fun '(t, cols) => (t, {| columns := cols; tab_rows := [] |})) <$> l).

Lemma exec_schema l f :
  exec_stmts ((fun '(t, cols) => CreateTableIfNotExists t cols) <$> l) f =
  Some (set_tables (tables f ∪ new_tables l) f).
Proof.
  revert f. induction l as [|[t cols] l IH]; intros f.
  - unfold new_tables. simpl. rewrite (right_id_L ∅ (∪)). by destruct f.
  - cbn [fmap list_fmap exec_stmts exec_stmt].
    change (new_tables ((t, cols) :: l)) with (<[t := {| columns := cols; tab_rows := [] |}]> (new_tables l)).
    destruct (tables f !! t) as [tab|] eqn:Et; rewrite IH;
      unfold set_tables; simpl; do 2 f_equal.
    + apply map_eq. intros t'. destruct (decide (t' = t)) as [-> | Hne].
      * by rewrite !(lookup_union_Some_l _ _ _ tab).
      * by rewrite !lookup_union, lookup_insert_ne.
    + by rewrite <- insert_union_l, insert_union_r.
Qed.

Lemma take_schema k : take k schemaSQL = (fun '(t, cols) => CreateTableIfNotExists t cols) <$> take k schema.
Proof. unfold schemaSQL. by rewrite <- fmap_take. Qed.

Lemma new_tables_take k l : new_tables (take k l) ∪ new_tables l = new_tables l.
Proof.
  rewrite <- (take_drop k l) at 2 3. unfold new_tables. rewrite fmap_app, list_to_map_app.
  rewrite (assoc_L (∪)), (idemp_L (∪)). done.
Qed.

Lemma new_tables_lookup l t tab :
  new_tables l !! t = Some tab -> exists cols, (t, cols) ∈ l /\ tab = {| columns := cols; tab_rows := [] |}.
Proof.
  unfold new_tables. intros Ht. apply elem_of_list_to_map_2, list_elem_of_fmap in Ht as ([t' cols] & E & Hin).
  injection E as -> ->. eauto.
Qed.

(** Tables are only added to a file without a version yet. *)
Lemma schema_step v f k :
  at_version v f ->
  at_version v (set_tables (tables f ∪ new_tables (take k schema)) f) /\
  grown v v f (set_tables (tables f ∪ new_tables (take k schema)) f).
Proof.
  intros Hat. split.
  - split; simpl; try apply Hat.
    + intros t tab [Ht | [Hn Ht]]%lookup_union_Some_raw; [by apply Hat|].
      apply new_tables_lookup in Ht as (cols & Hin%elem_of_take & ->).
      destruct Hin as (i & Hi & _).
      assert (Hs : t ∈ schema.*1) by (apply (list_elem_of_fmap_2 fst _ (t, cols)); by eapply list_elem_of_lookup_2).
      split; [done|]. destruct (decide (v = 0)) as [-> | Hv].
      * unfold columns_at. change (adds 0 0 t) with (@nil (string * value)). rewrite app_nil_r.
        unfold base_columns. simpl columns.
        erewrite elem_of_list_to_map_1; [done| |by eapply list_elem_of_lookup_2].
        apply (bool_decide_unpack _). by vm_compute.
      * destruct (av_full _ _ Hat Hv t Hs). congruence.
    + intros t tab r [Ht | [Hn Ht]]%lookup_union_Some_raw; [by eapply (av_rows _ _ Hat)|].
      apply new_tables_lookup in Ht as (cols & _ & ->). intros []%not_elem_of_nil.
    + intros Hv t Ht. simpl. apply lookup_union_is_Some. left. by apply (av_full _ _ Hat Hv).
  - apply grown_keep; [..|done]; simpl.
    + intros t tab Ht. by apply lookup_union_Some_l.
    + intros t tab Hn. rewrite lookup_union_r by done. intros (cols & _ & ->)%new_tables_lookup. done.
Qed.

Lemma schema_full f : full (set_tables (tables f ∪ new_tables schema) f).
Proof.
  intros t Ht. simpl. apply lookup_union_is_Some. right.
  assert (Hall : Forall (fun t => is_Some (new_tables schema !! t)) schema.*1)
    by (apply (bool_decide_unpack _); by vm_compute).
  by eapply Forall_forall in Hall.
Qed.

(** ** [Open] *)

(** [Open] on a file whose schema statements ran. *)
Lemma schema_then_migrate x f :
  fail_open x = false -> fail_foreign_keys x = false -> fail_wal x = false -> fail_schema x = None ->
  Open x f = migrate x (set_tables (tables f ∪ new_tables schema) f).
Proof.
  intros H1 H2 H3 H4. unfold Open. rewrite H1, H2, H3, H4.
  unfold schemaSQL. by rewrite exec_schema.
Qed.

Lemma reopen_with f f1 :
  tables f1 ∪ new_tables schema = tables f ∪ new_tables schema ->
  user_version f1 = user_version f -> indexes f1 = indexes f -> sequence f1 = sequence f ->
  Open no_faults f1 = Open no_faults f.
Proof.
  intros Ht Hv Hi Hs. rewrite !schema_then_migrate by done. f_equal.
  unfold set_tables. by rewrite Ht, Hv, Hi, Hs.
Qed.

(** A full file gains no table. *)
Lemma full_schema v f :
  at_version v f -> full f -> set_tables (tables f ∪ new_tables schema) f = f.
Proof.
  intros Hat Hf. destruct f as [u t i q]. unfold set_tables. simpl. f_equal.
  apply map_eq. intros k. rewrite lookup_union.
  destruct (t !! k) as [tab|] eqn:Et; [by rewrite union_Some_l|].
  destruct (new_tables schema !! k) as [tab|] eqn:En; [|done].
  apply new_tables_lookup in En as (cols & Hin & _).
  destruct (Hf k) as [tab' Ht]; [by apply (list_elem_of_fmap_2 fst _ (k, cols))|].
  simpl in Ht. congruence.
Qed.

Lemma migrate_at x v f :
  at_version v f -> fail_version x = false ->
  migrate x f = apply_pending x v (drop v migrations) f.
Proof.
  intros Hat Hx. unfold migrate. rewrite Hx, (av_version _ _ Hat).
  rewrite decide_False; [done|]. pose proof (av_le _ _ Hat). lia.
Qed.

(** The outcome of opening a file at a known version. *)
Definition open_result (x : faults) (v : nat) (f : file) (r : file * option openError) : Prop :=
  (exists w, v <= w /\ at_version w r.1 /\ grown v w f r.1 /\
     (r.2 = None -> w = length migrations /\ full r.1)) /\
  Open no_faults r.1 = Open no_faults f /\
  (x = no_faults -> r.2 = None).

Lemma open_stopped x v f f1 e :
  x <> no_faults -> at_version v f1 -> grown v v f f1 ->
  Open no_faults f1 = Open no_faults f -> open_result x v f (f1, Some e).
Proof. intros Hx Hat Hg Ho. split; [by exists v|]. by split. Qed.

Lemma Open_result x v f : at_version v f -> open_result x v f (Open x f).
Proof.
  intros Hat.
  assert (Hkeep : forall e, x <> no_faults -> open_result x v f (f, Some e)).
  { intros e Hx. apply open_stopped; try done. apply grown_refl. }
  destruct (fail_open x) eqn:E1; [unfold Open; rewrite E1; apply Hkeep; by intros -> |].
  destruct (fail_foreign_keys x) eqn:E2; [unfold Open; rewrite E1, E2; apply Hkeep; by intros -> |].
  destruct (fail_wal x) eqn:E3; [unfold Open; rewrite E1, E2, E3; apply Hkeep; by intros -> |].
  destruct (fail_schema x) as [k|] eqn:E4.
  { unfold Open. rewrite E1, E2, E3, E4, take_schema, exec_schema. simpl default.
    destruct (schema_step v f k Hat) as [Hat1 Hg1]. apply open_stopped; [by intros -> |done..|].
    apply reopen_with; [|done..]. simpl. by rewrite <- (assoc_L (∪)), new_tables_take. }
  rewrite schema_then_migrate by done.
  set (f1 := set_tables (tables f ∪ new_tables schema) f).
  destruct (schema_step v f (length schema) Hat) as [Hat1 Hg1]. rewrite firstn_all in Hat1, Hg1.
  fold f1 in Hat1, Hg1.
  assert (Hopen1 : Open no_faults f1 = Open no_faults f).
  { apply reopen_with; [|done..]. unfold f1. simpl. by rewrite <- (assoc_L (∪)), (idemp_L (∪)). }
  destruct (fail_version x) eqn:E5.
  { unfold migrate. rewrite E5. apply open_stopped; [by intros -> |done..]. }
  rewrite (migrate_at x v f1 Hat1 E5).
  destruct (pending_spec x f1 v Hat1 (schema_full f)) as (Hf & w & Hw & Hatw & Hgw & Hd & Hok & E).
  split; [|split].
  - exists w. split_and!; try done; [|auto]. eapply grown_trans; [| |exact Hg1|exact Hgw]; lia.
  - rewrite <- Hopen1, !schema_then_migrate by done.
    rewrite (full_schema w _ Hatw Hf), (full_schema v f1 Hat1 (schema_full f)).
    rewrite (migrate_at no_faults w _ Hatw), (migrate_at no_faults v f1 Hat1) by done. exact E.
  - intros ->. by apply Hok.
Qed.

(** A file of a newer version gets the tables of the baseline it lacks. *)
Lemma open_newer x f :
  length migrations < user_version f ->
  (Open x f).2 <> None /\ (x = no_faults -> (Open x f).2 = Some ErrNewer) /\
  exists k, (Open x f).1 = set_tables (tables f ∪ new_tables (take k schema)) f.
Proof.
  intros Hv.
  assert (Hsame : f = set_tables (tables f ∪ new_tables (take 0 schema)) f).
  { change (new_tables (take 0 schema)) with (∅ : gmap string tbl). rewrite (right_id_L ∅ (∪)). by destruct f. }
  unfold Open, migrate.
  repeat (match goal with |- context [if ?b x then _ else _] => destruct (b x) eqn:? end;
    [split_and!; [done|by intros ->|by exists 0]|]).
  destruct (fail_schema x) as [k|] eqn:Es.
  - rewrite take_schema, exec_schema. split_and!; [done|by intros ->|by exists k].
  - unfold schemaSQL. rewrite exec_schema.
    assert (set_tables (tables f ∪ new_tables schema) f =
      set_tables (tables f ∪ new_tables (take (length schema) schema)) f) as E by by rewrite firstn_all.
    destruct (fail_version x) eqn:Ev; [split_and!; [done|by intros ->|by exists (length schema)]|].
    simpl user_version. rewrite decide_True by done. split_and!; [done|done|by exists (length schema)].
Qed.

(** C28: Opening a database is safe to interrupt.  Take a file at any version of the
    schema, a new one included.  Whatever fails while [Open] applies the schema and
    the pending migrations, the file is left at a whole version, the same or a later
    one, with every table's rows kept and extended by the defaults of the columns
    added since; if [Open] succeeds that version is the current one.  Opening the
    file again without failures succeeds and ends with the same file as if nothing
    had failed the first time.  A file that a newer binary wrote is refused, for that
    reason if nothing else fails.  The version is only checked after schema.sql has
    run, so that tables of the baseline the file may lack are created, empty; the
    version, every table the file has, its rows and all else stay as they were. *)
Theorem Open_migrates x v f :
  (at_version v f ->
    (exists w, v <= w /\ at_version w (Open x f).1 /\ grown v w f (Open x f).1 /\
       ((Open x f).2 = None -> w = length migrations /\ full (Open x f).1)) /\
    Open no_faults (Open x f).1 = Open no_faults f /\
    (Open no_faults f).2 = None) /\
  (length migrations < user_version f ->
    (Open x f).2 <> None /\ (x = no_faults -> (Open x f).2 = Some ErrNewer) /\
    (exists k, (Open x f).1 = set_tables (tables f ∪ new_tables (take k schema)) f) /\
    forall t tab, tables f !! t = Some tab -> tables (Open x f).1 !! t = Some tab).
Proof.
  split.
  - intros Hat. destruct (Open_result x v f Hat) as (Hw & Hre & _).
    destruct (Open_result no_faults v f Hat) as (_ & _ & Hok). by split_and!; auto.
  - intros Hv. destruct (open_newer x f Hv) as (Hr & Hn & k & Hk). split_and!; [done|done|by exists k|].
    intros t tab Ht. rewrite Hk. by apply lookup_union_Some_l.
Qed.

(** A file with no tables is at version 0. *)
Lemma new_file_at_0 : at_version 0 new_file.
Proof.
  split; simpl; try done; [lia|]. split; [set_solver|lia].
Qed.

Example Open_new : (Open no_faults new_file).2 = None /\
  user_version (Open no_faults new_file).1 = 3 /\
  columns <$> tables (Open no_faults new_file).1 !! "leases" = Some (leases_columns ++ ["request_id"]).
Proof. vm_compute. done. Qed.

(** ** Reading old rows *)

(** A lease's and a host's row as the binary of version [v] wrote it. *)
Definition lease_row_at (v : nat) (l : leaseRow) : row :=
  ([("lease_id", VText (lr_leaseID l)); ("vm_uid", VText (lr_vmUID l));
    ("pool_name", VText (lr_poolName l)); ("pool_namespace", VText (lr_poolNamespace l));
    ("claimed_at", VInt (lr_claimedAt l)); ("last_heartbeat_at", VInt (lr_lastHeartbeatAt l));
    ("expires_at", VInt (lr_expiresAt l))] ++
    if 1 <=? v then [("request_id", null_text (lr_requestID l))] else []).

Definition host_row_at (v : nat) (h : hostRow) : row :=
  ([("name", VText (hr_name h)); ("address", VText (hr_address h));
    ("cordoned", bool_int (hr_cordoned h)); ("cordoned_reason", null_text (hr_cordonedReason h));
    ("cordoned_at", null_int (hr_cordonedAt h)); ("updated_at", VInt (hr_updatedAt h))] ++
    (if 2 <=? v then [("tls_insecure", bool_int (hr_tlsInsecure h)); ("ca_file", VText (hr_caFile h));
       ("cert_file", VText (hr_certFile h)); ("key_file", VText (hr_keyFile h))] else []) ++
    if 3 <=? v then [("draining", bool_int (hr_draining h)); ("draining_at", null_int (hr_drainingAt h))]
    else []).

(** What version [v] can say of a lease and of a host. *)
Definition lease_known (v : nat) (l : leaseRow) : leaseRow :=
  {| lr_leaseID := lr_leaseID l; lr_vmUID := lr_vmUID l; lr_poolName := lr_poolName l;
     lr_poolNamespace := lr_poolNamespace l; lr_claimedAt := lr_claimedAt l;
     lr_lastHeartbeatAt := lr_lastHeartbeatAt l; lr_expiresAt := lr_expiresAt l;
     lr_requestID := if 1 <=? v then lr_requestID l else None |}.

Definition host_known (v : nat) (h : hostRow) : hostRow :=
  {| hr_name := hr_name h; hr_address := hr_address h; hr_cordoned := hr_cordoned h;
     hr_cordonedReason := hr_cordonedReason h; hr_cordonedAt := hr_cordonedAt h;
     hr_updatedAt := hr_updatedAt h;
     hr_tlsInsecure := if 2 <=? v then hr_tlsInsecure h else false;
     hr_caFile := if 2 <=? v then hr_caFile h else "";
     hr_certFile := if 2 <=? v then hr_certFile h else "";
     hr_keyFile := if 2 <=? v then hr_keyFile h else "";
     hr_draining := if 3 <=? v then hr_draining h else false;
     hr_drainingAt := if 3 <=? v then hr_drainingAt h else None |}.

(** A host that a binary of version 1 stored, cordoned. *)
Definition old_host : hostRow :=
  {| hr_name := "host-1"; hr_address := "10.0.0.1:9090"; hr_cordoned := true;
     hr_cordonedReason := Some "maintenance"; hr_cordonedAt := Some 7%Z; hr_updatedAt := 9;
     hr_tlsInsecure := false; hr_caFile := ""; hr_certFile := ""; hr_keyFile := "";
     hr_draining := false; hr_drainingAt := None |}.
Definition old_lease : leaseRow :=
  {| lr_leaseID := "lease-1"; lr_vmUID := "vm-1"; lr_poolName := "web"; lr_poolNamespace := "default";
     lr_claimedAt := 1; lr_lastHeartbeatAt := 2; lr_expiresAt := 3; lr_requestID := Some "req-1" |}.
