(* ===== verification/Sql.v ===== *)
(** * SQL, as far as [src/internal/store/sqlite.go] uses it

    Expressions, queries and statements with bound arguments, run on the file
    of [Schema], and the connection of [database/sql] on top: each call can
    fail, and a transaction is rolled back unless it commits.

    Of SQLite's choices two are left open by the class [Engine]: the order in
    which a query visits the rows of a table, and which of two violated
    constraints an INSERT reports.  A statement that fails changes nothing. *)

From stdpp Require Import base gmap strings list sorting.
From Stdlib Require Import ZArith Lia.
From S2P Require Import Prelude Types Convert Schema.

(** ** Values and three-valued logic *)

(** [None] when one of them is NULL; integers come before texts. *)
Definition vcompare (a b : value) : option comparison :=
  match a, b with
  | VNull, _ | _, VNull => None
  | VInt x, VInt y => Some (x ?= y)%Z
  | VText s, VText t => Some (String.compare s t)
  | VInt _, VText _ => Some Lt
  | VText _, VInt _ => Some Gt
  end.

Definition of_truth (b : option bool) : value :=
  match b with Some true => VInt 1 | Some false => VInt 0 | None => VNull end.

(** A value as a condition; no text is used as one. *)
Definition truth (v : value) : option bool :=
  match v with VNull => None | VInt z => Some (negb (z =? 0)%Z) | VText _ => Some false end.

Definition and3 (a b : option bool) : option bool :=
  match a, b with
  | Some false, _ | _, Some false => Some false
  | Some true, Some true => Some true
  | _, _ => None
  end.
Definition or3 (a b : option bool) : option bool :=
  match a, b with
  | Some true, _ | _, Some true => Some true
  | Some false, Some false => Some false
  | _, _ => None
  end.
Definition not3 (a : option bool) : option bool := negb <$> a.

Definition is_eq (c : comparison) : bool := match c with Eq => true | _ => false end.
Definition is_le (c : comparison) : bool := match c with Gt => false | _ => true end.
Definition is_gt (c : comparison) : bool := match c with Gt => true | _ => false end.

(** [a IN (l)]. *)
Definition among (a : value) (l : list value) : option bool :=
  foldr (fun b acc => or3 (is_eq <$> vcompare a b) acc) (Some false) l.

(** ** Expressions *)

Inductive expr :=
  | Col (c : string)
  (** the n-th [?], from 1 *)
  | Arg (n : nat)
  | Lit (v : value)
  | Equal (a b : expr) | NotEqual (a b : expr) | AtMost (a b : expr) | Greater (a b : expr)
  | Both (a b : expr) | Either (a b : expr)
  | Among (a : expr) (l : list expr) | NotAmong (a : expr) (l : list expr)
  (** [a IN (SELECT c FROM t WHERE w)] *)
  | AmongSelect (a : expr) (c t : string) (w : expr)
  | Coalesce (a b : expr)
  (** [CASE WHEN c THEN a ELSE b END] *)
  | Case (c a b : expr)
  | Sum (a b : expr)
  (** [(SELECT COUNT( * ) FROM t WHERE w)] and [EXISTS (SELECT 1 FROM t WHERE w)] *)
  | Count (t : string) (w : expr)
  | ExistsIn (t : string) (w : expr).

Declare Scope sql_scope.
Delimit Scope sql_scope with sql.
Bind Scope sql_scope with expr.
Notation "a == b" := (Equal a b) (at level 70) : sql_scope.
Notation "a != b" := (NotEqual a b) (at level 70) : sql_scope.
Notation "a <= b" := (AtMost a b) : sql_scope.
Notation "a > b" := (Greater a b) : sql_scope.
Notation "a 'AND' b" := (Both a b) (at level 80, right associativity) : sql_scope.
Notation "a 'OR' b" := (Either a b) (at level 85, right associativity) : sql_scope.
Coercion Col : string >-> expr.

(** Without a WHERE. *)
Definition TRUE : expr := Lit (VInt 1).

Definition table_rows (tabs : gmap string tbl) (t : string) : list row :=
  default [] (tab_rows <$> tabs !! t).

Definition value_sum (a b : value) : value :=
  match a, b with VInt x, VInt y => VInt (x + y) | _, _ => VNull end.

Section eval.
Context (tabs : gmap string tbl) (args : list value).

Fixpoint eval (r : row) (e : expr) : value :=
  let matching t w := filter (fun r' => truth (eval r' w) = Some true) (table_rows tabs t) in
  match e with
  | Col c => default VNull (col c r)
  | Arg n => default VNull (args !! (n - 1))
  | Lit v => v
  | Equal a b => of_truth (is_eq <$> vcompare (eval r a) (eval r b))
  | NotEqual a b => of_truth (not3 (is_eq <$> vcompare (eval r a) (eval r b)))
  | AtMost a b => of_truth (is_le <$> vcompare (eval r a) (eval r b))
  | Greater a b => of_truth (is_gt <$> vcompare (eval r a) (eval r b))
  | Both a b => of_truth (and3 (truth (eval r a)) (truth (eval r b)))
  | Either a b => of_truth (or3 (truth (eval r a)) (truth (eval r b)))
  | Among a l => of_truth (among (eval r a) (map (eval r) l))
  | NotAmong a l => of_truth (not3 (among (eval r a) (map (eval r) l)))
  | AmongSelect a c t w =>
      of_truth (among (eval r a) ((fun r' => default VNull (col c r')) <$> matching t w))
  | Coalesce a b => match eval r a with VNull => eval r b | v => v end
  | Case c a b => if decide (truth (eval r c) = Some true) then eval r a else eval r b
  | Sum a b => value_sum (eval r a) (eval r b)
  | Count t w => VInt (Z.of_nat (length (matching t w)))
  | ExistsIn t w => of_truth (Some (bool_decide (matching t w <> [])))
  end.

(** Does a row satisfy a WHERE? *)
Definition satisfies (w : expr) (r : row) : bool :=
  match truth (eval r w) with Some true => true | _ => false end.

(** [SET c1 = e1, ...]: every expression sees the row as it was. *)
Definition assign (set : list (string * expr)) (r : row) : row :=
  (fun '(c, v) =>
     match find (fun '(c', _) => String.eqb c c') set with
     | Some (_, e) => (c, eval r e)
     | None => (c, v)
     end) <$> r.
End eval.

(** ** Queries *)

(** Keys of an ORDER BY, compared from the first on; NULLs come first. *)
Definition value_le (a b : value) : Prop :=
  match a, b with
  | VNull, _ => True
  | _, VNull => False
  | a, b => default false (is_le <$> vcompare a b) = true
  end.
Fixpoint values_le (a b : list value) : Prop :=
  match a, b with
  | [], _ => True
  | _, [] => False
  | x :: a, y :: b => if decide (x = y) then values_le a b else value_le x y
  end.

#[export] Instance value_le_dec : RelDecision value_le.
Proof. intros [] []; simpl; apply _. Defined.
#[export] Instance values_le_dec : RelDecision values_le.
Proof.
  intros a. induction a as [|x a IH]; intros [|y b]; simpl; try apply _.
  destruct (decide (x = y)); [apply IH|apply value_le_dec].
Defined.

(** What SQLite leaves open. *)
Class Engine := {
  visit : list row -> list row;
  visit_perm l : visit l ≡ₚ l;
  index_first : bool
}.

(** A table, or a table joined with [json_each] of one of its columns. *)
Inductive source := Table (t : string) | JsonEach (t c : string).

Record select := {
  s_distinct : bool; s_result : list expr; s_from : option source; s_where : expr;
  s_order : list string; s_limit : option expr
}.

(** [SELECT es FROM t WHERE w ORDER BY order]. *)
Definition SelectExprs (es : list expr) (t : string) (w : expr) (order : list string) : select :=
  {| s_distinct := false; s_result := es; s_from := Some (Table t); s_where := w;
     s_order := order; s_limit := None |}.
Definition Select (cols : list string) : string -> expr -> list string -> select :=
  SelectExprs (Col <$> cols).
Definition Limit (s : select) (n : expr) : select :=
  {| s_distinct := s_distinct s; s_result := s_result s; s_from := s_from s; s_where := s_where s;
     s_order := s_order s; s_limit := Some n |}.
(** [SELECT e] *)
Definition SelectScalar (e : expr) : select :=
  {| s_distinct := false; s_result := [e]; s_from := None; s_where := TRUE;
     s_order := []; s_limit := None |}.

Definition text_of (v : value) : string := match v with VText s => s | _ => "" end.

Section queries.
Context `{Codec, Engine}.

Definition source_rows (tabs : gmap string tbl) (s : source) : list row :=
  match s with
  | Table t => visit (table_rows tabs t)
  | JsonEach t c =>
      r ← visit (table_rows tabs t);
      (fun x => r ++ [("json_each.value", VText x)]) <$>
        json_each (text_of (default VNull (col c r)))
  end.

(** A negative limit is none. *)
Definition limit_rows {A} (n : option value) (l : list A) : list A :=
  match n with
  | Some (VInt n) => if decide (n < 0)%Z then l else take (Z.to_nat n) l
  | _ => l
  end.

Definition run_select (s : select) (args : list value) (tabs : gmap string tbl) : list (list value) :=
  let rows := match s_from s with Some src => source_rows tabs src | None => [[]] end in
  let rows := filter (fun r => satisfies tabs args (s_where s) r = true) rows in
  let rows := match s_order s with [] => rows | o => sort_on values_le (project o) rows end in
  let res := (fun r => eval tabs args r <$> s_result s) <$> rows in
  let res := if s_distinct s then remove_dups res else res in
  limit_rows (eval tabs args [] <$> s_limit s) res.

(** ** Statements *)

Inductive statement :=
  | Insert (t : string) (cols : list string) (vals : list expr)
  | Update (t : string) (set : list (string * expr)) (w : expr)
  | Delete (t : string) (w : expr).

(** [VALUES (?, ..., ?)] *)
Definition params (n : nat) : list expr := Arg <$> seq 1 n.

Inductive constraintCode := SQLITE_CONSTRAINT_PRIMARYKEY | SQLITE_CONSTRAINT_UNIQUE.
Inductive sqlError :=
  (** the columns as the message names them *)
  | Constraint (c : constraintCode) (columns : list string)
  | Interrupted | NoSuchTable | Full.

Record outcome := { rowsAffected : nat; lastInsertId : Z; returned : list row }.

Definition primary_key (t : string) : list string :=
  match find (fun '(t', _) => String.eqb t t')
    [("pools", ["name"; "namespace"]); ("vms", ["uid"]); ("leases", ["lease_id"]); ("events", ["id"]);
     ("hosts", ["name"]); ("placements", ["id"])] with
  | Some (_, cols) => cols
  | None => []
  end.

(** Is there a row with these values, none of them NULL, in these columns? *)
Definition clash (cols : list string) (r : row) (rs : list row) : bool :=
  bool_decide (VNull ∉ project cols r) && bool_decide (project cols r ∈ project cols <$> rs).

Definition key_clash (t : string) (r : row) (rs : list row) : option sqlError :=
  if clash (primary_key t) r rs
  then Some (Constraint SQLITE_CONSTRAINT_PRIMARYKEY ((fun c => t +:+ "." +:+ c) <$> primary_key t))
  else None.
Definition index_clash (f : file) (t : string) (r : row) (rs : list row) : option sqlError :=
  if bool_decide (t = "leases" /\ idx_leases_request_id ∈ indexes f) && clash ["request_id"] r rs
  then Some (Constraint SQLITE_CONSTRAINT_UNIQUE ["leases.request_id"])
  else None.

Definition constraint_error (f : file) (t : string) (r : row) (rs : list row) : option sqlError :=
  let k := key_clash t r rs in
  let i := index_clash f t r rs in
  if index_first then match i with Some e => Some e | None => k end
  else match k with Some e => Some e | None => i end.

Definition set_table (t : string) (tab : tbl) (rs : list row) (f : file) : file :=
  set_tables (<[t := {| columns := columns tab; tab_rows := rs |}]> (tables f)) f.
Definition set_sequence (n : Z) (f : file) : file :=
  {| user_version := user_version f; tables := tables f; indexes := indexes f; sequence := n |}.

(** The columns an INSERT does not name are NULL, but for the AUTOINCREMENT
    key of the events, which is the next number of the sequence. *)
Definition new_row (cols : list string) (vals : list (string * value)) : row :=
  (fun c => (c, default VNull (col c vals))) <$> cols.

(** [UPDATE] of the source never sets a key column, so that it is not checked
    against the constraints. *)
Definition exec_statement (s : statement) (args : list value) (f : file)
    : result sqlError (file * outcome) :=
  match s with
  | Insert t cols vals =>
      match tables f !! t with
      | None => Err NoSuchTable
      | Some tab =>
          let given := zip cols (eval (tables f) args [] <$> vals) in
          if decide (t = "events" /\ "id" ∉ cols) then
            if decide (sequence f = 2 ^ 63 - 1)%Z then Err Full else
            let id := (sequence f + 1)%Z in
            let r := new_row (columns tab) (("id", VInt id) :: given) in
            Ok (set_sequence id (set_table t tab (tab_rows tab ++ [r]) f),
                {| rowsAffected := 1; lastInsertId := id; returned := [r] |})
          else
            let r := new_row (columns tab) given in
            match constraint_error f t r (tab_rows tab) with
            | Some e => Err e
            | None => Ok (set_table t tab (tab_rows tab ++ [r]) f,
                          {| rowsAffected := 1; lastInsertId := 0; returned := [r] |})
            end
      end
  | Update t set w =>
      match tables f !! t with
      | None => Err NoSuchTable
      | Some tab =>
          let hit := satisfies (tables f) args w in
          let new := assign (tables f) args set in
          let changed := new <$> filter (fun r => hit r = true) (visit (tab_rows tab)) in
          Ok (set_table t tab ((fun r => if hit r then new r else r) <$> tab_rows tab) f,
              {| rowsAffected := length changed; lastInsertId := 0; returned := changed |})
      end
  | Delete t w =>
      match tables f !! t with
      | None => Err NoSuchTable
      | Some tab =>
          let hit := satisfies (tables f) args w in
          let gone := filter (fun r => hit r = true) (visit (tab_rows tab)) in
          Ok (set_table t tab (filter (fun r => hit r = false) (tab_rows tab)) f,
              {| rowsAffected := length gone; lastInsertId := 0; returned := gone |})
      end
  end.

(** ** The connection *)

(** [c_faults]: whether the next calls fail; those after the list do not. *)
Record conn := { c_file : file; c_faults : list bool }.
Definition DbM (A : Type) : Type := conn -> conn * result StoreError A.

#[export] Instance DbM_ret : MRet DbM := fun A x c => (c, Ok x).
#[export] Instance DbM_bind : MBind DbM := fun A B f m c =>
  match m c with
  | (c', Ok x) => f x c'
  | (c', Err e) => (c', Err e)
  end.
Definition throw {A} (e : StoreError) : DbM A := fun c => (c, Err e).
Definition lift {A} (r : result StoreError A) : DbM A := fun c => (c, r).

(** One call of the driver: it fails, or does [g] to the file. *)
Definition call {A} (g : file -> file * A) (failed : A) : DbM A := fun c =>
  let c' f := {| c_file := f; c_faults := tail (c_faults c) |} in
  match head (c_faults c) with
  | Some true => (c' (c_file c), Ok failed)
  | _ => let '(f, x) := g (c_file c) in (c' f, Ok x)
  end.

Definition TryExec (s : statement) (args : list value) : DbM (result sqlError outcome) :=
  call (fun f => match exec_statement s args f with
                 | Ok (f', o) => (f', Ok o)
                 | Err e => (f, Err e)
                 end) (Err Interrupted).

(** [ExecContext], where any error ends the method as "store: what". *)
Definition ExecContext (what : string) (s : statement) (args : list value) : DbM outcome :=
  r ← TryExec s args;
  match r with Ok o => mret o | Err _ => throw (ErrOther what) end.

Definition QueryContext (what : string) (s : select) (args : list value) : DbM (list (list value)) :=
  r ← call (fun f => (f, Some (run_select s args (tables f)))) None;
  match r with Some l => mret l | None => throw (ErrOther what) end.

(** [QueryRowContext]: the first row; [None] is [sql.ErrNoRows]. *)
Definition QueryRow (what : string) (s : select) (args : list value) : DbM (option (list value)) :=
  l ← QueryContext what s args; mret (head l).

(** A statement with RETURNING. *)
Definition QueryReturning (what : string) (s : statement) (returning : list string)
    (args : list value) : DbM (list (list value)) :=
  o ← ExecContext what s args;
  mret (project returning <$> returned o).

(** [Scan], whose failure ends the method. *)
Definition scan {A} (what : string) (dest : list value -> option A) (t : list value)
    : result StoreError A :=
  match dest t with Some x => Ok x | None => Err (ErrOther what) end.

(** [BeginTx], the body, [Commit]; the deferred [Rollback] undoes the body when
    it or the commit fails. *)
Definition tx {A} (what : string) (m : DbM A) : DbM A := fun c =>
  let rolled_back (c' : conn) := {| c_file := c_file c; c_faults := c_faults c' |} in
  match call (fun f => (f, true)) false c with
  | (c1, Ok true) =>
      match m c1 with
      | (c2, Err e) => (rolled_back c2, Err e)
      | (c2, Ok x) =>
          match call (fun f => (f, true)) false c2 with
          | (c3, Ok true) => (c3, Ok x)
          | (c3, _) => (rolled_back c3, Err (ErrOther ("commit " +:+ what)))
          end
      end
  | (c1, _) => (c1, Err (ErrOther ("begin " +:+ what)))
  end.

Definition checkRowsAffected (o : outcome) : DbM unit :=
  if decide (rowsAffected o = 0) then throw ErrNotFound else mret tt.
End queries.
