(* ===== verification/SqlStore.v ===== *)
(** * The store's methods as SQL: [src/internal/store/sqlite.go]

    Every method of the store as the source writes it: the statements with
    their bound arguments in order, the scans of the columns, the checks
    between them and the transactions.  [sql_denote] is the counterpart of
    [StoreOps.denote]. *)

From stdpp Require Import base gmap strings list sorting.
From Stdlib Require Import ZArith Lia.
From S2P Require Import Prelude Types Convert Schema Sql StoreOps.

#[local] Open Scope sql_scope.

Definition phase (p : VMPhase) : value := VInt (phase_code p).

(** ** Scans *)

Definition scanPool (t : list value) : option poolRow :=
  match t with
  | [n; ns; sz; hs; mt; st; cc; pc; pol; hi; ht] =>
      n ← scan_text n; ns ← scan_text ns; sz ← scan_int32 sz; hs ← scan_text hs; mt ← scan_text mt;
      st ← scan_text st; cc ← scan_text cc; pc ← scan_text pc; pol ← scan_int32 pol;
      hi ← scan_int hi; ht ← scan_int ht;
      Some {| pr_name := n; pr_namespace := ns; pr_size := sz; pr_flintlockHosts := hs;
              pr_microvmTemplate := mt; pr_replenishmentStrategy := st; pr_createCommands := cc;
              pr_preLeaseCommands := pc; pr_hookFailurePolicy := pol;
              pr_heartbeatIntervalNs := hi; pr_heartbeatExpiryThresholdNs := ht |}
  | _ => None
  end.

Definition scanVM (t : list value) : option vmRow :=
  match t with
  | [uid; p; ns; h; ph; l; c; u] =>
      uid ← scan_text uid; p ← scan_text p; ns ← scan_text ns; h ← scan_text h;
      ph ← scan_int32 ph; l ← scan_null_text l; c ← scan_int c; u ← scan_int u;
      Some {| vr_uid := uid; vr_poolName := p; vr_poolNamespace := ns; vr_flintlockHost := h;
              vr_phase := ph; vr_leaseID := l; vr_createdAt := c; vr_updatedAt := u |}
  | _ => None
  end.

Definition scanEvent (t : list value) : option Event :=
  match t with
  | [id; pn; ns; vmUID; typ; createdAt; payload] =>
      id ← scan_int id; pn ← scan_text pn; ns ← scan_text ns; vmUID ← scan_text vmUID;
      typ ← scan_int32 typ; createdAt ← scan_int createdAt; payload ← scan_text payload;
      Some {| event_id := id; event_pool_name := pn; event_vm_uid := vmUID;
              event_type := event_of_code typ; event_created_at := Some createdAt;
              event_payload_json := payload; event_pool_namespace := ns |}
  | _ => None
  end.

(** One column. *)
Definition scan1 {A} (f : value -> option A) (t : list value) : option A :=
  match t with [v] => f v | _ => None end.
Definition scan2 {A} (f : value -> option A) (t : list value) : option (A * A) :=
  match t with [v; w] => x ← f v; y ← f w; Some (x, y) | _ => None end.

(** The first row of a query, which must scan. *)
Definition row_or {A} (none : StoreError) (what : string) (dest : list value -> option A)
    (t : option (list value)) : result StoreError A :=
  match t with None => Err none | Some t => scan what dest t end.

(** ** Pools *)

Section methods.
Context `{Codec, Engine}.

Definition CreatePool (p : PoolSpec) : DbM unit :=
  row ← lift (poolToRow p);
  ExecContext "insert pool" (Insert "pools" pools_columns (params 11))
    [VText (pr_name row); VText (pr_namespace row); VInt (pr_size row);
     VText (pr_flintlockHosts row); VText (pr_microvmTemplate row);
     VText (pr_replenishmentStrategy row); VText (pr_createCommands row);
     VText (pr_preLeaseCommands row); VInt (pr_hookFailurePolicy row);
     VInt (pr_heartbeatIntervalNs row); VInt (pr_heartbeatExpiryThresholdNs row)];;
  mret tt.

Definition GetPool (name namespace : string) : DbM PoolSpec :=
  t ← QueryRow "query pool"
    (Select pools_columns "pools" ("name" == Arg 1 AND "namespace" == Arg 2) [])
    [VText name; VText namespace];
  row ← lift (row_or ErrNotFound "query pool" scanPool t);
  lift (rowToPool row).

Definition ListPools : DbM (list PoolSpec) :=
  ts ← QueryContext "query pools" (Select pools_columns "pools" TRUE ["namespace"; "name"]) [];
  lift (mapM (fun t => row ← scan "scan pool" scanPool t; rowToPool row) ts).

Definition UpdatePool (p : PoolSpec) : DbM unit :=
  row ← lift (poolToRow p);
  res ← ExecContext "update pool"
    (Update "pools"
       [("size", Arg 1); ("flintlock_hosts", Arg 2); ("microvm_template", Arg 3);
        ("replenishment_strategy", Arg 4); ("create_commands", Arg 5); ("pre_lease_commands", Arg 6);
        ("hook_failure_policy", Arg 7); ("heartbeat_interval_ns", Arg 8);
        ("heartbeat_expiry_threshold_ns", Arg 9)]
       ("name" == Arg 10 AND "namespace" == Arg 11))
    [VInt (pr_size row); VText (pr_flintlockHosts row); VText (pr_microvmTemplate row);
     VText (pr_replenishmentStrategy row); VText (pr_createCommands row);
     VText (pr_preLeaseCommands row); VInt (pr_hookFailurePolicy row);
     VInt (pr_heartbeatIntervalNs row); VInt (pr_heartbeatExpiryThresholdNs row);
     VText (pr_name row); VText (pr_namespace row)];
  checkRowsAffected res.

(** Outside and inside a transaction. *)
Definition DeletePool (name namespace : string) : DbM unit :=
  res ← ExecContext "delete pool" (Delete "pools" ("name" == Arg 1 AND "namespace" == Arg 2))
    [VText name; VText namespace];
  checkRowsAffected res.

Definition DeletePoolAndMarkVMs (now : Z) (name namespace : string) (force : bool)
    : DbM (list VMRecord) :=
  tx "delete pool tx" (
    DeletePool name namespace;;
    (if force then mret tt else
      t ← QueryRow "count leased vms"
        (SelectScalar (Count "vms" ("pool_name" == Arg 1 AND "pool_namespace" == Arg 2 AND
                                    Among "phase" [Arg 3; Arg 4])))
        [VText name; VText namespace; phase LEASED; phase PRE_LEASE_HOOK_RUNNING];
      leased ← lift (row_or ErrNotFound "count leased vms" (scan1 scan_int) t);
      if decide (0 < leased)%Z then throw ErrPoolHasLeasedVMs else mret tt);;
    ExecContext "mark pool vms deleting"
      (Update "vms" [("phase", Arg 1); ("lease_id", Lit VNull); ("updated_at", Arg 2)]
         ("pool_name" == Arg 3 AND "pool_namespace" == Arg 4))
      [phase DELETING; VInt (UnixNano now); VText name; VText namespace];;
    ExecContext "delete pool leases"
      (Delete "leases" ("pool_name" == Arg 1 AND "pool_namespace" == Arg 2))
      [VText name; VText namespace];;
    ts ← QueryContext "query pool vms"
      (Select vms_columns "vms" ("pool_name" == Arg 1 AND "pool_namespace" == Arg 2) ["uid"])
      [VText name; VText namespace];
    rows ← lift (mapM (scan "scan vm" scanVM) ts);
    mret (rowToVM <$> rows)).

(** ** VMs *)

Definition CreateVM (v : VMRecord) : DbM unit :=
  row ← lift (vmToRow v);
  ExecContext "insert vm" (Insert "vms" vms_columns (params 8))
    [VText (vr_uid row); VText (vr_poolName row); VText (vr_poolNamespace row);
     VText (vr_flintlockHost row); VInt (vr_phase row); null_text (vr_leaseID row);
     VInt (vr_createdAt row); VInt (vr_updatedAt row)];;
  mret tt.

Definition GetVM (uid : string) : DbM VMRecord :=
  t ← QueryRow "query vm" (Select vms_columns "vms" ("uid" == Arg 1) []) [VText uid];
  row ← lift (row_or ErrNotFound "query vm" scanVM t);
  mret (rowToVM row).

Definition ListVMsByPool (poolName poolNamespace : string) (ph : option VMPhase)
    : DbM (list VMRecord) :=
  let where_ := "pool_name" == Arg 1 AND "pool_namespace" == Arg 2 in
  let where_ := match ph with Some _ => where_ AND "phase" == Arg 3 | None => where_ end in
  let args := [VText poolName; VText poolNamespace] in
  let args := match ph with Some p => args ++ [phase p] | None => args end in
  ts ← QueryContext "query vms" (Select vms_columns "vms" where_ ["uid"]) args;
  rows ← lift (mapM (scan "scan vm" scanVM) ts);
  mret (rowToVM <$> rows).

Definition ListVMsByPhase (p : VMPhase) : DbM (list VMRecord) :=
  ts ← QueryContext "query vms by phase" (Select vms_columns "vms" ("phase" == Arg 1) ["uid"]) [phase p];
  rows ← lift (mapM (scan "scan vm" scanVM) ts);
  mret (rowToVM <$> rows).

(** [updateVM], on the connection or in a transaction. *)
Definition updateVM (v : VMRecord) : DbM unit :=
  row ← lift (vmToRow v);
  res ← ExecContext "update vm"
    (Update "vms"
       [("pool_name", Arg 1); ("pool_namespace", Arg 2); ("flintlock_host", Arg 3); ("phase", Arg 4);
        ("lease_id", Arg 5); ("updated_at", Arg 6)]
       ("uid" == Arg 7 AND ("phase" != Arg 8 OR Arg 9 == Arg 10)))
    [VText (vr_poolName row); VText (vr_poolNamespace row); VText (vr_flintlockHost row);
     VInt (vr_phase row); null_text (vr_leaseID row); VInt (vr_updatedAt row);
     VText (vr_uid row); phase DELETING; VInt (vr_phase row); phase DELETING];
  if decide (0 < rowsAffected res) then mret tt else
  t ← QueryRow "query vm" (SelectExprs [Lit (VInt 1)] "vms" ("uid" == Arg 1) []) [VText (vr_uid row)];
  lift (row_or ErrNotFound "query vm" (scan1 scan_int) t);;
  throw ErrVMDeleting.

Definition UpdateVM (v : VMRecord) : DbM unit := updateVM v.

Definition DeleteVM (uid : string) : DbM unit :=
  res ← ExecContext "delete vm" (Delete "vms" ("uid" == Arg 1)) [VText uid];
  checkRowsAffected res.

Definition DeleteVMCheckingPool (uid : string) : DbM bool :=
  tx "delete vm tx" (
    ts ← QueryReturning "delete vm" (Delete "vms" ("uid" == Arg 1)) ["pool_name"; "pool_namespace"]
      [VText uid];
    pool ← lift (row_or ErrNotFound "delete vm" (scan2 scan_text) (head ts));
    t ← QueryRow "query pool"
      (SelectScalar (ExistsIn "pools" ("name" == Arg 1 AND "namespace" == Arg 2)))
      [VText pool.1; VText pool.2];
    lift (row_or ErrNotFound "query pool" (scan1 scan_bool) t)).

Definition ClaimAvailableVM (now : Z) (poolName poolNamespace : string) : DbM VMRecord :=
  tx "claim tx" (
    t ← QueryRow "select available vm"
      (Limit (Select ["uid"] "vms" ("pool_name" == Arg 1 AND "pool_namespace" == Arg 2 AND
                                    "phase" == Arg 3) []) (Lit (VInt 1)))
      [VText poolName; VText poolNamespace; phase AVAILABLE];
    uid ← lift (row_or ErrNoAvailableVM "select available vm" (scan1 scan_text) t);
    res ← ExecContext "claim vm"
      (Update "vms" [("phase", Arg 1); ("updated_at", Arg 2)] ("uid" == Arg 3 AND "phase" == Arg 4))
      [phase LEASED; VInt (UnixNano now); VText uid; phase AVAILABLE];
    if decide (rowsAffected res = 0) then throw ErrNoAvailableVM else
    t ← QueryRow "reload claimed vm" (Select vms_columns "vms" ("uid" == Arg 1) []) [VText uid];
    row ← lift (row_or (ErrOther "reload claimed vm") "reload claimed vm" scanVM t);
    mret (rowToVM row)).

(** ** Leases *)

Definition queryLeases (s : select) (args : list value) : DbM (list LeaseRecord) :=
  ts ← QueryContext "query leases" s args;
  rows ← lift (mapM (scan "scan lease" scanLease) ts);
  mret (rowToLease <$> rows).

Definition isRequestIDConflict (e : sqlError) : bool :=
  match e with
  | Constraint SQLITE_CONSTRAINT_UNIQUE cols => bool_decide ("leases.request_id" ∈ cols)
  | _ => false
  end.

Definition insertLease (l : LeaseRecord) : DbM unit :=
  row ← lift (leaseToRow l);
  r ← TryExec (Insert "leases" leaseColumns (params 8))
    [VText (lr_leaseID row); VText (lr_vmUID row); VText (lr_poolName row);
     VText (lr_poolNamespace row); VInt (lr_claimedAt row); VInt (lr_lastHeartbeatAt row);
     VInt (lr_expiresAt row); null_text (lr_requestID row)];
  match r with
  | Err e => if isRequestIDConflict e then throw ErrDuplicateRequestID
             else throw (ErrOther "insert lease")
  | Ok _ => mret tt
  end.

Definition CreateLease (l : LeaseRecord) : DbM unit := insertLease l.

Definition LeaseVM (v : VMRecord) (l : LeaseRecord) : DbM unit :=
  tx "lease vm tx" (updateVM v;; insertLease l).

Definition GetLease (leaseID : string) : DbM LeaseRecord :=
  t ← QueryRow "query lease" (Select leaseColumns "leases" ("lease_id" == Arg 1) []) [VText leaseID];
  row ← lift (row_or ErrNotFound "query lease" scanLease t);
  mret (rowToLease row).

Definition GetLeaseByRequestID (requestID : string) : DbM LeaseRecord :=
  t ← QueryRow "query lease by request id"
    (Select leaseColumns "leases" ("request_id" == Arg 1) []) [VText requestID];
  row ← lift (row_or ErrNotFound "query lease by request id" scanLease t);
  mret (rowToLease row).

Definition UpdateLeaseHeartbeat (leaseID : string) (at_ expiresAt : Timestamp) : DbM unit :=
  res ← ExecContext "update lease heartbeat"
    (Update "leases" [("last_heartbeat_at", Arg 1); ("expires_at", Arg 2)] ("lease_id" == Arg 3))
    [VInt (UnixNano at_); VInt (UnixNano expiresAt); VText leaseID];
  checkRowsAffected res.

Definition DeleteLease (leaseID : string) : DbM unit :=
  res ← ExecContext "delete lease" (Delete "leases" ("lease_id" == Arg 1)) [VText leaseID];
  checkRowsAffected res.

Definition ListExpiredLeases (now : Timestamp) : DbM (list LeaseRecord) :=
  queryLeases (Select leaseColumns "leases" ("expires_at" <= Arg 1) ["expires_at"])
    [VInt (UnixNano now)].

Definition ListLeases (poolRef : option PoolRef) : DbM (list LeaseRecord) :=
  match poolRef with
  | Some p => queryLeases (Select leaseColumns "leases"
                ("pool_name" == Arg 1 AND "pool_namespace" == Arg 2) ["lease_id"])
                [VText (ref_name p); VText (ref_namespace p)]
  | None => queryLeases (Select leaseColumns "leases" TRUE ["lease_id"]) []
  end.

Definition DeleteLeaseIfExpired (leaseID : string) (now : Timestamp) : DbM LeaseRecord :=
  tx "claim tx" (
    t ← QueryRow "select lease" (Select leaseColumns "leases" ("lease_id" == Arg 1) []) [VText leaseID];
    row ← lift (row_or ErrNotFound "select lease" scanLease t);
    if decide (lr_expiresAt row > UnixNano now)%Z then throw ErrLeaseNotExpired else
    res ← ExecContext "delete expired lease"
      (Delete "leases" ("lease_id" == Arg 1 AND "expires_at" <= Arg 2))
      [VText leaseID; VInt (UnixNano now)];
    if decide (rowsAffected res = 0) then throw ErrLeaseNotExpired else
    mret (rowToLease row)).

(** ** Events *)

Definition AppendEvent (e : Event) : DbM Z :=
  createdAt ← lift (requireTimestamp "created_at" (event_created_at e));
  res ← ExecContext "insert event"
    (Insert "events" ["pool_name"; "pool_namespace"; "vm_uid"; "type"; "created_at"; "payload_json"]
       (params 6))
    [VText (event_pool_name e); VText (event_pool_namespace e); VText (event_vm_uid e);
     VInt (event_code (event_type e)); VInt (UnixNano createdAt); VText (event_payload_json e)];
  mret (lastInsertId res).

Definition ListEventsSince (poolName poolNamespace : string) (sinceID limit : Z) : DbM (list Event) :=
  ts ← QueryContext "query events"
    (Limit (Select events_columns "events" ("pool_name" == Arg 1 AND "pool_namespace" == Arg 2 AND
                                            "id" > Arg 3) ["id"]) (Arg 4))
    [VText poolName; VText poolNamespace; VInt sinceID; VInt limit];
  lift (mapM (scan "scan event" scanEvent) ts).

Definition ListAllEventsSince (sinceID limit : Z) : DbM (list Event) :=
  ts ← QueryContext "query events"
    (Limit (Select events_columns "events" ("id" > Arg 1) ["id"]) (Arg 2)) [VInt sinceID; VInt limit];
  lift (mapM (scan "scan event" scanEvent) ts).

(** ** Hosts *)

Definition isHostNameConflict (e : sqlError) : bool :=
  match e with
  | Constraint _ cols => bool_decide ("hosts.name" ∈ cols)
  | _ => false
  end.

Definition CreateHost (h : Host) : DbM unit :=
  row ← lift (hostToRow h);
  r ← TryExec (Insert "hosts" hostColumns (params 12))
    [VText (hr_name row); VText (hr_address row); bool_int (hr_cordoned row);
     null_text (hr_cordonedReason row); null_int (hr_cordonedAt row); VInt (hr_updatedAt row);
     bool_int (hr_tlsInsecure row); VText (hr_caFile row); VText (hr_certFile row);
     VText (hr_keyFile row); bool_int (hr_draining row); null_int (hr_drainingAt row)];
  match r with
  | Err e => if isHostNameConflict e then throw ErrHostExists else throw (ErrOther "insert host")
  | Ok _ => mret tt
  end.

Definition GetHost (name : string) : DbM Host :=
  t ← QueryRow "query host" (Select hostColumns "hosts" ("name" == Arg 1) []) [VText name];
  row ← lift (row_or ErrNotFound "query host" scanHost t);
  mret (rowToHost row).

(** The UPDATE of [UpdateHost]. *)
Definition update_host (now : Z) (h : Host) : DbM unit :=
  let tls := GetTls h in
  res ← ExecContext "update host"
    (Update "hosts" [("address", Arg 1); ("tls_insecure", Arg 2); ("ca_file", Arg 3);
       ("cert_file", Arg 4); ("key_file", Arg 5); ("updated_at", Arg 6)] ("name" == Arg 7))
    [VText (host_address h); bool_int (tls_insecure tls); VText (ca_file tls);
     VText (cert_file tls); VText (key_file tls); VInt (UnixNano now); VText (host_name h)];
  checkRowsAffected res.

Definition DeleteHost (name : string) : DbM unit :=
  tx "delete host tx" (
    t ← QueryRow "select host" (SelectScalar (ExistsIn "hosts" ("name" == Arg 1))) [VText name];
    ex ← lift (row_or ErrNotFound "select host" (scan1 scan_bool) t);
    if negb ex then throw ErrNotFound else
    ts ← QueryContext "query pools naming host"
      {| s_distinct := true; s_result := [Col "namespace"; Col "name"];
         s_from := Some (JsonEach "pools" "flintlock_hosts"); s_where := "json_each.value" == Arg 1;
         s_order := ["namespace"; "name"]; s_limit := None |} [VText name];
    pools ← lift (mapM (scan "scan pool naming host" (scan2 scan_text)) ts);
    let pools := (fun '(ns, pool) => ns +:+ "/" +:+ pool) <$> pools in
    t ← QueryRow "count vms by host"
      (SelectScalar (Sum (Count "vms" ("flintlock_host" == Arg 1)) (Count "placements" ("host" == Arg 2))))
      [VText name; VText name];
    count ← lift (row_or ErrNotFound "scan int32" (scan1 scan_int32) t);
    if decide (0 < length pools \/ (0 < count)%Z) then throw (HostInUseError pools count) else
    ExecContext "delete host" (Delete "hosts" ("name" == Arg 1)) [VText name];;
    mret tt).

Definition ListHosts : DbM (list Host) :=
  ts ← QueryContext "query hosts" (Select hostColumns "hosts" TRUE ["name"]) [];
  rows ← lift (mapM (scan "scan host" scanHost) ts);
  mret (rowToHost <$> rows).

(** The UPDATE of [SetHostCordoned]. *)
Definition set_cordoned (now : Z) (name : string) (cordoned : bool) (reason : string) : DbM unit :=
  let cordonedReason := if cordoned then NullString reason else None in
  let cordonedAt := if cordoned then Some (UnixNano now) else None in
  res ← ExecContext "set host cordoned"
    (Update "hosts" [("cordoned", Arg 1); ("cordoned_reason", Arg 2); ("cordoned_at", Arg 3);
       ("updated_at", Arg 4);
       ("draining", Case (Arg 5) "draining" (Lit (VInt 0)));
       ("draining_at", Case (Arg 6) "draining_at" (Lit VNull))] ("name" == Arg 7))
    [bool_int cordoned; null_text cordonedReason; null_int cordonedAt; VInt (UnixNano now);
     bool_int cordoned; bool_int cordoned; VText name];
  checkRowsAffected res.

Definition markUnleasedVMsDeleting (now : Z) (where_ : expr) (args : list value) : DbM (list VMRecord) :=
  ts ← QueryReturning "mark unleased vms deleting"
    (Update "vms" [("phase", Arg 1); ("lease_id", Lit VNull); ("updated_at", Arg 2)]
       (where_ AND NotAmong "phase" [Arg (3 + length args); Arg (4 + length args); Arg (5 + length args)]))
    vms_columns
    ([phase DELETING; VInt (UnixNano now)] ++ args ++
     [phase LEASED; phase PRE_LEASE_HOOK_RUNNING; phase DELETING]);
  rows ← lift (mapM (scan "scan vm" scanVM) ts);
  mret (sort_on String.le vm_uid (rowToVM <$> rows)).

Definition DrainHost (now now' : Z) (name reason : string) : DbM (Host * list VMRecord) :=
  tx "drain host tx" (
    res ← ExecContext "drain host"
      (Update "hosts" [("cordoned_reason", Coalesce (Arg 1) "cordoned_reason");
         ("cordoned_at", Case "cordoned" "cordoned_at" (Arg 2));
         ("cordoned", Lit (VInt 1));
         ("draining_at", Case "draining" "draining_at" (Arg 3));
         ("draining", Lit (VInt 1));
         ("updated_at", Arg 4)] ("name" == Arg 5))
      [null_text (NullString reason); VInt (UnixNano now); VInt (UnixNano now);
       VInt (UnixNano now); VText name];
    checkRowsAffected res;;
    vms ← markUnleasedVMsDeleting now' ("flintlock_host" == Arg 3) [VText name];
    t ← QueryRow "query drained host" (Select hostColumns "hosts" ("name" == Arg 1) []) [VText name];
    row ← lift (row_or (ErrOther "query drained host") "query drained host" scanHost t);
    mret (rowToHost row, vms)).

Definition MarkDrainingHostsVMsDeleting (now : Z) : DbM (list VMRecord) :=
  tx "mark draining tx"
    (markUnleasedVMsDeleting now (AmongSelect "flintlock_host" "name" "hosts" "draining") []).

(** ** Placements *)

Definition ReservePlacement (now : Z) (id host poolName poolNamespace : string) : DbM unit :=
  tx "reserve placement tx" (
    t ← QueryRow "select host cordoned" (Select ["cordoned"] "hosts" ("name" == Arg 1) []) [VText host];
    cordoned ← lift (row_or ErrHostNotRegistered "select host cordoned" (scan1 scan_bool) t);
    if (cordoned : bool) then throw ErrHostCordoned else
    ExecContext "insert placement" (Insert "placements" placements_columns (params 5))
      [VText id; VText host; VText poolName; VText poolNamespace; VInt (UnixNano now)];;
    mret tt).

Definition ReleasePlacement (id : string) : DbM unit :=
  ExecContext "release placement" (Delete "placements" ("id" == Arg 1)) [VText id];; mret tt.

Definition ClearPlacements : DbM unit :=
  ExecContext "clear placements" (Delete "placements" TRUE) [];; mret tt.

Definition CountVMsByHost (name : string) : DbM Z :=
  t ← QueryRow "count vms by host"
    (SelectScalar (Sum (Count "vms" ("flintlock_host" == Arg 1)) (Count "placements" ("host" == Arg 2))))
    [VText name; VText name];
  lift (row_or ErrNotFound "scan int32" (scan1 scan_int32) t).

(** ** The interface *)

Definition sql_denote {A} (now now' : Z) (o : storeOp A) : DbM A :=
  match o in storeOp B return DbM B with
  | OpCreatePool p => CreatePool p
  | OpGetPool n ns => GetPool n ns
  | OpListPools => ListPools
  | OpUpdatePool p => UpdatePool p
  | OpDeletePool n ns => DeletePool n ns
  | OpDeletePoolAndMarkVMs n ns f => DeletePoolAndMarkVMs now n ns f
  | OpCreateVM v => CreateVM v
  | OpGetVM u => GetVM u
  | OpListVMsByPool n ns p => ListVMsByPool n ns p
  | OpUpdateVM v => UpdateVM v
  | OpDeleteVM u => DeleteVM u
  | OpDeleteVMCheckingPool u => DeleteVMCheckingPool u
  | OpClaimAvailableVM n ns => ClaimAvailableVM now n ns
  | OpCreateLease l => CreateLease l
  | OpLeaseVM v l => LeaseVM v l
  | OpGetLease i => GetLease i
  | OpGetLeaseByRequestID r => GetLeaseByRequestID r
  | OpUpdateLeaseHeartbeat i a e => UpdateLeaseHeartbeat i a e
  | OpDeleteLease i => DeleteLease i
  | OpListExpiredLeases t => ListExpiredLeases t
  | OpListLeases p => ListLeases p
  | OpDeleteLeaseIfExpired i t => DeleteLeaseIfExpired i t
  | OpAppendEvent e => AppendEvent e
  | OpListEventsSince n ns s l => ListEventsSince n ns s l
  | OpListAllEventsSince s l => ListAllEventsSince s l
  | OpListVMsByPhase p => ListVMsByPhase p
  | OpCreateHost h => CreateHost h
  | OpUpdateHostRow h => update_host now h
  | OpDeleteHost n => DeleteHost n
  | OpGetHost n => GetHost n
  | OpListHosts => ListHosts
  | OpSetCordonRow n c r => set_cordoned now n c r
  | OpDrainHost n r => DrainHost now now' n r
  | OpMarkDrainingHostsVMsDeleting => MarkDrainingHostsVMsDeleting now
  | OpReservePlacement i h n ns => ReservePlacement now i h n ns
  | OpReleasePlacement i => ReleasePlacement i
  | OpClearPlacements => ClearPlacements
  | OpCountVMsByHost n => CountVMsByHost n
  end.

(** The two methods that read the row back after their UPDATE, outside a
    transaction. *)
Definition UpdateHost (now : Z) (h : Host) : DbM Host :=
  update_host now h;; GetHost (host_name h).
Definition SetHostCordoned (now : Z) (name : string) (cordoned : bool) (reason : string) : DbM Host :=
  set_cordoned now name cordoned reason;; GetHost name.

Definition sql_method {A} (now now' : Z) (m : storeMethod A) : DbM A :=
  match m in storeMethod B return DbM B with
  | Atomic o => sql_denote now now' o
  | MethodUpdateHost h => UpdateHost now h
  | MethodSetHostCordoned n c r => SetHostCordoned now n c r
  end.
End methods.
