(* ===== verification/SqlProps.v ===== *)
(** * Rules for SQL

    What a WHERE says of a row, what each kind of statement does to a table
    that holds the encodings of typed rows, and how a method runs whatever
    calls of the driver fail. *)

From stdpp Require Import base gmap strings list sorting.
From Stdlib Require Import ZArith Lia.
From S2P Require Import Prelude Types Convert Store StoreOps Schema SchemaProps Sql.

(** ** Sorting *)

Section sort_fmap.
Context {A B K L : Type} (R : relation K) `{!RelDecision R} (S : relation L) `{!RelDecision S}.
Context (f : A -> B) (key : B -> K) (key' : A -> L).
Context (HRS : forall a b, R (key (f a)) (key (f b)) <-> S (key' a) (key' b)).

#[local] Instance fdec a b : Decision (R (key a) (key b)) := decide_rel R (key a) (key b).
#[local] Instance gdec a b : Decision (S (key' a) (key' b)) := decide_rel S (key' a) (key' b).

Let up (st : list (option (list A))) : list (option (list B)) :=
  fmap (M := list) (fmap (M := option) (fmap (M := list) f)) st.
Let merge_f := list_merge (fun a b => R (key a) (key b)).
Let merge_g := list_merge (fun a b => S (key' a) (key' b)).

Lemma merge_fmap l1 l2 : merge_f (f <$> l1) (f <$> l2) = f <$> merge_g l1 l2.
Proof.
  unfold merge_f, merge_g. revert l2. induction l1 as [|a l1 IH]; intros l2; [by destruct l2|].
  induction l2 as [|b l2 IH2]; [done|]. cbn [fmap list_fmap list_merge].
  case_decide as H1; case_decide as H2; rewrite HRS in H1; try done.
  - rewrite fmap_cons. f_equal. apply (IH (b :: l2)).
  - rewrite fmap_cons. f_equal. apply IH2.
Qed.

Lemma merge_stack_fmap st :
  merge_stack (fun a b => R (key a) (key b)) (up st) =
  f <$> merge_stack (fun a b => S (key' a) (key' b)) st.
Proof.
  induction st as [|[l|] st IH]; simpl; [done| |done].
  rewrite IH. apply merge_fmap.
Qed.

Lemma merge_list_to_stack_fmap st l :
  merge_list_to_stack (fun a b => R (key a) (key b)) (up st) (f <$> l) =
  up (merge_list_to_stack (fun a b => S (key' a) (key' b)) st l).
Proof.
  revert l. induction st as [|[l'|] st IH]; intros l; simpl; [done| |done].
  f_equal. rewrite <- IH. f_equal. apply merge_fmap.
Qed.

(** Sorting encodings is encoding the sorted. *)
Lemma sort_on_fmap l : sort_on R key (f <$> l) = f <$> sort_on S key' l.
Proof.
  unfold sort_on, merge_sort.
  change (@nil (option (list B))) with (up []).
  generalize (@nil (option (list A))) as st. induction l as [|a l IH]; intros st; simpl.
  - apply merge_stack_fmap.
  - rewrite <- IH. f_equal. apply (merge_list_to_stack_fmap st [a]).
Qed.
End sort_fmap.

Section sort_unique.
Context {A K : Type} (R : relation K) `{!RelDecision R, !Total R, !Transitive R, !AntiSymm (=) R}.
Context (key : A -> K).

Lemma NoDup_key_inj (l : list A) a b : NoDup (key <$> l) -> a ∈ l -> b ∈ l -> key a = key b -> a = b.
Proof.
  intros Hnd [i Ha]%list_elem_of_lookup [j Hb]%list_elem_of_lookup E.
  assert (i = j) as ->; [|congruence].
  eapply (NoDup_lookup _ i j (key a) Hnd); rewrite list_lookup_fmap, ?Ha, ?Hb; simpl; congruence.
Qed.

(** By a unique key it does not matter in which order the rows came. *)
Lemma sort_on_unique l l' : l ≡ₚ l' -> NoDup (key <$> l) -> sort_on R key l = sort_on R key l'.
Proof.
  intros Hp Hnd. apply (StronglySorted_unique_strong (fun a b => R (key a) (key b)));
    try apply sort_on_sorted; try apply _.
  - intros a b Ha Hb Hab Hba. rewrite elem_of_sort_on in Ha by apply _. rewrite elem_of_sort_on in Hb by apply _.
    rewrite <- Hp in Hb. apply (NoDup_key_inj l); try done. by apply (anti_symm R).
  - by rewrite !(sort_on_perm R key).
Qed.
End sort_unique.

(** ** Tables as lists of rows *)

Section rows.
Context {K A : Type} `{Countable K}.
Implicit Types m : gmap K A.

Lemma rows_update_where (P : A -> Prop) `{forall x, Decision (P x)} g m :
  rows (update_where P g m) = (fun r => if decide (P r) then g r else r) <$> rows m.
Proof.
  unfold rows, update_where. rewrite map_to_list_fmap, <- !list_fmap_compose. done.
Qed.

Lemma rows_insert k x m : m !! k = None -> rows (<[k := x]> m) ≡ₚ rows m ++ [x].
Proof.
  intros Hk. unfold rows. rewrite map_to_list_insert by done. simpl. apply Permutation_cons_append.
Qed.

Lemma rows_delete_where (P : A -> Prop) `{forall x, Decision (P x)} m :
  rows (delete_where P m) ≡ₚ filter (fun r => ~ P r) (rows m).
Proof.
  unfold delete_where. induction m as [|k x m Hk IH] using map_ind; [done|].
  rewrite rows_insert, filter_app by done. destruct (decide (P x)) as [HP|HP].
  - rewrite map_filter_insert_False by (simpl; tauto). rewrite delete_id by done.
    rewrite IH, filter_cons_False by tauto. by rewrite filter_nil, app_nil_r.
  - rewrite map_filter_insert_True by done. rewrite rows_insert, IH.
    + by rewrite filter_cons_True.
    + apply map_lookup_filter_None. by left.
Qed.

Context (key : A -> K).
Definition own_keys m : Prop := forall k x, m !! k = Some x -> key x = k.

Lemma rows_key m k : own_keys m -> filter (fun r => key r = k) (rows m) = option_list (m !! k).
Proof.
  intros Hk. assert (Hin : forall x, x ∈ filter (fun r => key r = k) (rows m) <-> m !! k = Some x).
  { intros x. rewrite list_elem_of_filter, elem_of_rows. split.
    - intros [<- [j Hj]]. by rewrite (Hk _ _ Hj).
    - intros Hx. eauto. }
  assert (Hnd : NoDup (filter (fun r => key r = k) (rows m))).
  { apply list.NoDup_filter. apply (NoDup_fmap_1 key), NoDup_rows_key. exact Hk. }
  destruct (m !! k) as [x|]; simpl.
  - apply Permutation_singleton_r. apply NoDup_Permutation; [done|apply NoDup_singleton|].
    intros y. rewrite Hin, list_elem_of_singleton. naive_solver.
  - destruct (filter _ _) as [|y l]; [done|]. exfalso. by assert (None = Some y) by (apply Hin; left).
Qed.

Lemma alter_where g k m :
  own_keys m -> alter g k m = update_where (fun r => key r = k) g m.
Proof.
  intros Hk. apply map_eq. intros j. rewrite lookup_update_where. destruct (decide (j = k)) as [->|Hne].
  - rewrite lookup_alter_eq. destruct (m !! k) as [x|] eqn:Hx; [|done]. simpl.
    by rewrite decide_True by by apply Hk.
  - rewrite lookup_alter_ne by done. destruct (m !! j) as [x|] eqn:Hx; [|done]. simpl.
    rewrite decide_False; [done|]. by rewrite (Hk _ _ Hx).
Qed.

Lemma delete_key k m : own_keys m -> delete k m = delete_where (fun r => key r = k) m.
Proof.
  intros Hk. apply map_eq. intros j. unfold delete_where. apply option_eq. intros x.
  rewrite lookup_delete_Some, map_lookup_filter_Some. simpl. split.
  - intros [Hne Hx]. split; [done|]. rewrite (Hk _ _ Hx). congruence.
  - intros [Hx Hne]. split; [|done]. rewrite (Hk _ _ Hx) in Hne. congruence.
Qed.

Lemma insert_where g k x m :
  own_keys m -> m !! k = Some x -> <[k := g x]> m = update_where (fun r => key r = k) g m.
Proof.
  intros Hk Hx. rewrite <- alter_where by done. apply map_eq. intros j.
  destruct (decide (j = k)) as [->|Hne].
  - by rewrite lookup_insert_eq, lookup_alter_eq, Hx.
  - by rewrite lookup_insert_ne, lookup_alter_ne.
Qed.
End rows.

(** ** Conditions *)

Definition value_eq (a b : value) : Prop :=
  match a, b with VInt x, VInt y => x = y | VText s, VText t => s = t | _, _ => False end.
Definition value_ne (a b : value) : Prop :=
  match a, b with
  | VNull, _ | _, VNull => False
  | VInt x, VInt y => x <> y
  | VText s, VText t => s <> t
  | _, _ => True
  end.

Lemma string_compare_eq s t : String.compare s t = Eq <-> s = t.
Proof.
  split; [apply String.compare_eq_iff|]. intros ->.
  induction t as [|a t IH]; simpl; [done|]. unfold Ascii.compare. by rewrite N.compare_refl.
Qed.

Lemma is_eq_iff a b : is_eq <$> vcompare a b = Some true <-> value_eq a b.
Proof.
  destruct a as [|x|s], b as [|y|t]; simpl; try done.
  - rewrite <- Z.compare_eq_iff. by destruct (x ?= y)%Z.
  - rewrite <- string_compare_eq. by destruct (String.compare s t).
Qed.

Lemma is_ne_iff a b : is_eq <$> vcompare a b = Some false <-> value_ne a b.
Proof.
  destruct a as [|x|s], b as [|y|t]; simpl; try done.
  - rewrite <- Z.compare_eq_iff. by destruct (x ?= y)%Z.
  - rewrite <- string_compare_eq. by destruct (String.compare s t).
Qed.

Lemma truth_of_truth b : truth (of_truth b) = b.
Proof. by destruct b as [[]|]. Qed.

Lemma among_true a l : among a l = Some true <-> Exists (value_eq a) l.
Proof.
  unfold among. induction l as [|b l IH]; simpl.
  - split; [done|]. by intros ?%Exists_nil.
  - rewrite Exists_cons, <- IH, <- is_eq_iff.
    destruct (is_eq <$> vcompare a b) as [[]|], (foldr _ _ _) as [[]|]; naive_solver.
Qed.

Lemma among_false a l : among a l = Some false <-> Forall (value_ne a) l.
Proof.
  unfold among. induction l as [|b l IH]; simpl; [done|].
  rewrite Forall_cons, <- IH, <- is_ne_iff.
  destruct (is_eq <$> vcompare a b) as [[]|], (foldr _ _ _) as [[]|]; naive_solver.
Qed.

Section satisfies.
Context (tabs : gmap string tbl) (args : list value).
Notation sat w r := (satisfies tabs args w r = true).
Notation ev := (eval tabs args).

Lemma satisfies_truth w r : sat w r <-> truth (ev r w) = Some true.
Proof. unfold satisfies. by destruct (truth _) as [[]|]. Qed.

Lemma sat_both a b r : sat (Both a b) r <-> sat a r /\ sat b r.
Proof.
  rewrite !satisfies_truth. cbn [eval]. rewrite truth_of_truth.
  destruct (truth (ev r a)) as [[]|], (truth (ev r b)) as [[]|]; naive_solver.
Qed.
Lemma sat_either a b r : sat (Either a b) r <-> sat a r \/ sat b r.
Proof.
  rewrite !satisfies_truth. cbn [eval]. rewrite truth_of_truth.
  destruct (truth (ev r a)) as [[]|], (truth (ev r b)) as [[]|]; naive_solver.
Qed.
Lemma sat_equal a b r : sat (Equal a b) r <-> value_eq (ev r a) (ev r b).
Proof. rewrite satisfies_truth. cbn [eval]. rewrite truth_of_truth. apply is_eq_iff. Qed.
Lemma sat_notequal a b r : sat (NotEqual a b) r <-> value_ne (ev r a) (ev r b).
Proof.
  rewrite satisfies_truth. cbn [eval]. rewrite truth_of_truth, <- is_ne_iff. unfold not3.
  destruct (is_eq <$> vcompare (ev r a) (ev r b)) as [[]|]; naive_solver.
Qed.
Lemma sat_atmost a b r x y :
  ev r a = VInt x -> ev r b = VInt y -> sat (AtMost a b) r <-> (x <= y)%Z.
Proof.
  intros Ha Hb. rewrite satisfies_truth. cbn [eval]. rewrite truth_of_truth, Ha, Hb. simpl.
  unfold Z.le. destruct (x ?= y)%Z; naive_solver.
Qed.
Lemma sat_greater a b r x y :
  ev r a = VInt x -> ev r b = VInt y -> sat (Greater a b) r <-> (x > y)%Z.
Proof.
  intros Ha Hb. rewrite satisfies_truth. cbn [eval]. rewrite truth_of_truth, Ha, Hb. simpl.
  unfold Z.gt. destruct (x ?= y)%Z; naive_solver.
Qed.
Lemma sat_among a l r : sat (Among a l) r <-> Exists (value_eq (ev r a)) (map (ev r) l).
Proof. rewrite satisfies_truth. cbn [eval]. rewrite truth_of_truth. apply among_true. Qed.
Lemma sat_notamong a l r : sat (NotAmong a l) r <-> Forall (value_ne (ev r a)) (map (ev r) l).
Proof.
  rewrite satisfies_truth. cbn [eval]. rewrite truth_of_truth, <- among_false. unfold not3.
  destruct (among _ _) as [[]|]; naive_solver.
Qed.
Lemma sat_amongselect a c t w r :
  sat (AmongSelect a c t w) r <->
  exists r', r' ∈ table_rows tabs t /\ sat w r' /\ value_eq (ev r a) (default VNull (col c r')).
Proof.
  rewrite satisfies_truth. cbn [eval]. rewrite truth_of_truth, among_true, Exists_exists.
  split.
  - intros (v & (r' & -> & [Hs Hr]%list_elem_of_filter)%list_elem_of_fmap & Hv). exists r'.
    by rewrite satisfies_truth.
  - intros (r' & Hr & Hs & Hv). exists (default VNull (col c r')). split; [|done].
    apply list_elem_of_fmap. exists r'. split; [done|]. apply list_elem_of_filter.
    by rewrite <- satisfies_truth.
Qed.
Lemma sat_TRUE r : sat TRUE r <-> True.
Proof. done. Qed.
Lemma eval_count t w :
  ev [] (Count t w) = VInt (Z.of_nat (length (filter (fun r => sat w r) (table_rows tabs t)))).
Proof.
  cbn [eval]. do 3 f_equal. apply list_filter_iff. intros r. by rewrite satisfies_truth.
Qed.
Lemma eval_exists t w :
  ev [] (ExistsIn t w) =
  VInt (if decide (filter (fun r => sat w r) (table_rows tabs t) = []) then 0 else 1).
Proof.
  cbn [eval].
  rewrite (list_filter_iff (fun r => truth (ev r w) = Some true) (fun r => sat w r))
    by (intros r; by rewrite satisfies_truth).
  case_decide as E.
  - by rewrite bool_decide_eq_false_2 by tauto.
  - by rewrite bool_decide_eq_true_2.
Qed.
End satisfies.

(** ** Statements on tables of encoded rows *)

Definition holds (f : file) (t : string) (l : list row) : Prop :=
  exists tab, tables f !! t = Some tab /\ columns tab = columns_at (length migrations) t /\
    tab_rows tab ≡ₚ l.

(** Only the table [t] is different. *)
Record changed (t : string) (f f' : file) : Prop := {
  ch_tables : forall t', t' <> t -> tables f' !! t' = tables f !! t';
  ch_version : user_version f' = user_version f;
  ch_indexes : indexes f' = indexes f;
  ch_sequence : sequence f' = sequence f
}.

Lemma holds_perm f t l l' : l ≡ₚ l' -> holds f t l -> holds f t l'.
Proof. intros Hp (tab & ? & ? & ?). exists tab. by rewrite <- Hp. Qed.

#[export] Instance holds_proper f t : Proper ((≡ₚ) ==> iff) (holds f t).
Proof. intros l l' Hp. split; by apply holds_perm. Qed.

Lemma holds_changed t t' f f' l : changed t f f' -> t' <> t -> holds f t' l -> holds f' t' l.
Proof. intros Hc Hne (tab & Ht & ?). exists tab. by rewrite (ch_tables _ _ _ Hc). Qed.

Lemma changed_set_table t tab rs f : changed t f (set_table t tab rs f).
Proof. split; simpl; try done. intros t' Hne. by rewrite lookup_insert_ne. Qed.

Lemma holds_set_table t tab rs l f :
  columns tab = columns_at (length migrations) t -> rs ≡ₚ l -> holds (set_table t tab rs f) t l.
Proof. intros Hc Hp. eexists. simpl. rewrite lookup_insert_eq. by split_and!. Qed.

Section statements.
Context `{Codec, Engine}.
Context {A : Type} (enc : A -> row).

(** The rows of a table, as they are visited. *)
Lemma visited rs (l : list A) : rs ≡ₚ enc <$> l -> exists l', visit rs = enc <$> l' /\ l' ≡ₚ l.
Proof.
  intros Hp. rewrite <- (visit_perm rs) in Hp. apply Permutation_map_inv in Hp as (l' & E & Hp).
  by exists l'.
Qed.

Lemma filter_enc (Q : row -> Prop) `{forall r, Decision (Q r)} (P : A -> Prop)
    `{forall a, Decision (P a)} (l : list A) :
  (forall a, a ∈ l -> Q (enc a) <-> P a) -> filter Q (enc <$> l) = enc <$> filter P l.
Proof.
  induction l as [|a l IH]; intros HQ; [done|]. rewrite fmap_cons, !filter_cons.
  rewrite IH by (intros b Hb; apply HQ; by right).
  assert (Q (enc a) <-> P a) by (apply HQ; by left). repeat case_decide; naive_solver.
Qed.

Section where_.
Context (P : A -> Prop) `{forall a, Decision (P a)}.
Context (f : file) (t : string) (l : list A) (args : list value) (w : expr).
Context (Hf : holds f t (enc <$> l)).
Context (Hw : forall a, a ∈ l -> satisfies (tables f) args w (enc a) = true <-> P a).

Lemma exec_update set (g : A -> A) :
  (forall a, a ∈ l -> P a -> assign (tables f) args set (enc a) = enc (g a)) ->
  exists f' out l', exec_statement (Update t set w) args f = Ok (f', out) /\ changed t f f' /\
    holds f' t (enc <$> ((fun a => if decide (P a) then g a else a) <$> l)) /\
    l' ≡ₚ filter P l /\ returned out = (fun a => enc (g a)) <$> l' /\
    rowsAffected out = length (filter P l).
Proof.
  intros Hg. destruct Hf as (tab & Ht & Hc & Hp). destruct (visited _ l Hp) as (l1 & E1 & Hp1).
  cbn [exec_statement]. rewrite Ht. eexists _, _, (filter P l1).
  split; [reflexivity|]. split; [apply changed_set_table|]. simpl.
  assert (Hw1 : forall a, a ∈ l1 -> satisfies (tables f) args w (enc a) = true <-> P a)
    by (intros a Ha; apply Hw; by rewrite <- Hp1).
  assert (Hfilter : filter P l1 ≡ₚ filter P l) by by rewrite Hp1.
  rewrite E1, (filter_enc _ P) by done. split_and!.
  - apply holds_set_table; [done|]. rewrite Hp, <- list_fmap_compose. unfold compose.
    rewrite <- list_fmap_compose. apply reflexive_eq, list_fmap_ext. intros i a Ha%list_elem_of_lookup_2.
    unfold compose. specialize (Hw a Ha). destruct (satisfies _ _ _ _) eqn:Es.
    + rewrite decide_True by naive_solver. apply Hg; naive_solver.
    + by rewrite decide_False by naive_solver.
  - done.
  - rewrite <- list_fmap_compose. apply list_fmap_ext. intros i a Ha%list_elem_of_lookup_2.
    apply list_elem_of_filter in Ha as [HP Ha]. apply Hg; [by rewrite <- Hp1|done].
  - by rewrite !length_fmap, Hfilter.
Qed.

Lemma exec_delete :
  exists f' out l', exec_statement (Delete t w) args f = Ok (f', out) /\ changed t f f' /\
    holds f' t (enc <$> filter (fun a => ~ P a) l) /\
    l' ≡ₚ filter P l /\ returned out = enc <$> l' /\ rowsAffected out = length (filter P l).
Proof.
  destruct Hf as (tab & Ht & Hc & Hp). destruct (visited _ l Hp) as (l1 & E1 & Hp1).
  cbn [exec_statement]. rewrite Ht. eexists _, _, (filter P l1).
  split; [reflexivity|]. split; [apply changed_set_table|]. simpl.
  assert (Hw1 : forall a, a ∈ l1 -> satisfies (tables f) args w (enc a) = true <-> P a)
    by (intros a Ha; apply Hw; by rewrite <- Hp1).
  rewrite E1, (filter_enc _ P) by done. split_and!.
  - apply holds_set_table; [done|]. rewrite Hp. apply reflexive_eq, filter_enc.
    intros a Ha. rewrite <- (Hw a Ha). destruct (satisfies _ _ _ _); naive_solver.
  - by rewrite Hp1.
  - done.
  - by rewrite length_fmap, Hp1.
Qed.

(** A query: the rows that match, as they are visited, or sorted. *)
Lemma select_visited es order lv :
  visit (table_rows (tables f) t) = enc <$> lv -> lv ≡ₚ l ->
  run_select (SelectExprs es t w order) args (tables f) =
  (fun a => eval (tables f) args (enc a) <$> es) <$>
    match order with
    | [] => filter P lv
    | _ => sort_on values_le (fun a => project order (enc a)) (filter P lv)
    end.
Proof.
  intros E1 Hp1. unfold run_select, source_rows.
  cbn [s_from s_where s_order s_result s_distinct s_limit SelectExprs].
  rewrite E1, (filter_enc _ P) by (intros a Ha; apply Hw; by rewrite <- Hp1).
  destruct order as [|o order]; simpl limit_rows.
  - by rewrite <- list_fmap_compose.
  - rewrite (sort_on_fmap values_le values_le enc (project (o :: order))
      (fun a => project (o :: order) (enc a))) by done.
    by rewrite <- list_fmap_compose.
Qed.

Lemma visited_rows : exists lv, visit (table_rows (tables f) t) = enc <$> lv /\ lv ≡ₚ l.
Proof.
  destruct Hf as (tab & Ht & Hc & Hp). unfold table_rows. rewrite Ht. simpl default. by apply visited.
Qed.

Lemma project_cols cols r : eval (tables f) args r <$> (Col <$> cols) = project cols r.
Proof. unfold project. by rewrite <- list_fmap_compose. Qed.

Lemma select_rows cols order :
  exists l', l' ≡ₚ filter P l /\ run_select (Select cols t w order) args (tables f) =
    (fun a => project cols (enc a)) <$>
      match order with [] => l' | _ => sort_on values_le (fun a => project order (enc a)) l' end.
Proof.
  destruct visited_rows as (lv & E & Hp). exists (filter P lv). split; [by rewrite Hp|].
  unfold Select. rewrite (select_visited _ _ lv) by done. apply list_fmap_ext. intros i a _. apply project_cols.
Qed.

Lemma count_matching : length (filter (fun r => satisfies (tables f) args w r = true) (table_rows (tables f) t)) =
  length (filter P l).
Proof.
  destruct Hf as (tab & Ht & Hc & Hp). unfold table_rows. rewrite Ht.
  simpl default. by rewrite Hp, (filter_enc _ P), length_fmap.
Qed.
End where_.

Section insert.
Context (f : file) (t : string) (l : list A).
Context (Hf : holds f t (enc <$> l)).

Lemma clash_perm cols r rs rs' : rs ≡ₚ rs' -> clash cols r rs = clash cols r rs'.
Proof. intros Hp. unfold clash. f_equal. apply bool_decide_ext. by rewrite Hp. Qed.

Lemma constraint_error_perm r rs rs' :
  rs ≡ₚ rs' -> constraint_error f t r rs = constraint_error f t r rs'.
Proof.
  intros Hp. unfold constraint_error, key_clash, index_clash.
  by rewrite !(clash_perm _ r rs rs' Hp).
Qed.

Lemma exec_insert cols vals args a :
  t <> "events" ->
  new_row (columns_at (length migrations) t) (zip cols (eval (tables f) args [] <$> vals)) = enc a ->
  match constraint_error f t (enc a) (enc <$> l) with
  | Some e => exec_statement (Insert t cols vals) args f = Err e
  | None => exists f' out, exec_statement (Insert t cols vals) args f = Ok (f', out) /\
      changed t f f' /\ holds f' t (enc <$> (l ++ [a]))
  end.
Proof.
  intros Hne Ea. destruct Hf as (tab & Ht & Hc & Hp). cbn [exec_statement]. rewrite Ht.
  rewrite decide_False by tauto. rewrite Hc, Ea, (constraint_error_perm _ _ _ Hp).
  destruct (constraint_error _ _ _ _); [done|]. eexists _, _. split; [reflexivity|].
  split; [apply changed_set_table|]. apply holds_set_table; [done|]. by rewrite Hp, fmap_app.
Qed.
End insert.

(** A unique key. *)
Lemma clash_key {K} `{!EqDecision K} (key : A -> K) cols a l :
  (forall a, VNull ∉ project cols (enc a)) ->
  (forall a b, project cols (enc a) = project cols (enc b) <-> key a = key b) ->
  clash cols (enc a) (enc <$> l) = bool_decide (key a ∈ key <$> l).
Proof.
  intros Hn Hk. unfold clash. rewrite bool_decide_eq_true_2 by done. simpl. apply bool_decide_ext.
  rewrite !list_elem_of_fmap. setoid_rewrite list_elem_of_fmap. split.
  - intros (r & E & b & -> & Hb). exists b. split; [by apply Hk|done].
  - intros (b & E & Hb). exists (enc b). split; [by apply Hk|eauto].
Qed.
End statements.

Lemma key_in_rows {K A} `{Countable K} (key : A -> K) (m : gmap K A) k :
  own_keys key m -> k ∈ key <$> rows m <-> is_Some (m !! k).
Proof.
  intros Hk. rewrite list_elem_of_fmap. setoid_rewrite elem_of_rows. split.
  - intros (x & -> & j & Hj). rewrite (Hk _ _ Hj). eauto.
  - intros [x Hx]. exists x. split; [symmetry; by apply Hk|eauto].
Qed.

(** ** Methods, whatever calls fail *)

(** Run from [f], the method ends as [Q] says; or calls of the driver failed,
    it returned an error of the driver, and [F] holds of the file. *)
Definition dwp {A} (m : DbM A) (Q : file -> result StoreError A -> Prop) (F : file -> Prop)
    (f : file) : Prop :=
  forall fs, let r := m {| c_file := f; c_faults := fs |} in
    c_faults r.1 `suffix_of` fs /\
    (Q (c_file r.1) r.2 \/ true ∈ fs /\ (exists what, r.2 = Err (ErrOther what)) /\ F (c_file r.1)).

Section dwp.
Context `{Codec, Engine}.

Lemma dwp_mono {A} (m : DbM A) (Q Q' : file -> result StoreError A -> Prop) (F F' : file -> Prop) f :
  (forall f' r, Q f' r -> Q' f' r) -> (forall f', F f' -> F' f') -> dwp m Q F f -> dwp m Q' F' f.
Proof. intros HQ HF Hm fs. destruct (Hm fs) as [? [?|(? & ? & ?)]]; naive_solver. Qed.

Lemma dwp_ret {A} (x : A) (Q : file -> result StoreError A -> Prop) F f :
  Q f (Ok x) -> dwp (mret x) Q F f.
Proof. intros HQ fs. simpl. by split; [|left]. Qed.
Lemma dwp_throw {A} e (Q : file -> result StoreError A -> Prop) F f :
  Q f (Err e) -> dwp (throw e) Q F f.
Proof. intros HQ fs. simpl. by split; [|left]. Qed.
Lemma dwp_lift {A} (r : result StoreError A) Q F f : Q f r -> dwp (lift r) Q F f.
Proof. intros HQ fs. simpl. by split; [|left]. Qed.

Lemma dwp_bind {A B} (m : DbM A) (k : A -> DbM B) Q F f :
  dwp m (fun f' r => match r with Ok x => dwp (k x) Q F f' | Err e => Q f' (Err e) end) F f ->
  dwp (m ≫= k) Q F f.
Proof.
  intros Hm fs. destruct (Hm fs) as [Hs Hq]. unfold mbind, DbM_bind.
  destruct (m _) as [[f' fs'] [x|e]]; simpl in *.
  - destruct Hq as [Hq|(? & [? [=]] & _)]. destruct (Hq fs') as [Hs' Hq'].
    split; [by etrans|]. destruct Hq' as [?|(Hin & ? & ?)]; [by left|]. right. split_and!; try done.
    destruct Hs as [fs0 ->]. apply elem_of_app. by right.
  - split; [done|]. naive_solver.
Qed.

(** Calls of the driver. *)
Lemma dwp_call {A B} (g : file -> file * A) failed (k : A -> DbM B) Q F f :
  (exists what, k failed = throw (ErrOther what)) -> F f ->
  dwp (k (g f).2) Q F (g f).1 -> dwp (x ← call g failed; k x) Q F f.
Proof.
  intros [what Hk] HF Hg fs. unfold mbind, DbM_bind, call.
  assert (Hs : tail fs `suffix_of` fs) by (destruct fs; simpl; [done|by apply suffix_cons_r]).
  assert (Hgo : dwp (k (g f).2) Q F (g f).1 -> forall fs', fs' `suffix_of` fs ->
    let r := k (g f).2 {| c_file := (g f).1; c_faults := fs' |} in
    c_faults r.1 `suffix_of` fs /\
    (Q (c_file r.1) r.2 \/ true ∈ fs /\ (exists what, r.2 = Err (ErrOther what)) /\ F (c_file r.1))).
  { intros Hd fs' [fs0 ->]. destruct (Hd fs') as [Hs' Hq]. split; [by apply suffix_app_r|].
    destruct Hq as [?|(Hin & ? & ?)]; [by left|]. right. split_and!; try done.
    apply elem_of_app. by right. }
  destruct fs as [|[] fs]; simpl in *.
  - destruct (g f) as [f' x]. by apply (Hgo Hg []).
  - rewrite Hk. simpl. split; [done|]. right. split_and!; [by left|by eauto|done].
  - destruct (g f) as [f' x]. by apply (Hgo Hg fs).
Qed.

Lemma dwp_TryExec {A} s args (k : result sqlError outcome -> DbM A) Q F f :
  (exists what, k (Err Interrupted) = throw (ErrOther what)) -> F f ->
  (forall f' o, exec_statement s args f = Ok (f', o) -> dwp (k (Ok o)) Q F f') ->
  (forall e, exec_statement s args f = Err e -> dwp (k (Err e)) Q F f) ->
  dwp (r ← TryExec s args; k r) Q F f.
Proof.
  intros Hk HF Hok Herr. apply dwp_call; [done..|]. destruct (exec_statement s args f) as [[f' o]|e]; simpl; auto.
Qed.

Lemma dwp_ExecContext {A} what s args (k : outcome -> DbM A) (Q : file -> result StoreError A -> Prop) F f :
  F f ->
  (forall f' o, exec_statement s args f = Ok (f', o) -> dwp (k o) Q F f') ->
  (forall e, exec_statement s args f = Err e -> Q f (Err (ErrOther what))) ->
  dwp (o ← ExecContext what s args; k o) Q F f.
Proof.
  intros HF Hok Herr. apply dwp_bind. unfold ExecContext. apply dwp_TryExec; [by eexists|done|..].
  - intros f' o E. apply dwp_ret. by apply Hok.
  - intros e E. apply dwp_throw. by eapply Herr.
Qed.

Lemma dwp_QueryContext {A} what s args (k : list (list value) -> DbM A) Q F f :
  F f -> dwp (k (run_select s args (tables f))) Q F f ->
  dwp (l ← QueryContext what s args; k l) Q F f.
Proof.
  intros HF Hk. apply dwp_bind. unfold QueryContext. apply dwp_call; [by eexists|done|]. simpl.
  by apply dwp_ret.
Qed.

Lemma dwp_QueryRow {A} what s args (k : option (list value) -> DbM A) Q F f :
  F f -> dwp (k (head (run_select s args (tables f)))) Q F f ->
  dwp (l ← QueryRow what s args; k l) Q F f.
Proof.
  intros HF Hk. apply dwp_bind. unfold QueryRow. apply dwp_QueryContext; [done|]. by apply dwp_ret.
Qed.

Lemma dwp_QueryReturning {A} what s cols args (k : list (list value) -> DbM A) (Q : file -> result StoreError A -> Prop) F f :
  F f ->
  (forall f' o, exec_statement s args f = Ok (f', o) -> dwp (k (project cols <$> returned o)) Q F f') ->
  (forall e, exec_statement s args f = Err e -> Q f (Err (ErrOther what))) ->
  dwp (l ← QueryReturning what s cols args; k l) Q F f.
Proof.
  intros HF Hok Herr. apply dwp_bind. unfold QueryReturning. apply dwp_ExecContext; [done| |done].
  intros f' o E. apply dwp_ret. by apply Hok.
Qed.

(** A transaction takes effect as a whole or not at all. *)
Lemma dwp_tx {A} what (m : DbM A) (Q : file -> result StoreError A -> Prop) (F : file -> Prop) f :
  F f ->
  dwp m (fun f' r => match r with Ok x => Q f' (Ok x) | Err e => Q f (Err e) end) (fun _ => True) f ->
  dwp (tx what m) Q F f.
Proof.
  intros HF Hm fs. unfold tx, call. cbn [c_file c_faults].
  assert (Hbody : forall fs0, fs0 `suffix_of` fs ->
    let r := match m {| c_file := f; c_faults := fs0 |} with
             | (c2, Err e) => ({| c_file := f; c_faults := c_faults c2 |}, Err e)
             | (c2, Ok x) =>
                 match head (c_faults c2) with
                 | Some true => ({| c_file := f; c_faults := tail (c_faults c2) |},
                                 Err (ErrOther ("commit " +:+ what)))
                 | _ => ({| c_file := c_file c2; c_faults := tail (c_faults c2) |}, Ok x)
                 end
             end in
    c_faults r.1 `suffix_of` fs /\
    (Q (c_file r.1) r.2 \/ true ∈ fs /\ (exists what, r.2 = Err (ErrOther what)) /\ F (c_file r.1))).
  { intros fs0 [p ->]. destruct (Hm fs0) as [[p1 Hp1] Hq]. destruct (m _) as [[f1 fs1] [x|e]]; simpl in *; subst fs0.
    - destruct Hq as [Hq|(_ & [? [=]] & _)]. destruct fs1 as [|[] fs1]; simpl.
      + split; [|by left]. apply suffix_nil.
      + split; [by do 2 apply suffix_app_r; apply suffix_cons_r|]. right. split_and!; [|by eauto|done].
        rewrite !elem_of_app. right. right. by left.
      + split; [by do 2 apply suffix_app_r; apply suffix_cons_r|]. by left.
    - split; [by do 2 apply suffix_app_r|]. destruct Hq as [Hq|(Hin & [w ->] & _)]; [by left|].
      right. split_and!; [|by eauto|done]. apply elem_of_app. by right. }
  destruct fs as [|[] fs]; simpl in *.
  - specialize (Hbody [] ltac:(done)). destruct (m _) as [[f1 fs1] [x|e]]; simpl in *; [|done].
    by destruct fs1 as [|[] fs1].
  - split; [by apply suffix_cons_r|]. right. split_and!; [by left|by eauto|done].
  - specialize (Hbody fs ltac:(by apply suffix_cons_r)). destruct (m _) as [[f1 fs1] [x|e]]; simpl in *; [|done].
    by destruct fs1 as [|[] fs1].
Qed.
End dwp.

(** ** Statements in methods *)

Section steps.
Context `{Codec, Engine} {A B : Type} (enc : A -> row).
Context (f : file) (t : string) (l : list A) (Hf : holds f t (enc <$> l)).
Context (Q : file -> result StoreError B -> Prop) (F : file -> Prop) (HF : F f).

Lemma dwp_insert what cols vals args a (k : outcome -> DbM B) :
  t <> "events" ->
  new_row (columns_at (length migrations) t) (zip cols (eval (tables f) args [] <$> vals)) = enc a ->
  match constraint_error f t (enc a) (enc <$> l) with
  | Some _ => Q f (Err (ErrOther what))
  | None => forall f' o, changed t f f' -> holds f' t (enc <$> (l ++ [a])) -> dwp (k o) Q F f'
  end ->
  dwp (o ← ExecContext what (Insert t cols vals) args; k o) Q F f.
Proof.
  intros Ht Ea Hk. pose proof (exec_insert enc f t l Hf cols vals args a Ht Ea) as Hi.
  destruct (constraint_error _ _ _ _) as [e|].
  - by apply dwp_ExecContext; [done|congruence|].
  - destruct Hi as (f1 & o1 & E1 & Hc & Hh). apply dwp_ExecContext; [done| |congruence].
    intros f' o E. rewrite E1 in E. injection E as <- <-. auto.
Qed.

(** An INSERT whose error is looked at. *)
Lemma dwp_try_insert cols vals args a (k : result sqlError outcome -> DbM B) :
  t <> "events" ->
  new_row (columns_at (length migrations) t) (zip cols (eval (tables f) args [] <$> vals)) = enc a ->
  (exists what, k (Err Interrupted) = throw (ErrOther what)) ->
  match constraint_error f t (enc a) (enc <$> l) with
  | Some e => dwp (k (Err e)) Q F f
  | None => forall f' o, changed t f f' -> holds f' t (enc <$> (l ++ [a])) -> dwp (k (Ok o)) Q F f'
  end ->
  dwp (r ← TryExec (Insert t cols vals) args; k r) Q F f.
Proof.
  intros Ht Ea Hint Hk. pose proof (exec_insert enc f t l Hf cols vals args a Ht Ea) as Hi.
  destruct (constraint_error _ _ _ _) as [e|].
  - apply dwp_TryExec; [done..|congruence|]. intros e' E. rewrite Hi in E. by injection E as <-.
  - destruct Hi as (f1 & o1 & E1 & Hc & Hh). apply dwp_TryExec; [done..| |congruence].
    intros f' o E. rewrite E1 in E. injection E as <- <-. auto.
Qed.

Section where_.
Context (P : A -> Prop) `{forall a, Decision (P a)} (args : list value) (w : expr).
Context (Hw : forall a, satisfies (tables f) args w (enc a) = true <-> P a).

Lemma dwp_update what set g (k : outcome -> DbM B) :
  (forall a, P a -> assign (tables f) args set (enc a) = enc (g a)) ->
  (forall f' o, changed t f f' ->
     holds f' t (enc <$> ((fun a => if decide (P a) then g a else a) <$> l)) ->
     rowsAffected o = length (filter P l) -> dwp (k o) Q F f') ->
  dwp (o ← ExecContext what (Update t set w) args; k o) Q F f.
Proof.
  intros Hg Hk. destruct (exec_update enc P f t l args w Hf (fun a _ => Hw a) set g (fun a _ => Hg a))
    as (f1 & o1 & l' & E1 & Hc & Hh & _ & _ & Hn).
  apply dwp_ExecContext; [done| |congruence]. intros f' o E. rewrite E1 in E. injection E as <- <-. auto.
Qed.

Lemma dwp_update_returning what set g cols (k : list (list value) -> DbM B) :
  (forall a, P a -> assign (tables f) args set (enc a) = enc (g a)) ->
  (forall f' l', changed t f f' ->
     holds f' t (enc <$> ((fun a => if decide (P a) then g a else a) <$> l)) ->
     l' ≡ₚ filter P l -> dwp (k ((fun a => project cols (enc (g a))) <$> l')) Q F f') ->
  dwp (ts ← QueryReturning what (Update t set w) cols args; k ts) Q F f.
Proof.
  intros Hg Hk. destruct (exec_update enc P f t l args w Hf (fun a _ => Hw a) set g (fun a _ => Hg a))
    as (f1 & o1 & l' & E1 & Hc & Hh & Hl & Hr & _).
  apply dwp_QueryReturning; [done| |congruence]. intros f' o E. rewrite E1 in E. injection E as <- <-.
  rewrite Hr, <- list_fmap_compose. by apply Hk.
Qed.

Lemma dwp_delete what (k : outcome -> DbM B) :
  (forall f' o, changed t f f' -> holds f' t (enc <$> filter (fun a => ~ P a) l) ->
     rowsAffected o = length (filter P l) -> dwp (k o) Q F f') ->
  dwp (o ← ExecContext what (Delete t w) args; k o) Q F f.
Proof.
  intros Hk. destruct (exec_delete enc P f t l args w Hf (fun a _ => Hw a))
    as (f1 & o1 & l' & E1 & Hc & Hh & _ & _ & Hn).
  apply dwp_ExecContext; [done| |congruence]. intros f' o E. rewrite E1 in E. injection E as <- <-. auto.
Qed.

Lemma dwp_delete_returning what cols (k : list (list value) -> DbM B) :
  (forall f' l', changed t f f' -> holds f' t (enc <$> filter (fun a => ~ P a) l) ->
     l' ≡ₚ filter P l -> dwp (k ((fun a => project cols (enc a)) <$> l')) Q F f') ->
  dwp (ts ← QueryReturning what (Delete t w) cols args; k ts) Q F f.
Proof.
  intros Hk. destruct (exec_delete enc P f t l args w Hf (fun a _ => Hw a))
    as (f1 & o1 & l' & E1 & Hc & Hh & Hl & Hr & _).
  apply dwp_QueryReturning; [done| |congruence]. intros f' o E. rewrite E1 in E. injection E as <- <-.
  rewrite Hr, <- list_fmap_compose. by apply Hk.
Qed.
End where_.
End steps.

Lemma dwp_checkRowsAffected (o : outcome) (Q : file -> result StoreError unit -> Prop) F f :
  Q f (if decide (rowsAffected o = 0) then Err ErrNotFound else Ok tt) -> dwp (checkRowsAffected o) Q F f.
Proof. unfold checkRowsAffected. case_decide; [apply dwp_throw|apply dwp_ret]. Qed.
