(* ===== verification/SqlTables.v ===== *)
(** * Database files and tables

    When the file of an open database and the tables of [Store] say the same
    ([represents]), and what queries and statements do to both. *)

From stdpp Require Import base gmap strings list sorting.
From Stdlib Require Import ZArith Lia.
From S2P Require Import Prelude Types Convert Store StoreOps Schema SchemaProps Sql SqlStore SqlProps.

(** ** Encodings *)

Definition enc_pool (r : poolRow) : row :=
  [("name", VText (pr_name r)); ("namespace", VText (pr_namespace r)); ("size", VInt (pr_size r));
   ("flintlock_hosts", VText (pr_flintlockHosts r)); ("microvm_template", VText (pr_microvmTemplate r));
   ("replenishment_strategy", VText (pr_replenishmentStrategy r));
   ("create_commands", VText (pr_createCommands r)); ("pre_lease_commands", VText (pr_preLeaseCommands r));
   ("hook_failure_policy", VInt (pr_hookFailurePolicy r));
   ("heartbeat_interval_ns", VInt (pr_heartbeatIntervalNs r));
   ("heartbeat_expiry_threshold_ns", VInt (pr_heartbeatExpiryThresholdNs r))].

Definition enc_vm (r : vmRow) : row :=
  [("uid", VText (vr_uid r)); ("pool_name", VText (vr_poolName r));
   ("pool_namespace", VText (vr_poolNamespace r)); ("flintlock_host", VText (vr_flintlockHost r));
   ("phase", VInt (vr_phase r)); ("lease_id", null_text (vr_leaseID r));
   ("created_at", VInt (vr_createdAt r)); ("updated_at", VInt (vr_updatedAt r))].

Definition enc_lease (r : leaseRow) : row := lease_row_at (length migrations) r.
Definition enc_host (r : hostRow) : row := host_row_at (length migrations) r.

Definition enc_event (r : eventRow) : row :=
  [("id", VInt (er_id r)); ("pool_name", VText (er_poolName r));
   ("pool_namespace", VText (er_poolNamespace r)); ("vm_uid", VText (er_vmUID r));
   ("type", VInt (er_type r)); ("created_at", VInt (er_createdAt r));
   ("payload_json", VText (er_payloadJSON r))].

Definition enc_placement (r : placementRow) : row :=
  [("id", VText (pl_id r)); ("host", VText (pl_host r)); ("pool_name", VText (pl_poolName r));
   ("pool_namespace", VText (pl_poolNamespace r)); ("created_at", VInt (pl_createdAt r))].

Record represents (f : file) (db : DB) : Prop := {
  rep_pools : holds f "pools" (enc_pool <$> rows (pools db));
  rep_vms : holds f "vms" (enc_vm <$> rows (vms db));
  rep_leases : holds f "leases" (enc_lease <$> rows (leases db));
  rep_events : holds f "events" (enc_event <$> events db);
  rep_hosts : holds f "hosts" (enc_host <$> rows (hosts db));
  rep_placements : holds f "placements" (enc_placement <$> rows (placements db));
  rep_sequence : sequence f = events_seq db;
  rep_index : idx_leases_request_id ∈ indexes f;
  rep_version : user_version f = length migrations;
  rep_tables : forall t, is_Some (tables f !! t) -> t ∈ schema.*1
}.

(** What the 32-bit columns hold fits, as it came from fields of 32 bits. *)
Definition typed_pool (r : poolRow) : Prop := in_int32 (pr_size r) /\ in_int32 (pr_hookFailurePolicy r).
Definition typed_vm (r : vmRow) : Prop := in_int32 (vr_phase r).
Record typed (db : DB) : Prop := {
  ty_pools : map_Forall (fun _ => typed_pool) (pools db);
  ty_vms : map_Forall (fun _ => typed_vm) (vms db);
  ty_events : Forall (fun e => in_int32 (er_type e)) (events db)
}.

(** The arguments of a call have their Go types. *)
Definition op_typed {A} (o : storeOp A) : Prop :=
  match o with
  | OpCreatePool p | OpUpdatePool p =>
      in_int32 (pool_size p) /\ in_int32 (policy_code (hook_failure_policy p))
  | OpCreateVM v | OpUpdateVM v | OpLeaseVM v _ => in_int32 (phase_code (vm_phase v))
  | OpAppendEvent e => in_int32 (event_code (event_type e))
  | _ => True
  end.

(** ** Scanning what was encoded *)

Lemma scan_int32_ok z : in_int32 z -> scan_int32 (VInt z) = Some z.
Proof. intros Hz. unfold scan_int32. by rewrite decide_True. Qed.

Lemma scan_bool_int b : scan_bool (bool_int b) = Some b.
Proof. by destruct b. Qed.
Lemma scan_null_text_ok s : scan_null_text (null_text s) = Some s.
Proof. by destruct s. Qed.
Lemma scan_null_int_ok z : scan_null_int (null_int z) = Some z.
Proof. by destruct z. Qed.

Lemma scan_pool r : typed_pool r -> scanPool (project pools_columns (enc_pool r)) = Some r.
Proof.
  intros [Hs Hp]. simpl. unfold typed_pool, in_int32 in *. rewrite !decide_True by done. by destruct r.
Qed.
Lemma scan_vm r : typed_vm r -> scanVM (project vms_columns (enc_vm r)) = Some r.
Proof.
  intros Hp. simpl. unfold typed_vm, in_int32 in *. rewrite decide_True by done. simpl.
  rewrite scan_null_text_ok. by destruct r.
Qed.
Lemma scan_lease r : scanLease (project leaseColumns (enc_lease r)) = Some r.
Proof. by destruct r as [??????? []]. Qed.
Lemma scan_host r : scanHost (project hostColumns (enc_host r)) = Some r.
Proof. destruct r as [?? [] [] [] ? [] ??? [] []]; reflexivity. Qed.
Lemma scan_event r :
  in_int32 (er_type r) -> scanEvent (project events_columns (enc_event r)) = Some (rowToEvent r).
Proof.
  intros Hp. simpl. unfold in_int32 in *. rewrite decide_True by done. by destruct r.
Qed.

(** ** Queries of a table *)

Lemma mapM_fmap {A B C} (g : B -> result StoreError C) (h : A -> B) (l : list A) :
  mapM g (h <$> l) = mapM (fun a => g (h a)) l.
Proof. induction l as [|a l IH]; [done|]. rewrite fmap_cons. cbn [mapM]. by rewrite IH. Qed.

Lemma mapM_ext_in {A B} (g h : A -> result StoreError B) l :
  (forall a, a ∈ l -> g a = h a) -> mapM g l = mapM h l.
Proof.
  induction l as [|a l IH]; intros Hg; [done|]. cbn [mapM]. rewrite Hg by by left.
  rewrite IH; [done|]. intros b Hb. apply Hg. by right.
Qed.

Lemma mapM_ok {A B} (h : A -> B) (l : list A) : mapM (M := result StoreError) (fun a => Ok (h a)) l = Ok (h <$> l).
Proof. induction l as [|a l IH]; [done|]. cbn [mapM]. by rewrite IH. Qed.

Lemma value_le_refl v : value_le v v.
Proof. destruct v as [|z|s]; cbn; [done|by rewrite Z.compare_refl|]. by rewrite (proj2 (string_compare_eq s s) eq_refl). Qed.

Lemma text_le s t : value_le (VText s) (VText t) <-> String.le s t.
Proof. simpl. unfold String.le, String.leb. destruct (String.compare s t); naive_solver. Qed.

Lemma values_le_text s t : values_le [VText s] [VText t] <-> String.le s t.
Proof.
  cbn [values_le]. case_decide as E; [|apply text_le]. injection E as ->.
  split; [|by intros _]. intros _. apply text_le, value_le_refl.
Qed.
Lemma values_le_int x y : values_le [VInt x] [VInt y] <-> (x <= y)%Z.
Proof.
  cbn [values_le]. case_decide as E; [injection E as ->; split; [lia|done]|]. cbn. unfold Z.le.
  destruct (x ?= y)%Z; naive_solver.
Qed.
Lemma values_le_texts s s' t t' : values_le [VText s; VText s'] [VText t; VText t'] <-> pair_le (s, s') (t, t').
Proof.
  cbn [values_le]. unfold pair_le. cbn [fst snd]. case_decide as E.
  - injection E as ->. destruct (decide (t = t)); [|done]. apply values_le_text.
  - destruct (decide (s = t)); [congruence|]. apply text_le.
Qed.

(** The rows that match, by a unique key. *)
Lemma sorted_by `{Codec, Engine} {A L} (enc : A -> row) t cols f (l : list A) (Hf : holds f t (enc <$> l))
    (R : relation L) `{!RelDecision R, !Total R, !Transitive R, !AntiSymm (=) R}
    (okey : A -> L) (P : A -> Prop) `{forall a, Decision (P a)} w args o order :
  (forall a, satisfies (tables f) args w (enc a) = true <-> P a) ->
  (forall a b, values_le (project (o :: order) (enc a)) (project (o :: order) (enc b)) <-> R (okey a) (okey b)) ->
  NoDup (okey <$> l) ->
  run_select (Select cols t w (o :: order)) args (tables f) =
  (fun a => project cols (enc a)) <$> sort_on R okey (filter P l).
Proof.
  intros Hw HR Hnd. destruct (select_rows enc P f t l args w Hf (fun a _ => Hw a) cols (o :: order))
    as (l' & Hp & ->). f_equal.
  pose proof (sort_on_fmap values_le R id (fun a => project (o :: order) (enc a)) okey HR l') as E.
  rewrite !list_fmap_id in E. rewrite E. apply sort_on_unique; try apply _; [done|].
  rewrite Hp. eapply sublist_NoDup; [exact Hnd|]. apply fmap_sublist, list.sublist_filter.
Qed.

Section table.
Context `{Codec, Engine} {K A : Type} `{Countable K}.
Context (enc : A -> row) (key : A -> K) (t : string) (cols : list string) (dest : list value -> option A).
Context (f : file) (m : gmap K A) (Hf : holds f t (enc <$> rows m)).
Context (Hscan : forall a, a ∈ rows m -> dest (project cols (enc a)) = Some a).

(** The row with a key. *)
Lemma row_by_key none what w args k :
  own_keys key m ->
  (forall a, satisfies (tables f) args w (enc a) = true <-> key a = k) ->
  row_or none what dest (head (run_select (Select cols t w []) args (tables f))) =
  match m !! k with Some r => Ok r | None => Err none end.
Proof.
  intros Hk Hw. destruct (select_rows enc (fun a => key a = k) f t (rows m) args w Hf (fun a _ => Hw a) cols [])
    as (l' & Hp & ->). rewrite rows_key in Hp by done.
  destruct (m !! k) as [r|] eqn:Hr; simpl in Hp.
  - apply Permutation_singleton_r in Hp as ->. simpl. unfold scan.
    rewrite Hscan; [done|]. apply elem_of_rows. eauto.
  - apply Permutation_nil_r in Hp as ->. done.
Qed.

(** Is there a row with a key? *)
Lemma one_by_key none what w args k :
  own_keys key m ->
  (forall a, satisfies (tables f) args w (enc a) = true <-> key a = k) ->
  row_or none what (scan1 scan_int) (head (run_select (SelectExprs [Lit (VInt 1)] t w []) args (tables f))) =
  match m !! k with Some _ => Ok 1%Z | None => Err none end.
Proof.
  intros Hk Hw. destruct (visited_rows enc f t (rows m) Hf) as (lv & E & Hp).
  rewrite (select_visited enc (fun a => key a = k) f t (rows m) args w (fun a _ => Hw a) _ [] lv) by done.
  assert (Hl : filter (fun a => key a = k) lv ≡ₚ option_list (m !! k)) by by rewrite Hp, rows_key.
  destruct (m !! k) as [r|]; simpl in Hl.
  - by apply Permutation_singleton_r in Hl as ->.
  - by apply Permutation_nil_r in Hl as ->.
Qed.

Lemma exists_by_key none what w args k :
  own_keys key m ->
  (forall a, satisfies (tables f) args w (enc a) = true <-> key a = k) ->
  row_or none what (scan1 scan_bool) (head (run_select (SelectScalar (ExistsIn t w)) args (tables f))) =
  Ok (bool_decide (is_Some (m !! k))).
Proof.
  intros Hk Hw. change (run_select (SelectScalar (ExistsIn t w)) args (tables f)) with
    [[eval (tables f) args [] (ExistsIn t w)]]. rewrite eval_exists.
  pose proof (count_matching enc (fun a => key a = k) f t (rows m) args w Hf (fun a _ => Hw a)) as Hn.
  rewrite rows_key in Hn by done. destruct (m !! k) as [r|]; simpl in Hn.
  - rewrite decide_False by (intros E; by rewrite E in Hn). done.
  - rewrite decide_True by by apply nil_length_inv. done.
Qed.

Lemma eval_count_rows (P : A -> Prop) `{forall a, Decision (P a)} w args :
  (forall a, satisfies (tables f) args w (enc a) = true <-> P a) ->
  eval (tables f) args [] (Count t w) = VInt (Z.of_nat (length (filter P (rows m)))).
Proof. intros Hw. by rewrite eval_count, (count_matching enc P f t (rows m)). Qed.

Lemma scan_all {B} what (g : A -> B) l :
  (forall a, a ∈ l -> a ∈ rows m) ->
  mapM (M := result StoreError) (fun t => a ← scan what dest t; Ok (g a))
    ((fun a => project cols (enc a)) <$> l) = Ok (g <$> l).
Proof.
  intros Hl. rewrite mapM_fmap. rewrite <- mapM_ok. apply mapM_ext_in. intros a Ha. unfold scan.
  by rewrite Hscan by auto.
Qed.
End table.

(** ** One table changed *)

(** A table that is not there does not appear. *)
Lemma tables_changed t f f' l :
  changed t f f' -> holds f t l -> (forall t', is_Some (tables f !! t') -> t' ∈ schema.*1) ->
  forall t', is_Some (tables f' !! t') -> t' ∈ schema.*1.
Proof.
  intros Hc (tab & Ht & _) Hall t' Ht'. destruct (decide (t' = t)) as [->|Hne]; [eauto|].
  rewrite (ch_tables _ _ _ Hc) in Ht' by done. auto.
Qed.

Ltac rep_tac :=
  intros [] Hc Hm; split; simpl; try (by eapply holds_changed); try done;
  [by rewrite (ch_sequence _ _ _ Hc)|by rewrite (ch_indexes _ _ _ Hc)|by rewrite (ch_version _ _ _ Hc)|
   by eapply tables_changed].

Lemma rep_set_pools f f' db m :
  represents f db -> changed "pools" f f' -> holds f' "pools" (enc_pool <$> rows m) ->
  represents f' (set_pools m db).
Proof. rep_tac. Qed.
Lemma rep_set_vms f f' db m :
  represents f db -> changed "vms" f f' -> holds f' "vms" (enc_vm <$> rows m) ->
  represents f' (set_vms m db).
Proof. rep_tac. Qed.
Lemma rep_set_leases f f' db m :
  represents f db -> changed "leases" f f' -> holds f' "leases" (enc_lease <$> rows m) ->
  represents f' (set_leases m db).
Proof. rep_tac. Qed.
Lemma rep_set_hosts f f' db m :
  represents f db -> changed "hosts" f f' -> holds f' "hosts" (enc_host <$> rows m) ->
  represents f' (set_hosts m db).
Proof. rep_tac. Qed.
Lemma rep_set_placements f f' db m :
  represents f db -> changed "placements" f f' -> holds f' "placements" (enc_placement <$> rows m) ->
  represents f' (set_placements m db).
Proof. rep_tac. Qed.

Lemma rep_append f tab db r id :
  represents f db -> tables f !! "events" = Some tab ->
  represents (set_sequence id (set_table "events" tab (tab_rows tab ++ [enc_event r]) f))
    (set_events (events db ++ [r]) id db).
Proof.
  intros [] Ht.
  assert (Ho : forall t l, t <> "events" -> holds f t l ->
    holds (set_table "events" tab (tab_rows tab ++ [enc_event r]) f) t l)
    by (intros t l Hne; apply (holds_changed "events"); [apply changed_set_table|done]).
  split; simpl; try (by apply Ho); try done.
  2:{ intros t. rewrite lookup_insert_is_Some. intros [<-|[_ Hs]]; eauto. }
  destruct rep_events0 as (tab' & Ht' & Hc & Hp). rewrite Ht in Ht'. injection Ht' as <-.
  apply (holds_set_table "events"); [done|]. by rewrite Hp, fmap_app.
Qed.

Lemma own_pool_keys db : db_wf db -> own_keys (fun r => (pr_name r, pr_namespace r)) (pools db).
Proof. intros W k x Hx. by apply (wf_pools _ W). Qed.
Lemma own_vm_keys db : db_wf db -> own_keys vr_uid (vms db).
Proof. intros W k x Hx. by apply (wf_vms _ W). Qed.
Lemma own_lease_keys db : db_wf db -> own_keys lr_leaseID (leases db).
Proof. intros W k x Hx. by apply (wf_leases _ W). Qed.
Lemma own_host_keys db : db_wf db -> own_keys hr_name (hosts db).
Proof. intros W k x Hx. by apply (wf_hosts _ W). Qed.
Lemma own_placement_keys db : db_wf db -> own_keys pl_id (placements db).
Proof. intros W k x Hx. by apply (wf_placement_ids _ W). Qed.

Lemma typed_pool_in db r : typed db -> r ∈ rows (pools db) -> typed_pool r.
Proof. intros T [k Hk]%elem_of_rows. by apply (ty_pools _ T k). Qed.
Lemma typed_vm_in db r : typed db -> r ∈ rows (vms db) -> typed_vm r.
Proof. intros T [k Hk]%elem_of_rows. by apply (ty_vms _ T k). Qed.

(** Rows affected by a statement that names a primary key. *)
Lemma affected_key {K A} `{Countable K} (key : A -> K) (m : gmap K A) k :
  own_keys key m -> length (filter (fun r => key r = k) (rows m)) = matched (m !! k).
Proof. intros Hk. rewrite rows_key by done. by destruct (m !! k). Qed.

Lemma filter_True {A} (l : list A) : filter (fun _ => True) l = l.
Proof. induction l as [|a l IH]; [done|]. by rewrite filter_cons_True, IH. Qed.

(** A row with a key that is taken. *)
Lemma key_error `{Engine} {K A} `{Countable K} (enc : A -> row) (key : A -> K) f t (m : gmap K A) a :
  t <> "leases" -> own_keys key m ->
  (forall a, VNull ∉ project (primary_key t) (enc a)) ->
  (forall a b, project (primary_key t) (enc a) = project (primary_key t) (enc b) <-> key a = key b) ->
  constraint_error f t (enc a) (enc <$> rows m) =
  match m !! key a with
  | Some _ => Some (Constraint SQLITE_CONSTRAINT_PRIMARYKEY ((fun c => t +:+ "." +:+ c) <$> primary_key t))
  | None => None
  end.
Proof.
  intros Ht Hk Hn Hp. unfold constraint_error, key_clash, index_clash.
  rewrite (bool_decide_eq_false_2 (t = "leases" /\ _)) by tauto. simpl andb.
  rewrite (clash_key enc key) by done. pose proof (key_in_rows key m (key a) Hk) as Hin.
  destruct (m !! key a) as [b|].
  - rewrite bool_decide_eq_true_2 by (apply Hin; eauto). by destruct index_first.
  - rewrite bool_decide_eq_false_2 by (rewrite Hin; by intros [? [=]]). by destruct index_first.
Qed.

(** A WHERE on an encoded row, as a proposition. *)
Ltac where_simpl :=
  rewrite ?sat_both, ?sat_either, ?sat_equal, ?sat_notequal, ?sat_among, ?sat_notamong, ?sat_TRUE;
  unfold in_pool, lease_in_pool, has_phase, leased_phase, unleased, on_host;
  cbn; rewrite ?Exists_cons, ?Exists_nil, ?Forall_cons, ?Forall_nil; cbn; try tauto.
Ltac where_tac := intros ?; where_simpl.

Ltac not_null :=
  intros ? Hn; cbn in Hn; repeat (apply elem_of_cons in Hn as [[=]|Hn]); by apply not_elem_of_nil in Hn.

(** Run a method of [Store]. *)
Ltac store_eval :=
  cbv beta iota delta [Store.tx mbind M_bind mret M_ret Store.query Store.exec Store.throw Store.lift
    Store.checkRowsAffected matched Store.scanInt32]; cbn [fst snd].

(** What it means for a method in SQL to implement one of [Store]. *)
Definition implements `{Codec, Engine} {A} (m : DbM A) (m' : Store.M A) (db : DB) (f : file) : Prop :=
  dwp m (fun f' r => represents f' (m' db).1 /\ r = (m' db).2) (fun f' => represents f' db) f.

(** A WHERE with a primary key and more. *)
Section key_and.
Context {K A : Type} `{Countable K} (key : A -> K) (m : gmap K A) (Hk : own_keys key m).
Context (C : A -> Prop) `{forall a, Decision (C a)} (k : K).

Lemma filter_key_and :
  filter (fun a => key a = k /\ C a) (rows m) =
  match m !! k with Some x => if decide (C x) then [x] else [] | None => [] end.
Proof.
  rewrite (list_filter_iff _ (fun a => C a /\ key a = k)) by (intros a; tauto).
  rewrite <- list_filter_filter, rows_key by done. by destruct (m !! k).
Qed.

Lemma update_key_and g :
  update_where (fun a => key a = k /\ C a) g m =
  match m !! k with Some x => if decide (C x) then <[k := g x]> m else m | None => m end.
Proof.
  apply map_eq. intros j. rewrite lookup_update_where. destruct (decide (j = k)) as [->|Hne].
  - destruct (m !! k) as [x|] eqn:Hx; [|by rewrite Hx]. simpl. pose proof (Hk _ _ Hx).
    destruct (decide (C x)).
    + by rewrite lookup_insert_eq, decide_True.
    + by rewrite Hx, decide_False by tauto.
  - assert (match m !! k with Some x => if decide (C x) then <[k:=g x]> m else m | None => m end !! j = m !! j)
      as -> by (destruct (m !! k); [case_decide|]; by rewrite ?lookup_insert_ne).
    destruct (m !! j) as [y|] eqn:Hy; [|done]. simpl. rewrite decide_False; [done|].
    intros [E _]. rewrite (Hk _ _ Hy) in E. done.
Qed.

Lemma delete_key_and :
  delete_where (fun a => key a = k /\ C a) m =
  match m !! k with Some x => if decide (C x) then delete k m else m | None => m end.
Proof.
  apply map_eq. intros j. apply option_eq. intros y. rewrite lookup_delete_where.
  destruct (m !! k) as [x|] eqn:Hx; [destruct (decide (C x))|].
  - rewrite lookup_delete_Some. split.
    + intros [Hy Hn]. split; [|done]. intros <-. rewrite Hx in Hy. injection Hy as <-.
      apply Hn. by split; [apply Hk|].
    + intros [Hne Hy]. split; [done|]. rewrite (Hk _ _ Hy). naive_solver.
  - split; [naive_solver|]. intros Hy. split; [done|]. rewrite (Hk _ _ Hy). intros [-> HC]. congruence.
  - split; [naive_solver|]. intros Hy. split; [done|]. rewrite (Hk _ _ Hy). intros [-> HC]. congruence.
Qed.
End key_and.

(** A statement that names a primary key. *)
Section by_key.
Context `{Codec, Engine} {K A B : Type} `{Countable K} (enc : A -> row) (key : A -> K).
Context (f : file) (t : string) (m : gmap K A) (Hf : holds f t (enc <$> rows m)) (Hk : own_keys key m).
Context (Q : file -> result StoreError B -> Prop) (F : file -> Prop) (HF : F f).
Context (args : list value) (w : expr) (x : K).
Context (Hw : forall a, satisfies (tables f) args w (enc a) = true <-> key a = x).

Lemma dwp_update_key what set g (k : outcome -> DbM B) :
  (forall a, key a = x -> assign (tables f) args set (enc a) = enc (g a)) ->
  (forall f' o, changed t f f' -> holds f' t (enc <$> rows (alter g x m)) ->
     rowsAffected o = matched (m !! x) -> dwp (k o) Q F f') ->
  dwp (o ← ExecContext what (Update t set w) args; k o) Q F f.
Proof.
  intros Hg Hgo. eapply (dwp_update enc f t (rows m) Hf _ _ HF (fun a => key a = x)); [done..|].
  intros f' o Hc Hh Hn. rewrite <- (rows_update_where (fun a => key a = x)), <- (alter_where key) in Hh by done.
  apply Hgo; [done..|]. by rewrite Hn, affected_key.
Qed.

Lemma dwp_delete_key what (k : outcome -> DbM B) :
  (forall f' o, changed t f f' -> holds f' t (enc <$> rows (delete x m)) ->
     rowsAffected o = matched (m !! x) -> dwp (k o) Q F f') ->
  dwp (o ← ExecContext what (Delete t w) args; k o) Q F f.
Proof.
  intros Hgo. eapply (dwp_delete enc f t (rows m) Hf _ _ HF (fun a => key a = x)); [done..|].
  intros f' o Hc Hh Hn. apply Hgo; [done|..|by rewrite Hn, affected_key].
  rewrite (delete_key key) by done. eapply holds_perm; [|exact Hh]. by rewrite rows_delete_where.
Qed.
End by_key.

