(* ===== verification/SqlRefine.v ===== *)
(** * The SQL implements the store

    Every method written in SQL does to the file of a database what the method
    of [Store] does to its tables, whichever calls of the driver fail. *)

From stdpp Require Import base gmap strings list sorting.
From Stdlib Require Import ZArith Lia.
From S2P Require Import Prelude Types Convert Store StoreOps Schema SchemaProps Sql SqlStore SqlProps SqlTables.

(** ** Pools *)

Section pools.
Context `{Codec, Engine}.
Context (f : file) (db : DB) (R : represents f db) (W : db_wf db) (T : typed db).

Lemma pool_by_key none what name ns :
  row_or none what scanPool (head (run_select
    (Select pools_columns "pools" ("name" == Arg 1 AND "namespace" == Arg 2)%sql [])
    [VText name; VText ns] (tables f))) =
  match pools db !! (name, ns) with Some r => Ok r | None => Err none end.
Proof.
  apply (row_by_key enc_pool (fun r => (pr_name r, pr_namespace r))).
  - apply R.
  - intros a Ha. apply scan_pool. by eapply typed_pool_in.
  - by apply own_pool_keys.
  - where_tac. split; [by intros [-> ->]|by intros [= -> ->]].
Qed.

Lemma impl_GetPool name ns : implements (SqlStore.GetPool name ns) (Store.GetPool name ns) db f.
Proof.
  unfold implements, SqlStore.GetPool. apply dwp_QueryRow; [done|]. apply dwp_bind, dwp_lift.
  rewrite pool_by_key. unfold Store.GetPool. store_simpl.
  destruct (pools db !! (name, ns)) as [r|]; [by apply dwp_lift|done].
Qed.

Lemma impl_ListPools : implements SqlStore.ListPools Store.ListPools db f.
Proof.
  unfold implements, SqlStore.ListPools. apply dwp_QueryContext; [done|]. apply dwp_lift.
  rewrite (sorted_by enc_pool "pools" pools_columns f (rows (pools db)) (rep_pools _ _ R) pair_le
    (fun r => (pr_namespace r, pr_name r)) (fun _ => True)).
  - rewrite filter_True, mapM_fmap. split; [done|]. unfold Store.ListPools. store_eval.
    apply mapM_ext_in. intros a Ha. rewrite elem_of_sort_on in Ha by apply _. unfold scan.
    by rewrite scan_pool by by eapply typed_pool_in.
  - where_tac.
  - intros a b. apply values_le_texts.
  - apply (NoDup_fmap_1 (fun p : string * string => (p.2, p.1))). rewrite <- list_fmap_compose.
    by apply NoDup_rows_key, own_pool_keys.
Qed.

Lemma pool_key_clash row :
  constraint_error f "pools" (enc_pool row) (enc_pool <$> rows (pools db)) =
  match pools db !! (pr_name row, pr_namespace row) with
  | Some _ => Some (Constraint SQLITE_CONSTRAINT_PRIMARYKEY ["pools.name"; "pools.namespace"])
  | None => None
  end.
Proof.
  apply (key_error enc_pool (fun r => (pr_name r, pr_namespace r))); [done|by apply own_pool_keys| |].
  - not_null.
  - intros a b. cbn. split; by intros [= -> ->].
Qed.

Lemma impl_CreatePool p : implements (SqlStore.CreatePool p) (Store.CreatePool p) db f.
Proof.
  unfold implements, SqlStore.CreatePool. apply dwp_bind, dwp_lift. unfold Store.CreatePool. store_eval.
  destruct (poolToRow p) as [row|e]; [|done].
  apply (dwp_insert enc_pool f "pools" (rows (pools db)) (rep_pools _ _ R)) with (a := row); [done..|].
  rewrite pool_key_clash. destruct (pools db !! (pr_name row, pr_namespace row)) as [old|] eqn:Ho; [done|].
  intros f' o Hc Hh. apply dwp_ret. split; [|done].
  eapply rep_set_pools; [done..|]. eapply holds_perm; [|exact Hh]. by rewrite rows_insert.
Qed.

Lemma impl_UpdatePool p : implements (SqlStore.UpdatePool p) (Store.UpdatePool p) db f.
Proof.
  unfold implements, SqlStore.UpdatePool. apply dwp_bind, dwp_lift. unfold Store.UpdatePool. store_eval.
  destruct (poolToRow p) as [row|e]; [|done].
  eapply (dwp_update_key enc_pool _ f "pools" _ (rep_pools _ _ R) (own_pool_keys db W) _ _ R _ _
    (pr_name row, pr_namespace row)) with (g := fun _ => row).
  - where_tac. split; [by intros [-> ->]|by intros [= -> ->]].
  - intros a [= En Ens]. cbn. by rewrite En, Ens.
  - intros f' o Hc Hh Hn. apply dwp_checkRowsAffected. rewrite Hn.
    pose proof (rep_set_pools _ _ _ _ R Hc Hh) as R'. by destruct (pools db !! _).
Qed.

Lemma dwp_DeletePool (Q : file -> result StoreError unit -> Prop) (F : file -> Prop) name ns :
  F f -> (forall f', represents f' (set_pools (delete (name, ns) (pools db)) db) ->
    Q f' (if decide (matched (pools db !! (name, ns)) = 0) then Err ErrNotFound else Ok tt)) ->
  dwp (SqlStore.DeletePool name ns) Q F f.
Proof.
  intros HF HQ. unfold SqlStore.DeletePool.
  eapply (dwp_delete_key enc_pool _ f "pools" _ (rep_pools _ _ R) (own_pool_keys db W) _ _ HF _ _ (name, ns)).
  - where_tac. split; [by intros [-> ->]|by intros [= -> ->]].
  - intros f' o Hc Hh Hn. apply dwp_checkRowsAffected. rewrite Hn. apply HQ.
    by apply (rep_set_pools f).
Qed.

Lemma impl_DeletePool name ns : implements (SqlStore.DeletePool name ns) (Store.DeletePool name ns) db f.
Proof.
  apply dwp_DeletePool; [done|]. intros f' R'. unfold Store.DeletePool. store_eval.
  by destruct (pools db !! (name, ns)).
Qed.
End pools.

(** ** VMs *)

Section vm_rows.
Context `{Codec, Engine}.
Context (f : file) (m : gmap string vmRow) (Hf : holds f "vms" (enc_vm <$> rows m)).
Context (Hk : own_keys vr_uid m) (T : map_Forall (fun _ => typed_vm) m).

Lemma scan_vm_in a : a ∈ rows m -> scanVM (project vms_columns (enc_vm a)) = Some a.
Proof. intros [k Hx]%elem_of_rows. by apply scan_vm, (T k). Qed.

Lemma vm_by_key none what uid :
  row_or none what scanVM (head (run_select (Select vms_columns "vms" ("uid" == Arg 1)%sql [])
    [VText uid] (tables f))) =
  match m !! uid with Some r => Ok r | None => Err none end.
Proof. apply (row_by_key enc_vm vr_uid); [done|apply scan_vm_in|done|where_tac]. Qed.

(** The VMs that match, by uid. *)
Lemma vm_rows (P : vmRow -> Prop) `{forall a, Decision (P a)} w args :
  (forall a, satisfies (tables f) args w (enc_vm a) = true <-> P a) ->
  mapM (scan "scan vm" scanVM) (run_select (Select vms_columns "vms" w ["uid"]) args (tables f)) =
  Ok (sort_on String.le vr_uid (filter P (rows m))).
Proof.
  intros Hw. rewrite (sorted_by enc_vm "vms" vms_columns f (rows m) Hf String.le vr_uid P);
    [|done|intros a b; apply values_le_text|by apply NoDup_rows_key].
  rewrite mapM_fmap. rewrite <- (list_fmap_id (sort_on _ _ _)) at 2. rewrite <- mapM_ok. apply mapM_ext_in.
  intros a Ha. rewrite elem_of_sort_on, list_elem_of_filter in Ha by apply _. unfold scan.
  by rewrite scan_vm_in by naive_solver.
Qed.

(** The first VM that matches, as they are visited. *)
Lemma first_vm none what (P : vmRow -> Prop) `{forall a, Decision (P a)} w args lv :
  visit (table_rows (tables f) "vms") = enc_vm <$> lv -> lv ≡ₚ rows m ->
  (forall a, satisfies (tables f) args w (enc_vm a) = true <-> P a) ->
  row_or none what (scan1 scan_text) (head (run_select
    (Limit (Select ["uid"] "vms" w []) (Lit (VInt 1))) args (tables f))) =
  match head (filter P lv) with Some r => Ok (vr_uid r) | None => Err none end.
Proof.
  intros Hv Hp Hw.
  change (run_select (Limit ?s ?n) ?a ?t) with (limit_rows (Some (VInt 1)) (run_select s a t)).
  unfold Select. rewrite (select_visited enc_vm P f "vms" (rows m) args w (fun a _ => Hw a) _ [] lv) by done.
  by destruct (filter P lv).
Qed.
End vm_rows.

Section vms.
Context `{Codec, Engine}.
Context (f : file) (db : DB) (R : represents f db) (W : db_wf db) (T : typed db).

Lemma impl_CreateVM v : implements (SqlStore.CreateVM v) (Store.CreateVM v) db f.
Proof.
  unfold implements, SqlStore.CreateVM. apply dwp_bind, dwp_lift. unfold Store.CreateVM. store_eval.
  destruct (vmToRow v) as [row|e]; [|done].
  apply (dwp_insert enc_vm f "vms" (rows (vms db)) (rep_vms _ _ R)) with (a := row); [done..|].
  rewrite (key_error enc_vm vr_uid); [|done|by apply own_vm_keys|not_null|intros a b; cbn; split; by intros [= ->]].
  destruct (vms db !! vr_uid row) as [old|] eqn:Ho; [done|].
  intros f' o Hc Hh. apply dwp_ret. split; [|done].
  eapply rep_set_vms; [done..|]. eapply holds_perm; [|exact Hh]. by rewrite rows_insert.
Qed.

Lemma impl_GetVM uid : implements (SqlStore.GetVM uid) (Store.GetVM uid) db f.
Proof.
  unfold implements, SqlStore.GetVM. apply dwp_QueryRow; [done|]. apply dwp_bind, dwp_lift.
  rewrite (vm_by_key f (vms db)); [|apply R|by apply own_vm_keys|apply T].
  unfold Store.GetVM. store_eval. destruct (vms db !! uid) as [r|]; [by apply dwp_ret|done].
Qed.

Lemma impl_ListVMsByPool n ns p :
  implements (SqlStore.ListVMsByPool n ns p) (Store.ListVMsByPool n ns p) db f.
Proof.
  unfold implements, SqlStore.ListVMsByPool. apply dwp_QueryContext; [done|]. apply dwp_bind, dwp_lift.
  rewrite (vm_rows f _ (rep_vms _ _ R) (own_vm_keys db W) (ty_vms _ T)
    (fun r => in_pool n ns r /\ has_phase p r)); [by apply dwp_ret|].
  destruct p; where_tac.
Qed.

Lemma impl_ListVMsByPhase p : implements (SqlStore.ListVMsByPhase p) (Store.ListVMsByPhase p) db f.
Proof.
  unfold implements, SqlStore.ListVMsByPhase. apply dwp_QueryContext; [done|]. apply dwp_bind, dwp_lift.
  rewrite (vm_rows f _ (rep_vms _ _ R) (own_vm_keys db W) (ty_vms _ T)
    (fun r => vr_phase r = phase_code p)); [by apply dwp_ret|where_tac].
Qed.

Lemma impl_DeleteVM uid : implements (SqlStore.DeleteVM uid) (Store.DeleteVM uid) db f.
Proof.
  unfold implements, SqlStore.DeleteVM.
  eapply (dwp_delete_key enc_vm _ f "vms" _ (rep_vms _ _ R) (own_vm_keys db W) _ _ R _ _ uid); [where_tac|].
  intros f' o Hc Hh Hn. apply dwp_checkRowsAffected. rewrite Hn.
  pose proof (rep_set_vms _ _ _ _ R Hc Hh). unfold Store.DeleteVM. store_eval. by destruct (vms db !! uid).
Qed.

(** [updateVM], on its own or in a transaction. *)
Lemma dwp_updateVM (Q : file -> result StoreError unit -> Prop) (F : file -> Prop) v :
  (forall f', represents f' db -> F f') ->
  (forall f', represents f' (Store.updateVM v db).1 -> Q f' (Store.updateVM v db).2) ->
  dwp (SqlStore.updateVM v) Q F f.
Proof.
  intros HF HQ. unfold SqlStore.updateVM. apply dwp_bind, dwp_lift.
  revert HQ. unfold Store.updateVM. store_eval.
  destruct (vmToRow v) as [row|e]; [|intros HQ; by apply HQ]. intros HQ.
  pose proof (own_vm_keys db W) as Hk.
  eapply (dwp_update enc_vm f "vms" _ (rep_vms _ _ R) _ _ (HF _ R) (fun r => vr_uid r = vr_uid row /\
    (vr_phase r <> phase_code DELETING \/ vr_phase row = phase_code DELETING))) with (g := updated_row row).
  - where_tac.
  - done.
  - intros f' o Hc Hh Hn. rewrite <- (rows_update_where (fun r => vr_uid r = vr_uid row /\ _)) in Hh.
    rewrite (update_key_and vr_uid _ Hk) in Hh. rewrite (filter_key_and vr_uid _ Hk) in Hn.
    pose proof (rep_set_vms _ _ _ _ R Hc Hh) as R'.
    pose proof (one_by_key enc_vm vr_uid "vms" f' _ Hh) as Hone.
    destruct (vms db !! vr_uid row) as [old|] eqn:Ho; [case_decide as Hd|].
    + rewrite Hn. apply dwp_ret. by apply HQ.
    + rewrite Hn. rewrite set_vms_id in R'. apply dwp_QueryRow; [by apply HF|]. apply dwp_bind, dwp_lift.
      rewrite (Hone ErrNotFound _ _ _ (vr_uid row)); [|done|where_tac]. rewrite Ho.
      apply dwp_throw. by apply HQ.
    + rewrite Hn. rewrite set_vms_id in R'. apply dwp_QueryRow; [by apply HF|]. apply dwp_bind, dwp_lift.
      rewrite (Hone ErrNotFound _ _ _ (vr_uid row)); [|done|where_tac]. rewrite Ho. by apply HQ.
Qed.

Lemma impl_UpdateVM v : implements (SqlStore.UpdateVM v) (Store.UpdateVM v) db f.
Proof. apply dwp_updateVM; [done|]. intros f' R'. by split. Qed.

Lemma impl_DeleteVMCheckingPool uid :
  implements (SqlStore.DeleteVMCheckingPool uid) (Store.DeleteVMCheckingPool uid) db f.
Proof.
  apply dwp_tx; [done|]. pose proof (own_vm_keys db W) as Hk.
  eapply (dwp_delete_returning enc_vm f "vms" _ (rep_vms _ _ R) _ _ I (fun r => vr_uid r = uid)); [where_tac|].
  intros f' l' Hc Hh Hl. rewrite (rows_key vr_uid _ _ Hk) in Hl. unfold Store.DeleteVMCheckingPool. store_eval.
  assert (R' : represents f' (set_vms (delete uid (vms db)) db)).
  { eapply rep_set_vms; [done..|]. eapply holds_perm; [|exact Hh].
    by rewrite (delete_key vr_uid), rows_delete_where. }
  apply dwp_bind, dwp_lift. destruct (vms db !! uid) as [r|]; simpl in Hl.
  - apply Permutation_singleton_r in Hl as ->. cbn -[run_select]. apply dwp_QueryRow; [done|]. apply dwp_lift.
    rewrite (exists_by_key enc_pool (fun r => (pr_name r, pr_namespace r)) "pools" f' (pools db) (rep_pools _ _ R')
      _ _ _ _ (vr_poolName r, vr_poolNamespace r) (own_pool_keys db W)); [done|].
    where_tac. split; [by intros [-> ->]|by intros [= -> ->]].
  - by apply Permutation_nil_r in Hl as ->.
Qed.

Lemma own_keys_insert g (m : gmap string vmRow) k r :
  own_keys vr_uid m -> m !! k = Some r -> vr_uid (g r) = vr_uid r -> own_keys vr_uid (<[k := g r]> m).
Proof.
  intros Hk Hr Hg j x. rewrite lookup_insert. case_decide as E; [|apply Hk].
  intros [= <-]. rewrite Hg, <- E. by apply Hk.
Qed.

Lemma first_claimable `{Sqlite} n ns r l :
  filter (fun r => in_pool n ns r /\ vr_phase r = phase_code AVAILABLE) (scan_vms (vms db)) = r :: l ->
  vms db !! vr_uid r = Some r /\ vr_phase r = phase_code AVAILABLE.
Proof.
  intros E. assert (Hin : r ∈ r :: l) by by left. rewrite <- E, list_elem_of_filter in Hin.
  destruct Hin as [[_ Hp] Hin]. split; [|done]. rewrite scan_vms_perm in Hin.
  apply elem_of_rows in Hin as [k Hr]. by rewrite (own_vm_keys db W _ _ Hr).
Qed.

Lemma impl_ClaimAvailableVM `{Sqlite} now n ns :
  visit (table_rows (tables f) "vms") = enc_vm <$> scan_vms (vms db) ->
  implements (SqlStore.ClaimAvailableVM now n ns) (Store.ClaimAvailableVM now n ns) db f.
Proof.
  intros Hv. apply dwp_tx; [done|]. apply dwp_QueryRow; [done|]. apply dwp_bind, dwp_lift.
  rewrite (first_vm f (vms db) _ _ (fun r => in_pool n ns r /\ vr_phase r = phase_code AVAILABLE) _ _ _ Hv
    (scan_vms_perm _)) by where_tac.
  destruct (filter _ (scan_vms (vms db))) as [|r l] eqn:El.
  { unfold Store.ClaimAvailableVM. store_eval. by rewrite El. }
  destruct (first_claimable n ns r l El) as [Hr Hp]. pose proof (own_vm_keys db W) as Hk.
  assert (Store.ClaimAvailableVM now n ns db = (set_vms (<[vr_uid r := mark_leased now r]> (vms db)) db,
    Ok (rowToVM (mark_leased now r)))) as ->.
  { unfold Store.ClaimAvailableVM. store_eval. rewrite El. cbn [head]. rewrite Hr, decide_True by done.
    simpl. by rewrite lookup_insert_eq. }
  cbn [head].
  eapply (dwp_update enc_vm f "vms" _ (rep_vms _ _ R) _ _ I (fun a => vr_uid a = vr_uid r /\
    vr_phase a = phase_code AVAILABLE)) with (g := mark_leased now); [where_tac|done|].
  intros f' o Hc Hh Hn. rewrite <- (rows_update_where (fun a => vr_uid a = vr_uid r /\ _)) in Hh.
  rewrite (update_key_and vr_uid _ Hk), Hr, decide_True in Hh by done.
  rewrite (filter_key_and vr_uid _ Hk), Hr, decide_True in Hn by done. rewrite Hn.
  rewrite decide_False by done.
  apply dwp_QueryRow; [done|]. apply dwp_bind, dwp_lift.
  rewrite (vm_by_key f' _ Hh); [|by apply (own_keys_insert (mark_leased now))|].
  - rewrite lookup_insert_eq. apply dwp_ret. split; [|done]. by apply (rep_set_vms f).
  - apply map_Forall_insert_2; [by unfold typed_vm|apply T].
Qed.
End vms.

(** ** Deleting a pool with its VMs *)

Lemma DeletePoolAndMarkVMs_eval now n ns force db :
  Store.DeletePoolAndMarkVMs now n ns force db =
  let db' := set_leases (delete_where (lease_in_pool n ns) (leases db))
    (set_vms (update_where (in_pool n ns) (mark_deleting now) (vms db))
      (set_pools (delete (n, ns) (pools db)) db)) in
  match pools db !! (n, ns) with
  | None => (db, Err ErrNotFound)
  | Some _ =>
      if negb force && bool_decide
        (0 < length (filter (fun r => in_pool n ns r /\ leased_phase r) (rows (vms db))))
      then (db, Err ErrPoolHasLeasedVMs)
      else (db', Ok (rowToVM <$> sort_on String.le vr_uid (filter (in_pool n ns) (rows (vms db')))))
  end.
Proof.
  unfold Store.DeletePoolAndMarkVMs, Store.DeletePool. store_eval.
  destruct (pools db !! (n, ns)) as [p|]; [|done]. rewrite decide_False by done. cbn [negb andb].
  destruct force; [done|]. simpl. by case_decide; case_bool_decide.
Qed.

Section delete_pool.
Context `{Codec, Engine}.
Context (f : file) (db : DB) (R : represents f db) (W : db_wf db) (T : typed db).

Lemma own_keys_update (P : vmRow -> Prop) `{forall r, Decision (P r)} now (m : gmap string vmRow) :
  own_keys vr_uid m -> own_keys vr_uid (update_where P (mark_deleting now) m).
Proof.
  intros Hk k x. rewrite lookup_update_where. intros (y & Hy & ->)%fmap_Some.
  case_decide; simpl; by apply Hk.
Qed.

Lemma typed_update (P : vmRow -> Prop) `{forall r, Decision (P r)} now (m : gmap string vmRow) :
  map_Forall (fun _ => typed_vm) m -> map_Forall (fun _ => typed_vm) (update_where P (mark_deleting now) m).
Proof. intros Hm. apply map_Forall_update_where; [done|]. by unfold typed_vm. Qed.

(** The statements after the checks. *)
Lemma dwp_mark_pool (Q : file -> result StoreError (list VMRecord) -> Prop) f1 db1 now n ns :
  represents f1 db1 -> own_keys vr_uid (vms db1) -> map_Forall (fun _ => typed_vm) (vms db1) ->
  let db' := set_leases (delete_where (lease_in_pool n ns) (leases db1))
    (set_vms (update_where (in_pool n ns) (mark_deleting now) (vms db1)) db1) in
  (forall f', represents f' db' ->
    Q f' (Ok (rowToVM <$> sort_on String.le vr_uid (filter (in_pool n ns) (rows (vms db')))))) ->
  dwp (ExecContext "mark pool vms deleting"
        (Update "vms" [("phase", Arg 1); ("lease_id", Lit VNull); ("updated_at", Arg 2)]
           ("pool_name" == Arg 3 AND "pool_namespace" == Arg 4)%sql)
        [phase DELETING; VInt (UnixNano now); VText n; VText ns];;
      ExecContext "delete pool leases"
        (Delete "leases" ("pool_name" == Arg 1 AND "pool_namespace" == Arg 2)%sql) [VText n; VText ns];;
      ts ← QueryContext "query pool vms"
        (Select vms_columns "vms" ("pool_name" == Arg 1 AND "pool_namespace" == Arg 2)%sql ["uid"])
        [VText n; VText ns];
      rows ← lift (mapM (scan "scan vm" scanVM) ts);
      mret (rowToVM <$> rows)) Q (fun _ => True) f1.
Proof.
  intros R1 Hk Ht db' HQ.
  eapply (dwp_update enc_vm f1 "vms" _ (rep_vms _ _ R1) _ _ I (in_pool n ns)) with (g := mark_deleting now);
    [where_tac|done|]. intros f2 o2 Hc2 Hh2 _.
  rewrite <- (rows_update_where (in_pool n ns)) in Hh2. pose proof (rep_set_vms _ _ _ _ R1 Hc2 Hh2) as R2.
  eapply (dwp_delete enc_lease f2 "leases" _ (rep_leases _ _ R2) _ _ I (lease_in_pool n ns)); [where_tac|].
  intros f3 o3 Hc3 Hh3 _. rewrite <- (rows_delete_where (lease_in_pool n ns)) in Hh3.
  pose proof (rep_set_leases _ _ _ _ R2 Hc3 Hh3) as R3. simpl in R3.
  apply dwp_QueryContext; [done|]. apply dwp_bind, dwp_lift.
  rewrite (vm_rows f3 _ (rep_vms _ _ R3) (own_keys_update _ _ _ Hk) (typed_update _ _ _ Ht) (in_pool n ns)) by where_tac.
  apply dwp_ret, HQ, R3.
Qed.

Lemma impl_DeletePoolAndMarkVMs now n ns force :
  implements (SqlStore.DeletePoolAndMarkVMs now n ns force) (Store.DeletePoolAndMarkVMs now n ns force) db f.
Proof.
  unfold implements. rewrite DeletePoolAndMarkVMs_eval. cbv zeta.
  apply dwp_tx; [done|]. apply dwp_bind, (dwp_DeletePool f db R W); [done|]. intros f1 R1.
  destruct (pools db !! (n, ns)) as [p|]; [|done]. rewrite decide_False by done.
  pose proof (own_vm_keys db W) as Hk. destruct force; cbn [negb andb].
  { apply dwp_bind, dwp_ret. by apply (dwp_mark_pool _ f1 _ now n ns R1); [|apply T|]. }
  apply dwp_bind, dwp_QueryRow; [done|]. apply dwp_bind, dwp_lift.
  change (run_select (SelectScalar ?e) ?a ?t) with [[eval t a [] e]].
  rewrite (eval_count_rows enc_vm "vms" f1 (vms db) (rep_vms _ _ R1)
    (fun r => in_pool n ns r /\ leased_phase r)) by where_tac.
  cbn [head row_or scan scan1 scan_int]. case_bool_decide as Hl; case_decide as Hl'; try lia.
  - by apply dwp_throw.
  - apply dwp_ret. by apply (dwp_mark_pool _ f1 _ now n ns R1); [|apply T|].
Qed.
End delete_pool.

(** ** Leases *)

Section leases.
Context `{Codec, Engine}.
Context (f : file) (db : DB) (R : represents f db) (W : db_wf db) (T : typed db).

Lemma lease_by_key none what id :
  row_or none what scanLease (head (run_select (Select leaseColumns "leases" ("lease_id" == Arg 1)%sql [])
    [VText id] (tables f))) =
  match leases db !! id with Some r => Ok r | None => Err none end.
Proof.
  apply (row_by_key enc_lease lr_leaseID); [apply R|intros; apply scan_lease|by apply own_lease_keys|where_tac].
Qed.

Lemma impl_GetLease id : implements (SqlStore.GetLease id) (Store.GetLease id) db f.
Proof.
  unfold implements, SqlStore.GetLease. apply dwp_QueryRow; [done|]. apply dwp_bind, dwp_lift.
  rewrite lease_by_key. unfold Store.GetLease. store_eval.
  destruct (leases db !! id) as [r|]; [by apply dwp_ret|done].
Qed.

Lemma impl_UpdateLeaseHeartbeat id t e :
  implements (SqlStore.UpdateLeaseHeartbeat id t e) (Store.UpdateLeaseHeartbeat id t e) db f.
Proof.
  unfold implements, SqlStore.UpdateLeaseHeartbeat.
  eapply (dwp_update_key enc_lease _ f "leases" _ (rep_leases _ _ R) (own_lease_keys db W) _ _ R _ _ id)
    with (g := heartbeat t e); [where_tac|done|].
  intros f' o Hc Hh Hn. apply dwp_checkRowsAffected. rewrite Hn.
  pose proof (rep_set_leases _ _ _ _ R Hc Hh). unfold Store.UpdateLeaseHeartbeat. store_eval.
  by destruct (leases db !! id).
Qed.

Lemma impl_DeleteLease id : implements (SqlStore.DeleteLease id) (Store.DeleteLease id) db f.
Proof.
  unfold implements, SqlStore.DeleteLease.
  eapply (dwp_delete_key enc_lease _ f "leases" _ (rep_leases _ _ R) (own_lease_keys db W) _ _ R _ _ id); [where_tac|].
  intros f' o Hc Hh Hn. apply dwp_checkRowsAffected. rewrite Hn.
  pose proof (rep_set_leases _ _ _ _ R Hc Hh). unfold Store.DeleteLease. store_eval.
  by destruct (leases db !! id).
Qed.

Lemma dwp_queryLeases (Q : file -> result StoreError (list LeaseRecord) -> Prop) (F : file -> Prop) s args l :
  F f -> run_select s args (tables f) = (fun a => project leaseColumns (enc_lease a)) <$> l ->
  Q f (Ok (rowToLease <$> l)) -> dwp (queryLeases s args) Q F f.
Proof.
  intros HF E HQ. unfold queryLeases. apply dwp_QueryContext; [done|]. rewrite E. apply dwp_bind, dwp_lift.
  rewrite mapM_fmap. rewrite (mapM_ext_in _ (fun a => Ok (id a))).
  - rewrite mapM_ok, list_fmap_id. by apply dwp_ret.
  - intros a _. unfold scan. by rewrite scan_lease.
Qed.

Lemma impl_ListLeases p : implements (SqlStore.ListLeases p) (Store.ListLeases p) db f.
Proof.
  pose proof (sorted_by enc_lease "leases" leaseColumns f (rows (leases db)) (rep_leases _ _ R) String.le lr_leaseID) as Hs.
  assert (Hle : forall a b, values_le (project ["lease_id"] (enc_lease a)) (project ["lease_id"] (enc_lease b)) <->
    String.le (lr_leaseID a) (lr_leaseID b)) by (intros a b; apply values_le_text).
  assert (Hnd : NoDup (lr_leaseID <$> rows (leases db))) by by apply NoDup_rows_key, own_lease_keys.
  destruct p as [p|]; unfold SqlStore.ListLeases.
  - eapply dwp_queryLeases; [done| |done]. apply Hs; [where_tac|done..].
  - eapply dwp_queryLeases; [done| |]. apply (Hs (fun _ => True)); [where_tac|done..].
    unfold Store.ListLeases. store_eval. by rewrite filter_True.
Qed.

Lemma impl_ListExpiredLeases `{Sqlite} t :
  visit (table_rows (tables f) "leases") = enc_lease <$> scan_leases (leases db) ->
  implements (SqlStore.ListExpiredLeases t) (Store.ListExpiredLeases t) db f.
Proof.
  intros Hv. eapply dwp_queryLeases; [done| |done]. unfold Select.
  rewrite (select_visited enc_lease (fun r => lr_expiresAt r <= UnixNano t)%Z f "leases" (rows (leases db)))
    with (lv := scan_leases (leases db)); [|intros a _; by apply sat_atmost|done|apply scan_leases_perm].
  pose proof (sort_on_fmap values_le Z.le id (fun a => project ["expires_at"] (enc_lease a)) lr_expiresAt
    (fun a b => values_le_int (lr_expiresAt a) (lr_expiresAt b))
    (filter (fun r => lr_expiresAt r <= UnixNano t)%Z (scan_leases (leases db)))) as E.
  rewrite !list_fmap_id in E. by rewrite E.
Qed.

Lemma impl_GetLeaseByRequestID `{Sqlite} rid :
  visit (table_rows (tables f) "leases") = enc_lease <$> scan_leases (leases db) ->
  implements (SqlStore.GetLeaseByRequestID rid) (Store.GetLeaseByRequestID rid) db f.
Proof.
  intros Hv. unfold implements, SqlStore.GetLeaseByRequestID. apply dwp_QueryRow; [done|].
  unfold Select. rewrite (select_visited enc_lease (fun r => lr_requestID r = Some rid) f "leases" (rows (leases db)))
    with (lv := scan_leases (leases db)); [| |done|apply scan_leases_perm].
  2:{ intros a _. where_simpl. destruct (lr_requestID a); simpl; naive_solver. }
  apply dwp_bind, dwp_lift. unfold Store.GetLeaseByRequestID. store_eval.
  destruct (filter _ _) as [|r l]; [done|].
  cbn [head fmap list_fmap]. rewrite project_cols. cbn [row_or]. unfold scan. rewrite scan_lease. by apply dwp_ret.
Qed.

(** The two constraints of the table. *)
Lemma lease_id_clash row :
  clash ["lease_id"] (enc_lease row) (enc_lease <$> rows (leases db)) =
  bool_decide (is_Some (leases db !! lr_leaseID row)).
Proof.
  rewrite (clash_key enc_lease lr_leaseID); [|not_null|intros a b; cbn; split; by intros [= ->]].
  apply bool_decide_ext, key_in_rows. by apply own_lease_keys.
Qed.

Lemma request_id_clash row :
  clash ["request_id"] (enc_lease row) (enc_lease <$> rows (leases db)) =
  request_id_taken (lr_requestID row) (leases db).
Proof.
  unfold clash, request_id_taken.
  change (project ["request_id"] (enc_lease ?a)) with [null_text (lr_requestID a)].
  destruct (lr_requestID row) as [rid|]; simpl null_text.
  - rewrite bool_decide_eq_true_2 by (by intros ?%list_elem_of_singleton). simpl andb. apply bool_decide_ext.
    rewrite list_elem_of_fmap. split.
    + intros (r & E & (a & -> & Ha)%list_elem_of_fmap) Hnil.
      assert (a ∈ filter (fun r => lr_requestID r = Some rid) (rows (leases db))) as Hin.
      { apply list_elem_of_filter. split; [|done]. cbn in E. by destruct (lr_requestID a); simplify_eq/=. }
      rewrite Hnil in Hin. by apply not_elem_of_nil in Hin.
    + intros Hne. destruct (filter _ _) as [|a l] eqn:El; [done|].
      assert (a ∈ a :: l) as Hin by by left. rewrite <- El, list_elem_of_filter in Hin. destruct Hin as [Ea Ha].
      exists (enc_lease a). split; [cbn; by rewrite Ea|]. apply list_elem_of_fmap. eauto.
  - rewrite bool_decide_eq_false_2; [done|]. intros Hn. apply Hn. by left.
Qed.

Lemma dwp_insertLease `{Sqlite} (Q : file -> result StoreError unit -> Prop) (F : file -> Prop) l :
  request_id_reported = index_first -> F f ->
  (forall f', represents f' (Store.insertLease l db).1 -> Q f' (Store.insertLease l db).2) ->
  dwp (SqlStore.insertLease l) Q F f.
Proof.
  intros Hrep HF HQ. unfold SqlStore.insertLease. apply dwp_bind, dwp_lift.
  revert HQ. unfold Store.insertLease. store_eval. intros HQ.
  destruct (leaseToRow l) as [row|e]; [|by apply HQ].
  eapply (dwp_try_insert enc_lease f "leases" (rows (leases db)) (rep_leases _ _ R)) with (a := row);
    [done|done|done|by eexists|].
  unfold constraint_error, key_clash, index_clash. change (primary_key "leases") with ["lease_id"].
  rewrite lease_id_clash, request_id_clash, bool_decide_eq_true_2 by (split; [done|apply R]).
  rewrite <- Hrep. revert HQ.
  destruct (leases db !! lr_leaseID row) as [old|] eqn:Ho, (request_id_taken _ _), request_id_reported; simpl; intros HQ;
    try (apply dwp_throw; by apply HQ).
  all: intros f' o Hc Hh; apply dwp_ret, HQ; eapply rep_set_leases; [done..|];
    rewrite rows_insert by done; exact Hh.
Qed.

Lemma impl_CreateLease `{Sqlite} l :
  request_id_reported = index_first -> implements (SqlStore.CreateLease l) (Store.CreateLease l) db f.
Proof. intros Hr. by apply dwp_insertLease. Qed.

Lemma impl_DeleteLeaseIfExpired id t :
  implements (SqlStore.DeleteLeaseIfExpired id t) (Store.DeleteLeaseIfExpired id t) db f.
Proof.
  apply dwp_tx; [done|]. apply dwp_QueryRow; [done|]. apply dwp_bind, dwp_lift. rewrite lease_by_key.
  pose proof (own_lease_keys db W) as Hk.
  destruct (leases db !! id) as [r|] eqn:Hr; [|by unfold Store.DeleteLeaseIfExpired; store_eval; rewrite Hr].
  case_decide as Ht.
  { apply dwp_throw. unfold Store.DeleteLeaseIfExpired. store_eval. rewrite Hr. by rewrite decide_True. }
  assert (Store.DeleteLeaseIfExpired id t db = (set_leases (delete id (leases db)) db, Ok (rowToLease r))) as ->.
  { unfold Store.DeleteLeaseIfExpired. store_eval. rewrite Hr. rewrite decide_False by done. simpl.
    rewrite Hr. by rewrite decide_True by lia. }
  eapply (dwp_delete enc_lease f "leases" _ (rep_leases _ _ R) _ _ I
    (fun a => lr_leaseID a = id /\ (lr_expiresAt a <= UnixNano t)%Z)).
  - intros a. rewrite sat_both, (sat_atmost _ _ _ _ _ (lr_expiresAt a) (UnixNano t)) by done. where_simpl.
  - intros f' o Hc Hh Hn. rewrite <- (rows_delete_where (fun a => lr_leaseID a = id /\ _)) in Hh.
    rewrite (delete_key_and lr_leaseID _ Hk), Hr, decide_True in Hh by lia.
    rewrite (filter_key_and lr_leaseID _ Hk), Hr, decide_True in Hn by lia.
    rewrite Hn, decide_False by done. apply dwp_ret. split; [|done]. by eapply rep_set_leases.
Qed.
End leases.

Lemma impl_LeaseVM `{Codec, Engine, Sqlite} f db v l :
  represents f db -> db_wf db -> request_id_reported = index_first ->
  implements (SqlStore.LeaseVM v l) (Store.LeaseVM v l) db f.
Proof.
  intros R W Hr. apply dwp_tx; [done|]. apply dwp_bind, (dwp_updateVM f db R W); [done|]. intros f1 R1.
  pose proof (op_keeps_wf 0 0 (OpUpdateVM v) db I W) as W1. cbn [denote] in W1. unfold Store.UpdateVM in W1.
  unfold Store.LeaseVM, Store.tx. unfold mbind, M_bind.
  destruct (Store.updateVM v db) as [db1 [[]|e]]; simpl in *; [|done].
  eapply dwp_insertLease; [done..|]. intros f2 R2. by destruct (Store.insertLease l db1) as [db2 [[]|e]].
Qed.

(** ** Events *)

Section events.
Context `{Codec, Engine}.
Context (f : file) (db : DB) (R : represents f db) (W : db_wf db) (T : typed db).

Lemma impl_AppendEvent e : implements (SqlStore.AppendEvent e) (Store.AppendEvent e) db f.
Proof.
  unfold implements, SqlStore.AppendEvent. apply dwp_bind, dwp_lift. unfold Store.AppendEvent. store_eval.
  destruct (requireTimestamp "created_at" (event_created_at e)) as [t|err]; [|done].
  destruct (rep_events _ _ R) as (tab & Ht & Hcols & Hp).
  apply dwp_ExecContext; [done|..]; cbn [exec_statement]; rewrite Ht;
    rewrite decide_True by (split; [done|]; apply (bool_decide_unpack _); by vm_compute);
    rewrite (rep_sequence _ _ R); change (2 ^ 63 - 1)%Z with max_int64; case_decide as Hs; try done.
  intros f' o [= <- <-]. apply dwp_ret. split; [|done]. rewrite Hcols. cbn [fst].
  match goal with
  | |- represents _ (set_events (_ ++ [?r]) ?id _) => exact (rep_append f tab db r id R Ht)
  end.
Qed.

Lemma event_ids : NoDup (er_id <$> events db).
Proof.
  destruct (wf_events _ W) as (Hs & _ & _). induction Hs as [|e l Hs IH He]; simpl; [constructor|].
  apply NoDup_cons. split; [|done]. intros (e' & E & Hin)%list_elem_of_fmap.
  rewrite Forall_forall in He. specialize (He e' Hin). lia.
Qed.

(** The events that match, by id. *)
Lemma dwp_events (P : eventRow -> Prop) `{forall r, Decision (P r)} w args n limit
    (Q : file -> result StoreError (list Event) -> Prop) (F : file -> Prop) :
  F f -> (forall a, satisfies (tables f) args w (enc_event a) = true <-> P a) ->
  eval (tables f) args [] (Arg n) = VInt limit ->
  Q f (Ok (rowToEvent <$> limited limit (sort_on Z.le er_id (filter P (events db))))) ->
  dwp (ts ← QueryContext "query events" (Limit (Select events_columns "events" w ["id"]) (Arg n)) args;
       lift (mapM (scan "scan event" scanEvent) ts)) Q F f.
Proof.
  intros HF Hw Hl HQ. apply dwp_QueryContext; [done|]. apply dwp_lift.
  change (run_select (Limit ?s ?n) ?a ?t) with (limit_rows (Some (eval t a [] n)) (run_select s a t)).
  rewrite Hl, (sorted_by enc_event "events" events_columns f (events db) (rep_events _ _ R) Z.le er_id P);
    [|done|intros a b; apply values_le_int|apply event_ids].
  set (l := sort_on Z.le er_id (filter P (events db))) in *.
  assert (Hin : forall a, a ∈ limited limit l -> in_int32 (er_type a)).
  { intros a Ha. pose proof (ty_events _ T) as Hty. rewrite Forall_forall in Hty. apply Hty.
    assert (a ∈ l) as Hl' by (revert Ha; unfold limited; case_decide; [done|]; intros (i & ? & _)%elem_of_take;
      by eapply list_elem_of_lookup_2).
    unfold l in Hl'. rewrite elem_of_sort_on, list_elem_of_filter in Hl' by apply _. tauto. }
  assert (limit_rows (Some (VInt limit)) ((fun a => project events_columns (enc_event a)) <$> l) =
    (fun a => project events_columns (enc_event a)) <$> limited limit l) as ->.
  { unfold limit_rows, limited. case_decide; [done|]. by rewrite fmap_take. }
  rewrite mapM_fmap, (mapM_ext_in _ (fun a => Ok (rowToEvent a))).
  - by rewrite mapM_ok.
  - intros a Ha. unfold scan. by rewrite scan_event by auto.
Qed.

Lemma impl_ListEventsSince n ns id k :
  implements (SqlStore.ListEventsSince n ns id k) (Store.ListEventsSince n ns id k) db f.
Proof.
  eapply (dwp_events (fun r => er_poolName r = n /\ er_poolNamespace r = ns /\ (er_id r > id)%Z));
    [done| |done|done].
  intros a. rewrite !sat_both, (sat_greater _ _ _ _ _ (er_id a) id) by done. where_simpl.
Qed.

Lemma impl_ListAllEventsSince id k :
  implements (SqlStore.ListAllEventsSince id k) (Store.ListAllEventsSince id k) db f.
Proof.
  eapply (dwp_events (fun r => er_id r > id)%Z); [done| |done|done]. intros a. by apply sat_greater.
Qed.
End events.
