(* ===== verification/SqlHosts.v ===== *)
(** * The SQL implements the store: hosts, drains and placements

    The second half of [SqlRefine]: the methods on the host registry and on the
    placements reserved on its hosts. *)

From stdpp Require Import base gmap strings list sorting.
From Stdlib Require Import ZArith Lia.
From S2P Require Import Prelude Types Convert Store StoreOps Schema SchemaProps Sql SqlStore SqlProps SqlTables SqlRefine.

(** ** Hosts *)

Section hosts.
Context `{Codec, Engine}.
Context (f : file) (db : DB) (R : represents f db) (W : db_wf db) (T : typed db).

Lemma impl_CreateHost h : implements (SqlStore.CreateHost h) (Store.CreateHost h) db f.
Proof.
  unfold implements, SqlStore.CreateHost. apply dwp_bind, dwp_lift. unfold Store.CreateHost. store_eval.
  destruct (hostToRow h) as [row|e]; [|done].
  eapply (dwp_try_insert enc_host f "hosts" (rows (hosts db)) (rep_hosts _ _ R)) with (a := row);
    [done|done|done|by eexists|].
  rewrite (key_error enc_host hr_name); [|done|by apply own_host_keys|not_null|intros a b; cbn; split; by intros [= ->]].
  destruct (hosts db !! hr_name row) as [old|] eqn:Ho; [by apply dwp_throw|].
  intros f' o Hc Hh. apply dwp_ret. split; [|done].
  eapply rep_set_hosts; [done..|]. rewrite rows_insert by done. exact Hh.
Qed.

Lemma impl_ListHosts : implements SqlStore.ListHosts Store.ListHosts db f.
Proof.
  unfold implements, SqlStore.ListHosts. apply dwp_QueryContext; [done|].
  rewrite (sorted_by enc_host "hosts" hostColumns f (rows (hosts db)) (rep_hosts _ _ R) String.le hr_name (fun _ => True)).
  - apply dwp_bind, dwp_lift. rewrite filter_True, mapM_fmap, (mapM_ext_in _ (fun a => Ok (id a))).
    + rewrite mapM_ok, list_fmap_id. by apply dwp_ret.
    + intros a _. unfold scan. by rewrite scan_host.
  - where_tac.
  - intros a b. apply values_le_text.
  - by apply NoDup_rows_key, own_host_keys.
Qed.

Lemma impl_update_host now h : implements (SqlStore.update_host now h) (Store.update_host now h) db f.
Proof.
  unfold implements, SqlStore.update_host.
  eapply (dwp_update_key enc_host _ f "hosts" _ (rep_hosts _ _ R) (own_host_keys db W) _ _ R _ _ (host_name h))
    with (g := update_host_row now h); [where_tac|done|].
  intros f' o Hc Hh Hn. apply dwp_checkRowsAffected. rewrite Hn.
  pose proof (rep_set_hosts _ _ _ _ R Hc Hh). unfold Store.update_host. store_eval. by destruct (hosts db !! _).
Qed.

Lemma impl_set_cordoned now n c r :
  implements (SqlStore.set_cordoned now n c r) (Store.set_cordoned now n c r) db f.
Proof.
  unfold implements, SqlStore.set_cordoned.
  eapply (dwp_update_key enc_host _ f "hosts" _ (rep_hosts _ _ R) (own_host_keys db W) _ _ R _ _ n)
    with (g := cordon_row now c r); [where_tac|by destruct c|].
  intros f' o Hc Hh Hn. apply dwp_checkRowsAffected. rewrite Hn.
  pose proof (rep_set_hosts _ _ _ _ R Hc Hh). unfold Store.set_cordoned. store_eval. by destruct (hosts db !! _).
Qed.

Lemma count_vms_by_host none what name :
  row_or none what (scan1 scan_int32) (head (run_select
    (SelectScalar (Sum (Count "vms" ("flintlock_host" == Arg 1)%sql) (Count "placements" ("host" == Arg 2)%sql)))
    [VText name; VText name] (tables f))) =
  if decide (in_int32 (vms_counted name db)) then Ok (vms_counted name db) else Err (ErrOther what).
Proof.
  change (run_select (SelectScalar ?e) ?a ?t) with [[eval t a [] e]].
  change (eval ?t ?a [] (Sum ?x ?y)) with (value_sum (eval t a [] x) (eval t a [] y)).
  rewrite (eval_count_rows enc_vm "vms" f (vms db) (rep_vms _ _ R) (fun r => vr_flintlockHost r = name)) by where_tac.
  rewrite (eval_count_rows enc_placement "placements" f (placements db) (rep_placements _ _ R)
    (fun r => pl_host r = name)) by where_tac.
  cbn [head row_or value_sum scan1]. unfold scan, scan1, scan_int32. fold (vms_counted name db). unfold in_int32.
  by case_decide.
Qed.

Lemma impl_CountVMsByHost name : implements (SqlStore.CountVMsByHost name) (Store.CountVMsByHost name) db f.
Proof.
  unfold implements, SqlStore.CountVMsByHost. apply dwp_QueryRow; [done|]. apply dwp_lift.
  rewrite count_vms_by_host. unfold Store.CountVMsByHost. store_eval. unfold in_int32. by case_decide.
Qed.
End hosts.

Section host_rows.
Context `{Codec, Engine}.
Context (f : file) (m : gmap string hostRow) (Hf : holds f "hosts" (enc_host <$> rows m)) (Hk : own_keys hr_name m).

Lemma host_by_key none what name :
  row_or none what scanHost (head (run_select (Select hostColumns "hosts" ("name" == Arg 1)%sql [])
    [VText name] (tables f))) =
  match m !! name with Some r => Ok r | None => Err none end.
Proof. apply (row_by_key enc_host hr_name); [done|intros; apply scan_host|done|where_tac]. Qed.
End host_rows.

Lemma impl_GetHost `{Codec, Engine} f db name :
  represents f db -> db_wf db -> implements (SqlStore.GetHost name) (Store.GetHost name) db f.
Proof.
  intros R W. unfold implements, SqlStore.GetHost. apply dwp_QueryRow; [done|]. apply dwp_bind, dwp_lift.
  rewrite (host_by_key f _ (rep_hosts _ _ R) (own_host_keys db W)). unfold Store.GetHost. store_eval.
  destruct (hosts db !! name) as [r|]; [by apply dwp_ret|done].
Qed.

(** ** Drains *)

Section drains.
Context `{Codec, Engine}.

Lemma dwp_mark_unleased (Q : file -> result StoreError (list VMRecord) -> Prop) f db now where_ args
    (P : vmRow -> Prop) `{forall r, Decision (P r)} :
  represents f db -> own_keys vr_uid (vms db) ->
  (forall a, satisfies (tables f)
     ([phase DELETING; VInt (UnixNano now)] ++ args ++ [phase LEASED; phase PRE_LEASE_HOOK_RUNNING; phase DELETING])
     (where_ AND NotAmong "phase" [Arg (3 + length args); Arg (4 + length args); Arg (5 + length args)])%sql
     (enc_vm a) = true <-> P a /\ unleased a) ->
  (forall f', represents f' (set_vms (update_where (fun r => P r /\ unleased r) (mark_deleting now) (vms db)) db) ->
     Q f' (Ok (sort_on String.le vm_uid ((fun r => rowToVM (mark_deleting now r)) <$>
       filter (fun r => P r /\ unleased r) (rows (vms db)))))) ->
  dwp (SqlStore.markUnleasedVMsDeleting now where_ args) Q (fun _ => True) f.
Proof.
  intros R Hk Hw HQ. unfold SqlStore.markUnleasedVMsDeleting.
  eapply (dwp_update_returning enc_vm f "vms" _ (rep_vms _ _ R) _ _ I (fun r => P r /\ unleased r))
    with (g := mark_deleting now); [exact Hw|done|].
  intros f' l' Hc Hh Hl. rewrite <- (rows_update_where (fun r => P r /\ unleased r)) in Hh.
  apply dwp_bind, dwp_lift. rewrite mapM_fmap, (mapM_ext_in _ (fun a => Ok (mark_deleting now a))).
  2:{ intros a _. unfold scan. by rewrite scan_vm. }
  rewrite mapM_ok. apply dwp_ret. rewrite <- list_fmap_compose. unfold compose.
  rewrite (sort_on_unique String.le vm_uid _ ((fun r => rowToVM (mark_deleting now r)) <$>
    filter (fun r => P r /\ unleased r) (rows (vms db)))).
  - by apply HQ, (rep_set_vms f).
  - by rewrite Hl.
  - rewrite <- list_fmap_compose. rewrite Hl.
    eapply sublist_NoDup; [exact (NoDup_rows_key _ _ Hk)|]. apply fmap_sublist, list.sublist_filter.
Qed.

Context (f : file) (db : DB) (R : represents f db) (W : db_wf db) (T : typed db).

Lemma draining_where args a :
  satisfies (tables f) args (AmongSelect "flintlock_host" "name" "hosts" "draining") (enc_vm a) = true <->
  on_draining_host db a.
Proof.
  rewrite sat_amongselect. destruct (rep_hosts _ _ R) as (tab & Ht & _ & Hp). unfold table_rows. rewrite Ht.
  simpl default. unfold on_draining_host. pose proof (own_host_keys db W) as Hk. split.
  - intros (r & Hr & Hs & Hv). rewrite Hp in Hr. apply list_elem_of_fmap in Hr as (h & -> & [n Hh]%elem_of_rows).
    cbn in Hv. rewrite Hv, (Hk _ _ Hh), Hh. cbn in Hs. by destruct (hr_draining h).
  - destruct (hosts db !! vr_flintlockHost a) as [h|] eqn:Hh; [|done]. intros Hd. exists (enc_host h).
    rewrite Hp. split; [apply list_elem_of_fmap; exists h; split; [done|]; apply elem_of_rows; eauto|].
    split; [unfold satisfies; cbn; by rewrite Hd|]. cbn. symmetry. by apply Hk.
Qed.

Lemma impl_MarkDrainingHostsVMsDeleting now :
  implements (SqlStore.MarkDrainingHostsVMsDeleting now) (Store.MarkDrainingHostsVMsDeleting now) db f.
Proof.
  apply dwp_tx; [done|]. eapply (dwp_mark_unleased _ f db now _ _ (on_draining_host db)); [done|by apply own_vm_keys|..].
  - intros a. rewrite sat_both, draining_where. where_simpl.
  - intros f' R'. by split.
Qed.

Lemma DrainHost_eval now now' name reason :
  Store.DrainHost now now' name reason db =
  let hosts' := alter (drain_row now reason) name (hosts db) in
  let mine r := vr_flintlockHost r = name /\ unleased r in
  match hosts db !! name with
  | None => (db, Err ErrNotFound)
  | Some h =>
      (set_vms (update_where mine (mark_deleting now') (vms db)) (set_hosts hosts' db),
       Ok (rowToHost (drain_row now reason h),
           sort_on String.le vm_uid ((fun r => rowToVM (mark_deleting now' r)) <$> filter mine (rows (vms db)))))
  end.
Proof.
  unfold Store.DrainHost, Store.markUnleasedVMsDeleting. store_eval.
  destruct (hosts db !! name) as [h|] eqn:Hh; [|done]. rewrite decide_False by done. simpl.
  by rewrite lookup_alter_eq, Hh.
Qed.

Lemma drained a now reason tabs :
  assign tabs [null_text (NullString reason); VInt (UnixNano now); VInt (UnixNano now); VInt (UnixNano now); VText (hr_name a)]
    [("cordoned_reason", Coalesce (Arg 1) "cordoned_reason"); ("cordoned_at", Case "cordoned" "cordoned_at" (Arg 2));
     ("cordoned", Lit (VInt 1)); ("draining_at", Case "draining" "draining_at" (Arg 3));
     ("draining", Lit (VInt 1)); ("updated_at", Arg 4)] (enc_host a) = enc_host (drain_row now reason a).
Proof. unfold drain_row. by destruct a as [?? [] ??? ???? [] ?], (NullString reason). Qed.

Lemma impl_DrainHost now now' name reason :
  implements (SqlStore.DrainHost now now' name reason) (Store.DrainHost now now' name reason) db f.
Proof.
  unfold implements. rewrite DrainHost_eval. cbv zeta. apply dwp_tx; [done|].
  pose proof (own_host_keys db W) as Hk.
  eapply (dwp_update_key enc_host _ f "hosts" _ (rep_hosts _ _ R) Hk _ _ I _ _ name)
    with (g := drain_row now reason); [where_tac|intros a <-; apply drained|].
  intros f1 o Hc Hh Hn. pose proof (rep_set_hosts _ _ _ _ R Hc Hh) as R1.
  apply dwp_bind, dwp_checkRowsAffected. rewrite Hn.
  destruct (hosts db !! name) as [h|] eqn:Hx; [|done]. rewrite decide_False by done.
  apply dwp_bind, (dwp_mark_unleased _ f1 _ now' _ _ (fun r => vr_flintlockHost r = name) R1);
    [exact (own_vm_keys db W)|where_tac|].
  intros f2 R2. apply dwp_QueryRow; [done|]. apply dwp_bind, dwp_lift.
  rewrite (host_by_key f2 _ (rep_hosts _ _ R2)); simpl.
  - rewrite lookup_alter_eq, Hx. by apply dwp_ret.
  - intros k x [(-> & y & Hy & ->)|[_ Hy]]%lookup_alter_Some; simpl; by apply Hk.
Qed.
End drains.

(** ** Placements *)

Section placements.
Context `{Codec, Engine}.
Context (f : file) (db : DB) (R : represents f db) (W : db_wf db).

Lemma impl_ReleasePlacement id : implements (SqlStore.ReleasePlacement id) (Store.ReleasePlacement id) db f.
Proof.
  unfold implements, SqlStore.ReleasePlacement.
  eapply (dwp_delete_key enc_placement _ f "placements" _ (rep_placements _ _ R) (own_placement_keys db W)
    _ _ R _ _ id); [where_tac|].
  intros f' o Hc Hh _. apply dwp_ret. split; [|done]. by apply (rep_set_placements f).
Qed.

Lemma impl_ClearPlacements : implements SqlStore.ClearPlacements Store.ClearPlacements db f.
Proof.
  unfold implements, SqlStore.ClearPlacements.
  eapply (dwp_delete enc_placement f "placements" _ (rep_placements _ _ R) _ _ R (fun _ => True)); [where_tac|].
  intros f' o Hc Hh _. apply dwp_ret. split; [|done]. eapply (rep_set_placements f); [done..|].
  unfold rows at 1. rewrite map_to_list_empty. eapply holds_perm; [|exact Hh].
  apply reflexive_eq. clear. induction (rows (placements db)) as [|a l IH]; [done|].
  by rewrite filter_cons_False by tauto.
Qed.

Lemma host_cordoned_row none what name :
  row_or none what (scan1 scan_bool) (head (run_select (Select ["cordoned"] "hosts" ("name" == Arg 1)%sql [])
    [VText name] (tables f))) =
  match hosts db !! name with Some h => Ok (hr_cordoned h) | None => Err none end.
Proof.
  destruct (select_rows enc_host (fun h => hr_name h = name) f "hosts" _ [VText name] ("name" == Arg 1)%sql
    (rep_hosts _ _ R) ltac:(intros a _; where_simpl) ["cordoned"] []) as (l' & Hp & ->).
  rewrite (rows_key hr_name) in Hp by by apply own_host_keys.
  destruct (hosts db !! name) as [h|]; simpl in Hp.
  - apply Permutation_singleton_r in Hp as ->. cbn. unfold scan. cbn. by destruct (hr_cordoned h).
  - by apply Permutation_nil_r in Hp as ->.
Qed.

Lemma impl_ReservePlacement now id host n ns :
  implements (SqlStore.ReservePlacement now id host n ns) (Store.ReservePlacement now id host n ns) db f.
Proof.
  assert (E : Store.ReservePlacement now id host n ns db =
    match hosts db !! host with
    | None => (db, Err ErrHostNotRegistered)
    | Some h => if hr_cordoned h then (db, Err ErrHostCordoned) else
        match placements db !! id with
        | Some _ => (db, Err (ErrOther "insert placement"))
        | None => (set_placements (<[id := {| pl_id := id; pl_host := host; pl_poolName := n;
            pl_poolNamespace := ns; pl_createdAt := UnixNano now |}]> (placements db)) db, Ok tt)
        end
    end).
  { unfold Store.ReservePlacement. store_eval. destruct (hosts db !! host) as [h|]; [|done].
    destruct (hr_cordoned h); [done|]. by destruct (placements db !! id). }
  unfold implements. rewrite E. clear E.
  apply dwp_tx; [done|]. apply dwp_QueryRow; [done|]. apply dwp_bind, dwp_lift. rewrite host_cordoned_row.
  destruct (hosts db !! host) as [h|]; [|done]. destruct (hr_cordoned h); [by apply dwp_throw|].
  set (row := {| pl_id := id; pl_host := host; pl_poolName := n; pl_poolNamespace := ns; pl_createdAt := UnixNano now |}).
  eapply (dwp_insert enc_placement f "placements" (rows (placements db)) (rep_placements _ _ R)) with (a := row); [done..|].
  rewrite (key_error enc_placement pl_id); [|done|by apply own_placement_keys|not_null|intros a b; cbn; split; by intros [= ->]].
  cbn [pl_id row]. destruct (placements db !! id) as [old|] eqn:Ho; [done|].
  intros f' o Hc Hh. apply dwp_ret. split; [|done].
  eapply rep_set_placements; [done..|]. by rewrite rows_insert by done.
Qed.
End placements.

(** ** Removing a host *)

Lemma remove_dups_fmap {A B} `{!EqDecision A, !EqDecision B} (g : A -> B) `{!Inj (=) (=) g} (l : list A) :
  remove_dups (g <$> l) = g <$> remove_dups l.
Proof.
  induction l as [|a l IH]; [done|]. rewrite fmap_cons. cbn [remove_dups].
  rewrite IH. destruct (decide_rel _ a l) as [Ha|Ha].
  - destruct (decide_rel _ _ _) as [_|Hn]; [done|]. destruct Hn. by apply list_elem_of_fmap_2.
  - destruct (decide_rel _ _ _) as [(b & ->%(inj g) & Hb)%list_elem_of_fmap|_]; [done|]. by rewrite fmap_cons.
Qed.

Lemma remove_dups_sublist {A} `{!EqDecision A} (l : list A) : remove_dups l `sublist_of` l.
Proof.
  induction l as [|a l IH]; [done|]. cbn [remove_dups]. destruct (decide_rel _ a l).
  - by apply sublist_cons.
  - by apply sublist_skip.
Qed.

Lemma sublist_sorted {A} (P : relation A) (l k : list A) :
  l `sublist_of` k -> StronglySorted P k -> StronglySorted P l.
Proof.
  induction 1 as [|x l k Hlk IH|x l k Hlk IH]; intros Hs; [done|..];
    apply StronglySorted_inv in Hs as [Hs Hx]; [|auto].
  constructor; [auto|]. rewrite Forall_forall in *. eauto using elem_of_sublist.
Qed.

Section naming.
Context `{Codec, Engine}.
Context (f : file) (db : DB) (R : represents f db) (W : db_wf db).

Definition qualified (p : poolRow) : string * string := (pr_namespace p, pr_name p).

(** A row of the join: a pool and one of the hosts it names. *)
Definition enc_join (j : poolRow * string) : row :=
  enc_pool j.1 ++ [("json_each.value", VText j.2)].
Definition joined_pool (j : poolRow * string) : string * string := qualified j.1.
Definition join (l : list poolRow) : list (poolRow * string) :=
  p ← l; (fun x => (p, x)) <$> json_each (pr_flintlockHosts p).

Lemma source_join lv :
  visit (table_rows (tables f) "pools") = enc_pool <$> lv ->
  source_rows (tables f) (JsonEach "pools" "flintlock_hosts") = enc_join <$> join lv.
Proof.
  intros E. unfold source_rows, join. rewrite E. clear E. induction lv as [|p lv IH]; [done|].
  rewrite fmap_cons, !bind_cons, fmap_app, IH. f_equal. rewrite <- list_fmap_compose. done.
Qed.

Lemma join_naming name q l :
  q ∈ joined_pool <$> filter (fun j : poolRow * string => j.2 = name) (join l) <->
  q ∈ qualified <$> filter (fun p => name ∈ json_each (pr_flintlockHosts p)) l.
Proof.
  rewrite !list_elem_of_fmap. unfold join. split.
  - intros ([p x] & -> & [Hx (p' & (x' & [= -> ->] & Hj)%list_elem_of_fmap & Hl)%list_elem_of_bind]%list_elem_of_filter).
    simpl in Hx. subst x'. exists p'. split; [done|]. by apply list_elem_of_filter.
  - intros (p & -> & [Hj Hl]%list_elem_of_filter). exists (p, name). split; [done|].
    apply list_elem_of_filter. split; [done|]. apply list_elem_of_bind. exists p. split; [|done].
    by apply list_elem_of_fmap_2.
Qed.

Definition naming_query : select :=
  {| s_distinct := true; s_result := [Col "namespace"; Col "name"];
     s_from := Some (JsonEach "pools" "flintlock_hosts"); s_where := ("json_each.value" == Arg 1)%sql;
     s_order := ["namespace"; "name"]; s_limit := None |}.

Definition texts (q : string * string) : list value := [VText q.1; VText q.2].

#[local] Instance texts_inj : Inj (=) (=) texts.
Proof. by intros [] [] [= -> ->]. Qed.

Lemma naming_rows name :
  run_select naming_query [VText name] (tables f) =
  texts <$> (qualified <$> sort_on pair_le qualified
    (filter (fun p => name ∈ json_each (pr_flintlockHosts p)) (rows (pools db)))).
Proof.
  destruct (visited_rows enc_pool f "pools" _ (rep_pools _ _ R)) as (lv & E & Hp).
  unfold run_select, naming_query. cbn [s_from s_where s_order s_result s_distinct s_limit].
  rewrite (source_join lv E), (filter_enc enc_join _ (fun j => j.2 = name)) by (intros a _; where_simpl).
  set (J := filter _ (join lv)).
  rewrite (sort_on_fmap values_le pair_le enc_join (project ["namespace"; "name"]) joined_pool)
    by (intros a b; apply values_le_texts).
  rewrite <- list_fmap_compose. cbn [limit_rows fmap option_fmap option_map].
  change (compose _ enc_join) with (texts ∘ joined_pool).
  rewrite list_fmap_compose, remove_dups_fmap by apply _. f_equal.
  set (L := sort_on pair_le qualified _).
  assert (HL : NoDup (qualified <$> L)).
  { unfold L. rewrite (sort_on_perm pair_le qualified).
    eapply sublist_NoDup; [|apply fmap_sublist, list.sublist_filter].
    apply (NoDup_fmap_1 (fun q : string * string => (q.2, q.1))). rewrite <- list_fmap_compose.
    by apply NoDup_rows_key, own_pool_keys. }
  apply (StronglySorted_unique pair_le).
  - eapply sublist_sorted; [apply remove_dups_sublist|]. apply sort_on_keys; apply _.
  - apply sort_on_keys; apply _.
  - apply NoDup_Permutation; [apply NoDup_remove_dups|done|]. intros q.
    rewrite elem_of_remove_dups. unfold L. rewrite !(sort_on_perm pair_le), <- Hp. apply join_naming.
Qed.

Lemma impl_DeleteHost name : implements (SqlStore.DeleteHost name) (Store.DeleteHost name) db f.
Proof.
  assert (E : Store.DeleteHost name db =
    match hosts db !! name with
    | None => (db, Err ErrNotFound)
    | Some _ =>
        if decide (in_int32 (vms_counted name db)) then
          if decide (0 < length (pools_naming name db) \/ (0 < vms_counted name db)%Z)
          then (db, Err (HostInUseError (pools_naming name db) (vms_counted name db)))
          else (set_hosts (delete name (hosts db)) db, Ok tt)
        else (db, Err (ErrOther "scan int32"))
    end).
  { unfold Store.DeleteHost. store_eval. unfold in_int32. destruct (hosts db !! name); [|done].
    rewrite bool_decide_eq_true_2 by eauto. cbn [negb]. case_decide; [|done]. by case_decide. }
  unfold implements. rewrite E. clear E.
  apply dwp_tx; [done|]. apply dwp_QueryRow; [done|]. apply dwp_bind, dwp_lift.
  rewrite (exists_by_key enc_host hr_name "hosts" f (hosts db) (rep_hosts _ _ R) _ _ _ _ name);
    [|by apply own_host_keys|where_tac].
  destruct (hosts db !! name) as [h|] eqn:Hh; [|by apply dwp_throw].
  rewrite bool_decide_eq_true_2 by eauto. cbn [negb].
  apply dwp_QueryContext; [done|]. apply dwp_bind, dwp_lift. fold naming_query. rewrite naming_rows.
  rewrite mapM_fmap, (mapM_ext_in _ (fun q => Ok (id q))) by by intros [].
  rewrite mapM_ok, list_fmap_id, <- list_fmap_compose.
  change (compose _ qualified <$> _) with (pools_naming name db).
  apply dwp_QueryRow; [done|]. apply dwp_bind, dwp_lift. rewrite (count_vms_by_host f db R).
  case_decide; [|done]. case_decide; [by apply dwp_throw|].
  eapply (dwp_delete_key enc_host _ f "hosts" _ (rep_hosts _ _ R) (own_host_keys db W) _ _ I _ _ name); [where_tac|].
  intros f' o Hc Hf _. apply dwp_ret. split; [|done]. by apply (rep_set_hosts f).
Qed.
End naming.
