(* ===== verification/SqlImplements.v ===== *)
(** * The SQL of [sqlite.go] implements the store: every method

    The methods of [SqlRefine] and [SqlHosts] together ([op_implements]), with
    the choices of SQLite that [Store] leaves open read off the file. *)

From stdpp Require Import base gmap strings list sorting relations.
From Stdlib Require Import ZArith Lia.
From S2P Require Import Prelude Types Convert Store StoreOps StoreProps Schema SchemaProps Sql SqlStore SqlProps SqlTables SqlRefine SqlHosts.

(** ** Types *)

Section types.
Context `{Codec, Sqlite}.

Lemma poolToRow_typed p row :
  in_int32 (pool_size p) /\ in_int32 (policy_code (hook_failure_policy p)) ->
  poolToRow p = Ok row -> typed_pool row.
Proof.
  unfold poolToRow. intros Hp E.
  by destruct (heartbeat_interval p), (heartbeat_expiry_threshold p), (marshal_template _), (marshal_strategy _);
    simplify_eq/=.
Qed.

Lemma vmToRow_typed v row : in_int32 (phase_code (vm_phase v)) -> vmToRow v = Ok row -> typed_vm row.
Proof.
  unfold vmToRow. intros Hv E. by destruct (requireTimestamp _ _), (requireTimestamp _ _); simplify_eq/=.
Qed.

Lemma updated_row_typed row old : typed_vm row -> typed_vm (updated_row row old).
Proof. done. Qed.
Lemma mark_leased_typed now r : typed_vm (mark_leased now r).
Proof. by unfold typed_vm. Qed.

Hint Resolve poolToRow_typed vmToRow_typed updated_row_typed mark_leased_typed typed_update : battery.

Lemma op_keeps_typed {A} now now' (o : storeOp A) db :
  op_typed o -> typed db -> typed (denote now now' o db).1.
Proof.
  intros Ho T. destruct (denote now now' o db) as [db' r] eqn:E. destruct T as [TP TV TE].
  destruct o; store_run E; split; simpl in *; try done; eauto 6 with battery.
  apply Forall_app. split; [done|]. by apply Forall_singleton.
Qed.
End types.

Lemma empty_db_typed : typed empty_db.
Proof. split; simpl; [apply map_Forall_empty..|constructor]. Qed.

(** ** One call *)

(** The choices of [Store] that the engine makes on a file. *)
Lemma engine_choices `{Codec, Engine} f db :
  represents f db -> exists S : Sqlite,
    visit (table_rows (tables f) "vms") = enc_vm <$> scan_vms (vms db) /\
    visit (table_rows (tables f) "leases") = enc_lease <$> scan_leases (leases db) /\
    request_id_reported = index_first.
Proof.
  intros R. destruct (visited_rows enc_vm f "vms" _ (rep_vms _ _ R)) as (lv & Ev & Hv).
  destruct (visited_rows enc_lease f "leases" _ (rep_leases _ _ R)) as (ll & El & Hl).
  unshelve eexists {| scan_vms m := if decide (m = vms db) then lv else rows m;
                      scan_leases m := if decide (m = leases db) then ll else rows m;
                      request_id_reported := index_first |}.
  - intros m. cbn. case_decide; by subst.
  - intros m. cbn. case_decide; by subst.
  - simpl. by rewrite !decide_True.
Qed.

Lemma op_implements `{Codec, Engine} {A} f db now now' (o : storeOp A) :
  represents f db -> db_wf db -> typed db -> exists S : Sqlite,
    implements (sql_denote now now' o) (denote now now' o) db f.
Proof.
  intros R W T. destruct (engine_choices f db R) as (S & Hv & Hl & Hi). exists S. destruct o; cbn [sql_denote denote];
    eauto using impl_CreatePool, impl_GetPool, impl_ListPools, impl_UpdatePool, impl_DeletePool,
      impl_DeletePoolAndMarkVMs, impl_CreateVM, impl_GetVM, impl_ListVMsByPool, impl_ListVMsByPhase,
      impl_UpdateVM, impl_DeleteVM, impl_DeleteVMCheckingPool, impl_ClaimAvailableVM, impl_CreateLease,
      impl_LeaseVM, impl_GetLease, impl_GetLeaseByRequestID, impl_UpdateLeaseHeartbeat, impl_DeleteLease,
      impl_ListExpiredLeases, impl_ListLeases, impl_DeleteLeaseIfExpired;
    eauto using impl_AppendEvent, impl_ListEventsSince, impl_ListAllEventsSince, impl_CreateHost,
      impl_update_host, impl_DeleteHost, impl_GetHost, impl_ListHosts, impl_set_cordoned, impl_DrainHost,
      impl_MarkDrainingHostsVMsDeleting, impl_ReservePlacement, impl_ReleasePlacement, impl_ClearPlacements,
      impl_CountVMsByHost.
Qed.

(** An UPDATE and a read that can fail after it. *)
Lemma write_then_GetHost `{Codec, Engine} f db (u : DbM unit) (u' : Store.M unit) name :
  implements u u' db f -> (forall db', u' db = (db', Ok tt) -> db_wf db') ->
  dwp (u;; SqlStore.GetHost name)
    (fun f' r => represents f' ((u';; Store.GetHost name) db).1 /\ r = ((u';; Store.GetHost name) db).2)
    (fun f' => exists db', (db' = db \/ u' db = (db', Ok tt)) /\ represents f' db') f.
Proof.
  intros Hu Hwf. apply dwp_bind. eapply dwp_mono; [| |exact Hu]; [|by eauto].
  intros f' r [R ->]. unfold mbind, Store.M_bind. destruct (u' db) as [db' [[]|e]] eqn:E; simpl in *; [|done].
  eapply dwp_mono; [| |apply (impl_GetHost f' db' name R (Hwf _ eq_refl))]; [done|].
  intros f'' R'. exists db'. by split; [right|].
Qed.

Lemma method_implements `{Codec, Engine} {A} f db now now' (m : storeMethod A) :
  represents f db -> db_wf db -> typed db -> exists S : Sqlite,
    dwp (sql_method now now' m)
      (fun f' r => represents f' (denote_method now now' m db).1 /\ r = (denote_method now now' m db).2)
      (fun f' => exists db', after_error now m db db' /\ represents f' db') f.
Proof.
  intros R W T. destruct m as [A o|h|n c r].
  - destruct (op_implements f db now now' o R W T) as [S Hs]. exists S.
    eapply dwp_mono; [| |exact Hs]; [done|]. intros f' R'. exists db. by split; [left|].
  - destruct (engine_choices f db R) as (S & _). exists S. cbn [sql_method denote_method].
    apply write_then_GetHost; [by apply impl_update_host|]. intros db' E.
    pose proof (op_keeps_wf now now' (OpUpdateHostRow h) db) as Hk. cbn [denote] in Hk. rewrite E in Hk. by apply Hk.
  - destruct (engine_choices f db R) as (S & _). exists S. cbn [sql_method denote_method].
    apply write_then_GetHost; [by apply impl_set_cordoned|]. intros db' E.
    pose proof (op_keeps_wf now now' (OpSetCordonRow n c r) db) as Hk. cbn [denote] in Hk. rewrite E in Hk. by apply Hk.
Qed.

(** A call that fails by itself leaves one of those databases too. *)
Lemma failed_method `{Codec, Sqlite} {A} now now' (m : storeMethod A) db db' e :
  denote_method now now' m db = (db', Err e) -> after_error now m db db'.
Proof.
  assert (Hh : forall (u' : Store.M unit) n, (u';; Store.GetHost n) db = (db', Err e) ->
    (exists e', u' db = (db', Err e')) \/ u' db = (db', Ok tt)).
  { intros u' n. unfold mbind, Store.M_bind. destruct (u' db) as [db1 [[]|e']]; [|by intros [= -> ->]; eauto].
    unfold Store.GetHost. store_simpl. by destruct (hosts db1 !! n); intros [= ->]; auto. }
  destruct m as [A o|h|n c r]; cbn [denote_method].
  - intros E. left. by apply failed_op_keeps_db in E.
  - intros [[e' E]|E]%Hh; [left|by right].
    by apply (failed_op_keeps_db now now' (OpUpdateHostRow h) db db' e').
  - intros [[e' E]|E]%Hh; [left|by right].
    by apply (failed_op_keeps_db now now' (OpSetCordonRow n c r) db db' e').
Qed.
