(* ===== verification/SqlLife.v ===== *)
(** * The life of a database file

    [Open_keeps_database]: a file that a binary of any version of the schema
    wrote holds the same database once it is open.  [database_life]: whatever
    is called, fails and is opened again in between, the file holds a database
    that calls of the [Store] interface lead to. *)

From stdpp Require Import base gmap strings list sorting relations.
From Stdlib Require Import ZArith Lia.
From S2P Require Import Prelude Types Convert Store StoreOps StoreProps Concrete Schema SchemaProps Sql SqlStore SqlProps SqlTables SqlImplements.

(** ** Files of every version *)

(** The file is at version [v] and has the rows of [db]; what the version has
    no columns for has its default in [db]. *)
Record represents_at (v : nat) (f : file) (db : DB) : Prop := {
  ra_version : at_version v f;
  ra_pools : table_rows (tables f) "pools" ≡ₚ enc_pool <$> rows (pools db);
  ra_vms : table_rows (tables f) "vms" ≡ₚ enc_vm <$> rows (vms db);
  ra_leases : table_rows (tables f) "leases" ≡ₚ lease_row_at v <$> rows (leases db);
  ra_events : table_rows (tables f) "events" ≡ₚ enc_event <$> events db;
  ra_hosts : table_rows (tables f) "hosts" ≡ₚ host_row_at v <$> rows (hosts db);
  ra_placements : table_rows (tables f) "placements" ≡ₚ enc_placement <$> rows (placements db);
  ra_sequence : sequence f = events_seq db;
  ra_lease_defaults : map_Forall (fun _ l => lease_known v l = l) (leases db);
  ra_host_defaults : map_Forall (fun _ h => host_known v h = h) (hosts db)
}.

(** *** The current version *)

Lemma holds_table_rows f t l : holds f t l -> table_rows (tables f) t ≡ₚ l.
Proof. intros (tab & Ht & _ & Hp). unfold table_rows. by rewrite Ht. Qed.

(** The columns of the rows written are those of the table. *)
Lemma holds_columns {A} f t (enc : A -> row) l tab r :
  holds f t (enc <$> l) -> (forall a, (enc a).*1 = columns_at (length migrations) t) ->
  tables f !! t = Some tab -> r ∈ tab_rows tab -> columns tab = columns_at (length migrations) t /\ r.*1 = columns tab.
Proof.
  intros (tab' & Ht & Hc & Hp) He Ht' Hr. rewrite Ht in Ht'. injection Ht' as ->. split; [done|].
  rewrite Hp, list_elem_of_fmap in Hr. destruct Hr as (a & -> & _). by rewrite He, Hc.
Qed.

Lemma table_names t : t ∈ schema.*1 ->
  t = "pools" \/ t = "vms" \/ t = "leases" \/ t = "events" \/ t = "hosts" \/ t = "placements".
Proof. simpl. set_solver. Qed.

(** Every table of an open file holds encoded rows. *)
Lemma represents_table f db t :
  represents f db -> t ∈ schema.*1 -> exists A (enc : A -> row) l, holds f t (enc <$> l) /\
    forall a, (enc a).*1 = columns_at (length migrations) t.
Proof.
  intros [] [->|[->|[->|[->|[->| ->]]]]]%table_names.
  - by exists poolRow, enc_pool, (rows (pools db)).
  - by exists vmRow, enc_vm, (rows (vms db)).
  - by exists leaseRow, enc_lease, (rows (leases db)).
  - by exists eventRow, enc_event, (events db).
  - by exists hostRow, enc_host, (rows (hosts db)).
  - by exists placementRow, enc_placement, (rows (placements db)).
Qed.

Lemma represents_version f db : represents f db -> at_version (length migrations) f.
Proof.
  intros R. split.
  - apply R.
  - done.
  - intros t tab Ht. assert (Hs : t ∈ schema.*1) by (apply (rep_tables _ _ R); eauto).
    destruct (represents_table f db t R Hs) as (A & enc & l & (tab' & Ht' & Hc & _) & _). split; [done|].
    rewrite Ht in Ht'. by injection Ht' as ->.
  - intros t tab r Ht Hr. assert (Hs : t ∈ schema.*1) by (apply (rep_tables _ _ R); eauto).
    destruct (represents_table f db t R Hs) as (A & enc & l & Hh & He). by eapply holds_columns.
  - intros _ t Hs. destruct (represents_table f db t R Hs) as (A & enc & l & (tab' & Ht' & _) & _). eauto.
  - split; [intros _; simpl; lia|intros _; apply R].
Qed.

Lemma represents_current f db : represents f db <-> represents_at (length migrations) f db.
Proof.
  split.
  - intros R. split; try (apply holds_table_rows; apply R).
    + by eapply represents_version.
    + apply R.
    + intros k l _. by destruct l.
    + intros k h _. by destruct h.
  - intros [V]. assert (Ht : forall t l, t ∈ schema.*1 -> table_rows (tables f) t ≡ₚ l -> holds f t l).
    { intros t l Hs Hp. destruct (av_full _ _ V ltac:(done) t Hs) as [tab Htab].
      exists tab. split_and!; [done|by eapply (av_tables _ _ V)|]. unfold table_rows in Hp. by rewrite Htab in Hp. }
    split; try (apply Ht; [simpl; set_solver|done]); try done.
    + apply (av_index _ _ V). simpl. lia.
    + apply (av_version _ _ V).
    + intros t [tab Htab]. by eapply (av_tables _ _ V).
Qed.

(** *** Migrating *)

Lemma grown_rows v w f f' t :
  grown v w f f' -> table_rows (tables f') t = upgrade (adds v w t) <$> table_rows (tables f) t.
Proof.
  intros [Hr Hn _]. unfold table_rows. destruct (tables f !! t) as [tab|] eqn:Ht; simpl.
  - destruct (Hr t tab Ht) as (tab' & -> & E). done.
  - destruct (tables f' !! t) as [tab'|] eqn:Ht'; [|done]. simpl. by eapply Hn.
Qed.

Ltac versions Hv Hw :=
  match type of Hw with ?w <= _ => destruct w as [|[|[|[|?]]]] end; try (simpl in Hw; lia);
  match type of Hv with ?v <= _ => destruct v as [|[|[|[|?]]]] end; try lia.

Lemma adds_other v w t : v <= w -> w <= length migrations -> t <> "leases" -> t <> "hosts" -> adds v w t = [].
Proof. intros Hv Hw Hl Hh. versions Hv Hw; unfold adds, added; simpl; by rewrite ?decide_False by done. Qed.

Lemma upgrade_lease v w l :
  v <= w -> w <= length migrations -> lease_known v l = l ->
  upgrade (adds v w "leases") (lease_row_at v l) = lease_row_at w l /\ lease_known w l = l.
Proof. intros Hv Hw <-. destruct l. versions Hv Hw; done. Qed.

Lemma upgrade_host v w h :
  v <= w -> w <= length migrations -> host_known v h = h ->
  upgrade (adds v w "hosts") (host_row_at v h) = host_row_at w h /\ host_known w h = h.
Proof. intros Hv Hw <-. destruct h. versions Hv Hw; done. Qed.

Lemma fmap_upgrade {A} v w t (enc enc' : A -> row) rs l :
  rs ≡ₚ enc <$> l -> (forall a, a ∈ l -> upgrade (adds v w t) (enc a) = enc' a) ->
  upgrade (adds v w t) <$> rs ≡ₚ enc' <$> l.
Proof.
  intros -> He. rewrite <- list_fmap_compose. apply reflexive_eq, list_fmap_ext.
  intros i a Ha%list_elem_of_lookup_2. by apply He.
Qed.

Lemma represents_grown v w f f' db :
  v <= w -> grown v w f f' -> at_version w f' -> represents_at v f db -> represents_at w f' db.
Proof.
  intros Hv Hg Hat []. pose proof (av_le _ _ Hat) as Hw.
  assert (Hl : forall l, l ∈ rows (leases db) -> lease_known v l = l)
    by (intros l [k Hk]%elem_of_rows; eauto).
  assert (Hh : forall h, h ∈ rows (hosts db) -> host_known v h = h)
    by (intros h [k Hk]%elem_of_rows; eauto).
  assert (Ho : forall A (enc : A -> row) t l, t <> "leases" -> t <> "hosts" ->
    table_rows (tables f) t ≡ₚ enc <$> l -> table_rows (tables f') t ≡ₚ enc <$> l).
  { intros A enc t l H1 H2 Hp. by rewrite (grown_rows v w f f' t Hg), adds_other, upgrade_nil. }
  split; try (by apply Ho); try done.
  - rewrite (grown_rows v w f f' _ Hg). eapply fmap_upgrade; [done|]. intros l Hin. by apply upgrade_lease; auto.
  - rewrite (grown_rows v w f f' _ Hg). eapply fmap_upgrade; [done|]. intros h Hin. by apply upgrade_host; auto.
  - by rewrite (gr_sequence _ _ _ _ Hg).
  - intros k l Hk. apply (upgrade_lease v w); eauto.
  - intros k h Hk. apply (upgrade_host v w); eauto.
Qed.

Lemma represents_new : represents_at 0 new_file empty_db.
Proof. split; try done; [apply new_file_at_0|apply map_Forall_empty..]. Qed.

(** ** Opening *)

(** C30: Opening a database file of any age keeps its database.  Take a file that a
    binary at any version of the schema wrote: a lease from before request ids has
    none, a host from before TLS settings and drains has none and is not draining.
    Whatever fails while [Open] migrates it, the file still holds that database, at
    the same version or a later one, so that [Open] can be tried again; when [Open]
    succeeds the file holds it in the tables of the current version, ready for
    every method; and when nothing fails it succeeds. *)
Theorem Open_keeps_database x v f db :
  represents_at v f db ->
  (exists w, v <= w /\ represents_at w (Open x f).1 db) /\
  ((Open x f).2 = None -> represents (Open x f).1 db) /\
  (Open no_faults f).2 = None.
Proof.
  intros R. pose proof (ra_version _ _ _ R) as Hat.
  destruct (Open_result x v f Hat) as ((w & Hw & Hatw & Hg & Hok) & _ & _).
  destruct (Open_result no_faults v f Hat) as (_ & _ & Hno).
  assert (Rw : represents_at w (Open x f).1 db) by by eapply represents_grown.
  split_and!; [eauto| |auto]. intros E. destruct (Hok E) as [-> _]. by apply represents_current.
Qed.

(** ** Calls and restarts *)

Section life.
Context `{Codec}.

(** What can be done to a file; the flag says whether the last [Open]
    succeeded.  UpdateHost and SetHostCordoned are two calls, other calls may come
    between them.  Each call may fail anywhere, and be run by SQLite in its way. *)
Inductive life (f0 : file) : bool -> file -> Prop :=
  | life_start : life f0 false f0
  | life_open x b f : life f0 b f ->
      life f0 (match (Open x f).2 with None => true | Some _ => false end) (Open x f).1
  | life_call {A} (E : Engine) now now' (o : storeOp A) fs f :
      life f0 true f -> op_ok o -> op_typed o ->
      life f0 true (c_file (sql_denote now now' o {| c_file := f; c_faults := fs |}).1).

(** A call of a [Store] method, with choices of its own. *)
Definition any_call (db db' : DB) : Prop := exists S : Sqlite, store_step db db'.

(** C29: Through the whole life of a database file the SQL refines the [Store]
    interface.  Start from a new file, or from one that an older binary wrote;
    open it, call methods and open it again, any number of times, with calls of
    the driver and steps of [Open] failing anywhere.  At every moment the file
    holds a well-formed database that a sequence of calls of the abstract
    operations leads to (keys are unique, request ids too, event ids grow and stay
    below the counter, a draining host is cordoned, a placement's host is
    registered), and while it is open it holds it in the current schema, so that
    the next call again does what the interface says. *)
Theorem database_life v f0 db0 b f :
  represents_at v f0 db0 -> db_wf db0 -> typed db0 -> life f0 b f ->
  exists db, rtc any_call db0 db /\ db_wf db /\ typed db /\
    (exists w, v <= w /\ represents_at w f db) /\ (b = true -> represents f db).
Proof.
  intros R0 W0 T0 Hl. induction Hl as [|x b f Hl IH|A E now now' o fs f Hl IH Hok Ho].
  - exists db0. split_and!; try done. by exists v.
  - destruct IH as (db & Hs & W & T & (w & Hw & R) & _).
    destruct (Open_result x w f (ra_version _ _ _ R)) as ((w' & Hw' & Hat & Hg & Hsucc) & _ & _).
    pose proof (represents_grown w w' f _ db Hw' Hg Hat R) as R'.
    exists db. split_and!; try done; [exists w'; split; [lia|done]|].
    destruct (Open x f).2; [done|]. intros _. destruct (Hsucc eq_refl) as [-> _]. by apply represents_current.
  - destruct IH as (db & Hs & W & T & (w & Hw & Rw) & R). specialize (R eq_refl).
    pose proof (ra_version _ _ _ Rw) as Hat. pose proof (av_le _ _ Hat) as Hle.
    destruct (op_implements f db now now' o R W T) as [S Hop]. destruct (Hop fs) as [_ [[Rc _]|(_ & _ & Rc)]].
    + exists (denote now now' o db).1. split_and!; [|by apply op_keeps_wf|by apply op_keeps_typed| |done].
      * eapply rtc_r; [done|]. exists S. by constructor.
      * exists (length migrations). split; [lia|]. by apply represents_current.
    + exists db. split_and!; try done. exists (length migrations). split; [lia|]. by apply represents_current.
Qed.
End life.

(** ** One call *)

(** C4: The SQL that [sqlite.go] sends implements the [Store] interface.  Take a
    database file that holds a well-formed database, any method with any
    arguments, any order in which SQLite visits the rows of a table, and any
    calls of the driver failing, those of BeginTx and Commit included.  Either
    the method returns what its specification on the tables returns and leaves the
    file with the tables that leaves, or a call failed and the method returns the
    driver's error.  So without failures each method is exactly its specification.
    Whenever a method returns an error, of its own or of the driver, the database
    is unchanged, except by UpdateHost and SetHostCordoned: those read the row back
    after their UPDATE, outside a transaction, and if the read fails the database
    may also be the one with the UPDATE done. *)
Theorem sqlite_implements `{Codec, Engine} {A} f db now now' (m : storeMethod A) fs :
  represents f db -> db_wf db -> typed db ->
  let r := sql_method now now' m {| c_file := f; c_faults := fs |} in
  ((exists S : Sqlite, represents (c_file r.1) (denote_method now now' m db).1 /\
      r.2 = (denote_method now now' m db).2) \/
   (true ∈ fs /\ exists what, r.2 = Err (ErrOther what))) /\
  (forall e, r.2 = Err e -> exists db', after_error now m db db' /\ represents (c_file r.1) db').
Proof.
  intros R W T. destruct (method_implements f db now now' m R W T) as [S Hs].
  destruct (Hs fs) as [_ [[Hq Hr]|(Hin & Hw & Hq)]]; [|by split; [right|]].
  split; [left; by exists S|]. intros e He. destruct (denote_method now now' m db) as [db' r] eqn:E.
  cbn [fst snd] in *. rewrite He in Hr. subst r. exists db'. split; [|done]. by eapply failed_method.
Qed.

(** ** A concrete file *)

(** An engine that visits the newest rows first. *)
#[export] Instance engine0 : Engine :=
  {| visit := reverse; visit_perm l := reverse_Permutation l; index_first := true |}.

Definition opened : file := (Open no_faults new_file).1.

Lemma opened_represents : represents opened empty_db.
Proof.
  destruct (Open_result no_faults 0 new_file new_file_at_0) as ((w & Hw & Hat & Hg & Hok) & _ & Hno).
  destruct (Hok (Hno eq_refl)) as [-> _]. apply represents_current.
  exact (represents_grown 0 _ new_file _ empty_db Hw Hg Hat represents_new).
Qed.

Definition run_on {A} (o : storeOp A) (fs : list bool) (f : file) : file * result StoreError A :=
  let r := sql_denote 0 0 o {| c_file := f; c_faults := fs |} in (c_file r.1, r.2).

(** The file with one VM, and the VM leased on it. *)
Definition insert_vm : storeOp unit := OpCreateVM (vm0 "vm-1" AVAILABLE None).
Definition lease_vm : storeOp unit :=
  OpLeaseVM (vm0 "vm-1" LEASED (Some "lease-1")) (lease0 "lease-1" "vm-1" "req-1" 5).
Definition file1 : file := (run_on insert_vm [] opened).1.
Definition db1 : DB := (denote 0 0 insert_vm empty_db).1.

Lemma db1_ok : db_wf db1 /\ typed db1.
Proof.
  split; [apply op_keeps_wf; [done|apply empty_db_wf]|apply op_keeps_typed; [done|apply empty_db_typed]].
Qed.

Lemma file1_represents : represents file1 db1.
Proof.
  destruct (op_implements opened empty_db 0 0 insert_vm opened_represents empty_db_wf empty_db_typed) as [S Hs].
  destruct (Hs []) as [_ [[R _]|(Hin & _)]]; [|by apply not_elem_of_nil in Hin]. exact R.
Qed.

(** A host is registered, and its address changed, but the row cannot be read
    back. *)
Definition host1 (address : string) : Host :=
  {| host_name := "host-a"; host_address := address; host_tls := None; host_cordoned := false;
     host_cordoned_reason := ""; host_cordoned_at := None; host_draining := false; host_draining_at := None;
     host_updated_at := Some 0%Z |}.
Definition readback0 : conn * result StoreError Host :=
  sql_method 7 7 (MethodUpdateHost (host1 "a:2"))
    {| c_file := (run_on (OpCreateHost (host1 "a:1")) [] opened).1; c_faults := [false; true] |}.

Lemma sqlite_implements_witness :
  (run_on lease_vm [] file1).2 = Ok tt /\
  length (table_rows (tables (run_on lease_vm [] file1).1) "leases") = 1 /\
  (* the commit fails *)
  run_on lease_vm [false; false; false; true] file1 = (file1, Err (ErrOther "commit lease vm tx")) /\
  (* UpdateHost fails with its UPDATE done *)
  readback0.2 = Err (ErrOther "query host") /\
  (fun r => r !! 1) <$> table_rows (tables (c_file readback0.1)) "hosts" = [Some ("address", VText "a:2")] /\
  (exists S : Sqlite, represents (run_on lease_vm [] file1).1 (denote 0 0 lease_vm db1).1).
Proof.
  split; [by vm_compute|]. split; [by vm_compute|]. split; [by vm_compute|]. split; [by vm_compute|]. split; [by vm_compute|].
  destruct db1_ok as [W T].
  destruct (sqlite_implements file1 db1 0 0 (Atomic lease_vm) [] file1_represents W T) as [[(S & R & _)|(Hin & _)] _].
  - by exists S.
  - by apply not_elem_of_nil in Hin.
Defined.

Lemma database_life_witness :
  (Open no_faults file1).2 = None /\
  exists db, rtc any_call empty_db db /\ db_wf db /\ typed db /\
    (exists w, 0 <= w /\ represents_at w (Open no_faults file1).1 db) /\ (true = true -> represents (Open no_faults file1).1 db).
Proof.
  split; [by vm_compute|].
  apply (database_life 0 new_file empty_db true _ represents_new empty_db_wf empty_db_typed).
  apply (life_open new_file no_faults true file1).
  apply (life_call new_file engine0 0 0 insert_vm [] opened); [|done|done].
  apply (life_open new_file no_faults false new_file), life_start.
Defined.

(** A file that a binary of version 1 wrote, with a cordoned host and a lease. *)
Definition old_file : file :=
  {| user_version := 1;
     tables := <["hosts" := {| columns := hosts_columns; tab_rows := [host_row_at 1 old_host] |}]>
       (<["leases" := {| columns := leaseColumns; tab_rows := [lease_row_at 1 old_lease] |}]> (new_tables schema));
     indexes := {[idx_leases_request_id]}; sequence := 0 |}.
Definition old_db : DB :=
  set_hosts {["host-1" := old_host]} (set_leases {["lease-1" := old_lease]} empty_db).

Lemma old_file_represents : represents_at 1 old_file old_db.
Proof.
  split; try by vm_compute.
  - split; [done|simpl; lia|..].
    + change (map_Forall (fun t tab => t ∈ schema.*1 /\ columns tab = columns_at 1 t) (tables old_file)).
      apply (bool_decide_unpack _). by vm_compute.
    + assert (Hr : map_Forall (fun _ tab => Forall (fun r : row => r.*1 = columns tab) (tab_rows tab)) (tables old_file))
        by (apply (bool_decide_unpack _); by vm_compute).
      intros t tab r Ht. specialize (Hr t tab Ht). rewrite Forall_forall in Hr. apply Hr.
    + intros _ t Ht. assert (Hf : Forall (fun t => is_Some (tables old_file !! t)) schema.*1)
        by (apply (bool_decide_unpack _); by vm_compute).
      by eapply Forall_forall in Hf.
    + split; [done|]. intros _. simpl. set_solver.
  - by apply map_Forall_singleton.
  - by apply map_Forall_singleton.
Qed.

Lemma Open_keeps_database_witness :
  represents_at 1 old_file old_db /\ represents (Open no_faults old_file).1 old_db /\
  (GetHost "host-1" {| c_file := (Open no_faults old_file).1; c_faults := [] |}).2 = Ok (rowToHost old_host).
Proof.
  split; [exact old_file_represents|]. split; [|by vm_compute].
  apply (Open_keeps_database no_faults 1 old_file old_db old_file_represents). by vm_compute.
Defined.
